(* ===== verification/_CoqProject ===== *)
-Q . S2P
Prelude.v
Extern.v
Compat.v
Ids.v
Lifecycle.v
Types.v
Linkage.v
LiteRuntime.v
Distributor.v
Handlers.v
ActorRuntime.v
Extra.v
Tasks.v
NetFrame.v
Invariant.v
Growth.v
Supervision.v
Liveness.v
Evolution.v
Drained.v
Runs.v
Delivery.v
Asked.v
Informed.v
Shutdown.v
Tree.v
System.v
Waiting.v
Thread.v
Route.v
Talker.v
WebSocket.v
Server.v
Serving.v
Client.v
Session.v
Closed.v
Programs.v
Million.v
