(* ===== verification/Prelude.v ===== *)
(** * meio: a verification library

    meio is an actor framework: actors own two queues and handle one message at a
    time; lite tasks run beside them; every child reports its end to its
    supervisor, which terminates its children group by group before it ends.
    meio-connect builds an HTTP and WebSocket server and client on top of it.
    This library models both crates, function by function, and proves what makes
    them correct.

    ** How the parts fit

    The state that is shared between futures (channels, watches, oneshots, the
    heap of ids) is a record, [Linkage.Net]; what a sender or a receiver holds is a
    location of it.  A function of the source that touches it takes the [Net] and
    returns it changed.  A handler, which is user code, is a finite tree of calls
    of the framework ([Handlers.Code]); the calls are interpreted by
    [ActorRuntime.exec].  The future of an actor is a state machine,
    [ActorRuntime.actor_step], one poll per step; [Invariant.sys_step] interleaves
    the actors, the ends of the tasks, the calls of everything else and the drops of
    the senders that the state of the framework does not hold
    ([Invariant.gives_up], [Invariant.held]).

    The crates the program calls are type classes with laws that state the
    documented effect of each operation ([Extern], [Route.Hyper], [Route.Slab],
    [System.IntoStream], [Talker.WsMessage], [Talker.ProtocolCodec], the socket
    [Talker.WsStream] and the wire between two of them, [Session.WsWire]); nothing
    else is assumed of them.  [Extern.Reference] implements the channels, the timers and
    the errors, and every witness evaluates on it.  A program built on the
    framework is the class [Types.App] (its data) and the class
    [Handlers.ActorImpl] (its handlers); [Types.sample_app] and
    [Handlers.sample_impl] are a small one.

    ** Files

    - [Prelude]: results, polls, panics, iteration orders of hash tables, lists.
    - [Extern]: the classes of tokio, tokio-util, futures, anyhow and uuid; instants
      and durations with their range.
    - [Compat] (compat.rs): the timer queue of the actors, an instance of the class it
      wraps, and the stub that replaces it in the wasm build.
    - [Ids] (meio/src/ids.rs): ids are heap locations (Arc::ptr_eq), not uuids.
    - [Lifecycle] (lifecycle.rs): [Tracker] is the LifetimeTracker, written against
      the class [LifecycleNotifier]; [Observer] is the instance that logs who is
      interrupted; [LifecycleProps] has the theorems.
    - [Types] (the data of handlers.rs, linkage/address.rs, lite_runtime.rs).
    - [Linkage] (linkage/address.rs): the network and the methods of Address.
    - [LiteRuntime] (lite_runtime.rs and the notifiers of lifecycle.rs): stop
      channels, the default chain of LiteTask, spawn and the end of a task; the
      instance [net_notifier] of the tracker's interface.
    - [Distributor] (linkage/recipient.rs, distributor.rs, task_distributor.rs).
    - [Handlers] (handlers.rs, and AttachStream of forwarders.rs): envelopes and
      the blanket implementations.
    - [ActorRuntime] (actor_runtime.rs): Context, spawn, entrypoint and routine.
    - [Extra] (meio-extra): custom actions and the extended handler.
    - [Tasks] (forwarders.rs, InteractionTask, tasks/): the framework's own tasks.
    - [NetFrame]: what every call preserves; [Invariant]: the whole system and its
      invariant; [Supervision]: what follows for every reachable system.
    - [Growth]: the interface of a relation on networks that every call respects
      ([Growth.NetRel]) and of one that the loss of the last sender of a channel respects
      ([Growth.DropRel]), with their instances: queues grow at their end, watches move
      towards [Stop].  [Liveness]: how children evolve, and that terminating actors end.
    - [Evolution]: what a step does to a tracker and which futures it makes;
      [Drained]: priorities, and that a queue whose sender is held is never over; [Runs]: infinite runs,
      fairness, and that an actor goes on along them; [Delivery]: messages are received
      and requests answered.
    - [Asked], [Informed]: what becomes of an interruption, and that the children of a
      terminating group were asked; [Shutdown]: the end of a tree of actors.
    - [Tree]: the abstract supervision tree, and the refinement of it.
    - [System] (system.rs, signal.rs), [Waiting]: the wait for a program on a run of
      the system; [Thread] (thread.rs).
    - [Closed]: programs that are known in full (actors, tasks and one body of code):
      every next state, and the exploration of every interleaving; [Programs]
      (meio/src/lib.rs): the integration tests; [Million]: the last of them, for any
      number of actors.
    - [Route] (meio-connect server/route.rs, Svc and MakeSvc of server/routine.rs),
      [Server] (server/mod.rs, bind.rs, link.rs, routine.rs), and [Serving]: the actor,
      its listeners and its connections together, against a reference.
    - [Talker] (talker.rs), [WebSocket] (server/websocket.rs) and [Client]
      (client.rs), which run talkers, and [Session]: two talkers on the two ends of
      one connection.

    ** What is shown

    - Supervision ([Supervision]): in every reachable system a supervisor tracks
      exactly its running children and those whose end it has not read; an actor
      is stopped only by its own [stop] or when its termination has outlived its
      children; a termination is never stuck; the runtime never panics; queues
      are private.  The invariant is [Invariant.sys_inv]; between two calls of
      one step a child can be spawned and not tracked yet, or over and not
      reported yet, which is what [Invariant.Ghost] names.
    - Liveness ([Liveness]): a terminating actor whose children are over ends,
      whatever the others do and send in between ([Liveness.inevitable]).  On every
      fair run an actor that was asked to end does end, with a tree of any depth
      below it ([Shutdown.tree_ends]): a terminating actor waits for children that
      were asked themselves ([Informed.termination_reaches_children]), children are
      younger than their supervisor, and the tree has less and less to do.  So a program
      whose root was interrupted by Ctrl-C is joined in the end ([Waiting]).
    - Delivery ([Drained], [Delivery]): what an actor of a reachable system does next
      ([Drained.priorities]); on every fair run a high-priority message is received,
      and a normal one is handled and a request answered once nothing of high priority
      is sent any more.  The queues before a message get shorter with every choice of
      the actor ([Growth.feeds]: the others only append), and a handler ends.
    - Refinement ([Tree]): a forest of nodes with a status and children is the
      specification ([Tree.forest_step]); every step of a reachable system is a
      step of it or invisible.  What is proved of the forest, such as that the
      life of an actor goes one way, holds of the system.
    - The tracker ([Lifecycle.LifecycleProps]): the loop of try_terminate_next
      against its closed form, the order of the groups, that each child is
      interrupted once, completion of a termination.
    - The actor ([ActorRuntime]): start, priorities, handlers, interactions, end.
    - Messages, ids and tasks ([Linkage], [Ids], [LiteRuntime], [Tasks],
      [Distributor]): routing, freshness, round trips, stopping, reporting.
    - Waiting and threads ([System], [Thread]).
    - Serving ([Route], [Server], [Serving]): a request is answered from the routes
      added before it, whichever listener and connection it came through; the
      restarts of the listener.  The routing table is an Arc: a [RoutingTable] is a
      location of a store, its clones are the same location.
    - Sessions ([Talker], [WebSocket], [Client], [Session]): what a talker carries,
      that it drains what was accepted before it ends and that it does end; what a
      client reports and receives over all its attempts; that the messages queued
      on one end of a connection are those the actor of the other end gets, and
      that the closing handshake brings both ends to their end; an end that fails
      without it resets the connection.
    - Programs ([Programs], [Million]): on the reference implementation of the crates,
      every run of every integration test ends and the test passes, by exploration of
      all interleavings where the program is finite ([Closed.explore_sound]); for any
      crates, by an invariant and a measure, where it spawns any number of actors.  A closed program is a run of the open system
      ([Closed.succs_sys]), so the theorems of [Supervision] apply to it.
    - Extensions ([Extra]): a custom action is delivered and handled once.

    ** Bounds and fuel

    - [Linkage.wait_stop_fuel] is 2: a loop that awaits [changed] reads the newest
      value each time, so a second round sees no new version and waits or ends.
    - [LiteRuntime.repeat_loop] takes the number of attempts; that it returns with
      enough fuel is part of [LiteRuntime.interruptable_routine_repeats].
    - Event lists ([Tasks.forward], [System.wait_loop], [Client.connection_routine])
      and step lists ([Talker.talker_routine], [Session.session_run]) are what the
      outside world delivers or which branch is looked at; the loop is pending when
      the list is over, and the theorems hold for every list.  How long a list has to
      be for a loop to end is in [Talker.talker_stops] and [Session.session_closes].
    - [Closed.explore] takes the length of the longest run it visits and is false when
      a run is longer: 40 steps are enough for every test.  It is also false at a
      state whose next step depends on the order of a hash set, so that its result
      holds for all orders.
    - Instants and durations are nanoseconds ([N]) up to [Extern.instant_max] and
      [Extern.duration_max]; the sum of the two panics outside ([Extern.instant_add]),
      in a heartbeat ([Tasks.heartbeat_ticks]) and at the restart of a listener
      ([Server.listener_restarted]); their difference never underflows in a client.

    ** Time

    - An actor reads a clock at every poll, an argument of its step: nothing is assumed
      of how it moves.  A timer queue yields entries whose time has come, in no order of
      its own, and may keep one for less than [Extern.dq_granularity] after its time
      ([Extern.TimerQueue]).
    - A handler that sleeps ([Handlers.CmdSleep]) is asleep until its deadline
      ([ActorRuntime.timing]): its actor takes no other step.  A handler without a sleep
      runs to its end ([ActorRuntime.handler_runs_to_end]).
    - In a heartbeat time passes before the tick reads the clock, between that and the
      wait, and between the deadline and the wake-up ([Tasks.Round]).  In a client the
      clock is read where the source reads it ([Client.Attempt]).
    - The clock of a closed program moves only when nothing else can, to the next
      deadline of a timer, of a handler or of the test ([Closed]).

    ** The end of an actor

    [ActorRuntime.entrypoint_end] closes both queues, tells the supervisor, releases the
    joiners, and drops what the runtime still holds: the senders of the responders of
    the requests that were queued or scheduled, whose requesters are told
    ([ActorRuntime.queued_responders]).  The stop senders in the tracker are not held any
    more ([Invariant.held]): they can be lost at any moment after that.

    ** Not modelled

    Logging and Debug/Display; the panics of user code and of poisoned mutexes; the
    executor behind spawn; hyper, tungstenite and serde, which are
    parameters (awaiting the sink of a socket is one step: it is accepted or fails);
    SyncAction, which nothing calls; the scheduler of tokio: steps interleave in any
    order.  Liveness assumes that an actor which can go on is polled again
    ([Runs.fair]), that a task which sees its stop signal ends
    ([Shutdown.tasks_stop]; the default routine does, [LiteRuntime.stop_interrupts]),
    that the handler of an interruption shuts its actor down or stops it
    ([Asked.cooperative]), and that the tree is a finite set of actors which spawn no more from
    some time on ([Shutdown.family]): without one of them a tree need not end. The delivery of
    messages also assumes that an address pair the actor spawns a child with is there to
    be moved into it ([Runs.owns_pairs], which Rust's moves ensure) and, for normal
    messages, that the high-priority queue is empty from some time on ([Delivery.quiet]:
    otherwise the normal queue starves, as the select is biased) and that the timer does
    not fail ([Delivery.timers_work]). In a closed program a poll of a task is one step. *)
From stdpp Require Export prelude gmap strings list fin_maps.

(** ** Rust results, futures and panics *)

(** [Result<A, E>] of the Rust standard library. *)
Inductive result (A E : Type) : Type :=
| Ok (a : A)
| Err (e : E).
Arguments Ok {A E} a.
Arguments Err {A E} e.

#[export] Instance result_eq_dec {A E} `{EqDecision A, EqDecision E} :
  EqDecision (result A E).
Proof. solve_decision. Defined.

(** [Poll<A>]: what polling a future yields. *)
Inductive poll (A : Type) : Type :=
| Pending
| Ready (a : A).
Arguments Pending {A}.
Arguments Ready {A} a.

#[export] Instance poll_eq_dec {A} `{EqDecision A} : EqDecision (poll A).
Proof. solve_decision. Defined.

(** A computation that may panic ([expect], [unreachable!]). *)
Inductive outcome (A : Type) : Type :=
| Return (a : A)
| Panic (message : string).
Arguments Return {A} a.
Arguments Panic {A} message.

Definition map_err {A E F} (f : E → F) (m : result A E) : result A F :=
  match m with Ok a => Ok a | Err e => Err (f e) end.

Definition is_ok {A E} (m : result A E) : bool :=
  match m with Ok _ => true | Err _ => false end.

Definition is_err {A E} (m : result A E) : bool := negb (is_ok m).

Lemma is_err_spec {A E} (m : result A E) : is_err m = true ↔ ∃ e, m = Err e.
Proof. destruct m; split; [done|by intros [? ?]|by eexists|done]. Qed.

Lemma is_ok_spec {A E} (m : result A E) : is_ok m = true ↔ ∃ a, m = Ok a.
Proof. destruct m; split; [by eexists|done|done|by intros [? ?]]. Qed.

(** ** Iteration orders

    A [HashMap] or [HashSet] is iterated in an order the standard library does
    not specify and that differs from one set to the next (each has its own
    hasher seed).  Every operation that iterates one takes the order it sees as
    an argument, and the theorems quantify over it. *)
Record HashOrder (K : Type) `{Countable K} : Type := mkHashOrder {
  hash_iter : gset K → list K;
  hash_iter_perm : ∀ X, hash_iter X ≡ₚ elements X
}.
Arguments mkHashOrder {K _ _} hash_iter hash_iter_perm.
Arguments hash_iter {K _ _} h X.
Arguments hash_iter_perm {K _ _} h X.

Definition elements_order (K : Type) `{Countable K} : HashOrder K :=
  mkHashOrder elements (λ X, Permutation_refl _).

Definition reverse_order (K : Type) `{Countable K} : HashOrder K :=
  mkHashOrder (λ X, reverse (elements X)) (λ X, reverse_Permutation _).

Section hash_order.
Context {K : Type} `{Countable K}.
Implicit Types (o : HashOrder K) (X : gset K).

Lemma elem_of_hash_iter o X k : k ∈ hash_iter o X ↔ k ∈ X.
Proof. by rewrite (hash_iter_perm o X), elem_of_elements. Qed.

Lemma NoDup_hash_iter o X : NoDup (hash_iter o X).
Proof. rewrite (hash_iter_perm o X). apply NoDup_elements. Qed.

Lemma hash_iter_empty o : hash_iter o ∅ = [].
Proof.
  apply Permutation_nil_r. by rewrite (hash_iter_perm o ∅), elements_empty.
Qed.

Lemma hash_iter_singleton o k : hash_iter o {[k]} = [k].
Proof.
  apply Permutation_singleton_r. by rewrite (hash_iter_perm o), elements_singleton.
Qed.

(** A set of at most one element is iterated in one way. *)
Lemma hash_iter_unordered o o' X : size X ≤ 1 → hash_iter o X = hash_iter o' X.
Proof.
  intros HX. destruct (decide (X = ∅)) as [->|[x Hx]%set_choose_L]; [by rewrite !hash_iter_empty|].
  assert ({[x]} = X) as <-; [|by rewrite !hash_iter_singleton].
  apply set_subseteq_size_eq; [set_solver|]. by rewrite size_singleton.
Qed.

Lemma length_hash_iter o X : length (hash_iter o X) = size X.
Proof. by rewrite (hash_iter_perm o X). Qed.
End hash_order.

(** ** Hint databases and tactics *)

Create HintDb meio.
Create Rewrite HintDb meio_rw.
#[export] Hint Resolve NoDup_hash_iter : meio.
#[export] Hint Resolve <- elem_of_hash_iter : meio.
#[export] Hint Rewrite @hash_iter_empty @hash_iter_singleton using (exact _) : meio_rw.

(** Case analysis on every [match] and [decide] in sight, then clean up. *)
Ltac meio_cases :=
  repeat (case_decide || case_bool_decide || case_match); simplify_eq/=; try done.

Ltac destruct_hyps :=
  repeat match goal with
  | H : ∃ _, _ |- _ => destruct H
  | H : _ ∧ _ |- _ => destruct H
  | H : prod _ _ |- _ => destruct H
  end; simplify_eq/=.

Tactic Notation "meio" := simpl in *; simplify_map_eq; eauto with meio.

(** ** Lists and maps *)

Section lists.
Context {A : Type}.
Implicit Types (l k : list A).

Lemma last_snoc_cases l : l = [] ∨ ∃ k x, l = k ++ [x].
Proof. destruct l as [|x l _] using rev_ind; eauto. Qed.

Lemma foldl_snoc {B} (f : B → A → B) b l x : foldl f b (l ++ [x]) = f (foldl f b l) x.
Proof. by rewrite foldl_app. Qed.

Lemma foldl_invariant {B} (P : B → Prop) (f : B → A → B) b l :
  P b → (∀ b x, x ∈ l → P b → P (f b x)) → P (foldl f b l).
Proof.
  intros Hb Hf. revert b Hb. induction l as [|x l IH]; intros b Hb; simpl; [done|].
  apply IH; [intros ???; apply Hf; set_solver | apply Hf; set_solver].
Qed.
End lists.

(** [find] of a Rust iterator over the results of a stateful [map]: the closure
    runs on each element in turn and stops at the first that satisfies [p]. *)
Fixpoint map_find {A B S} (f : A → S → B * S) (p : B → bool) (l : list A) (s : S)
  : option B * S :=
  match l with
  | [] => (None, s)
  | x :: l =>
    let '(b, s) := f x s in
    if p b then (Some b, s) else map_find f p l s
  end.

(** Sums and bounds over a list. *)
Lemma sum_list_le {A} (f g : A → nat) l : (∀ x, x ∈ l → f x ≤ g x) → sum_list_with f l ≤ sum_list_with g l.
Proof.
  induction l as [|x l IH]; intros Hl; [done|]. simpl.
  pose proof (Hl x ltac:(left)). pose proof (IH (λ y Hy, Hl y ltac:(by right))). lia.
Qed.

Lemma sum_list_lt {A} (f g : A → nat) l x :
  (∀ x, x ∈ l → f x ≤ g x) → x ∈ l → f x < g x → sum_list_with f l < sum_list_with g l.
Proof.
  induction l as [|y l IH]; intros Hl Hx Hlt; [by apply not_elem_of_nil in Hx|]. simpl.
  pose proof (Hl y ltac:(left)) as Hy. apply elem_of_cons in Hx as [->|Hx].
  - pose proof (sum_list_le f g l (λ z Hz, Hl z ltac:(by right))). lia.
  - pose proof (IH (λ z Hz, Hl z ltac:(by right)) Hx Hlt). lia.
Qed.

Lemma elem_le_list_max (x : nat) l : x ∈ l → x ≤ list_max l.
Proof.
  induction l as [|y l IH]; [by intros ?%not_elem_of_nil|]. simpl.
  intros [->|Hx]%elem_of_cons; [lia|]. specialize (IH Hx). lia.
Qed.
