(* ===== verification/Extern.v ===== *)
(** * Interfaces of the crates the program calls

    tokio, tokio-util, futures, anyhow and uuid are not part of the repository:
    each primitive the program uses is a class, with an observation ([view]) of
    its state and laws that state the documented effect of every operation on
    the observation.  The rest of the library is proved against these classes;
    the module [Reference] gives one implementation of each, so that witnesses
    can evaluate. *)
From Stdlib Require Import Sorted.
From S2P Require Import Prelude.

(** [std::time::Instant] and [Duration], in nanoseconds. *)
Abbreviation Instant := N (only parsing).
Abbreviation Duration := N (only parsing).

(** The widths of the standard library: a [Duration] has 64 bits of seconds, an
    [Instant] (of a unix clock) 63, and both nanoseconds; the addition of the two
    panics when the sum has no representation. *)
Definition NANOS_PER_SEC : N := 1000000000.
Definition duration_max : Duration := (2 ^ 64 * NANOS_PER_SEC - 1)%N.
Definition instant_max : Instant := (2 ^ 63 * NANOS_PER_SEC - 1)%N.
Definition Duration_from_secs (seconds : N) : Duration := (seconds * NANOS_PER_SEC)%N.

Definition instant_add (now : Instant) (d : Duration) : outcome Instant :=
  if (now + d <=? instant_max)%N then Return (now + d)%N
  else Panic "overflow when adding duration to instant".

(** [Duration - Duration] panics when it would be negative. *)
Definition duration_sub (a b : Duration) : outcome Duration :=
  if (b <=? a)%N then Return (a - b)%N else Panic "overflow when subtracting durations".

(** [Instant::elapsed] at the time [now]; it saturates. *)
Definition instant_elapsed (earlier now : Instant) : Duration := (now - earlier)%N.

Lemma instant_add_ok now d : (now + d ≤ instant_max)%N → instant_add now d = Return (now + d)%N.
Proof. intros Hle. unfold instant_add. by apply N.leb_le in Hle as ->. Qed.

Lemma instant_add_overflow now d :
  (instant_max < now + d)%N → instant_add now d = Panic "overflow when adding duration to instant".
Proof. intros Hlt. unfold instant_add. by apply N.leb_gt in Hlt as ->. Qed.

(** ** tokio::sync::mpsc::unbounded_channel *)

Record MpscView (A : Type) : Type := mkMpscView {
  mv_queue : list A;        (* sent and not yet received, oldest first *)
  mv_rx_open : bool;        (* the receiver is neither closed nor dropped *)
  mv_tx_alive : bool        (* some sender is alive *)
}.
Arguments mkMpscView {A} _ _ _.
Arguments mv_queue {A} _.
Arguments mv_rx_open {A} _.
Arguments mv_tx_alive {A} _.

Class Mpsc (Ch : Type → Type) := {
  mpsc_view : ∀ {A}, Ch A → MpscView A;
  mpsc_channel : ∀ {A}, Ch A;
  (* [Err] hands the value back *)
  mpsc_send : ∀ {A}, A → Ch A → result (Ch A) A;
  mpsc_recv : ∀ {A}, Ch A → poll (option A) * Ch A;
  mpsc_drop_rx : ∀ {A}, Ch A → Ch A;
  mpsc_drop_tx : ∀ {A}, Ch A → Ch A;        (* the last sender goes *)
  mpsc_send_error : string;                 (* Display of SendError *)
  mpsc_channel_view : ∀ {A}, mpsc_view (A:=A) mpsc_channel = mkMpscView [] true true;
  mpsc_send_open : ∀ {A} (a : A) c, mv_rx_open (mpsc_view c) = true →
    ∃ c', mpsc_send a c = Ok c' ∧
      mpsc_view c' = mkMpscView (mv_queue (mpsc_view c) ++ [a]) true (mv_tx_alive (mpsc_view c));
  mpsc_send_closed : ∀ {A} (a : A) c, mv_rx_open (mpsc_view c) = false → mpsc_send a c = Err a;
  mpsc_recv_some : ∀ {A} (c : Ch A) a q, mv_queue (mpsc_view c) = a :: q →
    ∃ c', mpsc_recv c = (Ready (Some a), c') ∧
      mpsc_view c' = mkMpscView q (mv_rx_open (mpsc_view c)) (mv_tx_alive (mpsc_view c));
  mpsc_recv_pending : ∀ {A} (c : Ch A), mv_queue (mpsc_view c) = [] →
    mv_tx_alive (mpsc_view c) = true → mpsc_recv c = (Pending, c);
  mpsc_recv_none : ∀ {A} (c : Ch A), mv_queue (mpsc_view c) = [] →
    mv_tx_alive (mpsc_view c) = false → mpsc_recv c = (Ready None, c);
  mpsc_drop_rx_view : ∀ {A} (c : Ch A),
    mpsc_view (mpsc_drop_rx c) = mkMpscView [] false (mv_tx_alive (mpsc_view c));
  mpsc_drop_tx_view : ∀ {A} (c : Ch A), mpsc_view (mpsc_drop_tx c) =
    mkMpscView (mv_queue (mpsc_view c)) (mv_rx_open (mpsc_view c)) false
}.

(** ** futures::channel::mpsc::unbounded *)

Record UnboundedView (A : Type) : Type := mkUnboundedView {
  uv_queue : list A;        (* sent and not yet received, oldest first *)
  uv_open : bool;           (* the receiver is neither closed nor dropped *)
  uv_senders : nat          (* how many senders are alive *)
}.
Arguments mkUnboundedView {A} _ _ _.
Arguments uv_queue {A} _.
Arguments uv_open {A} _.
Arguments uv_senders {A} _.

Class Unbounded (Uc : Type → Type) := {
  ub_view : ∀ {A}, Uc A → UnboundedView A;
  unbounded : ∀ {A}, Uc A;
  (* [Err] hands the value back *)
  unbounded_send : ∀ {A}, A → Uc A → result (Uc A) A;
  ub_next : ∀ {A}, Uc A → poll (option A) * Uc A;
  (* [close]: nothing more is accepted, what is queued is still received *)
  ub_close : ∀ {A}, Uc A → Uc A;
  ub_clone_tx : ∀ {A}, Uc A → Uc A;
  ub_drop_tx : ∀ {A}, Uc A → Uc A;
  ub_drop_rx : ∀ {A}, Uc A → Uc A;
  unbounded_view : ∀ {A}, ub_view (A:=A) unbounded = mkUnboundedView [] true 1;
  unbounded_send_open : ∀ {A} (a : A) c, uv_open (ub_view c) = true →
    ∃ c', unbounded_send a c = Ok c' ∧
      ub_view c' = mkUnboundedView (uv_queue (ub_view c) ++ [a]) true (uv_senders (ub_view c));
  unbounded_send_closed : ∀ {A} (a : A) c, uv_open (ub_view c) = false → unbounded_send a c = Err a;
  ub_next_some : ∀ {A} (c : Uc A) a q, uv_queue (ub_view c) = a :: q →
    ∃ c', ub_next c = (Ready (Some a), c') ∧
      ub_view c' = mkUnboundedView q (uv_open (ub_view c)) (uv_senders (ub_view c));
  ub_next_empty : ∀ {A} (c : Uc A), uv_queue (ub_view c) = [] →
    ub_next c = (if uv_open (ub_view c) && bool_decide (0 < uv_senders (ub_view c))
                 then Pending else Ready None, c);
  ub_close_view : ∀ {A} (c : Uc A),
    ub_view (ub_close c) = mkUnboundedView (uv_queue (ub_view c)) false (uv_senders (ub_view c));
  ub_clone_tx_view : ∀ {A} (c : Uc A), ub_view (ub_clone_tx c) =
    mkUnboundedView (uv_queue (ub_view c)) (uv_open (ub_view c)) (S (uv_senders (ub_view c)));
  ub_drop_tx_view : ∀ {A} (c : Uc A), ub_view (ub_drop_tx c) =
    mkUnboundedView (uv_queue (ub_view c)) (uv_open (ub_view c)) (pred (uv_senders (ub_view c)));
  ub_drop_rx_view : ∀ {A} (c : Uc A),
    ub_view (ub_drop_rx c) = mkUnboundedView [] false (uv_senders (ub_view c))
}.

(** ** tokio::sync::watch *)

Record WatchView (A : Type) : Type := mkWatchView {
  wv_value : A;
  wv_version : nat;         (* how many times a value was sent *)
  wv_receivers : nat;
  wv_tx_alive : bool
}.
Arguments mkWatchView {A} _ _ _ _.
Arguments wv_value {A} _.
Arguments wv_version {A} _.
Arguments wv_receivers {A} _.
Arguments wv_tx_alive {A} _.

Class Watch (Wt : Type → Type) := {
  watch_view : ∀ {A}, Wt A → WatchView A;
  watch_channel : ∀ {A}, A → Wt A;
  watch_send : ∀ {A}, A → Wt A → result (Wt A) A;
  watch_borrow : ∀ {A}, Wt A → A;
  (* [changed] of a receiver that has seen version [n]: the version it sees next,
     or [Err] when the sender is gone *)
  watch_changed : ∀ {A}, Wt A → nat → poll (result nat unit);
  watch_is_closed : ∀ {A}, Wt A → bool;
  watch_subscribe : ∀ {A}, Wt A → Wt A;
  watch_drop_rx : ∀ {A}, Wt A → Wt A;
  watch_drop_tx : ∀ {A}, Wt A → Wt A;
  watch_channel_view : ∀ {A} (a : A), watch_view (watch_channel a) = mkWatchView a 0 1 true;
  watch_send_ok : ∀ {A} (a : A) w, wv_receivers (watch_view w) ≠ 0 →
    ∃ w', watch_send a w = Ok w' ∧
      watch_view w' = mkWatchView a (S (wv_version (watch_view w)))
                                  (wv_receivers (watch_view w)) (wv_tx_alive (watch_view w));
  watch_send_err : ∀ {A} (a : A) w, wv_receivers (watch_view w) = 0 → watch_send a w = Err a;
  watch_borrow_view : ∀ {A} (w : Wt A), watch_borrow w = wv_value (watch_view w);
  watch_is_closed_view : ∀ {A} (w : Wt A),
    watch_is_closed w = bool_decide (wv_receivers (watch_view w) = 0);
  watch_changed_view : ∀ {A} (w : Wt A) n,
    watch_changed w n =
      if bool_decide (wv_version (watch_view w) ≠ n) then Ready (Ok (wv_version (watch_view w)))
      else if wv_tx_alive (watch_view w) then Pending else Ready (Err tt);
  watch_subscribe_view : ∀ {A} (w : Wt A), watch_view (watch_subscribe w) =
    mkWatchView (wv_value (watch_view w)) (wv_version (watch_view w))
                (S (wv_receivers (watch_view w))) (wv_tx_alive (watch_view w));
  watch_drop_rx_view : ∀ {A} (w : Wt A), watch_view (watch_drop_rx w) =
    mkWatchView (wv_value (watch_view w)) (wv_version (watch_view w))
                (pred (wv_receivers (watch_view w))) (wv_tx_alive (watch_view w));
  watch_drop_tx_view : ∀ {A} (w : Wt A), watch_view (watch_drop_tx w) =
    mkWatchView (wv_value (watch_view w)) (wv_version (watch_view w))
                (wv_receivers (watch_view w)) false
}.

(** ** futures::channel::oneshot *)

Record OneshotView (A : Type) : Type := mkOneshotView {
  ov_value : option A;
  ov_tx_alive : bool;
  ov_rx_alive : bool
}.
Arguments mkOneshotView {A} _ _ _.
Arguments ov_value {A} _.
Arguments ov_tx_alive {A} _.
Arguments ov_rx_alive {A} _.

Class Oneshot (Os : Type → Type) := {
  oneshot_view : ∀ {A}, Os A → OneshotView A;
  oneshot_channel : ∀ {A}, Os A;
  (* consumes the sender; [Err] hands the value back *)
  oneshot_send : ∀ {A}, A → Os A → result (Os A) (A * Os A);
  (* awaiting the receiver: the value, or [Err] (cancelled) when the sender is gone *)
  oneshot_recv : ∀ {A}, Os A → poll (result A unit);
  oneshot_drop_tx : ∀ {A}, Os A → Os A;
  oneshot_drop_rx : ∀ {A}, Os A → Os A;
  oneshot_channel_view : ∀ {A}, oneshot_view (A:=A) oneshot_channel = mkOneshotView None true true;
  oneshot_send_ok : ∀ {A} (a : A) c, ov_tx_alive (oneshot_view c) = true →
    ov_rx_alive (oneshot_view c) = true →
    ∃ c', oneshot_send a c = Ok c' ∧ oneshot_view c' = mkOneshotView (Some a) false true;
  oneshot_send_err : ∀ {A} (a : A) c, ov_rx_alive (oneshot_view c) = false →
    ∃ c', oneshot_send a c = Err (a, c') ∧
      oneshot_view c' = mkOneshotView (ov_value (oneshot_view c)) false false;
  oneshot_recv_view : ∀ {A} (c : Os A),
    oneshot_recv c = match ov_value (oneshot_view c) with
                     | Some a => Ready (Ok a)
                     | None => if ov_tx_alive (oneshot_view c) then Pending else Ready (Err tt)
                     end;
  oneshot_drop_tx_view : ∀ {A} (c : Os A), oneshot_view (oneshot_drop_tx c) =
    mkOneshotView (ov_value (oneshot_view c)) false (ov_rx_alive (oneshot_view c));
  oneshot_drop_rx_view : ∀ {A} (c : Os A), oneshot_view (oneshot_drop_rx c) =
    mkOneshotView None (ov_tx_alive (oneshot_view c)) false
}.

(** ** tokio_util::time::DelayQueue

    The timer works in steps ([dq_granularity], a millisecond for tokio): an entry
    is never yielded before its time, but the queue may still wait when the time
    of an entry came less than a step ago; and of the entries whose time has come
    any one may be the next. *)

Class TimerQueue (Dq : Type → Type) := {
  dq_view : ∀ {A}, Dq A → list (Instant * A);    (* pending entries, in no order *)
  dq_granularity : Duration;
  dq_new : ∀ {A}, Dq A;
  dq_insert_at : ∀ {A}, A → Instant → Dq A → Dq A;
  dq_len : ∀ {A}, Dq A → nat;
  (* [poll_next] at a given time; [Err] is a failure of the timer *)
  dq_poll : ∀ {A}, Instant → Dq A → poll (option (result A unit)) * Dq A;
  dq_new_view : ∀ {A}, dq_view (A:=A) dq_new = [];
  dq_insert_view : ∀ {A} (a : A) t q, dq_view (dq_insert_at a t q) ≡ₚ (t, a) :: dq_view q;
  dq_len_view : ∀ {A} (q : Dq A), dq_len q = length (dq_view q);
  (* the stream ends only when the queue is empty *)
  dq_poll_none : ∀ {A} now (q q' : Dq A), dq_poll now q = (Ready None, q') → dq_view q = [];
  (* what it yields has expired, and is removed *)
  dq_poll_some : ∀ {A} now (q q' : Dq A) a, dq_poll now q = (Ready (Some (Ok a)), q') →
    ∃ t, (t ≤ now)%N ∧ dq_view q ≡ₚ (t, a) :: dq_view q';
  (* it waits only while nothing has expired for longer than the step of the timer *)
  dq_poll_pending : ∀ {A} now (q q' : Dq A), dq_poll now q = (Pending, q') →
    q' = q ∧ Forall (λ e, (now < e.1 + dq_granularity)%N) (dq_view q);
  dq_poll_err : ∀ {A} now (q q' : Dq A) e, dq_poll now q = (Ready (Some (Err e)), q') →
    dq_view q' = dq_view q
}.

(** ** anyhow::Error, with the conversions the program uses *)

Class Anyhow (Error : Type) := {
  err_msg : string → Error;                 (* Error::msg *)
  err_task_stopped : Error;                 (* From<TaskStopped> *)
  err_terminating : Error;                  (* From<Reason>, Reason::Terminating *)
  err_watch_send : Error;                   (* From<watch::error::SendError> *)
  err_canceled : Error;                     (* From<oneshot::Canceled> *)
  (* [downcast::<TaskStopped>()] succeeds *)
  is_task_stopped : Error → bool;
  is_task_stopped_law : is_task_stopped err_task_stopped = true;
  is_task_stopped_msg : ∀ s, is_task_stopped (err_msg s) = false;
  is_task_stopped_canceled : is_task_stopped err_canceled = false;
  is_task_stopped_watch_send : is_task_stopped err_watch_send = false;
  is_task_stopped_terminating : is_task_stopped err_terminating = false
}.

(** ** uuid::Uuid *)

Class UuidCrate (Uuid : Type) := {
  new_v4 : nat → Uuid;                      (* the n-th random draw *)
  uuid_hash : Uuid → list N → list N        (* Hash::hash: what it feeds to a hasher *)
}.

(** ** Reference implementations

    Each observation is itself an implementation of its class. *)
Module Reference.
#[local] Unset Program Cases.
#[local] Obligation Tactic := idtac.

#[export] Program Instance ref_mpsc : Mpsc MpscView := {|
  mpsc_view A c := c;
  mpsc_channel A := mkMpscView [] true true;
  mpsc_send A a c :=
    if mv_rx_open c then Ok (mkMpscView (mv_queue c ++ [a]) true (mv_tx_alive c)) else Err a;
  mpsc_recv A c :=
    match mv_queue c with
    | a :: q => (Ready (Some a), mkMpscView q (mv_rx_open c) (mv_tx_alive c))
    | [] => (if mv_tx_alive c then Pending else Ready None, c)
    end;
  mpsc_drop_rx A c := mkMpscView [] false (mv_tx_alive c);
  mpsc_drop_tx A c := mkMpscView (mv_queue c) (mv_rx_open c) false;
  mpsc_send_error := "channel closed"
|}.
Solve All Obligations with
  (intros; simpl in *;
   repeat match goal with H : _ = _ |- _ => rewrite H end; eauto).

#[export] Program Instance ref_unbounded : Unbounded UnboundedView := {|
  ub_view A c := c;
  unbounded A := mkUnboundedView [] true 1;
  unbounded_send A a c :=
    if uv_open c then Ok (mkUnboundedView (uv_queue c ++ [a]) true (uv_senders c)) else Err a;
  ub_next A c :=
    match uv_queue c with
    | a :: q => (Ready (Some a), mkUnboundedView q (uv_open c) (uv_senders c))
    | [] => (if uv_open c && bool_decide (0 < uv_senders c) then Pending else Ready None, c)
    end;
  ub_close A c := mkUnboundedView (uv_queue c) false (uv_senders c);
  ub_clone_tx A c := mkUnboundedView (uv_queue c) (uv_open c) (S (uv_senders c));
  ub_drop_tx A c := mkUnboundedView (uv_queue c) (uv_open c) (pred (uv_senders c));
  ub_drop_rx A c := mkUnboundedView [] false (uv_senders c)
|}.
Solve All Obligations with
  (intros; simpl in *;
   repeat match goal with H : _ = _ |- _ => rewrite H end; eauto).

#[export] Program Instance ref_watch : Watch WatchView := {|
  watch_view A w := w;
  watch_channel A a := mkWatchView a 0 1 true;
  watch_send A a w :=
    if bool_decide (wv_receivers w = 0) then Err a
    else Ok (mkWatchView a (S (wv_version w)) (wv_receivers w) (wv_tx_alive w));
  watch_borrow A w := wv_value w;
  watch_changed A w n :=
    if bool_decide (wv_version w ≠ n) then Ready (Ok (wv_version w))
    else if wv_tx_alive w then Pending else Ready (Err tt);
  watch_is_closed A w := bool_decide (wv_receivers w = 0);
  watch_subscribe A w :=
    mkWatchView (wv_value w) (wv_version w) (S (wv_receivers w)) (wv_tx_alive w);
  watch_drop_rx A w :=
    mkWatchView (wv_value w) (wv_version w) (pred (wv_receivers w)) (wv_tx_alive w);
  watch_drop_tx A w := mkWatchView (wv_value w) (wv_version w) (wv_receivers w) false
|}.
Next Obligation. done. Qed.
Next Obligation. intros A a w Hw; simpl in *. rewrite bool_decide_eq_false_2; eauto. Qed.
Next Obligation. intros A a w Hw; simpl in *. by rewrite bool_decide_eq_true_2. Qed.
Solve All Obligations with done.

#[export] Program Instance ref_oneshot : Oneshot OneshotView := {|
  oneshot_view A c := c;
  oneshot_channel A := mkOneshotView None true true;
  oneshot_send A a c :=
    if ov_rx_alive c then Ok (mkOneshotView (Some a) false true)
    else Err (a, mkOneshotView (ov_value c) false false);
  oneshot_recv A c :=
    match ov_value c with
    | Some a => Ready (Ok a)
    | None => if ov_tx_alive c then Pending else Ready (Err tt)
    end;
  oneshot_drop_tx A c := mkOneshotView (ov_value c) false (ov_rx_alive c);
  oneshot_drop_rx A c := mkOneshotView None (ov_tx_alive c) false
|}.
Solve All Obligations with
  (intros; simpl in *;
   repeat match goal with H : _ = _ |- _ => rewrite H end; eauto).

(** Pending timers sorted by deadline, and no step. *)
Fixpoint timer_insert {A} (t : Instant) (a : A) (q : list (Instant * A)) : list (Instant * A) :=
  match q with
  | [] => [(t, a)]
  | (u, b) :: q => if bool_decide (t < u)%N then (t, a) :: (u, b) :: q
                   else (u, b) :: timer_insert t a q
  end.

Definition timer_sorted {A} (q : list (Instant * A)) : Prop :=
  StronglySorted (λ x y, (x.1 ≤ y.1)%N) q.

Lemma timer_insert_perm {A} t (a : A) q : timer_insert t a q ≡ₚ (t, a) :: q.
Proof.
  induction q as [|[u b] q IH]; simpl; [done|]. case_bool_decide; [done|].
  rewrite IH. apply perm_swap.
Qed.

Lemma timer_insert_sorted {A} t (a : A) q : timer_sorted q → timer_sorted (timer_insert t a q).
Proof.
  unfold timer_sorted. induction 1 as [|[u b] q Hq IH Hall]; simpl; [by repeat constructor|].
  case_bool_decide.
  - constructor; [by constructor|]. constructor; [simpl; lia|].
    eapply Forall_impl; [done|]. simpl. intros; lia.
  - constructor; [done|]. rewrite timer_insert_perm. constructor; [simpl; lia|done].
Qed.

Record TimerList (A : Type) : Type := mkTimerList {
  tl_entries : list (Instant * A);
  tl_sorted : timer_sorted tl_entries
}.
Arguments mkTimerList {A} _ _.
Arguments tl_entries {A} _.
Arguments tl_sorted {A} _.

Definition timer_tail_sorted {A} x (q : list (Instant * A)) (H : timer_sorted (x :: q)) :
  timer_sorted q :=
  match StronglySorted_inv H with conj Hq _ => Hq end.

Definition timer_poll {A} (now : Instant) (q : TimerList A) :
  poll (option (result A unit)) * TimerList A :=
  match q with
  | mkTimerList [] H => (Ready None, mkTimerList [] H)
  | mkTimerList ((t, a) :: l) H =>
    if bool_decide (t ≤ now)%N
    then (Ready (Some (Ok a)), mkTimerList l (timer_tail_sorted (t, a) l H))
    else (Pending, mkTimerList ((t, a) :: l) H)
  end.

#[export] Program Instance ref_timer_queue : TimerQueue TimerList := {|
  dq_view A q := tl_entries q;
  dq_granularity := 0%N;
  dq_new A := mkTimerList [] (SSorted_nil _);
  dq_insert_at A a t q := mkTimerList (timer_insert t a (tl_entries q))
                                      (timer_insert_sorted t a _ (tl_sorted q));
  dq_len A q := length (tl_entries q);
  dq_poll A now q := timer_poll now q
|}.
Next Obligation. done. Qed.
Next Obligation. intros. apply timer_insert_perm. Qed.
Next Obligation. done. Qed.
Next Obligation. intros A now [[|[t a] l] H] q' Hq; simpl in *; meio_cases. Qed.
Next Obligation.
  intros A now [[|[t a] l] H] q' b Hq; simpl in *; meio_cases.
  by exists t.
Qed.
Next Obligation.
  intros A now [[|[t a] l] H] q' Hq; simpl in *; meio_cases. split; [done|].
  apply StronglySorted_inv in H as [_ Hall]. constructor; [simpl; lia|].
  eapply Forall_impl; [done|]. simpl. intros; lia.
Qed.
Next Obligation. intros A now [[|[t a] l] H] q' e Hq; simpl in *; meio_cases. Qed.

(** Errors as a description and the one downcast the program performs. *)
Inductive RefError : Type :=
| RefMsg (message : string)
| RefTaskStopped
| RefTerminating
| RefWatchSend
| RefCanceled.

#[export] Instance RefError_eq_dec : EqDecision RefError.
Proof. solve_decision. Defined.

#[export] Program Instance ref_anyhow : Anyhow RefError := {|
  err_msg := RefMsg;
  err_task_stopped := RefTaskStopped;
  err_terminating := RefTerminating;
  err_watch_send := RefWatchSend;
  err_canceled := RefCanceled;
  is_task_stopped e := match e with RefTaskStopped => true | _ => false end
|}.
Solve All Obligations with done.

(** A generator that draws the same uuid every time: ids must not rely on it. *)
#[export] Instance ref_uuid : UuidCrate N := {|
  new_v4 _ := 0%N;
  uuid_hash u state := state ++ [u]
|}.
End Reference.

(** ** All of them *)

Class Crates := {
  Ch : Type → Type;
  Uc : Type → Type;
  Wt : Type → Type;
  Os : Type → Type;
  Dq : Type → Type;
  Error : Type;
  Uuid : Type;
  crates_mpsc :: Mpsc Ch;
  crates_unbounded :: Unbounded Uc;
  crates_watch :: Watch Wt;
  crates_oneshot :: Oneshot Os;
  crates_timers :: TimerQueue Dq;
  crates_anyhow :: Anyhow Error;
  crates_uuid :: UuidCrate Uuid
}.

Definition ref_crates : Crates := {|
  Ch := MpscView; Uc := UnboundedView; Wt := WatchView; Os := OneshotView; Dq := Reference.TimerList;
  Error := Reference.RefError; Uuid := N;
  crates_mpsc := Reference.ref_mpsc;
  crates_unbounded := Reference.ref_unbounded;
  crates_watch := Reference.ref_watch;
  crates_oneshot := Reference.ref_oneshot;
  crates_timers := Reference.ref_timer_queue;
  crates_anyhow := Reference.ref_anyhow;
  crates_uuid := Reference.ref_uuid
|}.
