(* ===== verification/Compat.v ===== *)
(** * compat.rs: the timer queue of the actors

    The wrapper around tokio-util's [DelayQueue] that the actors use, as an
    instance of the interface of a timer queue, and the stubs that replace it
    and the watches when the crate is built for wasm.  The methods of the stub of the
    watch are not those the crate calls ([send], [changed]). *)
From S2P Require Import Prelude Extern.

Section delay_queue.
Context `{!Crates}.

(** [compat::DelayQueue]; a [std::time::Instant] converts to tokio's unchanged. *)
Record DelayQueue (A : Type) : Type := mkDelayQueue { queue : Dq A }.
Arguments mkDelayQueue {A} _.
Arguments queue {A} _.

Definition DelayQueue_new {A} : DelayQueue A := mkDelayQueue dq_new.
Definition DelayQueue_insert_at {A} (value : A) (deadline : Instant) (q : DelayQueue A) : DelayQueue A :=
  mkDelayQueue (dq_insert_at value deadline (queue q)).
Definition DelayQueue_len {A} (q : DelayQueue A) : nat := dq_len (queue q).
(** [Stream::poll_next], through the pinned inner queue. *)
Definition DelayQueue_poll_next {A} (now : Instant) (q : DelayQueue A)
  : poll (option (result A unit)) * DelayQueue A :=
  let '(r, inner) := dq_poll now (queue q) in (r, mkDelayQueue inner).

Lemma DelayQueue_poll_inner {A} now (q q' : DelayQueue A) r :
  DelayQueue_poll_next now q = (r, q') → dq_poll now (queue q) = (r, queue q').
Proof. unfold DelayQueue_poll_next. destruct (dq_poll _ _). by intros [= <- <-]. Qed.

#[local] Unset Program Cases.
#[local] Obligation Tactic := idtac.
(** The wrapper keeps the promises of the queue it wraps. *)
#[global] Program Instance delay_queue_timers : TimerQueue DelayQueue := {|
  dq_view A q := dq_view (queue q);
  dq_granularity := dq_granularity (Dq:=Dq);
  dq_new A := DelayQueue_new;
  dq_insert_at A := DelayQueue_insert_at;
  dq_len A := DelayQueue_len;
  dq_poll A := DelayQueue_poll_next
|}.
Next Obligation. intros A. apply dq_new_view. Qed.
Next Obligation. intros A a t q. apply dq_insert_view. Qed.
Next Obligation. intros A q. apply dq_len_view. Qed.
Next Obligation. intros A now q q' Hp%DelayQueue_poll_inner. by apply dq_poll_none in Hp. Qed.
Next Obligation. intros A now q q' a Hp%DelayQueue_poll_inner. by apply dq_poll_some in Hp. Qed.
Next Obligation.
  intros A now q q' Hp%DelayQueue_poll_inner. apply dq_poll_pending in Hp as [Hq He].
  split; [|done]. destruct q, q'. simpl in *. by subst.
Qed.
Next Obligation. intros A now q q' e Hp%DelayQueue_poll_inner. by apply dq_poll_err in Hp. Qed.
End delay_queue.
Arguments mkDelayQueue {_ A} _.
#[global] Arguments dq_view {_ _ _} _ : simpl never.
#[global] Arguments dq_new {_ _ _} : simpl never.
#[global] Arguments dq_insert_at {_ _ _} _ _ _ : simpl never.
#[global] Arguments dq_len {_ _ _} _ : simpl never.
#[global] Arguments dq_poll {_ _ _} _ _ : simpl never.
Arguments queue {_ A} _.

(** ** The stubs of the wasm build *)

Module Wasm.
(** [delay_queue::Expired], which nothing builds. *)
Record Expired (A : Type) : Type := mkExpired { expired_value : A }.
Arguments mkExpired {A} _.
Arguments expired_value {A} _.

Definition into_inner {A} (e : Expired A) : A := expired_value e.

Record DelayQueue (A : Type) : Type := mkDelayQueue { }.
Arguments mkDelayQueue {A}.

Definition new {A} : DelayQueue A := mkDelayQueue.
Definition insert_at {A Z} (value : Z) (deadline : Instant) (q : DelayQueue A) : DelayQueue A := q.
(** [todo!()] *)
Definition len {A} (q : DelayQueue A) : outcome nat := Panic "not yet implemented".
Definition poll_next {A} (now : Instant) (q : DelayQueue A) : poll (option (result (Expired A) unit)) * DelayQueue A :=
  (Pending, q).

(** A stub of a queue can not keep the promise of one: what is inserted is
    nowhere, whatever the queue is taken to hold. *)
Lemma not_a_timer_queue {A} (a : A) (view : DelayQueue A → list (Instant * A)) t :
  view new = [] → ¬ view (insert_at a t new) ≡ₚ (t, a) :: view new.
Proof. intros Hv Hp. unfold insert_at in Hp. rewrite Hv in Hp. by apply Permutation_nil_cons in Hp. Qed.

(** *** The watch

    The sender holds nothing; a receiver holds a value of its own. *)
Record Sender (A : Type) : Type := mkSender { }.
Arguments mkSender {A}.
Record Receiver (A : Type) : Type := mkReceiver { rx_value : A }.
Arguments mkReceiver {A} _.
Arguments rx_value {A} _.

Definition channel {A} (value : A) : Sender A * Receiver A := (mkSender, mkReceiver value).
Definition broadcast {A} (value : A) (tx : Sender A) : result unit unit * Sender A := (Ok tt, tx).
Definition borrow {A} (rx : Receiver A) : A := rx_value rx.
(** The clone is derived. *)
Definition receiver_clone {A} (rx : Receiver A) : Receiver A := mkReceiver (rx_value rx).
(** The delay of [recv]. *)
Definition recv_delay : Duration := Duration_from_secs 5.
(** A poll of [recv], after it has waited for [waited]. *)
Definition recv {A} (waited : Duration) (rx : Receiver A) : poll (option A) :=
  if bool_decide (recv_delay ≤ waited)%N then Ready (Some (rx_value rx)) else Pending.

(** What is sent on the stub is lost: whatever is broadcast, and reported as
    sent, a receiver and its clones see the first value for ever, and [recv]
    yields that value every five seconds, as if it were new, and never ends. *)
Lemma watch_stub_loses {A} (first : A) (values : list A) waited :
  let '(tx, rx) := channel first in
  let tx := foldl (λ tx v, (broadcast v tx).2) tx values in
  (∀ v, (broadcast v tx).1 = Ok tt) ∧ borrow rx = first ∧ borrow (receiver_clone rx) = first ∧
  (recv waited rx = Pending ∧ (waited < recv_delay)%N ∨
   recv waited rx = Ready (Some first) ∧ (recv_delay ≤ waited)%N).
Proof. simpl. split_and!; try done. unfold recv. case_bool_decide; simpl; [auto|left; split; [done|lia]]. Qed.
End Wasm.
