(* ===== verification/Ids.v ===== *)
(** * ids.rs: generic and typed ids

    An [Id] is an [Arc] around a random uuid: cloning it shares the allocation,
    equality compares the allocation ([Arc::ptr_eq]) and hashing reads the uuid.
    The heap of the live allocations is explicit state. *)
From S2P Require Import Prelude Extern.

(** The address of the allocation an [Id] points to.  An allocation that some
    [Id] still points to is never reused, so the address is the id. *)
Abbreviation Id := positive (only parsing).

Module Ids.
Section ids.
Context {Uuid : Type} `{!UuidCrate Uuid}.

(** The live [Arc<Uuid>] allocations, and how many uuids were drawn. *)
Record Heap : Type := mkHeap { arcs : gmap positive Uuid; drawn : nat }.

Definition unique (h : Heap) : Id * Heap :=
  let uuid := new_v4 (drawn h) in
  let p := fresh (dom (arcs h)) in
  (p, mkHeap (<[p := uuid]> (arcs h)) (S (drawn h))).

Definition clone (i : Id) : Id := i.

Definition eq (i j : Id) : bool := bool_decide (i = j).

(** [Id::hash] on a hasher whose state is the input it was fed. *)
Definition hash (h : Heap) (i : Id) (state : list N) : option (list N) :=
  (λ u, uuid_hash u state) <$> arcs h !! i.

(** [IdOf<T>]: the phantom type carries no data. *)
Record IdOf : Type := mkIdOf { id : Id }.

Definition IdOf_new (i : Id) : IdOf := mkIdOf i.
Definition IdOf_clone (i : IdOf) : IdOf := IdOf_new (clone (id i)).
Definition IdOf_eq (i j : IdOf) : bool := eq (id i) (id j).
Definition IdOf_hash (h : Heap) (i : IdOf) (state : list N) : option (list N) :=
  hash h (id i) state.
Definition IdOf_into (i : IdOf) : Id := id i.
Definition IdOf_as_ref (i : IdOf) : Id := id i.

(** Ids drawn one after the other, all kept alive. *)
Fixpoint draw (n : nat) (h : Heap) : list Id * Heap :=
  match n with
  | O => ([], h)
  | S n =>
    let '(i, h) := unique h in
    let '(l, h) := draw n h in
    (i :: l, h)
  end.

Definition live (h : Heap) (i : Id) : Prop := is_Some (arcs h !! i).

Lemma unique_fresh h : ¬ live h (unique h).1.
Proof.
  unfold live, unique; simpl. rewrite <- elem_of_dom. apply is_fresh.
Qed.

Lemma unique_live h : live (unique h).2 (unique h).1.
Proof. unfold live, unique; simpl. by rewrite lookup_insert_eq. Qed.

Lemma unique_preserves h i : live h i → live (unique h).2 i ∧ arcs (unique h).2 !! i = arcs h !! i.
Proof.
  intros Hi. unfold unique; simpl.
  assert (fresh (dom (arcs h)) ≠ i) as Hne.
  { intros <-. apply (is_fresh (dom (arcs h))). by apply elem_of_dom. }
  unfold live; simpl. by rewrite lookup_insert_ne.
Qed.

Lemma draw_spec n h :
  NoDup (draw n h).1 ∧ Forall (λ i, ¬ live h i) (draw n h).1 ∧ length (draw n h).1 = n.
Proof.
  revert h; induction n as [|n IH]; intros h; cbn [draw]; [repeat constructor|].
  pose proof (unique_fresh h) as Hf. pose proof (unique_live h) as Hl.
  pose proof (unique_preserves h) as Hp. destruct (unique h) as [i h']; cbn [fst snd] in *.
  specialize (IH h'). destruct (draw n h') as [l h'']; cbn [fst snd length] in *.
  destruct IH as (Hnd & Hfresh & <-). rewrite Forall_forall in Hfresh. repeat split.
  - constructor; [|done]. intros Hin. by apply (Hfresh i Hin).
  - constructor; [done|]. apply Forall_forall. intros j Hj Hlive.
    apply (Hfresh j Hj), (Hp j Hlive).
Qed.

Lemma draw_live n h i : live h i → arcs (draw n h).2 !! i = arcs h !! i.
Proof.
  revert h; induction n as [|n IH]; intros h Hi; cbn [draw]; [done|].
  pose proof (unique_preserves h i Hi) as [Hl He]. destruct (unique h) as [j h']; cbn [fst snd] in *.
  rewrite <-He, <-(IH h' Hl). by destruct (draw n h') as [l h''].
Qed.

Lemma draw_lookup n h k i :
  (draw n h).1 !! k = Some i → arcs (draw n h).2 !! i = Some (new_v4 (drawn h + k)).
Proof.
  revert h k; induction n as [|n IH]; intros h k; cbn [draw]; [done|].
  pose proof (unique_live h) as Hl. pose proof (draw_live n (unique h).2 (unique h).1 Hl) as Hd.
  assert (arcs (unique h).2 !! (unique h).1 = Some (new_v4 (drawn h))) as Hu
    by (unfold unique; simpl; by rewrite lookup_insert_eq).
  assert (drawn (unique h).2 = S (drawn h)) as Hn by done.
  destruct (unique h) as [j h']; cbn [fst snd] in *. specialize (IH h').
  destruct (draw n h') as [l h'']; cbn [fst snd] in *.
  destruct k as [|k]; simpl; intros Hk.
  - injection Hk as <-. rewrite Hd, Hu. by rewrite Nat.add_0_r.
  - rewrite (IH k Hk), Hn. f_equal. f_equal. lia.
Qed.

(** C29: ids drawn one after the other are pairwise different and differ from
    every live one, even when the random generator repeats a uuid; each hashes
    the uuid of its own draw, and equal ids hash equally, so that an id is a
    sound key of the hash maps and sets of the program. *)
Theorem drawn_ids_distinct n h p q i j :
  (draw n h).1 !! p = Some i → (draw n h).1 !! q = Some j →
  eq i (clone j) = bool_decide (p = q) ∧ ¬ live h i ∧
  (∀ state, hash (draw n h).2 (clone i) state = Some (uuid_hash (new_v4 (drawn h + p)) state)) ∧
  (eq i j = true → ∀ state, hash (draw n h).2 i state = hash (draw n h).2 j state).
Proof.
  intros Hp Hq. destruct (draw_spec n h) as (Hnd & Hf & _). rewrite Forall_forall in Hf.
  unfold eq, clone, hash. split; [|split; [|split]].
  - apply bool_decide_ext. split; [|naive_solver].
    intros ->. by eapply NoDup_lookup.
  - apply Hf. by eapply list_elem_of_lookup_2.
  - intros state. by rewrite (draw_lookup n h p i Hp).
  - by intros ->%bool_decide_eq_true.
Qed.
End ids.
Arguments Heap : clear implicits.

#[local] Existing Instance Reference.ref_uuid.

(** Three draws of a generator that always gives the same uuid. *)
Lemma drawn_ids_distinct_witness :
  let o := draw 3 (mkHeap ∅ 0) in
  o.1 = [1; 2; 3]%positive ∧ eq 2 3 = false ∧ hash o.2 2 [] = hash o.2 3 [].
Proof.
  split; [reflexivity|]. split; [|reflexivity].
  destruct (drawn_ids_distinct 3 (mkHeap ∅ 0) 1 2 2%positive 3%positive)
    as [H _]; [reflexivity..|exact H].
Defined.
End Ids.
