(* ===== verification/Lifecycle.v ===== *)
(** * lifecycle.rs: the lifetime tracker of an actor

    The tracker holds an actor's children, grouped into stages, and terminates
    the stages one after the other.  It reaches the children through
    [LifecycleNotifier] only, so it is modelled against that interface: [W] is
    whatever state the notifiers act on.  [Notifier.v] implements it with the
    addresses of actors and tasks. *)
From S2P Require Import Prelude Extern Ids.

(** ** [LifecycleNotifier<Interrupt<A>>] and the two ways the tracker makes one *)

Class LifecycleNotifier (Addr TAddr Error N W : Type) := {
  address_id : Addr → Id;                       (* Address::id *)
  stopper_id : TAddr → Id;                      (* TaskAddress::id *)
  once : Addr → N;                              (* once(address, Operation::Forward) *)
  stop : TAddr → N;                             (* stop(stopper) *)
  notify : N → W → result unit Error * W        (* notify(Interrupt::new()) *)
}.

(** ** Stage *)

Record Stage : Type := mkStage { st_terminating : bool; st_ids : gset Id }.

#[export] Instance Stage_eq_dec : EqDecision Stage.
Proof. solve_decision. Defined.

Definition Stage_default : Stage := mkStage false ∅.

Definition Stage_is_finished (s : Stage) : bool :=
  st_terminating s && bool_decide (st_ids s = ∅).

Definition stage_mark (s : Stage) : Stage := mkStage true (st_ids s).
Definition stage_add (i : Id) (s : Stage) : Stage := mkStage (st_terminating s) ({[i]} ∪ st_ids s).
Definition stage_del (i : Id) (s : Stage) : Stage := mkStage (st_terminating s) (st_ids s ∖ {[i]}).

Lemma Stage_is_finished_spec s :
  Stage_is_finished s = true ↔ st_terminating s = true ∧ st_ids s = ∅.
Proof. unfold Stage_is_finished. by rewrite andb_true_iff, bool_decide_eq_true. Qed.

(** ** Record *)

Record TRecord (G N : Type) : Type := mkTRecord { rec_group : G; rec_notifier : N }.
Arguments mkTRecord {G N} _ _.
Arguments rec_group {G N} _.
Arguments rec_notifier {G N} _.

(** ** LifetimeTracker *)

Record LifetimeTracker (G N : Type) `{Countable G} : Type := mkTracker {
  lt_terminating : bool;
  lt_prioritized : list G;
  lt_stages : gmap G Stage;
  lt_records : gmap Id (TRecord G N)
}.
Arguments mkTracker {G N _ _} _ _ _ _.
Arguments lt_terminating {G N _ _} _.
Arguments lt_prioritized {G N _ _} _.
Arguments lt_stages {G N _ _} _.
Arguments lt_records {G N _ _} _.

Module Tracker.
Section tracker.
Context {Addr TAddr Error N W G : Type} `{Countable G}.
Context `{!LifecycleNotifier Addr TAddr Error N W}.

Abbreviation T := (LifetimeTracker G N).
Implicit Types (t : T) (w : W) (g : G) (i : Id) (stages : gmap G Stage).

Definition new : T := mkTracker false [] ∅ ∅.

Definition is_terminating t : bool := lt_terminating t.

(** [Record::interrupt] *)
Definition interrupt (r : TRecord G N) w : result unit Error * W := notify (rec_notifier r) w.

Definition with_stages t (m : gmap G Stage) : T :=
  mkTracker (lt_terminating t) (lt_prioritized t) m (lt_records t).
Definition with_records t (m : gmap Id (TRecord G N)) : T :=
  mkTracker (lt_terminating t) (lt_prioritized t) (lt_stages t) m.

(** The body [insert] and [insert_task] share once the notifier is made: the
    stage of the group is created on demand, the child is interrupted at once
    when that stage is already terminating (a failure is only logged). *)
Definition insert_record (i : Id) (r : TRecord G N) t w : T * W :=
  let stage := stage_add i (default Stage_default (lt_stages t !! rec_group r)) in
  let t := with_stages t (<[rec_group r := stage]> (lt_stages t)) in
  let w := if st_terminating stage then (interrupt r w).2 else w in
  (with_records t (<[i := r]> (lt_records t)), w).

Definition insert (address : Addr) g t w : T * W :=
  insert_record (address_id address) (mkTRecord g (once address)) t w.

Definition insert_task (stopper : TAddr) g t w : T * W :=
  insert_record (stopper_id stopper) (mkTRecord g (stop stopper)) t w.

Definition termination_sequence (groups : list G) t : T :=
  mkTracker (lt_terminating t) groups (lt_stages t) (lt_records t).

Definition is_finished t : bool :=
  forallb (λ p, Stage_is_finished p.2) (map_to_list (lt_stages t)).

(** The sequence is rebuilt, with a fresh hash set, at every call: the order of
    the groups nobody prioritised is a new one each time. *)
Definition stage_sequence (og : HashOrder G) t : list G :=
  let stages_to_term := dom (lt_stages t) in
  let prior_set := list_to_set (lt_prioritized t) : gset G in
  let remained := hash_iter og (stages_to_term ∖ prior_set) in
  lt_prioritized t ++ remained.

(** Interrupts the records of the ids, in order; failures are only logged. *)
Fixpoint interrupt_ids (records : gmap Id (TRecord G N)) (ids : list Id) w : W :=
  match ids with
  | [] => w
  | i :: ids =>
    interrupt_ids records ids
      (match records !! i with Some r => (interrupt r w).2 | None => w end)
  end.

Definition terminate_group (oi : HashOrder Id) g t w : W :=
  match lt_stages t !! g with
  | Some stage => interrupt_ids (lt_records t) (hash_iter oi (st_ids stage)) w
  | None => w
  end.

(** The loop of [try_terminate_next], which breaks at the first stage that is
    not finished. *)
Fixpoint terminate_loop (oi : HashOrder Id) (sequence : list G) t w : T * W :=
  match sequence with
  | [] => (t, w)
  | g :: sequence =>
    match lt_stages t !! g with
    | None => terminate_loop oi sequence t w
    | Some stage =>
      let '(t', stage', w') :=
        if st_terminating stage then (t, stage, w)
        else
          let stage' := stage_mark stage in
          (with_stages t (<[g := stage']> (lt_stages t)), stage',
           interrupt_ids (lt_records t) (hash_iter oi (st_ids stage')) w) in
      if Stage_is_finished stage' then terminate_loop oi sequence t' w' else (t', w')
    end
  end.

Definition try_terminate_next (og : HashOrder G) (oi : HashOrder Id) t w : T * W :=
  let t := mkTracker true (lt_prioritized t) (lt_stages t) (lt_records t) in
  terminate_loop oi (stage_sequence og t) t w.

Definition start_termination (og : HashOrder G) (oi : HashOrder Id) t w : T * W :=
  try_terminate_next og oi t w.

Definition remove (og : HashOrder G) (oi : HashOrder Id) i t w : T * W :=
  let t :=
    match lt_records t !! i with
    | Some r =>
      let t := with_records t (delete i (lt_records t)) in
      match lt_stages t !! rec_group r with
      | Some stage => with_stages t (<[rec_group r := stage_del i stage]> (lt_stages t))
      | None => t
      end
    | None => t
    end in
  if lt_terminating t then try_terminate_next og oi t w else (t, w).

(** ** Closed form of the loop *)

(** The groups the loop reaches: those up to the first stage that still has
    children, that one included. *)
Fixpoint visited (stages : gmap G Stage) (sequence : list G) : list G :=
  match sequence with
  | [] => []
  | g :: sequence =>
    match stages !! g with
    | None => visited stages sequence
    | Some s => g :: (if bool_decide (st_ids s = ∅) then visited stages sequence else [])
    end
  end.

Definition mark_groups (l : list G) (stages : gmap G Stage) : gmap G Stage :=
  map_imap (λ g s, Some (if bool_decide (g ∈ l) then stage_mark s else s)) stages.

(** The ids the loop interrupts, in order. *)
Fixpoint interrupted (oi : HashOrder Id) (stages : gmap G Stage) (l : list G) : list Id :=
  match l with
  | [] => []
  | g :: l =>
    match stages !! g with
    | Some s =>
      (if st_terminating s then [] else hash_iter oi (st_ids s)) ++
      interrupted oi (<[g := stage_mark s]> stages) l
    | None => interrupted oi stages l
    end
  end.

Lemma lookup_mark_groups l stages g :
  mark_groups l stages !! g = (λ s, if bool_decide (g ∈ l) then stage_mark s else s) <$> stages !! g.
Proof. unfold mark_groups. rewrite map_lookup_imap. by destruct (stages !! g). Qed.

Lemma mark_groups_nil stages : mark_groups [] stages = stages.
Proof.
  apply map_eq; intros g. rewrite lookup_mark_groups, bool_decide_eq_false_2 by set_solver.
  by destruct (stages !! g).
Qed.

Lemma mark_groups_cons g l s stages :
  stages !! g = Some s →
  mark_groups (g :: l) stages = mark_groups l (<[g := stage_mark s]> stages).
Proof.
  intros Hg. apply map_eq; intros h. rewrite !lookup_mark_groups.
  destruct (decide (g = h)) as [<-|Hne].
  - rewrite lookup_insert_eq, Hg, bool_decide_eq_true_2 by set_solver; simpl.
    by case_bool_decide.
  - rewrite lookup_insert_ne by done. destruct (stages !! h); simpl; [|done].
    repeat case_bool_decide; set_solver.
Qed.

Lemma visited_mark stages g s l :
  stages !! g = Some s → visited (<[g := stage_mark s]> stages) l = visited stages l.
Proof.
  intros Hg. induction l as [|h l IH]; simpl; [done|].
  destruct (decide (g = h)) as [<-|Hne].
  - by rewrite lookup_insert_eq, Hg, IH.
  - rewrite lookup_insert_ne by done. by rewrite IH.
Qed.

Lemma interrupt_ids_app recs l k w :
  interrupt_ids recs (l ++ k) w = interrupt_ids recs k (interrupt_ids recs l w).
Proof. revert w; induction l; intros w; simpl; auto. Qed.

Lemma insert_mark_id stages g s :
  stages !! g = Some s → st_terminating s = true → <[g := stage_mark s]> stages = stages.
Proof.
  intros Hg Hs. apply insert_id. rewrite Hg. by destruct s; simpl in *; subst.
Qed.

Lemma terminate_loop_closed oi seq t w :
  let l := visited (lt_stages t) seq in
  terminate_loop oi seq t w =
    (with_stages t (mark_groups l (lt_stages t)),
     interrupt_ids (lt_records t) (interrupted oi (lt_stages t) l) w).
Proof.
  revert t w. induction seq as [|g seq IH]; intros [tm pr st rc] w; cbn -[Stage_is_finished].
  { by rewrite mark_groups_nil. }
  destruct (st !! g) as [s|] eqn:Hg; [|apply (IH (mkTracker tm pr st rc))].
  rewrite (mark_groups_cons _ _ s) by done. cbn -[Stage_is_finished]. rewrite Hg.
  destruct (st_terminating s) eqn:Hs; cbn -[Stage_is_finished].
  - rewrite (insert_mark_id _ _ _ Hg Hs). unfold Stage_is_finished; rewrite Hs; simpl.
    case_bool_decide; [apply (IH (mkTracker tm pr st rc))|by rewrite mark_groups_nil].
  - change (Stage_is_finished (stage_mark s)) with (bool_decide (st_ids s = ∅)).
    case_bool_decide.
    + unfold with_stages at 1; simpl. rewrite (IH (mkTracker tm pr _ rc)); simpl.
      rewrite (visited_mark _ _ _ _ Hg), interrupt_ids_app. done.
    + simpl. by rewrite mark_groups_nil, app_nil_r.
Qed.

Lemma try_terminate_next_closed og oi t w :
  let l := visited (lt_stages t) (stage_sequence og t) in
  try_terminate_next og oi t w =
    (mkTracker true (lt_prioritized t) (mark_groups l (lt_stages t)) (lt_records t),
     interrupt_ids (lt_records t) (interrupted oi (lt_stages t) l) w).
Proof. cbv zeta. unfold try_terminate_next. by rewrite terminate_loop_closed. Qed.

(** ** The sequence of the stages *)

Lemma elem_of_stage_sequence og t g :
  g ∈ stage_sequence og t ↔ g ∈ lt_prioritized t ∨ is_Some (lt_stages t !! g).
Proof.
  unfold stage_sequence. rewrite elem_of_app, elem_of_hash_iter, elem_of_difference,
    elem_of_list_to_set, elem_of_dom.
  destruct (decide (g ∈ lt_prioritized t)); naive_solver.
Qed.

Lemma visited_subseteq stages seq g : g ∈ visited stages seq → g ∈ seq ∧ is_Some (stages !! g).
Proof.
  induction seq as [|h seq IH]; simpl; [by intros ?%not_elem_of_nil|].
  destruct (stages !! h) as [s|] eqn:Hh; [|set_solver].
  case_bool_decide; rewrite ?elem_of_cons; [|set_solver]. naive_solver.
Qed.

(** A group is visited only when every group before it is childless. *)
Lemma visited_prefix stages l1 h l2 g s :
  g ∉ l1 → g ≠ h → g ∈ visited stages (l1 ++ h :: l2) → stages !! h = Some s → st_ids s = ∅.
Proof.
  intros Hl1 Hgh Hg Hh. induction l1 as [|k l1 IH]; simpl in *.
  - rewrite Hh in Hg. case_bool_decide; [done|set_solver].
  - rewrite not_elem_of_cons in Hl1. destruct (stages !! k); [|naive_solver].
    case_bool_decide; apply elem_of_cons in Hg as [->|Hg]; naive_solver (set_solver).
Qed.

(** Either every group with a stage is visited, or the walk stopped at a stage
    with children. *)
Lemma visited_all_or_blocked stages seq :
  (∀ g, g ∈ seq → is_Some (stages !! g) → g ∈ visited stages seq)
  ∨ ∃ g s, g ∈ visited stages seq ∧ stages !! g = Some s ∧ st_ids s ≠ ∅.
Proof.
  induction seq as [|h seq IH]; simpl; [left; by intros ? ?%not_elem_of_nil|].
  destruct (stages !! h) as [s|] eqn:Hh.
  - case_bool_decide; [|right; exists h, s; set_solver].
    destruct IH as [IH|(g & s' & ? & ? & ?)]; [left|right; exists g, s'; set_solver].
    intros g [->|Hg]%elem_of_cons Hs; [set_solver|]. right. by apply IH.
  - destruct IH as [IH|?]; [left|by right].
    intros g [->|Hg]%elem_of_cons Hs; [by rewrite Hh in Hs; destruct Hs|auto].
Qed.

(** ** Consistency of the tracker *)

Record wf t : Prop := {
  wf_records : ∀ i r, lt_records t !! i = Some r →
    ∃ s, lt_stages t !! rec_group r = Some s ∧ i ∈ st_ids s;
  wf_stages : ∀ g s i, lt_stages t !! g = Some s → i ∈ st_ids s →
    ∃ r, lt_records t !! i = Some r ∧ rec_group r = g;
  wf_terminating : lt_terminating t = false →
    ∀ g s, lt_stages t !! g = Some s → st_terminating s = false
}.

Lemma wf_new : wf new.
Proof. split; intros; simpl in *; simplify_map_eq. Qed.

Lemma wf_termination_sequence l t : wf t → wf (termination_sequence l t).
Proof. by intros []. Qed.

Lemma wf_insert_record i r t w :
  wf t → lt_records t !! i = None → wf (insert_record i r t w).1.
Proof.
  intros [Hr Hs Ht] Hi. split; simpl; intros.
  - destruct (decide (i = i0)) as [<-|]; simplify_map_eq.
    { eexists; split; [done|]. set_solver. }
    destruct (Hr _ _ H0) as (s & Hs' & Hin). destruct (decide (rec_group r = rec_group r0)) as [E|].
    + rewrite E in *. simplify_map_eq. eexists; split; [done|]. set_solver.
    + simplify_map_eq. eauto.
  - destruct (decide (rec_group r = g)) as [<-|]; simplify_map_eq.
    + apply elem_of_union in H1 as [->%elem_of_singleton|Hin]; [by eexists; simplify_map_eq|].
      destruct (lt_stages t !! rec_group r) as [s0|] eqn:E; simpl in Hin; [|set_solver].
      destruct (Hs _ _ _ E Hin) as (r' & ? & ?). exists r'. split; [|done].
      rewrite lookup_insert_ne; [done|congruence].
    + destruct (Hs _ _ _ H0 H1) as (r' & ? & ?). exists r'. split; [|done].
      rewrite lookup_insert_ne; [done|congruence].
  - destruct (decide (rec_group r = g)) as [<-|]; simplify_map_eq; [|eauto].
    destruct (lt_stages t !! rec_group r) as [s0|] eqn:E; simpl; eauto.
Qed.

Lemma wf_try_terminate_next og oi t w : wf t → wf (try_terminate_next og oi t w).1.
Proof.
  intros [Hr Hs Ht]. rewrite try_terminate_next_closed. split; simpl; intros.
  - destruct (Hr _ _ H0) as (s & Hg & Hin). rewrite lookup_mark_groups, Hg; simpl.
    eexists; split; [done|]. by case_bool_decide.
  - rewrite lookup_mark_groups in H0. destruct (lt_stages t !! g) eqn:Hg; simplify_eq/=.
    eapply Hs; [done|]. by case_bool_decide.
  - done.
Qed.

(** The children left once [i] is forgotten: the part of [remove] before the
    termination resumes. *)
Definition forget i t : T :=
  match lt_records t !! i with
  | Some r =>
    let t := with_records t (delete i (lt_records t)) in
    match lt_stages t !! rec_group r with
    | Some stage => with_stages t (<[rec_group r := stage_del i stage]> (lt_stages t))
    | None => t
    end
  | None => t
  end.

Lemma remove_forget og oi i t w :
  remove og oi i t w =
    if lt_terminating (forget i t) then try_terminate_next og oi (forget i t) w
    else (forget i t, w).
Proof. done. Qed.

Lemma forget_terminating i t : lt_terminating (forget i t) = lt_terminating t.
Proof. unfold forget. repeat case_match; done. Qed.

Lemma forget_records i t : lt_records (forget i t) = delete i (lt_records t).
Proof.
  unfold forget. destruct (lt_records t !! i) eqn:E; [by repeat case_match|].
  by rewrite delete_id.
Qed.

Lemma wf_forget i t : wf t → wf (forget i t).
Proof.
  intros [Hr Hs Ht]. unfold forget. destruct (lt_records t !! i) as [r|] eqn:Hi; [|by split].
  destruct (Hr _ _ Hi) as (s & Hg & Hin). simpl. rewrite Hg. split; simpl.
  - intros j r' [Hne Hj]%lookup_delete_Some. destruct (Hr _ _ Hj) as (s' & Hg' & Hin').
    destruct (decide (rec_group r = rec_group r')) as [E|];
      [rewrite <-E in *; simplify_map_eq; eexists; split; [done|set_solver]|].
    simplify_map_eq. eauto.
  - intros g s' j Hg' Hj. destruct (decide (rec_group r = g)) as [<-|]; simplify_map_eq.
    + destruct (Hs _ _ j Hg) as (r' & ? & ?); [set_solver|]. exists r'. split; [|done].
      rewrite lookup_delete_ne; [done|set_solver].
    + destruct (Hs _ _ j Hg' Hj) as (r' & ? & ?). exists r'. split; [|done].
      rewrite lookup_delete_ne; [done|]. intros ->. congruence.
  - intros Hf g s' Hg'. destruct (decide (rec_group r = g)) as [<-|]; simplify_map_eq; eauto.
Qed.

Lemma wf_remove og oi i t w : wf t → wf (remove og oi i t w).1.
Proof.
  intros Ht. rewrite remove_forget. case_match; [apply wf_try_terminate_next|]; by apply wf_forget.
Qed.

(** ** When a tracker is finished *)

Lemma is_finished_spec t :
  is_finished t = true ↔
  ∀ g s, lt_stages t !! g = Some s → st_terminating s = true ∧ st_ids s = ∅.
Proof.
  unfold is_finished. rewrite forallb_forall. split.
  - intros Hf g s Hg. apply Stage_is_finished_spec, (Hf (g, s)).
    by apply list_elem_of_In, elem_of_map_to_list.
  - intros Hf [g s] Hin%list_elem_of_In%elem_of_map_to_list.
    apply Stage_is_finished_spec. eauto.
Qed.

Lemma finished_no_records t : wf t → is_finished t = true → lt_records t = ∅.
Proof.
  intros Hwf Hf. apply map_empty; intros i. destruct (lt_records t !! i) as [r|] eqn:Hi; [|done].
  destruct (wf_records _ Hwf _ _ Hi) as (s & Hg & Hin).
  rewrite is_finished_spec in Hf. destruct (Hf _ _ Hg) as [_ He]. set_solver.
Qed.

Lemma no_records_no_ids t g s :
  wf t → lt_records t = ∅ → lt_stages t !! g = Some s → st_ids s = ∅.
Proof.
  intros Hwf He Hg. apply set_eq; intros i. split; [|set_solver]. intros Hin.
  destruct (wf_stages _ Hwf _ _ _ Hg Hin) as (r & Hr & _). by rewrite He, lookup_empty in Hr.
Qed.

Lemma try_terminate_next_records og oi t w :
  lt_records (try_terminate_next og oi t w).1 = lt_records t.
Proof. by rewrite try_terminate_next_closed. Qed.

Lemma try_terminate_next_terminating og oi t w :
  lt_terminating (try_terminate_next og oi t w).1 = true.
Proof. by rewrite try_terminate_next_closed. Qed.

(** A childless tracker that is asked to terminate is finished at once. *)
Lemma try_terminate_next_childless og oi t w :
  wf t → lt_records t = ∅ → is_finished (try_terminate_next og oi t w).1 = true.
Proof.
  intros Hwf He. rewrite try_terminate_next_closed. apply is_finished_spec; simpl; intros g s.
  rewrite lookup_mark_groups, fmap_Some. intros (s0 & Hg & ->).
  assert (g ∈ visited (lt_stages t) (stage_sequence og t)) as Hv.
  { destruct (visited_all_or_blocked (lt_stages t) (stage_sequence og t))
      as [Hall|(h & s & _ & Hh & Hne)].
    - apply Hall; [apply elem_of_stage_sequence; right|]; by eexists.
    - by rewrite (no_records_no_ids _ _ _ Hwf He Hh) in Hne. }
  rewrite bool_decide_eq_true_2 by done. split; [done|]. simpl. by eapply no_records_no_ids.
Qed.

Lemma try_terminate_next_progress og oi t w :
  let t' := (try_terminate_next og oi t w).1 in
  is_finished t' = true ∨
  ∃ g s, lt_stages t' !! g = Some s ∧ st_terminating s = true ∧ st_ids s ≠ ∅.
Proof.
  cbv zeta. rewrite try_terminate_next_closed; simpl. set (l := visited _ _).
  destruct (visited_all_or_blocked (lt_stages t) (stage_sequence og t))
    as [Hall|(g & s & Hv & Hg & Hne)].
  - destruct (decide (map_Forall (λ _ s, st_ids s = ∅) (lt_stages t))) as [He|Hne].
    + left. apply is_finished_spec; simpl; intros g s.
      rewrite lookup_mark_groups, fmap_Some. intros (s0 & Hg & ->).
      rewrite bool_decide_eq_true_2; [split; [done|]; exact (He g s0 Hg)|].
      apply Hall; [apply elem_of_stage_sequence; right|]; by eexists.
    + right. apply map_not_Forall in Hne as (g & s & Hg & Hs); [|apply _].
      exists g, (stage_mark s). rewrite lookup_mark_groups, Hg; simpl.
      rewrite bool_decide_eq_true_2; [done|].
      apply Hall; [apply elem_of_stage_sequence; right|]; by eexists.
  - right. exists g, (stage_mark s). rewrite lookup_mark_groups, Hg; simpl.
    by rewrite bool_decide_eq_true_2.
Qed.

(** ** Histories of a tracker

    The trackers an actor can get to, with the ids it has given to its children
    so far: an id is given once ([Id::unique]).  [groups] says whether the
    actor calls [terminate_group]. *)
Inductive reachable (groups : bool) (w0 : W) : list Id → T → W → Prop :=
| reach_new : reachable groups w0 [] new w0
| reach_insert D t w address g :
    reachable groups w0 D t w → address_id address ∉ D →
    reachable groups w0 (address_id address :: D)
      (insert address g t w).1 (insert address g t w).2
| reach_insert_task D t w stopper g :
    reachable groups w0 D t w → stopper_id stopper ∉ D →
    reachable groups w0 (stopper_id stopper :: D)
      (insert_task stopper g t w).1 (insert_task stopper g t w).2
| reach_remove D t w og oi i :
    reachable groups w0 D t w →
    reachable groups w0 D (remove og oi i t w).1 (remove og oi i t w).2
| reach_sequence D t w l :
    reachable groups w0 D t w → reachable groups w0 D (termination_sequence l t) w
| reach_start D t w og oi :
    reachable groups w0 D t w →
    reachable groups w0 D (start_termination og oi t w).1 (start_termination og oi t w).2
| reach_group D t w oi g :
    groups = true → reachable groups w0 D t w →
    reachable groups w0 D t (terminate_group oi g t w).

Lemma tracked_insert_record D i r t w :
  (∀ j, is_Some (lt_records t !! j) → j ∈ D) →
  ∀ j, is_Some (lt_records (insert_record i r t w).1 !! j) → j ∈ i :: D.
Proof.
  intros HD j. simpl. destruct (decide (i = j)) as [<-|]; [set_solver|].
  rewrite lookup_insert_ne by done. set_solver.
Qed.

Lemma reachable_tracked groups w0 D t w i :
  reachable groups w0 D t w → is_Some (lt_records t !! i) → i ∈ D.
Proof.
  intros Hr. revert i. induction Hr; intros j; eauto using tracked_insert_record.
  - simpl. rewrite lookup_empty. by intros [].
  - rewrite remove_forget. case_match; rewrite ?try_terminate_next_records; simpl;
      rewrite forget_records; intros [r [_ ?]%lookup_delete_Some]; eauto.
  - unfold start_termination. rewrite try_terminate_next_records. eauto.
Qed.

Lemma reachable_wf groups w0 D t w : reachable groups w0 D t w → wf t.
Proof.
  induction 1; auto using wf_new, wf_remove, wf_termination_sequence.
  1,2: apply wf_insert_record; [done|]; apply eq_None_not_Some; intros ?;
       by eapply reachable_tracked in H0.
  by apply wf_try_terminate_next.
Qed.

(** ** What the loop interrupts *)

Lemma elem_of_interrupted oi stages l i :
  i ∈ interrupted oi stages l ↔
  ∃ g s, g ∈ l ∧ stages !! g = Some s ∧ st_terminating s = false ∧ i ∈ st_ids s.
Proof.
  revert stages; induction l as [|h l IH]; intros stages; simpl; [set_solver|].
  destruct (stages !! h) as [s|] eqn:Hh.
  - rewrite elem_of_app, IH. split.
    + intros [Hi|(g & s' & Hg & Hs' & Ht & Hi)].
      * exists h, s. destruct (st_terminating s); [set_solver|].
        rewrite elem_of_hash_iter in Hi. set_solver.
      * destruct (decide (h = g)) as [<-|]; simplify_map_eq. set_solver.
    + intros (g & s' & [->|Hg]%elem_of_cons & Hs' & Ht & Hi); simplify_eq.
      * left. rewrite Ht. by apply elem_of_hash_iter.
      * destruct (decide (h = g)) as [<-|]; simplify_eq.
        { left. rewrite Ht. by apply elem_of_hash_iter. }
        right. exists g, s'. by simplify_map_eq.
  - rewrite IH. split; intros (g & s' & Hg & Hs' & ?); exists g, s'; set_solver.
Qed.

(** No child belongs to two stages. *)
Definition disjoint_stages stages : Prop :=
  ∀ g h s u i, stages !! g = Some s → stages !! h = Some u →
    i ∈ st_ids s → i ∈ st_ids u → g = h.

Lemma wf_disjoint t : wf t → disjoint_stages (lt_stages t).
Proof.
  intros Hwf g h s u i Hg Hh Hi Hj.
  destruct (wf_stages _ Hwf _ _ _ Hg Hi) as (r & ? & <-).
  destruct (wf_stages _ Hwf _ _ _ Hh Hj) as (r' & ? & <-). by simplify_eq.
Qed.

Lemma NoDup_interrupted oi stages l : disjoint_stages stages → NoDup (interrupted oi stages l).
Proof.
  revert stages; induction l as [|h l IH]; intros stages Hd; simpl; [constructor|].
  destruct (stages !! h) as [s|] eqn:Hh; [|by apply IH].
  apply NoDup_app. split; [case_match; [constructor|apply NoDup_hash_iter]|]. split.
  - intros i Hi (g & s' & _ & Hs' & Ht & Hi')%elem_of_interrupted.
    destruct (decide (h = g)) as [<-|Hne]; simplify_map_eq.
    destruct (st_terminating s); [set_solver|]. rewrite elem_of_hash_iter in Hi.
    by apply Hne, (Hd h g s s' i).
  - apply IH. intros g g' u u' i Hg Hg' Hi Hi'.
    destruct (decide (h = g)) as [<-|]; destruct (decide (h = g')) as [<-|]; simplify_map_eq; eauto.
Qed.
End tracker.
End Tracker.

(** ** An observer

    Notifiers that only record whom they notified.  A history of a tracker run
    with them shows which children its operations interrupted, and in which order. *)
Module Observer.
#[export] Instance observer : LifecycleNotifier Id Id unit Id (list Id) := {|
  address_id := id;
  stopper_id := id;
  once := id;
  stop := id;
  notify i log := (Ok tt, log ++ [i])
|}.

Section observer.
Context {G : Type} `{Countable G}.
Implicit Types (t : LifetimeTracker G Id).

Lemma interrupt_ids_log (recs : gmap Id (TRecord G Id)) l log :
  (∀ i r, recs !! i = Some r → rec_notifier r = i) → (∀ i, i ∈ l → is_Some (recs !! i)) →
  Tracker.interrupt_ids recs l log = log ++ l.
Proof.
  intros Hn. revert log; induction l as [|i l IH]; intros log Hl; simpl; [by rewrite app_nil_r|].
  destruct (Hl i) as [r Hr]; [set_solver|]. rewrite Hr, IH by set_solver.
  simpl. rewrite (Hn _ _ Hr), <-(assoc_L (++)). done.
Qed.

(** The children interrupted so far, against the state of the tracker. *)
Record accounted (D : list Id) t (log : list Id) : Prop := {
  acc_notifier : ∀ i r, lt_records t !! i = Some r → rec_notifier r = i;
  acc_known : ∀ i, i ∈ log → i ∈ D;
  acc_once : NoDup log;
  acc_stage : ∀ i r s, lt_records t !! i = Some r → lt_stages t !! rec_group r = Some s →
    (i ∈ log ↔ st_terminating s = true)
}.

Lemma accounted_insert_record D t log i g :
  Tracker.wf t → accounted D t log → i ∉ D → (∀ j, is_Some (lt_records t !! j) → j ∈ D) →
  let o := Tracker.insert_record i (mkTRecord g i) t log in accounted (i :: D) o.1 o.2.
Proof.
  intros Hwf [Hn Hk Ho Hs] Hi HD. simpl.
  assert (i ∉ log) as Hlog by auto.
  assert (∀ j r, lt_records t !! j = Some r → j ≠ i) as Hne.
  { intros j r Hj ->. apply Hi, HD. by eexists. }
  split; simpl.
  - intros j r. destruct (decide (i = j)) as [<-|]; intros; simplify_map_eq; eauto.
  - intros j. case_match; set_solver.
  - case_match; [|done]. apply NoDup_app. split; [done|]. split; [set_solver|apply NoDup_singleton].
  - intros j r s Hj Hg. destruct (decide (i = j)) as [<-|]; simplify_map_eq.
    + destruct (st_terminating _); set_solver.
    + transitivity (j ∈ log); [case_match; set_solver|].
      destruct (decide (g = rec_group r)) as [->|]; simplify_map_eq; [|eauto].
      destruct (Tracker.wf_records _ Hwf _ _ Hj) as (s0 & Hs0 & _). rewrite Hs0. simpl. eauto.
Qed.

Lemma accounted_forget D i t log : accounted D t log → accounted D (Tracker.forget i t) log.
Proof.
  intros [Hn Hk Ho Hs]. unfold Tracker.forget. destruct (lt_records t !! i) as [r|] eqn:Hr; [|done].
  simpl. destruct (lt_stages t !! rec_group r) as [s|] eqn:Hg; split; simpl; auto.
  all: try (intros j r' Hj; apply lookup_delete_Some in Hj as [_ Hj]; by eapply Hn).
  - intros j r' s' [? Hj]%lookup_delete_Some Hg'.
    destruct (decide (rec_group r = rec_group r')) as [E|]; [|simplify_map_eq; eauto].
    rewrite <-E, lookup_insert_eq in Hg'; simplify_eq; simpl. eapply Hs; [done|by rewrite <-E].
  - intros j r' s' [? Hj]%lookup_delete_Some Hg'. eauto.
Qed.

Lemma accounted_try_terminate_next D og oi t log :
  Tracker.wf t → accounted D t log → (∀ j, is_Some (lt_records t !! j) → j ∈ D) →
  let o := Tracker.try_terminate_next og oi t log in accounted D o.1 o.2.
Proof.
  intros Hwf [Hn Hk Ho Hs] HD. cbv zeta. rewrite Tracker.try_terminate_next_closed.
  set (l := Tracker.visited _ _). simpl.
  assert (∀ i, i ∈ Tracker.interrupted oi (lt_stages t) l →
    ∃ r s, lt_records t !! i = Some r ∧ lt_stages t !! rec_group r = Some s ∧
           rec_group r ∈ l ∧ st_terminating s = false) as Hint.
  { intros i (g & s & Hg & Hgs & Ht & Hi)%Tracker.elem_of_interrupted.
    destruct (Tracker.wf_stages _ Hwf _ _ _ Hgs Hi) as (r & ? & <-). eauto 10. }
  rewrite interrupt_ids_log; [|done|intros i (r & ? & ? & _)%Hint; by eexists].
  split; simpl; [done| | |].
  - intros i [Hi|(r & ? & ? & _)%Hint]%elem_of_app; [auto|]. apply HD. by eexists.
  - apply NoDup_app. split; [done|]. split; [|apply Tracker.NoDup_interrupted, Tracker.wf_disjoint, Hwf].
    intros i Hi (r & s & Hr & Hg & _ & Ht)%Hint. apply (Hs _ _ _ Hr Hg) in Hi. congruence.
  - intros i r s Hr. rewrite Tracker.lookup_mark_groups, fmap_Some. intros (s0 & Hg & ->).
    rewrite elem_of_app, (Hs _ _ _ Hr Hg), Tracker.elem_of_interrupted.
    destruct (Tracker.wf_records _ Hwf _ _ Hr) as (s1 & ? & Hin); simplify_eq.
    case_bool_decide as Hl; simpl.
    + split; [done|]. intros _. destruct (st_terminating s0) eqn:Ht; [by left|right; eauto 10].
    + split; [|by left]. intros [?|(g & s2 & Hgl & Hg2 & Ht & Hi)]; [done|].
      destruct (Tracker.wf_stages _ Hwf _ _ _ Hg2 Hi) as (r' & ? & <-). by simplify_eq.
Qed.

Lemma reachable_accounted D t log :
  Tracker.reachable false [] D t log → accounted D t log.
Proof.
  intros Hr. induction Hr; try done.
  - split; simpl; [by intros ?? ?%lookup_empty_Some|set_solver|constructor|by intros ??? ?%lookup_empty_Some].
  - apply accounted_insert_record; eauto using Tracker.reachable_wf, Tracker.reachable_tracked.
  - apply accounted_insert_record; eauto using Tracker.reachable_wf, Tracker.reachable_tracked.
  - rewrite Tracker.remove_forget. case_match; [|by apply accounted_forget].
    apply accounted_try_terminate_next; [|by apply accounted_forget|].
    + eauto using Tracker.wf_forget, Tracker.reachable_wf.
    + intros j. rewrite Tracker.forget_records. intros [r [_ ?]%lookup_delete_Some].
      eauto using Tracker.reachable_tracked.
  - by destruct IHHr.
  - apply accounted_try_terminate_next; eauto using Tracker.reachable_wf, Tracker.reachable_tracked.
Qed.
End observer.
End Observer.

(** ** Properties of the tracker *)
Module LifecycleProps.
Section props.
Context {Addr TAddr Error N W G : Type} `{Countable G}.
Context `{!LifecycleNotifier Addr TAddr Error N W}.
Implicit Types (t : LifetimeTracker G N) (w : W).

(** C19: the loop of [try_terminate_next], which mutates the stages and the
    notifiers' state as it goes and breaks out early, is the closed form: it
    marks the visited groups as terminating (those up to the first one that
    still has children) and interrupts, in order, exactly the children of the
    visited groups that were not terminating yet. *)
Theorem try_terminate_next_equiv og oi t w :
  let l := Tracker.visited (lt_stages t) (Tracker.stage_sequence og t) in
  Tracker.try_terminate_next og oi t w =
    (mkTracker true (lt_prioritized t) (Tracker.mark_groups l (lt_stages t)) (lt_records t),
     Tracker.interrupt_ids (lt_records t) (Tracker.interrupted oi (lt_stages t) l) w).
Proof. apply Tracker.try_terminate_next_closed. Qed.

(** C18: sequence of termination.  When a step of the termination asks a group
    [g] to terminate, no group before [g] in the sequence has a child left. *)
Theorem termination_order og oi t w l1 h l2 g s s' sh :
  Tracker.stage_sequence og t = l1 ++ h :: l2 → g ∉ l1 → g ≠ h →
  lt_stages t !! g = Some s → st_terminating s = false →
  lt_stages (Tracker.try_terminate_next og oi t w).1 !! g = Some s' → st_terminating s' = true →
  lt_stages t !! h = Some sh → st_ids sh = ∅.
Proof.
  intros Hseq Hl1 Hgh Hg Hs. rewrite Tracker.try_terminate_next_closed; simpl.
  rewrite Tracker.lookup_mark_groups, Hg; simpl. rewrite Hseq.
  case_bool_decide as Hv; intros ? ?; simplify_eq; [|congruence].
  by eapply Tracker.visited_prefix.
Qed.

(** The sequence of the stages is the declared one, followed by the groups
    it does not name; every group with a stage is in it, and no group twice when
    the declared one repeats none. *)
Theorem stage_sequence_spec og t :
  lt_prioritized t `prefix_of` Tracker.stage_sequence og t ∧
  (∀ g, g ∈ Tracker.stage_sequence og t ↔
        g ∈ lt_prioritized t ∨ is_Some (lt_stages t !! g)) ∧
  (NoDup (lt_prioritized t) → NoDup (Tracker.stage_sequence og t)).
Proof.
  split; [by eexists|]. split; [apply Tracker.elem_of_stage_sequence|].
  intros Hnd. apply NoDup_app. split; [done|]. split; [|apply NoDup_hash_iter].
  intros g Hg. rewrite elem_of_hash_iter, elem_of_difference, elem_of_list_to_set. naive_solver.
Qed.

(** The children whose end is reported to the tracker, each report seeing its
    own iteration orders. *)
Definition remove_all (reports : list (HashOrder G * HashOrder Id * Id))
  (o : LifetimeTracker G N * W) : LifetimeTracker G N * W :=
  foldl (λ o r, Tracker.remove r.1.1 r.1.2 r.2 o.1 o.2) o reports.

Lemma remove_all_invariant reports o :
  Tracker.wf o.1 → lt_terminating o.1 = true →
  (lt_records o.1 = ∅ → Tracker.is_finished o.1 = true) →
  let o' := remove_all reports o in
  (lt_records o'.1 = ∅ → Tracker.is_finished o'.1 = true) ∧
  (∀ i, is_Some (lt_records o'.1 !! i) → is_Some (lt_records o.1 !! i) ∧ i ∉ reports.*2).
Proof.
  revert o. induction reports as [|[[og oi] i] reports IH]; intros [t w] Hwf Ht Hf; simpl in *.
  { split; [done|]. intros; split; [done|apply not_elem_of_nil]. }
  rewrite Tracker.remove_forget, Tracker.forget_terminating, Ht.
  specialize (IH (Tracker.try_terminate_next og oi (Tracker.forget i t) w)).
  rewrite Tracker.try_terminate_next_records, Tracker.forget_records in IH.
  apply (Tracker.wf_forget i) in Hwf. destruct IH as [IHf IHd].
  - by apply Tracker.wf_try_terminate_next.
  - apply Tracker.try_terminate_next_terminating.
  - intros He. apply Tracker.try_terminate_next_childless; [done|].
    by rewrite Tracker.forget_records.
  - split; [done|]. intros j [Hj Hnj]%IHd. destruct Hj as [r [??]%lookup_delete_Some].
    split; [by eexists|]. set_solver.
Qed.

(** A termination that was started completes.  Once the end of every child
    has been reported, in whatever order, no child is tracked and the tracker is
    finished, whatever orders the hash sets were iterated in. *)
Theorem termination_completes og oi t w reports :
  Tracker.wf t → (∀ i, is_Some (lt_records t !! i) → i ∈ reports.*2) →
  let t' := (remove_all reports (Tracker.start_termination og oi t w)).1 in
  lt_records t' = ∅ ∧ Tracker.is_finished t' = true.
Proof.
  intros Hwf Hall. cbv zeta.
  destruct (remove_all_invariant reports (Tracker.start_termination og oi t w)) as [Hf Hd].
  - by apply Tracker.wf_try_terminate_next.
  - apply Tracker.try_terminate_next_terminating.
  - unfold Tracker.start_termination. rewrite Tracker.try_terminate_next_records.
    by apply Tracker.try_terminate_next_childless.
  - unfold Tracker.start_termination in Hd. rewrite Tracker.try_terminate_next_records in Hd.
    assert (lt_records (remove_all reports (Tracker.start_termination og oi t w)).1 = ∅) as He.
    { apply map_empty; intros i. apply eq_None_not_Some. intros [Hi Hn]%Hd. auto. }
    auto.
Qed.

(** C20: every tracker an actor can get to is consistent: the records and the
    ids of the stages mention the same children under the same groups, and no
    stage is terminating before the tracker is. *)
Theorem tracker_invariant groups w0 D t w :
  Tracker.reachable groups w0 D t w → Tracker.wf t.
Proof. apply Tracker.reachable_wf. Qed.

(** A consistent tracker is finished exactly when it has no child left and
    every group it ever had is terminating. *)
Theorem is_finished_iff t :
  Tracker.wf t →
  Tracker.is_finished t = true ↔
    lt_records t = ∅ ∧ ∀ g s, lt_stages t !! g = Some s → st_terminating s = true.
Proof.
  intros Hwf. split.
  - intros Hf. split; [by apply Tracker.finished_no_records|]. intros g s Hg.
    rewrite Tracker.is_finished_spec in Hf. by apply (Hf g s).
  - intros [He Ht]. apply Tracker.is_finished_spec. intros g s Hg.
    split; [eauto|by eapply Tracker.no_records_no_ids].
Qed.
End props.

Import Observer.

(** C17: no child is asked twice, none is forgotten.  In every history of an
    actor that does not call [terminate_group], a child is interrupted at most
    once, and a tracked child has been interrupted exactly when its group is
    terminating, children added to a terminating group included. *)
Theorem interrupted_exactly_once {G : Type} `{Countable G} (D : list Id) (t : LifetimeTracker G Id)
  (log : list Id) :
  Tracker.reachable false [] D t log →
  NoDup log ∧ (∀ i, i ∈ log → i ∈ D) ∧
  ∀ i r s, lt_records t !! i = Some r → lt_stages t !! rec_group r = Some s →
    (i ∈ log ↔ st_terminating s = true).
Proof. intros Hr%Observer.reachable_accounted. by destruct Hr. Qed.

(** A tracker with three groups: the children 1 and 2 of group 0, 3 of group 1
    and 4 of group 2; groups 1 and 0 are prioritised in this order. *)
Definition example_tracker : LifetimeTracker nat Id * list Id :=
  let o := (Tracker.termination_sequence [1; 0] Tracker.new, []) in
  let o := Tracker.insert 1%positive 0 o.1 o.2 in
  let o := Tracker.insert_task 2%positive 0 o.1 o.2 in
  let o := Tracker.insert 3%positive 1 o.1 o.2 in
  Tracker.insert 4%positive 2 o.1 o.2.

Lemma example_reachable : Tracker.reachable false []
  [4%positive; 3%positive; 2%positive; 1%positive] example_tracker.1 example_tracker.2.
Proof.
  unfold example_tracker; cbv zeta.
  apply (Tracker.reach_insert (LifecycleNotifier0:=observer) (G:=nat) false [] _ _ _ 4%positive); [|set_solver].
  apply (Tracker.reach_insert (LifecycleNotifier0:=observer) (G:=nat) false [] _ _ _ 3%positive); [|set_solver].
  apply (Tracker.reach_insert_task (LifecycleNotifier0:=observer) (G:=nat) false [] _ _ _ 2%positive); [|set_solver].
  apply (Tracker.reach_insert (LifecycleNotifier0:=observer) (G:=nat) false [] _ _ _ 1%positive); [|set_solver].
  apply Tracker.reach_sequence, Tracker.reach_new.
Qed.

Abbreviation oG := (elements_order nat).
Abbreviation oI := (elements_order Id).

(** The groups go in the order 1, 0, 2: the interrupts as the children end. *)
Example example_termination :
  let o := Tracker.start_termination oG oI example_tracker.1 example_tracker.2 in
  let o1 := Tracker.remove oG oI 3%positive o.1 o.2 in
  let o2 := Tracker.remove oG oI 1%positive o1.1 o1.2 in
  let o3 := Tracker.remove oG oI 2%positive o2.1 o2.2 in
  let o4 := Tracker.remove oG oI 4%positive o3.1 o3.2 in
  (o.2, o1.2, o2.2, o3.2, Tracker.is_finished o3.1, Tracker.is_finished o4.1) =
    ([3], [3; 2; 1], [3; 2; 1], [3; 2; 1; 4], false, true)%positive.
Proof. vm_compute. reflexivity. Qed.

Lemma termination_order_witness :
  st_ids (default Stage_default
    (lt_stages (Tracker.remove oG oI 3%positive example_tracker.1 []).1 !! 1)) = ∅.
Proof.
  apply (termination_order oG oI (Tracker.remove oG oI 3%positive example_tracker.1 []).1 []
           [] 1 [0; 2] 0 (mkStage false {[1%positive; 2%positive]})
           (mkStage true {[1%positive; 2%positive]})).
  - by vm_compute.
  - set_solver.
  - done.
  - by vm_compute.
  - done.
  - by vm_compute.
  - done.
  - by vm_compute.
Defined.

Lemma termination_completes_witness :
  let t' := (remove_all [(oG, oI, 4%positive); (oG, oI, 1%positive); (oG, oI, 3%positive);
                         (oG, oI, 2%positive)]
               (Tracker.start_termination oG oI example_tracker.1 [])).1 in
  lt_records t' = ∅ ∧ Tracker.is_finished t' = true.
Proof.
  apply (termination_completes oG oI).
  - exact (Tracker.reachable_wf _ _ _ _ _ example_reachable).
  - intros i Hi. pose proof (Tracker.reachable_tracked _ _ _ _ _ i example_reachable Hi). set_solver.
Defined.

Lemma tracker_invariant_witness : Tracker.wf example_tracker.1.
Proof. exact (tracker_invariant _ _ _ _ _ example_reachable). Defined.

Lemma is_finished_iff_witness :
  Tracker.is_finished example_tracker.1 = true ↔
    lt_records example_tracker.1 = ∅ ∧
    ∀ g s, lt_stages example_tracker.1 !! g = Some s → st_terminating s = true.
Proof. exact (is_finished_iff _ (Tracker.reachable_wf _ _ _ _ _ example_reachable)). Defined.

Lemma interrupted_exactly_once_witness :
  NoDup (Tracker.start_termination oG oI example_tracker.1 example_tracker.2).2.
Proof.
  exact (proj1 (interrupted_exactly_once _ _ _
    (Tracker.reach_start _ _ _ _ _ oG oI example_reachable))).
Defined.
End LifecycleProps.
