(* ===== verification/Types.v ===== *)
(** * The data model of the framework

    The types of handlers.rs, linkage/address.rs, lite_runtime.rs and
    lifecycle.rs.  Channels, watches and oneshots are shared: what a sender or a
    receiver holds is a location of the [Net] (Linkage.v). *)
From S2P Require Import Prelude Extern Ids.

Abbreviation loc := positive (only parsing).

(** What a program built on the framework brings: the data its messages carry
    (actions, stream items, requests, outputs and tags alike), its actors and
    tasks, the streams it attaches, and the groups of its actors' children. *)
Class App := {
  Payload : Type;
  Actor : Type;
  Task : Type;
  Strm : Type;
  Group : Type;
  Group_eq_dec :: EqDecision Group;
  Group_countable :: Countable Group
}.

(** [actor_runtime::Status] *)
Inductive Status : Type := Alive | Stop.

#[export] Instance Status_eq_dec : EqDecision Status.
Proof. solve_decision. Defined.

Definition Status_is_done (s : Status) : bool := bool_decide (s = Stop).

(** A [watch::Receiver]: the watch and the version it has seen. *)
Record WatchRx : Type := mkWatchRx { rx_loc : loc; rx_seen : nat }.

(** [linkage::Address], with the ends of its channels. *)
Record Address : Type := mkAddress {
  addr_id : Id;
  addr_hp_msg_tx : loc;
  addr_msg_tx : loc;
  addr_join_rx : WatchRx
}.

#[export] Instance WatchRx_eq_dec : EqDecision WatchRx.
Proof. solve_decision. Defined.
#[export] Instance Address_eq_dec : EqDecision Address.
Proof. solve_decision. Defined.

(** [linkage::AddressJoint] *)
Record AddressJoint : Type := mkJoint {
  joint_msg_rx : loc;
  joint_hp_msg_rx : loc;
  joint_join_tx : loc
}.

(** [linkage::AddressPair] *)
Record AddressPair : Type := mkPair { pair_joint : AddressJoint; pair_address : Address }.

(** [lite_runtime::StopSender], [TaskAddress] and [StopReceiver] *)
Record StopSender : Type := mkStopSender { stop_tx : loc }.
Record TaskAddress : Type := mkTaskAddress { task_id : Id; task_stop_sender : StopSender }.
Record StopReceiver : Type := mkStopReceiver { stop_status : WatchRx }.

#[export] Instance StopSender_eq_dec : EqDecision StopSender.
Proof. solve_decision. Defined.
#[export] Instance TaskAddress_eq_dec : EqDecision TaskAddress.
Proof. solve_decision. Defined.

(** [handlers::Operation] *)
Inductive Operation : Type :=
| OpDone (id : Id)
| OpForward
| OpSchedule (deadline : Instant).

#[export] Instance Operation_eq_dec : EqDecision Operation.
Proof. solve_decision. Defined.

(** [handlers::Priority] *)
Inductive Priority : Type := PNormal | PInstant.

Definition Priority_default : Priority := PNormal.

(** [lifecycle::LifecycleNotifier]: the three closures that implement it. *)
Inductive Notifier : Type :=
| NIgnore
| NOnce (address : Address) (operation : Operation)
| NStop (stopper : TaskAddress).

#[export] Instance Notifier_eq_dec : EqDecision Notifier.
Proof. solve_decision. Defined.

(** Which [TaskEliminated] implementation the end of a task goes to: one the
    program writes, or a blanket one of the framework. *)
Inductive TaskKind : Type := TkUser | TkInteraction | TkStreamForwarder | TkFnTask | TkHeartBeat.

Section messages.
Context `{!Crates, !App}.

(** [lite_runtime::TaskError] *)
Inductive TaskError : Type :=
| Interrupted
| Other (error : Error).

(** [handlers::StreamItem] *)
Inductive StreamItem : Type :=
| Item (item : Payload)
| StreamDone.

(** Every type with an [Action] or [InstantAction] implementation. *)
Inductive Message : Type :=
| MsgAction (input : Payload)
| MsgInstant (input : Payload)
| MsgAwake
| MsgInterrupt
| MsgDone (id : Id)
| MsgTaskDone (id : Id) (kind : TaskKind) (tag : Payload) (res : result Payload TaskError)
| MsgTerminateBy
| MsgStreamItem (item : StreamItem)
| MsgScheduledItem (timestamp : Instant) (item : Payload)
| MsgInteract (request : Payload) (responder : loc)
| MsgAttachStream (stream : Strm) (tag : Payload)
| MsgTick (tick : Instant).

(** The boxed [Handler] of an envelope. *)
Inductive HandlerImpl : Type :=
| ActionHandlerImpl (input : option Message)
| InstantActionHandlerImpl (input : option Message)
| CustomHandlerImpl (priority : Priority) (input : option Payload).

Record Envelope : Type := mkEnvelope { env_handler : HandlerImpl }.

(** [Envelope::from_handler], [Envelope::new] and [Envelope::instant] *)
Definition Envelope_from_handler (h : HandlerImpl) : Envelope := mkEnvelope h.
Definition Envelope_new (input : Message) : Envelope :=
  mkEnvelope (ActionHandlerImpl (Some input)).
Definition Envelope_instant (input : Message) : Envelope :=
  mkEnvelope (InstantActionHandlerImpl (Some input)).

Record Parcel : Type := mkParcel { parcel_operation : Operation; parcel_envelope : Envelope }.

(** [Parcel::new], [Parcel::pack] and [Parcel::from_envelope] *)
Definition Parcel_new (operation : Operation) (input : Message) : Parcel :=
  mkParcel operation (Envelope_instant input).
Definition Parcel_pack (input : Message) : Parcel := Parcel_new OpForward input.
Definition Parcel_from_envelope (envelope : Envelope) : Parcel := mkParcel OpForward envelope.

(** [Handler::priority], for each implementation *)
Definition handler_priority (h : HandlerImpl) : Priority :=
  match h with
  | ActionHandlerImpl _ => PNormal
  | InstantActionHandlerImpl _ => PInstant
  | CustomHandlerImpl p _ => p
  end.

(** The tasks: the program's own, and those of the framework. *)
Inductive TaskImpl : Type :=
| UserTask (task : Task)
| InteractionTask (recipient : Address) (request : Payload)
| StreamForwarder (stream : Strm) (recipient : Address)
| FnTask (task : Task)
| HeartBeat (duration : WatchRx) (recipient : Address).

Definition task_kind (t : TaskImpl) : TaskKind :=
  match t with
  | UserTask _ => TkUser
  | InteractionTask _ _ => TkInteraction
  | StreamForwarder _ _ => TkStreamForwarder
  | FnTask _ => TkFnTask
  | HeartBeat _ _ => TkHeartBeat
  end.
End messages.

(** A program whose messages, actors, tasks and groups are numbers: what the
    witnesses of the library evaluate on. *)
Definition sample_app : App := {|
  Payload := N; Actor := N; Task := N; Strm := N; Group := N
|}.
