(* ===== verification/Linkage.v ===== *)
(** * linkage: addresses, recipients and the channels behind them

    [Net] is the state of every channel the program created: the two unbounded
    queues of each actor, the watches that carry a [Status], and the oneshots
    that carry the reply of an interaction.  The methods of [Address] are
    functions on it. *)
From S2P Require Import Prelude Extern Ids Types.

Section net.
Context `{!Crates, !App}.

Record Net : Type := mkNet {
  net_hp : gmap loc (Ch Parcel);
  net_lp : gmap loc (Ch Envelope);
  net_status : gmap loc (Wt Status);
  net_replies : gmap loc (Os (result Payload Error));
  net_heap : Ids.Heap Uuid;
  net_next : loc
}.

Definition net_empty : Net := mkNet ∅ ∅ ∅ ∅ (Ids.mkHeap ∅ 0) 1.

Definition set_hp (l : loc) (c : Ch Parcel) (n : Net) : Net :=
  mkNet (<[l := c]> (net_hp n)) (net_lp n) (net_status n) (net_replies n) (net_heap n) (net_next n).
Definition set_lp (l : loc) (c : Ch Envelope) (n : Net) : Net :=
  mkNet (net_hp n) (<[l := c]> (net_lp n)) (net_status n) (net_replies n) (net_heap n) (net_next n).
Definition set_status (l : loc) (w : Wt Status) (n : Net) : Net :=
  mkNet (net_hp n) (net_lp n) (<[l := w]> (net_status n)) (net_replies n) (net_heap n) (net_next n).
Definition set_reply (l : loc) (o : Os (result Payload Error)) (n : Net) : Net :=
  mkNet (net_hp n) (net_lp n) (net_status n) (<[l := o]> (net_replies n)) (net_heap n) (net_next n).
Definition set_heap (h : Ids.Heap Uuid) (n : Net) : Net :=
  mkNet (net_hp n) (net_lp n) (net_status n) (net_replies n) h (net_next n).
Definition bump (n : Net) : Net :=
  mkNet (net_hp n) (net_lp n) (net_status n) (net_replies n) (net_heap n) (Pos.succ (net_next n)).

(** Creating a channel: a location never used before. *)
Definition alloc_hp (n : Net) : loc * Net := (net_next n, bump (set_hp (net_next n) mpsc_channel n)).
Definition alloc_lp (n : Net) : loc * Net := (net_next n, bump (set_lp (net_next n) mpsc_channel n)).
Definition alloc_status (n : Net) : loc * Net :=
  (net_next n, bump (set_status (net_next n) (watch_channel Alive) n)).
Definition alloc_reply (n : Net) : loc * Net :=
  (net_next n, bump (set_reply (net_next n) oneshot_channel n)).
Definition alloc_id (n : Net) : Id * Net :=
  let '(i, h) := Ids.unique (net_heap n) in (i, set_heap h n).

(** ** AddressPair and Address *)

Definition AddressPair_new (n : Net) : AddressPair * Net :=
  let '(id, n) := alloc_id n in
  let '(hp_msg, n) := alloc_hp n in
  let '(msg, n) := alloc_lp n in
  let '(join, n) := alloc_status n in
  let joint := mkJoint msg hp_msg join in
  let address := mkAddress id hp_msg msg (mkWatchRx join 0) in
  (mkPair joint address, n).

Definition AddressPair_address (p : AddressPair) : Address := pair_address p.

(** Cloning shares the channels; a cloned [watch::Receiver] has seen the same version. *)
Definition Address_clone (a : Address) : Address :=
  mkAddress (Ids.clone (addr_id a)) (addr_hp_msg_tx a) (addr_msg_tx a) (addr_join_rx a).

Definition Address_eq (a b : Address) : bool := Ids.eq (addr_id a) (addr_id b).
Definition Address_hash (n : Net) (a : Address) (state : list N) : option (list N) :=
  Ids.hash (net_heap n) (addr_id a) state.
Definition Address_id (a : Address) : Ids.IdOf := Ids.IdOf_new (Ids.clone (addr_id a)).
Definition Address_raw_id (a : Address) : Id := addr_id a.

Definition high_priority_send (a : Address) (parcel : Parcel) (n : Net) : result unit Error * Net :=
  match mpsc_send parcel <$> net_hp n !! addr_hp_msg_tx a with
  | Some (Ok c) => (Ok tt, set_hp (addr_hp_msg_tx a) c n)
  | Some (Err _) | None => (Err (err_msg "can't send a high-priority service message"), n)
  end.

Definition normal_priority_send (a : Address) (e : Envelope) (n : Net) : result unit Error * Net :=
  match mpsc_send e <$> net_lp n !! addr_msg_tx a with
  | Some (Ok c) => (Ok tt, set_lp (addr_msg_tx a) c n)
  | Some (Err _) | None => (Err (err_msg (mpsc_send_error (Ch:=Ch))), n)
  end.

(** [act] of any type of action. *)
Definition act (a : Address) (input : Message) (n : Net) : result unit Error * Net :=
  let envelope := Envelope_new input in
  normal_priority_send a envelope n.

Definition instant (a : Address) (input : Message) (n : Net) : result unit Error * Net :=
  let parcel := Parcel_new OpForward input in
  high_priority_send a parcel n.

Definition schedule (a : Address) (input : Payload) (deadline : Instant) (n : Net)
  : result unit Error * Net :=
  let operation := OpSchedule deadline in
  let wrapped := MsgScheduledItem deadline input in
  let parcel := Parcel_new operation wrapped in
  high_priority_send a parcel n.

Definition unpack_parcel (a : Address) (parcel : Parcel) (n : Net) : result unit Error * Net :=
  high_priority_send a parcel n.

Definition send_event (a : Address) (handler : HandlerImpl) (n : Net) : result unit Error * Net :=
  let priority := handler_priority handler in
  let envelope := Envelope_from_handler handler in
  match priority with
  | PNormal => normal_priority_send a envelope n
  | PInstant =>
    let parcel := Parcel_from_envelope envelope in
    high_priority_send a parcel n
  end.

Definition interrupt_by (a : Address) (n : Net) : result unit Error * Net :=
  let parcel := Parcel_new OpForward MsgInterrupt in
  high_priority_send a parcel n.

Definition terminate_by (a : Address) (n : Net) : result unit Error * Net :=
  let envelope := Envelope_new MsgTerminateBy in
  normal_priority_send a envelope n.

Definition attach (a : Address) (stream : Strm) (tag : Payload) (n : Net)
  : result unit Error * Net :=
  let msg := MsgAttachStream stream tag in
  instant a msg n.

(** [interact] only builds the task that will send the request. *)
Definition interact (a : Address) (request : Payload) : TaskImpl :=
  InteractionTask (Address_clone a) request.

(** [link], [action_recipient] and [interaction_recipient] wrap a clone. *)
Definition link {T} (from : Address → T) (a : Address) : T := from (Address_clone a).

(** One poll of the loop [while rx.changed().await.is_ok() { if Stop { break } }];
    [fuel] bounds the iterations of this poll. *)
Fixpoint wait_stop (fuel : nat) (w : Wt Status) (seen : nat) : poll unit * nat :=
  match fuel with
  | O => (Pending, seen)
  | S fuel =>
    match watch_changed w seen with
    | Pending => (Pending, seen)
    | Ready (Err _) => (Ready tt, seen)
    | Ready (Ok seen) =>
      if Status_is_done (watch_borrow w) then (Ready tt, seen) else wait_stop fuel w seen
    end
  end.

(** A poll sees the watch once: after one change it can only wait or end. *)
Definition wait_stop_fuel : nat := 2.

(** [Address::join], polled on the given network. *)
Definition join (a : Address) (n : Net) : poll unit :=
  match net_status n !! rx_loc (addr_join_rx a) with
  | Some w => (wait_stop wait_stop_fuel w (rx_seen (addr_join_rx a))).1
  | None => Ready tt
  end.

(** ** What an observer sees of the network *)

Definition instant_queue (n : Net) (l : loc) : list Parcel :=
  match net_hp n !! l with Some c => mv_queue (mpsc_view c) | None => [] end.
Definition normal_queue (n : Net) (l : loc) : list Envelope :=
  match net_lp n !! l with Some c => mv_queue (mpsc_view c) | None => [] end.
Definition instant_open (n : Net) (l : loc) : bool :=
  match net_hp n !! l with Some c => mv_rx_open (mpsc_view c) | None => false end.
Definition normal_open (n : Net) (l : loc) : bool :=
  match net_lp n !! l with Some c => mv_rx_open (mpsc_view c) | None => false end.

(** Everything but the queue at [l] is the same. *)
Definition only_instant (l : loc) (n n' : Net) : Prop :=
  (∀ k, k ≠ l → net_hp n' !! k = net_hp n !! k) ∧ net_lp n' = net_lp n ∧
  net_status n' = net_status n ∧ net_replies n' = net_replies n ∧ net_heap n' = net_heap n.
Definition only_normal (l : loc) (n n' : Net) : Prop :=
  (∀ k, k ≠ l → net_lp n' !! k = net_lp n !! k) ∧ net_hp n' = net_hp n ∧
  net_status n' = net_status n ∧ net_replies n' = net_replies n ∧ net_heap n' = net_heap n.

Lemma high_priority_send_open a p n :
  instant_open n (addr_hp_msg_tx a) = true →
  let o := high_priority_send a p n in
  o.1 = Ok tt ∧ instant_open o.2 (addr_hp_msg_tx a) = true ∧
  instant_queue o.2 (addr_hp_msg_tx a) = instant_queue n (addr_hp_msg_tx a) ++ [p] ∧
  only_instant (addr_hp_msg_tx a) n o.2.
Proof.
  unfold instant_open, instant_queue, high_priority_send, only_instant.
  destruct (net_hp n !! addr_hp_msg_tx a) as [c|] eqn:E; simpl; [|done]. intros Ho.
  destruct (mpsc_send_open p c Ho) as (c' & -> & Hv); simpl.
  rewrite lookup_insert_eq, Hv. repeat split; intros; by rewrite ?lookup_insert_ne by done.
Qed.

Lemma high_priority_send_closed a p n :
  instant_open n (addr_hp_msg_tx a) = false →
  high_priority_send a p n = (Err (err_msg "can't send a high-priority service message"), n).
Proof.
  unfold instant_open, high_priority_send.
  destruct (net_hp n !! addr_hp_msg_tx a) as [c|] eqn:E; simpl; [|done]. intros Ho.
  by rewrite (mpsc_send_closed p c Ho).
Qed.

Lemma high_priority_send_only a p n :
  only_instant (addr_hp_msg_tx a) n (high_priority_send a p n).2.
Proof.
  destruct (instant_open n (addr_hp_msg_tx a)) eqn:Ho; [by apply high_priority_send_open|].
  by rewrite high_priority_send_closed.
Qed.

Lemma normal_priority_send_open a e n :
  normal_open n (addr_msg_tx a) = true →
  let o := normal_priority_send a e n in
  o.1 = Ok tt ∧ normal_open o.2 (addr_msg_tx a) = true ∧
  normal_queue o.2 (addr_msg_tx a) = normal_queue n (addr_msg_tx a) ++ [e] ∧
  only_normal (addr_msg_tx a) n o.2.
Proof.
  unfold normal_open, normal_queue, normal_priority_send, only_normal.
  destruct (net_lp n !! addr_msg_tx a) as [c|] eqn:E; simpl; [|done]. intros Ho.
  destruct (mpsc_send_open e c Ho) as (c' & -> & Hv); simpl.
  rewrite lookup_insert_eq, Hv. repeat split; intros; by rewrite ?lookup_insert_ne by done.
Qed.

Lemma normal_priority_send_closed a e n :
  normal_open n (addr_msg_tx a) = false →
  normal_priority_send a e n = (Err (err_msg (mpsc_send_error (Ch:=Ch))), n).
Proof.
  unfold normal_open, normal_priority_send.
  destruct (net_lp n !! addr_msg_tx a) as [c|] eqn:E; simpl; [|done]. intros Ho.
  by rewrite (mpsc_send_closed e c Ho).
Qed.

(** ** Waiting for a stop *)

Lemma wait_stop_enough fuel w seen :
  wait_stop (wait_stop_fuel + fuel) w seen = wait_stop wait_stop_fuel w seen.
Proof.
  unfold wait_stop_fuel; simpl. rewrite !watch_changed_view.
  destruct (decide (wv_version (watch_view w) ≠ seen)) as [Hv|Hv].
  - rewrite bool_decide_eq_true_2 by done. destruct (Status_is_done _); [done|]; simpl.
    rewrite watch_changed_view, bool_decide_eq_false_2 by naive_solver. by destruct (wv_tx_alive _).
  - rewrite bool_decide_eq_false_2 by done. by destruct (wv_tx_alive _).
Qed.

Lemma wait_stop_ready w seen :
  (wait_stop wait_stop_fuel w seen).1 = Ready tt ↔
    wv_version (watch_view w) ≠ seen ∧ wv_value (watch_view w) = Stop
    ∨ wv_tx_alive (watch_view w) = false.
Proof.
  unfold wait_stop_fuel; simpl; unfold Status_is_done. rewrite !watch_changed_view, watch_borrow_view.
  destruct (decide (wv_version (watch_view w) ≠ seen)) as [Hv|Hv].
  - rewrite (bool_decide_eq_true_2 (_ ≠ _)) by done. case_bool_decide; simpl; [naive_solver|].
    rewrite watch_changed_view, bool_decide_eq_false_2 by naive_solver.
    destruct (wv_tx_alive _); naive_solver.
  - rewrite bool_decide_eq_false_2 by done. destruct (wv_tx_alive _); naive_solver.
Qed.

Lemma wait_stop_pending w seen :
  (wait_stop wait_stop_fuel w seen).1 = Pending ∨ (wait_stop wait_stop_fuel w seen).1 = Ready tt.
Proof. destruct (wait_stop wait_stop_fuel w seen).1 as [|[]]; auto. Qed.

(** ** Well-formed networks *)

(** Nothing is allocated at or after the next location. *)
Definition net_wf (n : Net) : Prop := ∀ l, (net_next n ≤ l)%positive →
  net_hp n !! l = None ∧ net_lp n !! l = None ∧ net_status n !! l = None ∧ net_replies n !! l = None.

Lemma net_wf_empty : net_wf net_empty.
Proof. intros l _. simpl. by rewrite !lookup_empty. Qed.

(** What exists in [n] is as it was. *)
Definition net_kept (n n' : Net) : Prop :=
  (∀ l, is_Some (net_hp n !! l) → net_hp n' !! l = net_hp n !! l) ∧
  (∀ l, is_Some (net_lp n !! l) → net_lp n' !! l = net_lp n !! l) ∧
  (∀ l, is_Some (net_status n !! l) → net_status n' !! l = net_status n !! l) ∧
  (∀ l, is_Some (net_replies n !! l) → net_replies n' !! l = net_replies n !! l).

(** Where a parcel, or an envelope, was queued. *)
Definition queued_instant (a : Address) (p : Parcel) (n : Net) (o : result unit Error * Net) : Prop :=
  o.1 = Ok tt ∧
  instant_queue o.2 (addr_hp_msg_tx a) = instant_queue n (addr_hp_msg_tx a) ++ [p] ∧
  only_instant (addr_hp_msg_tx a) n o.2.
Definition queued_normal (a : Address) (e : Envelope) (n : Net) (o : result unit Error * Net) : Prop :=
  o.1 = Ok tt ∧
  normal_queue o.2 (addr_msg_tx a) = normal_queue n (addr_msg_tx a) ++ [e] ∧
  only_normal (addr_msg_tx a) n o.2.

Lemma high_priority_queued a p n :
  instant_open n (addr_hp_msg_tx a) = true → queued_instant a p n (high_priority_send a p n).
Proof. intros Ho. by destruct (high_priority_send_open a p n Ho) as (? & _ & ? & ?). Qed.

Lemma normal_priority_queued a e n :
  normal_open n (addr_msg_tx a) = true → queued_normal a e n (normal_priority_send a e n).
Proof. intros Ho. by destruct (normal_priority_send_open a e n Ho) as (? & _ & ? & ?). Qed.

Lemma AddressPair_new_spec n :
  net_wf n →
  let '(p, n') := AddressPair_new n in
  let a := pair_address p in
  let j := pair_joint p in
  (joint_hp_msg_rx j = addr_hp_msg_tx a ∧ joint_msg_rx j = addr_msg_tx a ∧
   joint_join_tx j = rx_loc (addr_join_rx a)) ∧
  (instant_queue n' (addr_hp_msg_tx a) = [] ∧ instant_open n' (addr_hp_msg_tx a) = true) ∧
  (normal_queue n' (addr_msg_tx a) = [] ∧ normal_open n' (addr_msg_tx a) = true) ∧
  join a n' = Pending ∧
  (¬ Ids.live (net_heap n) (addr_id a) ∧ net_hp n !! addr_hp_msg_tx a = None ∧
   net_lp n !! addr_msg_tx a = None ∧ net_status n !! rx_loc (addr_join_rx a) = None) ∧
  net_kept n n' ∧ net_wf n' ∧ Ids.live (net_heap n') (addr_id a) ∧
  (net_next n ≤ addr_hp_msg_tx a)%positive.
Proof.
  intros Hwf. unfold AddressPair_new, alloc_id.
  pose proof (Ids.unique_fresh (net_heap n)) as Hf. pose proof (Ids.unique_live (net_heap n)) as Hlive.
  destruct (Ids.unique (net_heap n)) as [i h]. unfold alloc_hp, alloc_lp, alloc_status.
  unfold instant_queue, normal_queue, instant_open, normal_open, join, net_kept; simpl.
  rewrite !lookup_insert_eq, !mpsc_channel_view; simpl.
  rewrite watch_changed_view, watch_channel_view; simpl.
  destruct (Hwf (net_next n)) as (H1 & _ & _ & _); [lia|].
  destruct (Hwf (Pos.succ (net_next n))) as (_ & H2 & _ & _); [lia|].
  destruct (Hwf (Pos.succ (Pos.succ (net_next n)))) as (_ & _ & H3 & _); [lia|].
  repeat split; try done; try exact Hlive; try lia;
    try (intros l [x Hl]; rewrite lookup_insert_ne; [done|]; intros <-; congruence).
  all: simpl in *; rewrite ?lookup_insert_ne by lia; apply Hwf; lia.
Qed.

(** C26: routing.  When the actor's queues are open, every method of an address
    puts one message of its kind at the end of one queue and changes nothing
    else: actions and terminations go to the normal queue; instant actions,
    attached streams, interruptions and scheduled items (with their deadline)
    to the high-priority one; a custom handler goes where its priority says. *)
Theorem address_routing a n input deadline stream tag h :
  instant_open n (addr_hp_msg_tx a) = true → normal_open n (addr_msg_tx a) = true →
  queued_normal a (mkEnvelope (ActionHandlerImpl (Some input))) n (act a input n) ∧
  queued_normal a (mkEnvelope (ActionHandlerImpl (Some MsgTerminateBy))) n (terminate_by a n) ∧
  queued_instant a (mkParcel OpForward (mkEnvelope (InstantActionHandlerImpl (Some input)))) n
    (instant a input n) ∧
  queued_instant a (mkParcel OpForward
    (mkEnvelope (InstantActionHandlerImpl (Some (MsgAttachStream stream tag))))) n (attach a stream tag n) ∧
  queued_instant a (mkParcel OpForward (mkEnvelope (InstantActionHandlerImpl (Some MsgInterrupt)))) n
    (interrupt_by a n) ∧
  (∀ item, queued_instant a (mkParcel (OpSchedule deadline)
    (mkEnvelope (InstantActionHandlerImpl (Some (MsgScheduledItem deadline item))))) n
    (schedule a item deadline n)) ∧
  match handler_priority h with
  | PInstant => queued_instant a (mkParcel OpForward (mkEnvelope h)) n (send_event a h n)
  | PNormal => queued_normal a (mkEnvelope h) n (send_event a h n)
  end.
Proof.
  intros Hi Hn. repeat split_and;
    try (by apply high_priority_queued); try (by apply normal_priority_queued).
  - intros item. by apply high_priority_queued.
  - unfold send_event. destruct (handler_priority h); simpl.
    + by apply normal_priority_queued.
    + by apply high_priority_queued.
Qed.

Definition refused (n : Net) (o : result unit Error * Net) : Prop := is_err o.1 = true ∧ o.2 = n.

(** A message to an actor whose runtime is gone is refused: every method of
    its address gives an error and leaves the network as it was. *)
Theorem address_refused a n input deadline stream tag h :
  instant_open n (addr_hp_msg_tx a) = false → normal_open n (addr_msg_tx a) = false →
  refused n (act a input n) ∧ refused n (terminate_by a n) ∧ refused n (instant a input n) ∧
  refused n (attach a stream tag n) ∧ refused n (interrupt_by a n) ∧
  (∀ item, refused n (schedule a item deadline n)) ∧ refused n (send_event a h n).
Proof.
  intros Hi Hn.
  pose proof (λ p, high_priority_send_closed a p n Hi) as Hh.
  pose proof (λ e, normal_priority_send_closed a e n Hn) as Hl.
  unfold refused, attach, act, terminate_by, instant, interrupt_by, schedule, send_event.
  repeat split_and; intros; try destruct (handler_priority h); by rewrite ?Hh, ?Hl.
Qed.
End net.

#[local] Existing Instance ref_crates.
#[local] Existing Instance sample_app.

(** A network with one address. *)
Definition sample_pair : AddressPair := (AddressPair_new net_empty).1.
Definition sample_address : Address := pair_address sample_pair.
Definition sample_net : Net := (AddressPair_new net_empty).2.

Lemma address_routing_witness :
  queued_instant sample_address (mkParcel (OpSchedule 7)
    (Envelope_instant (MsgScheduledItem 7 5%N))) sample_net (schedule sample_address 5%N 7 sample_net).
Proof.
  destruct (address_routing sample_address sample_net MsgAwake 7 0%N 0%N (ActionHandlerImpl None))
    as (_ & _ & _ & _ & _ & H & _); [reflexivity..|]. apply (H 5%N).
Defined.

Lemma address_refused_witness :
  act sample_address MsgAwake net_empty = (Err (Reference.RefMsg "channel closed"), net_empty) ∧
  is_err (act sample_address MsgAwake net_empty).1 = true.
Proof.
  split; [reflexivity|].
  pose proof (address_refused sample_address net_empty MsgAwake 0 0%N 0%N (ActionHandlerImpl None)
                eq_refl eq_refl) as H.
  by destruct H as ([H _] & _).
Defined.
