(* ===== verification/LiteRuntime.v ===== *)
(** * lite_runtime.rs and the notifiers of lifecycle.rs

    The stop channel of a task, the default chain of [LiteTask] methods, the
    conversion of errors into [TaskError], and the entrypoint of a task.  The
    three closures behind [LifecycleNotifier] are interpreted here, and
    implement the interface the lifetime tracker is written against. *)
From S2P Require Import Prelude Extern Ids Types Lifecycle Linkage.

Section lite_runtime.
Context `{!Crates, !App}.
Implicit Types (n : Net).

(** ** The stop channel *)

Definition make_stop_channel (id : Id) n : (TaskAddress * StopReceiver) * Net :=
  let '(status, n) := alloc_status n in
  let stop_sender := mkStopSender status in
  let address := mkTaskAddress id stop_sender in
  let receiver := mkStopReceiver (mkWatchRx status 0) in
  ((address, receiver), n).

(** [StopSender::stop] *)
Definition StopSender_stop (s : StopSender) n : result unit Error * Net :=
  match watch_send Stop <$> net_status n !! stop_tx s with
  | Some (Ok w) => (Ok tt, set_status (stop_tx s) w n)
  | Some (Err _) | None => (Err err_watch_send, n)
  end.

Definition StopSender_from (a : TaskAddress) : StopSender := task_stop_sender a.

Definition TaskAddress_clone (a : TaskAddress) : TaskAddress :=
  mkTaskAddress (Ids.clone (task_id a)) (task_stop_sender a).
Definition TaskAddress_id (a : TaskAddress) : Ids.IdOf := Ids.IdOf_new (Ids.clone (task_id a)).
Definition TaskAddress_stop (a : TaskAddress) n : result unit Error * Net :=
  StopSender_stop (task_stop_sender a) n.
Definition TaskAddress_eq (a b : TaskAddress) : bool := Ids.eq (task_id a) (task_id b).
Definition TaskAddress_hash n (a : TaskAddress) (state : list N) : option (list N) :=
  Ids.hash (net_heap n) (task_id a) state.

(** [StopReceiver::is_alive] *)
Definition StopReceiver_is_alive (r : StopReceiver) n : bool :=
  match net_status n !! rx_loc (stop_status r) with
  | Some w => bool_decide (watch_borrow w = Alive)
  | None => false
  end.

(** [just_done], and [StopReceiver::into_future] that boxes it. *)
Definition just_done (rx : WatchRx) n : poll unit :=
  match net_status n !! rx_loc rx with
  | Some w => (wait_stop wait_stop_fuel w (rx_seen rx)).1
  | None => Ready tt
  end.

Definition StopReceiver_into_future (r : StopReceiver) n : poll unit := just_done (stop_status r) n.

(** [StopReceiver::or]: [None] of the inner option stands for [Err(TaskStopped)].
    When both futures are ready, which one wins is the scheduler's choice. *)
Inductive or_result (A : Type) : Type := TaskStopped | Output (a : A).
Arguments TaskStopped {A}.
Arguments Output {A} a.

Definition StopReceiver_or {A} (left_first : bool) (r : StopReceiver) (fut : poll A) n
  : poll (or_result A) :=
  match StopReceiver_into_future r n, fut with
  | Ready _, Ready a => Ready (if left_first then TaskStopped else Output a)
  | Ready _, Pending => Ready TaskStopped
  | Pending, Ready a => Ready (Output a)
  | Pending, Pending => Pending
  end.

(** ** TaskError *)

Definition TaskError_is_interrupted (e : TaskError) : bool :=
  match e with Interrupted => true | Other _ => false end.

Definition TaskError_into_other (e : TaskError) : option Error :=
  match e with Interrupted => None | Other err => Some err end.

Definition TaskError_swap {A} (r : result A TaskError) : result (option A) Error :=
  match r with
  | Ok value => Ok (Some value)
  | Err Interrupted => Ok None
  | Err (Other err) => Err err
  end.

Definition TaskError_from (error : Error) : TaskError :=
  if is_task_stopped error then Interrupted else Other error.

(** ** LiteTask: the default methods

    [St] is the state of the task (and of what it looks at); a task overrides
    [pre_repeatable_routine] and [repeatable_routine]. *)
Section lite_task.
Context {St Out : Type}.
Variable pre_repeatable_routine : St → result unit Error * St.
Variable repeatable_routine : St → result (option Out) Error * St.
Variable routine_wait : bool → St → outcome St.

(** The [loop] of [interruptable_routine], for at most [fuel] attempts. *)
Fixpoint repeat_loop (fuel : nat) (s : St) : option (outcome (result Out Error)) * St :=
  match fuel with
  | O => (None, s)
  | S fuel =>
    match repeatable_routine s with
    | (Ok (Some output), s) => (Some (Return (Ok output)), s)
    | (Ok None, s) =>
      match routine_wait true s with
      | Return s => repeat_loop fuel s
      | Panic message => (Some (Panic message), s)
      end
    | (Err _, s) =>
      match routine_wait false s with
      | Return s => repeat_loop fuel s
      | Panic message => (Some (Panic message), s)
      end
    end
  end.

Definition interruptable_routine (fuel : nat) (s : St) : option (outcome (result Out Error)) * St :=
  match pre_repeatable_routine s with
  | (Err e, s) => (Some (Return (Err e)), s)
  | (Ok _, s) => repeat_loop fuel s
  end.

(** The state before the [k]-th attempt of the loop, if no wait panics before. *)
Fixpoint attempt_state (k : nat) (s : St) : outcome St :=
  match k with
  | O => Return s
  | S k =>
    let '(r, s) := repeatable_routine s in
    match routine_wait (is_ok r) s with
    | Return s => attempt_state k s
    | Panic message => Panic message
    end
  end.

(** No attempt before the [k]-th gives an output. *)
Definition no_output (k : nat) (s : St) : Prop :=
  ∀ j sj o, j < k → attempt_state j s = Return sj → (repeatable_routine sj).1 ≠ Ok (Some o).

(** One attempt without an output, and its wait. *)
Lemma repeat_loop_step fuel s :
  (∀ o, (repeatable_routine s).1 ≠ Ok (Some o)) →
  repeat_loop (S fuel) s =
    match attempt_state 1 s with
    | Return s1 => repeat_loop fuel s1
    | Panic message => (Some (Panic message), (repeatable_routine s).2)
    end.
Proof.
  intros Hno. simpl. destruct (repeatable_routine s) as [[[o|]|e] s1]; simpl in *.
  - by destruct (Hno o).
  - by destruct (routine_wait true s1).
  - by destruct (routine_wait false s1).
Qed.

Lemma attempt_state_S k s :
  attempt_state (S k) s =
    match attempt_state 1 s with Return s1 => attempt_state k s1 | Panic message => Panic message end.
Proof. simpl. destruct (repeatable_routine s). by destruct (routine_wait _ _). Qed.

Lemma no_output_S k s s1 :
  no_output (S k) s → attempt_state 1 s = Return s1 → no_output k s1.
Proof.
  intros Hno Hs j sj o Hj Hsj. apply (Hno (S j) sj o); [lia|]. by rewrite attempt_state_S, Hs.
Qed.

(** The loop gets to the [k]-th attempt, or to the panic before it. *)
Lemma repeat_loop_reaches k s fuel :
  no_output k s →
  match attempt_state k s with
  | Return sk => repeat_loop (k + fuel) s = repeat_loop fuel sk
  | Panic message => (repeat_loop (k + fuel) s).1 = Some (Panic message)
  end.
Proof.
  revert s. induction k as [|k IH]; intros s Hno; [done|].
  rewrite Nat.add_succ_l, repeat_loop_step by (intros o; apply (Hno 0 s o); [lia|done]).
  rewrite attempt_state_S. pose proof (no_output_S k s) as HS.
  destruct (attempt_state 1 s) as [s1|m]; [|done]. apply IH. by apply HS.
Qed.
End lite_task.

(** The default [pre_repeatable_routine] and [repeatable_routine]. *)
Definition pre_repeatable_routine_default {St} (s : St) : result unit Error * St := (Ok tt, s).
Definition repeatable_routine_default {St Out} (s : St) : result (option Out) Error * St := (Ok None, s).
(** The default [routine_wait]: five seconds, whatever the attempt gave. *)
Definition routine_wait_default (now : Instant) (succeed : bool) : Instant :=
  (now + 5 * 1000000000)%N.

(** The default [routine], polled: [fut] is what polling the interruptable
    routine gives. *)
Definition routine {Out} (left_first : bool) (stop : StopReceiver) (fut : poll (result Out Error)) n
  : poll (result Out Error) :=
  match StopReceiver_or left_first stop fut n with
  | Pending => Pending
  | Ready TaskStopped => Ready (Err err_task_stopped)
  | Ready (Output r) => Ready r
  end.

(** ** Notifiers *)

(** [LifecycleNotifier::notify] for the closures of [ignore], [once] and [stop]. *)
Definition notify_with (msg : Message) (nt : Notifier) n : result unit Error * Net :=
  match nt with
  | NIgnore => (Ok tt, n)
  | NOnce address operation =>
    let parcel := Parcel_new operation msg in
    unpack_parcel address parcel n
  | NStop stopper => TaskAddress_stop stopper n
  end.

#[export] Instance net_notifier : LifecycleNotifier Address TaskAddress Error Notifier Net := {|
  address_id := addr_id;
  stopper_id := task_id;
  once address := NOnce address OpForward;
  stop := NStop;
  notify := notify_with MsgInterrupt
|}.

(** ** LiteRuntime *)

Record LiteRuntime : Type := mkLiteRuntime {
  lr_id : Id;
  lr_task : TaskImpl;
  lr_done_notifier : Notifier;
  lr_stop_receiver : StopReceiver;
  lr_tag : Payload
}.

(** [lite_runtime::spawn]: the future handed to the executor, and the stopper. *)
Definition lite_spawn (task : TaskImpl) (tag : Payload) (supervisor : option Address) n
  : (LiteRuntime * TaskAddress) * Net :=
  let '(id, n) := alloc_id n in
  let '((stop_sender, stop_receiver), n) := make_stop_channel id n in
  let done_notifier :=
    match supervisor with
    | None => NIgnore
    | Some super_addr => NOnce super_addr (OpDone id)
    end in
  let runtime := mkLiteRuntime id task done_notifier stop_receiver tag in
  ((runtime, stop_sender), n).

(** The end of [LiteRuntime::entrypoint], once the routine gave [res]: the stop
    receiver went with the routine, and the supervisor is told (a failure to
    tell it is only logged). *)
Definition lite_entrypoint (rt : LiteRuntime) (res : result Payload Error) n : Net :=
  let n :=
    match net_status n !! rx_loc (stop_status (lr_stop_receiver rt)) with
    | Some w => set_status (rx_loc (stop_status (lr_stop_receiver rt))) (watch_drop_rx w) n
    | None => n
    end in
  let res := map_err TaskError_from res in
  let task_done := MsgTaskDone (lr_id rt) (task_kind (lr_task rt)) (lr_tag rt) res in
  (notify_with task_done (lr_done_notifier rt) n).2.

(** ** Lemmas *)

Lemma StopSender_stop_ok s w n :
  net_status n !! stop_tx s = Some w → wv_receivers (watch_view w) ≠ 0 →
  ∃ w', StopSender_stop s n = (Ok tt, set_status (stop_tx s) w' n) ∧
    watch_view w' = mkWatchView Stop (S (wv_version (watch_view w)))
      (wv_receivers (watch_view w)) (wv_tx_alive (watch_view w)).
Proof.
  intros Hw Hr. unfold StopSender_stop. rewrite Hw; simpl.
  destruct (watch_send_ok Stop w Hr) as (w' & -> & Hv). eauto.
Qed.

Lemma StopSender_stop_err s w n :
  net_status n !! stop_tx s = Some w → wv_receivers (watch_view w) = 0 →
  StopSender_stop s n = (Err err_watch_send, n).
Proof.
  intros Hw Hr. unfold StopSender_stop. rewrite Hw; simpl. by rewrite (watch_send_err Stop w Hr).
Qed.

Lemma just_done_ready rx n w :
  net_status n !! rx_loc rx = Some w →
  just_done rx n = Ready tt ↔
    wv_version (watch_view w) ≠ rx_seen rx ∧ wv_value (watch_view w) = Stop
    ∨ wv_tx_alive (watch_view w) = false.
Proof. intros Hw. unfold just_done. rewrite Hw. apply wait_stop_ready. Qed.

Lemma StopReceiver_or_stopped {A} lf r n :
  StopReceiver_into_future r n = Ready tt →
  StopReceiver_or lf r (Pending (A:=A)) n = Ready TaskStopped.
Proof. intros Hr. unfold StopReceiver_or. by rewrite Hr. Qed.
(** The watch behind a stop channel. *)
Definition stop_watch n (s : StopSender) : option (WatchView Status) :=
  watch_view <$> net_status n !! stop_tx s.

Lemma make_stop_channel_watch id n :
  let '((addr, rx), n1) := make_stop_channel id n in
  stop_watch n1 (task_stop_sender addr) = Some (mkWatchView Alive 0 1 true) ∧
  stop_status rx = mkWatchRx (stop_tx (task_stop_sender addr)) 0 ∧ task_id addr = id.
Proof.
  unfold make_stop_channel, alloc_status, stop_watch; simpl.
  by rewrite lookup_insert_eq; simpl; rewrite watch_channel_view.
Qed.

Lemma stop_watch_stop s n v :
  stop_watch n s = Some v → wv_receivers v ≠ 0 →
  (StopSender_stop s n).1 = Ok tt ∧
  stop_watch (StopSender_stop s n).2 s =
    Some (mkWatchView Stop (S (wv_version v)) (wv_receivers v) (wv_tx_alive v)).
Proof.
  unfold stop_watch. rewrite fmap_Some. intros (w & Hw & ->) Hr.
  destruct (StopSender_stop_ok s w n Hw Hr) as (w' & -> & Hv); simpl.
  by rewrite lookup_insert_eq; simpl; rewrite Hv.
Qed.

Lemma stop_watch_future r s n v :
  rx_loc (stop_status r) = stop_tx s → stop_watch n s = Some v →
  (StopReceiver_is_alive r n = bool_decide (wv_value v = Alive)) ∧
  (StopReceiver_into_future r n = Ready tt ↔
    wv_version v ≠ rx_seen (stop_status r) ∧ wv_value v = Stop ∨ wv_tx_alive v = false).
Proof.
  unfold stop_watch. rewrite fmap_Some. intros Hl (w & Hw & ->). rewrite <-Hl in Hw. split.
  - unfold StopReceiver_is_alive. by rewrite Hw, watch_borrow_view.
  - by apply just_done_ready.
Qed.

Lemma stop_future_pending r n :
  StopReceiver_into_future r n ≠ Ready tt → StopReceiver_into_future r n = Pending.
Proof. by destruct (StopReceiver_into_future r n) as [|[]]. Qed.

(** A task can be stopped.  Until its stopper is used the default routine
    is the task's own routine; once it is used, the receiver is no longer alive
    and a routine that still waits ends, as an interruption (what a task ends with then is never
    mistaken for a failure of its own), however often it is used again. *)
Theorem stop_interrupts {Out} left_first id n (fut : poll (result Out Error)) k :
  let '((addr, rx), n1) := make_stop_channel id n in
  let n2 := Nat.iter (S k) (λ n, (TaskAddress_stop addr n).2) n1 in
  StopReceiver_is_alive rx n1 = true ∧ routine left_first rx fut n1 = fut ∧
  (TaskAddress_stop addr n1).1 = Ok tt ∧
  StopReceiver_is_alive rx n2 = false ∧
  routine left_first rx (Pending (A:=result Out Error)) n2 = Ready (Err err_task_stopped) ∧
  map_err (A:=Out) TaskError_from (Err err_task_stopped) = Err Interrupted.
Proof.
  pose proof (make_stop_channel_watch id n) as Hmk.
  destruct (make_stop_channel id n) as [[addr rx] n1]. destruct Hmk as (Hw & Hrx & _).
  assert (rx_loc (stop_status rx) = stop_tx (task_stop_sender addr)) as Hloc by by rewrite Hrx.
  assert (rx_seen (stop_status rx) = 0) as Hseen by by rewrite Hrx.
  destruct (stop_watch_future _ _ _ _ Hloc Hw) as [Ha Hf]; simpl in Ha, Hf.
  assert (stop_watch (Nat.iter (S k) (λ n, (TaskAddress_stop addr n).2) n1) (task_stop_sender addr)
            = Some (mkWatchView Stop (S k) 1 true)) as Hs.
  { induction k as [|k IH].
    - simpl. unfold TaskAddress_stop. by destruct (stop_watch_stop _ _ _ Hw) as [_ ->].
    - change (Nat.iter (S (S k)) ?f n1) with (f (Nat.iter (S k) f n1)). cbv beta.
      unfold TaskAddress_stop in *. by destruct (stop_watch_stop _ _ _ IH) as [_ ->]. }
  cbv zeta. set (n2 := Nat.iter _ _ _) in *. clearbody n2.
  destruct (stop_watch_future _ _ _ _ Hloc Hs) as [Ha2 Hf2]; simpl in Ha2, Hf2.
  split; [by rewrite Ha|]. split.
  { unfold routine, StopReceiver_or. rewrite stop_future_pending by naive_solver. by destruct fut. }
  split; [by destruct (stop_watch_stop _ _ _ Hw)|]. split; [by rewrite Ha2|]. split.
  - unfold routine. rewrite StopReceiver_or_stopped; [done|]. apply Hf2. rewrite Hseen. auto.
  - unfold map_err, TaskError_from. by rewrite is_task_stopped_law.
Qed.

(** The loop of [interruptable_routine] tries until an attempt gives an
    output.  An attempt that fails, or gives nothing, never ends it: it returns
    the output of the first attempt that has one (as soon as there is fuel for
    that many attempts), and never returns when no attempt has one.  Only a
    failure of [pre_repeatable_routine] makes it fail, and only a wait that
    panics makes it panic. *)
Theorem interruptable_routine_repeats {St Out} (pre : St → result unit Error * St)
  (rep : St → result (option Out) Error * St) (wait : bool → St → outcome St) s0 s :
  (∀ e, pre s0 = (Err e, s) →
    ∀ fuel, interruptable_routine pre rep wait fuel s0 = (Some (Return (Err e)), s)) ∧
  (pre s0 = (Ok tt, s) → ∀ k, no_output rep wait k s →
    match attempt_state rep wait k s with
    | Return sk =>
      interruptable_routine pre rep wait k s0 = (None, sk) ∧
      ∀ out s', rep sk = (Ok (Some out), s') → ∀ fuel, k < fuel →
        interruptable_routine pre rep wait fuel s0 = (Some (Return (Ok out)), s')
    | Panic message => ∀ fuel, k ≤ fuel →
        (interruptable_routine pre rep wait fuel s0).1 = Some (Panic message)
    end).
Proof.
  unfold interruptable_routine. split; [by intros e ->|]. intros -> k Hno.
  assert (∀ fuel, k ≤ fuel → ∃ d, fuel = k + d) as Hd by (intros fuel Hf; exists (fuel - k); lia).
  pose proof (λ d, repeat_loop_reaches rep wait k s d Hno) as Hr.
  destruct (attempt_state rep wait k s) as [sk|m].
  - split; [by rewrite <-(Nat.add_0_r k), (Hr 0)|]. intros out s' Hsk fuel Hf.
    destruct (Hd (pred fuel) ltac:(lia)) as [d Hd']. replace fuel with (k + S d) by lia.
    rewrite Hr. simpl. by rewrite Hsk.
  - intros fuel Hf. destruct (Hd fuel Hf) as [d ->]. apply Hr.
Qed.

(** C27: the end of a task reaches its supervisor.  Take any later state of the
    network, whether or not the task was stopped until then, in which the one receiver
    of its stop channel is there.  The task can be stopped, and then its default routine
    ends as stopped if it still waits.  When the routine is over, whatever it gave, one
    high-priority parcel reaches the supervisor, if that is still there, with the task's
    id, its tag and its result ([TaskStopped] as an interruption, any other error kept),
    and nothing is sent otherwise; from then on nobody can stop the task. *)
Theorem task_end_reported task tag sup n res n2 v :
  let '((rt, stopper), n1) := lite_spawn task tag (Some sup) n in
  stop_watch n2 (task_stop_sender stopper) = Some v → wv_receivers v = 1 →
  let n3 := lite_entrypoint rt res n2 in
  (TaskAddress_stop stopper n2).1 = Ok tt ∧
  (∀ left_first, routine left_first (lr_stop_receiver rt) (Pending (A:=result Payload Error))
     (TaskAddress_stop stopper n2).2 = Ready (Err err_task_stopped)) ∧
  (instant_open n2 (addr_hp_msg_tx sup) = true →
   instant_queue n3 (addr_hp_msg_tx sup) = instant_queue n2 (addr_hp_msg_tx sup) ++
    [mkParcel (OpDone (task_id stopper))
       (Envelope_instant (MsgTaskDone (task_id stopper) (task_kind task) tag
          (match res with
           | Ok v => Ok v
           | Err e => Err (if is_task_stopped e then Interrupted else Other e)
           end)))]) ∧
  (instant_open n2 (addr_hp_msg_tx sup) = false → net_hp n3 = net_hp n2) ∧
  net_lp n3 = net_lp n2 ∧
  TaskAddress_stop stopper n3 = (Err err_watch_send, n3).
Proof.
  unfold lite_spawn. destruct (alloc_id n) as [id n0].
  pose proof (make_stop_channel_watch id n0) as Hmk.
  destruct (make_stop_channel id n0) as [[stopper rx] n1]. destruct Hmk as (_ & Hrx & Hid).
  intros Hn2 Hone. unfold TaskAddress_stop. cbn [lr_stop_receiver].
  destruct (stop_watch_stop _ _ _ Hn2) as [Hok Hstopped]; [by rewrite Hone|].
  split; [done|]. split.
  { intros lf. unfold routine. rewrite StopReceiver_or_stopped; [done|].
    eapply stop_watch_future; [by rewrite Hrx|exact Hstopped|]. left. by rewrite Hrx. }
  unfold lite_entrypoint; cbn [lr_id lr_stop_receiver lr_task lr_tag lr_done_notifier].
  rewrite Hrx; cbn [rx_loc]. unfold stop_watch in Hn2. apply fmap_Some in Hn2 as (w & Hw2 & Hv).
  rewrite Hw2. unfold notify_with, unpack_parcel. set (n2' := set_status _ _ n2).
  match goal with |- context [high_priority_send sup ?p n2'] =>
    pose proof (high_priority_send_open sup p n2') as Hopen;
    pose proof (high_priority_send_closed sup p n2') as Hclosed;
    destruct (high_priority_send_only sup p n2') as (_ & Hlp & Hst & _) end.
  change (instant_open n2' (addr_hp_msg_tx sup)) with (instant_open n2 (addr_hp_msg_tx sup)) in *.
  change (instant_queue n2' (addr_hp_msg_tx sup)) with (instant_queue n2 (addr_hp_msg_tx sup)) in *.
  cbv zeta. split_and!.
  - intros Ho. destruct (Hopen Ho) as (_ & _ & -> & _). by rewrite Hid.
  - intros Hc. by rewrite (Hclosed Hc).
  - by rewrite Hlp.
  - eapply (StopSender_stop_err _ (watch_drop_rx w)).
    + rewrite Hst. by apply lookup_insert_eq.
    + by rewrite watch_drop_rx_view, <-Hv, Hone.
Qed.
End lite_runtime.
Arguments TaskStopped {A}.
Arguments Output {A} a.

#[local] Existing Instance ref_crates.
#[local] Existing Instance sample_app.

(** Two failures, then an output, with the number of attempts as the state. *)
Definition third_time (s : nat) : result (option N) Error * nat :=
  (if decide (s < 2) then Err (err_msg "failed") else Ok (Some 7%N), S s).

Lemma interruptable_routine_repeats_witness :
  interruptable_routine pre_repeatable_routine_default third_time (λ _ s, Return s) 3 0 =
    (Some (Return (Ok 7%N)), 3).
Proof.
  destruct (interruptable_routine_repeats pre_repeatable_routine_default third_time (λ _ s, Return s) 0 0)
    as [_ H].
  specialize (H eq_refl 2). apply H; [|reflexivity|lia].
  intros [|[|j]] sj o Hj Hs; [..|lia]; by injection Hs as <-.
Defined.

(** The task is stopped, and ends as interrupted. *)
Definition sample_spawned : (LiteRuntime * TaskAddress) * Net :=
  lite_spawn (UserTask 1%N) 2%N (Some sample_address) sample_net.

Lemma task_end_reported_witness :
  let '((rt, stopper), n1) := sample_spawned in
  let n2 := (TaskAddress_stop stopper n1).2 in
  let n3 := lite_entrypoint rt (Err err_task_stopped) n2 in
  (∀ left_first, routine left_first (lr_stop_receiver rt) (Pending (A:=result Payload Error)) n2 =
     Ready (Err err_task_stopped)) ∧
  instant_queue n3 (addr_hp_msg_tx sample_address) =
    [mkParcel (OpDone (task_id stopper))
       (Envelope_instant (MsgTaskDone (task_id stopper) (task_kind (lr_task rt)) 2%N (Err Interrupted)))] ∧
  TaskAddress_stop stopper n3 = (Err err_watch_send, n3).
Proof.
  pose proof (λ n2 v, task_end_reported (UserTask 1%N) 2%N sample_address sample_net (Err err_task_stopped) n2 v) as H.
  fold sample_spawned in H. destruct sample_spawned as [[rt stopper] n1] eqn:E.
  destruct (H n1 (mkWatchView Alive 0 1 true)) as (_ & H1 & _); [by injection E as <- <- <-..|].
  destruct (H (TaskAddress_stop stopper n1).2 (mkWatchView Stop 1 1 true)) as (_ & _ & H2 & _ & _ & H3);
    [by injection E as <- <- <-..|].
  cbv zeta. split; [exact H1|]. split; [|exact H3]. rewrite H2 by (by injection E as <- <- <-).
  by injection E as <- <- <-.
Defined.
