(* ===== verification/Distributor.v ===== *)
(** * linkage: recipients and distributors

    A recipient is the address of an actor behind a trait object, identified by
    its id; a [Distributor] sends an action to a set of them, a
    [TaskDistributor] stops a set of tasks. *)
From S2P Require Import Prelude Extern Ids Types Linkage LiteRuntime.

Section recipients.
Context `{!Crates, !App}.
Implicit Types (n : Net) (a : Address).

(** ** ActionRecipient and InteractionRecipient

    What a [Box<dyn ActionRecipient<T>>] and a [Box<dyn InteractionRecipient<T>>]
    dispatch to, and the [Clone], [PartialEq] and [Hash] of the boxes. *)

Class ActionRecipient (R : Type) := {
  recipient_act : R → Message → Net → result unit Error * Net;
  recipient_id_ref : R → Id;
  recipient_dyn_clone : R → R;
  recipient_dyn_hash : Net → R → list N → option (list N)
}.

Definition recipient_clone {R} `{!ActionRecipient R} (x : R) : R := recipient_dyn_clone x.
Definition recipient_eq {R} `{!ActionRecipient R} (x y : R) : bool :=
  Ids.eq (recipient_id_ref x) (recipient_id_ref y).
Definition recipient_hash {R} `{!ActionRecipient R} n (x : R) (state : list N) : option (list N) :=
  recipient_dyn_hash n x state.

#[export] Instance address_action_recipient : ActionRecipient Address := {|
  recipient_act := act;
  recipient_id_ref := Address_raw_id;
  recipient_dyn_clone := Address_clone;
  recipient_dyn_hash n a := Ids.hash (net_heap n) (Address_raw_id a)
|}.

Class InteractionRecipient (R : Type) := {
  recipient_interact : R → Payload → TaskImpl;
  interaction_id_ref : R → Id;
  interaction_dyn_clone : R → R;
  interaction_dyn_hash : Net → R → list N → option (list N)
}.

Definition interaction_clone {R} `{!InteractionRecipient R} (x : R) : R := interaction_dyn_clone x.
Definition interaction_eq {R} `{!InteractionRecipient R} (x y : R) : bool :=
  Ids.eq (interaction_id_ref x) (interaction_id_ref y).
Definition interaction_hash {R} `{!InteractionRecipient R} n (x : R) (state : list N)
  : option (list N) := interaction_dyn_hash n x state.

#[export] Instance address_interaction_recipient : InteractionRecipient Address := {|
  recipient_interact := interact;
  interaction_id_ref := Address_raw_id;
  interaction_dyn_clone := Address_clone;
  interaction_dyn_hash n a := Ids.hash (net_heap n) (Address_raw_id a)
|}.

(** [Address::action_recipient] and [interaction_recipient] box a clone, the
    conversions box the address itself. *)
Definition action_recipient (a : Address) : Address := Address_clone a.
Definition interaction_recipient (a : Address) : Address := Address_clone a.
Definition action_recipient_from (a : Address) : Address := a.
Definition interaction_recipient_from (a : Address) : Address := a.

(** Boxed recipients that are equal have the same hash, which is that of the
    address (the law of [Hash] that a hash set of them needs), and a clone is
    equal to its original and sends to the same actor. *)
Lemma boxed_recipient_laws n (a b : Address) state :
  (recipient_eq a b = true → recipient_hash n a state = recipient_hash n b state) ∧
  (interaction_eq a b = true → interaction_hash n a state = interaction_hash n b state) ∧
  recipient_hash n a state = Address_hash n a state ∧
  recipient_eq a b = Address_eq a b ∧ recipient_eq (recipient_clone a) a = true ∧
  ∀ m, recipient_act (recipient_clone a) m n = recipient_act a m n.
Proof.
  split_and!; try done.
  - intros He%bool_decide_eq_true. unfold recipient_hash. simpl in *. by rewrite He.
  - intros He%bool_decide_eq_true. unfold interaction_hash. simpl in *. by rewrite He.
  - by apply bool_decide_eq_true.
Qed.

(** ** Distributor *)

Record Distributor : Type := mkDistributor { recipients : gmap Id Address }.

Definition Distributor_new : Distributor := mkDistributor ∅.

Definition Distributor_insert (recipient : Address) (d : Distributor) : Distributor :=
  let id := recipient_id_ref recipient in
  mkDistributor (<[id := recipient]> (recipients d)).

Definition Distributor_remove (id : Id) (d : Distributor) : option Address * Distributor :=
  (recipients d !! id, mkDistributor (delete id (recipients d))).

Definition Distributor_len (d : Distributor) : nat := size (recipients d).
Definition Distributor_is_empty (d : Distributor) : bool := bool_decide (recipients d = ∅).

(** [values_mut], in the order of the map. *)
Definition values (o : HashOrder Id) (d : Distributor) : list Address :=
  omap (λ i, recipients d !! i) (hash_iter o (dom (recipients d))).

(** [act_all]: the iterator is lazy, [find] stops it at the first error. *)
Definition act_all (o : HashOrder Id) (action : Message) (d : Distributor) n
  : result unit Error * Net :=
  let '(found, n) := map_find (λ recipient n, recipient_act recipient action n) is_err (values o d) n in
  (match found with
   | Some (Err e) => Err e
   | Some (Ok _) | None => Ok tt
   end, n).

(** ** TaskDistributor *)

Record TaskDistributor : Type := mkTaskDistributor { tasks : gmap Id TaskAddress }.

Definition TaskDistributor_new : TaskDistributor := mkTaskDistributor ∅.
Definition TaskDistributor_insert (addr : TaskAddress) (d : TaskDistributor) : TaskDistributor :=
  mkTaskDistributor (<[task_id addr := addr]> (tasks d)).
Definition TaskDistributor_get (id : Id) (d : TaskDistributor) : option TaskAddress :=
  tasks d !! id.
Definition TaskDistributor_remove (id : Id) (d : TaskDistributor)
  : option TaskAddress * TaskDistributor :=
  (tasks d !! id, mkTaskDistributor (delete id (tasks d))).
Definition TaskDistributor_len (d : TaskDistributor) : nat := size (tasks d).
Definition TaskDistributor_is_empty (d : TaskDistributor) : bool := bool_decide (tasks d = ∅).

Definition task_values (o : HashOrder Id) (d : TaskDistributor) : list TaskAddress :=
  omap (λ i, tasks d !! i) (hash_iter o (dom (tasks d))).

(** [stop_all]: a failure is logged and the loop goes on. *)
Definition stop_all (o : HashOrder Id) (d : TaskDistributor) n : Net :=
  foldl (λ n addr, (TaskAddress_stop addr n).2) n (task_values o d).

(** ** Lemmas *)

Lemma elem_of_values o d a : a ∈ values o d ↔ ∃ i, recipients d !! i = Some a.
Proof.
  unfold values. rewrite list_elem_of_omap. split; [intros (i & _ & ?); eauto|].
  intros [i Hi]. exists i. split; [|done]. rewrite elem_of_hash_iter, elem_of_dom. by eexists.
Qed.

Lemma elem_of_task_values o d (a : TaskAddress) : a ∈ task_values o d ↔ ∃ i, tasks d !! i = Some a.
Proof.
  unfold task_values. rewrite list_elem_of_omap. split; [intros (i & _ & ?); eauto|].
  intros [i Hi]. exists i. split; [|done]. rewrite elem_of_hash_iter, elem_of_dom. by eexists.
Qed.

(** The effect of sending to addresses with pairwise different queues. *)
Definition send_to (action : Message) (l : list Address) n n' : Prop :=
  (∀ a, a ∈ l → normal_queue n' (addr_msg_tx a) =
                  normal_queue n (addr_msg_tx a) ++ [Envelope_new action]) ∧
  (∀ k, k ∉ addr_msg_tx <$> l → normal_queue n' k = normal_queue n k) ∧
  (∀ k, normal_open n' k = normal_open n k).

Lemma act_spec a action n :
  normal_open n (addr_msg_tx a) = true →
  (act a action n).1 = Ok tt ∧ send_to action [a] n (act a action n).2.
Proof.
  intros Ho. unfold act.
  destruct (normal_priority_send_open a (Envelope_new action) n Ho)
    as (Hr & Ho' & Hq & Hl & _ & _ & _ & _).
  split; [done|]. split; [|split].
  - by intros b ->%list_elem_of_singleton.
  - intros k Hk. unfold normal_queue. rewrite Hl; [done|]. set_solver.
  - intros k. destruct (decide (k = addr_msg_tx a)) as [->|Hne]; [congruence|].
    unfold normal_open. by rewrite Hl.
Qed.

Lemma map_find_act action l n :
  NoDup (addr_msg_tx <$> l) →
  Forall (λ a, normal_open n (addr_msg_tx a) = true) l →
  ∃ n', (∀ k, map_find (λ a n, recipient_act a action n) is_err (l ++ k) n =
              map_find (λ a n, recipient_act a action n) is_err k n') ∧ send_to action l n n'.
Proof.
  revert n; induction l as [|a l IH]; intros n Hnd Ho; simpl.
  { exists n. split; [done|]. split; [set_solver|done]. }
  apply NoDup_cons in Hnd as [Ha Hnd]. inversion_clear Ho as [|?? Hoa Hol].
  destruct (act_spec a action n Hoa) as [Hr (Hq & Hk & Hop)].
  destruct (act a action n) as [r n1]; simpl in *; subst r; simpl.
  destruct (IH n1 Hnd) as (n' & Hf & Hq' & Hk' & Hop').
  { eapply Forall_impl; [done|]. simpl. intros b. by rewrite Hop. }
  exists n'. split; [done|]. split; [|split].
  - intros b [->|Hb]%elem_of_cons.
    + rewrite Hk' by done. apply Hq. set_solver.
    + rewrite (Hq' b Hb), (Hk (addr_msg_tx b)); [done|].
      simpl. intros Heq%list_elem_of_singleton. apply Ha. rewrite <-Heq. by apply list_elem_of_fmap_2.
  - intros k Hnk. rewrite Hk', Hk; [done|set_solver|set_solver].
  - intros k. by rewrite Hop', Hop.
Qed.
(** Different recipients have different queues. *)
Definition private_queues (d : Distributor) : Prop := ∀ i j a b,
  recipients d !! i = Some a → recipients d !! j = Some b → addr_msg_tx a = addr_msg_tx b → i = j.

Lemma values_private o d : private_queues d → NoDup (addr_msg_tx <$> values o d).
Proof.
  intros Hp. unfold values. pose proof (NoDup_hash_iter o (dom (recipients d))) as Hnd.
  induction Hnd as [|i l Hi Hnd IH]; simpl; [constructor|].
  destruct (recipients d !! i) as [a|] eqn:Ha; [|done]. rewrite fmap_cons.
  constructor; [|done]. intros (b & Hb & (j & Hj & Hjb)%list_elem_of_omap)%list_elem_of_fmap.
  apply Hi. by rewrite (Hp i j a b).
Qed.

(** C28: distributing an action.  [act_all] follows the order of the map: every
    recipient before the first one whose actor is gone gets the action, once;
    that one makes it fail, and neither it nor any recipient after it gets
    anything.  It succeeds, and everyone gets the action, when all are alive. *)
Theorem act_all_reaches o action d n :
  private_queues d →
  let r := act_all o action d n in
  (Forall (λ a, normal_open n (addr_msg_tx a) = true) (values o d) →
    r.1 = Ok tt ∧ send_to action (values o d) n r.2) ∧
  (∀ l1 dead l2, values o d = l1 ++ dead :: l2 →
    Forall (λ a, normal_open n (addr_msg_tx a) = true) l1 →
    normal_open n (addr_msg_tx dead) = false →
    is_err r.1 = true ∧ send_to action l1 n r.2).
Proof.
  intros Hp. pose proof (values_private o d Hp) as Hnd. unfold act_all.
  destruct (map_find _ _ (values o d) n) as [found n'] eqn:Hf; simpl. split.
  - intros Ho. destruct (map_find_act action _ n Hnd Ho) as (n1 & Hk & Hs).
    specialize (Hk []). rewrite app_nil_r, Hf in Hk. simpl in Hk. by simplify_eq.
  - intros l1 dead l2 Hv Ho Hd. rewrite Hv, fmap_app in Hnd. apply NoDup_app in Hnd as (Hnd & _).
    destruct (map_find_act action l1 n Hnd Ho) as (n1 & Hk & Hs).
    rewrite Hv, Hk in Hf. simpl in Hf. unfold act in Hf.
    destruct Hs as (Hq & Hq' & Hop). rewrite normal_priority_send_closed in Hf by (by rewrite Hop).
    simpl in Hf. by simplify_eq.
Qed.

Lemma stop_watch_other (s t : StopSender) n :
  stop_tx s ≠ stop_tx t → stop_watch (StopSender_stop s n).2 t = stop_watch n t.
Proof.
  intros Hne. unfold StopSender_stop, stop_watch.
  destruct (watch_send Stop <$> net_status n !! stop_tx s) as [[]|]; simpl; [|done|done].
  by rewrite lookup_insert_ne.
Qed.

Lemma stop_fold (l : list TaskAddress) (s : StopSender) n v :
  stop_watch n s = Some v → wv_receivers v ≠ 0 →
  ∃ v', stop_watch (foldl (λ n addr, (TaskAddress_stop addr n).2) n l) s = Some v' ∧
    wv_receivers v' ≠ 0 ∧ wv_version v ≤ wv_version v' ∧
    (stop_tx s ∉ stop_tx ∘ task_stop_sender <$> l → v' = v) ∧
    (stop_tx s ∈ stop_tx ∘ task_stop_sender <$> l ∨ wv_value v = Stop → wv_value v' = Stop) ∧
    (stop_tx s ∈ stop_tx ∘ task_stop_sender <$> l → wv_version v < wv_version v').
Proof.
  revert n v. induction l as [|a l IH]; intros n v Hv Hr; simpl.
  { exists v. split_and!; auto; set_solver. }
  unfold TaskAddress_stop at 2. destruct (decide (stop_tx (task_stop_sender a) = stop_tx s)) as [He|Hne].
  - assert (task_stop_sender a = s) as Hs by (by destruct (task_stop_sender a), s; simpl in *; subst).
    rewrite Hs. destruct (stop_watch_stop s n v Hv Hr) as [_ Hw].
    destruct (IH _ _ Hw) as (v' & H1 & H2 & H3 & H4 & H5 & H6); [done|]. simpl in *.
    exists v'. split_and!; auto; try lia; set_solver.
  - assert (stop_watch (StopSender_stop (task_stop_sender a) n).2 s = Some v) as Hw
      by by rewrite stop_watch_other.
    destruct (IH _ _ Hw Hr) as (v' & H1 & H2 & H3 & H4 & H5 & H6).
    exists v'. split_and!; auto; set_solver.
Qed.

(** [stop_all] stops every task: each one that still runs sees the signal,
    whatever the order and whichever of the others are already over, and the
    tasks that are not in the distributor see nothing. *)
Theorem stop_all_stops o d n s v :
  stop_watch n s = Some v → wv_receivers v ≠ 0 →
  let n' := stop_all o d n in
  (∀ i (a : TaskAddress) rx, tasks d !! i = Some a → task_stop_sender a = s →
    rx_loc (stop_status rx) = stop_tx s → rx_seen (stop_status rx) = wv_version v →
    StopReceiver_into_future rx n' = Ready tt ∧ StopReceiver_is_alive rx n' = false) ∧
  ((∀ i (a : TaskAddress), tasks d !! i = Some a → stop_tx (task_stop_sender a) ≠ stop_tx s) →
    stop_watch n' s = stop_watch n s).
Proof.
  intros Hv Hr. cbv zeta. unfold stop_all.
  destruct (stop_fold (task_values o d) s n v Hv Hr) as (v' & Hv' & Hr' & Hle & Hsame & Hstop & Hver).
  split.
  - intros i a rx Ha Has Hloc Hseen.
    assert (stop_tx s ∈ stop_tx ∘ task_stop_sender <$> task_values o d) as Hin.
    { apply list_elem_of_fmap. exists a. split; [by rewrite <-Has|].
      apply elem_of_task_values. eauto. }
    destruct (stop_watch_future rx s _ v' Hloc Hv') as [Hal Hfut].
    split.
    + apply Hfut. left. split; [specialize (Hver Hin); lia|auto].
    + rewrite Hal. rewrite Hstop by auto. done.
  - intros Hno. rewrite Hv', Hv. f_equal. apply Hsame.
    intros (a & Heq & (i & Ha)%elem_of_task_values)%list_elem_of_fmap. by apply (Hno i a Ha).
Qed.
End recipients.

#[local] Existing Instance ref_crates.
#[local] Existing Instance sample_app.

(** Three recipients, the second of which is gone: the third gets nothing. *)
Definition sample_distributor : Distributor * Net :=
  let '(p1, n) := AddressPair_new net_empty in
  let '(p2, n) := AddressPair_new n in
  let '(p3, n) := AddressPair_new n in
  let n := set_lp (addr_msg_tx (pair_address p2)) (mkMpscView [] false true) n in
  let d := Distributor_insert (pair_address p3) (Distributor_insert (pair_address p2)
             (Distributor_insert (pair_address p1) Distributor_new)) in
  (d, n).

Lemma act_all_reaches_witness :
  let d := sample_distributor.1 in
  let r := act_all (reverse_order Id) MsgAwake d sample_distributor.2 in
  is_err r.1 = true ∧
  (λ a, normal_queue r.2 (addr_msg_tx a)) <$> values (reverse_order Id) d =
    [[Envelope_new MsgAwake]; []; []].
Proof.
  assert (private_queues sample_distributor.1) as Hp.
  { assert (map_Forall (λ i a, map_Forall (λ j b, addr_msg_tx a = addr_msg_tx b → i = j)
      (recipients sample_distributor.1)) (recipients sample_distributor.1)) as Hall.
    { apply (bool_decide_unpack _). vm_compute. exact I. }
    intros i j a b Ha Hb. by apply (Hall i a Ha). }
  destruct (act_all_reaches (reverse_order Id) MsgAwake sample_distributor.1 sample_distributor.2 Hp)
    as [_ H].
  cbv zeta. split; [|vm_compute; reflexivity].
  apply (H [pair_address (AddressPair_new net_empty).1]
           (pair_address (AddressPair_new (AddressPair_new net_empty).2).1)
           [pair_address (AddressPair_new (AddressPair_new (AddressPair_new net_empty).2).2).1]).
  - vm_compute. reflexivity.
  - by repeat constructor.
  - reflexivity.
Defined.

(** Of the tasks 1 and 2 the first one is over: the second is stopped still. *)
Lemma stop_all_stops_witness :
  let '((t1, r1), n) := make_stop_channel 1%positive net_empty in
  let '((t2, r2), n) := make_stop_channel 2%positive n in
  let n := set_status (rx_loc (stop_status r1)) (mkWatchView Alive 0 0 true) n in
  let d := TaskDistributor_insert t2 (TaskDistributor_insert t1 TaskDistributor_new) in
  StopReceiver_into_future r2 (stop_all (elements_order Id) d n) = Ready tt.
Proof.
  cbv beta iota zeta delta [make_stop_channel alloc_status].
  match goal with |- StopReceiver_into_future ?r (stop_all ?o ?d ?n) = _ =>
    destruct (stop_all_stops o d n (mkStopSender 2) (mkWatchView Alive 0 1 true)) as [H _] end;
    [reflexivity|done|].
  eapply (H 2%positive); reflexivity.
Defined.
