(* ===== verification/Handlers.v ===== *)
(** * handlers.rs: what runs when a message is handled

    The code of a handler is a tree: it calls the framework ([Cmd]), looks at
    what the call returned ([Reply]) and goes on, until it returns the actor it
    was given, changed, and a result.  A program brings the handlers of its
    actors ([ActorImpl]); this file has the framework's side: the envelope that
    gives its message to a handler once, and the blanket implementations that
    choose the handler. *)
From S2P Require Import Prelude Extern Ids Types Linkage LiteRuntime.

Section handlers.
Context `{!Crates, !App}.

(** ** The calls a handler can make *)

Inductive Cmd : Type :=
(* methods of Context *)
| CmdAddress
| CmdSpawnActorWithAddr (actor : Actor) (pair : AddressPair) (group : Group)
| CmdSpawnActor (actor : Actor) (group : Group)
| CmdSpawnTask (task : TaskImpl) (tag : Payload) (group : Group)
| CmdAttach (stream : Strm) (tag : Payload) (group : Group)
| CmdTrackInteraction (task : TaskImpl) (tag : Payload) (group : Group)
| CmdInterrupt (address : Address)
| CmdNotTerminating
| CmdStop
| CmdShutdown
| CmdTerminateGroup (group : Group)
| CmdIsTerminating
(* free functions, and methods of addresses and responders *)
| CmdAddressPair
| CmdSystemSpawn (actor : Actor)
| CmdAct (address : Address) (input : Payload)
| CmdInstant (address : Address) (input : Payload)
| CmdSchedule (address : Address) (input : Payload) (deadline : Instant)
| CmdSendEvent (address : Address) (priority : Priority) (input : Payload)
| CmdTerminateBy (address : Address)
| CmdAddressAttach (address : Address) (stream : Strm) (tag : Payload)
| CmdRespond (responder : loc) (res : result Payload Error)
| CmdStopTask (stopper : StopSender)
(* tokio::time: sleep(duration).await, which is sleep_until(now + duration).await *)
| CmdSleep (duration : Duration)
| CmdSleepUntil (deadline : Instant).

Inductive Reply : Type :=
| RepUnit
| RepBool (b : bool)
| RepResult (r : result unit Error)
| RepAddress (address : Address)
| RepPair (pair : AddressPair)
| RepTask (task : TaskAddress)
(* what [oneshot::Sender::send] gives: the value back when nobody waits for it *)
| RepRespond (r : result unit (result Payload Error)).

Inductive Code (R : Type) : Type :=
| CRet (actor : Actor) (r : R)
| CDo (c : Cmd) (k : Reply → Code R).
Arguments CRet {R} actor r.
Arguments CDo {R} c k.

Fixpoint code_bind {R R'} (m : Code R) (f : Actor → R → Code R') : Code R' :=
  match m with
  | CRet actor r => f actor r
  | CDo c k => CDo c (λ rep, code_bind (k rep) f)
  end.

Definition Handling : Type := Code (result unit Error).

(** An interaction is handled by an [InteractionHandler], or by an
    [ActionHandler] of [Interact], which keeps the responder. *)
Inductive InteractionImpl : Type :=
| ByActionHandler (handle : loc → Actor → Handling)
| ByInteractionHandler (handle : Actor → Code (result Payload Error)).

(** The traits a program implements for its actors. *)
Class ActorImpl := {
  group_sequence : Actor → list Group;             (* GroupBy::termination_sequence *)
  queue_drained : Actor → Handling;                (* Actor *)
  instant_queue_drained : Actor → Handling;
  on_action : Payload → Actor → Handling;          (* ActionHandler *)
  on_instant : Payload → Actor → Handling;         (* InstantActionHandler *)
  on_custom : Payload → Actor → Handling;          (* a custom Handler *)
  interaction : Payload → InteractionImpl;
  started_by : Actor → Handling;                   (* StartedBy *)
  interrupted_by : Actor → Handling;               (* InterruptedBy *)
  terminated_by : Actor → Handling;                (* TerminatedBy *)
  eliminated : Id → Actor → Handling;              (* Eliminated *)
  task_eliminated : Id → Payload → result Payload TaskError → Actor → Handling;
  interaction_done : Payload → Payload → Actor → Handling;     (* InteractionDone *)
  interaction_failed : Payload → TaskError → Actor → Handling;
  consumer_handle : Payload → Actor → Handling;    (* Consumer *)
  consumer_finished : Actor → Handling;
  consumer_task_failed : TaskError → Actor → Handling;
  consumer_task_finished : Actor → Handling;
  stream_group : Actor → Group;                    (* StreamAcceptor *)
  scheduled : Instant → Payload → Actor → Handling;            (* Scheduled *)
  fn_task_eliminated : Id → Payload → result Payload TaskError → Actor → Handling;
  on_tick : Instant → Actor → Handling;            (* OnTick *)
  on_tick_done : Actor → Handling
}.

(** ** The default methods of the traits *)

Definition Actor_queue_drained_default (a : Actor) : Handling := CRet a (Ok tt).
Definition Actor_instant_queue_drained_default (a : Actor) : Handling := CRet a (Ok tt).
(** [InteractionDone::failed]: an error that is not an interruption is logged. *)
Definition InteractionDone_failed_default (tag : Payload) (err : TaskError) (a : Actor) : Handling :=
  match TaskError_into_other err with Some _ => CRet a (Ok tt) | None => CRet a (Ok tt) end.
Definition Consumer_finished_default (a : Actor) : Handling := CRet a (Ok tt).
Definition Consumer_task_failed_default (err : TaskError) (a : Actor) : Handling :=
  match TaskError_into_other err with Some _ => CRet a (Ok tt) | None => CRet a (Ok tt) end.
Definition Consumer_task_finished_default (a : Actor) : Handling := CRet a (Ok tt).

Context `{!ActorImpl}.

(** ** The blanket implementations *)

(** [ActionHandler<Interact<I>>] for an [InteractionHandler<I>]: the result is
    sent to the requester; when it is gone, an error of the handler is kept and
    a success becomes an error. *)
Definition interact_blanket (handle : Actor → Code (result Payload Error)) (responder : loc)
  (a : Actor) : Handling :=
  code_bind (handle a) (λ a res,
    CDo (CmdRespond responder res) (λ rep,
      match rep with
      | RepRespond (Err (Ok _)) =>
        CRet a (Err (err_msg "Can't send the successful result of interaction"))
      | RepRespond (Err (Err err)) => CRet a (Err err)
      | _ => CRet a (Ok tt)
      end)).

Definition handle_interact (request : Payload) (responder : loc) (a : Actor) : Handling :=
  match interaction request with
  | ByActionHandler handle => handle responder a
  | ByInteractionHandler handle => interact_blanket handle responder a
  end.

(** [TaskEliminated<InteractionTask<I>, M>] for an [InteractionDone<I, M>]. *)
Definition interaction_task_eliminated (tag : Payload) (res : result Payload TaskError) (a : Actor)
  : Handling :=
  match res with
  | Ok output => interaction_done tag output a
  | Err err => interaction_failed tag err a
  end.

(** [ActionHandler<StreamItem<I>>] for a [Consumer<I>]. *)
Definition handle_stream_item (msg : StreamItem) (a : Actor) : Handling :=
  match msg with
  | Item item => consumer_handle item a
  | StreamDone => consumer_finished a
  end.

(** [TaskEliminated<StreamForwarder<S>, M>] for a [Consumer]. *)
Definition stream_forwarder_eliminated (res : result Payload TaskError) (a : Actor) : Handling :=
  match res with
  | Ok _ => consumer_task_finished a
  | Err err => consumer_task_failed err a
  end.

(** [InstantActionHandler<ScheduledItem<I>>] for a [Scheduled<I>]. *)
Definition handle_scheduled_item (timestamp : Instant) (item : Payload) (a : Actor) : Handling :=
  scheduled timestamp item a.

(** [ActionHandler<Tick>] and [TaskEliminated<HeartBeat, ()>] for an [OnTick]
    (tasks/heartbeat.rs). *)
Definition handle_tick (tick : Instant) (a : Actor) : Handling := on_tick tick a.
Definition heartbeat_eliminated (id : Id) (tag : Payload) (res : result Payload TaskError) (a : Actor)
  : Handling := on_tick_done a.

(** [TaskEliminated], for every type of task. *)
Definition handle_task_done (id : Id) (kind : TaskKind) (tag : Payload)
  (res : result Payload TaskError) (a : Actor) : Handling :=
  match kind with
  | TkUser => task_eliminated id tag res a
  | TkInteraction => interaction_task_eliminated tag res a
  | TkStreamForwarder => stream_forwarder_eliminated res a
  | TkFnTask => fn_task_eliminated id tag res a
  | TkHeartBeat => heartbeat_eliminated id tag res a
  end.

(** [InstantActionHandler<AttachStream<S, M>>] (forwarders.rs). *)
Definition handle_attach_stream (stream : Strm) (tag : Payload) (a : Actor) : Handling :=
  let group := stream_group a in
  CDo (CmdAttach stream tag group) (λ _, CRet a (Ok tt)).

(** The handler a message goes to. *)
Definition dispatch (msg : Message) (a : Actor) : Handling :=
  match msg with
  | MsgAction input => on_action input a
  | MsgInstant input => on_instant input a
  | MsgAwake => started_by a
  | MsgInterrupt => interrupted_by a
  | MsgDone id => eliminated id a
  | MsgTaskDone id kind tag res => handle_task_done id kind tag res a
  | MsgTerminateBy => terminated_by a
  | MsgStreamItem item => handle_stream_item item a
  | MsgScheduledItem timestamp item => handle_scheduled_item timestamp item a
  | MsgInteract request responder => handle_interact request responder a
  | MsgAttachStream stream tag => handle_attach_stream stream tag a
  | MsgTick tick => handle_tick tick a
  end.

(** [Handler::handle]: the input is taken, so that a second call panics. *)
Definition handler_handle (h : HandlerImpl) (a : Actor) : outcome (Handling * HandlerImpl) :=
  match h with
  | ActionHandlerImpl (Some input) => Return (dispatch input a, ActionHandlerImpl None)
  | ActionHandlerImpl None => Panic "action handler called twice"
  | InstantActionHandlerImpl (Some input) =>
    Return (dispatch input a, InstantActionHandlerImpl None)
  | InstantActionHandlerImpl None => Panic "instant action handler called twice"
  | CustomHandlerImpl p (Some input) => Return (on_custom input a, CustomHandlerImpl p None)
  | CustomHandlerImpl p None => Panic "action handler called twice"
  end.

(** [Envelope::handle] *)
Definition Envelope_handle (e : Envelope) (a : Actor) : outcome (Handling * Envelope) :=
  match handler_handle (env_handler e) a with
  | Return (code, h) => Return (code, mkEnvelope h)
  | Panic message => Panic message
  end.

(** An envelope whose handler still has its input. *)
Definition envelope_loaded (e : Envelope) : bool :=
  match env_handler e with
  | ActionHandlerImpl i => bool_decide (is_Some i)
  | InstantActionHandlerImpl i => bool_decide (is_Some i)
  | CustomHandlerImpl _ i => bool_decide (is_Some i)
  end.
End handlers.
Arguments CRet {_ _ R} actor r.
Arguments CDo {_ _ R} c k.

#[local] Existing Instance ref_crates.
#[local] Existing Instance sample_app.

(** The handlers of the sample program: an actor is a number; actions and stream
    items add to it, requests are answered with the sum, an interruption shuts it
    down, the instant action 0 spawns a child in group 1, and the rest leaves it as
    it is. *)
Definition sample_impl : ActorImpl :=
  let keep (a : Actor) : Handling := CRet a (Ok tt) in
  {|
    group_sequence _ := [1; 0]%N;
    queue_drained := keep;
    instant_queue_drained := keep;
    on_action n a := CRet (n + a : N)%N (Ok tt);
    on_instant n a :=
      if (n =? 0)%N then CDo (CmdSpawnActor (7 : N)%N (1 : N)%N) (λ _, CRet a (Ok tt))
      else CRet (n + a : N)%N (Ok tt);
    on_custom n a := CRet (n + a : N)%N (Ok tt);
    interaction n := ByInteractionHandler (λ a, CRet a (Ok (n + a : N)%N));
    started_by := keep;
    interrupted_by a := CDo CmdShutdown (λ _, CRet a (Ok tt));
    terminated_by a := CDo CmdStop (λ _, CRet a (Ok tt));
    eliminated _ := keep;
    task_eliminated _ _ _ := keep;
    interaction_done _ n a := CRet (n + a : N)%N (Ok tt);
    interaction_failed := InteractionDone_failed_default;
    consumer_handle n a := CRet (n + a : N)%N (Ok tt);
    consumer_finished := Consumer_finished_default;
    consumer_task_failed := Consumer_task_failed_default;
    consumer_task_finished := Consumer_task_finished_default;
    stream_group _ := 0%N;
    scheduled _ n a := CRet (n + a : N)%N (Ok tt);
    fn_task_eliminated _ _ _ := keep;
    on_tick _ := keep;
    on_tick_done := keep
  |}.
