(* ===== verification/ActorRuntime.v ===== *)
(** * actor_runtime.rs: the context of an actor and its runtime

    [World] is the network together with the spawned futures: the runtimes of
    the actors and of the tasks.  The methods of [Context] are functions on the
    context and the world; the [entrypoint] and the [routine] of an actor are a
    state machine, [actor_step], whose every call advances the actor by one poll
    of its future: it starts, makes one call of the handler that runs, chooses
    the next event, or finishes. *)
From S2P Require Import Prelude Extern Compat Ids Types Lifecycle Linkage LiteRuntime Handlers.

Section runtime.
Context `{!Crates, !App, !ActorImpl}.

(** ** Context *)

Record Context_ : Type := mkContext {
  ctx_alive : bool;
  ctx_address : Address;
  ctx_tracker : LifetimeTracker Group Notifier
}.

(** Which handler runs: the one of [Awake], or one chosen by the [select]. *)
Inductive Source : Type :=
| SrcAwake | SrcInstant | SrcInstantDrained | SrcScheduled | SrcDelayClosed
| SrcNormal | SrcNormalDrained.

Inductive Phase : Type :=
| PhStart
| PhHandle (source : Source) (code : Handling)
| PhSelect
| PhFinish
| PhDone
| PhPanic (message : string).

Record ActorRuntime : Type := mkRuntime {
  rt_id : Id;
  rt_actor : Actor;
  rt_context : Context_;
  rt_awake_envelope : option Envelope;
  rt_done_notifier : Notifier;
  rt_joint : AddressJoint;
  rt_scheduled : DelayQueue Envelope;
  rt_phase : Phase
}.

Record World : Type := mkWorld {
  w_net : Net;
  w_actors : gmap Id ActorRuntime;
  w_tasks : gmap Id LiteRuntime
}.

Definition with_net (n : Net) (w : World) : World := mkWorld n (w_actors w) (w_tasks w).
Definition with_alive (b : bool) (c : Context_) : Context_ :=
  mkContext b (ctx_address c) (ctx_tracker c).
Definition with_tracker (t : LifetimeTracker Group Notifier) (c : Context_) : Context_ :=
  mkContext (ctx_alive c) (ctx_address c) t.
Definition set_phase (p : Phase) (rt : ActorRuntime) : ActorRuntime :=
  mkRuntime (rt_id rt) (rt_actor rt) (rt_context rt) (rt_awake_envelope rt)
    (rt_done_notifier rt) (rt_joint rt) (rt_scheduled rt) p.
Definition set_context (c : Context_) (rt : ActorRuntime) : ActorRuntime :=
  mkRuntime (rt_id rt) (rt_actor rt) c (rt_awake_envelope rt)
    (rt_done_notifier rt) (rt_joint rt) (rt_scheduled rt) (rt_phase rt).
Definition set_actor (a : Actor) (rt : ActorRuntime) : ActorRuntime :=
  mkRuntime (rt_id rt) a (rt_context rt) (rt_awake_envelope rt)
    (rt_done_notifier rt) (rt_joint rt) (rt_scheduled rt) (rt_phase rt).
Definition set_scheduled (q : DelayQueue Envelope) (rt : ActorRuntime) : ActorRuntime :=
  mkRuntime (rt_id rt) (rt_actor rt) (rt_context rt) (rt_awake_envelope rt)
    (rt_done_notifier rt) (rt_joint rt) q (rt_phase rt).
Definition take_awake (rt : ActorRuntime) : ActorRuntime :=
  mkRuntime (rt_id rt) (rt_actor rt) (rt_context rt) None
    (rt_done_notifier rt) (rt_joint rt) (rt_scheduled rt) (rt_phase rt).

(** The orders in which the hash sets of the tracker are iterated this time. *)
Record Orders : Type := mkOrders { ord_groups : HashOrder Group; ord_ids : HashOrder Id }.

(** [actor_runtime::spawn]: the runtime is handed to the executor. *)
Definition spawn (actor : Actor) (supervisor : option Address) (address_pair : AddressPair)
  (w : World) : World :=
  let joint := pair_joint address_pair in
  let address := pair_address address_pair in
  let id := Ids.IdOf_into (Address_id address) in
  let awake_envelope := Envelope_instant MsgAwake in
  let done_notifier :=
    match supervisor with
    | None => NIgnore
    | Some super_addr => NOnce super_addr (OpDone id)
    end in
  let context := mkContext true (Address_clone address) Tracker.new in
  let runtime := mkRuntime (Ids.IdOf_into (Address_id address)) actor context (Some awake_envelope)
                   done_notifier joint dq_new PhStart in
  mkWorld (w_net w) (<[rt_id runtime := runtime]> (w_actors w)) (w_tasks w).

Definition Context_spawn_actor_with_addr (actor : Actor) (address_pair : AddressPair) (group : Group)
  (c : Context_) (w : World) : Context_ * World :=
  let address := Address_clone (AddressPair_address address_pair) in
  let w := spawn actor (Some (Address_clone (ctx_address c))) address_pair w in
  let '(t, n) := Tracker.insert address group (ctx_tracker c) (w_net w) in
  (with_tracker t c, with_net n w).

Definition Context_spawn_actor (actor : Actor) (group : Group) (c : Context_) (w : World)
  : Address * Context_ * World :=
  let '(address_pair, n) := AddressPair_new (w_net w) in
  let address := Address_clone (AddressPair_address address_pair) in
  let '(c, w) := Context_spawn_actor_with_addr actor address_pair group c (with_net n w) in
  (address, c, w).

Definition Context_spawn_task (task : TaskImpl) (tag : Payload) (group : Group)
  (c : Context_) (w : World) : TaskAddress * Context_ * World :=
  let '((runtime, stopper), n) := lite_spawn task tag (Some (Address_clone (ctx_address c))) (w_net w) in
  let '(t, n) := Tracker.insert_task (TaskAddress_clone stopper) group (ctx_tracker c) n in
  (stopper, with_tracker t c, mkWorld n (w_actors w) (<[lr_id runtime := runtime]> (w_tasks w))).

Definition Context_attach (stream : Strm) (tag : Payload) (group : Group)
  (c : Context_) (w : World) : Context_ * World :=
  let forwarder := StreamForwarder stream (Address_clone (ctx_address c)) in
  let '(_, c, w) := Context_spawn_task forwarder tag group c w in (c, w).

Definition Context_track_interaction (task : TaskImpl) (tag : Payload) (group : Group)
  (c : Context_) (w : World) : Context_ * World :=
  let '(_, c, w) := Context_spawn_task task tag group c w in (c, w).

Definition Context_interrupt (address : Address) (w : World) : result unit Error * World :=
  let '(r, n) := interrupt_by address (w_net w) in (r, with_net n w).

Definition Context_is_terminating (c : Context_) : bool := Tracker.is_terminating (ctx_tracker c).

Definition Context_not_terminating (c : Context_) : result unit Error :=
  if Context_is_terminating c then Err err_terminating else Ok tt.

Definition Context_stop (c : Context_) : Context_ := with_alive false c.

Definition Context_shutdown (o : Orders) (c : Context_) (w : World) : Context_ * World :=
  let '(t, n) := Tracker.start_termination (ord_groups o) (ord_ids o) (ctx_tracker c) (w_net w) in
  let c := with_tracker t c in
  ((if Tracker.is_finished (ctx_tracker c) then Context_stop c else c), with_net n w).

Definition Context_terminate_group (o : Orders) (group : Group) (c : Context_) (w : World) : World :=
  with_net (Tracker.terminate_group (ord_ids o) group (ctx_tracker c) (w_net w)) w.

Definition Context_termination_sequence (sequence : list Group) (c : Context_) : Context_ :=
  with_tracker (Tracker.termination_sequence sequence (ctx_tracker c)) c.

(** [system::System::spawn] *)
Definition System_spawn (actor : Actor) (w : World) : Address * World :=
  let '(address_pair, n) := AddressPair_new (w_net w) in
  let address := Address_clone (AddressPair_address address_pair) in
  (address, spawn actor None address_pair (with_net n w)).

(** [InteractionResponder::send] *)
Definition respond (responder : loc) (res : result Payload Error) (n : Net)
  : result unit (result Payload Error) * Net :=
  match oneshot_send res <$> net_replies n !! responder with
  | Some (Ok o) => (Ok tt, set_reply responder o n)
  | Some (Err (res, o)) => (Err res, set_reply responder o n)
  | None => (Err res, n)
  end.

(** The responder is dropped without a reply. *)
Definition drop_responder (responder : loc) (n : Net) : Net :=
  match net_replies n !! responder with
  | Some o => set_reply responder (oneshot_drop_tx o) n
  | None => n
  end.

(** ** One call of a handler *)

Definition on_net {A} (f : Net → A * Net) (rep : A → Reply) (c : Context_) (w : World)
  : Reply * Context_ * World :=
  let '(r, n) := f (w_net w) in (rep r, c, with_net n w).

Definition exec (o : Orders) (cmd : Cmd) (c : Context_) (w : World) : Reply * Context_ * World :=
  match cmd with
  | CmdAddress => (RepAddress (ctx_address c), c, w)
  | CmdSpawnActorWithAddr actor address_pair group =>
    let '(c, w) := Context_spawn_actor_with_addr actor address_pair group c w in (RepUnit, c, w)
  | CmdSpawnActor actor group =>
    let '(a, c, w) := Context_spawn_actor actor group c w in (RepAddress a, c, w)
  | CmdSpawnTask task tag group =>
    let '(t, c, w) := Context_spawn_task task tag group c w in (RepTask t, c, w)
  | CmdAttach stream tag group =>
    let '(c, w) := Context_attach stream tag group c w in (RepUnit, c, w)
  | CmdTrackInteraction task tag group =>
    let '(c, w) := Context_track_interaction task tag group c w in (RepUnit, c, w)
  | CmdInterrupt address =>
    let '(r, w) := Context_interrupt address w in (RepResult r, c, w)
  | CmdNotTerminating => (RepResult (Context_not_terminating c), c, w)
  | CmdStop => (RepUnit, Context_stop c, w)
  | CmdShutdown => let '(c, w) := Context_shutdown o c w in (RepUnit, c, w)
  | CmdTerminateGroup group => (RepUnit, c, Context_terminate_group o group c w)
  | CmdIsTerminating => (RepBool (Context_is_terminating c), c, w)
  | CmdAddressPair => on_net AddressPair_new RepPair c w
  | CmdSystemSpawn actor => let '(a, w) := System_spawn actor w in (RepAddress a, c, w)
  | CmdAct a input => on_net (act a (MsgAction input)) RepResult c w
  | CmdInstant a input => on_net (instant a (MsgInstant input)) RepResult c w
  | CmdSchedule a input deadline => on_net (schedule a input deadline) RepResult c w
  | CmdSendEvent a p input =>
    on_net (send_event a (CustomHandlerImpl p (Some input))) RepResult c w
  | CmdTerminateBy a => on_net (terminate_by a) RepResult c w
  | CmdAddressAttach a stream tag => on_net (attach a stream tag) RepResult c w
  | CmdRespond responder res => on_net (respond responder res) RepRespond c w
  | CmdStopTask stopper => on_net (StopSender_stop stopper) RepResult c w
  | CmdSleep _ | CmdSleepUntil _ => (RepUnit, c, w)
  end.

(** When a call is made: at once, or, for a sleep, not before its deadline. *)
Inductive Timing : Type :=
| Immediate
| Begins (deadline : Instant)
| Waits.

Definition timing (now : Instant) (cmd : Cmd) : Timing :=
  match cmd with
  | CmdSleep duration => Begins (now + duration)%N
  | CmdSleepUntil deadline => if (deadline <=? now)%N then Immediate else Waits
  | _ => Immediate
  end.

Lemma timing_begins now cmd t : timing now cmd = Begins t → ∃ d, cmd = CmdSleep d.
Proof. destruct cmd; cbn; try done; [by eexists|by destruct (_ <=? _)%N]. Qed.

(** ** ActorRuntime *)

(** An envelope starts to be handled by the actor of the runtime. *)
Definition begin_handle (source : Source) (e : Envelope) (rt : ActorRuntime) : ActorRuntime :=
  match Envelope_handle e (rt_actor rt) with
  | Return (code, _) => set_phase (PhHandle source code) rt
  | Panic message => set_phase (PhPanic message) rt
  end.

(** The beginning of [entrypoint]. *)
Definition entrypoint_start (rt : ActorRuntime) : ActorRuntime :=
  match rt_awake_envelope rt with
  | None => set_phase (PhPanic "awake envelope has to be set in spawn method!") rt
  | Some awake_envelope =>
    let rt := take_awake rt in
    let term_seq := group_sequence (rt_actor rt) in
    let rt := set_context (Context_termination_sequence term_seq (rt_context rt)) rt in
    begin_handle SrcAwake awake_envelope rt
  end.

(** A high-priority parcel was received. *)
Definition receive_parcel (o : Orders) (hp_env : Parcel) (rt : ActorRuntime) (w : World)
  : ActorRuntime * World :=
  let envelope := parcel_envelope hp_env in
  match parcel_operation hp_env with
  | OpForward => (begin_handle SrcInstant envelope rt, w)
  | OpDone id =>
    let '(t, n) := Tracker.remove (ord_groups o) (ord_ids o) id
                     (ctx_tracker (rt_context rt)) (w_net w) in
    let c := with_tracker t (rt_context rt) in
    let c := if Tracker.is_finished (ctx_tracker c) then Context_stop c else c in
    (begin_handle SrcInstant envelope (set_context c rt), with_net n w)
  | OpSchedule deadline =>
    (set_scheduled (dq_insert_at envelope deadline (rt_scheduled rt)) rt, w)
  end.

(** The [select_biased!] of [routine]: the high-priority queue, then the delay
    queue (unless it is empty: [pendel] is polled instead), then the other queue.
    [None]: nothing is ready. *)
Definition select_biased (o : Orders) (now : Instant) (rt : ActorRuntime) (w : World)
  : option (ActorRuntime * World) :=
  let n := w_net w in
  let drained src f := (set_phase (PhHandle src (f (rt_actor rt))) rt, w) in
  match mpsc_recv <$> net_hp n !! joint_hp_msg_rx (rt_joint rt) with
  | None => None
  | Some (Ready (Some hp_env), ch) =>
    Some (receive_parcel o hp_env rt (with_net (set_hp (joint_hp_msg_rx (rt_joint rt)) ch n) w))
  | Some (Ready None, _) => Some (drained SrcInstantDrained instant_queue_drained)
  | Some (Pending, _) =>
    let '(maybe_queue, q) :=
      if bool_decide (0 < dq_len (rt_scheduled rt)) then dq_poll now (rt_scheduled rt)
      else (Pending, rt_scheduled rt) in
    match maybe_queue with
    | Ready (Some (Ok envelope)) => Some (begin_handle SrcScheduled envelope (set_scheduled q rt), w)
    | Ready (Some (Err _)) => Some (set_scheduled q rt, w)
    | Ready None => Some (drained SrcDelayClosed instant_queue_drained)
    | Pending =>
      match mpsc_recv <$> net_lp n !! joint_msg_rx (rt_joint rt) with
      | None => None
      | Some (Ready (Some envelope), ch) =>
        Some (begin_handle SrcNormal envelope rt,
              with_net (set_lp (joint_msg_rx (rt_joint rt)) ch n) w)
      | Some (Ready None, _) => Some (drained SrcNormalDrained queue_drained)
      | Some (Pending, _) => None
      end
    end
  end.

(** The handler returned.  An error of the [Awake] handler ends the actor, an
    error of any other one is logged. *)
Definition handler_returned (source : Source) (actor : Actor) (res : result unit Error)
  (rt : ActorRuntime) : ActorRuntime :=
  let rt := set_actor actor rt in
  match source, res with
  | SrcAwake, Err _ => set_phase PhFinish rt
  | _, _ => set_phase PhSelect rt
  end.

(** The responder of the request an envelope holds. *)
Definition envelope_responder (e : Envelope) : option loc :=
  match env_handler e with
  | ActionHandlerImpl (Some (MsgInteract _ responder))
  | InstantActionHandlerImpl (Some (MsgInteract _ responder)) => Some responder
  | _ => None
  end.

(** The responders that an actor still has in its queues. *)
Definition queued_responders (rt : ActorRuntime) (n : Net) : list loc :=
  omap envelope_responder
    ((parcel_envelope <$> instant_queue n (joint_hp_msg_rx (rt_joint rt))) ++
     (snd <$> dq_view (rt_scheduled rt)) ++ normal_queue n (joint_msg_rx (rt_joint rt))).

(** The end of [entrypoint]: the supervisor is told, the joiners are released;
    then the runtime is dropped, and with it the envelopes that nobody received
    and the receivers of its queues. *)
Definition entrypoint_end (rt : ActorRuntime) (n : Net) : Net :=
  let n := (notify_with (MsgDone (rt_id rt)) (rt_done_notifier rt) n).2 in
  let n :=
    match net_status n !! joint_join_tx (rt_joint rt) with
    | Some join_tx =>
      if watch_is_closed join_tx then n
      else match watch_send Stop join_tx with
           | Ok join_tx => set_status (joint_join_tx (rt_joint rt)) join_tx n
           | Err _ => n
           end
    | None => n
    end in
  let n := foldr drop_responder n (queued_responders rt n) in
  let n :=
    match net_hp n !! joint_hp_msg_rx (rt_joint rt) with
    | Some ch => set_hp (joint_hp_msg_rx (rt_joint rt)) (mpsc_drop_rx ch) n
    | None => n
    end in
  let n :=
    match net_lp n !! joint_msg_rx (rt_joint rt) with
    | Some ch => set_lp (joint_msg_rx (rt_joint rt)) (mpsc_drop_rx ch) n
    | None => n
    end in
  match net_status n !! joint_join_tx (rt_joint rt) with
  | Some join_tx => set_status (joint_join_tx (rt_joint rt)) (watch_drop_tx join_tx) n
  | None => n
  end.

(** One step of the future of an actor; [None] when it has to wait. *)
Definition actor_step (o : Orders) (now : Instant) (rt : ActorRuntime) (w : World)
  : option (ActorRuntime * World) :=
  match rt_phase rt with
  | PhStart => Some (entrypoint_start rt, w)
  | PhHandle source (CRet actor res) => Some (handler_returned source actor res rt, w)
  | PhHandle source (CDo cmd k) =>
    match timing now cmd with
    | Immediate =>
      let '(rep, c, w) := exec o cmd (rt_context rt) w in
      Some (set_phase (PhHandle source (k rep)) (set_context c rt), w)
    | Begins deadline => Some (set_phase (PhHandle source (CDo (CmdSleepUntil deadline) k)) rt, w)
    | Waits => None
    end
  | PhSelect =>
    if ctx_alive (rt_context rt) then select_biased o now rt w
    else Some (set_phase PhFinish rt, w)
  | PhFinish => Some (set_phase PhDone rt, with_net (entrypoint_end rt (w_net w)) w)
  | PhDone => None
  | PhPanic _ => None
  end.
(** A step of a handler that calls is the call, or the beginning of a sleep. *)
Lemma actor_step_call o now rt w rt' w' source cmd k :
  rt_phase rt = PhHandle source (CDo cmd k) → actor_step o now rt w = Some (rt', w') →
  (∃ rep c, exec o cmd (rt_context rt) w = (rep, c, w') ∧
     rt' = set_phase (PhHandle source (k rep)) (set_context c rt)) ∨
  (∃ d t, cmd = CmdSleep d ∧ w' = w ∧ rt' = set_phase (PhHandle source (CDo (CmdSleepUntil t) k)) rt).
Proof.
  intros Hp Hs. unfold actor_step in Hs. rewrite Hp in Hs.
  destruct (timing now cmd) as [|t|] eqn:Ht; [|right|done].
  - left. destruct (exec o cmd (rt_context rt) w) as [[rep c] w1]. injection Hs as <- <-. by eexists _, _.
  - apply timing_begins in Ht as [d ->]. injection Hs as <- <-. by eexists _, _.
Qed.

(** Induction on the code of a handler, when the rest of a sleep comes after it. *)
Lemma code_asleep_ind {R} (P : Code R → Prop) :
  (∀ a r, P (CRet a r)) →
  (∀ cmd k, (∀ rep, P (k rep)) → (∀ d t, cmd = CmdSleep d → P (CDo (CmdSleepUntil t) k)) → P (CDo cmd k)) →
  ∀ m, P m.
Proof.
  intros Hret Hdo m. induction m as [a r|cmd k IH]; [done|]. apply Hdo; [done|]. intros d t _. by apply Hdo.
Qed.

(** ** Lemmas on replies *)

Lemma respond_open l v n o :
  net_replies n !! l = Some o → ov_tx_alive (oneshot_view o) = true →
  ov_rx_alive (oneshot_view o) = true →
  ∃ o', respond l v n = (Ok tt, set_reply l o' n) ∧
    oneshot_view o' = mkOneshotView (Some v) false true.
Proof.
  intros Ho Ht Hr. unfold respond. rewrite Ho; simpl.
  destruct (oneshot_send_ok v o Ht Hr) as (o' & -> & Hv). eauto.
Qed.

(** A responder nobody used yet, whose requester still waits. *)
Definition waiting (n : Net) (l : loc) : Prop :=
  ∃ o, net_replies n !! l = Some o ∧ ov_tx_alive (oneshot_view o) = true ∧
       ov_rx_alive (oneshot_view o) = true.

(** The reply its requester sees. *)
Definition replied (n : Net) (l : loc) (v : result Payload Error) : Prop :=
  ∃ o, net_replies n !! l = Some o ∧ ov_value (oneshot_view o) = Some v.

Lemma respond_waiting l v n :
  waiting n l → replied (respond l v n).2 l v ∧
    (∀ k, k ≠ l → net_replies (respond l v n).2 !! k = net_replies n !! k).
Proof.
  intros (o & Ho & Ht & Hr). destruct (respond_open l v n o Ho Ht Hr) as (o' & -> & Hv).
  unfold replied, set_reply; simpl. split.
  - exists o'. rewrite lookup_insert_eq. split; [done|by rewrite Hv].
  - intros k Hk. by rewrite lookup_insert_ne by done.
Qed.

(** ** Running a handler

    The orders of the hash sets are those of the successive calls. *)
Fixpoint run_code {R} (o : nat → Orders) (m : Code R) (c : Context_) (w : World)
  : Actor * R * Context_ * World :=
  match m with
  | CRet actor r => (actor, r, c, w)
  | CDo cmd k => let '(rep, c, w) := exec (o 0) cmd c w in run_code (o ∘ S) (k rep) c w
  end.

(** It does not sleep, whatever its calls return. *)
Fixpoint sleepless {R} (m : Code R) : Prop :=
  match m with
  | CRet _ _ => True
  | CDo cmd k => match cmd with CmdSleep _ | CmdSleepUntil _ => False | _ => True end ∧ ∀ rep, sleepless (k rep)
  end.

Lemma sleepless_timing {R} cmd (k : Reply → Code R) now :
  sleepless (CDo cmd k) → timing now cmd = Immediate.
Proof. intros [Hc _]. by destruct cmd. Qed.

(** How many calls it makes. *)
Fixpoint code_calls {R} (o : nat → Orders) (m : Code R) (c : Context_) (w : World) : nat :=
  match m with
  | CRet _ _ => 0
  | CDo cmd k => let '(rep, c, w) := exec (o 0) cmd c w in S (code_calls (o ∘ S) (k rep) c w)
  end.

(** Steps of one actor in a row; [None] if it has to wait before the last. *)
Fixpoint actor_steps (o : nat → Orders) (now : nat → Instant) (k : nat) (rt : ActorRuntime) (w : World)
  : option (ActorRuntime * World) :=
  match k with
  | O => Some (rt, w)
  | S k =>
    match actor_step (o 0) (now 0) rt w with
    | Some (rt, w) => actor_steps (o ∘ S) (now ∘ S) k rt w
    | None => None
    end
  end.

Lemma run_code_bind {R R'} (m : Code R) (f : Actor → R → Code R') o c w :
  let '(a, r, c1, w1) := run_code o m c w in
  run_code o (code_bind m f) c w =
    run_code (λ i, o (code_calls o m c w + i)) (f a r) c1 w1.
Proof.
  revert o c w. induction m as [a r|cmd k IH]; intros o c w; simpl; [done|].
  destruct (exec (o 0) cmd c w) as [[rep c'] w']. specialize (IH rep (o ∘ S) c' w').
  destruct (run_code (o ∘ S) (k rep) c' w') as [[[a r] c1] w1]. by rewrite IH.
Qed.

(** A handler that does not sleep runs to its end.  Whatever it does it makes finitely many
    calls, one step of the actor each; no message is received and no other
    handler starts in between; and the actor then goes on with exactly what
    running the handler in one go gives. *)
Theorem handler_runs_to_end source code rt w o now :
  rt_phase rt = PhHandle source code → sleepless code →
  let '(a, r, c, w') := run_code o code (rt_context rt) w in
  let k := code_calls o code (rt_context rt) w in
  (∀ j, j ≤ k → ∃ rt' w' code', actor_steps o now j rt w = Some (rt', w') ∧
     rt_phase rt' = PhHandle source code') ∧
  actor_steps o now (S k) rt w = Some (handler_returned source a r (set_context c rt), w').
Proof.
  revert rt w o now. induction code as [a r|cmd k IH]; intros rt w o now Hp Hsl; cbn [run_code code_calls].
  { cbn [actor_steps]. unfold actor_step. rewrite Hp. destruct rt as [? ? [] ? ? ? ? ?]; simpl in *. split; [|done].
    intros j Hj. assert (j = 0) as -> by lia. simpl. eauto. }
  destruct (exec (o 0) cmd (rt_context rt) w) as [[rep c'] w1] eqn:He.
  set (rt1 := set_phase (PhHandle source (k rep)) (set_context c' rt)).
  specialize (IH rep rt1 w1 (o ∘ S) (now ∘ S) eq_refl (proj2 Hsl rep)).
  change (rt_context rt1) with c' in IH.
  destruct (run_code (o ∘ S) (k rep) c' w1) as [[[a r] c] w'].
  assert (actor_step (o 0) (now 0) rt w = Some (rt1, w1)) as Hs
    by (unfold actor_step; by rewrite Hp, (sleepless_timing cmd k (now 0) Hsl), He).
  assert (∀ n, actor_steps o now (S n) rt w = actor_steps (o ∘ S) (now ∘ S) n rt1 w1) as Hn
    by (intros n; cbn [actor_steps]; by rewrite Hs).
  destruct IH as [IH1 IH2]. split.
  - intros [|j] Hj; [cbn; eauto|]. rewrite Hn. apply IH1. lia.
  - rewrite Hn, IH2. done.
Qed.

(** What the blanket implementation returns, given the outcome of the send. *)
Definition responded (r : result unit (result Payload Error)) : result unit Error :=
  match r with
  | Err (Ok _) => Err (err_msg "Can't send the successful result of interaction")
  | Err (Err err) => Err err
  | Ok _ => Ok tt
  end.

Lemma run_interact_blanket handle responder a o c w :
  run_code o (interact_blanket handle responder a) c w =
    let '(a1, res, c1, w1) := run_code o (handle a) c w in
    let '(r, n') := respond responder res (w_net w1) in
    (a1, responded r, c1, with_net n' w1).
Proof.
  unfold interact_blanket.
  match goal with |- run_code o (code_bind ?m ?f) c w = _ =>
    pose proof (run_code_bind m f o c w) as Hb end.
  destruct (run_code o (handle a) c w) as [[[a1 res] c1] w1]. rewrite Hb. clear Hb.
  cbn [run_code exec]. unfold on_net.
  destruct (respond responder res (w_net w1)) as [r n']. by destruct r as [|[]].
Qed.

(** The reply of an interaction.  A request given to an interaction handler
    is answered with what the handler returns, and the handler's changes are
    kept.  When the requester waits it gets that result, error or not; when it
    is gone, an error of the handler is an error of the actor, and so is a
    success that nobody receives. *)
Theorem interaction_replied handle responder a o c w :
  let '(a1, res, c1, w1) := run_code o (handle a) c w in
  let '(a2, r, c2, w2) := run_code o (interact_blanket handle responder a) c w in
  a2 = a1 ∧ c2 = c1 ∧
  (waiting (w_net w1) responder → r = Ok tt ∧ replied (w_net w2) responder res) ∧
  (∀ os, net_replies (w_net w1) !! responder = Some os → ov_rx_alive (oneshot_view os) = false →
    r = match res with
        | Ok _ => Err (err_msg "Can't send the successful result of interaction")
        | Err e => Err e
        end).
Proof.
  rewrite run_interact_blanket.
  destruct (run_code o (handle a) c w) as [[[a1 res] c1] w1].
  pose proof (λ os, respond_open responder res (w_net w1) os) as Ho.
  destruct (respond responder res (w_net w1)) as [r n'] eqn:Hr.
  split; [done|]. split; [done|]. split.
  - intros Hwait. destruct Hwait as (os & Hos & Ht & Hrx).
    destruct (Ho os Hos Ht Hrx) as (o' & Heq & Hv). injection Heq as -> ->.
    split; [done|]. unfold replied. simpl. exists o'. by rewrite lookup_insert_eq, Hv.
  - intros os Hos Hrx. unfold respond in Hr. rewrite Hos in Hr. simpl in Hr.
    destruct (oneshot_send_err res os Hrx) as (c' & Hc & _). rewrite Hc in Hr. by simplify_eq.
Qed.
(** An actor starts with its [Awake] handler.  A spawned actor first takes
    the termination sequence of its groups and then handles [Awake], before
    anything its queues hold, with no child and alive; when that handler fails
    the actor ends without receiving anything, otherwise it starts to receive. *)
Theorem actor_starts actor sup pair w o now :
  let w1 := spawn actor sup pair w in
  ∃ rt rt', w_actors w1 !! addr_id (pair_address pair) = Some rt ∧ w_net w1 = w_net w ∧
    actor_step o now rt w1 = Some (rt', w1) ∧
    rt_phase rt' = PhHandle SrcAwake (started_by actor) ∧
    ctx_alive (rt_context rt') = true ∧
    ctx_tracker (rt_context rt') = mkTracker false (group_sequence actor) ∅ ∅ ∧
    (∀ a e, rt_phase (handler_returned SrcAwake a (Err e) rt') = PhFinish) ∧
    (∀ a, rt_phase (handler_returned SrcAwake a (Ok tt) rt') = PhSelect).
Proof.
  cbv zeta. unfold spawn; simpl. rewrite lookup_insert_eq.
  eexists _, _. do 3 (split; [reflexivity|]). by repeat split.
Qed.

(** What the queues of an actor hold when it is alive: the senders of its own
    address keep both of them from ending. *)
Definition queues_held (rt : ActorRuntime) (n : Net) : Prop :=
  (∃ ch, net_hp n !! joint_hp_msg_rx (rt_joint rt) = Some ch ∧ mv_tx_alive (mpsc_view ch) = true) ∧
  (∃ ch, net_lp n !! joint_msg_rx (rt_joint rt) = Some ch ∧ mv_tx_alive (mpsc_view ch) = true).

(** No delayed message has waited past its time for longer than the step of the timer. *)
Definition nothing_expired (now : Instant) (rt : ActorRuntime) : Prop :=
  Forall (λ e, (now < e.1 + dq_granularity (Dq:=DelayQueue))%N) (dq_view (rt_scheduled rt)).

(** The next event of an actor, as a specification. *)
Inductive next_event (o : Orders) (now : Instant) (rt : ActorRuntime) (w : World)
  : option (ActorRuntime * World) → Prop :=
| next_instant p q ch ch' :
    net_hp (w_net w) !! joint_hp_msg_rx (rt_joint rt) = Some ch →
    mv_queue (mpsc_view ch) = p :: q → mv_queue (mpsc_view ch') = q →
    mv_rx_open (mpsc_view ch') = mv_rx_open (mpsc_view ch) →
    mv_tx_alive (mpsc_view ch') = mv_tx_alive (mpsc_view ch) →
    next_event o now rt w (Some (receive_parcel o p rt
      (with_net (set_hp (joint_hp_msg_rx (rt_joint rt)) ch' (w_net w)) w)))
| next_scheduled t e q :
    instant_queue (w_net w) (joint_hp_msg_rx (rt_joint rt)) = [] →
    (t ≤ now)%N → dq_view (rt_scheduled rt) ≡ₚ (t, e) :: dq_view q →
    next_event o now rt w (Some (begin_handle SrcScheduled e (set_scheduled q rt), w))
| next_timer_error q :
    (* the failure of the timer is only logged *)
    instant_queue (w_net w) (joint_hp_msg_rx (rt_joint rt)) = [] →
    dq_poll now (rt_scheduled rt) = (Ready (Some (Err tt)), q) → dq_view q = dq_view (rt_scheduled rt) →
    next_event o now rt w (Some (set_scheduled q rt, w))
| next_normal e q ch ch' :
    instant_queue (w_net w) (joint_hp_msg_rx (rt_joint rt)) = [] → nothing_expired now rt →
    net_lp (w_net w) !! joint_msg_rx (rt_joint rt) = Some ch →
    mv_queue (mpsc_view ch) = e :: q → mv_queue (mpsc_view ch') = q →
    mv_rx_open (mpsc_view ch') = mv_rx_open (mpsc_view ch) →
    mv_tx_alive (mpsc_view ch') = mv_tx_alive (mpsc_view ch) →
    next_event o now rt w (Some (begin_handle SrcNormal e rt,
      with_net (set_lp (joint_msg_rx (rt_joint rt)) ch' (w_net w)) w))
| next_nothing :
    instant_queue (w_net w) (joint_hp_msg_rx (rt_joint rt)) = [] → nothing_expired now rt →
    normal_queue (w_net w) (joint_msg_rx (rt_joint rt)) = [] →
    next_event o now rt w None.

Lemma dq_poll_none_nonempty {A} now (q q' : DelayQueue A) r :
  0 < dq_len q → dq_poll now q = (r, q') → r ≠ Ready None.
Proof.
  rewrite dq_len_view. intros Hl Hp ->. apply dq_poll_none in Hp. rewrite Hp in Hl. simpl in Hl. lia.
Qed.

Lemma select_normal o now rt w :
  (∃ ch, net_lp (w_net w) !! joint_msg_rx (rt_joint rt) = Some ch ∧ mv_tx_alive (mpsc_view ch) = true) →
  instant_queue (w_net w) (joint_hp_msg_rx (rt_joint rt)) = [] → nothing_expired now rt →
  next_event o now rt w
    (match mpsc_recv <$> net_lp (w_net w) !! joint_msg_rx (rt_joint rt) with
     | None => None
     | Some (Ready (Some envelope), ch) =>
       Some (begin_handle SrcNormal envelope rt,
             with_net (set_lp (joint_msg_rx (rt_joint rt)) ch (w_net w)) w)
     | Some (Ready None, _) =>
       Some (set_phase (PhHandle SrcNormalDrained (queue_drained (rt_actor rt))) rt, w)
     | Some (Pending, _) => None
     end).
Proof.
  intros (ch & Hch & Htx) Hi He. rewrite Hch; simpl.
  destruct (mv_queue (mpsc_view ch)) as [|e q] eqn:Hq.
  - rewrite mpsc_recv_pending by done. apply next_nothing; [done..|].
    unfold normal_queue. by rewrite Hch.
  - destruct (mpsc_recv_some ch e q Hq) as (ch' & -> & Hv).
    eapply next_normal; eauto; by rewrite Hv.
Qed.

Lemma select_next_event o now rt w :
  queues_held rt (w_net w) → next_event o now rt w (select_biased o now rt w).
Proof.
  intros [(ch & Hch & Htx) Hlp]. unfold select_biased. rewrite Hch; simpl.
  destruct (mv_queue (mpsc_view ch)) as [|p q] eqn:Hq.
  2: { destruct (mpsc_recv_some ch p q Hq) as (ch' & -> & Hv).
       eapply next_instant; eauto; by rewrite Hv. }
  rewrite mpsc_recv_pending by done.
  assert (instant_queue (w_net w) (joint_hp_msg_rx (rt_joint rt)) = []) as Hi
    by (unfold instant_queue; by rewrite Hch).
  case_bool_decide as Hlen.
  - destruct (dq_poll now (rt_scheduled rt)) as [[|[[e|[]]|]] q'] eqn:Hp.
    + apply dq_poll_pending in Hp as [-> He]. by apply select_normal.
    + apply dq_poll_some in Hp as (t & Ht & Hperm). by eapply next_scheduled.
    + apply next_timer_error; [done..|]. by eapply dq_poll_err.
    + by eapply dq_poll_none_nonempty in Hp.
  - apply select_normal; [done..|]. unfold nothing_expired.
    rewrite dq_len_view in Hlen. destruct (dq_view (rt_scheduled rt)); [done|simpl in Hlen; lia].
Qed.

(** Priorities.  An alive actor takes the oldest high-priority parcel if
    there is one; otherwise a delayed message whose time has come; otherwise,
    when none is late by the step of the timer, the oldest normal message; and
    it waits only when there is nothing of the three.  A failure of the timer is
    passed over, and the choice is made again. *)
Theorem select_priority o now rt w :
  queues_held rt (w_net w) → next_event o now rt w (select_biased o now rt w).
Proof. apply select_next_event. Qed.

(** ** The end of an actor *)

(** The network once the supervisor was told. *)
Definition told (rt : ActorRuntime) (n : Net) : Net :=
  (notify_with (MsgDone (rt_id rt)) (rt_done_notifier rt) n).2.

(** Dropping responders touches nothing but them. *)
Lemma drop_responder_reply l n k o :
  net_replies n !! k = Some o → ∃ o', net_replies (drop_responder l n) !! k = Some o' ∧
    ov_value (oneshot_view o') = ov_value (oneshot_view o) ∧
    (ov_tx_alive (oneshot_view o) = false ∨ l = k → ov_tx_alive (oneshot_view o') = false).
Proof.
  intros Ho. unfold drop_responder. destruct (net_replies n !! l) as [ol|] eqn:El.
  - simpl. destruct (decide (l = k)) as [->|Hne].
    + rewrite lookup_insert_eq. eexists. split; [done|]. rewrite oneshot_drop_tx_view.
      assert (ol = o) as -> by congruence. done.
    + rewrite lookup_insert_ne by done. exists o. split; [done|]. split; [done|]. by intros [?|?].
  - exists o. split; [done|]. split; [done|]. intros [?| ->]; [done|congruence].
Qed.

Lemma drop_responders_frame ls n :
  let n' := foldr drop_responder n ls in
  net_hp n' = net_hp n ∧ net_lp n' = net_lp n ∧ net_status n' = net_status n ∧
  net_heap n' = net_heap n ∧ net_next n' = net_next n ∧
  (∀ k, net_replies n !! k = None → net_replies n' !! k = None) ∧
  (∀ k o, net_replies n !! k = Some o → ∃ o', net_replies n' !! k = Some o' ∧
     ov_value (oneshot_view o') = ov_value (oneshot_view o) ∧
     (k ∈ ls → ov_tx_alive (oneshot_view o') = false)).
Proof.
  induction ls as [|l ls IH]; cbv zeta in *.
  { repeat (split; [done|]). intros k o Ho. exists o. split; [done|]. split; [done|]. by intros ?%not_elem_of_nil. }
  cbn [foldr]. set (n1 := foldr drop_responder n ls) in *. destruct IH as (I1 & I2 & I3 & I4 & I5 & I6 & I7).
  assert (net_hp (drop_responder l n1) = net_hp n1 ∧ net_lp (drop_responder l n1) = net_lp n1 ∧
    net_status (drop_responder l n1) = net_status n1 ∧ net_heap (drop_responder l n1) = net_heap n1 ∧
    net_next (drop_responder l n1) = net_next n1 ∧
    (∀ k, net_replies n1 !! k = None → net_replies (drop_responder l n1) !! k = None))
    as (-> & -> & -> & -> & -> & Hnone).
  { unfold drop_responder. destruct (net_replies n1 !! l) eqn:E; [|done]. repeat (split; [done|]).
    intros k Hk. simpl. rewrite lookup_insert_ne; [done|]. intros ->. congruence. }
  split_and!; auto. intros k o Ho. destruct (I7 k o Ho) as (o1 & Ho1 & Hv1 & Ht1).
  destruct (drop_responder_reply l n1 k o1 Ho1) as (o2 & Ho2 & Hv2 & Ht2). exists o2.
  split; [done|]. split; [congruence|]. intros [->|?]%elem_of_cons; auto.
Qed.

Lemma entrypoint_end_channels rt n :
  let n' := entrypoint_end rt n in
  let j := rt_joint rt in
  (∀ l, net_hp n' !! l = if decide (l = joint_hp_msg_rx j)
     then mpsc_drop_rx <$> net_hp (told rt n) !! l else net_hp (told rt n) !! l) ∧
  (∀ l, net_lp n' !! l = if decide (l = joint_msg_rx j)
     then mpsc_drop_rx <$> net_lp (told rt n) !! l else net_lp (told rt n) !! l) ∧
  (∀ l, l ≠ joint_join_tx j → net_status n' !! l = net_status (told rt n) !! l) ∧
  (∀ l, net_status (told rt n) !! l = None → net_status n' !! l = None) ∧
  (∀ l, net_replies (told rt n) !! l = None → net_replies n' !! l = None) ∧
  (∀ l o, net_replies (told rt n) !! l = Some o → ∃ o', net_replies n' !! l = Some o' ∧
     ov_value (oneshot_view o') = ov_value (oneshot_view o) ∧
     (l ∈ queued_responders rt (told rt n) → ov_tx_alive (oneshot_view o') = false)) ∧
  net_heap n' = net_heap (told rt n) ∧ net_next n' = net_next (told rt n).
Proof.
  unfold entrypoint_end, told. set (n0 := (notify_with _ _ n).2). clearbody n0. cbv zeta.
  set (n1 := match net_status n0 !! _ with Some _ => _ | None => _ end).
  assert (net_hp n1 = net_hp n0 ∧ net_lp n1 = net_lp n0 ∧ net_replies n1 = net_replies n0 ∧
          net_heap n1 = net_heap n0 ∧ net_next n1 = net_next n0 ∧
          (∀ l, net_status n0 !! l = None → net_status n1 !! l = None) ∧
          ∀ l, l ≠ joint_join_tx (rt_joint rt) → net_status n1 !! l = net_status n0 !! l)
    as (M1 & M2 & M3 & M4 & M5 & M7 & M6).
  { unfold n1. destruct (net_status n0 !! _) as [w|] eqn:E; [|by repeat split].
    destruct (watch_is_closed w); [by repeat split|].
    destruct (watch_send Stop w); repeat split; try done; intros l Hl; simpl;
      rewrite lookup_insert_ne; try done. intros <-. congruence. }
  clearbody n1.
  assert (queued_responders rt n1 = queued_responders rt n0) as ->
    by (unfold queued_responders, instant_queue, normal_queue; by rewrite M1, M2).
  destruct (drop_responders_frame (queued_responders rt n0) n1) as (D1 & D2 & D3 & D4 & D5 & D6 & D7).
  cbv zeta in *. set (nr := foldr drop_responder n1 _) in *. clearbody nr.
  rewrite <-D1 in M1. rewrite <-D2 in M2. rewrite <-D4 in M4. rewrite <-D5 in M5. rewrite M3 in D6, D7.
  rewrite <-D3 in M6, M7. clear D1 D2 D3 D4 D5 M3 n1. rename nr into n1.
  set (n2 := match net_hp n1 !! _ with Some _ => _ | None => _ end).
  assert (net_lp n2 = net_lp n1 ∧ net_replies n2 = net_replies n1 ∧ net_status n2 = net_status n1 ∧
          net_heap n2 = net_heap n1 ∧ net_next n2 = net_next n1 ∧
          ∀ l, net_hp n2 !! l = if decide (l = joint_hp_msg_rx (rt_joint rt))
            then mpsc_drop_rx <$> net_hp n1 !! l else net_hp n1 !! l)
    as (K1 & K2 & K3 & K4 & K5 & K6).
  { unfold n2. destruct (net_hp n1 !! joint_hp_msg_rx _) eqn:E; repeat split; try done;
      intros l; case_decide; subst; simpl; rewrite ?lookup_insert_eq, ?lookup_insert_ne, ?E by done; done. }
  clearbody n2.
  set (n3 := match net_lp n2 !! _ with Some _ => _ | None => _ end).
  assert (net_hp n3 = net_hp n2 ∧ net_replies n3 = net_replies n2 ∧ net_status n3 = net_status n2 ∧
          net_heap n3 = net_heap n2 ∧ net_next n3 = net_next n2 ∧
          ∀ l, net_lp n3 !! l = if decide (l = joint_msg_rx (rt_joint rt))
            then mpsc_drop_rx <$> net_lp n2 !! l else net_lp n2 !! l)
    as (L1 & L2 & L3 & L4 & L5 & L6).
  { unfold n3. destruct (net_lp n2 !! joint_msg_rx _) eqn:E; repeat split; try done;
      intros l; case_decide; subst; simpl; rewrite ?lookup_insert_eq, ?lookup_insert_ne, ?E by done; done. }
  clearbody n3.
  destruct (net_status n3 !! joint_join_tx (rt_joint rt)) as [w|] eqn:E; simpl;
    (repeat split; try congruence; intros l; try intros Hl; simpl; rewrite ?lookup_insert_ne by done);
    first [by rewrite L1, K6, M1 | by rewrite L6, K1, M2 | by rewrite L3, K3, M6
          | by rewrite L3, K3, M7 | by rewrite L2, K2, D6
          | rewrite L2, K2; by apply D7 | idtac].
  rewrite lookup_insert_ne; [by rewrite L3, K3, M7|]. intros <-. rewrite L3, K3, M7 in E by done. done.
Qed.

(** What telling the supervisor leaves alone. *)
Lemma told_frame rt n : net_lp (told rt n) = net_lp n ∧ net_replies (told rt n) = net_replies n.
Proof.
  unfold told, notify_with, unpack_parcel, high_priority_send, TaskAddress_stop, StopSender_stop.
  destruct (rt_done_notifier rt) as [|sup op|st]; [done|..]; by destruct (_ <$> _) as [[]|].
Qed.

Lemma entrypoint_end_joined rt n a :
  rx_loc (addr_join_rx a) = joint_join_tx (rt_joint rt) → join a (entrypoint_end rt n) = Ready tt.
Proof.
  intros Ha. assert (∃ n0, entrypoint_end rt n =
    match net_status n0 !! joint_join_tx (rt_joint rt) with
    | Some join_tx => set_status (joint_join_tx (rt_joint rt)) (watch_drop_tx join_tx) n0
    | None => n0
    end) as [n0 ->] by (by eexists).
  unfold join. rewrite Ha.
  destruct (net_status n0 !! joint_join_tx (rt_joint rt)) as [w|] eqn:E; simpl; [|by rewrite E].
  rewrite lookup_insert_eq.
  destruct (wait_stop_ready (watch_drop_tx w) (rx_seen (addr_join_rx a))) as [_ H'].
  apply H'. right. by rewrite watch_drop_tx_view.
Qed.

(** C23: the end of an actor.  An actor that was stopped finishes in two steps,
    without receiving anything more, and never runs again.  Its supervisor gets
    one parcel with its id after everything sent before; whoever joins it is
    released; messages to it are refused; whoever waits for the reply to a request
    that it did not receive is told that it was cancelled; and the queues of the other
    actors are not touched. *)
Theorem stopped_actor_ends o now rt w a n' :
  rt_phase rt = PhSelect → ctx_alive (rt_context rt) = false →
  addr_hp_msg_tx a = joint_hp_msg_rx (rt_joint rt) → addr_msg_tx a = joint_msg_rx (rt_joint rt) →
  rx_loc (addr_join_rx a) = joint_join_tx (rt_joint rt) →
  n' = entrypoint_end rt (w_net w) →
  (∃ rt', actor_steps o now 2 rt w = Some (rt', with_net n' w) ∧
     rt_phase rt' = PhDone ∧ rt_actor rt' = rt_actor rt ∧
     ∀ o now w', actor_step o now rt' w' = None) ∧
  join a n' = Ready tt ∧
  instant_open n' (addr_hp_msg_tx a) = false ∧ normal_open n' (addr_msg_tx a) = false ∧
  (∀ request rx os, Envelope_new (MsgInteract request rx) ∈ normal_queue (w_net w) (addr_msg_tx a) →
     net_replies (w_net w) !! rx = Some os → ov_value (oneshot_view os) = None →
     oneshot_recv <$> net_replies n' !! rx = Some (Ready (Err tt))) ∧
  (∀ sup op, rt_done_notifier rt = NOnce sup op → addr_hp_msg_tx sup ≠ joint_hp_msg_rx (rt_joint rt) →
     instant_open (w_net w) (addr_hp_msg_tx sup) = true →
     instant_queue n' (addr_hp_msg_tx sup) = instant_queue (w_net w) (addr_hp_msg_tx sup) ++
       [mkParcel op (Envelope_instant (MsgDone (rt_id rt)))]) ∧
  (∀ b, addr_hp_msg_tx b ≠ joint_hp_msg_rx (rt_joint rt) → addr_msg_tx b ≠ joint_msg_rx (rt_joint rt) →
     (∀ sup op, rt_done_notifier rt = NOnce sup op → addr_hp_msg_tx b ≠ addr_hp_msg_tx sup) →
     instant_queue n' (addr_hp_msg_tx b) = instant_queue (w_net w) (addr_hp_msg_tx b) ∧
     normal_queue n' (addr_msg_tx b) = normal_queue (w_net w) (addr_msg_tx b)).
Proof.
  intros Hp Hal Hhp Hlp Hj ->.
  destruct (entrypoint_end_channels rt (w_net w)) as (M1 & M2 & _ & _ & _ & M3 & _).
  split; [|split; [by apply entrypoint_end_joined|split; [|split; [|split; [|split]]]]].
  - exists (set_phase PhDone rt). cbn [actor_steps]. unfold actor_step at 1. rewrite Hp, Hal.
    split; [|done]. cbn. by destruct rt.
  - unfold instant_open. rewrite Hhp, M1, decide_True by done.
    destruct (net_hp _ !! _); simpl; [by rewrite mpsc_drop_rx_view|done].
  - unfold normal_open. rewrite Hlp, M2, decide_True by done.
    destruct (net_lp _ !! _); simpl; [by rewrite mpsc_drop_rx_view|done].
  - intros request rx os Hin Hos Hv. destruct (told_frame rt (w_net w)) as [T1 T2].
    destruct (M3 rx os ltac:(by rewrite T2)) as (o' & -> & Hv' & Ht'). simpl.
    rewrite oneshot_recv_view, Hv', Hv, Ht'; [done|]. unfold queued_responders.
    apply list_elem_of_omap. exists (Envelope_new (MsgInteract request rx)). split; [|done].
    rewrite !elem_of_app. right; right. unfold normal_queue in *. by rewrite T1, <-Hlp.
  - intros sup op Hn Hne Ho. unfold instant_queue. rewrite M1, decide_False by done.
    unfold told. rewrite Hn; simpl.
    by destruct (high_priority_send_open sup (Parcel_new op (MsgDone (rt_id rt))) (w_net w) Ho)
      as (_ & _ & ? & _).
  - intros b Hb1 Hb2 Hsup. unfold instant_queue, normal_queue. rewrite M1, M2, !decide_False by done.
    unfold told, notify_with, unpack_parcel, high_priority_send, TaskAddress_stop, StopSender_stop.
    destruct (rt_done_notifier rt) as [|sup op|st]; [done|..].
    + destruct (_ <$> _) as [[]|]; [|done..]. simpl. rewrite lookup_insert_ne; [done|].
      intros Heq. by apply (Hsup sup op).
    + by destruct (_ <$> _) as [[]|].
Qed.
End runtime.

#[local] Existing Instance ref_crates.
#[local] Existing Instance sample_app.
#[local] Existing Instance sample_impl.

Definition sample_orders : Orders := mkOrders (elements_order N) (elements_order Id).

(** The supervisor at the sample address, and its child with the number 5. *)
Definition child_pair : AddressPair := (AddressPair_new sample_net).1.
Definition sample_world : World :=
  spawn 5%N (Some sample_address) child_pair (mkWorld (AddressPair_new sample_net).2 ∅ ∅).

(** The runtime of the child, in a given phase. *)
Definition child_runtime (p : Phase) (alive : bool) : ActorRuntime :=
  mkRuntime 2%positive 5%N (mkContext alive (pair_address child_pair) Tracker.new) None
    (NOnce sample_address (OpDone 2%positive)) (pair_joint child_pair) dq_new p.

Lemma handler_runs_to_end_witness :
  let rt := child_runtime (PhHandle SrcInstant (dispatch MsgInterrupt 5%N)) true in
  ∃ c, actor_steps (λ _, sample_orders) (λ _, 0%N) 2 rt sample_world =
    Some (handler_returned SrcInstant 5%N (Ok tt) (set_context c rt), sample_world) ∧
  ctx_alive c = false.
Proof.
  cbv zeta.
  pose proof (handler_runs_to_end SrcInstant (dispatch MsgInterrupt 5%N)
    (child_runtime (PhHandle SrcInstant (dispatch MsgInterrupt 5%N)) true) sample_world
    (λ _, sample_orders) (λ _, 0%N) eq_refl (conj I (λ _, I))) as H.
  eexists. split; [exact (proj2 H)|reflexivity].
Defined.

Lemma select_priority_witness :
  let rt := child_runtime PhSelect true in
  queues_held rt (w_net sample_world) ∧
  next_event sample_orders 0%N rt sample_world None.
Proof.
  cbv zeta. assert (queues_held (child_runtime PhSelect true) (w_net sample_world)) as Hq.
  { split; eexists; split; reflexivity. }
  split; [done|]. exact (select_priority sample_orders 0%N _ _ Hq).
Defined.

Lemma stopped_actor_ends_witness :
  let rt := child_runtime PhSelect false in
  let n' := entrypoint_end rt (w_net sample_world) in
  join (pair_address child_pair) n' = Ready tt ∧
  instant_queue n' (addr_hp_msg_tx sample_address) =
    [mkParcel (OpDone 2%positive) (Envelope_instant (MsgDone 2%positive))].
Proof.
  cbv zeta.
  destruct (stopped_actor_ends (λ _, sample_orders) (λ _, 0%N) (child_runtime PhSelect false) sample_world
    (pair_address child_pair) _ eq_refl eq_refl eq_refl eq_refl eq_refl eq_refl)
    as (_ & Hj & _ & _ & _ & Hs & _).
  split; [exact Hj|]. apply (Hs sample_address _ eq_refl); [done|reflexivity].
Defined.
