(* ===== verification/Extra.v ===== *)
(** * meio-extra: messages of an own type

    custom_action.rs and extended_handler.rs: a handler object for messages that
    are neither actions nor interactions, which reuses the queues of the actors,
    and a kind of such messages that is split over two methods. *)
From S2P Require Import Prelude Extern Ids Types Linkage LiteRuntime Handlers ActorRuntime.

Section extra.
Context `{!Crates, !App}.

(** ** custom_action.rs *)

(** [CustomActionHandler<I>]; [CustomAction] is a marker. *)
Class CustomActionHandler (I : Type) := { custom_action : I → Actor → Handling }.

Record CustomActionHandlerImpl (I : Type) : Type := mkCustom { cah_input : option I }.
Arguments mkCustom {I} _.
Arguments cah_input {I} _.

(** [Handler] for [CustomActionHandlerImpl] *)
Definition custom_priority {I} (h : CustomActionHandlerImpl I) : Priority := PNormal.

Definition custom_handle {I} `{!CustomActionHandler I} (h : CustomActionHandlerImpl I) (actor : Actor)
  : outcome (Handling * CustomActionHandlerImpl I) :=
  match cah_input h with
  | Some input => Return (custom_action input actor, mkCustom None)
  | None => Panic "action handler called twice"
  end.

(** ** extended_handler.rs *)

Class ExtendedHandler := {
  extended_handle : Byte.byte → Actor → Handling;
  extended_done : Actor → Handling
}.

Record ExtendedAction : Type := mkExtended { inner_value : option Byte.byte }.

#[export] Instance extended_action_handler `{!ExtendedHandler} : CustomActionHandler ExtendedAction := {|
  custom_action input actor :=
    match inner_value input with
    | Some value => extended_handle value actor
    | None => extended_done actor
    end
|}.

(** ** As handlers of the framework *)

Context `{!ActorImpl}.

(** How the objects of the type travel in envelopes of the framework: the handler that
    [on_custom] is for a message is the [handle] of its object. *)
Class Embedded (I : Type) `{!CustomActionHandler I} := {
  embed : I → Payload;
  embed_handled : ∀ i a, ∃ h', custom_handle (mkCustom (Some i)) a = Return (on_custom (embed i) a, h')
}.

Definition boxed {I} `{Embedded I} (h : CustomActionHandlerImpl I) : HandlerImpl :=
  CustomHandlerImpl (custom_priority h) (embed <$> cah_input h).

(** The object is a handler like those of the framework: its priority, what it
    runs, and that a second call panics. *)
Lemma boxed_handler {I} `{Embedded I} (h : CustomActionHandlerImpl I) a :
  handler_priority (boxed h) = custom_priority h ∧
  handler_handle (boxed h) a =
    match custom_handle h a with
    | Return (code, h') => Return (code, boxed h')
    | Panic message => Panic message
    end.
Proof.
  split; [done|]. destruct h as [[i|]]; [|done]. destruct (embed_handled i a) as [h' Hh].
  unfold custom_handle in *. simpl in *. by injection Hh as -> _.
Qed.

(** C24: sending a custom action.  The object goes to the normal queue of the actor,
    after everything sent before, and touches nothing else.  When it is the next event
    of an actor, its [handle] runs the action's method of the actor, with its message,
    and leaves an object that cannot be handled again. *)
Theorem custom_action_delivered {I} `{Embedded I} (i : I) o now rt w q n :
  let h := mkCustom (Some i) in
  let a := ctx_address (rt_context rt) in
  (normal_open n (addr_msg_tx a) = true →
    queued_normal a (Envelope_from_handler (boxed h)) n (send_event a (boxed h) n)) ∧
  (rt_phase rt = PhSelect → ctx_alive (rt_context rt) = true → queues_held rt (w_net w) →
   instant_queue (w_net w) (joint_hp_msg_rx (rt_joint rt)) = [] → dq_view (rt_scheduled rt) = [] →
   normal_queue (w_net w) (joint_msg_rx (rt_joint rt)) = Envelope_from_handler (boxed h) :: q →
   ∃ rt' w', actor_step o now rt w = Some (rt', w') ∧
     normal_queue (w_net w') (joint_msg_rx (rt_joint rt)) = q ∧
     rt_phase rt' = PhHandle SrcNormal (custom_action i (rt_actor rt))) ∧
  ∃ h', custom_handle h (rt_actor rt) = Return (custom_action i (rt_actor rt), h') ∧
    ∀ other, custom_handle h' other = Panic "action handler called twice".
Proof.
  cbv zeta. split; [intros Ho; by apply normal_priority_queued|]. split; [|by eexists].
  intros Hp Ha Hheld Hi He Hq. unfold actor_step. rewrite Hp, Ha.
  destruct Hheld as [Hhp (lch & Hlch & Hltx)]. unfold select_biased.
  destruct Hhp as (ch & Hch & Htx). rewrite Hch. simpl.
  assert (mv_queue (mpsc_view ch) = []) as Hch0 by (unfold instant_queue in Hi; by rewrite Hch in Hi).
  rewrite mpsc_recv_pending by done. rewrite dq_len_view, He. cbn [length bool_decide decide_rel].
  rewrite bool_decide_eq_false_2 by lia. rewrite Hlch. simpl.
  unfold normal_queue in Hq. rewrite Hlch in Hq.
  destruct (mpsc_recv_some lch _ q Hq) as (lch' & -> & Hv).
  eexists _, _. split; [done|]. split.
  - unfold normal_queue. simpl. by rewrite lookup_insert_eq, Hv.
  - unfold begin_handle, Envelope_handle. cbn [env_handler Envelope_from_handler].
    rewrite (proj2 (boxed_handler (mkCustom (Some i)) (rt_actor rt))). done.
Qed.
End extra.
Arguments mkCustom {I} _.
Arguments cah_input {I} _.

#[local] Existing Instance ref_crates.
#[local] Existing Instance sample_app.
#[local] Existing Instance sample_impl.

(** An extended handler on the sample program: values are added, as the custom
    messages of the sample are, and the end resets the actor. *)
Definition byte_payload (b : Byte.byte) : Payload := Byte.to_N b.

#[local] Instance sample_values : CustomActionHandler Byte.byte := {|
  custom_action b a := CRet (byte_payload b + a : N)%N (Ok tt)
|}.

#[local] Instance sample_embedded : Embedded Byte.byte.
Proof. refine {| embed := byte_payload |}. intros i a. by eexists. Defined.

Lemma custom_action_delivered_witness :
  let a := pair_address child_pair in
  let n := (send_event a (boxed (mkCustom (Some Byte.x07))) (w_net sample_world)).2 in
  ∃ rt' w', actor_step sample_orders 0%N (child_runtime PhSelect true) (with_net n sample_world) = Some (rt', w') ∧
    rt_phase rt' = PhHandle SrcNormal (CRet (12 : N)%N (Ok tt)).
Proof.
  cbv zeta.
  destruct (custom_action_delivered (I:=Byte.byte) Byte.x07 sample_orders 0%N (child_runtime PhSelect true)
    (with_net (send_event (pair_address child_pair) (boxed (mkCustom (Some Byte.x07))) (w_net sample_world)).2 sample_world)
    [] (w_net sample_world)) as (_ & H & _).
  destruct H as (rt' & w' & Hs & _ & Hph); try reflexivity.
  - split; eexists; split; reflexivity.
  - exists rt', w'. split; [exact Hs|]. rewrite Hph. reflexivity.
Defined.
