(* ===== verification/Tasks.v ===== *)
(** * The framework's own tasks

    forwarders.rs ([StreamForwarder]), the [InteractionTask] of handlers.rs,
    tasks/fn_task.rs and tasks/heartbeat.rs.  What an awaited future of the
    outside world yields (the items of a stream, the changes of a duration) is a
    list the definitions consume; they are pending when it runs out. *)
From S2P Require Import Prelude Extern Ids Types Linkage LiteRuntime Handlers ActorRuntime.

Section tasks.
Context `{!Crates, !App}.
Implicit Types (n : Net).

(** ** StreamForwarder *)

(** [interruptable_routine]: [polls] is what [stream.next().await] gives, call
    after call ([None]: the stream is over). *)
Fixpoint forward (recipient : Address) (polls : list (option Payload)) n
  : poll (result unit Error) * Net :=
  match polls with
  | [] => (Pending, n)
  | Some item :: polls =>
    let action := MsgStreamItem (Item item) in
    match act recipient action n with
    | (Ok _, n) => forward recipient polls n
    | (Err e, n) => (Ready (Err e), n)
    end
  | None :: _ =>
    let action := MsgStreamItem StreamDone in
    match act recipient action n with
    | (Ok _, n) => (Ready (Ok tt), n)
    | (Err e, n) => (Ready (Err e), n)
    end
  end.

(** [AttachStream::new] *)
Definition AttachStream_new (stream : Strm) (tag : Payload) : Message := MsgAttachStream stream tag.

(** ** InteractionTask *)

(** [recv], up to its [await]: the location of the reply it waits for. *)
Definition recv_start (recipient : Address) (request : Payload) n : result loc Error * Net :=
  let '(rx, n) := alloc_reply n in
  let input := MsgInteract request rx in
  match act recipient input n with
  | (Ok _, n) => (Ok rx, n)
  | (Err e, n) => (Err e, n)
  end.

(** [rx.await.map_err(Error::from).and_then(identity)] *)
Definition recv_poll (rx : loc) n : poll (result Payload Error) :=
  match oneshot_recv <$> net_replies n !! rx with
  | Some Pending => Pending
  | Some (Ready (Ok r)) => Ready r
  | Some (Ready (Err _)) | None => Ready (Err err_canceled)
  end.

(** ** FnTask *)

(** [interruptable_routine] awaits the wrapped future. *)
Definition fn_task_routine {Out} (fut : poll (result Out Error)) : poll (result Out Error) := fut.

(** ** HeartBeat *)

Record HeartBeatHandle : Type := mkHeartBeatHandle { hb_duration : Wt Duration }.

(** [new] drops the receiver of the channel it makes. *)
Definition HeartBeatHandle_new (duration : Duration) : HeartBeatHandle :=
  mkHeartBeatHandle (watch_drop_rx (watch_channel duration)).

Definition HeartBeatHandle_update (duration : Duration) (h : HeartBeatHandle)
  : result unit Error * HeartBeatHandle :=
  match watch_send duration (hb_duration h) with
  | Ok w => (Ok tt, mkHeartBeatHandle w)
  | Err _ => (Err err_watch_send, h)
  end.

(** [HeartBeat::new_with_handle]: the version the task has seen, and the handle. *)
Definition HeartBeat_new_with_handle (h : HeartBeatHandle) : nat * HeartBeatHandle :=
  let w := watch_subscribe (hb_duration h) in
  (wv_version (watch_view w), mkHeartBeatHandle w).

(** [HeartBeat::new]: the handle is dropped, and the sender with it. *)
Definition HeartBeat_new (duration : Duration) : nat * Wt Duration :=
  let '(seen, h) := HeartBeat_new_with_handle (HeartBeatHandle_new duration) in
  (seen, watch_drop_tx (hb_duration h)).

(** [repeatable_routine]: one tick. *)
Definition heartbeat_repeatable_routine (recipient : Address) (now : Instant) n
  : result (option unit) Error * Net :=
  let tick := MsgTick now in
  match act recipient tick n with
  | (Ok _, n) => (Ok None, n)
  | (Err e, n) => (Err e, n)
  end.

(** What happens to the channel of the period: a new duration at some time, or the
    end of the last sender. *)
Inductive DurationEvent : Type :=
| Changed (at_ : Instant) (duration : Duration)
| SenderDropped (at_ : Instant).

(** The [loop] of [routine_wait], entered at [now]: its deadline and the duration
    that was read last, given the current time and the events to come, in order; the
    deadline may be out of range.  A change that is there already is read by [borrow];
    the wait is over at the deadline, or at once when that has passed. *)
Fixpoint heartbeat_wait (now current : Instant) (duration : Duration)
  (events : list DurationEvent) : outcome (Instant * Duration) :=
  match events with
  | [] =>
    match instant_add now duration with
    | Panic message => Panic message
    | Return instant => Return (N.max current instant, duration)              (* elapsed *)
    end
  | Changed t d :: events =>
    if (t <=? current)%N then heartbeat_wait now current d events             (* borrow *)
    else
      match instant_add now duration with
      | Panic message => Panic message
      | Return instant =>
        if (t <=? instant)%N then heartbeat_wait now t d events               (* continue *)
        else Return (N.max current instant, duration)                         (* elapsed *)
      end
  | SenderDropped _ :: _ =>
    match instant_add now duration with
    | Panic message => Panic message
    | Return instant => Return (N.max current instant, duration)              (* sleep_until *)
    end
  end.

(** One round of the task, as its world has it: what passes before the tick reads the
    clock, and from then until the wait does; the events of the wait; and how long
    after its deadline the timer wakes the task, which is never early. *)
Record Round : Type := mkRound {
  rd_before : Duration;
  rd_between : Duration;
  rd_events : list DurationEvent;
  rd_late : Duration
}.

(** The task as an instance of [LiteTask]: its state is the round, the clock, the
    duration that was read last and the network. *)
Record HeartBeat : Type := mkHeartBeat {
  hb_round : nat;
  hb_now : Instant;
  hb_period : Duration;
  hb_net : Net
}.

Section heartbeat.
Variable world : nat → Round.

Definition heartbeat_attempt (recipient : Address) (s : HeartBeat)
  : result (option unit) Error * HeartBeat :=
  let now := (hb_now s + rd_before (world (hb_round s)))%N in
  let '(r, n) := heartbeat_repeatable_routine recipient now (hb_net s) in
  (r, mkHeartBeat (hb_round s) now (hb_period s) n).

Definition heartbeat_routine_wait (succeed : bool) (s : HeartBeat) : outcome HeartBeat :=
  let r := world (hb_round s) in
  let now := (hb_now s + rd_between r)%N in
  match heartbeat_wait now now (hb_period s) (rd_events r) with
  | Return (t, d) => Return (mkHeartBeat (S (hb_round s)) (t + rd_late r) d (hb_net s))
  | Panic message => Panic message
  end.

Definition heartbeat_loop (recipient : Address) (fuel : nat) (s : HeartBeat)
  : option (outcome (result unit Error)) * HeartBeat :=
  interruptable_routine pre_repeatable_routine_default
    (heartbeat_attempt recipient) heartbeat_routine_wait fuel s.
End heartbeat.

(** ** Lemmas *)

Lemma act_open_queue a msg n :
  normal_open n (addr_msg_tx a) = true →
  ∃ n', act a msg n = (Ok tt, n') ∧ normal_open n' (addr_msg_tx a) = true ∧
    normal_queue n' (addr_msg_tx a) = normal_queue n (addr_msg_tx a) ++ [Envelope_new msg] ∧
    only_normal (addr_msg_tx a) n n'.
Proof.
  intros Ho. unfold act.
  destruct (normal_priority_send_open a (Envelope_new msg) n Ho) as (Hr & Ho' & Hq & Hl).
  destruct (normal_priority_send a _ n) as [r n']; simpl in *; subst. by exists n'.
Qed.

Lemma act_closed a msg n :
  normal_open n (addr_msg_tx a) = false →
  act a msg n = (Err (err_msg (mpsc_send_error (Ch:=Ch))), n).
Proof. apply normal_priority_send_closed. Qed.

(** The envelopes a forwarder sends for what its stream yielded. *)
Definition forwarded (items : list Payload) : list Envelope :=
  (λ i, Envelope_new (MsgStreamItem (Item i))) <$> items.

Lemma forward_items recipient items polls n :
  normal_open n (addr_msg_tx recipient) = true →
  ∃ n', forward recipient ((Some <$> items) ++ polls) n = forward recipient polls n' ∧
    normal_open n' (addr_msg_tx recipient) = true ∧
    normal_queue n' (addr_msg_tx recipient) =
      normal_queue n (addr_msg_tx recipient) ++ forwarded items.
Proof.
  revert n; induction items as [|i items IH]; intros n Ho.
  { exists n. unfold forwarded; simpl. by rewrite app_nil_r. }
  rewrite fmap_cons. cbn [app forward].
  destruct (act_open_queue recipient (MsgStreamItem (Item i)) n Ho) as (n1 & -> & Ho1 & Hq1 & _).
  destruct (IH n1 Ho1) as (n' & -> & Ho' & Hq'). exists n'. split; [done|]. split; [done|].
  unfold forwarded; rewrite fmap_cons. by rewrite Hq', Hq1, <-(assoc_L (++)).
Qed.

(** C30: a forwarded stream.  What the stream yields reaches the actor's normal
    queue, every item once and in order, followed by a single end mark when the
    stream is over, and only then the task succeeds; it fails, and sends
    nothing, as soon as the actor is gone. *)
Theorem stream_forwarded recipient items rest n :
  (normal_open n (addr_msg_tx recipient) = true →
    (let o := forward recipient (Some <$> items) n in
     o.1 = Pending ∧ normal_queue o.2 (addr_msg_tx recipient) =
       normal_queue n (addr_msg_tx recipient) ++ forwarded items) ∧
    (let o := forward recipient ((Some <$> items) ++ None :: rest) n in
     o.1 = Ready (Ok tt) ∧ normal_queue o.2 (addr_msg_tx recipient) =
       normal_queue n (addr_msg_tx recipient) ++ forwarded items ++
       [Envelope_new (MsgStreamItem StreamDone)])) ∧
  (∀ polls, normal_open n (addr_msg_tx recipient) = false → polls ≠ [] →
    forward recipient polls n = (Ready (Err (err_msg (mpsc_send_error (Ch:=Ch)))), n)).
Proof.
  split.
  - intros Ho. split; cbv zeta.
    + destruct (forward_items recipient items [] n Ho) as (n' & Hf & _ & Hq).
      rewrite app_nil_r in Hf. by rewrite Hf.
    + destruct (forward_items recipient items (None :: rest) n Ho) as (n' & -> & Ho' & Hq).
      cbn [forward].
      destruct (act_open_queue recipient (MsgStreamItem StreamDone) n' Ho') as (n2 & -> & _ & Hq2 & _).
      split; [done|]. cbn [snd]. by rewrite Hq2, Hq, <-(assoc_L (++)).
  - intros [|[item|] polls] Hc Hne; [done|..]; cbn [forward]; by rewrite act_closed.
Qed.

(** C25: an interaction as its requester sees it.  The request reaches the actor
    with a fresh responder; the task waits as long as the responder is neither
    used nor dropped; it ends with exactly the reply the responder is given, and
    with a cancellation (an error that is not an interruption) when the
    responder is dropped. *)
Theorem interaction_roundtrip recipient request n :
  net_wf n → normal_open n (addr_msg_tx recipient) = true →
  let '(r, n1) := recv_start recipient request n in
  ∃ rx, r = Ok rx ∧ net_replies n !! rx = None ∧ waiting n1 rx ∧
    normal_queue n1 (addr_msg_tx recipient) =
      normal_queue n (addr_msg_tx recipient) ++ [Envelope_new (MsgInteract request rx)] ∧
    ∀ n2, waiting n2 rx → (∀ o, net_replies n2 !! rx = Some o → ov_value (oneshot_view o) = None) →
      recv_poll rx n2 = Pending ∧
      (∀ res, recv_poll rx (respond rx res n2).2 = Ready res) ∧
      recv_poll rx (drop_responder rx n2) = Ready (Err err_canceled) ∧
      TaskError_from err_canceled = Other err_canceled.
Proof.
  intros Hwf Ho. unfold recv_start, alloc_reply. set (n0 := bump _).
  destruct (act_open_queue recipient (MsgInteract request (net_next n)) n0 Ho)
    as (n1 & -> & _ & Hq & Honly).
  exists (net_next n). split; [done|]. split; [by apply Hwf|]. split; [|split; [done|]].
  { destruct Honly as (_ & _ & _ & Hr & _). unfold waiting. rewrite Hr. simpl.
    exists oneshot_channel. by rewrite lookup_insert_eq, oneshot_channel_view. }
  intros n2 Hw Hv. pose proof Hw as (o & Hn & Ht & Hrx). specialize (Hv o Hn).
  split; [|split; [|split]].
  - unfold recv_poll. rewrite Hn; simpl. by rewrite oneshot_recv_view, Hv, Ht.
  - intros res. destruct (respond_waiting (net_next n) res n2 Hw) as [(o' & Ho' & Hv') _].
    unfold recv_poll. rewrite Ho'; simpl. by rewrite oneshot_recv_view, Hv'.
  - unfold recv_poll, drop_responder. rewrite Hn. simpl. rewrite lookup_insert_eq; simpl.
    by rewrite oneshot_recv_view, oneshot_drop_tx_view; simpl; rewrite Hv.
  - unfold TaskError_from. by rewrite is_task_stopped_canceled.
Qed.

(** ** The ticks of a heartbeat *)

Section ticks.
Variable world : nat → Round.
Variable recipient : Address.
Implicit Types (s : HeartBeat).
Abbreviation overflow := "overflow when adding duration to instant"%string.

(** A wait ends no earlier than the duration that was read last, from when the wait
    was entered. *)
Lemma heartbeat_wait_late now current d events :
  match heartbeat_wait now current d events with
  | Return (t, d') => (now + d' ≤ t)%N ∧ (current ≤ t)%N
  | Panic message => message = overflow
  end.
Proof.
  revert current d. induction events as [|[t d'|t] events IH]; intros current d; cbn [heartbeat_wait];
    unfold instant_add; try (destruct (_ <=? instant_max)%N; [split; lia|done]).
  destruct (N.leb_spec t current); [apply IH|].
  destruct (now + d <=? instant_max)%N; [|done].
  destruct (t <=? now + d)%N; [|split; lia].
  specialize (IH t d'). destruct (heartbeat_wait _ _ _ _) as [[t' d'']|]; [|done]. destruct IH. split; lia.
Qed.

(** The duration is not changed during a round. *)
Definition unchanged (r : Round) : Prop :=
  Forall (λ e, match e with Changed _ _ => False | SenderDropped _ => True end) (rd_events r).

Lemma heartbeat_wait_unchanged r now d :
  unchanged r →
  heartbeat_wait now now d (rd_events r) =
    match instant_add now d with Return t => Return (t, d) | Panic message => Panic message end.
Proof.
  unfold unchanged. intros Hr. assert (∀ t, instant_add now d = Return t → N.max now t = t) as Hmax.
  { unfold instant_add. intros t. destruct (_ <=? _)%N; [|done]. intros [= <-]. lia. }
  destruct (rd_events r) as [|[t d'|t] events]; cbn [heartbeat_wait]; [|by apply Forall_cons in Hr as [? _]|];
    (destruct (instant_add now d) as [t'|] eqn:Ha; [|done]); by rewrite (Hmax t').
Qed.

Lemma heartbeat_attempt_queue s :
  let now := (hb_now s + rd_before (world (hb_round s)))%N in
  ∃ r n', heartbeat_attempt world recipient s = (r, mkHeartBeat (hb_round s) now (hb_period s) n') ∧
    (∀ o, r ≠ Ok (Some o)) ∧
    (normal_open (hb_net s) (addr_msg_tx recipient) = true →
      normal_open n' (addr_msg_tx recipient) = true ∧
      normal_queue n' (addr_msg_tx recipient) =
        normal_queue (hb_net s) (addr_msg_tx recipient) ++ [Envelope_new (MsgTick now)]) ∧
    (normal_open (hb_net s) (addr_msg_tx recipient) = false → n' = hb_net s).
Proof.
  cbv zeta. unfold heartbeat_attempt, heartbeat_repeatable_routine. set (now := (_ + _)%N).
  destruct (normal_open (hb_net s) (addr_msg_tx recipient)) eqn:Ho.
  - destruct (act_open_queue recipient (MsgTick now) (hb_net s) Ho) as (n1 & -> & Ho1 & Hq1 & _).
    by exists (Ok None), n1.
  - rewrite act_closed by done. by eexists (Err _), (hb_net s).
Qed.

Lemma heartbeat_loop_step fuel s :
  heartbeat_loop world recipient (S fuel) s =
    let s1 := (heartbeat_attempt world recipient s).2 in
    match heartbeat_routine_wait world true s1 with
    | Return s2 => heartbeat_loop world recipient fuel s2
    | Panic message => (Some (Panic message), s1)
    end.
Proof.
  unfold heartbeat_loop, interruptable_routine, pre_repeatable_routine_default.
  destruct (heartbeat_attempt_queue s) as (r & n' & Ha & Hno & _).
  rewrite repeat_loop_step by (rewrite Ha; exact Hno). cbv zeta. unfold attempt_state. rewrite Ha.
  set (s1 := mkHeartBeat _ _ _ _).
  replace (heartbeat_routine_wait world (is_ok r) s1) with (heartbeat_routine_wait world true s1) by done.
  cbn [snd]. by destruct (heartbeat_routine_wait world true s1).
Qed.

(** Times and periods of ticks, the first no earlier than [t]: the next tick is no
    earlier than the period that was in force after the one before. *)
Fixpoint spaced (t : Instant) (beats : list (Instant * Duration)) : Prop :=
  match beats with
  | [] => True
  | (now, d) :: beats => (t ≤ now)%N ∧ spaced (now + d) beats
  end.

Definition tick_envelopes (beats : list (Instant * Duration)) : list Envelope :=
  (λ b, Envelope_new (MsgTick b.1)) <$> beats.

Lemma spaced_le t t' beats : (t' ≤ t)%N → spaced t beats → spaced t' beats.
Proof. destruct beats as [|[now d] beats]; [done|]. cbn. intros Hle [? ?]. split; [lia|done]. Qed.

(** What passes during [k] rounds from [r]. *)
Fixpoint rounds_time (period : Duration) (r k : nat) : Duration :=
  match k with
  | O => 0
  | S k => rd_before (world r) + rd_between (world r) + period + rd_late (world r) +
           rounds_time period (S r) k
  end.

Lemma heartbeat_wait_step s :
  match heartbeat_routine_wait world true s with
  | Return s' => hb_round s' = S (hb_round s) ∧ hb_net s' = hb_net s ∧
      (hb_now s + hb_period s' ≤ hb_now s')%N
  | Panic message => message = overflow
  end.
Proof.
  unfold heartbeat_routine_wait. set (r := world _).
  pose proof (heartbeat_wait_late (hb_now s + rd_between r) (hb_now s + rd_between r) (hb_period s) (rd_events r)) as Hw.
  destruct (heartbeat_wait _ _ _ _) as [[t d]|]; [|done]. cbn. split_and!; [done..|]. lia.
Qed.

Lemma heartbeat_wait_step_unchanged s :
  let r := world (hb_round s) in
  unchanged r →
  heartbeat_routine_wait world true s =
    match instant_add (hb_now s + rd_between r) (hb_period s) with
    | Return t => Return (mkHeartBeat (S (hb_round s)) (t + rd_late r) (hb_period s) (hb_net s))
    | Panic message => Panic message
    end.
Proof.
  intros r Hr. unfold heartbeat_routine_wait. fold r. rewrite heartbeat_wait_unchanged by done.
  by destruct (instant_add _ _).
Qed.

Lemma heartbeat_beats k s :
  let o := heartbeat_loop world recipient k s in
  let l := addr_msg_tx recipient in
  (o.1 = None ∨ o.1 = Some (Panic overflow)) ∧
  ∃ beats, (o.1 = None → length beats = k) ∧ spaced (hb_now s) beats ∧
     (normal_open (hb_net s) l = true →
        normal_queue (hb_net o.2) l = normal_queue (hb_net s) l ++ tick_envelopes beats) ∧
     (normal_open (hb_net s) l = false → hb_net o.2 = hb_net s) ∧
     ((∀ i, i < k → unchanged (world (hb_round s + i))) → Forall (λ b, b.2 = hb_period s) beats).
Proof.
  cbv zeta. revert s. induction k as [|k IH]; intros s.
  { split; [by left|]. exists []. unfold tick_envelopes. cbn. rewrite app_nil_r. by split_and!. }
  rewrite heartbeat_loop_step.
  destruct (heartbeat_attempt_queue s) as (r & n' & -> & _ & Ho & Hc). cbv zeta. cbn [snd].
  set (now := (hb_now s + _)%N) in *. set (s1 := mkHeartBeat _ now _ n').
  pose proof (heartbeat_wait_step s1) as Hw. pose proof (heartbeat_wait_step_unchanged s1) as Hu.
  assert (hb_now s ≤ now)%N as Hnow by lia.
  destruct (heartbeat_routine_wait world true s1) as [s2|m].
  - destruct Hw as (Hr2 & Hn2 & Hlate). destruct (IH s2) as [IH1 (beats & B1 & B2 & B3 & B4 & B5)].
    split; [done|]. exists ((now, hb_period s2) :: beats). rewrite Hn2 in B3, B4. cbn in *. split_and!.
    + intros Hnone. by rewrite B1.
    + done.
    + by eapply spaced_le.
    + intros Hopen. destruct (Ho Hopen) as [Ho1 Hq1]. by rewrite (B3 Ho1), Hq1, <-(assoc_L (++)).
    + intros Hclosed. rewrite (Hc Hclosed) in *. by apply B4.
    + intros Hun. assert (hb_period s2 = hb_period s) as Hper.
      { specialize (Hun 0 ltac:(lia)). rewrite Nat.add_0_r in Hun. specialize (Hu Hun). revert Hu. cbn.
        destruct (instant_add _ _); [by intros [= ->]|done]. }
      constructor; [done|]. rewrite <-Hper. apply B5. intros i Hi. rewrite Hr2.
      specialize (Hun (S i) ltac:(lia)). by rewrite Nat.add_succ_r in Hun.
  - subst m. split; [by right|]. exists [(now, hb_period s)]. cbn. split_and!; try done.
    + intros Hopen. by apply Ho.
    + by repeat constructor.
Qed.

Lemma heartbeat_exact k s :
  (∀ i, i < k → unchanged (world (hb_round s + i))) →
  let o := heartbeat_loop world recipient k s in
  let total := (hb_now s + rounds_time (hb_period s) (hb_round s) k)%N in
  let r := world (hb_round s + k) in
  (total ≤ instant_max)%N →
  o.1 = None ∧ hb_now o.2 = total ∧
  (unchanged r → (instant_max < total + rd_before r + rd_between r + hb_period s)%N →
   (heartbeat_loop world recipient (S k) s).1 = Some (Panic overflow)).
Proof.
  cbv zeta. revert s. induction k as [|k IH]; intros s Hun Hmax.
  - cbn [rounds_time] in *. rewrite N.add_0_r, Nat.add_0_r. split_and!; [done..|]. intros Hr Hover.
    rewrite heartbeat_loop_step. destruct (heartbeat_attempt_queue s) as (r & n' & -> & _). cbv zeta. cbn [snd].
    rewrite heartbeat_wait_step_unchanged by done. cbn. by rewrite instant_add_overflow by lia.
  - rewrite !(heartbeat_loop_step _ s). destruct (heartbeat_attempt_queue s) as (r & n' & -> & _). cbv zeta. cbn [snd].
    assert (unchanged (world (hb_round s))) as Hu by (specialize (Hun 0 ltac:(lia)); by rewrite Nat.add_0_r in Hun).
    rewrite heartbeat_wait_step_unchanged by done. cbn [hb_round hb_now hb_period hb_net rounds_time] in *.
    rewrite instant_add_ok by lia. set (s2 := mkHeartBeat _ _ _ _).
    destruct (IH s2) as (I1 & I2 & I3); cbn [hb_round hb_now hb_period s2].
    { intros i Hi. specialize (Hun (S i) ltac:(lia)). by rewrite Nat.add_succ_r in Hun. }
    { lia. }
    split_and!; [done|rewrite I2; cbn; lia|]. rewrite Nat.add_succ_r. cbn in I3. intros Hr Hover. apply I3; [done|lia].
Qed.

End ticks.

(** The period of a heartbeat.  A handle can change it only once a task was
    made with the handle; from then on the new value is what every task made
    with it reads; a heartbeat made without a handle keeps its period: no
    change can reach it. *)
Theorem heartbeat_update d d' :
  let h := HeartBeatHandle_new d in
  HeartBeatHandle_update d' h = (Err err_watch_send, h) ∧
  (let '(seen, h1) := HeartBeat_new_with_handle h in
   watch_borrow (hb_duration h1) = d ∧ watch_changed (hb_duration h1) seen = Pending ∧
   ∃ h2, HeartBeatHandle_update d' h1 = (Ok tt, h2) ∧ watch_borrow (hb_duration h2) = d' ∧
     watch_changed (hb_duration h2) seen = Ready (Ok (S seen))) ∧
  (let '(seen, w) := HeartBeat_new d in
   watch_borrow w = d ∧ watch_changed w seen = Ready (Err tt)).
Proof.
  cbv zeta. unfold HeartBeatHandle_update, HeartBeat_new, HeartBeat_new_with_handle, HeartBeatHandle_new.
  cbn [hb_duration]. set (w0 := watch_drop_rx (watch_channel d)).
  assert (watch_view w0 = mkWatchView d 0 0 true) as Hw0
    by (unfold w0; by rewrite watch_drop_rx_view, watch_channel_view).
  set (w1 := watch_subscribe w0).
  assert (watch_view w1 = mkWatchView d 0 1 true) as Hw1
    by (unfold w1; by rewrite watch_subscribe_view, Hw0).
  clearbody w1. clearbody w0. rewrite (watch_send_err d' w0) by (by rewrite Hw0).
  rewrite Hw1. cbn [wv_version]. split; [done|]. split.
  - rewrite watch_borrow_view, watch_changed_view, Hw1. split; [done|]. split; [done|].
    destruct (watch_send_ok d' w1) as (w2 & -> & Hw2); [by rewrite Hw1|].
    eexists. split; [done|]. cbn [hb_duration].
    rewrite watch_borrow_view, watch_changed_view, Hw2, Hw1. by split.
  - by rewrite watch_borrow_view, watch_changed_view, watch_drop_tx_view, Hw1.
Qed.
End tasks.

#[local] Existing Instance ref_crates.
#[local] Existing Instance sample_app.

Lemma stream_forwarded_witness :
  normal_queue (forward sample_address [Some 3%N; Some 4%N; None] sample_net).2
    (addr_msg_tx sample_address) =
  [Envelope_new (MsgStreamItem (Item 3%N)); Envelope_new (MsgStreamItem (Item 4%N));
   Envelope_new (MsgStreamItem StreamDone)].
Proof.
  destruct (@stream_forwarded ref_crates sample_app sample_address [3%N; 4%N] [] sample_net) as [H _].
  by destruct (H eq_refl) as [_ [_ ?]].
Defined.


Lemma interaction_roundtrip_witness :
  ∃ rx, (recv_start sample_address 3%N sample_net).1 = Ok rx ∧
    normal_queue (recv_start sample_address 3%N sample_net).2 (addr_msg_tx sample_address) =
      [Envelope_new (MsgInteract 3%N rx)].
Proof.
  pose proof net_wf_empty as Hwf.
  assert (net_wf sample_net) as Hs.
  { intros l Hl. pose proof (Hwf l) as Hl0. unfold sample_net. simpl in *.
    rewrite !lookup_insert_ne by lia. apply Hl0. lia. }
  destruct (@interaction_roundtrip ref_crates sample_app sample_address 3%N sample_net Hs eq_refl) as (rx & Hr & _ & _ & Hq & _).
  by exists rx.
Defined.
