(* ===== verification/NetFrame.v ===== *)
(** * What an operation leaves alone in the network

    Every call of the framework changes the network, but only two of them report
    the end of a child.  [net_ext] is what all the others preserve: the reports in
    the queues, the channels that are open, the ids, and that every envelope still
    has its message. *)
From S2P Require Import Prelude Extern Ids Types Lifecycle Linkage LiteRuntime Handlers ActorRuntime Tasks.

Section frame.
Context `{!Crates, !App, !ActorImpl}.
Implicit Types (n : Net).

(** The reports of a queue, in order. *)
Definition done_of (p : Parcel) : option Id :=
  match parcel_operation p with OpDone i => Some i | _ => None end.
Definition reports n (l : loc) : list Id := omap done_of (instant_queue n l).

(** Every envelope of a queue still has its message. *)
Definition net_loaded n : Prop :=
  (∀ l p, p ∈ instant_queue n l → envelope_loaded (parcel_envelope p) = true) ∧
  (∀ l e, e ∈ normal_queue n l → envelope_loaded e = true).

Record net_ext n n' : Prop := {
  ext_wf : net_wf n → net_wf n';
  ext_next : (net_next n ≤ net_next n')%positive;
  ext_live : ∀ i, Ids.live (net_heap n) i → Ids.live (net_heap n') i;
  ext_open : ∀ l, instant_open n l = true → instant_open n' l = true;
  ext_reports : net_wf n → ∀ l, reports n' l = reports n l;
  ext_loaded : net_wf n → net_loaded n → net_loaded n';
  ext_normal : ∀ l, normal_open n l = true → normal_open n' l = true
}.

#[export] Instance net_ext_refl : Reflexive net_ext.
Proof. by split. Qed.

#[export] Instance net_ext_trans : Transitive net_ext.
Proof.
  intros n1 n2 n3 [A1 A2 A3 A4 A5 A6 A7] [B1 B2 B3 B4 B5 B6 B7]. split; auto; [lia|].
  intros Hwf l. by rewrite B5, A5 by auto.
Qed.

(** Channels of the two kinds of queues unchanged. *)
Lemma net_ext_same n n' :
  net_hp n' = net_hp n → net_lp n' = net_lp n → net_heap n' = net_heap n →
  (net_next n ≤ net_next n')%positive → (net_wf n → net_wf n') → net_ext n n'.
Proof.
  intros Hh Hl Hi Hn Hwf. split; auto.
  - by rewrite Hi.
  - intros l. unfold instant_open. by rewrite Hh.
  - intros _ l. unfold reports, instant_queue. by rewrite Hh.
  - unfold net_loaded, instant_queue, normal_queue. by rewrite Hh, Hl.
  - intros l. unfold normal_open. by rewrite Hl.
Qed.

Lemma net_wf_existing n n' :
  (∀ l, net_hp n !! l = None → net_hp n' !! l = None) →
  (∀ l, net_lp n !! l = None → net_lp n' !! l = None) →
  (∀ l, net_status n !! l = None → net_status n' !! l = None) →
  (∀ l, net_replies n !! l = None → net_replies n' !! l = None) →
  (net_next n ≤ net_next n')%positive → net_wf n → net_wf n'.
Proof.
  intros M1 M2 M3 M4 Hn Hwf l Hl. destruct (Hwf l) as (?&?&?&?); [lia|]. auto.
Qed.

Lemma insert_none {A} (m : gmap loc A) k a l : is_Some (m !! k) → m !! l = None → <[k := a]> m !! l = None.
Proof. intros [x Hk] Hl. rewrite lookup_insert_ne; [done|]. intros ->. congruence. Qed.

(** A channel of one queue replaced by one with the same reports. *)
Lemma net_ext_set_hp n l ch ch' :
  net_hp n !! l = Some ch →
  omap done_of (mv_queue (mpsc_view ch')) = omap done_of (mv_queue (mpsc_view ch)) →
  (mv_rx_open (mpsc_view ch) = true → mv_rx_open (mpsc_view ch') = true) →
  (∀ p, p ∈ mv_queue (mpsc_view ch') → p ∈ mv_queue (mpsc_view ch) ∨
     envelope_loaded (parcel_envelope p) = true) →
  net_ext n (set_hp l ch' n).
Proof.
  intros Hl Hr Ho Hp. split; simpl; try done.
  - apply net_wf_existing; simpl; auto; [|lia]. intros k. apply insert_none. by eexists.
  - intros k. unfold instant_open; simpl. destruct (decide (k = l)) as [->|].
    + rewrite lookup_insert_eq, Hl. done.
    + by rewrite lookup_insert_ne.
  - intros _ k. unfold reports, instant_queue; simpl. destruct (decide (k = l)) as [->|].
    + by rewrite lookup_insert_eq, Hl.
    + by rewrite lookup_insert_ne.
  - intros _ [HL1 HL2]. split; [|done]. intros k p. unfold instant_queue; simpl.
    destruct (decide (k = l)) as [->|].
    + rewrite lookup_insert_eq. intros [Hin|?]%Hp; [|done].
      apply (HL1 l). unfold instant_queue. by rewrite Hl.
    + rewrite lookup_insert_ne by done. apply HL1.
Qed.

Lemma net_ext_set_lp n l ch ch' :
  net_lp n !! l = Some ch →
  (mv_rx_open (mpsc_view ch) = true → mv_rx_open (mpsc_view ch') = true) →
  (∀ e, e ∈ mv_queue (mpsc_view ch') → e ∈ mv_queue (mpsc_view ch) ∨ envelope_loaded e = true) →
  net_ext n (set_lp l ch' n).
Proof.
  intros Hl Hop Hp. split; simpl; try done.
  - apply net_wf_existing; simpl; auto; [|lia]. intros k. apply insert_none. by eexists.
  - intros _ [HL1 HL2]. split; [done|]. intros k e. unfold normal_queue; simpl.
    destruct (decide (k = l)) as [->|].
    + rewrite lookup_insert_eq. intros [Hin|?]%Hp; [|done].
      apply (HL2 l). unfold normal_queue. by rewrite Hl.
    + rewrite lookup_insert_ne by done. apply HL2.
  - intros k. unfold normal_open; simpl. destruct (decide (k = l)) as [->|].
    + rewrite lookup_insert_eq, Hl. done.
    + by rewrite lookup_insert_ne.
Qed.

Lemma net_ext_set_status n l w : is_Some (net_status n !! l) → net_ext n (set_status l w n).
Proof.
  intros Hl. apply net_ext_same; simpl; try done.
  apply net_wf_existing; simpl; auto; [|lia]. intros k. by apply insert_none.
Qed.

Lemma net_ext_set_reply n l o : is_Some (net_replies n !! l) → net_ext n (set_reply l o n).
Proof.
  intros Hl. apply net_ext_same; simpl; try done.
  apply net_wf_existing; simpl; auto; [|lia]. intros k. by apply insert_none.
Qed.

(** ** Sending *)

Lemma normal_priority_send_cases a e n :
  (∃ ch ch', net_lp n !! addr_msg_tx a = Some ch ∧
     mv_tx_alive (mpsc_view ch') = mv_tx_alive (mpsc_view ch) ∧
     mv_queue (mpsc_view ch') = mv_queue (mpsc_view ch) ++ [e] ∧
     normal_priority_send a e n = (Ok tt, set_lp (addr_msg_tx a) ch' n)) ∨
  (normal_open n (addr_msg_tx a) = false ∧ (normal_priority_send a e n).2 = n).
Proof.
  destruct (normal_open n (addr_msg_tx a)) eqn:Ho.
  - left. unfold normal_open, normal_priority_send in *.
    destruct (net_lp n !! addr_msg_tx a) as [ch|]; [|done].
    destruct (mpsc_send_open e ch Ho) as (ch' & Hs & Hv). exists ch, ch'. simpl. rewrite Hs, Hv. done.
  - right. by rewrite normal_priority_send_closed.
Qed.

Lemma high_priority_send_cases a p n :
  (∃ ch ch', net_hp n !! addr_hp_msg_tx a = Some ch ∧
     mv_rx_open (mpsc_view ch) = true ∧ mv_rx_open (mpsc_view ch') = true ∧
     mv_queue (mpsc_view ch') = mv_queue (mpsc_view ch) ++ [p] ∧
     high_priority_send a p n = (Ok tt, set_hp (addr_hp_msg_tx a) ch' n)) ∨
  (instant_open n (addr_hp_msg_tx a) = false ∧ (high_priority_send a p n).2 = n).
Proof.
  destruct (instant_open n (addr_hp_msg_tx a)) eqn:Ho.
  - left. unfold instant_open, high_priority_send in *.
    destruct (net_hp n !! addr_hp_msg_tx a) as [ch|]; [|done].
    destruct (mpsc_send_open p ch Ho) as (ch' & Hs & Hv). exists ch, ch'. simpl. rewrite Hs, Hv. done.
  - right. by rewrite high_priority_send_closed.
Qed.

Lemma high_priority_ext a p n :
  done_of p = None → envelope_loaded (parcel_envelope p) = true →
  net_ext n (high_priority_send a p n).2.
Proof.
  intros Hd Hl. destruct (high_priority_send_cases a p n) as [(ch & ch' & Hc & _ & Ho & Hq & ->)|[_ ->]];
    [|done]. simpl. eapply net_ext_set_hp; [done|..]; rewrite ?Hq; auto.
  - rewrite omap_app. simpl. rewrite Hd. by rewrite app_nil_r.
  - intros q [?| ->%list_elem_of_singleton]%elem_of_app; auto.
Qed.

Lemma normal_priority_ext a e n : envelope_loaded e = true → net_ext n (normal_priority_send a e n).2.
Proof.
  intros Hl. unfold normal_priority_send. destruct (net_lp n !! addr_msg_tx a) as [ch|] eqn:Hc; [|done].
  simpl. destruct (mv_rx_open (mpsc_view ch)) eqn:Ho.
  - destruct (mpsc_send_open e ch Ho) as (ch' & -> & Hv). simpl. eapply net_ext_set_lp; [done|by rewrite Hv|].
    rewrite Hv. simpl. intros x [?| ->%list_elem_of_singleton]%elem_of_app; auto.
  - by rewrite mpsc_send_closed.
Qed.

Lemma act_ext a input n : net_ext n (act a input n).2.
Proof. by apply normal_priority_ext. Qed.
Lemma instant_ext a input n : net_ext n (instant a input n).2.
Proof. by apply high_priority_ext. Qed.
Lemma schedule_ext a input d n : net_ext n (schedule a input d n).2.
Proof. by apply high_priority_ext. Qed.
Lemma send_event_ext a p input n : net_ext n (send_event a (CustomHandlerImpl p (Some input)) n).2.
Proof. destruct p; [by apply normal_priority_ext|by apply high_priority_ext]. Qed.
Lemma interrupt_by_ext a n : net_ext n (interrupt_by a n).2.
Proof. by apply high_priority_ext. Qed.
Lemma terminate_by_ext a n : net_ext n (terminate_by a n).2.
Proof. by apply normal_priority_ext. Qed.
Lemma attach_ext a stream tag n : net_ext n (attach a stream tag n).2.
Proof. by apply high_priority_ext. Qed.

Lemma stop_ext s n : net_ext n (StopSender_stop s n).2.
Proof.
  unfold StopSender_stop. destruct (net_status n !! stop_tx s) as [w|] eqn:E; [|done]. simpl.
  destruct (watch_send Stop w); [|done]. simpl. apply net_ext_set_status. by eexists.
Qed.

Lemma respond_ext l res n : net_ext n (respond l res n).2.
Proof.
  unfold respond. destruct (net_replies n !! l) as [o|] eqn:E; [|done]. simpl.
  destruct (oneshot_send res o) as [|[]]; simpl; apply net_ext_set_reply; by eexists.
Qed.

Lemma drop_responder_ext l n : net_ext n (drop_responder l n).
Proof.
  unfold drop_responder. destruct (net_replies n !! l) as [o|] eqn:E; [|done].
  apply net_ext_set_reply. by eexists.
Qed.

(** ** Allocating *)

Lemma alloc_id_ext n : net_ext n (alloc_id n).2.
Proof.
  unfold alloc_id. pose proof (Ids.unique_preserves (net_heap n)) as Hp.
  destruct (Ids.unique (net_heap n)) as [i h]. simpl in *. split; simpl; try done.
  intros j Hj. by apply Hp.
Qed.

Lemma alloc_hp_ext n : net_ext n (alloc_hp n).2.
Proof.
  simpl. split; simpl; try done; try lia.
  - intros Hwf l Hl. simpl in *. destruct (Hwf l) as (?&?&?&?); [lia|]. by rewrite lookup_insert_ne by lia.
  - intros l. unfold instant_open; simpl. destruct (decide (l = net_next n)) as [->|].
    + by rewrite lookup_insert_eq, mpsc_channel_view.
    + by rewrite lookup_insert_ne.
  - intros Hwf l. unfold reports, instant_queue; simpl. destruct (decide (l = net_next n)) as [->|].
    + destruct (Hwf (net_next n)) as (-> & _); [lia|]. by rewrite lookup_insert_eq, mpsc_channel_view.
    + by rewrite lookup_insert_ne.
  - intros Hwf [HL1 HL2]. split; [|done]. intros l p. unfold instant_queue; simpl.
    destruct (decide (l = net_next n)) as [->|].
    + rewrite lookup_insert_eq, mpsc_channel_view. simpl. by intros ?%not_elem_of_nil.
    + rewrite lookup_insert_ne by done. apply HL1.
Qed.

Lemma alloc_lp_ext n : net_ext n (alloc_lp n).2.
Proof.
  simpl. split; simpl; try done; try lia.
  - intros Hwf l Hl. simpl in *. destruct (Hwf l) as (?&?&?&?); [lia|]. by rewrite lookup_insert_ne by lia.
  - intros Hwf [HL1 HL2]. split; [done|]. intros l p. unfold normal_queue; simpl.
    destruct (decide (l = net_next n)) as [->|].
    + rewrite lookup_insert_eq, mpsc_channel_view. simpl. by intros ?%not_elem_of_nil.
    + rewrite lookup_insert_ne by done. apply HL2.
  - intros l. unfold normal_open; simpl. destruct (decide (l = net_next n)) as [->|].
    + by rewrite lookup_insert_eq, mpsc_channel_view.
    + by rewrite lookup_insert_ne.
Qed.

Lemma alloc_status_ext n : net_ext n (alloc_status n).2.
Proof.
  simpl. apply net_ext_same; simpl; try done; try lia.
  intros Hwf l Hl. simpl in *. destruct (Hwf l) as (?&?&?&?); [lia|]. by rewrite lookup_insert_ne by lia.
Qed.

Lemma alloc_reply_ext n : net_ext n (alloc_reply n).2.
Proof.
  simpl. apply net_ext_same; simpl; try done; try lia.
  intros Hwf l Hl. simpl in *. destruct (Hwf l) as (?&?&?&?); [lia|]. by rewrite lookup_insert_ne by lia.
Qed.

Lemma recv_start_ext a request n : net_ext n (recv_start a request n).2.
Proof.
  unfold recv_start. pose proof (alloc_reply_ext n) as Ha. destruct (alloc_reply n) as [rx n1].
  simpl in Ha. pose proof (act_ext a (MsgInteract request rx) n1) as Hb.
  destruct (act a (MsgInteract request rx) n1) as [[] n2]; simpl in *; by etrans.
Qed.

Lemma AddressPair_new_ext n : net_ext n (AddressPair_new n).2.
Proof.
  unfold AddressPair_new. pose proof (alloc_id_ext n) as Hi. destruct (alloc_id n) as [i n1]. simpl in Hi.
  etrans; [exact Hi|]. etrans; [exact (alloc_hp_ext n1)|]. etrans; [exact (alloc_lp_ext _)|].
  exact (alloc_status_ext _).
Qed.

(** ** Interrupting *)

(** The notifiers a tracker makes: [once] with [Operation::Forward], and [stop]. *)
Definition plain (nt : Notifier) : Prop :=
  match nt with NOnce _ op => op = OpForward | _ => True end.

Lemma interrupt_ext nt n : plain nt → net_ext n (notify_with MsgInterrupt nt n).2.
Proof.
  destruct nt as [|a op|s]; simpl; [done| |intros _; apply stop_ext].
  intros ->. by apply high_priority_ext.
Qed.

Definition records_plain (t : LifetimeTracker Group Notifier) : Prop :=
  ∀ i r, lt_records t !! i = Some r → plain (rec_notifier r).

Lemma interrupt_ids_ext t ids n :
  records_plain t → net_ext n (Tracker.interrupt_ids (lt_records t) ids n).
Proof.
  intros Hp. revert n. induction ids as [|i ids IH]; intros n; cbn [Tracker.interrupt_ids]; [done|].
  etrans; [|apply IH]. destruct (lt_records t !! i) as [r|] eqn:E; [|done].
  apply interrupt_ext. by eapply Hp.
Qed.

Lemma terminate_group_ext o g t n : records_plain t → net_ext n (Tracker.terminate_group o g t n).
Proof.
  intros Hp. unfold Tracker.terminate_group. destruct (lt_stages t !! g); [|done].
  by apply interrupt_ids_ext.
Qed.

Lemma try_terminate_ext og oi t n :
  records_plain t → net_ext n (Tracker.try_terminate_next og oi t n).2.
Proof.
  intros Hp. rewrite Tracker.try_terminate_next_closed. by apply interrupt_ids_ext.
Qed.

Lemma remove_ext og oi i t n : records_plain t → net_ext n (Tracker.remove og oi i t n).2.
Proof.
  intros Hp. rewrite Tracker.remove_forget. destruct (lt_terminating _); [|done].
  apply try_terminate_ext. intros j r. rewrite Tracker.forget_records.
  intros [_ ?]%lookup_delete_Some. by eapply Hp.
Qed.

Lemma insert_record_ext i (r : TRecord Group Notifier) (t : LifetimeTracker Group Notifier) n :
  plain (rec_notifier r) → net_ext n (Tracker.insert_record i r t n).2.
Proof.
  intros Hp. unfold Tracker.insert_record. simpl. destruct (st_terminating _); [|done].
  by apply interrupt_ext.
Qed.
End frame.

(** The calls that touch the network only. *)
Create HintDb net_ext.
#[export] Hint Resolve act_ext instant_ext schedule_ext send_event_ext interrupt_by_ext
  terminate_by_ext attach_ext stop_ext respond_ext drop_responder_ext : net_ext.
