(* ===== verification/Invariant.v ===== *)
(** * The system and its invariant

    The whole system: the actors, the tasks, the network, and the code that runs
    beside them.  A step of the system is a step of one actor, the end of one
    task, a root actor spawned by the outside, one call of the outside, or the
    loss of the last sender of a channel.  The
    invariant of the reachable systems ties every tracker to the children it has
    to wait for. *)
From S2P Require Import Prelude Extern Ids Types Lifecycle Linkage LiteRuntime Handlers ActorRuntime.
From S2P Require Import Tasks NetFrame.

Section supervision.
Context `{!Crates, !App, !ActorImpl}.
Implicit Types (n : Net) (w : World) (rt : ActorRuntime).

(** ** The system *)

(** [sys_pairs]: the address pairs that were made and not used yet.  A pair is
    moved into the actor that is spawned with it, so it is used once. *)
Record Sys : Type := mkSys { sys_world : World; sys_pairs : list AddressPair }.

Definition put rt w : World :=
  mkWorld (w_net w) (<[rt_id rt := rt]> (w_actors w)) (w_tasks w).

(** Calls made by the code that is not a handler: tasks, threads, futures. *)
Inductive outside : Net → Net → Prop :=
| out_act a input n : outside n (act a input n).2
| out_instant a input n : outside n (instant a input n).2
| out_schedule a input deadline n : outside n (schedule a input deadline n).2
| out_send_event a p input n : outside n (send_event a (CustomHandlerImpl p (Some input)) n).2
| out_interrupt a n : outside n (interrupt_by a n).2
| out_terminate a n : outside n (terminate_by a n).2
| out_attach a stream tag n : outside n (attach a stream tag n).2
| out_recv a request n : outside n (recv_start a request n).2
| out_respond l res n : outside n (respond l res n).2
| out_drop l n : outside n (drop_responder l n)
| out_stop s n : outside n (StopSender_stop s n).2.

Definition self rt : Address := ctx_address (rt_context rt).
Definition tracker_of rt : LifetimeTracker Group Notifier := ctx_tracker (rt_context rt).

(** The senders that the state of the framework holds: both queues and the watch
    of the address in the context of an actor that is not over, and of a pair that
    was not used yet; and the stop channels in the tracker of such an actor. *)
Definition end_of (a : Address) (l : loc) : Prop :=
  l = addr_hp_msg_tx a ∨ l = addr_msg_tx a ∨ l = rx_loc (addr_join_rx a).

Inductive held w (pairs : list AddressPair) (l : loc) : Prop :=
| held_actor i rt : w_actors w !! i = Some rt → rt_phase rt ≠ PhDone → end_of (self rt) l → held w pairs l
| held_pair p : p ∈ pairs → end_of (pair_address p) l → held w pairs l
| held_task i rt c r s : w_actors w !! i = Some rt → rt_phase rt ≠ PhDone →
    lt_records (tracker_of rt) !! c = Some r → rec_notifier r = NStop s →
    l = stop_tx (task_stop_sender s) → held w pairs l.

(** The last of the other senders of a channel goes, with the clones of an address, of
    a stop sender or of a tracker: nothing is left to send on what nobody holds. *)
Inductive gives_up (kept : loc → Prop) : Net → Net → Prop :=
| up_hp l ch n : ¬ kept l → net_hp n !! l = Some ch → gives_up kept n (set_hp l (mpsc_drop_tx ch) n)
| up_lp l ch n : ¬ kept l → net_lp n !! l = Some ch → gives_up kept n (set_lp l (mpsc_drop_tx ch) n)
| up_status l x n : ¬ kept l → net_status n !! l = Some x →
    gives_up kept n (set_status l (watch_drop_tx x) n).

(** What a call does with the pairs. *)
Inductive moves w : Cmd → list AddressPair → list AddressPair → Prop :=
| moves_new pairs : moves w CmdAddressPair pairs ((AddressPair_new (w_net w)).1 :: pairs)
| moves_use actor p group l1 l2 :
    moves w (CmdSpawnActorWithAddr actor p group) (l1 ++ p :: l2) (l1 ++ l2)
| moves_other cmd pairs :
    match cmd with CmdAddressPair | CmdSpawnActorWithAddr _ _ _ => False | _ => True end →
    moves w cmd pairs pairs.

Definition phase_moves w (p : Phase) (pairs pairs' : list AddressPair) : Prop :=
  match p with
  | PhHandle _ (CDo cmd _) => moves w cmd pairs pairs'
  | _ => pairs' = pairs
  end.

Inductive sys_step : Sys → Sys → Prop :=
| step_actor o now i rt rt' w w' pairs pairs' :
    w_actors w !! i = Some rt → actor_step o now rt w = Some (rt', w') →
    phase_moves w (rt_phase rt) pairs pairs' →
    sys_step (mkSys w pairs) (mkSys (put rt' w') pairs')
| step_task_end i lr res w pairs :
    w_tasks w !! i = Some lr →
    sys_step (mkSys w pairs)
      (mkSys (mkWorld (lite_entrypoint lr res (w_net w)) (w_actors w) (delete i (w_tasks w))) pairs)
| step_spawn actor w pairs :
    sys_step (mkSys w pairs) (mkSys (System_spawn actor w).2 pairs)
| step_outside n' w pairs :
    outside (w_net w) n' → sys_step (mkSys w pairs) (mkSys (with_net n' w) pairs)
| step_give_up n' w pairs :
    gives_up (held w pairs) (w_net w) n' → sys_step (mkSys w pairs) (mkSys (with_net n' w) pairs).

Definition sys_init : Sys := mkSys (mkWorld net_empty ∅ ∅) [].
Definition sys_reachable : Sys → Prop := rtc sys_step sys_init.

(** ** Children *)

(** [c] runs as a child of the actor with address [a]. *)
Definition live_child w (a : Address) (c : Id) : Prop :=
  (∃ rt, w_actors w !! c = Some rt ∧ rt_done_notifier rt = NOnce a (OpDone c) ∧ rt_phase rt ≠ PhDone) ∨
  (∃ lr, w_tasks w !! c = Some lr ∧ lr_done_notifier lr = NOnce a (OpDone c)).

Definition queue_of rt : loc := addr_hp_msg_tx (self rt).
Definition tracked rt (c : Id) : Prop := is_Some (lt_records (tracker_of rt) !! c).

(** ** The invariant *)

(** What one call leaves open until the next one: a child that runs and is not
    tracked yet, or one that has ended and has not been reported yet. *)
Inductive Ghost : Type :=
| GNone
| GPending (parent child : Id)
| GLost (notifier : Notifier) (child : Id).

Definition pair_id (p : AddressPair) : Id := addr_id (pair_address p).
Definition pair_hp (p : AddressPair) : loc := addr_hp_msg_tx (pair_address p).

Definition ended w (pairs : list AddressPair) (c : Id) : Prop :=
  Ids.live (net_heap (w_net w)) c ∧ w_tasks w !! c = None ∧
  (∀ rt, w_actors w !! c = Some rt → rt_phase rt = PhDone) ∧ c ∉ pair_id <$> pairs.

(** Who reads the queue at a location. *)
Definition holder w (pairs : list AddressPair) (c : Id) (l : loc) : Prop :=
  (∃ rt, w_actors w !! c = Some rt ∧ queue_of rt = l) ∨
  (∃ p, p ∈ pairs ∧ pair_id p = c ∧ pair_hp p = l).

(** The notifier of a child: nobody, or an actor of the system. *)
Definition notifier_ok w (c : Id) (nt : Notifier) : Prop :=
  nt = NIgnore ∨ ∃ j prt, nt = NOnce (self prt) (OpDone c) ∧ w_actors w !! j = Some prt.

(** A terminating actor that is alive has a terminating group with a child. *)
Definition waits (c : Context_) : Prop :=
  lt_terminating (ctx_tracker c) = true → ctx_alive c = true →
  ∃ g st, lt_stages (ctx_tracker c) !! g = Some st ∧ st_terminating st = true ∧ st_ids st ≠ ∅.

Record local_ok rt : Prop := {
  local_waits : waits (rt_context rt);
  local_wf : Tracker.wf (tracker_of rt);
  local_plain : records_plain (tracker_of rt);
  local_awake : rt_phase rt = PhStart →
    ∃ e, rt_awake_envelope rt = Some e ∧ envelope_loaded e = true;
  local_scheduled : Forall (λ x, envelope_loaded x.2 = true) (dq_view (rt_scheduled rt));
  local_no_panic : ∀ m, rt_phase rt ≠ PhPanic m
}.

(** A joint has the other ends of its address; the channels of a pair are made one
    after the other. *)
Record wired (j : AddressJoint) (a : Address) : Prop := {
  wi_instant : joint_hp_msg_rx j = addr_hp_msg_tx a;
  wi_normal : joint_msg_rx j = addr_msg_tx a;
  wi_join : joint_join_tx j = rx_loc (addr_join_rx a);
  wi_next : addr_msg_tx a = Pos.succ (addr_hp_msg_tx a)
}.

Lemma AddressPair_new_wired n : let p := (AddressPair_new n).1 in wired (pair_joint p) (pair_address p).
Proof. unfold AddressPair_new. by destruct (alloc_id n). Qed.

Record actor_ok (g : Ghost) w (i : Id) rt : Prop := {
  ok_id : rt_id rt = i;
  ok_live : Ids.live (net_heap (w_net w)) i;
  ok_joint : joint_hp_msg_rx (rt_joint rt) = queue_of rt;
  ok_bound : (queue_of rt < net_next (w_net w))%positive;
  ok_notifier : notifier_ok w i (rt_done_notifier rt);
  ok_open : rt_phase rt ≠ PhDone → instant_open (w_net w) (queue_of rt) = true;
  ok_exact : rt_phase rt ≠ PhDone → ∀ c,
    tracked rt c ∨ g = GPending i c ↔
    live_child w (self rt) c ∨ c ∈ reports (w_net w) (queue_of rt) ∨
    g = GLost (NOnce (self rt) (OpDone c)) c;
  ok_local : local_ok rt;
  ok_wired : wired (rt_joint rt) (self rt);
  ok_normal : rt_phase rt ≠ PhDone → normal_open (w_net w) (addr_msg_tx (self rt)) = true
}.

Record task_ok w (i : Id) (lr : LiteRuntime) : Prop := {
  tk_id : lr_id lr = i;
  tk_live : Ids.live (net_heap (w_net w)) i;
  tk_actor : w_actors w !! i = None;
  tk_notifier : notifier_ok w i (lr_done_notifier lr)
}.

Record pair_ok w (p : AddressPair) : Prop := {
  pr_live : Ids.live (net_heap (w_net w)) (pair_id p);
  pr_actor : w_actors w !! pair_id p = None;
  pr_task : w_tasks w !! pair_id p = None;
  pr_joint : joint_hp_msg_rx (pair_joint p) = pair_hp p;
  pr_open : instant_open (w_net w) (pair_hp p) = true;
  pr_reports : reports (w_net w) (pair_hp p) = [];
  pr_wired : wired (pair_joint p) (pair_address p);
  pr_normal : normal_open (w_net w) (addr_msg_tx (pair_address p)) = true
}.

Record sys_inv (g : Ghost) w (pairs : list AddressPair) : Prop := {
  inv_net : net_wf (w_net w);
  inv_loaded : net_loaded (w_net w);
  inv_actor : ∀ i rt, w_actors w !! i = Some rt → actor_ok g w i rt;
  inv_task : ∀ i lr, w_tasks w !! i = Some lr → task_ok w i lr;
  inv_pair : ∀ p, p ∈ pairs → pair_ok w p;
  inv_pairs : NoDup (pair_id <$> pairs);
  inv_holders : ∀ c d l, holder w pairs c l → holder w pairs d l → c = d;
  inv_ended : ∀ l c, c ∈ reports (w_net w) l → ended w pairs c;
  inv_nodup : ∀ l, NoDup (reports (w_net w) l)
}.

Lemma inv_init : sys_inv GNone (sys_world sys_init) (sys_pairs sys_init).
Proof.
  split; simpl.
  - apply net_wf_empty.
  - split; intros l p; unfold instant_queue, normal_queue; simpl; rewrite lookup_empty;
      by intros ?%not_elem_of_nil.
  - intros i rt. by rewrite lookup_empty.
  - intros i lr. by rewrite lookup_empty.
  - intros p ?%not_elem_of_nil. done.
  - constructor.
  - intros c d l [(rt & Hc & _)|(p & Hp & _)]; simpl in *; [by rewrite lookup_empty in Hc|].
    by apply not_elem_of_nil in Hp.
  - intros l c. unfold reports, instant_queue; simpl. rewrite lookup_empty. by intros ?%not_elem_of_nil.
  - intros l. unfold reports, instant_queue; simpl. rewrite lookup_empty. constructor.
Qed.

Lemma ok_exact_none w i rt c :
  actor_ok GNone w i rt → rt_phase rt ≠ PhDone →
  tracked rt c ↔ live_child w (self rt) c ∨ c ∈ reports (w_net w) (queue_of rt).
Proof.
  intros Hok Hd. pose proof (ok_exact _ _ _ _ Hok Hd c) as [H1' H2']. split.
  - intros Ht. destruct H1' as [?|[?|[=]]]; auto.
  - intros Hl. destruct H2' as [?|[=]]; [|done]. tauto.
Qed.

(** ** Preservation *)

(** A call that only changes the network. *)
Lemma inv_net_ext g w pairs n' :
  sys_inv g w pairs → net_ext (w_net w) n' → sys_inv g (with_net n' w) pairs.
Proof.
  intros [A1 A2 A3 A4 A5 A6 A7 A8 A9] [B1 B2 B3 B4 B5 B6]. specialize (B5 A1).
  split; simpl; auto.
  - intros i rt Hi. destruct (A3 i rt Hi) as [C1 C2 C3 Cb C4 C5 C6 C7]. split; simpl; auto; [lia|].
    intros Hp c. rewrite B5. by apply C6.
  - intros i lr Hi. destruct (A4 i lr Hi) as [C1 C2 C3 C4]. split; simpl; auto.
  - intros p Hp. destruct (A5 p Hp) as [C1 C2 C3 C4 C5 C6]. split; simpl; auto. by rewrite B5.
  - intros l c. rewrite B5. intros (D1 & D2 & D3 & D4)%A8. repeat split; simpl; auto.
  - intros l. by rewrite B5.
Qed.

(** A step that changes one actor only, without changing its children. *)
Record same_actor rt rt' : Prop := {
  sm_id : rt_id rt' = rt_id rt;
  sm_self : self rt' = self rt;
  sm_joint : rt_joint rt' = rt_joint rt;
  sm_notifier : rt_done_notifier rt' = rt_done_notifier rt;
  sm_done : rt_phase rt' = PhDone ↔ rt_phase rt = PhDone
}.

Lemma lookup_put w i rt rt' j :
  w_actors w !! i = Some rt → rt_id rt' = i →
  w_actors (put rt' w) !! j = if decide (j = i) then Some rt' else w_actors w !! j.
Proof.
  intros Hi Hid. simpl. rewrite Hid. case_decide; subst; [by rewrite lookup_insert_eq|].
  by rewrite lookup_insert_ne.
Qed.

Lemma live_child_put w i rt rt' a c :
  w_actors w !! i = Some rt → rt_id rt = i → same_actor rt rt' →
  live_child (put rt' w) a c ↔ live_child w a c.
Proof.
  intros Hi Hid [E1 E2 E3 E4 E5]. unfold live_child.
  setoid_rewrite (lookup_put w i rt rt'); [|done|congruence]. simpl.
  destruct (decide (c = i)) as [->|]; [|done].
  split; (intros [(rt1 & Hr & Hn & Hp)|?]; [left|by right]).
  - injection Hr as <-. exists rt. rewrite <-E4, <-E5. done.
  - rewrite Hi in Hr. injection Hr as <-. exists rt'. rewrite E4, E5. done.
Qed.

Lemma notifier_ok_put w i rt rt' c nt :
  w_actors w !! i = Some rt → rt_id rt = i → same_actor rt rt' →
  notifier_ok w c nt → notifier_ok (put rt' w) c nt.
Proof.
  intros Hi Hid [E1 E2 E3 E4 E5] [->|(j & prt & -> & Hj)]; [by left|right].
  destruct (decide (j = i)) as [->|].
  - rewrite Hi in Hj. injection Hj as <-. exists i, rt'. rewrite E2. split; [done|].
    simpl. rewrite E1, Hid. apply lookup_insert_eq.
  - exists j, prt. split; [done|]. simpl. rewrite E1, Hid. by rewrite lookup_insert_ne.
Qed.

Lemma holder_put w pairs i rt rt' c l :
  w_actors w !! i = Some rt → rt_id rt = i → same_actor rt rt' →
  holder (put rt' w) pairs c l ↔ holder w pairs c l.
Proof.
  intros Hi Hid [E1 E2 E3 E4 E5]. unfold holder.
  setoid_rewrite (lookup_put w i rt rt'); [|done|congruence].
  destruct (decide (c = i)) as [->|]; [|done]. unfold queue_of.
  split; (intros [(rt1 & Hr & Hq)|?]; [left|by right]).
  - injection Hr as <-. exists rt. by rewrite <-E2.
  - rewrite Hi in Hr. injection Hr as <-. exists rt'. by rewrite E2.
Qed.

Lemma inv_put_ghost g g' w pairs i rt rt' :
  sys_inv g w pairs → w_actors w !! i = Some rt → same_actor rt rt' → local_ok rt' →
  (∀ c, tracked rt' c ∨ g' = GPending i c ↔ tracked rt c ∨ g = GPending i c) →
  (∀ j c, j ≠ i → g' = GPending j c ↔ g = GPending j c) →
  (∀ nt c, g' = GLost nt c ↔ g = GLost nt c) →
  sys_inv g' (put rt' w) pairs.
Proof.
  intros [A1 A2 A3 A4 A5 A6 A7 A8 A9] Hi Hs Hl Ht Hp Hlost.
  destruct (A3 i rt Hi) as [C1 C2 C3 Cb C4 C5 C6 C7]. pose proof Hs as [E1 E2 E3 E4 E5].
  assert (∀ c, ended w pairs c → ended (put rt' w) pairs c) as Hended.
  { intros c (D1 & D2 & D3 & D4). repeat split; auto.
    rewrite (lookup_put w i rt rt') by (done || congruence). case_decide as Hc; [|auto].
    intros rt1 [= <-]. subst c. apply E5, (D3 _ Hi). }
  split; auto.
  - intros j rtj. rewrite (lookup_put w i rt rt') by (done || congruence).
    case_decide as Hj.
    + intros [= <-]. subst j. split; try congruence; auto.
      * unfold queue_of. rewrite E2, E3. done.
      * unfold queue_of. rewrite E2. done.
      * rewrite E4. by apply (notifier_ok_put w i rt rt').
      * unfold queue_of. rewrite E2, E5. done.
      * rewrite E5. intros Hd c. rewrite Ht, (C6 Hd c), (live_child_put w i rt rt'), Hlost by done.
        unfold queue_of. by rewrite E2.
      * rewrite E2, E5. auto.
    + intros Hj'. destruct (A3 j rtj Hj') as [F1 F2 F3 Fb F4 F5 F6 F7]. split; auto.
      * by apply (notifier_ok_put w i rt rt').
      * intros Hd c. rewrite Hp, (F6 Hd c), (live_child_put w i rt rt'), Hlost by done. done.
  - intros j lr Hj. destruct (A4 j lr Hj) as [F1 F2 F3 F4]. split; auto.
    + rewrite (lookup_put w i rt rt') by (done || congruence). case_decide; congruence.
    + by apply (notifier_ok_put w i rt rt').
  - intros p Hpp. destruct (A5 p Hpp) as [F1 F2 F3 F4 F5 F6]. split; auto.
    rewrite (lookup_put w i rt rt') by (done || congruence). case_decide; congruence.
  - intros c d l. rewrite !(holder_put w pairs i rt rt') by done. apply A7.
  - intros l c Hc. apply Hended. by apply (A8 l).
Qed.

Lemma inv_put g w pairs i rt rt' :
  sys_inv g w pairs → w_actors w !! i = Some rt → same_actor rt rt' → local_ok rt' →
  (∀ c, tracked rt' c ↔ tracked rt c) → sys_inv g (put rt' w) pairs.
Proof.
  intros Hinv Hi Hs Hl Ht. eapply inv_put_ghost; eauto; naive_solver.
Qed.

(** The pending child is tracked. *)
Lemma inv_put_tracked w pairs i d rt rt' :
  sys_inv (GPending i d) w pairs → w_actors w !! i = Some rt → same_actor rt rt' → local_ok rt' →
  (∀ c, tracked rt' c ↔ tracked rt c ∨ c = d) → sys_inv GNone (put rt' w) pairs.
Proof.
  intros Hinv Hi Hs Hl Ht. eapply inv_put_ghost; eauto; [|naive_solver..].
  intros c. rewrite Ht. split; [|naive_solver]. intros [[?| ->]|[=]]; auto.
Qed.

(** A new pair. *)
Lemma inv_new_pair g w pairs :
  sys_inv g w pairs →
  sys_inv g (with_net (AddressPair_new (w_net w)).2 w) ((AddressPair_new (w_net w)).1 :: pairs).
Proof.
  intros Hinv. pose proof (AddressPair_new_ext (w_net w)) as Hext. pose proof (AddressPair_new_wired (w_net w)) as Hw.
  pose proof (inv_net_ext g w pairs _ Hinv Hext) as Hinv'.
  pose proof (AddressPair_new_spec (w_net w) (inv_net _ _ _ Hinv)) as Hspec.
  destruct (AddressPair_new (w_net w)) as [p n']. cbn [fst snd] in *.
  destruct Hspec as ((J1 & _ & _) & (Q1 & Q2) & (_ & Hno) & _ & (L1 & L2 & _) & _ & _ & L3 & L4).
  pose proof Hinv as [A1 A2 A3 A4 A5 A6 A7 A8 A9]. destruct Hinv' as [B1 B2 B3 B4 B5 B6 B7 B8 B9].
  fold (pair_id p) in L1, L3. fold (pair_hp p) in J1, Q1, Q2, L2, L4.
  assert (w_actors w !! pair_id p = None) as Hna.
  { apply eq_None_not_Some. intros [rt Hrt]. by apply L1, (A3 _ _ Hrt). }
  assert (w_tasks w !! pair_id p = None) as Hnt.
  { apply eq_None_not_Some. intros [lr Hlr]. by apply L1, (A4 _ _ Hlr). }
  assert (∀ q, q ∈ pairs → (pair_hp q < pair_hp p)%positive) as Hpb.
  { intros q Hq. destruct (A5 q Hq) as [_ _ _ _ Ho _].
    destruct (decide (pair_hp q < net_next (w_net w))%positive); [lia|].
    destruct (A1 (pair_hp q)) as (Hnone & _); [lia|].
    unfold instant_open in Ho. by rewrite Hnone in Ho. }
  assert (∀ c l, holder (with_net n' w) pairs c l → (l < pair_hp p)%positive) as Hhb.
  { intros c l [(rt & Hrt & <-)|(q & Hq & _ & <-)]; [|auto].
    destruct (A3 c rt Hrt) as [_ _ _ Hb _ _ _ _]. lia. }
  split; auto.
  - intros q [->|Hq]%elem_of_cons; [|auto]. split; auto.
    unfold reports; simpl. by rewrite Q1.
  - rewrite fmap_cons. constructor; [|done]. intros (q & Hq & Hin)%list_elem_of_fmap.
    apply L1. rewrite Hq. apply (A5 q Hin).
  - intros c d l Hc Hd.
    assert (∀ c, holder (with_net n' w) (p :: pairs) c l →
      holder (with_net n' w) pairs c l ∨ c = pair_id p ∧ l = pair_hp p) as Hcases.
    { intros c' [?|(q & [->|Hq]%elem_of_cons & ? & ?)]; [left; by left|by right|].
      left; right; eauto. }
    apply Hcases in Hc as [Hc|[-> ->]]; apply Hcases in Hd as [Hd|[-> Hl]]; auto.
    + by eapply B7.
    + apply Hhb in Hc. subst l. lia.
    + apply Hhb in Hd. lia.
  - intros l c Hc. destruct (B8 l c Hc) as (D1 & D2 & D3 & D4). repeat split; auto.
    rewrite fmap_cons. intros [Heq|?]%elem_of_cons; [|done]. subst c.
    rewrite (ext_reports _ _ Hext A1) in Hc. by apply A8 in Hc as [? _].
Qed.

(** ** Spawning *)

(** A pair becomes an actor; its supervisor, if it has one, does not track it yet. *)
Definition spawn_ghost (sup : option (Id * ActorRuntime)) (p : AddressPair) : Ghost :=
  match sup with Some (i, _) => GPending i (pair_id p) | None => GNone end.

(** The runtime that [spawn] makes, and the world with it. *)
Definition spawned_runtime (p : AddressPair) (actor : Actor) (sup : option Address) : ActorRuntime :=
  mkRuntime (pair_id p) actor (mkContext true (Address_clone (pair_address p)) Tracker.new)
    (Some (Envelope_instant MsgAwake))
    match sup with None => NIgnore | Some a => NOnce a (OpDone (pair_id p)) end
    (pair_joint p) dq_new PhStart.

Section spawned.
Context (w : World) (l1 l2 : list AddressPair) (p : AddressPair) (actor : Actor).
Context (sup : option (Id * ActorRuntime)).
Hypothesis Hinv : sys_inv GNone w (l1 ++ p :: l2).
Hypothesis Hsup : ∀ i rt, sup = Some (i, rt) → w_actors w !! i = Some rt.

Abbreviation crt := (spawned_runtime p actor (self ∘ snd <$> sup)).
Abbreviation w1 := (mkWorld (w_net w) (<[pair_id p := crt]> (w_actors w)) (w_tasks w)).

Lemma spawned_pair : pair_ok w p.
Proof. apply (inv_pair _ _ _ Hinv). clear. set_solver. Qed.

Lemma spawned_new j rtj : w_actors w !! j = Some rtj → pair_id p ≠ j.
Proof. intros Hj <-. pose proof (pr_actor _ _ spawned_pair). congruence. Qed.

Lemma spawned_self : self crt = pair_address p.
Proof. unfold self; simpl; by destruct (pair_address p). Qed.

Lemma spawned_foreign j rtj : w_actors w !! j = Some rtj → self rtj ≠ pair_address p.
Proof.
  intros Hj Heq. apply (spawned_new j rtj Hj). symmetry.
  apply (inv_holders _ _ _ Hinv j (pair_id p) (pair_hp p)); [left|right; clear; set_solver].
  exists rtj. split; [done|]. unfold queue_of. by rewrite Heq.
Qed.

Lemma spawned_live a c :
  live_child w1 a c ↔ live_child w a c ∨ c = pair_id p ∧ ∃ s, sup = Some s ∧ a = self s.2.
Proof.
  destruct spawned_pair as [_ P2 P3 _ _ _].
  unfold live_child; simpl. destruct (decide (c = pair_id p)) as [->|Hne].
  - rewrite lookup_insert_eq, P2, P3. split.
    + intros [(? & [= <-] & Hn & _)|(? & ? & _)]; [|done]. right. split; [done|].
      simpl in Hn. destruct sup as [s|]; simpl in Hn; [|done]. injection Hn as <-. eauto.
    + intros [[(? & ? & _)|(? & ? & _)]|(_ & s & Hs & ->)]; [done..|]. left. exists crt.
      split; [done|]. simpl. by rewrite Hs.
  - rewrite lookup_insert_ne by done. naive_solver.
Qed.

Lemma spawned_notifier c nt : notifier_ok w c nt → notifier_ok w1 c nt.
Proof.
  intros [->|(j & prt & -> & Hj)]; [by left|right]. exists j, prt. split; [done|]. simpl.
  rewrite lookup_insert_ne; [done|]. by eapply spawned_new.
Qed.

(** Nobody was told to report to the new address. *)
Lemma spawned_unknown c : ¬ live_child w (pair_address p) c.
Proof.
  assert (∀ nt, notifier_ok w c nt → nt ≠ NOnce (pair_address p) (OpDone c)) as Hno.
  { intros nt [->|(j & prt & -> & Hj)]; [done|]. intros [= Heq]. by apply (spawned_foreign j prt). }
  intros [(r & Hr & Hn & _)|(r & Hr & Hn)].
  - by destruct (Hno (rt_done_notifier r) (ok_notifier _ _ _ _ (inv_actor _ _ _ Hinv c r Hr))).
  - by destruct (Hno (lr_done_notifier r) (tk_notifier _ _ _ (inv_task _ _ _ Hinv c r Hr))).
Qed.

Lemma spawned_actor : actor_ok (spawn_ghost sup p) w1 (pair_id p) crt.
Proof.
  destruct spawned_pair as [P1 P2 P3 P4 P5 P6].
  split; auto.
  - change (queue_of crt) with (pair_hp p).
    destruct (decide (pair_hp p < net_next (w_net w))%positive); [done|].
    destruct (inv_net _ _ _ Hinv (pair_hp p)) as (Hnone & _); [lia|]. unfold instant_open in P5.
    by rewrite Hnone in P5.
  - simpl. destruct sup as [[i rt]|] eqn:E; simpl; [right|by left]. exists i, rt. split; [done|].
    simpl. rewrite lookup_insert_ne; [by apply Hsup|]. eapply spawned_new. by apply Hsup.
  - intros _ c. rewrite spawned_live, spawned_self. unfold tracked, tracker_of. simpl.
    change (queue_of crt) with (pair_hp p). rewrite P6, lookup_empty. split.
    + intros [[? [=]]|Hg]. unfold spawn_ghost in Hg. destruct sup as [[i rt]|]; [|done].
      injection Hg as -> _. specialize (Hsup _ _ eq_refl). congruence.
    + intros [[Hl|(-> & [i rt] & Hs & Heq)]|[Hn|Hn]]; exfalso.
      * by apply spawned_unknown in Hl.
      * by apply (spawned_foreign i rt (Hsup _ _ Hs)).
      * by apply not_elem_of_nil in Hn.
      * unfold spawn_ghost in Hn. by destruct sup as [[]|].
  - split; simpl; auto; try done.
    + intros _. by eexists.
    + rewrite dq_new_view. constructor.
  - by destruct (pr_wired _ _ spawned_pair); split.
Qed.

Lemma spawned_other j rtj :
  w_actors w !! j = Some rtj → actor_ok (spawn_ghost sup p) w1 j rtj.
Proof.
  intros Hrt. pose proof (inv_actor _ _ _ Hinv j rtj Hrt) as Hok.
  destruct Hok as [F1 F2 F3 Fb F4 F5 F6 F7] eqn:Eok. clear Eok. split; auto using spawned_notifier. simpl.
  intros Hd c. rewrite spawned_live.
  pose proof (ok_exact_none w j rtj c (inv_actor _ _ _ Hinv j rtj Hrt) Hd) as Hx. unfold spawn_ghost.
  destruct sup as [[i rt]|].
  - specialize (Hsup i rt eq_refl). destruct (decide (i = j)) as [->|Hij].
    + assert (rtj = rt) as -> by congruence. split.
      * intros [[?|?]%Hx|[= <-]]; [auto..|]. left; right. split; [done|]. by exists (j, rt).
      * intros [[Hl|(-> & _)]|[Hr|[=]]]; [left; apply Hx; auto|by right|left; apply Hx; auto].
    + assert (self rtj ≠ self rt) as Hself'.
      { intros Heq. apply Hij, (inv_holders _ _ _ Hinv i j (queue_of rt)); left; [by exists rt|exists rtj].
        split; [done|]. unfold queue_of. by rewrite Heq. }
      split.
      * intros [[?|?]%Hx|Hg]; [auto..|congruence].
      * intros [[Hl|(_ & s' & [= <-] & Heq)]|[Hr|[=]]]; [left; apply Hx; auto|done|left; apply Hx; auto].
  - split.
    + intros [[?|?]%Hx|[=]]; auto.
    + intros [[Hl|(_ & s' & [=] & _)]|[Hr|[=]]]; left; apply Hx; auto.
Qed.

Lemma spawned_holder c l : holder w1 (l1 ++ l2) c l → holder w (l1 ++ p :: l2) c l.
Proof.
  intros [(r & Hr & Hqr)|(q & Hqq & ? & ?)]; [|right; exists q; set_solver].
  simpl in Hr. destruct (decide (c = pair_id p)) as [->|].
  - rewrite lookup_insert_eq in Hr. injection Hr as <-. right. exists p. set_solver.
  - rewrite lookup_insert_ne in Hr by done. left. eauto.
Qed.

Lemma spawned_inv : sys_inv (spawn_ghost sup p) w1 (l1 ++ l2).
Proof.
  pose proof Hinv as [A1 A2 _ A4 A5 A6 A7 A8 A9].
  assert (pair_id p ∉ pair_id <$> l1 ++ l2 ∧ NoDup (pair_id <$> l1 ++ l2)) as [Hp Hnd].
  { rewrite Permutation_app_comm in A6; simpl in A6. apply NoDup_cons in A6.
    by rewrite (Permutation_app_comm l1 l2). }
  split; auto.
  - intros j rtj; simpl. destruct (decide (j = pair_id p)) as [->|Hj].
    + rewrite lookup_insert_eq. intros [= <-]. apply spawned_actor.
    + rewrite lookup_insert_ne by done. apply spawned_other.
  - intros j lr Hj; simpl in Hj. destruct (A4 j lr Hj) as [F1 F2 F3 F4]. split; auto using spawned_notifier.
    simpl. rewrite lookup_insert_ne; [done|]. intros <-. pose proof (pr_task _ _ spawned_pair). congruence.
  - intros q Hqq. destruct (A5 q) as [F1 F2 F3 F4 F5 F6]; [set_solver|]. split; auto. simpl.
    rewrite lookup_insert_ne; [done|]. intros Heq. apply Hp. rewrite Heq. by apply list_elem_of_fmap_2.
  - intros c d l Hc%spawned_holder Hd%spawned_holder. by apply (A7 c d l).
  - intros l c Hc. destruct (A8 l c Hc) as (D1 & D2 & D3 & D4). rewrite fmap_app in D4. simpl in D4.
    repeat split; auto; simpl.
    + rewrite lookup_insert_ne; [done|]. intros <-. set_solver.
    + rewrite fmap_app. set_solver.
Qed.
End spawned.

Lemma inv_spawn w l1 l2 p actor sup :
  sys_inv GNone w (l1 ++ p :: l2) →
  (∀ i rt, sup = Some (i, rt) → w_actors w !! i = Some rt) →
  sys_inv (spawn_ghost sup p) (spawn actor (self ∘ snd <$> sup) p w) (l1 ++ l2).
Proof. apply spawned_inv. Qed.

Lemma self_inj g w pairs i j rt rtj :
  sys_inv g w pairs → w_actors w !! i = Some rt → w_actors w !! j = Some rtj →
  self rt = self rtj → i = j.
Proof.
  intros Hinv Hi Hj Heq. apply (inv_holders _ _ _ Hinv i j (queue_of rt)); left; [by exists rt|].
  exists rtj. split; [done|]. unfold queue_of. by rewrite Heq.
Qed.

Lemma inv_add_task w pairs i rt lr :
  sys_inv GNone w pairs → w_actors w !! i = Some rt →
  Ids.live (net_heap (w_net w)) (lr_id lr) → w_actors w !! lr_id lr = None →
  w_tasks w !! lr_id lr = None → lr_id lr ∉ pair_id <$> pairs →
  (∀ l, lr_id lr ∉ reports (w_net w) l) →
  lr_done_notifier lr = NOnce (self rt) (OpDone (lr_id lr)) →
  sys_inv (GPending i (lr_id lr)) (mkWorld (w_net w) (w_actors w) (<[lr_id lr := lr]> (w_tasks w))) pairs.
Proof.
  intros Hinv Hi Hl Ha Ht Hp Hr Hn. set (c0 := lr_id lr) in *.
  set (w' := mkWorld _ _ _).
  pose proof Hinv as [A1 A2 A3 A4 A5 A6 A7 A8 A9].
  assert (∀ a c, live_child w' a c ↔ live_child w a c ∨ c = c0 ∧ a = self rt) as Hlive.
  { intros a c. unfold live_child; simpl. destruct (decide (c = c0)) as [->|Hne].
    - rewrite lookup_insert_eq, Ha, Ht. split; [|naive_solver].
      intros [(? & ? & _)|(? & [= <-] & Hn')]; [done|]. rewrite Hn in Hn'. right. naive_solver.
    - rewrite lookup_insert_ne by done. naive_solver. }
  split; auto.
  - intros j rtj Hj. pose proof (A3 j rtj Hj) as Hok. destruct Hok as [F1 F2 F3 Fb F4 F5 F6 F7].
    split; auto. intros Hd c. rewrite Hlive.
    pose proof (ok_exact_none w j rtj c (A3 j rtj Hj) Hd) as Hx. split.
    + intros [[?|?]%Hx|Hg]; [auto..|]. injection Hg as -> ->. left; right. split; [done|].
      simpl in Hj. congruence.
    + intros [[?|(-> & Hs)]|[?|[=]]]; [left; apply Hx; auto| |left; apply Hx; auto].
      right. by rewrite (self_inj _ _ _ j i rtj rt Hinv Hj Hi Hs).
  - intros j lr'; simpl. destruct (decide (j = c0)) as [->|Hj].
    + rewrite lookup_insert_eq. intros [= <-]. split; auto. right. exists i, rt. auto.
    + rewrite lookup_insert_ne by done. intros Hlr. destruct (A4 j lr' Hlr) as [F1 F2 F3 F4]. split; auto.
  - intros p Hpp. destruct (A5 p Hpp) as [F1 F2 F3 F4 F5 F6]. split; auto. simpl.
    rewrite lookup_insert_ne; [done|]. intros Heq. apply Hp. rewrite Heq. by apply list_elem_of_fmap_2.
  - intros l c Hc. destruct (A8 l c Hc) as (D1 & D2 & D3 & D4). repeat split; auto. simpl.
    rewrite lookup_insert_ne; [done|]. intros <-. by apply (Hr l).
Qed.

Lemma inv_spawn_task w pairs i rt task tag :
  sys_inv GNone w pairs → w_actors w !! i = Some rt →
  let '((lr, stopper), n) := lite_spawn task tag (Some (self rt)) (w_net w) in
  task_id stopper = lr_id lr ∧
  sys_inv (GPending i (lr_id lr)) (mkWorld n (w_actors w) (<[lr_id lr := lr]> (w_tasks w))) pairs.
Proof.
  intros Hinv Hi. unfold lite_spawn, alloc_id.
  pose proof (Ids.unique_fresh (net_heap (w_net w))) as Hf.
  pose proof (Ids.unique_live (net_heap (w_net w))) as Hl.
  pose proof (alloc_id_ext (w_net w)) as He. unfold alloc_id in He.
  destruct (Ids.unique (net_heap (w_net w))) as [c h]. cbn [fst snd] in *.
  unfold make_stop_channel. pose proof (alloc_status_ext (set_heap h (w_net w))) as He'.
  assert (net_heap (alloc_status (set_heap h (w_net w))).2 = h) as Hh by done.
  destruct (alloc_status (set_heap h (w_net w))) as [st n']. cbn [fst snd] in *.
  split; [done|]. pose proof (inv_net_ext _ _ _ _ Hinv (transitivity He He')) as Hinv'.
  pose proof Hinv as [A1 A2 A3 A4 A5 A6 A7 A8 A9].
  set (lr := mkLiteRuntime _ _ _ _ _).
  apply (inv_add_task (with_net n' w) pairs i rt lr Hinv' Hi); simpl; try done.
  - by rewrite Hh.
  - apply eq_None_not_Some. intros [r Hr]. by apply Hf, (A3 _ _ Hr).
  - apply eq_None_not_Some. intros [r Hr]. by apply Hf, (A4 _ _ Hr).
  - intros (p & -> & Hp)%list_elem_of_fmap. by apply Hf, (A5 _ Hp).
  - intros l. rewrite (ext_reports _ _ (transitivity He He') A1). intros Hc.
    apply Hf. by apply A8 in Hc as [? _].
Qed.

(** ** Endings *)

(** A task is over; its end is reported next. *)
Lemma inv_task_over w pairs c lr :
  sys_inv GNone w pairs → w_tasks w !! c = Some lr →
  let w' := mkWorld (w_net w) (w_actors w) (delete c (w_tasks w)) in
  sys_inv (GLost (lr_done_notifier lr) c) w' pairs ∧ ended w' pairs c ∧
  (∀ l, c ∉ reports (w_net w) l).
Proof.
  intros Hinv Hc. cbv zeta. set (w' := mkWorld _ _ _).
  pose proof Hinv as [A1 A2 A3 A4 A5 A6 A7 A8 A9].
  destruct (A4 c lr Hc) as [T1 T2 T3 T4].
  assert (∀ l, c ∉ reports (w_net w) l) as Hr.
  { intros l Hcl. apply A8 in Hcl as (_ & ? & _). congruence. }
  assert (∀ a d, live_child w a d ↔ live_child w' a d ∨ d = c ∧ lr_done_notifier lr = NOnce a (OpDone c))
    as Hlive.
  { intros a d. unfold live_child; simpl. destruct (decide (d = c)) as [->|Hne].
    - rewrite lookup_delete_eq, Hc. split; [|naive_solver].
      intros [?|(? & [= <-] & ?)]; [left; by left|auto].
    - rewrite lookup_delete_ne by done. naive_solver. }
  split; [split; auto|split; [|done]].
  - intros j rtj Hj. destruct (A3 j rtj Hj) as [F1 F2 F3 Fb F4 F5 F6 F7].
    split; auto. intros Hd d.
    pose proof (ok_exact_none w j rtj d (A3 j rtj Hj) Hd) as Hx. rewrite Hlive in Hx. split.
    + intros [[[?|(-> & Hn)]|?]%Hx|[=]]; [auto| |auto]. rewrite Hn. auto.
    + intros [?|[?|[= Hn ->]]]; left; apply Hx; auto.
  - intros j lr'; simpl. intros [Hne Hj]%lookup_delete_Some. destruct (A4 j lr' Hj) as [F1 F2 F3 F4].
    by split.
  - intros p Hpp. destruct (A5 p Hpp) as [F1 F2 F3 F4 F5 F6]. split; auto. simpl.
    by apply lookup_delete_None; auto.
  - intros l d Hd. destruct (A8 l d Hd) as (D1 & D2 & D3 & D4). repeat split; auto. simpl.
    by apply lookup_delete_None; auto.
  - repeat split; simpl; [done|by rewrite lookup_delete_eq|by rewrite T3|].
    intros (p & -> & Hp)%list_elem_of_fmap. destruct (A5 p Hp). congruence.
Qed.

(** An actor is over; its end is reported next. *)
Lemma inv_actor_over w pairs i rt :
  sys_inv GNone w pairs → w_actors w !! i = Some rt → rt_phase rt ≠ PhDone →
  let w' := put (set_phase PhDone rt) w in
  sys_inv (GLost (rt_done_notifier rt) i) w' pairs ∧ ended w' pairs i ∧
  (∀ l, i ∉ reports (w_net w) l).
Proof.
  intros Hinv Hi Hnd. cbv zeta. set (w' := put _ _).
  pose proof Hinv as [A1 A2 A3 A4 A5 A6 A7 A8 A9].
  destruct (A3 i rt Hi) as [T1 T2 T3 Tb T4 T5 T6 T7].
  assert (∀ l, i ∉ reports (w_net w) l) as Hr.
  { intros l Hcl. apply A8 in Hcl as (_ & _ & Hcl & _). by apply Hnd, (Hcl rt). }
  assert (∀ j, w_actors w' !! j = if decide (j = i) then Some (set_phase PhDone rt) else w_actors w !! j)
    as Hlk by (intros j; by apply (lookup_put w i rt)).
  assert (∀ a d, live_child w a d ↔ live_child w' a d ∨ d = i ∧ rt_done_notifier rt = NOnce a (OpDone i))
    as Hlive.
  { intros a d. unfold live_child. rewrite Hlk. destruct (decide (d = i)) as [->|Hne]; [|naive_solver].
    rewrite Hi. split.
    - intros [(? & [= <-] & ? & _)|?]; [auto|left; by right].
    - intros [[(? & [= <-] & _ & Hd)|?]|[_ Hn]]; [by destruct Hd|by right|left]. by exists rt. }
  assert (∀ c nt, notifier_ok w c nt → notifier_ok w' c nt) as Hnt.
  { intros c nt [->|(j & prt & -> & Hj)]; [by left|right]. destruct (decide (j = i)) as [->|].
    - exists i, (set_phase PhDone rt). rewrite Hlk, decide_True by done.
      assert (prt = rt) as -> by congruence. done.
    - exists j, prt. by rewrite Hlk, decide_False. }
  split; [split; auto|split; [|done]].
  - intros j rtj. rewrite Hlk. destruct (decide (j = i)) as [->|].
    + intros [= <-]. split; simpl; auto; try done. destruct T7 as [Uw U1 U2 U3 U4 U5]. split; auto; done.
    + intros Hj. destruct (A3 j rtj Hj) as [F1 F2 F3 Fb F4 F5 F6 F7]. split; auto. intros Hd d.
      pose proof (ok_exact_none w j rtj d (A3 j rtj Hj) Hd) as Hx. rewrite Hlive in Hx. split.
      * intros [[[?|(-> & Hn)]|?]%Hx|[=]]; [auto| |auto]. rewrite Hn. auto.
      * intros [?|[?|[= Hn ->]]]; left; apply Hx; auto.
  - intros j lr' Hj. destruct (A4 j lr' Hj) as [F1 F2 F3 F4]. split; auto.
    rewrite Hlk. case_decide; [congruence|done].
  - intros p Hpp. destruct (A5 p Hpp) as [F1 F2 F3 F4 F5 F6]. split; auto.
    rewrite Hlk. case_decide; [congruence|done].
  - intros c d l Hc Hd.
    assert (∀ c, holder w' pairs c l → holder w pairs c l) as Hh.
    { intros c' [(r & Hcr & Hq)|?]; [|by right]. left. rewrite Hlk in Hcr. case_decide; [|eauto].
      subst. injection Hcr as <-. by exists rt. }
    apply (A7 c d l); by apply Hh.
  - intros l d Hd. destruct (A8 l d Hd) as (D1 & D2 & D3 & D4). repeat split; auto.
    intros r. rewrite Hlk. case_decide; [by intros [= <-]|auto].
  - repeat split; auto.
    + destruct (w_tasks w !! i) as [lr|] eqn:E; [|done]. destruct (A4 i lr E). congruence.
    + intros r. rewrite Hlk, decide_True by done. by intros [= <-].
    + intros (p & Heq & Hp)%list_elem_of_fmap. destruct (A5 p Hp). congruence.
Qed.

(** Nothing is lost when the end goes to nobody, or to an actor that is over. *)
Lemma inv_lost_none w pairs nt c :
  sys_inv (GLost nt c) w pairs →
  (∀ i rt, w_actors w !! i = Some rt → rt_phase rt ≠ PhDone → nt ≠ NOnce (self rt) (OpDone c)) →
  sys_inv GNone w pairs.
Proof.
  intros [A1 A2 A3 A4 A5 A6 A7 A8 A9] Hno. split; auto.
  intros i rt Hi. destruct (A3 i rt Hi) as [F1 F2 F3 Fb F4 F5 F6 F7]. split; auto.
  intros Hd d. destruct (F6 Hd d) as [G1 G2]. split.
  - intros [Ht|[=]]. destruct G1 as [?|[?|[= Hn ->]]]; auto. by destruct (Hno i rt Hi Hd).
  - intros [Ht|[Ht|[=]]]; (destruct G2 as [?|[=]]; [auto|by left]).
Qed.

(** A report that is accepted waits at the end of its queue. *)
Lemma report_sent (l : loc) c msg n ch ch' :
  net_hp n !! l = Some ch → mv_rx_open (mpsc_view ch') = true →
  mv_queue (mpsc_view ch') = mv_queue (mpsc_view ch) ++ [Parcel_new (OpDone c) msg] →
  let n' := set_hp l ch' n in
  (∀ k, reports n' k = if decide (k = l) then reports n k ++ [c] else reports n k) ∧
  (∀ k, instant_open n k = true → instant_open n' k = true) ∧
  (net_wf n → net_wf n') ∧ (envelope_loaded (Envelope_new msg) = true → net_loaded n → net_loaded n').
Proof.
  intros Hch Hop Hq. split_and!.
  - intros k. unfold reports, instant_queue; simpl. case_decide as Hk.
    + subst k. by rewrite lookup_insert_eq, Hch, Hq, omap_app.
    + by rewrite lookup_insert_ne.
  - intros k. unfold instant_open; simpl. destruct (decide (k = l)) as [->|].
    + by rewrite lookup_insert_eq, Hop.
    + by rewrite lookup_insert_ne.
  - apply net_wf_existing; simpl; auto; [|lia]. intros k. apply insert_none. by eexists.
  - intros Hm [L1 L2]. split; [|done]. intros k q. unfold instant_queue; simpl.
    destruct (decide (k = l)) as [->|].
    + rewrite lookup_insert_eq, Hq. intros [Hin| ->%list_elem_of_singleton]%elem_of_app; [|done].
      apply (L1 l). unfold instant_queue. by rewrite Hch.
    + rewrite lookup_insert_ne by done. apply L1.
Qed.

Lemma inv_report w pairs nt c msg :
  sys_inv (GLost nt c) w pairs → ended w pairs c → (∀ l, c ∉ reports (w_net w) l) →
  notifier_ok w c nt →
  sys_inv GNone (with_net (notify_with msg nt (w_net w)).2 w) pairs.
Proof.
  intros Hinv Hended Hno Hnt. pose proof Hinv as [A1 A2 A3 A4 A5 A6 A7 A8 A9].
  destruct Hnt as [->|(j & prt & -> & Hj)].
  { simpl. assert (with_net (w_net w) w = w) as -> by by destruct w.
    apply (inv_lost_none _ _ _ _ Hinv). done. }
  simpl. unfold unpack_parcel. set (p := Parcel_new (OpDone c) msg).
  destruct (high_priority_send_cases (self prt) p (w_net w))
    as [(ch & ch' & Hch & Hop & Hop' & Hq & ->)|[Hclosed ->]].
  2: { assert (with_net (w_net w) w = w) as -> by by destruct w.
       apply (inv_lost_none _ _ _ _ Hinv). intros i rt Hi Hd [= Heq].
       destruct (A3 i rt Hi) as [F1 F2 F3 Fb F4 F5 F6 F7]. specialize (F5 Hd).
       unfold queue_of in F5. rewrite <-Heq in F5. congruence. }
  cbn [snd]. fold (queue_of prt) in *.
  destruct (report_sent (queue_of prt) c msg (w_net w) ch ch' Hch Hop' Hq) as (Hrep & Hopen & Hwf & Hload).
  set (n' := set_hp (queue_of prt) ch' (w_net w)) in *.
  assert (∀ l d, d ∈ reports n' l ↔ d ∈ reports (w_net w) l ∨ l = queue_of prt ∧ d = c) as Hrep'.
  { intros l d. rewrite Hrep. case_decide; [|naive_solver].
    rewrite elem_of_app, list_elem_of_singleton. naive_solver. }
  assert (∀ k rtk, w_actors w !! k = Some rtk → queue_of rtk = queue_of prt → k = j) as Hkj.
  { intros k rtk Hk Heq. apply (A7 k j (queue_of prt)); left; [by exists rtk|by exists prt]. }
  split; simpl; auto.
  - intros i rt Hi. destruct (A3 i rt Hi) as [F1 F2 F3 Fb F4 F5 F6 F7]. split; auto.
    intros Hd d. rewrite Hrep'. destruct (F6 Hd d) as [G1 G2]. split.
    + intros [Ht|[=]]. destruct G1 as [?|[?|[= Hs ->]]]; auto.
      right; left; right. split; [|done]. unfold queue_of. by rewrite Hs.
    + intros Hx. left. destruct G2 as [?|[=]]; [|done]. destruct Hx as [?|[[?|[Heq ->]]|[=]]]; auto.
      assert (i = j) as -> by by eapply Hkj. assert (rt = prt) as -> by congruence. auto.
  - intros k lr Hk. by destruct (A4 k lr Hk).
  - intros q Hqq. destruct (A5 q Hqq) as [F1 F2 F3 F4 F5 F6]. split; auto. simpl.
    rewrite Hrep, decide_False; [done|]. intros Heq. assert (pair_id q = j) as Hid; [|congruence].
    apply (A7 _ _ (queue_of prt)); [right; by exists q|left; by exists prt].
  - intros l d [Hd|[-> ->]]%Hrep'; [by apply (A8 l)|done].
  - intros l. rewrite Hrep. case_decide; [|done]. apply NoDup_app. split; [done|].
    split; [|apply NoDup_singleton]. intros d Hd ->%list_elem_of_singleton. by apply (Hno l).
Qed.

(** The queue of an actor that is over is dropped. *)
Lemma inv_drop_queue w pairs i rt n' :
  sys_inv GNone w pairs → w_actors w !! i = Some rt → rt_phase rt = PhDone →
  (net_wf (w_net w) → net_wf n') → net_next n' = net_next (w_net w) → net_heap n' = net_heap (w_net w) →
  (∀ l, net_hp n' !! l = if decide (l = queue_of rt)
     then mpsc_drop_rx <$> net_hp (w_net w) !! l else net_hp (w_net w) !! l) →
  (∀ l e, e ∈ normal_queue n' l → e ∈ normal_queue (w_net w) l) →
  (∀ l, l ≠ addr_msg_tx (self rt) → normal_open (w_net w) l = true → normal_open n' l = true) →
  sys_inv GNone (with_net n' w) pairs.
Proof.
  intros Hinv Hi Hd Hwf Hnext Hheap Hhp Hlp Hnormal. pose proof Hinv as [A1 A2 A3 A4 A5 A6 A7 A8 A9].
  assert (∀ l, instant_queue n' l = if decide (l = queue_of rt) then [] else instant_queue (w_net w) l) as Hiq.
  { intros l. unfold instant_queue. rewrite Hhp. case_decide; [|done].
    destruct (net_hp (w_net w) !! l); simpl; [by rewrite mpsc_drop_rx_view|done]. }
  assert (∀ l, reports n' l = if decide (l = queue_of rt) then [] else reports (w_net w) l) as Hrep.
  { intros l. unfold reports. rewrite Hiq. by case_decide. }
  assert (∀ l, l ≠ queue_of rt → instant_open n' l = instant_open (w_net w) l) as Hop.
  { intros l Hl. unfold instant_open. by rewrite Hhp, decide_False. }
  split; simpl; auto.
  - destruct A2 as [L1 L2]. split; [|eauto]. intros l p. rewrite Hiq. case_decide; [|apply L1].
    by intros ?%not_elem_of_nil.
  - intros j rtj Hj. destruct (A3 j rtj Hj) as [F1 F2 F3 Fb F4 F5 F6 F7 F8 F9].
    assert (rt_phase rtj ≠ PhDone → queue_of rtj ≠ queue_of rt) as Hq.
    { intros Hdj Heq. assert (j = i) as ->; [|congruence].
      apply (A7 j i (queue_of rt)); left; [by exists rtj|by exists rt]. }
    split; simpl; auto.
    + by rewrite Hheap.
    + by rewrite Hnext.
    + intros Hdj. rewrite Hop by auto. auto.
    + intros Hdj c. rewrite Hrep, decide_False by auto. by apply F6.
    + intros Hdj. apply Hnormal; [|auto]. intros Heq. apply (Hq Hdj). unfold queue_of.
      apply Pos.succ_inj. destruct (A3 i rt Hi) as [_ _ _ _ _ _ _ _ [_ _ _ Wi] _].
      destruct F8 as [_ _ _ Wj]. by rewrite <-Wi, <-Wj.
  - intros j lr Hj. destruct (A4 j lr Hj) as [F1 F2 F3 F4]. split; simpl; auto. by rewrite Hheap.
  - intros p Hp. destruct (A5 p Hp) as [F1 F2 F3 F4 F5 F6 F7 F8].
    assert (pair_hp p ≠ queue_of rt) as Hne.
    { intros Heq. assert (pair_id p = i) as Hid; [|congruence].
      apply (A7 _ _ (queue_of rt)); [right; by exists p|left; by exists rt]. }
    split; simpl; auto.
    + by rewrite Hheap.
    + by rewrite Hop.
    + by rewrite Hrep, decide_False.
    + apply Hnormal; [|done]. intros Heq. apply Hne. unfold queue_of, pair_hp.
      apply Pos.succ_inj. destruct (A3 i rt Hi) as [_ _ _ _ _ _ _ _ [_ _ _ Wi] _].
      destruct F7 as [_ _ _ Wj]. by rewrite <-Wi, <-Wj.
  - intros l c. rewrite Hrep. case_decide; [by intros ?%not_elem_of_nil|].
    intros (D1 & D2 & D3 & D4)%A8. repeat split; simpl; auto. by rewrite Hheap.
  - intros l. rewrite Hrep. case_decide; [constructor|done].
Qed.

(** A report is received: the child is not tracked any more. *)
Section receive.
Context (w : World) (pairs : list AddressPair) (i : Id) (rt rt' : ActorRuntime) (c : Id) (n' : Net).
Hypothesis Hinv : sys_inv GNone w pairs.
Hypothesis Hi : w_actors w !! i = Some rt.
Hypothesis Hd : rt_phase rt ≠ PhDone.
Hypothesis Hs : same_actor rt rt'.
Hypothesis Hl : local_ok rt'.
Hypothesis Ht : ∀ d, tracked rt' d ↔ tracked rt d ∧ d ≠ c.
Hypothesis Hwf : net_wf (w_net w) → net_wf n'.
Hypothesis Hnext : net_next n' = net_next (w_net w).
Hypothesis Hheap : net_heap n' = net_heap (w_net w).
Hypothesis Hop : ∀ l, instant_open (w_net w) l = true → instant_open n' l = true.
Hypothesis Hr : reports (w_net w) (queue_of rt) = c :: reports n' (queue_of rt).
Hypothesis Hro : ∀ l, l ≠ queue_of rt → reports n' l = reports (w_net w) l.
Hypothesis Hload : net_loaded n'.
Hypothesis Hnormal : ∀ l, normal_open (w_net w) l = true → normal_open n' l = true.

Abbreviation w1 := (put rt' (with_net n' w)).

Lemma receive_lookup j : w_actors w1 !! j = if decide (j = i) then Some rt' else w_actors w !! j.
Proof.
  apply (lookup_put (with_net n' w) i rt); [done|].
  rewrite (sm_id _ _ Hs). apply (inv_actor _ _ _ Hinv i rt Hi).
Qed.

Lemma receive_live a d : live_child w1 a d ↔ live_child w a d.
Proof.
  apply (live_child_put (with_net n' w) i rt rt'); try done. apply (inv_actor _ _ _ Hinv i rt Hi).
Qed.

Lemma receive_notifier d nt : notifier_ok w d nt → notifier_ok w1 d nt.
Proof.
  apply (notifier_ok_put (with_net n' w) i rt rt'); try done. apply (inv_actor _ _ _ Hinv i rt Hi).
Qed.

(** The one who receives a report forgets the child, which is over. *)
Lemma receive_self : actor_ok GNone w1 i rt'.
Proof.
  pose proof (inv_actor _ _ _ Hinv i rt Hi) as Hok. pose proof Hok as [F1 F2 F3 Fb F4 F5 F6 F7].
  destruct Hs as [E1 E2 E3 E4 E5]. unfold queue_of in *.
  split; unfold queue_of; rewrite ?E5, ?E2, ?E3, ?E4; simpl; auto using receive_notifier; try congruence.
  intros _ d. rewrite receive_live, Ht. pose proof (ok_exact_none w i rt d Hok Hd) as Hx.
  unfold queue_of in Hx. rewrite Hr, elem_of_cons in Hx. split.
  - intros [[[?|[->|?]]%Hx Hne]|[=]]; [auto|done|auto].
  - intros [Hlc|[Hin|[=]]]; left; (split; [apply Hx; auto|]); intros ->.
    + assert (ended w pairs c) as (_ & X1 & X2 & _) by (apply (inv_ended _ _ _ Hinv (queue_of rt)); unfold queue_of; rewrite Hr; left).
      destruct Hlc as [(r & Y1 & _ & Y2)|(r & Y1 & _)]; [by apply Y2, X2|congruence].
    + pose proof (inv_nodup _ _ _ Hinv (queue_of rt)) as Hnd. unfold queue_of in Hnd. rewrite Hr in Hnd.
      by apply NoDup_cons in Hnd as [? _].
Qed.

Lemma inv_receive : sys_inv GNone w1 pairs.
Proof.
  pose proof Hinv as [A1 A2 A3 A4 A5 A6 A7 A8 A9].
  assert (∀ k q, holder w pairs k (queue_of q) → q = rt → k = i) as Hown.
  { intros k q Hk ->. apply (A7 k i (queue_of rt)); [done|left; by exists rt]. }
  split; auto.
  - intros j rtj. rewrite receive_lookup. case_decide as Hj; [intros [= <-]; subst j; apply receive_self|intros Hj'].
    destruct (A3 j rtj Hj') as [F1 F2 F3 Fb F4 F5 F6 F7].
    assert (queue_of rtj ≠ queue_of rt) as Hq.
    { intros Heq. apply Hj, (Hown j rt); [|done]. left. rewrite <-Heq. by exists rtj. }
    split; simpl; auto using receive_notifier; try congruence.
    intros Hdj d. rewrite receive_live, Hro by done. by apply F6.
  - intros j lr Hj. destruct (A4 j lr Hj) as [F1 F2 F3 F4]. split; auto using receive_notifier.
    + simpl. by rewrite Hheap.
    + rewrite receive_lookup. case_decide; congruence.
  - intros p Hp. destruct (A5 p Hp) as [F1 F2 F3 F4 F5 F6]. split; auto.
    + simpl. by rewrite Hheap.
    + rewrite receive_lookup. case_decide; congruence.
    + simpl. rewrite Hro; [done|]. intros Heq. assert (pair_id p = i) as Hpi; [|congruence].
      apply (Hown _ rt); [|done]. right. rewrite <-Heq. by exists p.
  - intros d e l. rewrite !(holder_put (with_net n' w) pairs i rt rt') by (try done; apply (A3 i rt Hi)). apply A7.
  - intros l d Hdl. assert (d ∈ reports (w_net w) l) as Hin.
    { simpl in Hdl. destruct (decide (l = queue_of rt)) as [->|Hne]; [rewrite Hr; by right|by rewrite <-Hro]. }
    destruct (A8 l d Hin) as (D1 & D2 & D3 & D4). repeat split; auto.
    + simpl. by rewrite Hheap.
    + rewrite receive_lookup. case_decide as Hdi; [|auto]. subst d. intros r [= <-]. apply (sm_done _ _ Hs), (D3 rt Hi).
  - intros l. simpl. destruct (decide (l = queue_of rt)) as [->|Hne]; [|by rewrite Hro].
    pose proof (A9 (queue_of rt)) as Hnd. rewrite Hr in Hnd. by apply NoDup_cons in Hnd as [_ ?].
Qed.
End receive.

(** ** Every step preserves the invariant *)

Lemma Address_clone_id a : Address_clone a = a.
Proof. by destruct a. Qed.

Lemma with_net_id w : with_net (w_net w) w = w.
Proof. by destruct w. Qed.

(** The actor after a call that gave the context [c]. *)
Definition after_call rt (source : Source) (code : Handling) (c : Context_) : ActorRuntime :=
  set_phase (PhHandle source code) (set_context c rt).

Lemma local_ok_call rt source code c :
  local_ok rt → waits c → Tracker.wf (ctx_tracker c) → records_plain (ctx_tracker c) →
  local_ok (after_call rt source code c).
Proof. intros [Lw L1 L2 L3 L4 L5] Hw Hwf Hp. split; simpl; done. Qed.

Lemma same_actor_call rt source code c cmd k :
  rt_phase rt = PhHandle source (CDo cmd k) → ctx_address c = self rt →
  same_actor rt (after_call rt source code c).
Proof. intros Hp Hc. split; simpl; try done. by rewrite Hp. Qed.

(** A call that changes the network, but no report, and keeps the children. *)
Lemma inv_call g w pairs i rt source cmd k code c n' :
  sys_inv g w pairs → w_actors w !! i = Some rt → rt_phase rt = PhHandle source (CDo cmd k) →
  net_ext (w_net w) n' → ctx_address c = self rt → waits c →
  Tracker.wf (ctx_tracker c) → records_plain (ctx_tracker c) →
  lt_records (ctx_tracker c) = lt_records (tracker_of rt) →
  sys_inv g (put (after_call rt source code c) (with_net n' w)) pairs.
Proof.
  intros Hinv Hi Hp He Ha Hw Hwf Hpl Hr. apply (inv_put g (with_net n' w) pairs i rt); [|done|..].
  - by apply inv_net_ext.
  - by eapply same_actor_call.
  - apply local_ok_call; auto. apply (inv_actor _ _ _ Hinv i rt Hi).
  - intros d. unfold tracked, tracker_of; simpl. by rewrite Hr.
Qed.

Lemma waits_insert i (r : TRecord Group Notifier) n c t :
  (Tracker.insert_record i r (ctx_tracker c) n).1 = t → waits c → waits (with_tracker t c).
Proof.
  intros <- Hw. unfold waits; simpl. intros Ht Ha. destruct (Hw Ht Ha) as (g & st & Hg & Hs & Hi).
  destruct (decide (rec_group r = g)) as [Heq|Hne].
  - exists g. eexists. subst g. rewrite lookup_insert_eq. split; [done|]. rewrite Hg. simpl.
    split; [done|]. set_solver.
  - exists g, st. by rewrite lookup_insert_ne.
Qed.

(** A child that was just spawned is tracked. *)
Lemma inv_insert w pairs i rt source cmd k code c (r : TRecord Group Notifier) :
  sys_inv (GPending i c) w pairs → w_actors w !! i = Some rt →
  rt_phase rt = PhHandle source (CDo cmd k) → plain (rec_notifier r) → ¬ tracked rt c →
  let '(t, n') := Tracker.insert_record c r (tracker_of rt) (w_net w) in
  sys_inv GNone (put (after_call rt source code (with_tracker t (rt_context rt))) (with_net n' w)) pairs.
Proof.
  intros Hinv Hi Hp Hpl Ht.
  destruct (ok_local _ _ _ _ (inv_actor _ _ _ Hinv i rt Hi)) as [Lw L1 L2 L3 L4 L5].
  pose proof (insert_record_ext c r (tracker_of rt) (w_net w) Hpl) as He.
  assert (lt_records (tracker_of rt) !! c = None) as Hnone by by apply eq_None_not_Some.
  pose proof (Tracker.wf_insert_record c r (tracker_of rt) (w_net w) L1 Hnone) as Hwf.
  assert (lt_records (Tracker.insert_record c r (tracker_of rt) (w_net w)).1 =
          <[c := r]> (lt_records (tracker_of rt))) as Hrec by done.
  pose proof (waits_insert c r (w_net w) (rt_context rt) _ eq_refl Lw) as Hws. fold (tracker_of rt) in Hws.
  destruct (Tracker.insert_record _ _ _ _) as [t n']. cbn [fst snd] in *.
  apply (inv_put_tracked (with_net n' w) pairs i c rt); [by apply inv_net_ext|done|..].
  - by eapply same_actor_call.
  - apply local_ok_call; [done|done|done|]. intros d r'. simpl. rewrite Hrec.
    intros [[-> ->]|[_ ?]]%lookup_insert_Some; [done|by eapply L2].
  - intros d. unfold tracked, tracker_of; simpl. fold (tracker_of rt). rewrite Hrec.
    rewrite lookup_insert_is_Some. destruct (decide (c = d)); naive_solver.
Qed.

Lemma untracked w pairs i rt c :
  sys_inv GNone w pairs → w_actors w !! i = Some rt → rt_phase rt ≠ PhDone →
  w_actors w !! c = None → w_tasks w !! c = None →
  (∀ l, c ∉ reports (w_net w) l) → ¬ tracked rt c.
Proof.
  intros Hinv Hi Hd Ha Ht Hr Htr.
  apply (ok_exact_none w i rt c (inv_actor _ _ _ Hinv i rt Hi) Hd) in Htr as [[(?&?&_)|(?&?&_)]|?];
    [congruence..|]. by apply (Hr (queue_of rt)).
Qed.

(** Spawning an actor from a pair at hand. *)
Lemma inv_spawn_actor w l1 l2 p i rt source cmd k code actor group :
  sys_inv GNone w (l1 ++ p :: l2) → w_actors w !! i = Some rt →
  rt_phase rt = PhHandle source (CDo cmd k) →
  let '(c, w') := Context_spawn_actor_with_addr actor p group (rt_context rt) w in
  sys_inv GNone (put (after_call rt source code c) w') (l1 ++ l2).
Proof.
  intros Hinv Hi Hp. unfold Context_spawn_actor_with_addr. rewrite Address_clone_id.
  destruct (inv_pair _ _ _ Hinv p) as [P1 P2 P3 P4 P5 P6]; [set_solver|].
  assert (¬ tracked rt (pair_id p)) as Hnt.
  { apply (untracked w (l1 ++ p :: l2) i); try done; [by rewrite Hp|]. intros l Hl.
    apply (inv_ended _ _ _ Hinv) in Hl as (_ & _ & _ & Hn). apply Hn. rewrite fmap_app. set_solver. }
  pose proof (inv_spawn w l1 l2 p actor (Some (i, rt)) Hinv) as Hs. cbn [spawn_ghost fmap option_fmap option_map] in Hs.
  change ((self ∘ snd) (i, rt)) with (ctx_address (rt_context rt)) in Hs.
  assert (w_net (spawn actor (Some (ctx_address (rt_context rt))) p w) = w_net w) as Hn by done.
  assert (w_actors (spawn actor (Some (ctx_address (rt_context rt))) p w) !! i = Some rt) as Hi'.
  { simpl. rewrite lookup_insert_ne; [done|]. intros Heq. change (pair_id p = i) in Heq. congruence. }
  set (w1 := spawn actor (Some (ctx_address (rt_context rt))) p w) in *.
  unfold Tracker.insert. rewrite Address_clone_id.
  pose proof (inv_insert w1 (l1 ++ l2) i rt source cmd k code (pair_id p)
    (mkTRecord group (NOnce (pair_address p) OpForward))) as Hins.
  change (Tracker.insert_record (address_id (AddressPair_address p))
    (mkTRecord group (once (AddressPair_address p))) (ctx_tracker (rt_context rt)) (w_net w1))
    with (Tracker.insert_record (pair_id p) (mkTRecord group (NOnce (pair_address p) OpForward))
            (tracker_of rt) (w_net w1)).
  destruct (Tracker.insert_record _ _ _ _) as [t n']. apply Hins; try done.
  apply Hs. by intros ? ? [= <- <-].
Qed.

(** Spawning a task. *)
Lemma inv_call_spawn_task w pairs i rt source cmd k (code : TaskAddress → Handling) task tag group :
  sys_inv GNone w pairs → w_actors w !! i = Some rt →
  rt_phase rt = PhHandle source (CDo cmd k) →
  let '(stopper, c, w') := Context_spawn_task task tag group (rt_context rt) w in
  sys_inv GNone (put (after_call rt source (code stopper) c) w') pairs.
Proof.
  intros Hinv Hi Hp. unfold Context_spawn_task. rewrite Address_clone_id.
  pose proof (inv_spawn_task w pairs i rt task tag Hinv Hi) as Hs. unfold self in Hs.
  assert (¬ Ids.live (net_heap (w_net w)) (lr_id (lite_spawn task tag (Some (ctx_address (rt_context rt))) (w_net w)).1.1))
    as Hfresh.
  { pose proof (Ids.unique_fresh (net_heap (w_net w))) as Hf. unfold lite_spawn, alloc_id.
    by destruct (Ids.unique (net_heap (w_net w))) as [? ?]. }
  destruct (lite_spawn _ _ _ (w_net w)) as [[lr stopper] n1]. cbn [fst snd] in Hfresh.
  destruct Hs as [Hid Hs]. set (w1 := mkWorld n1 (w_actors w) (<[lr_id lr := lr]> (w_tasks w))) in *.
  assert (¬ tracked rt (lr_id lr)) as Hnt.
  { pose proof Hinv as [A1 A2 A3 A4 A5 A6 A7 A8 A9].
    apply (untracked w pairs i); try done; [by rewrite Hp|..].
    - apply eq_None_not_Some. intros [r Hr]. by apply Hfresh, (A3 _ _ Hr).
    - apply eq_None_not_Some. intros [r Hr]. by apply Hfresh, (A4 _ _ Hr).
    - intros l Hl. apply Hfresh. by apply A8 in Hl as [? _]. }
  unfold Tracker.insert_task.
  pose proof (inv_insert w1 pairs i rt source cmd k (code stopper) (lr_id lr)
    (mkTRecord group (NStop (TaskAddress_clone stopper))) Hs) as Hins.
  assert (stopper_id (TaskAddress_clone stopper) = lr_id lr) as -> by done.
  change (Tracker.insert_record (lr_id lr) (mkTRecord group (stop (TaskAddress_clone stopper)))
    (ctx_tracker (rt_context rt)) n1)
    with (Tracker.insert_record (lr_id lr) (mkTRecord group (NStop (TaskAddress_clone stopper)))
            (tracker_of rt) (w_net w1)).
  destruct (Tracker.insert_record _ _ _ _) as [t n']. by apply Hins.
Qed.

Lemma inv_on_net {A} (f : Net → A * Net) rep w pairs i rt source cmd k :
  sys_inv GNone w pairs → w_actors w !! i = Some rt →
  rt_phase rt = PhHandle source (CDo cmd k) → net_ext (w_net w) (f (w_net w)).2 →
  let '(rep, c, w') := on_net f rep (rt_context rt) w in
  sys_inv GNone (put (after_call rt source (k rep) c) w') pairs.
Proof.
  intros Hinv Hi Hp He. unfold on_net. destruct (f (w_net w)) as [r n']. simpl in He.
  destruct (ok_local _ _ _ _ (inv_actor _ _ _ Hinv i rt Hi)) as [Lw L1 L2 _ _ _].
  by eapply inv_call.
Qed.

Lemma try_terminate_call o t n :
  Tracker.wf t → records_plain t →
  let '(t', n') := Tracker.start_termination (ord_groups o) (ord_ids o) t n in
  Tracker.wf t' ∧ records_plain t' ∧ lt_records t' = lt_records t ∧ net_ext n n' ∧
  (Tracker.is_finished t' = true ∨
   ∃ g st, lt_stages t' !! g = Some st ∧ st_terminating st = true ∧ st_ids st ≠ ∅).
Proof.
  intros Hwf Hp. unfold Tracker.start_termination.
  pose proof (Tracker.wf_try_terminate_next (ord_groups o) (ord_ids o) t n Hwf) as H1'.
  pose proof (Tracker.try_terminate_next_records (ord_groups o) (ord_ids o) t n) as H2'.
  pose proof (try_terminate_ext (ord_groups o) (ord_ids o) t n Hp) as H3'.
  pose proof (Tracker.try_terminate_next_progress (ord_groups o) (ord_ids o) t n) as H4'.
  destruct (Tracker.try_terminate_next _ _ t n) as [t' n']. cbn [fst snd] in *.
  split; [done|]. split; [|done]. intros i r. rewrite H2'. apply Hp.
Qed.

(** The calls one by one; those that only touch the network are [inv_on_net]. *)
Section exec.
Context (o : Orders) (w : World) (pairs pairs' : list AddressPair) (i : Id) (rt : ActorRuntime).
Context (source : Source) (cmd : Cmd) (k : Reply → Handling).
Hypothesis Hinv : sys_inv GNone w pairs.
Hypothesis Hi : w_actors w !! i = Some rt.
Hypothesis Hp : rt_phase rt = PhHandle source (CDo cmd k).

Lemma inv_context code c :
  ctx_address c = self rt → ctx_tracker c = tracker_of rt → waits c →
  sys_inv GNone (put (after_call rt source code c) w) pairs.
Proof.
  intros Ha Ht Hw. destruct (ok_local _ _ _ _ (inv_actor _ _ _ Hinv i rt Hi)) as [_ L1 L2 _ _ _].
  rewrite <-(with_net_id w). eapply inv_call; try done; by rewrite Ht.
Qed.

Lemma inv_exec_spawn actor group code :
  let '(a, c, w') := Context_spawn_actor actor group (rt_context rt) w in
  sys_inv GNone (put (after_call rt source (code a) c) w') pairs.
Proof.
  unfold Context_spawn_actor. pose proof (inv_new_pair _ _ _ Hinv) as Hn.
  destruct (AddressPair_new (w_net w)) as [p n']. cbn [fst snd] in Hn.
  pose proof (λ k', inv_spawn_actor (with_net n' w) [] pairs p i rt source _ k k' actor group Hn Hi Hp) as Hs.
  destruct (Context_spawn_actor_with_addr _ _ _ _ _) as [c w']. apply Hs.
Qed.

Lemma inv_exec_shutdown code :
  let '(c, w') := Context_shutdown o (rt_context rt) w in
  sys_inv GNone (put (after_call rt source code c) w') pairs.
Proof.
  destruct (ok_local _ _ _ _ (inv_actor _ _ _ Hinv i rt Hi)) as [_ L1 L2 _ _ _]. unfold Context_shutdown.
  pose proof (try_terminate_call o (tracker_of rt) (w_net w) L1 L2) as Ht.
  change (ctx_tracker (rt_context rt)) with (tracker_of rt).
  destruct (Tracker.start_termination _ _ _ _) as [t n']. destruct Ht as (T1 & T2 & T3 & T4 & T5).
  cbn [ctx_tracker with_tracker].
  destruct (Tracker.is_finished t); eapply inv_call; try done.
  intros _ _. by destruct T5.
Qed.

Lemma inv_exec_system_spawn actor code :
  let '(a, w') := System_spawn actor w in
  sys_inv GNone (put (after_call rt source (code a) (rt_context rt)) w') pairs.
Proof.
  destruct (ok_local _ _ _ _ (inv_actor _ _ _ Hinv i rt Hi)) as [Lw L1 L2 _ _ _]. unfold System_spawn.
  pose proof (inv_new_pair _ _ _ Hinv) as Hn. destruct (AddressPair_new (w_net w)) as [p n'].
  cbn [fst snd] in Hn. pose proof (inv_pair _ _ _ Hn p ltac:(left)) as Hpo.
  pose proof (inv_spawn (with_net n' w) [] pairs p actor None Hn) as Hs.
  cbn [spawn_ghost fmap option_fmap option_map app] in Hs.
  set (w' := spawn actor None p (with_net n' w)) in *.
  assert (w_actors w' !! i = Some rt) as Hi'.
  { simpl. rewrite lookup_insert_ne; [done|]. intros Heq. change (pair_id p = i) in Heq.
    pose proof (pr_actor _ _ Hpo) as Hno. simpl in Hno. congruence. }
  rewrite <-(with_net_id w'). eapply inv_call; try done. by apply Hs.
Qed.
End exec.

Lemma inv_exec o w pairs pairs' i rt source cmd k :
  sys_inv GNone w pairs → w_actors w !! i = Some rt →
  rt_phase rt = PhHandle source (CDo cmd k) → moves w cmd pairs pairs' →
  let '(rep, c, w') := exec o cmd (rt_context rt) w in
  sys_inv GNone (put (after_call rt source (k rep) c) w') pairs'.
Proof.
  intros Hinv Hi Hp Hm.
  pose proof (ok_local _ _ _ _ (inv_actor _ _ _ Hinv i rt Hi)) as [Lw L1 L2 _ _ _].
  destruct cmd; cbn [exec]; inversion Hm; subst; try done;
    try (by apply (inv_context w _ i rt source _ k Hinv Hi Hp));
    try (eapply inv_on_net; [done..|auto with net_ext]).
  - pose proof (λ k', inv_spawn_actor w l1 l2 pair i rt source _ k k' actor group Hinv Hi Hp) as Hs.
    destruct (Context_spawn_actor_with_addr _ _ _ _ _) as [c w']. apply Hs.
  - pose proof (inv_exec_spawn w pairs' i rt source _ k Hinv Hi Hp actor group (λ a, k (RepAddress a))) as Hs.
    by destruct (Context_spawn_actor _ _ _ _) as [[a c] w'].
  - pose proof (inv_call_spawn_task w pairs' i rt source _ k (λ t, k (RepTask t)) task tag group Hinv Hi Hp) as Hs.
    by destruct (Context_spawn_task _ _ _ _ _) as [[t c] w'].
  - unfold Context_attach. pose proof (inv_call_spawn_task w pairs' i rt source _ k (λ _, k RepUnit)
      (StreamForwarder stream (Address_clone (ctx_address (rt_context rt)))) tag group Hinv Hi Hp) as Hs.
    by destruct (Context_spawn_task _ _ _ _ _) as [[t c] w'].
  - unfold Context_track_interaction.
    pose proof (inv_call_spawn_task w pairs' i rt source _ k (λ _, k RepUnit) task tag group Hinv Hi Hp) as Hs.
    by destruct (Context_spawn_task _ _ _ _ _) as [[t c] w'].
  - unfold Context_interrupt. pose proof (interrupt_by_ext address (w_net w)) as He.
    destruct (interrupt_by address (w_net w)) as [r n']. by eapply inv_call.
  - pose proof (inv_exec_shutdown o w pairs' i rt source _ k Hinv Hi Hp (k RepUnit)) as Hs.
    by destruct (Context_shutdown _ _ _).
  - unfold Context_terminate_group. eapply inv_call; try done. by apply terminate_group_ext.
  - unfold on_net. pose proof (inv_new_pair _ _ _ Hinv) as Hn. destruct (AddressPair_new (w_net w)) as [p n'].
    cbn [fst snd] in Hn. rewrite <-(with_net_id (with_net n' w)). by eapply inv_call.
  - pose proof (inv_exec_system_spawn w pairs' i rt source _ k Hinv Hi Hp actor (λ a, k (RepAddress a))) as Hs.
    by destruct (System_spawn _ _).
Qed.

Lemma begin_handle_loaded source e rt :
  envelope_loaded e = true → ∃ code, begin_handle source e rt = set_phase (PhHandle source code) rt.
Proof.
  intros Hl. unfold begin_handle, Envelope_handle, envelope_loaded in *.
  destruct (env_handler e) as [[]|[]|? []]; simpl in *; try discriminate; by eexists.
Qed.

(** An actor that goes on to handle something, or to wait. *)
Lemma inv_continue g w pairs i rt rt' n' :
  sys_inv g w pairs → w_actors w !! i = Some rt → rt_phase rt ≠ PhDone →
  net_ext (w_net w) n' → rt_id rt' = rt_id rt → rt_context rt' = rt_context rt →
  rt_joint rt' = rt_joint rt → rt_done_notifier rt' = rt_done_notifier rt →
  rt_phase rt' ≠ PhDone → rt_phase rt' ≠ PhStart → (∀ m, rt_phase rt' ≠ PhPanic m) →
  Forall (λ x, envelope_loaded x.2 = true) (dq_view (rt_scheduled rt')) →
  sys_inv g (put rt' (with_net n' w)) pairs.
Proof.
  intros Hinv Hi Hd He E1 E2 E3 E4 E6 E7 E8 E9.
  destruct (ok_local _ _ _ _ (inv_actor _ _ _ Hinv i rt Hi)) as [Lw L1 L2 L3 L4 L5].
  apply (inv_put g (with_net n' w) pairs i rt); [by apply inv_net_ext|done|..].
  - split; try done. unfold self. by rewrite E2.
  - split; unfold tracker_of; rewrite ?E2; auto; done.
  - intros c. unfold tracked, tracker_of. by rewrite E2.
Qed.

Lemma recv_cases {A} (ch : Ch A) :
  (mpsc_recv ch = (Pending, ch) ∧ mv_queue (mpsc_view ch) = []) ∨
  mpsc_recv ch = (Ready None, ch) ∨
  ∃ a ch', mpsc_recv ch = (Ready (Some a), ch') ∧
    mv_queue (mpsc_view ch) = a :: mv_queue (mpsc_view ch') ∧
    mv_rx_open (mpsc_view ch') = mv_rx_open (mpsc_view ch).
Proof.
  destruct (mv_queue (mpsc_view ch)) as [|a q] eqn:Hq.
  - destruct (mv_tx_alive (mpsc_view ch)) eqn:Ht.
    + left. by rewrite mpsc_recv_pending.
    + right; left. by rewrite mpsc_recv_none.
  - destruct (mpsc_recv_some ch a q Hq) as (ch' & Hr & Hv). right; right.
    exists a, ch'. by rewrite Hv.
Qed.

(** The queue after its first parcel was taken. *)
Section read.
Context (w : World) (l : loc) (p : Parcel) (ch ch' : Ch Parcel).
Hypothesis Hch : net_hp (w_net w) !! l = Some ch.
Hypothesis Hq : mv_queue (mpsc_view ch) = p :: mv_queue (mpsc_view ch').
Hypothesis Hop : mv_rx_open (mpsc_view ch') = mv_rx_open (mpsc_view ch).

Abbreviation n1 := (set_hp l ch' (w_net w)).

Lemma read_ext : done_of p = None → net_ext (w_net w) n1.
Proof.
  intros Hd. eapply net_ext_set_hp; [done|..]; rewrite ?Hq, ?Hop; simpl; rewrite ?Hd; auto.
  intros q Hin. left. by right.
Qed.

Lemma read_reports c : done_of p = Some c → reports (w_net w) l = c :: reports n1 l.
Proof.
  intros Hd. unfold reports, instant_queue; simpl. rewrite lookup_insert_eq, Hch, Hq. simpl. by rewrite Hd.
Qed.

Lemma read_wf : net_wf (w_net w) → net_wf n1.
Proof. apply net_wf_existing; simpl; auto; [|lia]. intros k. apply insert_none. by eexists. Qed.

Lemma read_open k : instant_open (w_net w) k = true → instant_open n1 k = true.
Proof.
  unfold instant_open; simpl. destruct (decide (k = l)) as [->|].
  - by rewrite lookup_insert_eq, Hch, Hop.
  - by rewrite lookup_insert_ne.
Qed.

Lemma read_others k : k ≠ l → reports n1 k = reports (w_net w) k.
Proof. intros Hne. unfold reports, instant_queue; simpl. by rewrite lookup_insert_ne. Qed.

Lemma read_loaded : net_loaded (w_net w) → net_loaded n1.
Proof.
  intros [M1 M2]. split; [|done]. intros k q. unfold instant_queue; simpl.
  destruct (decide (k = l)) as [->|].
  - rewrite lookup_insert_eq. intros Hin. apply (M1 l). unfold instant_queue. rewrite Hch, Hq. by right.
  - rewrite lookup_insert_ne by done. apply M1.
Qed.
End read.

(** What the end of a child makes of the context of its supervisor. *)
Lemma remove_context o c rt n :
  local_ok rt →
  let '(t, n2) := Tracker.remove (ord_groups o) (ord_ids o) c (tracker_of rt) n in
  let c1 := with_tracker t (rt_context rt) in
  let c2 := if Tracker.is_finished t then Context_stop c1 else c1 in
  net_ext n n2 ∧ ctx_tracker c2 = t ∧ ctx_address c2 = self rt ∧ waits c2 ∧ Tracker.wf t ∧
  lt_records t = delete c (lt_records (tracker_of rt)).
Proof.
  intros [Lw L1 L2 _ _ _].
  pose proof (Tracker.wf_remove (ord_groups o) (ord_ids o) c (tracker_of rt) n L1) as Hwf.
  pose proof (remove_ext (ord_groups o) (ord_ids o) c (tracker_of rt) n L2) as He.
  rewrite Tracker.remove_forget in *.
  pose proof (Tracker.try_terminate_next_progress (ord_groups o) (ord_ids o) (Tracker.forget c (tracker_of rt)) n)
    as Hprog.
  pose proof (Tracker.try_terminate_next_records (ord_groups o) (ord_ids o) (Tracker.forget c (tracker_of rt)) n)
    as Hrec.
  pose proof (Tracker.forget_records c (tracker_of rt)) as Hf.
  destruct (lt_terminating (Tracker.forget c (tracker_of rt))) eqn:Ht.
  - destruct (Tracker.try_terminate_next _ _ _ n) as [t n2]. cbn [fst snd] in *.
    destruct (Tracker.is_finished t) eqn:Hfin; split_and!; try done; try congruence.
    intros _ _. destruct Hprog as [?|?]; [congruence|done].
  - cbn [fst snd] in *. destruct (Tracker.is_finished (Tracker.forget c (tracker_of rt))); split_and!; try done.
    intros Ht'. cbn in Ht'. congruence.
Qed.

(** A parcel at the head of the queue of an actor is received. *)
Lemma inv_parcel o w pairs i rt p ch ch' :
  sys_inv GNone w pairs → w_actors w !! i = Some rt → rt_phase rt = PhSelect →
  net_hp (w_net w) !! joint_hp_msg_rx (rt_joint rt) = Some ch →
  mv_queue (mpsc_view ch) = p :: mv_queue (mpsc_view ch') →
  mv_rx_open (mpsc_view ch') = mv_rx_open (mpsc_view ch) →
  let '(rt', w') := receive_parcel o p rt
    (with_net (set_hp (joint_hp_msg_rx (rt_joint rt)) ch' (w_net w)) w) in
  sys_inv GNone (put rt' w') pairs.
Proof.
  intros Hinv Hi Hp Hch Hq Hop. pose proof (inv_actor _ _ _ Hinv i rt Hi) as Hok.
  pose proof (ok_joint _ _ _ _ Hok) as F3. rewrite F3 in *.
  pose proof (ok_local _ _ _ _ Hok) as F7. pose proof F7 as [Lw L1 L2 L3 L4 L5].
  assert (envelope_loaded (parcel_envelope p) = true) as Hl.
  { apply (proj1 (inv_loaded _ _ _ Hinv) (queue_of rt)). unfold instant_queue. rewrite Hch, Hq. by left. }
  pose proof (read_ext w _ p ch ch' Hch Hq Hop) as Hext.
  unfold receive_parcel. destruct (parcel_operation p) as [c| |deadline] eqn:Hpo.
  - assert (done_of p = Some c) as Hd by (unfold done_of; by rewrite Hpo).
    set (n1 := set_hp (queue_of rt) ch' (w_net w)).
    pose proof (remove_context o c rt n1 F7) as Hrm.
    change (ctx_tracker (rt_context rt)) with (tracker_of rt). cbn [w_net with_net].
    destruct (Tracker.remove _ _ c (tracker_of rt) n1) as [t n2]. cbn [ctx_tracker with_tracker].
    destruct Hrm as (He & Hc1 & Hc2 & Hw2 & Hwf & Hrec).
    set (c2 := if Tracker.is_finished t then _ else _) in *.
    destruct (begin_handle_loaded SrcInstant (parcel_envelope p) (set_context c2 rt) Hl) as [code ->].
    set (rt' := set_phase _ _).
    change (put rt' (with_net n2 (with_net n1 w))) with (with_net n2 (put rt' (with_net n1 w))).
    apply inv_net_ext; [|done].
    apply (inv_receive w pairs i rt rt' c n1); try done; eauto using read_wf, read_open, read_others, read_loaded, inv_net, inv_loaded.
    + by rewrite Hp.
    + split; simpl; try done. by rewrite Hp.
    + split; simpl; try done; unfold tracker_of; simpl; rewrite ?Hc1; [done|].
      intros d r. rewrite Hrec. intros [_ ?]%lookup_delete_Some. by eapply L2.
    + intros d. unfold tracked, tracker_of at 1; simpl. rewrite Hc1, Hrec, lookup_delete_is_Some. naive_solver.
    + by apply (read_reports w _ p ch ch').
  - assert (done_of p = None) as Hd by (unfold done_of; by rewrite Hpo).
    destruct (begin_handle_loaded SrcInstant (parcel_envelope p) rt Hl) as [code ->].
    apply (inv_continue GNone w pairs i rt); try done; [by rewrite Hp|auto].
  - assert (done_of p = None) as Hd by (unfold done_of; by rewrite Hpo).
    apply (inv_continue GNone w pairs i rt); simpl; try done; rewrite ?Hp; auto.
    rewrite dq_insert_view. by constructor.
Qed.

(** Handling a message that was not read from a queue: a scheduled one, or the end
    of a queue. *)
Lemma inv_begin w pairs i rt source code q :
  sys_inv GNone w pairs → w_actors w !! i = Some rt → rt_phase rt = PhSelect →
  Forall (λ x, envelope_loaded x.2 = true) (dq_view q) →
  sys_inv GNone (put (set_phase (PhHandle source code) (set_scheduled q rt)) w) pairs.
Proof.
  intros Hinv Hi Hp Hq. destruct (ok_local _ _ _ _ (inv_actor _ _ _ Hinv i rt Hi)).
  rewrite <-(with_net_id w). apply (inv_continue GNone w pairs i rt); try done. by rewrite Hp.
Qed.

Lemma inv_drained w pairs i rt source code :
  sys_inv GNone w pairs → w_actors w !! i = Some rt → rt_phase rt = PhSelect →
  sys_inv GNone (put (set_phase (PhHandle source code) rt) w) pairs.
Proof.
  intros Hinv Hi Hp. replace (set_phase (PhHandle source code) rt) with
    (set_phase (PhHandle source code) (set_scheduled (rt_scheduled rt) rt)) by by destruct rt.
  apply (inv_begin w pairs i rt); try done. apply (ok_local _ _ _ _ (inv_actor _ _ _ Hinv i rt Hi)).
Qed.

(** Reading a message with normal priority. *)
Lemma inv_envelope w pairs i rt e lch lch' :
  sys_inv GNone w pairs → w_actors w !! i = Some rt → rt_phase rt = PhSelect →
  net_lp (w_net w) !! joint_msg_rx (rt_joint rt) = Some lch →
  mv_queue (mpsc_view lch) = e :: mv_queue (mpsc_view lch') →
  mv_rx_open (mpsc_view lch') = mv_rx_open (mpsc_view lch) →
  sys_inv GNone (put (begin_handle SrcNormal e rt)
    (with_net (set_lp (joint_msg_rx (rt_joint rt)) lch' (w_net w)) w)) pairs.
Proof.
  intros Hinv Hi Hp Hlch Hq Hop. destruct (ok_local _ _ _ _ (inv_actor _ _ _ Hinv i rt Hi)).
  assert (envelope_loaded e = true) as Hl.
  { apply (proj2 (inv_loaded _ _ _ Hinv) (joint_msg_rx (rt_joint rt))).
    unfold normal_queue. rewrite Hlch, Hq. by left. }
  destruct (begin_handle_loaded SrcNormal e rt Hl) as [code ->].
  apply (inv_continue GNone w pairs i rt); try done; [by rewrite Hp|].
  eapply net_ext_set_lp; [done|by rewrite Hop|]. intros e' Hin. left. rewrite Hq. by right.
Qed.

Lemma inv_select o now w w' pairs i rt rt' :
  sys_inv GNone w pairs → w_actors w !! i = Some rt → rt_phase rt = PhSelect →
  select_biased o now rt w = Some (rt', w') → sys_inv GNone (put rt' w') pairs.
Proof.
  intros Hinv Hi Hp. unfold select_biased.
  destruct (ok_local _ _ _ _ (inv_actor _ _ _ Hinv i rt Hi)) as [Lw L1 L2 L3 L4 L5].
  destruct (net_hp (w_net w) !! _) as [ch|] eqn:Hch; simpl; [|done].
  destruct (recv_cases ch) as [[-> _]|[->|(p & ch' & -> & Hq & Hop)]].
  2: { intros [= <- <-]. by apply (inv_drained w pairs i rt). }
  2: { intros [= Heq]. pose proof (inv_parcel o w pairs i rt p ch ch' Hinv Hi Hp Hch Hq Hop) as Hr.
       by rewrite Heq in Hr. }
  destruct (if bool_decide _ then _ else _) as [maybe q] eqn:Hpoll.
  assert (∀ m, maybe = Ready m → dq_poll now (rt_scheduled rt) = (Ready m, q)) as Hdq
    by (intros m ->; by case_bool_decide). clear Hpoll.
  destruct maybe as [|[[e|[]]|]].
  - destruct (net_lp (w_net w) !! _) as [lch|] eqn:Hlch; simpl; [|done].
    destruct (recv_cases lch) as [[-> _]|[->|(e & lch' & -> & Hq & Hop)]]; [done|..]; intros [= <- <-].
    + by apply (inv_drained w pairs i rt).
    + by eapply inv_envelope.
  - destruct (dq_poll_some _ _ _ _ (Hdq _ eq_refl)) as (t & _ & Hperm). rewrite Hperm in L4.
    apply Forall_cons in L4 as [Hl L4]. simpl in Hl.
    destruct (begin_handle_loaded SrcScheduled e (set_scheduled q rt) Hl) as [code ->].
    intros [= <- <-]. by apply (inv_begin w pairs i rt).
  - pose proof (dq_poll_err _ _ _ _ (Hdq _ eq_refl)) as Hview. intros [= <- <-]. rewrite <-(with_net_id w).
    apply (inv_continue GNone w pairs i rt); simpl; try done; rewrite ?Hp; auto. by rewrite Hview.
  - intros [= <- <-]. by apply (inv_drained w pairs i rt).
Qed.

Lemma inv_finish w pairs i rt :
  sys_inv GNone w pairs → w_actors w !! i = Some rt → rt_phase rt = PhFinish →
  sys_inv GNone (put (set_phase PhDone rt) (with_net (entrypoint_end rt (w_net w)) w)) pairs.
Proof.
  intros Hinv Hi Hp.
  destruct (inv_actor_over w pairs i rt Hinv Hi) as (Hlost & Hended & Hno); [by rewrite Hp|].
  set (rtd := set_phase PhDone rt) in *.
  assert (rt_id rt = i) as Hid by apply (inv_actor _ _ _ Hinv i rt Hi).
  assert (w_actors (put rtd w) !! i = Some rtd) as Hi' by (simpl; rewrite Hid; apply lookup_insert_eq).
  pose proof (inv_actor _ _ _ Hlost i rtd Hi') as Hok.
  pose proof (inv_report (put rtd w) pairs (rt_done_notifier rt) i (MsgDone (rt_id rt)) Hlost Hended Hno
    (ok_notifier _ _ _ _ Hok)) as Hrep.
  change (w_net (put rtd w)) with (w_net w) in Hrep. fold (told rt (w_net w)) in Hrep.
  change (with_net (told rt (w_net w)) (put rtd w)) with (put rtd (with_net (told rt (w_net w)) w)) in Hrep.
  pose proof (entrypoint_end_channels rt (w_net w)) as (M1 & M2 & M3 & M4 & M5 & _ & M6 & M7).
  assert (joint_hp_msg_rx (rt_joint rt) = queue_of rtd) as Hj by apply (ok_joint _ _ _ _ Hok).
  rewrite Hj in M1.
  change (put rtd (with_net (entrypoint_end rt (w_net w)) w)) with
    (with_net (entrypoint_end rt (w_net w)) (put rtd (with_net (told rt (w_net w)) w))).
  apply (inv_drop_queue (put rtd (with_net (told rt (w_net w)) w)) pairs i rtd);
    try done; cbn [w_net put with_net].
  - apply net_wf_existing; auto; try rewrite M7; try lia.
    + intros l Hl. rewrite M1. case_decide; by rewrite Hl.
    + intros l Hl. rewrite M2. case_decide; by rewrite Hl.
  - intros l e. unfold normal_queue. rewrite M2. case_decide; [|done].
    destruct (net_lp (told rt (w_net w)) !! l); simpl; [|done].
    rewrite mpsc_drop_rx_view; simpl. by intros ?%not_elem_of_nil.
  - intros l Hl. unfold normal_open. rewrite M2, decide_False; [done|].
    pose proof (wi_normal _ _ (ok_wired _ _ _ _ Hok)) as Hw. change (rt_joint rtd) with (rt_joint rt) in Hw.
    by rewrite Hw.
Qed.

Lemma outside_ext n n' : outside n n' → net_ext n n'.
Proof.
  destruct 1; auto using act_ext, instant_ext, schedule_ext, send_event_ext, interrupt_by_ext,
    terminate_by_ext, attach_ext, recv_start_ext, respond_ext, drop_responder_ext, stop_ext.
Qed.

Lemma gives_up_ext kept n n' : gives_up kept n n' → net_ext n n'.
Proof.
  destruct 1 as [l ch n _ Hl|l ch n _ Hl|l x n _ Hl].
  - eapply net_ext_set_hp; [done|by rewrite mpsc_drop_tx_view..|]. rewrite mpsc_drop_tx_view. auto.
  - eapply net_ext_set_lp; [done|by rewrite mpsc_drop_tx_view|]. rewrite mpsc_drop_tx_view. auto.
  - apply net_ext_set_status. by eexists.
Qed.

Lemma inv_task_end w pairs i lr res :
  sys_inv GNone w pairs → w_tasks w !! i = Some lr →
  sys_inv GNone (mkWorld (lite_entrypoint lr res (w_net w)) (w_actors w) (delete i (w_tasks w))) pairs.
Proof.
  intros Hinv Hi. unfold lite_entrypoint.
  set (n1 := match net_status (w_net w) !! _ with Some _ => _ | None => _ end).
  assert (net_ext (w_net w) n1) as He.
  { unfold n1. destruct (net_status (w_net w) !! _) eqn:E; [|done]. apply net_ext_set_status. by eexists. }
  pose proof (inv_net_ext _ _ _ _ Hinv He) as Hinv1.
  destruct (inv_task_over (with_net n1 w) pairs i lr Hinv1 Hi) as (Hlost & Hended & Hno).
  cbn [with_net w_net w_actors w_tasks] in *. set (msg := MsgTaskDone _ _ _ _).
  pose proof (inv_report _ _ _ _ msg Hlost Hended Hno) as Hrep. apply Hrep.
  destruct (tk_notifier _ _ _ (inv_task _ _ _ Hinv i lr Hi)) as [->|(j & prt & -> & Hj)]; [by left|right].
  by exists j, prt.
Qed.

Lemma inv_step s s' :
  sys_inv GNone (sys_world s) (sys_pairs s) → sys_step s s' → sys_inv GNone (sys_world s') (sys_pairs s').
Proof.
  intros Hinv Hstep. destruct Hstep as [o now i rt rt' w w' pairs pairs' Hi Hs Hm|i lr res w pairs Hi
    |actor w pairs|n' w pairs Ho|n' w pairs Hg]; cbn [sys_world sys_pairs] in *.
  - unfold actor_step, phase_moves in *. destruct (rt_phase rt) as [|source [actor res|cmd k]| | | |] eqn:Hp.
    + subst pairs'. injection Hs as <- <-.
      destruct (ok_local _ _ _ _ (inv_actor _ _ _ Hinv i rt Hi)) as [Lw L1 L2 L3 L4 L5].
      destruct (L3 Hp) as (e & He & Hl). unfold entrypoint_start. rewrite He.
      match goal with |- context [begin_handle SrcAwake e ?r] =>
        destruct (begin_handle_loaded SrcAwake e r Hl) as [code ->] end.
      apply (inv_put GNone w pairs i rt); try done.
      * split; simpl; try done. by rewrite Hp.
      * split; simpl; try done. by apply Tracker.wf_termination_sequence.
    + subst pairs'. injection Hs as <- <-. rewrite <-(with_net_id w).
      destruct (ok_local _ _ _ _ (inv_actor _ _ _ Hinv i rt Hi)) as [Lw L1 L2 L3 L4 L5].
      unfold handler_returned.
      destruct source, res; apply (inv_continue GNone w pairs i rt); try done; by rewrite Hp.
    + destruct (timing now cmd) as [|t|] eqn:Htm; [| |done].
      2: { apply timing_begins in Htm as [d ->]. inversion Hm; subst. injection Hs as <- <-.
           rewrite <-(with_net_id w). apply (inv_continue GNone w pairs' i rt); try done; [by rewrite Hp|].
           apply (ok_local _ _ _ _ (inv_actor _ _ _ Hinv i rt Hi)). }
      pose proof (inv_exec o w pairs pairs' i rt source cmd k Hinv Hi Hp Hm) as He.
      destruct (exec o cmd (rt_context rt) w) as [[rep c] w1]. by injection Hs as <- <-.
    + subst pairs'. destruct (ctx_alive (rt_context rt)).
      * by apply (inv_select o now w w' pairs i rt rt').
      * injection Hs as <- <-. rewrite <-(with_net_id w).
        destruct (ok_local _ _ _ _ (inv_actor _ _ _ Hinv i rt Hi)) as [Lw L1 L2 L3 L4 L5].
        apply (inv_continue GNone w pairs i rt); try done; by rewrite Hp.
    + subst pairs'. injection Hs as <- <-. by apply (inv_finish w pairs i rt).
    + done.
    + done.
  - by apply inv_task_end.
  - unfold System_spawn. pose proof (inv_new_pair _ _ _ Hinv) as Hn.
    destruct (AddressPair_new (w_net w)) as [p n'].
    pose proof (inv_spawn (with_net n' w) [] pairs p actor None Hn) as Hsp. by apply Hsp.
  - apply inv_net_ext; [done|]. by apply outside_ext.
  - apply inv_net_ext; [done|]. by eapply gives_up_ext.
Qed.

Lemma inv_reachable s : sys_reachable s → sys_inv GNone (sys_world s) (sys_pairs s).
Proof.
  intros Hr. unfold sys_reachable in Hr.
  apply (rtc_ind_r (R:=sys_step) (λ s, sys_inv GNone (sys_world s) (sys_pairs s)) sys_init);
    [apply inv_init|..|done].
  intros s1 s2 _ Hs Hi. by apply (inv_step s1).
Qed.
End supervision.
