(* ===== verification/Growth.v ===== *)
(** * What a call only adds to the network

    A call of the framework appends to queues, moves watches forward and allocates
    channels; it takes nothing away.  [NetRel] is the interface of a relation on
    networks that the primitives respect; every call of a handler, of the tracker
    and of the outside then respects it; [DropRel] says that the loss of the last
    sender of a channel respects it too.  Two instances: the high-priority queue at
    a location grows at its end, and the watch at a location only moves towards
    [Stop]. *)
From S2P Require Import Prelude Extern Ids Types Lifecycle Linkage LiteRuntime Handlers ActorRuntime.
From S2P Require Import Tasks NetFrame Invariant.

Section growth.
Context `{!Crates, !App, !ActorImpl}.
Implicit Types (n : Net) (w : World) (rt : ActorRuntime).

(** ** The interface *)

Class NetRel (R : Net → Net → Prop) : Prop := {
  rel_preorder :: PreOrder R;
  rel_instant a p n : R n (high_priority_send a p n).2;
  rel_normal a e n : R n (normal_priority_send a e n).2;
  rel_stop s n : R n (StopSender_stop s n).2;
  rel_reply l o n : R n (set_reply l o n);
  rel_id n : R n (alloc_id n).2;
  rel_hp n : R n (alloc_hp n).2;
  rel_lp n : R n (alloc_lp n).2;
  rel_status n : R n (alloc_status n).2;
  rel_new_reply n : R n (alloc_reply n).2
}.

(** The same of the steps by which a channel loses its last sender. *)
Class DropRel (R : Net → Net → Prop) : Prop :=
  rel_give_up : ∀ kept n n', gives_up kept n n' → R n n'.

Section rel.
Context {R : Net → Net → Prop} `{!NetRel R}.

Lemma rel_notify msg nt n : R n (notify_with msg nt n).2.
Proof. destruct nt; simpl; [reflexivity|apply rel_instant|apply rel_stop]. Qed.

Lemma rel_respond k res n : R n (respond k res n).2.
Proof. unfold respond. destruct (_ <$> _) as [[o|[]]|]; simpl; [apply rel_reply..|reflexivity]. Qed.

Lemma rel_pair n : R n (AddressPair_new n).2.
Proof.
  unfold AddressPair_new. pose proof (rel_id n) as Hi. destruct (alloc_id n) as [i n1].
  etrans; [exact Hi|]. etrans; [exact (rel_hp n1)|]. etrans; [exact (rel_lp _)|]. exact (rel_status _).
Qed.

Lemma rel_lite_spawn task tag sup n : R n (lite_spawn task tag sup n).2.
Proof.
  unfold lite_spawn, make_stop_channel. pose proof (rel_id n) as Hi. destruct (alloc_id n) as [i n1].
  etrans; [exact Hi|]. exact (rel_status n1).
Qed.

Lemma rel_interrupts records ids n :
  R n (Tracker.interrupt_ids (LifecycleNotifier0:=net_notifier) (G:=Group) records ids n).
Proof.
  revert n. induction ids as [|i ids IH]; intros n; cbn [Tracker.interrupt_ids]; [reflexivity|].
  etrans; [|apply IH]. destruct (records !! i); [apply rel_notify|reflexivity].
Qed.

Lemma rel_try_terminate og oi (t : LifetimeTracker Group Notifier) n :
  R n (Tracker.try_terminate_next og oi t n).2.
Proof. rewrite Tracker.try_terminate_next_closed. apply rel_interrupts. Qed.

Lemma rel_remove og oi i (t : LifetimeTracker Group Notifier) n : R n (Tracker.remove og oi i t n).2.
Proof.
  rewrite Tracker.remove_forget. destruct (lt_terminating _); [apply rel_try_terminate|reflexivity].
Qed.

Lemma rel_insert i (r : TRecord Group Notifier) (t : LifetimeTracker Group Notifier) n :
  R n (Tracker.insert_record i r t n).2.
Proof. unfold Tracker.insert_record. simpl. destruct (st_terminating _); [apply rel_notify|reflexivity]. Qed.

Lemma rel_spawn_task task tag group c w :
  R (w_net w) (w_net (Context_spawn_task task tag group c w).2).
Proof.
  unfold Context_spawn_task, Tracker.insert_task.
  pose proof (rel_lite_spawn task tag (Some (Address_clone (ctx_address c))) (w_net w)) as Hl.
  destruct (lite_spawn _ _ _ _) as [[lr stopper] n1].
  match goal with |- context [Tracker.insert_record ?i ?r ?t ?n] =>
    pose proof (rel_insert i r t n) as Hi; destruct (Tracker.insert_record i r t n) end.
  simpl in *. by etrans.
Qed.

Lemma rel_spawn_addr actor p group c w :
  R (w_net w) (w_net (Context_spawn_actor_with_addr actor p group c w).2).
Proof.
  unfold Context_spawn_actor_with_addr, Tracker.insert.
  match goal with |- context [Tracker.insert_record ?i ?r ?t ?n] =>
    pose proof (rel_insert i r t n) as Hi; by destruct (Tracker.insert_record i r t n) end.
Qed.

(** A call of a handler. *)
Lemma rel_on_net {A} (f : Net → A * Net) rep c w :
  R (w_net w) (f (w_net w)).2 → R (w_net w) (w_net (on_net f rep c w).2).
Proof. unfold on_net. by destruct (f (w_net w)). Qed.

Lemma rel_exec o cmd c w : R (w_net w) (w_net (exec o cmd c w).2).
Proof.
  pose proof (λ task tag group, rel_spawn_task task tag group c w) as Htask.
  pose proof (λ actor p group, rel_spawn_addr actor p group c) as Haddr.
  pose proof (λ A, rel_on_net (A:=A)) as Hon.
  destruct cmd; cbn [exec]; try reflexivity.
  - specialize (Haddr actor pair group w). by destruct (Context_spawn_actor_with_addr _ _ _ _ _).
  - unfold Context_spawn_actor. pose proof (rel_pair (w_net w)) as Hp.
    destruct (AddressPair_new (w_net w)) as [p n']. specialize (Haddr actor p group (with_net n' w)).
    destruct (Context_spawn_actor_with_addr _ _ _ _ _). by etrans.
  - specialize (Htask task tag group). by destruct (Context_spawn_task _ _ _ _ _) as [[]].
  - unfold Context_attach. specialize (Htask (StreamForwarder stream (Address_clone (ctx_address c))) tag group).
    by destruct (Context_spawn_task _ _ _ _ _) as [[]].
  - unfold Context_track_interaction. specialize (Htask task tag group).
    by destruct (Context_spawn_task _ _ _ _ _) as [[]].
  - unfold Context_interrupt. pose proof (rel_instant address (Parcel_pack MsgInterrupt) (w_net w)) as Hs.
    unfold interrupt_by. by destruct (high_priority_send _ _ _).
  - unfold Context_shutdown, Tracker.start_termination.
    pose proof (rel_try_terminate (ord_groups o) (ord_ids o) (ctx_tracker c) (w_net w)) as Ht.
    by destruct (Tracker.try_terminate_next _ _ _ _).
  - unfold Context_terminate_group, Tracker.terminate_group. simpl.
    destruct (lt_stages _ !! group); [apply rel_interrupts|reflexivity].
  - apply Hon, rel_pair.
  - unfold System_spawn. pose proof (rel_pair (w_net w)) as Hp. by destruct (AddressPair_new (w_net w)).
  - apply Hon, rel_normal.
  - apply Hon, rel_instant.
  - apply Hon, rel_instant.
  - apply Hon. destruct priority; [apply rel_normal|apply rel_instant].
  - apply Hon, rel_normal.
  - apply Hon, rel_instant.
  - apply Hon, rel_respond.
  - apply Hon, rel_stop.
Qed.

Lemma rel_outside n n' : outside n n' → R n n'.
Proof.
  destruct 1; try apply rel_instant; try apply rel_normal.
  - destruct p; [apply rel_normal|apply rel_instant].
  - unfold recv_start. pose proof (rel_new_reply n) as Ha. destruct (alloc_reply n) as [rx n1].
    pose proof (rel_normal a (Envelope_new (MsgInteract request rx)) n1) as Hs. unfold act.
    destruct (normal_priority_send _ _ n1) as [[] n2]; simpl in *; by etrans.
  - apply rel_respond.
  - unfold drop_responder. destruct (net_replies n !! l); [apply rel_reply|reflexivity].
  - apply rel_stop.
Qed.

(** A step of an actor, when reading its queues and its end respect the relation. *)
Lemma rel_actor_step o now rt w rt' w' :
  actor_step o now rt w = Some (rt', w') →
  (∀ ch n, R n (set_hp (joint_hp_msg_rx (rt_joint rt)) ch n)) →
  (∀ ch n, R n (set_lp (joint_msg_rx (rt_joint rt)) ch n)) →
  (∀ n, R n (entrypoint_end rt n)) → R (w_net w) (w_net w').
Proof.
  intros Hs Hhp Hlp Hend. unfold actor_step in Hs.
  destruct (rt_phase rt) as [|source [actor res|cmd k]| | | |]; try done; try (by simplify_eq).
  - destruct (timing now cmd) as [|t|]; [|by simplify_eq|done].
    pose proof (rel_exec o cmd (rt_context rt) w) as He.
    destruct (exec o cmd (rt_context rt) w) as [[rep c] w1]. by simplify_eq.
  - destruct (ctx_alive _); [|by simplify_eq]. unfold select_biased in Hs.
    destruct (mpsc_recv <$> net_hp (w_net w) !! _) as [[[|[p|]] ch]|]; [| |by simplify_eq|done].
    + destruct (if bool_decide _ then _ else _) as [[|[[e|?]|]] q]; [|by simplify_eq..].
      destruct (mpsc_recv <$> net_lp (w_net w) !! _) as [[[|[e|]] lch]|]; simplify_eq; [apply Hlp|done].
    + unfold receive_parcel in Hs. destruct (parcel_operation p); simplify_eq; try apply Hhp.
      match type of Hs with context [Tracker.remove ?og ?oi ?i ?t ?n] =>
        pose proof (rel_remove og oi i t n) as Hr; destruct (Tracker.remove og oi i t n) end.
      simplify_eq. simpl in *. etrans; [apply Hhp|exact Hr].
Qed.
End rel.

(** ** Locations are used in order, and queues that were closed stay so *)

Record persists n n' : Prop := {
  ps_next : (net_next n ≤ net_next n')%positive;
  ps_status : ∀ l, (l < net_next n)%positive → is_Some (net_status n !! l) → is_Some (net_status n' !! l)
}.

Lemma persists_same n n' :
  net_status n' = net_status n → (net_next n ≤ net_next n')%positive → persists n n'.
Proof. intros Hs Hn. split; [done|]. by rewrite Hs. Qed.

Lemma persists_insert n n' l x :
  net_status n' = <[l := x]> (net_status n) → (net_next n ≤ net_next n')%positive → persists n n'.
Proof. intros Hs Hn. split; [done|]. intros k _ Hk. rewrite Hs, lookup_insert_is_Some'. by right. Qed.

#[export] Instance persists_rel : NetRel persists.
Proof.
  assert (∀ n, persists n n) as Hrefl by (intros n; by apply persists_same).
  split; intros; try (apply persists_same; simpl; [done|lia]).
  - split; [done|]. intros n1 n2 n3 [A1 A2] [B1 B2]. split; [lia|]. intros l Hl Hx. apply B2; [lia|auto].
  - unfold high_priority_send. destruct (_ <$> _) as [[ch|]|]; [by apply persists_same|done..].
  - unfold normal_priority_send. destruct (_ <$> _) as [[ch|]|]; [by apply persists_same|done..].
  - unfold StopSender_stop. destruct (_ <$> _) as [[w|]|]; [by eapply persists_insert|done..].
  - eapply persists_insert; simpl; [done|lia].
Qed.

#[export] Instance persists_drop : DropRel persists.
Proof.
  intros kept n n' [l ch m _ Hl|l ch m _ Hl|l x m _ Hl]; [by apply persists_same..|].
  by eapply persists_insert.
Qed.

(** A queue at [l], which exists, that is open was open before. *)
Record opened (l : loc) n n' : Prop := {
  op_bound : (l < net_next n)%positive → (l < net_next n')%positive;
  op_open : (l < net_next n)%positive → instant_open n' l = true → instant_open n l = true
}.

Lemma opened_same l n n' :
  net_hp n' = net_hp n → (net_next n ≤ net_next n')%positive → opened l n n'.
Proof. intros Hh Hn. split; [lia|]. intros _. unfold instant_open. by rewrite Hh. Qed.

#[export] Instance opened_rel l : NetRel (opened l).
Proof.
  assert (∀ n, opened l n n) as Hrefl by (by split).
  split; intros; try (apply opened_same; simpl; [done|lia]).
  - split; [done|]. intros n1 n2 n3 [A1 A2] [B1 B2]. split; auto.
  - destruct (high_priority_send_cases a p n) as [(ch & ch' & Hc & Ho & _ & _ & ->)|[_ ->]]; [|done].
    split; [done|]. intros _. unfold instant_open; simpl.
    destruct (decide (addr_hp_msg_tx a = l)) as [<-|Hne]; [by rewrite Hc, Ho|by rewrite lookup_insert_ne].
  - unfold normal_priority_send. destruct (_ <$> _) as [[ch|]|]; [|done..]. by apply opened_same.
  - unfold StopSender_stop. destruct (_ <$> _) as [[w|]|]; [|done..]. by apply opened_same.
  - split; simpl; [lia|]. intros Hl. unfold instant_open; simpl. by rewrite lookup_insert_ne by lia.
Qed.

#[export] Instance opened_drop l : DropRel (opened l).
Proof.
  intros kept n n' [k ch m _ Hk|k ch m _ Hk|k x m _ Hk]; [|by apply opened_same..].
  split; [done|]. intros _. unfold instant_open; simpl. destruct (decide (k = l)) as [->|Hne].
  - by rewrite lookup_insert_eq, Hk, mpsc_drop_tx_view.
  - by rewrite lookup_insert_ne.
Qed.

(** ** Queues grow at their end *)

(** The high-priority queue at [l], which exists, only gets new parcels. *)
Record grows (l : loc) n n' : Prop := {
  gr_bound : (l < net_next n)%positive → (l < net_next n')%positive;
  gr_queue : (l < net_next n)%positive → instant_queue n l `prefix_of` instant_queue n' l
}.

Lemma grows_same l n n' :
  net_hp n' = net_hp n → (net_next n ≤ net_next n')%positive → grows l n n'.
Proof. intros Hh Hn. split; [lia|]. intros _. unfold instant_queue. by rewrite Hh. Qed.

Lemma grows_set_hp l k ch n : k ≠ l → grows l n (set_hp k ch n).
Proof. intros Hk. split; [done|]. intros _. unfold instant_queue; simpl. by rewrite lookup_insert_ne. Qed.

Lemma grows_send l a p n : grows l n (high_priority_send a p n).2.
Proof.
  destruct (high_priority_send_cases a p n) as [(ch & ch' & Hc & _ & _ & Hq & ->)|[_ ->]]; [|by split].
  destruct (decide (addr_hp_msg_tx a = l)) as [<-|Hne]; [|by apply grows_set_hp].
  split; [done|]. intros _. unfold instant_queue; simpl. rewrite lookup_insert_eq, Hc, Hq.
  by apply prefix_app_r.
Qed.

Lemma grows_alloc_hp l n : grows l n (alloc_hp n).2.
Proof.
  split; simpl; [lia|]. intros Hl. unfold instant_queue; simpl. by rewrite lookup_insert_ne by lia.
Qed.

#[export] Instance grows_rel l : NetRel (grows l).
Proof.
  assert (∀ n, grows l n n) as Hrefl by (by split).
  split; intros; try apply grows_send; try apply grows_alloc_hp; try (apply grows_same; simpl; [done|lia]).
  - split; [done|]. intros n1 n2 n3 [A1 A2] [B1 B2]. split; [auto|]. intros Hl. etrans; [by apply A2|auto].
  - unfold normal_priority_send. destruct (_ <$> _) as [[ch|]|]; [|done..]. by apply grows_same.
  - unfold StopSender_stop. destruct (_ <$> _) as [[w|]|]; [|done..]. by apply grows_same.
Qed.

#[export] Instance grows_drop l : DropRel (grows l).
Proof.
  intros kept n n' [k ch m _ Hk|k ch m _ Hk|k x m _ Hk]; [|by apply grows_same..].
  split; [done|]. intros _. unfold instant_queue; simpl. destruct (decide (k = l)) as [->|Hne].
  - by rewrite lookup_insert_eq, Hk, mpsc_drop_tx_view.
  - by rewrite lookup_insert_ne.
Qed.

Lemma grows_end l rt n : joint_hp_msg_rx (rt_joint rt) ≠ l → grows l n (entrypoint_end rt n).
Proof.
  intros Hl. pose proof (entrypoint_end_channels rt n) as (M1 & _ & _ & _ & _ & _ & _ & M7).
  etrans; [exact (rel_notify (R:=grows l) (MsgDone (rt_id rt)) (rt_done_notifier rt) n)|]. fold (told rt n).
  split; [by rewrite M7|]. intros _. unfold instant_queue. by rewrite M1, decide_False.
Qed.

(** The same for the normal queue at [l], and for both queues of an address. *)
Record grows_normal (l : loc) n n' : Prop := {
  gn_bound : (l < net_next n)%positive → (l < net_next n')%positive;
  gn_queue : (l < net_next n)%positive → normal_queue n l `prefix_of` normal_queue n' l
}.

Lemma grows_normal_same l n n' :
  net_lp n' = net_lp n → (net_next n ≤ net_next n')%positive → grows_normal l n n'.
Proof. intros Hl Hn. split; [lia|]. intros _. unfold normal_queue. by rewrite Hl. Qed.

Lemma grows_normal_set l k ch n : k ≠ l → grows_normal l n (set_lp k ch n).
Proof. intros Hk. split; [done|]. intros _. unfold normal_queue; simpl. by rewrite lookup_insert_ne. Qed.

Lemma grows_normal_send l a e n : grows_normal l n (normal_priority_send a e n).2.
Proof.
  destruct (normal_priority_send_cases a e n) as [(ch & ch' & Hc & _ & Hq & ->)|[_ ->]]; [|by split].
  destruct (decide (addr_msg_tx a = l)) as [<-|Hne]; [|by apply grows_normal_set].
  split; [done|]. intros _. unfold normal_queue; simpl. rewrite lookup_insert_eq, Hc, Hq.
  by apply prefix_app_r.
Qed.

#[export] Instance grows_normal_rel l : NetRel (grows_normal l).
Proof.
  assert (∀ n, grows_normal l n n) as Hrefl by (by split).
  split; intros; try apply grows_normal_send; try (apply grows_normal_same; simpl; [done|lia]).
  - split; [done|]. intros n1 n2 n3 [A1 A2] [B1 B2]. split; [auto|]. intros Hl. etrans; [by apply A2|auto].
  - unfold high_priority_send. destruct (_ <$> _) as [[ch|]|]; [|done..]. by apply grows_normal_same.
  - unfold StopSender_stop. destruct (_ <$> _) as [[w|]|]; [|done..]. by apply grows_normal_same.
  - split; simpl; [lia|]. intros Hl. unfold normal_queue; simpl. by rewrite lookup_insert_ne by lia.
Qed.

#[export] Instance grows_normal_drop l : DropRel (grows_normal l).
Proof.
  intros kept n n' [k ch m _ Hk|k ch m _ Hk|k x m _ Hk]; [by apply grows_normal_same| |by apply grows_normal_same].
  split; [done|]. intros _. unfold normal_queue; simpl. destruct (decide (k = l)) as [->|Hne].
  - by rewrite lookup_insert_eq, Hk, mpsc_drop_tx_view.
  - by rewrite lookup_insert_ne.
Qed.

Record feeds (a : Address) n n' : Prop := {
  fd_instant : grows (addr_hp_msg_tx a) n n';
  fd_normal : grows_normal (addr_msg_tx a) n n'
}.

#[export] Instance feeds_rel a : NetRel (feeds a).
Proof.
  split; [|intros; split; [apply grows_rel|apply grows_normal_rel]..].
  split; [by split|]. intros n1 n2 n3 [A1 A2] [B1 B2]. split; by etrans.
Qed.

#[export] Instance feeds_drop a : DropRel (feeds a).
Proof. intros kept n n' Hg. split; by eapply rel_give_up. Qed.

Lemma feeds_end a rt n :
  joint_hp_msg_rx (rt_joint rt) ≠ addr_hp_msg_tx a → joint_msg_rx (rt_joint rt) ≠ addr_msg_tx a →
  feeds a n (entrypoint_end rt n).
Proof.
  intros Hh Hl. split; [by apply grows_end|].
  pose proof (entrypoint_end_channels rt n) as (_ & M2 & _ & _ & _ & _ & _ & M7).
  etrans; [exact (rel_notify (R:=grows_normal (addr_msg_tx a)) (MsgDone (rt_id rt)) (rt_done_notifier rt) n)|].
  fold (told rt n). split; [by rewrite M7|]. intros _. unfold normal_queue. by rewrite M2, decide_False.
Qed.

(** A step of an actor, for the queues it does not read. *)
Lemma actor_step_feeds a o now rt w rt' w' :
  actor_step o now rt w = Some (rt', w') → joint_hp_msg_rx (rt_joint rt) ≠ addr_hp_msg_tx a →
  joint_msg_rx (rt_joint rt) ≠ addr_msg_tx a → feeds a (w_net w) (w_net w').
Proof.
  intros Hs Hh Hl. apply (rel_actor_step o now rt w rt' w' Hs); intros.
  - split; [by apply grows_set_hp|by apply grows_normal_same].
  - split; [by apply grows_same|by apply grows_normal_set].
  - by apply feeds_end.
Qed.

Lemma lite_entrypoint_feeds a lr res n : feeds a n (lite_entrypoint lr res n).
Proof.
  unfold lite_entrypoint. etrans; [|apply rel_notify]. destruct (net_status n !! _); [|done].
  split; [by apply grows_same|by apply grows_normal_same].
Qed.

(** ** Watches move towards [Stop] *)

(** A watch of a status: it keeps its receivers, and a new version is [Stop]. *)
Record advances (v v' : WatchView Status) : Prop := {
  adv_receivers : wv_receivers v' = wv_receivers v;
  adv_value : wv_version v' = wv_version v ∧ wv_value v' = wv_value v ∨
              wv_version v < wv_version v' ∧ wv_value v' = Stop;
  adv_tx : wv_tx_alive v = false → wv_tx_alive v' = false
}.

#[export] Instance advances_preorder : PreOrder advances.
Proof.
  split; [by split; auto|]. intros v1 v2 v3 [A1 A2 A3] [B1 B2 B3]. split; [congruence|..|auto].
  destruct A2 as [[A2 A2']|[A2 A2']], B2 as [[B2 B2']|[B2 B2']]; first [left; split; congruence|right; split; [lia|congruence]].
Qed.

(** The watch at [l], which exists, only moves so. *)
Record watched (l : loc) n n' : Prop := {
  wd_bound : (l < net_next n)%positive → (l < net_next n')%positive;
  wd_watch : (l < net_next n)%positive → ∀ x, net_status n !! l = Some x →
    ∃ x', net_status n' !! l = Some x' ∧ advances (watch_view x) (watch_view x')
}.

Lemma watched_same l n n' :
  net_status n' = net_status n → (net_next n ≤ net_next n')%positive → watched l n n'.
Proof. intros Hs Hn. split; [lia|]. intros _ w Hw. exists w. by rewrite Hs. Qed.

Lemma watched_set l k x n :
  (∀ x0, k = l → net_status n !! l = Some x0 → advances (watch_view x0) (watch_view x)) →
  watched l n (set_status k x n).
Proof.
  intros Hk. split; [done|]. intros _ w0 Hw. simpl. destruct (decide (k = l)) as [->|Hne].
  - exists x. rewrite lookup_insert_eq. auto.
  - exists w0. by rewrite lookup_insert_ne.
Qed.

Lemma advances_send (w w' : Wt Status) : watch_send Stop w = Ok w' → advances (watch_view w) (watch_view w').
Proof.
  intros Hs. destruct (decide (wv_receivers (watch_view w) = 0)) as [Hz|Hz].
  - by rewrite watch_send_err in Hs.
  - destruct (watch_send_ok Stop w Hz) as (w1 & Hs' & Hv). rewrite Hs' in Hs. injection Hs as ->.
    rewrite Hv. split; simpl; auto.
Qed.

Lemma watched_new l n : watched l n (alloc_status n).2.
Proof.
  split; simpl; [lia|]. intros Hl w Hw. exists w. by rewrite lookup_insert_ne by lia.
Qed.

#[export] Instance watched_rel l : NetRel (watched l).
Proof.
  assert (∀ n, watched l n n) as Hrefl by (intros n; by apply watched_same).
  split; intros; try apply watched_new; try (apply watched_same; simpl; [done|lia]).
  - split; [done|]. intros n1 n2 n3 [A1 A2] [B1 B2]. split; [auto|]. intros Hl w Hw.
    destruct (A2 Hl w Hw) as (w' & Hw' & ?). destruct (B2 (A1 Hl) w' Hw') as (w2 & Hw2 & ?).
    exists w2. split; [done|]. by etrans.
  - unfold high_priority_send. destruct (_ <$> _) as [[ch|]|]; [|done..]. by apply watched_same.
  - unfold normal_priority_send. destruct (_ <$> _) as [[ch|]|]; [|done..]. by apply watched_same.
  - unfold StopSender_stop. destruct (net_status n !! stop_tx s) as [w|] eqn:Hw; [|done]. simpl.
    destruct (watch_send Stop w) as [w'|] eqn:Hs; [|done]. apply watched_set. intros w0 Heq Hw0.
    rewrite Heq in Hw. assert (w0 = w) as -> by congruence. by apply advances_send.
Qed.

#[export] Instance watched_drop l : DropRel (watched l).
Proof.
  intros kept n n' [k ch m _ Hk|k ch m _ Hk|k x m _ Hk]; [by apply watched_same..|].
  apply watched_set. intros x0 -> Hx. assert (x0 = x) as -> by congruence.
  rewrite watch_drop_tx_view. by split; auto.
Qed.

(** The end of an actor: its own watch says [Stop] and loses its sender. *)
Lemma watched_end l rt n : watched l n (entrypoint_end rt n).
Proof.
  unfold entrypoint_end.
  etrans; [exact (rel_notify (R:=watched l) (MsgDone (rt_id rt)) (rt_done_notifier rt) n)|].
  set (n1 := (notify_with _ _ n).2). set (n2 := match net_status n1 !! _ with Some _ => _ | None => _ end).
  assert (watched l n1 n2) as H12.
  { unfold n2. destruct (net_status n1 !! _) as [w|] eqn:Hw; [|done].
    destruct (watch_is_closed w); [done|]. destruct (watch_send Stop w) as [w'|] eqn:Hs; [|done].
    apply watched_set. intros w0 Heq Hw0. rewrite Heq in Hw. assert (w0 = w) as -> by congruence.
    by apply advances_send. }
  etrans; [exact H12|]. clearbody n2. clear n1 H12.
  destruct (drop_responders_frame (queued_responders rt n2) n2) as (_ & _ & D3 & _ & D5 & _).
  cbv zeta in *. set (nr := foldr drop_responder n2 _) in *.
  etrans; [apply (watched_same l n2 nr); [done|by rewrite D5]|]. clearbody nr. clear n2 D3 D5. rename nr into n2.
  set (n3 := match net_hp n2 !! _ with Some _ => _ | None => _ end).
  etrans; [apply (watched_same l n2 n3); unfold n3; by destruct (net_hp n2 !! _)|]. clearbody n3.
  set (n4 := match net_lp n3 !! _ with Some _ => _ | None => _ end).
  etrans; [apply (watched_same l n3 n4); unfold n4; by destruct (net_lp n3 !! _)|]. clearbody n4.
  destruct (net_status n4 !! _) as [w|] eqn:Hw; [|done]. apply watched_set. intros w0 Heq Hw0.
  rewrite Heq in Hw. assert (w0 = w) as -> by congruence. rewrite watch_drop_tx_view. by split; auto.
Qed.

Lemma entrypoint_end_persists rt n : persists n (entrypoint_end rt n).
Proof.
  pose proof (entrypoint_end_channels rt n) as (_ & _ & _ & _ & _ & _ & _ & M7). split.
  - rewrite M7. apply (rel_notify (R:=persists) (MsgDone (rt_id rt)) (rt_done_notifier rt) n).
  - intros l Hl [x Hx]. destruct (wd_watch _ _ _ (watched_end l rt n) Hl x Hx) as (x' & ? & _). by exists x'.
Qed.

Lemma actor_step_persists o now rt w rt' w' :
  actor_step o now rt w = Some (rt', w') → persists (w_net w) (w_net w').
Proof.
  intros Hs. apply (rel_actor_step o now rt w rt' w' Hs); intros;
    [by apply persists_same..|apply entrypoint_end_persists].
Qed.

Lemma step_persists s s' : sys_step s s' → persists (w_net (sys_world s)) (w_net (sys_world s')).
Proof.
  destruct 1 as [o now j rtj rtj' w w' pairs pairs' Hj Hs Hm|j lr res w pairs Hj|actor w pairs|n' w pairs Ho
    |n' w pairs Hg];
    cbn [sys_world].
  - exact (actor_step_persists _ _ _ _ _ _ Hs).
  - unfold lite_entrypoint. etrans; [|apply rel_notify].
    destruct (net_status (w_net w) !! _); [by eapply persists_insert|done].
  - unfold System_spawn. pose proof (rel_pair (R:=persists) (w_net w)) as Hp. by destruct (AddressPair_new (w_net w)).
  - by apply rel_outside.
  - by eapply rel_give_up.
Qed.

(** A step of an actor, for every watch. *)
Lemma actor_step_watched l o now rt w rt' w' :
  actor_step o now rt w = Some (rt', w') → watched l (w_net w) (w_net w').
Proof.
  intros Hs. apply (rel_actor_step o now rt w rt' w' Hs); intros;
    [by apply watched_same..|apply watched_end].
Qed.

(** The end of a task, for the watches of the others. *)
Lemma lite_entrypoint_watched l lr res n :
  rx_loc (stop_status (lr_stop_receiver lr)) ≠ l → watched l n (lite_entrypoint lr res n).
Proof.
  intros Hl. unfold lite_entrypoint. etrans; [|apply rel_notify].
  destruct (net_status n !! _); [|done]. by apply watched_set.
Qed.
End growth.
