(* ===== verification/Supervision.v ===== *)
(** * The supervision tree

    What holds of every reachable system ([Invariant.sys_step]): children are
    accounted for, actors stop for a reason, nothing panics, queues are private; and
    a way to run a system, which the witnesses use. *)
From S2P Require Import Prelude Extern Ids Types Lifecycle Linkage LiteRuntime Handlers ActorRuntime.
From S2P Require Import Tasks NetFrame Invariant.

Section supervision.
Context `{!Crates, !App, !ActorImpl}.
Implicit Types (n : Net) (w : World) (rt : ActorRuntime).

(** ** Other actors are left alone *)

Lemma on_net_actors {A} (f : Net → A * Net) rep c w : w_actors (on_net f rep c w).2 = w_actors w.
Proof. unfold on_net. by destruct (f (w_net w)). Qed.

Lemma spawn_with_addr_actors actor p group c w i rt :
  w_actors w !! pair_id p = None → w_actors w !! i = Some rt →
  w_actors (Context_spawn_actor_with_addr actor p group c w).2 !! i = Some rt.
Proof.
  intros Hp Hi. unfold Context_spawn_actor_with_addr. destruct (Tracker.insert _ _ _ _). simpl.
  rewrite lookup_insert_ne; [done|]. intros Heq. change (pair_id p = i) in Heq. congruence.
Qed.

Lemma exec_actors o cmd c w pairs pairs' i rt :
  sys_inv GNone w pairs → moves w cmd pairs pairs' → w_actors w !! i = Some rt →
  w_actors (exec o cmd c w).2 !! i = Some rt.
Proof.
  intros Hinv Hm Hi. pose proof (inv_new_pair _ _ _ Hinv) as Hn.
  destruct cmd; cbn [exec]; rewrite ?on_net_actors; try done.
  - inversion Hm; subst; [|done].
    pose proof (inv_pair _ _ _ Hinv pair ltac:(set_solver)) as Hp.
    pose proof (spawn_with_addr_actors actor pair group c w i rt (pr_actor _ _ Hp) Hi) as Hs.
    by destruct (Context_spawn_actor_with_addr _ _ _ _ _).
  - unfold Context_spawn_actor. destruct (AddressPair_new (w_net w)) as [p n']. cbn [fst snd] in Hn.
    pose proof (inv_pair _ _ _ Hn p ltac:(left)) as Hp.
    pose proof (spawn_with_addr_actors actor p group c (with_net n' w) i rt (pr_actor _ _ Hp) Hi) as Hs.
    by destruct (Context_spawn_actor_with_addr _ _ _ _ _).
  - unfold Context_interrupt. by destruct (interrupt_by _ _).
  - unfold Context_shutdown. by destruct (Tracker.start_termination _ _ _ _).
  - unfold System_spawn. destruct (AddressPair_new (w_net w)) as [p n']. cbn [fst snd] in Hn.
    pose proof (inv_pair _ _ _ Hn p ltac:(left)) as Hp. simpl.
    rewrite lookup_insert_ne; [done|]. intros Heq. change (pair_id p = i) in Heq.
    pose proof (pr_actor _ _ Hp) as Hno. simpl in Hno. congruence.
Qed.

Lemma select_actors o now rt w rt' w' :
  select_biased o now rt w = Some (rt', w') → w_actors w' = w_actors w.
Proof.
  unfold select_biased. intros Hs.
  destruct (mpsc_recv <$> net_hp (w_net w) !! _) as [[[|[p|]] ch]|]; [| |by simplify_eq|done].
  - destruct (if bool_decide _ then _ else _) as [[|[[e|?]|]] q]; [|by simplify_eq..].
    destruct (mpsc_recv <$> net_lp (w_net w) !! _) as [[[|[e|]] lch]|]; by simplify_eq.
  - unfold receive_parcel in Hs. destruct (parcel_operation p); [|by simplify_eq..].
    destruct (Tracker.remove _ _ _ _ _). by simplify_eq.
Qed.

Lemma actor_step_others o now w w' pairs pairs' i j rt rtj rtj' :
  sys_inv GNone w pairs → w_actors w !! j = Some rtj → actor_step o now rtj w = Some (rtj', w') →
  phase_moves w (rt_phase rtj) pairs pairs' → w_actors w !! i = Some rt →
  w_actors w' !! i = Some rt.
Proof.
  intros Hinv Hj Hs Hm Hi. unfold actor_step, phase_moves in *.
  destruct (rt_phase rtj) as [|source [actor res|cmd k]| | | |]; try done; try by simplify_eq.
  - destruct (timing now cmd) as [|t|]; [|by simplify_eq|done].
    pose proof (exec_actors o cmd (rt_context rtj) w pairs pairs' i rt Hinv Hm Hi) as He.
    destruct (exec o cmd (rt_context rtj) w) as [[rep c] w1]. by simplify_eq.
  - destruct (ctx_alive _); [|by simplify_eq]. by rewrite (select_actors _ _ _ _ _ _ Hs).
Qed.

(** ** When an actor stops *)

Definition alive rt : bool := ctx_alive (rt_context rt).

(** Stopped for good reason: it was terminating, and no child is left. *)
Definition terminated rt : Prop :=
  lt_terminating (tracker_of rt) = true ∧ Tracker.is_finished (tracker_of rt) = true.

Lemma exec_alive o cmd c w :
  ctx_alive c = true → ctx_alive (exec o cmd c w).1.2 = false →
  cmd = CmdStop ∨ lt_terminating (ctx_tracker (exec o cmd c w).1.2) = true ∧
                  Tracker.is_finished (ctx_tracker (exec o cmd c w).1.2) = true.
Proof.
  intros Ha. assert (∀ A (f : Net → A * Net) rep, ctx_alive (on_net f rep c w).1.2 = true) as Hon.
  { intros A f rep. unfold on_net. by destruct (f (w_net w)). }
  destruct cmd; cbn [exec]; rewrite ?Hon; simpl; try congruence; auto.
  - unfold Context_interrupt. destruct (interrupt_by _ _). simpl. congruence.
  - unfold Context_shutdown, Tracker.start_termination.
    pose proof (Tracker.try_terminate_next_terminating (ord_groups o) (ord_ids o) (ctx_tracker c) (w_net w)) as Ht.
    destruct (Tracker.try_terminate_next _ _ _ _) as [t n]. cbn [fst snd with_tracker ctx_tracker] in *.
    destruct (Tracker.is_finished t) eqn:Hf; simpl; [auto|congruence].
Qed.

(** The end of a child stops an actor only when it is terminating: otherwise the
    group of the child is still open. *)
Lemma remove_terminated og oi c (t : LifetimeTracker Group Notifier) n :
  Tracker.wf t → is_Some (lt_records t !! c) →
  Tracker.is_finished (Tracker.remove og oi c t n).1 = true →
  lt_terminating (Tracker.remove og oi c t n).1 = true.
Proof.
  intros Hwf [r Hr] Hf. rewrite Tracker.remove_forget in *.
  destruct (lt_terminating (Tracker.forget c t)) eqn:Ht.
  { apply Tracker.try_terminate_next_terminating. }
  cbn [fst] in *. exfalso.
  destruct (Tracker.wf_records _ Hwf c r Hr) as (st & Hg & _).
  rewrite Tracker.forget_terminating in Ht.
  pose proof (Tracker.wf_terminating _ Hwf Ht _ _ Hg) as Hst.
  rewrite Tracker.is_finished_spec in Hf.
  destruct (Hf (rec_group r) (stage_del c st)) as [Hd _]; [|simpl in Hd; congruence].
  unfold Tracker.forget. rewrite Hr. simpl. rewrite Hg. simpl. by rewrite lookup_insert_eq.
Qed.

Lemma receive_alive o p rt w c :
  alive rt = true → Tracker.wf (tracker_of rt) →
  (parcel_operation p = OpDone c → tracked rt c) → (∀ d, parcel_operation p = OpDone d → d = c) →
  alive (receive_parcel o p rt w).1 = false → terminated (receive_parcel o p rt w).1.
Proof.
  intros Ha Hwf Htr Hc. unfold alive in *.
  assert (∀ src e r, rt_context (begin_handle src e r) = rt_context r) as Hb.
  { intros src e r. unfold begin_handle. by destruct (Envelope_handle e (rt_actor r)) as [[]|]. }
  unfold receive_parcel. destruct (parcel_operation p) as [d| |deadline] eqn:Hp.
  - rewrite (Hc d eq_refl) in *. pose proof (remove_terminated (ord_groups o) (ord_ids o) c
      (tracker_of rt) (w_net w) Hwf (Htr eq_refl)) as Hr.
    change (ctx_tracker (rt_context rt)) with (tracker_of rt).
    destruct (Tracker.remove _ _ c (tracker_of rt) (w_net w)) as [t n]. cbn [fst] in *.
    unfold terminated, tracker_of. rewrite Hb. cbn [rt_context set_context ctx_tracker with_tracker].
    destruct (Tracker.is_finished t) eqn:Hf; simpl; [|congruence]. auto.
  - cbn [fst]. rewrite Hb. congruence.
  - simpl. congruence.
Qed.

Lemma select_alive o now w w' pairs i rt rt' :
  sys_inv GNone w pairs → w_actors w !! i = Some rt → rt_phase rt = PhSelect → alive rt = true →
  select_biased o now rt w = Some (rt', w') → alive rt' = false → terminated rt'.
Proof.
  intros Hinv Hi Hp Ha. pose proof (inv_actor _ _ _ Hinv i rt Hi) as Hok.
  assert (∀ src e r, alive (begin_handle src e r) = alive r) as Hb.
  { intros src e r. unfold begin_handle. by destruct (Envelope_handle e (rt_actor r)) as [[]|]. }
  unfold select_biased. intros Hs.
  destruct (net_hp (w_net w) !! _) as [ch|] eqn:Hch; simpl in Hs; [|done].
  destruct (recv_cases ch) as [[Hrecv _]|[Hrecv|(p & ch' & Hrecv & Hq & Hop)]]; rewrite Hrecv in Hs.
  - assert (alive rt' = true); [|congruence].
    destruct (if bool_decide _ then _ else _) as [[|[[e|?]|]] q]; [|by simplify_eq; rewrite ?Hb..].
    destruct (mpsc_recv <$> net_lp (w_net w) !! _) as [[[|[e|]] lch]|]; simplify_eq; by rewrite ?Hb.
  - simplify_eq. unfold alive in *. simpl. congruence.
  - injection Hs as Hs. intros Hf.
    replace rt' with (receive_parcel o p rt (with_net (set_hp (joint_hp_msg_rx (rt_joint rt)) ch' (w_net w)) w)).1
      in * by by rewrite Hs.
    destruct (parcel_operation p) as [c| |] eqn:Hpo.
    + apply (receive_alive o p rt _ c); try done; [apply Hok|..|by rewrite Hpo; intros ? [= <-]].
      intros _. apply (ok_exact_none w i rt c Hok); [by rewrite Hp|right].
      rewrite (ok_joint _ _ _ _ Hok) in Hch. unfold reports, instant_queue. rewrite Hch, Hq. simpl.
      unfold done_of at 1. rewrite Hpo. left.
    + apply (receive_alive o p rt _ i); try done; [apply Hok|by rewrite Hpo..].
    + apply (receive_alive o p rt _ i); try done; [apply Hok|by rewrite Hpo..].
Qed.

(** How the step of an actor can stop it. *)
Lemma actor_step_alive o now w w' pairs i rt rt' :
  sys_inv GNone w pairs → w_actors w !! i = Some rt → actor_step o now rt w = Some (rt', w') →
  alive rt = true → alive rt' = false →
  (∃ source k, rt_phase rt = PhHandle source (CDo CmdStop k)) ∨ terminated rt'.
Proof.
  intros Hinv Hi Hs Ha Hf. unfold actor_step in Hs.
  destruct (rt_phase rt) as [|source [actor res|cmd k]| | | |] eqn:Hp; try done; try (simplify_eq; done).
  - simplify_eq. exfalso. revert Hf. unfold entrypoint_start, alive in *.
    destruct (rt_awake_envelope rt); simpl; [|congruence]. unfold begin_handle.
    destruct (Envelope_handle _ _) as [[]|]; simpl; congruence.
  - simplify_eq. exfalso. revert Hf. unfold handler_returned, alive in *.
    destruct source, res; simpl; congruence.
  - destruct (timing now cmd) as [|t|]; [|simplify_eq; unfold alive in *; simpl in *; congruence|done].
    pose proof (exec_alive o cmd (rt_context rt) w Ha) as He.
    destruct (exec o cmd (rt_context rt) w) as [[rep c] w1]. simplify_eq. cbn [fst snd] in He.
    destruct (He Hf) as [-> |?]; [left; eauto|by right].
  - unfold alive in Ha. rewrite Ha in Hs. right. by eapply select_alive.
  - simplify_eq. unfold alive in *. simpl in *. congruence.
Qed.

Lemma actor_step_id o now rt w rt' w' : actor_step o now rt w = Some (rt', w') → rt_id rt' = rt_id rt.
Proof.
  assert (∀ src e r, rt_id (begin_handle src e r) = rt_id r) as Hb.
  { intros src e r. unfold begin_handle. by destruct (Envelope_handle e (rt_actor r)) as [[]|]. }
  unfold actor_step. intros Hs.
  destruct (rt_phase rt) as [|source [actor res|cmd k]| | | |]; try done; try (by simplify_eq).
  - simplify_eq. unfold entrypoint_start. destruct (rt_awake_envelope rt); [by rewrite Hb|done].
  - simplify_eq. unfold handler_returned. by destruct source, res.
  - destruct (timing now cmd) as [|t|]; [|by simplify_eq|done].
    destruct (exec _ _ _ _) as [[? ?] ?]. by simplify_eq.
  - destruct (ctx_alive _); [|by simplify_eq]. unfold select_biased in Hs.
    destruct (mpsc_recv <$> net_hp (w_net w) !! _) as [[[|[p|]] ch]|]; [| |by simplify_eq|done].
    + destruct (if bool_decide _ then _ else _) as [[|[[e|?]|]] q]; [|by simplify_eq; rewrite ?Hb..].
      destruct (mpsc_recv <$> net_lp (w_net w) !! _) as [[[|[e|]] lch]|]; simplify_eq; by rewrite ?Hb.
    + unfold receive_parcel in Hs. destruct (parcel_operation p); [|by simplify_eq; rewrite ?Hb..].
      destruct (Tracker.remove _ _ _ _ _). simplify_eq. by rewrite Hb.
Qed.

Lemma actor_step_done o now rt w rt' w' :
  actor_step o now rt w = Some (rt', w') → rt_phase rt' = PhDone →
  rt_phase rt = PhFinish ∧ rt' = set_phase PhDone rt ∧ w' = with_net (entrypoint_end rt (w_net w)) w.
Proof.
  assert (∀ src e r, rt_phase (begin_handle src e r) ≠ PhDone) as Hb.
  { intros src e r. unfold begin_handle. by destruct (Envelope_handle e (rt_actor r)) as [[]|]. }
  unfold actor_step. intros Hs Hd.
  destruct (rt_phase rt) as [|source [actor res|cmd k]| | | |] eqn:Hp; try done; try (by simplify_eq).
  - simplify_eq. revert Hd. unfold entrypoint_start. destruct (rt_awake_envelope rt); [|done].
    intros Hd. by apply Hb in Hd.
  - simplify_eq. revert Hd. unfold handler_returned. by destruct source, res.
  - destruct (timing now cmd) as [|t|]; [|by simplify_eq|done].
    destruct (exec _ _ _ _) as [[? ?] ?]. by simplify_eq.
  - destruct (ctx_alive _); [|by simplify_eq]. unfold select_biased in Hs.
    destruct (mpsc_recv <$> net_hp (w_net w) !! _) as [[[|[p|]] ch]|]; [| |by simplify_eq|done].
    + destruct (if bool_decide _ then _ else _) as [[|[[e|?]|]] q];
        [|simplify_eq; try (by apply Hb in Hd); simpl in Hd; congruence..].
      destruct (mpsc_recv <$> net_lp (w_net w) !! _) as [[[|[e|]] lch]|]; simplify_eq;
        try (by apply Hb in Hd).
    + unfold receive_parcel in Hs. destruct (parcel_operation p);
        [|simplify_eq; try (by apply Hb in Hd); simpl in Hd; congruence..].
      destruct (Tracker.remove _ _ _ _ _). simplify_eq. by apply Hb in Hd.
Qed.

(** ** What holds of every reachable system *)

(** C1: every child is accounted for.  The children the tracker of an actor that
    is not over holds are exactly its children that run (actors and tasks) and
    those whose end waits in its queue; none is both, and no end is reported
    twice.  So a child is never forgotten while it runs, and its end is never
    lost. *)
Theorem children_accounted s i rt c :
  sys_reachable s → w_actors (sys_world s) !! i = Some rt → rt_phase rt ≠ PhDone →
  (tracked rt c ↔
    live_child (sys_world s) (self rt) c ∨ c ∈ reports (w_net (sys_world s)) (queue_of rt)) ∧
  ¬ (live_child (sys_world s) (self rt) c ∧ c ∈ reports (w_net (sys_world s)) (queue_of rt)) ∧
  NoDup (reports (w_net (sys_world s)) (queue_of rt)).
Proof.
  intros Hr Hi Hd. pose proof (inv_reachable s Hr) as Hinv.
  split; [by apply (ok_exact_none _ i), Hd; apply (inv_actor _ _ _ Hinv)|].
  split; [|apply (inv_nodup _ _ _ Hinv)].
  intros [Hl Hc]. apply (inv_ended _ _ _ Hinv) in Hc as (_ & Ht & Ha & _).
  destruct Hl as [(r & Hr' & _ & Hnd)|(lr & Hlr & _)]; [by apply Hnd, Ha|congruence].
Qed.

(** C2: an actor stops gracefully.  When the step of a system stops an actor,
    either its handler called [stop], or the actor was terminating and, at that
    moment, none of its children runs and no end of a child is unread: it is
    never stopped by the end of a child it was not waiting for. *)
Theorem graceful_stop s s' i rt rt' :
  sys_reachable s → sys_step s s' →
  w_actors (sys_world s) !! i = Some rt → w_actors (sys_world s') !! i = Some rt' →
  alive rt = true → alive rt' = false →
  (∃ source k, rt_phase rt = PhHandle source (CDo CmdStop k)) ∨
  (lt_terminating (tracker_of rt') = true ∧
   ∀ c, ¬ live_child (sys_world s') (self rt') c ∧
        c ∉ reports (w_net (sys_world s')) (queue_of rt')).
Proof.
  intros Hr Hstep Hi Hi' Ha Hf. pose proof (inv_reachable s Hr) as Hinv.
  pose proof (inv_step s s' Hinv Hstep) as Hinv'.
  destruct Hstep as [o now j rtj rtj' w w' pairs pairs' Hj Hs Hm|j lr res w pairs Hj
    |actor w pairs|n' w pairs Ho|n' w pairs Hg]; cbn [sys_world sys_pairs] in *.
  - assert (rt_id rtj' = j) as Hid.
    { rewrite (actor_step_id _ _ _ _ _ _ Hs). apply (inv_actor _ _ _ Hinv j rtj Hj). }
    destruct (decide (j = i)) as [->|Hne].
    + assert (rtj = rt) as -> by congruence.
      assert (rtj' = rt') as -> by (simpl in Hi'; rewrite Hid, lookup_insert_eq in Hi'; congruence).
      destruct (actor_step_alive o now w w' pairs i rt rt' Hinv Hi Hs Ha Hf) as [?|[Ht Hfin]]; [by left|right].
      split; [done|]. intros c.
      assert (rt_phase rt' ≠ PhDone) as Hd.
      { intros Hd. apply (actor_step_done _ _ _ _ _ _ Hs) in Hd as (_ & -> & _). unfold alive in *; simpl in *; congruence. }
      pose proof (inv_actor _ _ _ Hinv' i rt' Hi') as Hok.
      pose proof (ok_exact_none _ i rt' c Hok Hd) as Hx.
      pose proof (Tracker.finished_no_records _ (local_wf _ (ok_local _ _ _ _ Hok)) Hfin) as He.
      assert (¬ tracked rt' c) as Hnt by (unfold tracked; rewrite He, lookup_empty; by intros []).
      rewrite Hx in Hnt. tauto.
    + exfalso. pose proof (actor_step_others o now w w' pairs pairs' i j rt rtj rtj' Hinv Hj Hs Hm Hi) as Hk.
      simpl in Hi'. rewrite Hid, lookup_insert_ne in Hi' by done. congruence.
  - simpl in *. congruence.
  - exfalso. unfold System_spawn in Hi'. pose proof (inv_new_pair _ _ _ Hinv) as Hn.
    destruct (AddressPair_new (w_net w)) as [p n']. cbn [fst snd] in *.
    pose proof (pr_actor _ _ (inv_pair _ _ _ Hn p ltac:(left))) as Hp. simpl in Hi', Hp.
    rewrite lookup_insert_ne in Hi'; [congruence|]. intros Heq. change (pair_id p = i) in Heq. congruence.
  - simpl in Hi'. congruence.
  - simpl in Hi'. congruence.
Qed.

(** What a terminating actor waits for. *)
Lemma waiting_child s i rt :
  sys_reachable s → w_actors (sys_world s) !! i = Some rt → rt_phase rt ≠ PhDone →
  alive rt = true → lt_terminating (tracker_of rt) = true →
  ∃ g st c, lt_stages (tracker_of rt) !! g = Some st ∧ st_terminating st = true ∧ c ∈ st_ids st ∧
    (live_child (sys_world s) (self rt) c ∨ c ∈ reports (w_net (sys_world s)) (queue_of rt)).
Proof.
  intros Hr Hi Hd Ha Ht. pose proof (inv_actor _ _ _ (inv_reachable s Hr) i rt Hi) as Hok.
  destruct (ok_local _ _ _ _ Hok) as [Lw L1 _ _ _ _]. destruct (Lw Ht Ha) as (g & st & Hg & Hst & Hne).
  apply set_choose_L in Hne as [c Hc]. exists g, st, c. split; [done|]. split; [done|]. split; [done|].
  apply (ok_exact_none _ i rt c Hok Hd). destruct (Tracker.wf_stages _ L1 g st c Hg Hc) as (r & Hrec & _).
  by exists r.
Qed.

(** A termination is never stuck.  A terminating actor that is still alive
    waits for something that will come: some group that was asked to terminate
    has a child, and that child runs or its end is in the queue of the actor. *)
Theorem termination_never_stuck s i rt :
  sys_reachable s → w_actors (sys_world s) !! i = Some rt → rt_phase rt ≠ PhDone →
  alive rt = true → lt_terminating (tracker_of rt) = true →
  ∃ g st c, lt_stages (tracker_of rt) !! g = Some st ∧ st_terminating st = true ∧ c ∈ st_ids st ∧
    (live_child (sys_world s) (self rt) c ∨ c ∈ reports (w_net (sys_world s)) (queue_of rt)).
Proof. apply waiting_child. Qed.


(** C22: addresses are private.  Every actor reads both queues of its own address,
    under its own id, and releases those who join that address; no two actors share
    a queue, of high or of normal priority, whether they were spawned from a fresh
    pair or from one that was made before; and while an actor is not over both its
    queues accept what is sent to it. *)
Theorem actors_private s i j rt rtj :
  sys_reachable s →
  w_actors (sys_world s) !! i = Some rt → w_actors (sys_world s) !! j = Some rtj →
  rt_id rt = i ∧ joint_hp_msg_rx (rt_joint rt) = addr_hp_msg_tx (self rt) ∧
  joint_msg_rx (rt_joint rt) = addr_msg_tx (self rt) ∧
  joint_join_tx (rt_joint rt) = rx_loc (addr_join_rx (self rt)) ∧
  (addr_hp_msg_tx (self rt) = addr_hp_msg_tx (self rtj) → i = j) ∧
  (addr_msg_tx (self rt) = addr_msg_tx (self rtj) → i = j) ∧
  (rt_phase rt ≠ PhDone →
    (∀ p, (high_priority_send (self rt) p (w_net (sys_world s))).1 = Ok tt) ∧
    (∀ e, (normal_priority_send (self rt) e (w_net (sys_world s))).1 = Ok tt)).
Proof.
  intros Hr Hi Hj. pose proof (inv_reachable s Hr) as Hinv.
  destruct (inv_actor _ _ _ Hinv i rt Hi) as [F1 F2 F3 Fb F4 F5 F6 F7 [W1 W2 W3 W4] F9].
  destruct (inv_actor _ _ _ Hinv j rtj Hj) as [_ _ _ _ _ _ _ _ [_ _ _ V4] _].
  assert (addr_hp_msg_tx (self rt) = addr_hp_msg_tx (self rtj) → i = j) as Hinj.
  { intros Hq. apply (inv_holders _ _ _ Hinv i j (queue_of rt)); left; [by exists rt|by exists rtj]. }
  repeat (split; [done|]). split.
  - intros Hq. apply Hinj, Pos.succ_inj. by rewrite <-W4, <-V4.
  - intros Hd. split; [intros p; by destruct (high_priority_send_open (self rt) p _ (F5 Hd))|].
    intros e. by destruct (normal_priority_send_open (self rt) e _ (F9 Hd)).
Qed.

(** ** Running a system *)

Definition pairs_kept (p : Phase) : bool :=
  match p with
  | PhHandle _ (CDo CmdAddressPair _) | PhHandle _ (CDo (CmdSpawnActorWithAddr _ _ _) _) => false
  | _ => true
  end.

(** One step of the actor [i], if it can make one and does not use pairs. *)
Definition advance (o : Orders) (i : Id) (s : Sys) : Sys :=
  match w_actors (sys_world s) !! i with
  | Some rt =>
    if pairs_kept (rt_phase rt) then
      match actor_step o 0%N rt (sys_world s) with
      | Some (rt', w') => mkSys (put rt' w') (sys_pairs s)
      | None => s
      end
    else s
  | None => s
  end.

Lemma advance_step o i s rt rt' w' :
  w_actors (sys_world s) !! i = Some rt → pairs_kept (rt_phase rt) = true →
  actor_step o 0%N rt (sys_world s) = Some (rt', w') → sys_step s (advance o i s).
Proof.
  intros Hi Hk Hs. unfold advance. rewrite Hi, Hk, Hs. destruct s as [w pairs].
  apply (step_actor o 0%N i rt rt' w w'); [done|done|].
  unfold phase_moves. destruct (rt_phase rt) as [|src [|[]]| | | |]; try done; by constructor.
Qed.

Lemma advance_cases o i s : sys_step s (advance o i s) ∨ advance o i s = s.
Proof.
  destruct (w_actors (sys_world s) !! i) as [rt|] eqn:Hi; [|right; unfold advance; by rewrite Hi].
  destruct (pairs_kept (rt_phase rt)) eqn:Hk; [|right; unfold advance; by rewrite Hi, Hk].
  destruct (actor_step o 0%N rt (sys_world s)) as [[rt' w']|] eqn:Hs;
    [|right; unfold advance; by rewrite Hi, Hk, Hs].
  left. by eapply advance_step.
Qed.

Lemma advance_reachable o i s : sys_reachable s → sys_reachable (advance o i s).
Proof. intros Hr. destruct (advance_cases o i s) as [Hs| ->]; [by eapply rtc_r|done]. Qed.

Lemma outside_reachable s n' :
  sys_reachable s → outside (w_net (sys_world s)) n' →
  sys_reachable (mkSys (with_net n' (sys_world s)) (sys_pairs s)).
Proof. intros Hr Ho. eapply rtc_r; [exact Hr|]. destruct s. by apply step_outside. Qed.
End supervision.

#[local] Existing Instance ref_crates.
#[local] Existing Instance sample_app.
#[local] Existing Instance sample_impl.

(** A root actor that spawns a child; then the root is interrupted, the child
    follows, and the root ends after it. *)
Definition root_address : Address := pair_address (AddressPair_new net_empty).1.
Definition steps (i : Id) (k : nat) (s : Sys) : Sys := Nat.iter k (advance sample_orders i) s.
Definition send_root (input : Message) (s : Sys) : Sys :=
  mkSys (with_net (instant root_address input (w_net (sys_world s))).2 (sys_world s)) (sys_pairs s).

Definition sys_root : Sys := mkSys (System_spawn (5 : N)%N (sys_world sys_init)).2 [].
Definition sys_family : Sys := steps 1 4 (send_root (MsgInstant (0 : N)%N) (steps 1 2 sys_root)).
Definition sys_asked : Sys := steps 1 3 (send_root MsgInterrupt (steps 1 1 sys_family)).
Definition sys_child_over : Sys := steps 2 8 sys_asked.
Definition sys_stopped : Sys := steps 1 1 sys_child_over.

Lemma steps_cases i k s : sys_step (steps i k s) (steps i (S k) s) ∨ steps i (S k) s = steps i k s.
Proof. apply advance_cases. Qed.

Lemma send_root_step input s : sys_step s (send_root input s).
Proof. destruct s. apply step_outside, out_instant. Qed.

Lemma steps_reachable i k s : sys_reachable s → sys_reachable (steps i k s).
Proof. intros Hs. induction k as [|k IH]; [done|]. by apply advance_reachable. Qed.

Lemma send_root_reachable input s : sys_reachable s → sys_reachable (send_root input s).
Proof. intros Hs. apply outside_reachable; [done|]. apply out_instant. Qed.

Lemma sys_asked_reachable : sys_reachable sys_asked.
Proof.
  apply steps_reachable, send_root_reachable, steps_reachable, steps_reachable, send_root_reachable,
    steps_reachable. eapply rtc_r; [reflexivity|]. apply step_spawn.
Qed.

Definition runtime_of (s : Sys) (i : Id) : ActorRuntime :=
  default (child_runtime PhDone false) (w_actors (sys_world s) !! i).

Lemma runtime_of_some s i :
  bool_decide (is_Some (w_actors (sys_world s) !! i)) = true →
  w_actors (sys_world s) !! i = Some (runtime_of s i).
Proof.
  intros Hb. unfold runtime_of. by destruct (w_actors (sys_world s) !! i); [|rewrite bool_decide_eq_true in Hb; destruct Hb].
Qed.

Lemma sys_child_over_reachable : sys_reachable sys_child_over.
Proof. apply steps_reachable, sys_asked_reachable. Qed.

(** The report of the child 2 waits in the queue of the root. *)
Lemma children_accounted_witness :
  tracked (runtime_of sys_child_over 1) 2 ∧
  2%positive ∈ reports (w_net (sys_world sys_child_over)) (queue_of (runtime_of sys_child_over 1)).
Proof.
  destruct (children_accounted sys_child_over 1 (runtime_of sys_child_over 1) 2) as [[H _] _].
  - apply sys_child_over_reachable.
  - apply runtime_of_some. vm_compute. reflexivity.
  - vm_compute. discriminate.
  - assert (tracked (runtime_of sys_child_over 1) 2) as Ht by (vm_compute; by eexists).
    split; [exact Ht|]. apply (bool_decide_unpack _). vm_compute. exact I.
Defined.

(** Reading it stops the root. *)
Lemma graceful_stop_witness :
  alive (runtime_of sys_child_over 1) = true ∧ alive (runtime_of sys_stopped 1) = false ∧
  ∀ c, ¬ live_child (sys_world sys_stopped) (self (runtime_of sys_stopped 1)) c.
Proof.
  split; [vm_compute; reflexivity|]. split; [vm_compute; reflexivity|].
  destruct (graceful_stop sys_child_over sys_stopped 1 (runtime_of sys_child_over 1) (runtime_of sys_stopped 1))
    as [(src & k & Hp)|[_ H]].
  - apply sys_child_over_reachable.
  - apply (advance_step _ _ _ (runtime_of sys_child_over 1)
      (runtime_of sys_stopped 1) (mkWorld (w_net (sys_world sys_stopped))
        (w_actors (sys_world sys_child_over)) (w_tasks (sys_world sys_stopped)))).
    + apply runtime_of_some. vm_compute. reflexivity.
    + vm_compute. reflexivity.
    + vm_compute. reflexivity.
  - apply runtime_of_some. vm_compute. reflexivity.
  - apply runtime_of_some. vm_compute. reflexivity.
  - vm_compute. reflexivity.
  - vm_compute. reflexivity.
  - vm_compute in Hp. discriminate.
  - intros c. apply H.
Defined.

Lemma termination_never_stuck_witness :
  ∃ c, live_child (sys_world sys_asked) (self (runtime_of sys_asked 1)) c ∨
       c ∈ reports (w_net (sys_world sys_asked)) (queue_of (runtime_of sys_asked 1)).
Proof.
  destruct (termination_never_stuck sys_asked 1 (runtime_of sys_asked 1)) as (g & st & c & _ & _ & _ & H).
  - apply sys_asked_reachable.
  - apply runtime_of_some. vm_compute. reflexivity.
  - vm_compute. discriminate.
  - vm_compute. reflexivity.
  - vm_compute. reflexivity.
  - exists c. exact H.
Defined.


Lemma actors_private_witness :
  addr_msg_tx (self (runtime_of sys_asked 1)) ≠ addr_msg_tx (self (runtime_of sys_asked 2)).
Proof.
  intros Hq.
  destruct (actors_private sys_asked 1 2 (runtime_of sys_asked 1) (runtime_of sys_asked 2)) as (_ & _ & _ & _ & _ & H & _).
  - apply sys_asked_reachable.
  - apply runtime_of_some. vm_compute. reflexivity.
  - apply runtime_of_some. vm_compute. reflexivity.
  - discriminate (H Hq).
Defined.
