(* ===== verification/Liveness.v ===== *)
(** * A terminating actor ends

    What the children of an actor do while the rest of the system runs, and the liveness of termination under fairness: once the children of a
    terminating actor are over, the actor ends, whatever the others do, as long as
    it is polled again and again. *)
From S2P Require Import Prelude Extern Ids Types Lifecycle Linkage LiteRuntime Handlers ActorRuntime.
From S2P Require Import Tasks NetFrame Invariant Growth Supervision.

Section liveness.
Context `{!Crates, !App, !ActorImpl}.
Implicit Types (n : Net) (w : World) (rt : ActorRuntime).

(** ** Children come from their supervisor only *)

(** The calls that spawn a child of the actor that makes them. *)
Definition spawns_child (cmd : Cmd) : bool :=
  match cmd with
  | CmdSpawnActorWithAddr _ _ _ | CmdSpawnActor _ _ | CmdSpawnTask _ _ _ | CmdAttach _ _ _
  | CmdTrackInteraction _ _ _ => true
  | _ => false
  end.

(** No child of the actor with address [a] has appeared. *)
Definition no_new_child (a : Address) w w' : Prop := ∀ c, live_child w' a c → live_child w a c.

Lemma no_new_child_same a w w' :
  w_actors w' = w_actors w → w_tasks w' = w_tasks w → no_new_child a w w'.
Proof. intros Ha Ht c. unfold live_child. by rewrite Ha, Ht. Qed.

Lemma no_new_child_spawn a actor sup p w :
  sup ≠ Some a → no_new_child a w (spawn actor sup p w).
Proof.
  intros Hsup c [(rt & Hr & Hn & Hd)|?]; [|by right]. simpl in Hr.
  destruct (decide (Ids.IdOf_into (Address_id (pair_address p)) = c)) as [<-|Hne].
  - rewrite lookup_insert_eq in Hr. injection Hr as <-. simpl in Hn. destruct sup as [x|]; congruence.
  - rewrite lookup_insert_ne in Hr by done. left. by exists rt.
Qed.

Lemma no_new_child_task a task tag group c w :
  ctx_address c ≠ a → no_new_child a w (Context_spawn_task task tag group c w).2.
Proof.
  intros Ha d. unfold Context_spawn_task, lite_spawn. destruct (alloc_id (w_net w)) as [i n1].
  destruct (make_stop_channel i n1) as [[stopper rx] n2].
  destruct (Tracker.insert_task _ _ _ _) as [t n3]. simpl.
  intros [?|(lr & Hlr & Hn)]; [by left|]. simpl in Hlr. destruct (decide (i = d)) as [<-|Hne].
  - rewrite lookup_insert_eq in Hlr. injection Hlr as <-. simpl in Hn.
    rewrite Address_clone_id in Hn. congruence.
  - rewrite lookup_insert_ne in Hlr by done. right. by exists lr.
Qed.

Lemma no_new_child_addr a actor p group c w :
  ctx_address c ≠ a → no_new_child a w (Context_spawn_actor_with_addr actor p group c w).2.
Proof.
  intros Ha. unfold Context_spawn_actor_with_addr.
  destruct (Tracker.insert _ _ _ _) as [t n]. cbn [snd].
  intros d Hd. apply (no_new_child_spawn a actor (Some (Address_clone (ctx_address c))) p w).
  { rewrite Address_clone_id. congruence. }
  exact Hd.
Qed.

Lemma exec_children a o cmd c w :
  ctx_address c ≠ a ∨ spawns_child cmd = false → no_new_child a w (exec o cmd c w).2.
Proof.
  intros Hc. assert (spawns_child cmd = true → ctx_address c ≠ a) as Ha by (intros Ht; destruct Hc; congruence).
  assert (∀ A (f : Net → A * Net) rep, no_new_child a w (on_net f rep c w).2) as Hon.
  { intros A f rep. unfold on_net. destruct (f (w_net w)). by apply no_new_child_same. }
  destruct cmd; cbn [exec]; try apply Hon; try (by apply no_new_child_same); try specialize (Ha eq_refl).
  - pose proof (no_new_child_addr a actor pair group c w Ha) as H'.
    by destruct (Context_spawn_actor_with_addr _ _ _ _ _).
  - unfold Context_spawn_actor. destruct (AddressPair_new (w_net w)) as [p n'].
    pose proof (no_new_child_addr a actor p group c (with_net n' w) Ha) as H'.
    by destruct (Context_spawn_actor_with_addr _ _ _ _ _).
  - pose proof (no_new_child_task a task tag group c w Ha) as H'.
    by destruct (Context_spawn_task _ _ _ _ _) as [[]].
  - unfold Context_attach.
    pose proof (no_new_child_task a (StreamForwarder stream (Address_clone (ctx_address c))) tag group c w Ha) as H'.
    by destruct (Context_spawn_task _ _ _ _ _) as [[]].
  - unfold Context_track_interaction. pose proof (no_new_child_task a task tag group c w Ha) as H'.
    by destruct (Context_spawn_task _ _ _ _ _) as [[]].
  - unfold Context_interrupt. destruct (interrupt_by _ _). by apply no_new_child_same.
  - unfold Context_shutdown. destruct (Tracker.start_termination _ _ _ _). by apply no_new_child_same.
  - unfold System_spawn. destruct (AddressPair_new (w_net w)) as [p n'].
    by apply (no_new_child_spawn a actor None p (with_net n' w)).
Qed.

(** A step of an actor spawns no child of [a], unless it is a spawn of [a] itself. *)
Lemma actor_step_children a o now rt w rt' w' :
  actor_step o now rt w = Some (rt', w') →
  (∀ source cmd k, rt_phase rt = PhHandle source (CDo cmd k) → self rt ≠ a ∨ spawns_child cmd = false) →
  no_new_child a w w'.
Proof.
  intros Hs Hc. unfold actor_step in Hs.
  destruct (rt_phase rt) as [|source [actor res|cmd k]| | | |]; try done; try (simplify_eq; by apply no_new_child_same).
  - destruct (timing now cmd) as [|t|]; [|simplify_eq; by apply no_new_child_same|done].
    pose proof (exec_children a o cmd (rt_context rt) w (Hc _ _ _ eq_refl)) as He.
    destruct (exec o cmd (rt_context rt) w) as [[rep c] w1]. by simplify_eq.
  - destruct (ctx_alive _); [|simplify_eq; by apply no_new_child_same]. apply no_new_child_same; [by eapply select_actors|].
    unfold select_biased in Hs.
    destruct (mpsc_recv <$> net_hp (w_net w) !! _) as [[[|[p|]] ch]|]; [| |by simplify_eq|done].
    + destruct (if bool_decide _ then _ else _) as [[|[[e|?]|]] q]; [|by simplify_eq..].
      destruct (mpsc_recv <$> net_lp (w_net w) !! _) as [[[|[e|]] lch]|]; by simplify_eq.
    + unfold receive_parcel in Hs. destruct (parcel_operation p); [|by simplify_eq..].
      destruct (Tracker.remove _ _ _ _ _). by simplify_eq.
Qed.

(** ** What a step keeps of the runtime *)

Lemma exec_address o cmd c w : ctx_address (exec o cmd c w).1.2 = ctx_address c.
Proof.
  assert (∀ A (f : Net → A * Net) rep, (on_net f rep c w).1.2 = c) as Hon.
  { intros A f rep. unfold on_net. by destruct (f (w_net w)). }
  destruct cmd; cbn [exec]; rewrite ?Hon; try done.
  - unfold Context_interrupt. by destruct (interrupt_by _ _).
  - unfold Context_shutdown. destruct (Tracker.start_termination _ _ _ _). simpl. by destruct (Tracker.is_finished _).
Qed.

(** No call ends a termination or makes an actor alive again. *)
Lemma exec_context o cmd c w :
  let c' := (exec o cmd c w).1.2 in
  (lt_terminating (ctx_tracker c) = true → lt_terminating (ctx_tracker c') = true) ∧
  (ctx_alive c' = true → ctx_alive c = true).
Proof.
  cbv zeta. assert (∀ A (f : Net → A * Net) rep, (on_net f rep c w).1.2 = c) as Hon.
  { intros A f rep. unfold on_net. by destruct (f (w_net w)). }
  destruct cmd; cbn [exec]; rewrite ?Hon; try done.
  - unfold Context_interrupt. by destruct (interrupt_by _ _).
  - unfold Context_shutdown, Tracker.start_termination.
    pose proof (Tracker.try_terminate_next_terminating (ord_groups o) (ord_ids o) (ctx_tracker c) (w_net w)) as Ht.
    destruct (Tracker.try_terminate_next _ _ _ _) as [t n]. simpl in *.
    by destruct (Tracker.is_finished t).
Qed.

(** A call that spawns no child keeps the records. *)
Lemma exec_records o cmd c w :
  spawns_child cmd = false →
  lt_records (ctx_tracker (exec o cmd c w).1.2) = lt_records (ctx_tracker c).
Proof.
  intros Hc. assert (∀ A (f : Net → A * Net) rep, (on_net f rep c w).1.2 = c) as Hon.
  { intros A f rep. unfold on_net. by destruct (f (w_net w)). }
  destruct cmd; try done; cbn [exec]; rewrite ?Hon; try done.
  - unfold Context_interrupt. by destruct (interrupt_by _ _).
  - unfold Context_shutdown, Tracker.start_termination.
    pose proof (Tracker.try_terminate_next_records (ord_groups o) (ord_ids o) (ctx_tracker c) (w_net w)) as Hr.
    destruct (Tracker.try_terminate_next _ _ _ _) as [t n]. simpl in *.
    by destruct (Tracker.is_finished t).
Qed.

(** What a step keeps of an actor. *)
Record follows rt rt' : Prop := {
  fo_id : rt_id rt' = rt_id rt;
  fo_notifier : rt_done_notifier rt' = rt_done_notifier rt;
  fo_self : self rt' = self rt;
  fo_joint : rt_joint rt' = rt_joint rt;
  fo_terminating : lt_terminating (tracker_of rt) = true → lt_terminating (tracker_of rt') = true;
  fo_alive : alive rt' = true → alive rt = true
}.

Lemma follows_begin source e rt rt' : follows rt rt' → follows rt (begin_handle source e rt').
Proof.
  intros []. unfold begin_handle.
  destruct (Envelope_handle e (rt_actor rt')) as [[]|]; by split.
Qed.

Lemma remove_terminating og oi i (t : LifetimeTracker Group Notifier) n :
  lt_terminating t = true → lt_terminating (Tracker.remove og oi i t n).1 = true.
Proof.
  intros Ht. rewrite Tracker.remove_forget, Tracker.forget_terminating, Ht.
  apply Tracker.try_terminate_next_terminating.
Qed.

Lemma remove_records og oi i (t : LifetimeTracker Group Notifier) n :
  lt_records (Tracker.remove og oi i t n).1 = delete i (lt_records t).
Proof.
  rewrite Tracker.remove_forget. destruct (lt_terminating _);
    rewrite ?Tracker.try_terminate_next_records; apply Tracker.forget_records.
Qed.

Lemma actor_step_follows o now rt w rt' w' :
  actor_step o now rt w = Some (rt', w') → follows rt rt'.
Proof.
  intros Hs. assert (follows rt rt) as Hrefl by by split.
  unfold actor_step in Hs.
  destruct (rt_phase rt) as [|source [actor res|cmd k]| | | |]; try done; try (simplify_eq; by split).
  - simplify_eq. unfold entrypoint_start. destruct (rt_awake_envelope rt); [|by split].
    apply follows_begin. by split.
  - simplify_eq. unfold handler_returned. by destruct source, res; split.
  - destruct (timing now cmd) as [|t|]; [|simplify_eq; by split|done].
    pose proof (exec_address o cmd (rt_context rt) w) as Ha.
    pose proof (exec_context o cmd (rt_context rt) w) as [Ht Hal].
    destruct (exec o cmd (rt_context rt) w) as [[rep c] w1]. simplify_eq. by split.
  - destruct (ctx_alive (rt_context rt)) eqn:Hal; [|simplify_eq; by split]. unfold select_biased in Hs.
    destruct (mpsc_recv <$> net_hp (w_net w) !! _) as [[[|[p|]] ch]|]; [| |simplify_eq; by split|done].
    + destruct (if bool_decide _ then _ else _) as [[|[[e|?]|]] q];
        [|simplify_eq; first [apply follows_begin|idtac]; by split..].
      destruct (mpsc_recv <$> net_lp (w_net w) !! _) as [[[|[e|]] lch]|]; simplify_eq;
        first [apply follows_begin|idtac]; by split.
    + unfold receive_parcel in Hs.
      destruct (parcel_operation p) as [c| |]; [|simplify_eq; first [apply follows_begin; by split|by split]..].
      match type of Hs with context [Tracker.remove ?og ?oi ?i ?t ?n] =>
        pose proof (remove_terminating og oi i t n) as Hr; destruct (Tracker.remove og oi i t n) as [t' n'] end.
      simplify_eq. apply follows_begin. cbn [fst] in Hr.
      split; unfold self, tracker_of; cbn; destruct (Tracker.is_finished t'); cbn; auto.
Qed.

(** ** The steps of one actor, and of the others *)

Inductive own_step (i : Id) : Sys → Sys → Prop :=
| own o now rt rt' w w' pairs pairs' :
    w_actors w !! i = Some rt → actor_step o now rt w = Some (rt', w') →
    phase_moves w (rt_phase rt) pairs pairs' →
    own_step i (mkSys w pairs) (mkSys (put rt' w') pairs').

Definition other_step (i : Id) (s s' : Sys) : Prop := sys_step s s' ∧ ¬ own_step i s s'.

Lemma own_step_sys i s s' : own_step i s s' → sys_step s s'.
Proof. destruct 1. by eapply step_actor. Qed.

(** Whatever the other steps, [P] comes as long as the actor [i] makes steps: after
    any finite number of steps of the others it can make one, and none of those it
    can make leads away from [P].  So [P] holds in some state of every run in which
    the actor is polled again and again. *)
Inductive inevitable (i : Id) (P : Sys → Prop) : Sys → Prop :=
| inev_now s : P s → inevitable i P s
| inev_later s :
    (∀ s', rtc (other_step i) s s' → ∃ s'', own_step i s' s'') →
    (∀ s' s'', rtc (other_step i) s s' → own_step i s' s'' → inevitable i P s'') →
    inevitable i P s.

(** An actor that terminates and has no child that runs. *)
Record ready (i : Id) (s : Sys) rt : Prop := {
  rd_reachable : sys_reachable s;
  rd_actor : w_actors (sys_world s) !! i = Some rt;
  rd_done : rt_phase rt ≠ PhDone;
  rd_terminating : lt_terminating (tracker_of rt) = true;
  rd_childless : ∀ c, ¬ live_child (sys_world s) (self rt) c
}.

(** How many parcels are before the first report. *)
Fixpoint ahead_of (q : list Parcel) : nat :=
  match q with
  | [] => 0
  | p :: q => match done_of p with Some _ => 0 | None => S (ahead_of q) end
  end.
Definition ahead (s : Sys) rt : nat := ahead_of (instant_queue (w_net (sys_world s)) (queue_of rt)).

Lemma ahead_of_prefix q q' : omap done_of q ≠ [] → q `prefix_of` q' → ahead_of q' = ahead_of q.
Proof.
  intros Hq [k ->]. induction q as [|p q IH]; [done|]. simpl in *.
  destruct (done_of p); [done|]. by rewrite IH.
Qed.

(** It waits for the end of a child, which is in its queue. *)
Lemma ready_report i s rt :
  ready i s rt → alive rt = true → reports (w_net (sys_world s)) (queue_of rt) ≠ [].
Proof.
  intros [R1 R2 R3 R4 R5] Ha.
  destruct (waiting_child s i rt R1 R2 R3 Ha R4) as (g & st & c & _ & _ & _ & [Hl|Hc]).
  - by apply R5 in Hl.
  - intros He. rewrite He in Hc. by apply not_elem_of_nil in Hc.
Qed.

(** ** The others leave a terminating actor alone *)

Lemma no_new_child_put a w w' i rt rt' :
  no_new_child a w w' → w_actors w !! i = Some rt → rt_phase rt ≠ PhDone →
  rt_id rt' = i → rt_done_notifier rt' = rt_done_notifier rt → no_new_child a w (put rt' w').
Proof.
  intros Hno Hi Hd Hid Hn c [(r & Hr & Hrn & Hrd)|Ht]; [|by apply Hno; right].
  simpl in Hr. rewrite Hid in Hr. destruct (decide (i = c)) as [->|Hne].
  - rewrite lookup_insert_eq in Hr. injection Hr as <-. left. exists rt. by rewrite <-Hn.
  - rewrite lookup_insert_ne in Hr by done. apply Hno. left. by exists r.
Qed.

(** What a step that is not its own leaves of an actor: its runtime; it gets no
    child, and its queues only grow. *)
Record frame (i : Id) rt (s s' : Sys) : Prop := {
  fr_actor : w_actors (sys_world s') !! i = Some rt;
  fr_children : no_new_child (self rt) (sys_world s) (sys_world s');
  fr_queue : feeds (self rt) (w_net (sys_world s)) (w_net (sys_world s'))
}.

Lemma step_frame_actor i j o now rt rtj rtj' w w' pairs pairs' :
  sys_inv GNone w pairs → w_actors w !! i = Some rt → j ≠ i →
  w_actors w !! j = Some rtj → actor_step o now rtj w = Some (rtj', w') →
  phase_moves w (rt_phase rtj) pairs pairs' →
  frame i rt (mkSys w pairs) (mkSys (put rtj' w') pairs').
Proof.
  intros Hinv R2 Hne Hj Hs Hm. pose proof (inv_actor _ _ _ Hinv j rtj Hj) as Hokj.
  destruct (actor_step_follows _ _ _ _ _ _ Hs) as [F1 F2 F3 _ _ _]. rewrite (ok_id _ _ _ _ Hokj) in F1.
  assert (self rtj ≠ self rt) as Hself by (intros Heq; by apply Hne, (self_inj GNone w pairs j i rtj rt)).
  split; cbn [sys_world].
  - simpl. rewrite F1, lookup_insert_ne by done. exact (actor_step_others o now w w' pairs pairs' i j rt rtj rtj' Hinv Hj Hs Hm R2).
  - apply (no_new_child_put _ w w' j rtj); try done;
      [|by intros Hp; unfold actor_step in Hs; rewrite Hp in Hs].
    eapply actor_step_children; [done|]. by left.
  - destruct (ok_wired _ _ _ _ Hokj) as [J1 J2 _ J4], (ok_wired _ _ _ _ (inv_actor _ _ _ Hinv i rt R2)) as [_ _ _ W4].
    assert (queue_of rtj ≠ queue_of rt) as Hq.
    { intros Hq. apply Hne, (inv_holders _ _ _ Hinv j i (queue_of rt)); left; [by exists rtj|by exists rt]. }
    unfold queue_of in Hq. apply (actor_step_feeds (self rt) o now rtj w rtj' w' Hs); [by rewrite J1|]. rewrite J2, J4, W4. lia.
Qed.

Lemma step_frame i s s' rt :
  sys_reachable s → w_actors (sys_world s) !! i = Some rt → sys_step s s' →
  own_step i s s' ∨ frame i rt s s'.
Proof.
  intros R1 R2 Hstep. pose proof (inv_reachable s R1) as Hinv.
  destruct Hstep as [o now j rtj rtj' w w' pairs pairs' Hj Hs Hm|j lr res w pairs Hj
    |actor w pairs|n' w pairs Ho|n' w pairs Hg]; cbn [sys_world sys_pairs] in *.
  - destruct (decide (j = i)) as [->|Hne]; [left; by eapply (own i o now rtj)|right].
    by eapply step_frame_actor.
  - right. split; [done| |apply lite_entrypoint_feeds].
    intros c [?|(lr' & Hlr & Hn)]; [by left|]. simpl in Hlr. apply lookup_delete_Some in Hlr as [_ Hlr].
    right. by exists lr'.
  - right. unfold System_spawn. pose proof (inv_new_pair _ _ _ Hinv) as Hn.
    pose proof (rel_pair (R:=feeds (self rt)) (w_net w)) as Hg.
    destruct (AddressPair_new (w_net w)) as [p n']. cbn [fst snd] in *.
    pose proof (pr_actor _ _ (inv_pair _ _ _ Hn p ltac:(left))) as Hp. simpl in Hp.
    split; [|by apply (no_new_child_spawn _ actor None p (with_net n' w))|done].
    simpl. rewrite lookup_insert_ne; [done|]. intros Heq. change (pair_id p = i) in Heq. congruence.
  - right. split; [done|by apply no_new_child_same|by apply rel_outside].
  - right. split; [done|by apply no_new_child_same|by eapply rel_give_up].
Qed.

Lemma other_step_keeps i s s' rt :
  ready i s rt → other_step i s s' →
  ready i s' rt ∧ (alive rt = true → ahead s' rt = ahead s rt).
Proof.
  intros Hrd [Hstep Hown]. pose proof Hrd as [R1 R2 R3 R4 R5].
  pose proof (inv_actor _ _ _ (inv_reachable s R1) i rt R2) as Hok.
  destruct (step_frame i s s' rt R1 R2 Hstep) as [?|[Hi' Hno Hg]]; [done|]. split.
  - split; try done; [by eapply rtc_r|]. intros c Hc. by apply (R5 c), Hno.
  - intros Ha. apply ahead_of_prefix; [by apply (ready_report i s rt)|].
    apply Hg, (ok_bound _ _ _ _ Hok).
Qed.
(** ** The steps of a terminating actor *)

(** The oldest parcel of an actor that is waiting is what its next step receives. *)
Lemma select_receives rt w p q :
  joint_hp_msg_rx (rt_joint rt) = queue_of rt → instant_queue (w_net w) (queue_of rt) = p :: q →
  rt_phase rt = PhSelect → alive rt = true →
  ∃ ch, mv_queue (mpsc_view ch) = q ∧ ∀ o now,
    actor_step o now rt w =
      Some (receive_parcel o p rt (with_net (set_hp (queue_of rt) ch (w_net w)) w)).
Proof.
  intros Hj Hq Hp Ha. unfold instant_queue in Hq.
  destruct (net_hp (w_net w) !! queue_of rt) as [ch|] eqn:Hch; [|done].
  destruct (mpsc_recv_some ch p q Hq) as (ch' & Hrecv & Hv). exists ch'. split; [by rewrite Hv|].
  intros o now. unfold actor_step, select_biased. unfold alive in Ha.
  by rewrite Hp, Ha, Hj, Hch; simpl; rewrite Hrecv.
Qed.

Lemma begin_handle_context source e rt : rt_context (begin_handle source e rt) = rt_context rt.
Proof. unfold begin_handle. by destruct (Envelope_handle e (rt_actor rt)) as [[]|]. Qed.

(** Receiving the end of a child forgets it; nothing else does. *)
Lemma receive_records o p rt w rt' w' :
  receive_parcel o p rt w = (rt', w') →
  lt_records (tracker_of rt') =
    match done_of p with
    | Some c => delete c (lt_records (tracker_of rt))
    | None => lt_records (tracker_of rt)
    end ∧ self rt' = self rt ∧ (∀ l, grows l (w_net w) (w_net w')).
Proof.
  unfold receive_parcel, done_of, tracker_of, self. destruct (parcel_operation p) as [c| |deadline].
  - match goal with |- context [Tracker.remove ?og ?oi ?i ?t ?n] =>
      pose proof (remove_records og oi i t n) as Hr; pose proof (λ l, rel_remove (R:=grows l) og oi i t n) as Hg;
      destruct (Tracker.remove og oi i t n) as [t' n'] end.
    intros [= <- <-]. rewrite begin_handle_context. cbn [with_tracker ctx_tracker fst snd] in *.
    by destruct (Tracker.is_finished t').
  - intros [= <- <-]. by rewrite begin_handle_context.
  - by intros [= <- <-].
Qed.

Lemma ready_head i s rt :
  ready i s rt → alive rt = true →
  ∃ p q, instant_queue (w_net (sys_world s)) (queue_of rt) = p :: q.
Proof.
  intros Hrd Ha. pose proof (ready_report i s rt Hrd Ha) as Hr. unfold reports in Hr.
  destruct (instant_queue _ _) as [|p q]; [done|]. eauto.
Qed.

(** What it receives is the end of a child, or makes the next one come closer. *)
Lemma select_measure i s rt o now rt' w' :
  ready i s rt → rt_phase rt = PhSelect → alive rt = true →
  actor_step o now rt (sys_world s) = Some (rt', w') →
  size (lt_records (tracker_of rt')) < size (lt_records (tracker_of rt)) ∨
  lt_records (tracker_of rt') = lt_records (tracker_of rt) ∧
  ahead_of (instant_queue (w_net w') (queue_of rt')) < ahead s rt.
Proof.
  intros Hrd Hp Ha Hs. destruct (ready_head i s rt Hrd Ha) as (p & q & Hq).
  pose proof (ready_report i s rt Hrd Ha) as Hrep. pose proof Hrd as [R1 R2 R3 R4 R5].
  pose proof (inv_actor _ _ _ (inv_reachable s R1) i rt R2) as Hok.
  destruct (select_receives rt _ p q (ok_joint _ _ _ _ Hok) Hq Hp Ha) as (ch & Hv & Hr).
  rewrite Hr in Hs. injection Hs as Hs. apply receive_records in Hs as (Hrec & Hself & Hg).
  unfold ahead, reports in *. rewrite Hq in *. simpl in Hrep |- *. destruct (done_of p) as [c|] eqn:Hop.
  - left. assert (tracked rt c) as [r Hc].
    { apply (ok_exact_none _ i rt c Hok R3). right. unfold reports. rewrite Hq. simpl.
      rewrite Hop. left. }
    pose proof (map_size_delete_Some c (lt_records (tracker_of rt)) ltac:(by exists r)) as Hsz.
    rewrite Hrec. assert (size (lt_records (tracker_of rt)) ≠ 0); [|lia].
    intros Hz%map_size_empty_inv. rewrite Hz, lookup_empty in Hc. done.
  - right. split; [done|]. unfold queue_of. rewrite Hself. fold (queue_of rt).
    specialize (Hg (queue_of rt)). apply gr_queue in Hg; [|apply (ok_bound _ _ _ _ Hok)].
    unfold instant_queue in Hg at 1. cbn [with_net w_net set_hp net_hp] in Hg.
    rewrite lookup_insert_eq, Hv in Hg. rewrite (ahead_of_prefix q) by done. lia.
Qed.

Definition any_orders : Orders := mkOrders (elements_order Group) (elements_order Id).

Definition spawning rt : bool :=
  match rt_phase rt with PhHandle _ (CDo cmd _) => spawns_child cmd | _ => false end.

(** The actor is over, or is about to spawn one more child. *)
Definition over (i : Id) (s : Sys) : Prop :=
  ∃ rt, w_actors (sys_world s) !! i = Some rt ∧ (rt_phase rt = PhDone ∨ spawning rt = true).

(** The pair that an actor is about to use is there. *)
Definition pair_there s rt : Prop :=
  match rt_phase rt with
  | PhHandle _ (CDo (CmdSpawnActorWithAddr _ p _) _) => p ∈ sys_pairs s
  | _ => True
  end.

Lemma no_spawn_pair s rt : spawning rt = false → pair_there s rt.
Proof. unfold spawning, pair_there. destruct (rt_phase rt) as [|? [|[]]| | | |]; try done. Qed.

(** An actor with a message chooses one. *)
Lemma select_some o now rt w :
  wired (rt_joint rt) (self rt) → instant_open (w_net w) (queue_of rt) = true →
  instant_queue (w_net w) (queue_of rt) ≠ [] ∨ normal_queue (w_net w) (addr_msg_tx (self rt)) ≠ [] →
  is_Some (select_biased o now rt w).
Proof.
  intros [W1 W2 _ _] Ho Hq. unfold select_biased. rewrite W1, W2. fold (queue_of rt).
  unfold instant_open, instant_queue, normal_queue in *.
  destruct (net_hp (w_net w) !! queue_of rt) as [ch|]; [|done]. simpl in *.
  destruct (mv_queue (mpsc_view ch)) as [|p q] eqn:Hc.
  2: { destruct (mpsc_recv_some ch p q Hc) as (ch' & -> & _). by eexists. }
  destruct Hq as [Hq|Hq]; [done|]. destruct (net_lp (w_net w) !! _) as [lch|]; [|done]. simpl.
  destruct (mv_queue (mpsc_view lch)) as [|e q] eqn:Hl; [done|].
  destruct (mpsc_recv_some lch e q Hl) as (lch' & -> & _).
  destruct (mpsc_recv ch) as [[|[p|]] ch']; [|by eexists..].
  destruct (if bool_decide _ then _ else _) as [[|[[e'|?]|]] q']; by eexists.
Qed.

Lemma phase_moves_some s rt :
  pair_there s rt → ∃ pairs', phase_moves (sys_world s) (rt_phase rt) (sys_pairs s) pairs'.
Proof.
  unfold pair_there, phase_moves. destruct (rt_phase rt) as [|source [a r|cmd k]| | | |]; try by eexists.
  destruct cmd; intros Hp; try (by eexists; constructor).
  apply list_elem_of_split in Hp as (l1 & l2 & ->). eexists. constructor.
Qed.

(** A time at which the actor does not sleep. *)
Definition waking rt : Instant :=
  match rt_phase rt with PhHandle _ (CDo (CmdSleepUntil t) _) => t | _ => 0%N end.

(** An actor that is not over can make a step, unless it waits for a message. *)
Lemma can_step i s rt :
  sys_reachable s → w_actors (sys_world s) !! i = Some rt → rt_phase rt ≠ PhDone → pair_there s rt →
  (rt_phase rt = PhSelect → alive rt = true →
    instant_queue (w_net (sys_world s)) (queue_of rt) ≠ [] ∨
    normal_queue (w_net (sys_world s)) (addr_msg_tx (self rt)) ≠ []) →
  ∃ s', own_step i s s'.
Proof.
  intros R1 R2 R3 Hpair Hq. pose proof (inv_actor _ _ _ (inv_reachable s R1) i rt R2) as Hok.
  pose proof (ok_local _ _ _ _ Hok) as [_ _ _ _ _ L5].
  destruct (phase_moves_some s rt Hpair) as [pairs' Hm].
  assert (is_Some (actor_step any_orders (waking rt) rt (sys_world s))) as [[rt' w'] Hs].
  { unfold actor_step, alive in *. destruct (rt_phase rt) as [|source [a r|cmd k]| | | |m] eqn:Hp; try done.
    - assert (timing (waking rt) cmd ≠ Waits) as Ht.
      { unfold waking. rewrite Hp. destruct cmd; try done. cbn. by rewrite N.leb_refl. }
      destruct (timing _ cmd); [|done..]. by destruct (exec _ _ _ _) as [[? ?] ?].
    - destruct (ctx_alive (rt_context rt)); [|done].
      apply (select_some _ _ rt); [apply Hok|by apply Hok; rewrite Hp|by apply Hq].
    - by destruct (L5 m). }
  destruct s as [w pairs]. eexists. by eapply (own i any_orders (waking rt) rt).
Qed.

Lemma ready_moves i s rt : ready i s rt → spawning rt = false → ∃ s', own_step i s s'.
Proof.
  intros Hrd Hsp. pose proof Hrd as [R1 R2 R3 R4 R5]. eapply can_step; try done; [by apply no_spawn_pair|].
  intros _ Ha. destruct (ready_head i s rt Hrd Ha) as (p & q & ->). by left.
Qed.

Lemma others_keep i s s' rt :
  ready i s rt → rtc (other_step i) s s' →
  ready i s' rt ∧ (alive rt = true → ahead s' rt = ahead s rt).
Proof.
  intros Hrd Hr. revert Hrd. induction Hr as [s|s1 s2 s3 Hs _ IH]; intros Hrd; [done|].
  destruct (other_step_keeps _ _ _ _ Hrd Hs) as [Hrd2 Ha2]. destruct (IH Hrd2) as [Hrd3 Ha3].
  split; [done|]. intros Ha. by rewrite Ha3, Ha2.
Qed.

(** One step of the actor, once the others have made theirs. *)
Lemma inevitable_step i s rt :
  ready i s rt → spawning rt = false →
  (∀ s1 s2 o now rt' w', ready i s1 rt → (alive rt = true → ahead s1 rt = ahead s rt) →
     actor_step o now rt (sys_world s1) = Some (rt', w') → sys_world s2 = put rt' w' →
     ready i s2 rt' → inevitable i (over i) s2) →
  inevitable i (over i) s.
Proof.
  intros Hrd Hsp Hnext. apply inev_later.
  - intros s' Hr. destruct (others_keep _ _ _ _ Hrd Hr) as [Hrd' _]. by eapply ready_moves.
  - intros s' s'' Hr Hown. destruct (others_keep _ _ _ _ Hrd Hr) as [Hrd' Hah].
    pose proof (own_step_sys _ _ _ Hown) as Hsys. pose proof Hrd' as [R1 R2 R3 R4 R5].
    destruct Hown as [o now r rt' w w' pairs pairs' Hi Hs Hm]. cbn [sys_world] in *.
    assert (r = rt) as -> by congruence.
    destruct (actor_step_follows _ _ _ _ _ _ Hs) as [F1 F2 F3 _ F4 F5].
    rewrite (ok_id _ _ _ _ (inv_actor _ _ _ (inv_reachable _ R1) i rt R2)) in F1.
    assert (w_actors (put rt' w') !! i = Some rt') as Hi' by (simpl; by rewrite F1, lookup_insert_eq).
    assert (rt_phase rt' = PhDone ∨ rt_phase rt' ≠ PhDone) as [Hd|Hd]
      by (destruct (rt_phase rt'); auto); [apply inev_now; exists rt'; auto|].
    eapply (Hnext _ (mkSys (put rt' w') pairs')); [done..|]. split; try done; [by eapply rtc_r|by apply F4|].
    intros c Hc. apply (R5 c). rewrite F3 in Hc. revert Hc. apply (no_new_child_put _ w w' i rt); try done.
    eapply actor_step_children; [done|]. intros source cmd k Hp. right.
    unfold spawning in Hsp. by rewrite Hp in Hsp.
Qed.

(** The phases of a terminating actor, the end first.  [N]: its records; [M]: the
    parcels before the next report. *)
Definition measured (N M : nat) (s : Sys) rt : Prop :=
  size (lt_records (tracker_of rt)) = N ∧ (alive rt = true → ahead s rt = M).

Lemma finish_over i s rt : ready i s rt → rt_phase rt = PhFinish → inevitable i (over i) s.
Proof.
  intros Hrd Hp. apply (inevitable_step i s rt Hrd); [unfold spawning; by rewrite Hp|].
  intros s1 s2 o now rt' w' _ _ Hs _ [_ _ Hd _ _]. unfold actor_step in Hs. rewrite Hp in Hs.
  injection Hs as <- <-. by destruct Hd.
Qed.

Lemma select_over i N M s rt :
  (∀ N' M' s rt, N' < N ∨ N' = N ∧ M' < M → ready i s rt → measured N' M' s rt → inevitable i (over i) s) →
  ready i s rt → rt_phase rt = PhSelect → measured N M s rt → inevitable i (over i) s.
Proof.
  intros IH Hrd Hp [HN HM]. apply (inevitable_step i s rt Hrd); [unfold spawning; by rewrite Hp|].
  intros s1 s2 o now rt' w' Hrd1 Hah Hs Hw Hrd2. destruct (alive rt) eqn:Ha.
  - apply (IH (size (lt_records (tracker_of rt'))) (ahead s2 rt') _ rt'); [|done|by split].
    destruct (select_measure i s1 rt o now rt' w' Hrd1 Hp Ha Hs) as [Hlt|[Heq Hlt]]; [left; lia|right].
    rewrite Heq. split; [done|]. unfold ahead. rewrite Hw. cbn [put w_net].
    rewrite <-HM, <-Hah by done. done.
  - apply (finish_over i s2 rt' Hrd2). unfold actor_step, alive in *. rewrite Hp, Ha in Hs.
    by injection Hs as <- <-.
Qed.

Lemma handle_over i N M code source s rt :
  (∀ s rt, ready i s rt → rt_phase rt = PhSelect → measured N M s rt → inevitable i (over i) s) →
  ready i s rt → rt_phase rt = PhHandle source code → measured N M s rt → inevitable i (over i) s.
Proof.
  intros Hsel. revert s rt. induction code as [a r|cmd k IH IHs] using code_asleep_ind; intros s rt Hrd Hp [HN HM].
  - apply (inevitable_step i s rt Hrd); [unfold spawning; by rewrite Hp|].
    intros s1 s2 o now rt' w' Hrd1 Hah Hs Hw Hrd2. unfold actor_step in Hs. rewrite Hp in Hs.
    injection Hs as Hrt <-.
    assert (tracker_of rt' = tracker_of rt ∧ queue_of rt' = queue_of rt ∧ alive rt' = alive rt ∧
      (rt_phase rt' = PhFinish ∨ rt_phase rt' = PhSelect)) as (Ht & Hq & Hal & [Hf|Hf])
      by (rewrite <-Hrt; unfold handler_returned; destruct source, r; by auto).
    + by apply (finish_over i s2 rt').
    + apply (Hsel s2 rt' Hrd2 Hf). split; [by rewrite Ht|]. rewrite Hal. intros Ha.
      rewrite <-HM, <-Hah by done. unfold ahead. rewrite Hw, Hq. done.
  - destruct (spawning rt) eqn:Hsp; [apply inev_now; exists rt; split; [apply Hrd|by right]|].
    apply (inevitable_step i s rt Hrd Hsp). intros s1 s2 o now rt' w' Hrd1 Hah Hs Hw Hrd2.
    pose proof (actor_step_follows _ _ _ _ _ _ Hs) as [_ _ F3 _ _ F5].
    unfold spawning in Hsp. rewrite Hp in Hsp.
    destruct (actor_step_call _ _ _ _ _ _ _ _ _ Hp Hs) as [(rep & c & He & Hrt)|(d & t & Hc & Hw1 & Hrt)].
    2: { rewrite Hrt in *. apply (IHs d t Hc s2 _ Hrd2 eq_refl). split; [done|]. intros Ha.
         rewrite <-HM, <-Hah by done. unfold ahead. by rewrite Hw, Hw1. }
    pose proof (exec_records o cmd (rt_context rt) (sys_world s1) Hsp) as Hr.
    pose proof (rel_exec (R:=grows (queue_of rt)) o cmd (rt_context rt) (sys_world s1)) as Hg.
    rewrite He in Hr, Hg. subst rt'. rename w' into w1.
    apply (IH rep s2 _ Hrd2 eq_refl). split.
    { cbn [fst snd] in Hr. rewrite <-HN. unfold tracker_of. cbn [rt_context set_phase set_context]. by rewrite Hr. }
    intros Ha%F5. rewrite <-HM, <-Hah by done. unfold ahead, queue_of. rewrite Hw, F3.
    apply ahead_of_prefix; [by apply (ready_report i s1 rt)|].
    apply Hg, (ok_bound _ _ _ _ (inv_actor _ _ _ (inv_reachable s1 (rd_reachable _ _ _ Hrd1)) i rt (rd_actor _ _ _ Hrd1))).
Qed.

Lemma ready_over i N : ∀ M s rt, ready i s rt → measured N M s rt → inevitable i (over i) s.
Proof.
  induction N as [N IHN] using lt_wf_ind. intros M. induction M as [M IHM] using lt_wf_ind.
  intros s rt Hrd Hm.
  assert (∀ s rt, ready i s rt → rt_phase rt = PhSelect → measured N M s rt → inevitable i (over i) s) as Hsel.
  { intros s' rt' Hrd' Hp'. apply (select_over i N M s' rt'); [|done..].
    intros N' M' s2 rt2 [Hlt|[-> Hlt]]; [by apply IHN|by apply IHM]. }
  pose proof (ok_local _ _ _ _ (inv_actor _ _ _ (inv_reachable s (rd_reachable _ _ _ Hrd)) i rt (rd_actor _ _ _ Hrd)))
    as [_ _ _ L3 _ L5].
  destruct (rt_phase rt) as [|source code| | | |m] eqn:Hp.
  - destruct Hm as [HN HM]. apply (inevitable_step i s rt Hrd); [unfold spawning; by rewrite Hp|].
    intros s1 s2 o now rt' w' Hrd1 Hah Hs Hw Hrd2. unfold actor_step in Hs. rewrite Hp in Hs.
    injection Hs as Hrt <-. destruct (L3 eq_refl) as (e & He & Hl). unfold entrypoint_start in Hrt. rewrite He in Hrt.
    match type of Hrt with begin_handle ?src e ?r = _ =>
      destruct (begin_handle_loaded src e r Hl) as [code Hb]; rewrite Hb in Hrt end.
    subst rt'. apply (handle_over i N M code SrcAwake s2 _ Hsel Hrd2 eq_refl).
    split; [done|]. intros Ha. rewrite <-HM, <-Hah by done. unfold ahead. by rewrite Hw.
  - by apply (handle_over i N M code source s rt).
  - by apply (Hsel s rt).
  - by apply (finish_over i s rt).
  - by destruct (rd_done _ _ _ Hrd).
  - by destruct (L5 m).
Qed.

(** C10: a terminating actor ends.  Once none of its children runs, an actor that
    terminates is inevitably over: as long as it is polled again and again,
    whatever the other actors, the tasks and the outside do and send in between,
    it reads the ends of its children and finishes, unless one of its own handlers
    spawns one more child. *)
Theorem termination_ends s i rt :
  sys_reachable s → w_actors (sys_world s) !! i = Some rt → rt_phase rt ≠ PhDone →
  lt_terminating (tracker_of rt) = true →
  (∀ c, ¬ live_child (sys_world s) (self rt) c) →
  inevitable i (over i) s.
Proof.
  intros Hr Hi Hd Ht Hc. apply (ready_over i (size (lt_records (tracker_of rt))) (ahead s rt) s rt); by split.
Qed.
End liveness.

#[local] Existing Instance ref_crates.
#[local] Existing Instance sample_app.
#[local] Existing Instance sample_impl.

(** The root of the sample system was interrupted and its only child is over. *)
Lemma child_over_childless c :
  ¬ live_child (sys_world sys_child_over) (self (runtime_of sys_child_over 1)) c.
Proof.
  assert (map_Forall (λ (_ : Id) rt,
    rt_done_notifier rt = NIgnore ∨ ((if rt_phase rt is PhDone then true else false) : bool) = true)
    (w_actors (sys_world sys_child_over))) as Ha by (apply (bool_decide_unpack _); vm_compute; exact I).
  assert (w_tasks (sys_world sys_child_over) = ∅) as Ht by (vm_compute; reflexivity).
  intros [(rt & Hr & Hn & Hd)|(lr & Hlr & _)].
  - destruct (Ha c rt Hr) as [?|He]; [congruence|]. apply Hd. by destruct (rt_phase rt).
  - by rewrite Ht, lookup_empty in Hlr.
Qed.

Lemma termination_ends_witness : inevitable 1 (over 1) sys_child_over.
Proof.
  apply (termination_ends sys_child_over 1 (runtime_of sys_child_over 1)).
  - apply sys_child_over_reachable.
  - apply runtime_of_some. vm_compute. reflexivity.
  - vm_compute. discriminate.
  - vm_compute. reflexivity.
  - apply child_over_childless.
Defined.
