(* ===== verification/Evolution.v ===== *)
(** * How the actors and the tasks of a system evolve

    What one step does to the tracker of an actor ([tracks]), which actors and
    tasks it makes ([born], [task_born]), and what it keeps of the others. *)
From S2P Require Import Prelude Extern Ids Types Lifecycle Linkage LiteRuntime Handlers ActorRuntime.
From S2P Require Import Tasks NetFrame Invariant Growth Supervision Liveness.

Section evolution.
Context `{!Crates, !App, !ActorImpl}.
Implicit Types (n : Net) (w : World) (rt : ActorRuntime) (lr : LiteRuntime).
Implicit Types (t : LifetimeTracker Group Notifier).

Definition stop_loc lr : loc := rx_loc (stop_status (lr_stop_receiver lr)).

(** ** The tracker *)

(** What a step does with the tracker of its actor, from the network [n] on; [w']
    is the world after it, where a child that is tracked from now on lives. *)
Inductive tracks w' (a : Address) n t t' : Prop :=
| tr_same : persists n (w_net w') → lt_stages t' = lt_stages t → lt_records t' = lt_records t → tracks w' a n t t'
| tr_terminate og oi :
    Tracker.try_terminate_next og oi t n = (t', w_net w') → tracks w' a n t t'
| tr_remove og oi i :
    Tracker.remove og oi i t n = (t', w_net w') → tracks w' a n t t'
| tr_actor p actor group :
    Tracker.insert_record (pair_id p) (mkTRecord group (NOnce (pair_address p) OpForward)) t n = (t', w_net w') →
    w_actors w' !! pair_id p = Some (spawned_runtime p actor (Some a)) →
    (pair_hp p < net_next n)%positive → tracks w' a n t t'
| tr_task lr addr group :
    Tracker.insert_record (lr_id lr) (mkTRecord group (NStop addr)) t n = (t', w_net w') →
    w_tasks w' !! lr_id lr = Some lr → stop_tx (task_stop_sender addr) = stop_loc lr →
    (stop_loc lr < net_next n)%positive → is_Some (net_status n !! stop_loc lr) → tracks w' a n t t'.

Lemma tracks_persists w' a n t t' : tracks w' a n t t' → persists n (w_net w').
Proof.
  intros [?|og oi E|og oi i E|p actor group E _ _|lr addr group E _ _ _ _]; [done|..].
  - pose proof (rel_try_terminate (R:=persists) og oi t n) as Hp. by rewrite E in Hp.
  - pose proof (rel_remove (R:=persists) og oi i t n) as Hp. by rewrite E in Hp.
  - match type of E with Tracker.insert_record ?i ?r _ _ = _ =>
      pose proof (rel_insert (R:=persists) i r t n) as Hp end. by rewrite E in Hp.
  - match type of E with Tracker.insert_record ?i ?r _ _ = _ =>
      pose proof (rel_insert (R:=persists) i r t n) as Hp end. by rewrite E in Hp.
Qed.

(** ** New actors and tasks *)

Record born (w : World) (pairs : list AddressPair) (a : Address) (spawns : bool) (c : Id) rt : Prop := {
  bn_id : c ∈ pair_id <$> pairs ∨ ¬ Ids.live (net_heap (w_net w)) c;
  bn_runtime : ∃ p actor sup, rt = spawned_runtime p actor sup ∧ c = pair_id p ∧
    (p ∈ pairs ∨ p = (AddressPair_new (w_net w)).1) ∧
    (sup = None ∨ sup = Some a ∧ spawns = true)
}.

Record task_born w n' (c : Id) lr : Prop := {
  tb_id : c = (alloc_id (w_net w)).1;
  tb_loc : stop_loc lr = net_next (w_net w);
  tb_seen : rx_seen (stop_status (lr_stop_receiver lr)) = 0;
  tb_watch : ∃ x, net_status n' !! stop_loc lr = Some x ∧
    advances (mkWatchView Alive 0 1 true) (watch_view x)
}.

(** ** One call *)

Lemma alloc_id_next n : net_next (alloc_id n).2 = net_next n.
Proof. unfold alloc_id. by destruct (Ids.unique _). Qed.

Lemma pair_bound w p : net_wf (w_net w) → pair_ok w p → (pair_hp p < net_next (w_net w))%positive.
Proof.
  intros Hwf Hp. destruct (decide (pair_hp p < net_next (w_net w))%positive) as [|Hn]; [done|].
  destruct (Hwf (pair_hp p)) as (Hnone & _); [lia|].
  pose proof (pr_open _ _ Hp) as Ho. unfold instant_open in Ho. by rewrite Hnone in Ho.
Qed.

Lemma spawn_addr_tracks actor p group c w :
  net_wf (w_net w) → pair_ok w p →
  let '(c', w') := Context_spawn_actor_with_addr actor p group c w in
  tracks w' (ctx_address c) (w_net w) (ctx_tracker c) (ctx_tracker c') ∧
  w_tasks w' = w_tasks w ∧
  (∀ d rt, w_actors w' !! d = Some rt → w_actors w !! d = Some rt ∨
     d = pair_id p ∧ rt = spawned_runtime p actor (Some (ctx_address c))).
Proof.
  intros Hwf Hp. unfold Context_spawn_actor_with_addr, Tracker.insert. rewrite !Address_clone_id.
  match goal with |- context [Tracker.insert_record ?i ?r ?t ?n] =>
    destruct (Tracker.insert_record i r t n) as [t' n'] eqn:E end.
  split; [|split; [done|]].
  - apply (tr_actor _ _ _ _ _ p actor group); [exact E| |by apply pair_bound].
    simpl. by rewrite lookup_insert_eq.
  - intros d rt Hd. simpl in Hd. apply lookup_insert_Some in Hd as [[<- <-]|[_ ?]]; [by right|by left].
Qed.

Lemma spawn_task_tracks task tag group c w :
  net_wf (w_net w) →
  let '(_, c', w') := Context_spawn_task task tag group c w in
  tracks w' (ctx_address c) (lite_spawn task tag (Some (ctx_address c)) (w_net w)).2
    (ctx_tracker c) (ctx_tracker c') ∧
  w_actors w' = w_actors w ∧
  (∀ d lr, w_tasks w' !! d = Some lr → w_tasks w !! d = Some lr ∨ task_born w (w_net w') d lr).
Proof.
  intros Hwf. unfold Context_spawn_task, Tracker.insert_task. rewrite Address_clone_id.
  pose proof (alloc_id_next (w_net w)) as Hn. unfold lite_spawn, make_stop_channel, alloc_status in *.
  destruct (alloc_id (w_net w)) as [i n1] eqn:Hid. cbn [snd] in Hn.
  set (lr := mkLiteRuntime _ _ _ _ _). set (n2 := bump _).
  match goal with |- context [Tracker.insert_record ?i ?r ?t ?n] =>
    pose proof (rel_insert (R:=watched (net_next n1)) i r t n) as Hw;
    destruct (Tracker.insert_record i r t n) as [t' n'] eqn:E end.
  split; [|split; [done|]].
  - eapply (tr_task _ _ _ _ _ lr); [exact E| |done|..].
    + simpl. by rewrite lookup_insert_eq.
    + unfold stop_loc; simpl. lia.
    + unfold stop_loc; simpl. rewrite lookup_insert_eq. by eexists.
  - intros d lr' Hd. simpl in Hd. apply lookup_insert_Some in Hd as [[<- <-]|[_ ?]]; [right|by left].
    split; [by rewrite Hid|exact Hn|done|].
    destruct (wd_watch _ _ _ Hw) with (x := watch_channel (Wt:=Wt) Alive) as (x' & Hx & Hadv);
      [simpl; lia|by simpl; rewrite lookup_insert_eq|].
    exists x'. rewrite watch_channel_view in Hadv. done.
Qed.

(** What a call does: to the tracker, and to the futures of the executor. *)
Record calls w pairs (spawns : bool) (c : Context_) (c' : Context_) w' : Prop := {
  cl_tracks : ∃ n, persists (w_net w) n ∧
    tracks w' (ctx_address c) n (ctx_tracker c) (ctx_tracker c');
  cl_actors : ∀ d rt, w_actors w' !! d = Some rt →
    w_actors w !! d = Some rt ∨ born w pairs (ctx_address c) spawns d rt;
  cl_tasks : ∀ d lr, w_tasks w' !! d = Some lr → w_tasks w !! d = Some lr ∨ task_born w (w_net w') d lr
}.

Lemma calls_same w pairs b c c' w' :
  persists (w_net w) (w_net w') → w_actors w' = w_actors w → w_tasks w' = w_tasks w →
  lt_stages (ctx_tracker c') = lt_stages (ctx_tracker c) →
  lt_records (ctx_tracker c') = lt_records (ctx_tracker c) → calls w pairs b c c' w'.
Proof.
  intros Hn Ha Ht Hs Hr. split.
  - exists (w_net w). split; [done|]. by apply tr_same.
  - intros d rt. rewrite Ha. auto.
  - intros d lr. rewrite Ht. auto.
Qed.

Lemma calls_on_net {A} (f : Net → A * Net) rep w pairs b c :
  persists (w_net w) (w_net (on_net f rep c w).2) →
  let '(_, c', w') := on_net f rep c w in calls w pairs b c c' w'.
Proof. unfold on_net. destruct (f (w_net w)). intros Hp. by apply calls_same. Qed.

Lemma calls_task task tag group w pairs c :
  net_wf (w_net w) →
  let '(_, c', w') := Context_spawn_task task tag group c w in calls w pairs true c c' w'.
Proof.
  intros Hwf. pose proof (spawn_task_tracks task tag group c w Hwf) as Hs.
  destruct (Context_spawn_task _ _ _ _ _) as [[a c'] w']. destruct Hs as (K1 & K2 & K3). split; [|by rewrite K2; auto|done].
  eexists. split; [|exact K1]. apply rel_lite_spawn.
Qed.

Lemma calls_actor actor p group w n0 pairs c :
  net_wf n0 → pair_ok (with_net n0 w) p → persists (w_net w) n0 →
  pair_id p ∈ pair_id <$> pairs ∨ ¬ Ids.live (net_heap (w_net w)) (pair_id p) →
  p ∈ pairs ∨ p = (AddressPair_new (w_net w)).1 →
  let '(c', w') := Context_spawn_actor_with_addr actor p group c (with_net n0 w) in
  calls w pairs true c c' w'.
Proof.
  intros Hwf Hp Hn Hid Hpair. pose proof (spawn_addr_tracks actor p group c (with_net n0 w) Hwf Hp) as Hs.
  destruct (Context_spawn_actor_with_addr _ _ _ _ _) as [c' w']. destruct Hs as (K1 & K2 & K3). split.
  - by exists n0.
  - intros d rt [?|[-> ->]]%K3; [by left|right]. split; [done|]. eauto 10.
  - rewrite K2. auto.
Qed.

Lemma new_pair_fresh w pairs :
  sys_inv GNone w pairs →
  let '(p, n') := AddressPair_new (w_net w) in
  net_wf n' ∧ pair_ok (with_net n' w) p ∧ persists (w_net w) n' ∧
  ¬ Ids.live (net_heap (w_net w)) (pair_id p).
Proof.
  intros Hinv. pose proof (inv_new_pair _ _ _ Hinv) as Hn.
  pose proof (AddressPair_new_spec (w_net w) (inv_net _ _ _ Hinv)) as Hs.
  pose proof (rel_pair (R:=persists) (w_net w)) as Hnext.
  destruct (AddressPair_new (w_net w)) as [p n']. cbn [fst snd] in *.
  destruct Hs as (_ & _ & _ & _ & (L1 & _) & _ & Hwf & _).
  split; [done|]. split; [|done]. by apply (inv_pair _ _ _ Hn p ltac:(left)).
Qed.

Lemma exec_calls o cmd c w pairs pairs' :
  sys_inv GNone w pairs → moves w cmd pairs pairs' →
  let '(_, c', w') := exec o cmd c w in calls w pairs (spawns_child cmd) c c' w'.
Proof.
  intros Hinv Hm. pose proof (inv_net _ _ _ Hinv) as Hwf. pose proof (new_pair_fresh w pairs Hinv) as Hnew.
  pose proof (λ task tag group, calls_task task tag group w pairs c Hwf) as Htask.
  pose proof (rel_exec (R:=persists) o cmd c w) as Hps.
  destruct cmd; cbn [exec spawns_child] in *; try (by apply calls_on_net); try by apply calls_same.
  - inversion Hm; subst; [|done].
    pose proof (calls_actor actor pair group w (w_net w) (l1 ++ pair :: l2) c Hwf) as Hc.
    rewrite with_net_id in Hc. destruct (Context_spawn_actor_with_addr _ _ _ _ _) as [c' w'].
    assert (pair ∈ l1 ++ pair :: l2) as Hin by (clear; set_solver).
    apply Hc; [by apply (inv_pair _ _ _ Hinv)|done|left; by apply list_elem_of_fmap_2|by left].
  - unfold Context_spawn_actor. pose proof (λ p n', calls_actor actor p group w n' pairs c) as Hc.
    destruct (AddressPair_new (w_net w)) as [p n'].
    destruct Hnew as (N1 & N2 & N3 & N4).
    specialize (Hc p n' N1 N2 N3 (or_intror N4) (or_intror eq_refl)).
    by destruct (Context_spawn_actor_with_addr _ _ _ _ _) as [c' w'].
  - specialize (Htask task tag group). by destruct (Context_spawn_task _ _ _ _ _) as [[]].
  - unfold Context_attach. specialize (Htask (StreamForwarder stream (Address_clone (ctx_address c))) tag group).
    by destruct (Context_spawn_task _ _ _ _ _) as [[]].
  - unfold Context_track_interaction. specialize (Htask task tag group).
    by destruct (Context_spawn_task _ _ _ _ _) as [[]].
  - unfold Context_interrupt in *. destruct (interrupt_by address (w_net w)). by apply calls_same.
  - unfold Context_shutdown, Tracker.start_termination.
    destruct (Tracker.try_terminate_next _ _ _ _) as [t n'] eqn:E. split; [|by auto..].
    exists (w_net w). split; [done|]. eapply tr_terminate. rewrite E. simpl.
    by destruct (Tracker.is_finished t).
  - unfold System_spawn in *. destruct (AddressPair_new (w_net w)) as [p n'] eqn:Hpair.
    destruct Hnew as (N1 & N2 & N3 & N4). split; [exists (w_net w); split; [done|by apply tr_same]| |by auto].
    intros d rt Hd. simpl in Hd. apply lookup_insert_Some in Hd as [[<- <-]|[_ ?]]; [right|by left].
    split; [by right|]. exists p, actor, None. rewrite Hpair. eauto 10.
Qed.

(** ** One step *)

Lemma tracks_put w a n t t' i rt rt' :
  tracks w a n t t' → w_actors w !! i = Some rt → rt_phase rt ≠ PhStart → rt_id rt' = i →
  tracks (put rt' w) a n t t'.
Proof.
  intros Ht Hi Hp Hid. destruct Ht as [?|?? E|??? E|p actor group E Ha Hb|lr addr group E Ha Hl Hb Hx].
  - by apply tr_same.
  - by eapply tr_terminate.
  - by eapply tr_remove.
  - eapply tr_actor; [exact E| |done]. simpl. rewrite Hid, lookup_insert_ne; [done|].
    intros Heq. rewrite <-Heq, Hi in Ha. injection Ha as ->. by apply Hp.
  - by eapply tr_task.
Qed.

Lemma begin_handle_tracker source e rt : tracker_of (begin_handle source e rt) = tracker_of rt.
Proof. unfold tracker_of. by rewrite begin_handle_context. Qed.

(** Reading a parcel. *)
Lemma receive_tracks o p rt w rt' w' :
  receive_parcel o p rt w = (rt', w') →
  tracks w' (self rt) (w_net w) (tracker_of rt) (tracker_of rt') ∧ w_tasks w' = w_tasks w.
Proof.
  unfold receive_parcel. destruct (parcel_operation p) as [c| |deadline].
  - destruct (Tracker.remove _ _ _ _ _) as [t' n'] eqn:E. intros [= <- <-].
    rewrite begin_handle_tracker. split; [|done]. eapply tr_remove. cbn [w_net with_net].
    unfold tracker_of. rewrite E. cbn. by destruct (Tracker.is_finished t').
  - intros [= <- <-]. rewrite begin_handle_tracker. split; [by apply tr_same|done].
  - intros [= <- <-]. split; [by apply tr_same|done].
Qed.

Lemma select_tracks o now rt w rt' w' :
  select_biased o now rt w = Some (rt', w') → persists (w_net w) (w_net w') →
  (∃ n, persists (w_net w) n ∧
    tracks w' (self rt) n (tracker_of rt) (tracker_of rt')) ∧ w_tasks w' = w_tasks w.
Proof.
  unfold select_biased. intros Hs Hps.
  assert (∀ w1 rt1, tracker_of rt1 = tracker_of rt → w_tasks w1 = w_tasks w → Some (rt1, w1) = Some (rt', w') →
    (∃ n, persists (w_net w) n ∧
      tracks w' (self rt) n (tracker_of rt) (tracker_of rt')) ∧ w_tasks w' = w_tasks w) as Hsame.
  { intros w1 rt1 Ht Htk [= <- <-]. split; [|done]. exists (w_net w). split; [done|].
    apply tr_same; by rewrite ?Ht. }
  destruct (mpsc_recv <$> net_hp (w_net w) !! _) as [[[|[p|]] ch]|]; [| |by refine (Hsame _ _ _ _ Hs)|done].
  - destruct (if bool_decide _ then _ else _) as [[|[[e|?]|]] q]; [|refine (Hsame _ _ _ _ Hs); by rewrite ?begin_handle_tracker..].
    destruct (mpsc_recv <$> net_lp (w_net w) !! _) as [[[|[e|]] lch]|];
      [done|refine (Hsame _ _ _ _ Hs); by rewrite ?begin_handle_tracker..|done].
  - injection Hs as Hs. apply receive_tracks in Hs as [Ht Htk]. split; [|done].
    eexists. split; [|exact Ht]. by apply persists_same.
Qed.

(** What a step of the actor [i] does. *)
Record stepped w pairs rt rt' w' : Prop := {
  sp_tracks : ∃ n, persists (w_net w) n ∧
    tracks (put rt' w') (self rt) n (tracker_of rt) (tracker_of rt');
  sp_actors : ∀ d rtd, w_actors w' !! d = Some rtd →
    w_actors w !! d = Some rtd ∨ born w pairs (self rt) (spawning rt) d rtd;
  sp_tasks : ∀ d lr, w_tasks w' !! d = Some lr → w_tasks w !! d = Some lr ∨ task_born w (w_net w') d lr
}.

Lemma actor_stepped o now w w' pairs pairs' i rt rt' :
  sys_inv GNone w pairs → w_actors w !! i = Some rt → actor_step o now rt w = Some (rt', w') →
  phase_moves w (rt_phase rt) pairs pairs' → stepped w pairs rt rt' w'.
Proof.
  intros Hinv Hi Hs Hm. pose proof (inv_actor _ _ _ Hinv i rt Hi) as Hok.
  pose proof (actor_step_id _ _ _ _ _ _ Hs) as Hid. rewrite (ok_id _ _ _ _ Hok) in Hid.
  pose proof (actor_step_persists _ _ _ _ _ _ Hs) as Hps.
  assert (∀ w1 rt1, persists (w_net w) (w_net w1) → w_actors w1 = w_actors w → w_tasks w1 = w_tasks w →
    lt_stages (tracker_of rt1) = lt_stages (tracker_of rt) →
    lt_records (tracker_of rt1) = lt_records (tracker_of rt) → stepped w pairs rt rt1 w1) as Hsame.
  { intros w1 rt1 Hn Ha Ht Hst Hr. split; [|rewrite Ha; auto|rewrite Ht; auto].
    exists (w_net w). split; [done|]. by apply tr_same. }
  unfold actor_step, phase_moves in *.
  destruct (rt_phase rt) as [|source [a r|cmd k]| | | |] eqn:Hp; try done.
  - injection Hs as <- <-. apply Hsame; try done; unfold entrypoint_start;
      destruct (rt_awake_envelope rt); try done; by rewrite begin_handle_tracker.
  - injection Hs as <- <-. apply Hsame; try done; unfold handler_returned; by destruct source, r.
  - destruct (timing now cmd) as [|t|]; [|injection Hs as <- <-; by apply Hsame|done].
    pose proof (exec_calls o cmd (rt_context rt) w pairs pairs' Hinv Hm) as Hc.
    pose proof (exec_actors o cmd (rt_context rt) w pairs pairs' i rt Hinv Hm Hi) as Ha.
    destruct (exec o cmd (rt_context rt) w) as [[rep c] w1]. injection Hs as <- <-.
    destruct Hc as [(n & Hn & Ht) C2 C3]. split; [|by unfold spawning; rewrite Hp|done].
    exists n. split; [done|]. eapply tracks_put; try done. by rewrite Hp.
  - destruct (ctx_alive (rt_context rt)); [|injection Hs as <- <-; by apply Hsame].
    pose proof (select_actors _ _ _ _ _ _ Hs) as Ha. apply select_tracks in Hs as [(n & Hn & Ht) Htk]; [|done].
    split; [|rewrite Ha; auto|rewrite Htk; auto]. exists n. split; [done|].
    eapply tracks_put; [done|by rewrite Ha|by rewrite Hp|done].
  - injection Hs as <- <-. by apply Hsame.
Qed.

(** What a step of the system does. *)
Record evolves (s s' : Sys) : Prop := {
  ev_kept : ∀ c rt, w_actors (sys_world s) !! c = Some rt → ∃ rt' n,
    w_actors (sys_world s') !! c = Some rt' ∧ follows rt rt' ∧ (rt_phase rt = PhDone → rt' = rt) ∧
    persists (w_net (sys_world s)) n ∧
    tracks (sys_world s') (self rt) n (tracker_of rt) (tracker_of rt');
  ev_actors : ∀ c rt', w_actors (sys_world s') !! c = Some rt' →
    is_Some (w_actors (sys_world s) !! c) ∨
    ∃ a b, born (sys_world s) (sys_pairs s) a b c rt' ∧
      (b = true → ∃ j rtj, w_actors (sys_world s) !! j = Some rtj ∧ self rtj = a ∧ spawning rtj = true);
  ev_tasks : ∀ c lr, w_tasks (sys_world s') !! c = Some lr →
    w_tasks (sys_world s) !! c = Some lr ∨ task_born (sys_world s) (w_net (sys_world s')) c lr
}.

Lemma own_step_kept i s s' rt :
  sys_reachable s → w_actors (sys_world s) !! i = Some rt → own_step i s s' → ∃ rt' n,
    w_actors (sys_world s') !! i = Some rt' ∧ follows rt rt' ∧ (rt_phase rt = PhDone → rt' = rt) ∧
    persists (w_net (sys_world s)) n ∧
    tracks (sys_world s') (self rt) n (tracker_of rt) (tracker_of rt').
Proof.
  intros Hr Hi Hown. pose proof (inv_reachable s Hr) as Hinv.
  destruct Hown as [o now r rt' w w' pairs pairs' Hj Hs Hm]. cbn [sys_world sys_pairs] in *.
  assert (r = rt) as -> by congruence.
  destruct (actor_stepped o now w w' pairs pairs' i rt rt' Hinv Hi Hs Hm) as [(n & Hn & Ht) _ _].
  exists rt', n. split; [|split; [by eapply actor_step_follows|split; [|done]]];
    [|intros Hd; unfold actor_step in Hs; by rewrite Hd in Hs].
  simpl. rewrite (actor_step_id _ _ _ _ _ _ Hs), (ok_id _ _ _ _ (inv_actor _ _ _ Hinv i rt Hi)).
  apply lookup_insert_eq.
Qed.

Lemma step_evolves s s' : sys_reachable s → sys_step s s' → evolves s s'.
Proof.
  intros Hr Hstep. pose proof (inv_reachable s Hr) as Hinv. split.
  - intros c rt Hc. destruct (step_frame c s s' rt Hr Hc Hstep) as [Hown|[Hk _ _]]; [by apply own_step_kept|].
    exists rt, (w_net (sys_world s)). split; [done|]. split; [by split|].
    split; [done|]. split; [done|]. apply tr_same; [by apply step_persists|done..].
  - intros c rt' Hc.
    destruct Hstep as [o now i rt r w w' pairs pairs' Hi Hs Hm|i lr res w pairs Hi
      |actor w pairs|n' w pairs Ho|n' w pairs Hg]; cbn [sys_world sys_pairs] in *; [| |idtac| |];
      try (left; by eexists).
    + simpl in Hc. rewrite (actor_step_id _ _ _ _ _ _ Hs), (ok_id _ _ _ _ (inv_actor _ _ _ Hinv i rt Hi)) in Hc.
      apply lookup_insert_Some in Hc as [[<- _]|[_ Hc]]; [left; by eexists|].
      destruct (actor_stepped o now w w' pairs pairs' i rt r Hinv Hi Hs Hm) as [_ Hb _].
      destruct (Hb c rt' Hc) as [?|?]; [left; by eexists|right]. exists (self rt), (spawning rt). split; [done|].
      intros Hsp. by exists i, rt.
    + unfold System_spawn in Hc. pose proof (new_pair_fresh w pairs Hinv) as Hnew.
      destruct (AddressPair_new w.(w_net)) as [p n'] eqn:Hpair. destruct Hnew as (_ & _ & _ & Hf). simpl in Hc.
      apply lookup_insert_Some in Hc as [[<- <-]|[_ Hc]]; [right|left; by eexists].
      exists (pair_address p), false. split; [|done]. split; [by right|]. exists p, actor, None. cbn [sys_world]. rewrite Hpair. auto 10.
  - intros c lr Hc.
    destruct Hstep as [o now i rt r w w' pairs pairs' Hi Hs Hm|i lr0 res w pairs Hi
      |actor w pairs|n' w pairs Ho|n' w pairs Hg]; cbn [sys_world sys_pairs] in *; auto.
    + destruct (actor_stepped o now w w' pairs pairs' i rt r Hinv Hi Hs Hm) as [_ _ Hb]. by apply Hb.
    + simpl in Hc. apply lookup_delete_Some in Hc as [_ ?]. by left.
Qed.
End evolution.
