(* ===== verification/Drained.v ===== *)
(** * Queues do not come to their end

    A channel may lose its last sender at any moment, unless the state of the
    framework holds one ([Invariant.held]).  The context of an actor holds a clone of
    its own address, and a pair that was not used holds its address: so both queues
    of an actor that is not over have a sender ([fed]), they are empty or have a
    message but are never over, and the handlers of drained queues are not called. *)
From S2P Require Import Prelude Extern Ids Types Lifecycle Linkage LiteRuntime Handlers ActorRuntime.
From S2P Require Import Tasks NetFrame Invariant Growth Supervision Liveness Evolution.

Section drains.
Context `{!Crates, !App, !ActorImpl}.
Implicit Types (n : Net) (w : World) (rt : ActorRuntime) (s : Sys).

(** What there is at [l] has a sender. *)
Record fed n (l : loc) : Prop := {
  fed_hp ch : net_hp n !! l = Some ch → mv_tx_alive (mpsc_view ch) = true;
  fed_lp ch : net_lp n !! l = Some ch → mv_tx_alive (mpsc_view ch) = true
}.

Definition keeps_fed n n' : Prop := ∀ l, fed n l → fed n' l.

Lemma keeps_fed_same n n' : net_hp n' = net_hp n → net_lp n' = net_lp n → keeps_fed n n'.
Proof. intros Hh Hl l [F1 F2]. split; intros ch; rewrite ?Hh, ?Hl; [apply F1|apply F2]. Qed.

Lemma keeps_fed_hp k ch n n' :
  net_hp n' = <[k := ch]> (net_hp n) → net_lp n' = net_lp n →
  (fed n k → mv_tx_alive (mpsc_view ch) = true) → keeps_fed n n'.
Proof.
  intros Hh Hl Hc l Hf. pose proof Hf as [F1 F2]. split; [|by rewrite Hl].
  intros ch'. rewrite Hh. intros [[<- <-]|[_ Hk]]%lookup_insert_Some; [by apply Hc|by apply F1].
Qed.

Lemma keeps_fed_lp k ch n n' :
  net_lp n' = <[k := ch]> (net_lp n) → net_hp n' = net_hp n →
  (fed n k → mv_tx_alive (mpsc_view ch) = true) → keeps_fed n n'.
Proof.
  intros Hl Hh Hc l Hf. pose proof Hf as [F1 F2]. split; [by rewrite Hh|].
  intros ch'. rewrite Hl. intros [[<- <-]|[_ Hk]]%lookup_insert_Some; [by apply Hc|by apply F2].
Qed.

#[export] Instance keeps_fed_rel : NetRel keeps_fed.
Proof.
  assert (∀ n, keeps_fed n n) as Hrefl by (intros n; by apply keeps_fed_same).
  split; intros; try (by apply keeps_fed_same).
  - split; [done|]. intros n1 n2 n3 A B l Hf. by apply B, A.
  - unfold high_priority_send. destruct (net_hp n !! _) as [ch|] eqn:Hc; [|done]. simpl.
    destruct (mv_rx_open (mpsc_view ch)) eqn:Ho; [|by rewrite mpsc_send_closed].
    destruct (mpsc_send_open p ch Ho) as (ch' & -> & Hv). eapply keeps_fed_hp; [done..|]. rewrite Hv. simpl.
    intros Hf. by eapply fed_hp.
  - destruct (normal_priority_send_cases a e n) as [(ch & ch' & Hc & Ht & _ & ->)|[_ ->]]; [|done].
    eapply keeps_fed_lp; [done..|]. rewrite Ht. intros Hf. by eapply fed_lp.
  - unfold StopSender_stop. destruct (_ <$> _) as [[w|]|]; [by apply keeps_fed_same|done..].
  - eapply keeps_fed_hp; [done..|]. by rewrite mpsc_channel_view.
  - eapply keeps_fed_lp; [done..|]. by rewrite mpsc_channel_view.
Qed.

(** ** Steps *)

Lemma end_keeps_fed rt n : keeps_fed n (entrypoint_end rt n).
Proof.
  intros l Hf. pose proof (entrypoint_end_channels rt n) as (M1 & M2 & _).
  assert (fed (told rt n) l) as [T1 T2] by by apply (rel_notify (R:=keeps_fed)).
  split; intros ch; [rewrite M1|rewrite M2]; case_decide; [|by apply T1| |by apply T2];
    intros (ch0 & Hc & ->)%fmap_Some; rewrite mpsc_drop_rx_view; [by eapply T1|by eapply T2].
Qed.

(** Receiving takes no sender away. *)
Lemma recv_senders {A} (ch : Ch A) : mv_tx_alive (mpsc_view (mpsc_recv ch).2) = mv_tx_alive (mpsc_view ch).
Proof.
  destruct (mv_queue (mpsc_view ch)) as [|a q] eqn:Hq.
  - destruct (mv_tx_alive (mpsc_view ch)) eqn:Ht; [by rewrite mpsc_recv_pending|by rewrite mpsc_recv_none].
  - destruct (mpsc_recv_some ch a q Hq) as (ch' & -> & Hv). simpl. by rewrite Hv.
Qed.

(** What a queue with a sender gives. *)
Lemma recv_fed {A} (ch : Ch A) : mv_tx_alive (mpsc_view ch) = true → (mpsc_recv ch).1 ≠ Ready None.
Proof.
  intros Ht. destruct (mv_queue (mpsc_view ch)) as [|a q] eqn:Hq.
  - by rewrite mpsc_recv_pending.
  - by destruct (mpsc_recv_some ch a q Hq) as (ch' & -> & Hv).
Qed.

Lemma read_hp_fed l ch n : net_hp n !! l = Some ch → keeps_fed n (set_hp l (mpsc_recv ch).2 n).
Proof. intros Hc. eapply keeps_fed_hp; [done..|]. rewrite recv_senders. intros Hf. by eapply fed_hp. Qed.

Lemma read_lp_fed l ch n : net_lp n !! l = Some ch → keeps_fed n (set_lp l (mpsc_recv ch).2 n).
Proof. intros Hc. eapply keeps_fed_lp; [done..|]. rewrite recv_senders. intros Hf. by eapply fed_lp. Qed.

(** The handler of a drained queue runs. *)
Definition drained rt : bool :=
  match rt_phase rt with
  | PhHandle (SrcInstantDrained | SrcDelayClosed | SrcNormalDrained) _ => true
  | _ => false
  end.

Lemma begin_drained source e rt :
  match source with SrcInstantDrained | SrcDelayClosed | SrcNormalDrained => False | _ => True end →
  drained (begin_handle source e rt) = false.
Proof. intros Hs. unfold begin_handle, drained. destruct (Envelope_handle e _) as [[]|]; [by destruct source|done]. Qed.

Lemma receive_fed o p rt w rt' w' :
  rt_phase rt = PhSelect → receive_parcel o p rt w = (rt', w') →
  keeps_fed (w_net w) (w_net w') ∧ drained rt' = false.
Proof.
  intros Hp. unfold receive_parcel. destruct (parcel_operation p).
  - match goal with |- context [Tracker.remove ?og ?oi ?i ?t ?n] =>
      pose proof (rel_remove (R:=keeps_fed) og oi i t n) as Hk; destruct (Tracker.remove og oi i t n) as [t2 n1] end.
    intros [= <- <-]. split; [exact Hk|by apply begin_drained].
  - intros [= <- <-]. split; [done|by apply begin_drained].
  - intros [= <- <-]. split; [done|]. unfold drained. simpl. by rewrite Hp.
Qed.

Lemma select_fed o now rt w rt' w' :
  rt_phase rt = PhSelect → select_biased o now rt w = Some (rt', w') →
  keeps_fed (w_net w) (w_net w') ∧
  (fed (w_net w) (joint_hp_msg_rx (rt_joint rt)) → fed (w_net w) (joint_msg_rx (rt_joint rt)) → drained rt' = false).
Proof.
  intros Hp. unfold select_biased.
  destruct (net_hp (w_net w) !! _) as [ch|] eqn:Hch; simpl; [|done].
  pose proof (read_hp_fed _ _ _ Hch) as Hread. pose proof (recv_fed ch) as Hr.
  destruct (mpsc_recv ch) as [[|[p|]] ch']; cbn [fst snd] in *.
  - destruct (if bool_decide _ then _ else _) as [maybe q] eqn:Hpoll.
    destruct maybe as [|[[e|[]]|]].
    + destruct (net_lp (w_net w) !! _) as [lch|] eqn:Hlch; simpl; [|done].
      pose proof (read_lp_fed _ _ _ Hlch) as Hlread. pose proof (recv_fed lch) as Hlr.
      destruct (mpsc_recv lch) as [[|[e|]] lch']; [done|..]; intros [= <- <-].
      * split; [exact Hlread|]. intros _ _. by apply begin_drained.
      * split; [done|]. intros _ Hf. by destruct (Hlr (fed_lp _ _ Hf _ Hlch)).
    + intros [= <- <-]. split; [done|]. intros _ _. by apply begin_drained.
    + intros [= <- <-]. split; [done|]. intros _ _. unfold drained. simpl. by rewrite Hp.
    + case_bool_decide as Hlen; [|done]. apply dq_poll_none in Hpoll. rewrite dq_len_view, Hpoll in Hlen. simpl in Hlen. lia.
  - intros [= Heq]. apply receive_fed in Heq as [Hk Hd]; [|done]. split; [|done].
    etrans; [exact Hread|exact Hk].
  - intros [= <- <-]. split; [done|]. intros Hf _. by destruct (Hr (fed_hp _ _ Hf _ Hch)).
Qed.

Lemma actor_step_fed o now rt w rt' w' :
  actor_step o now rt w = Some (rt', w') →
  keeps_fed (w_net w) (w_net w') ∧
  (drained rt = false → (rt_phase rt = PhSelect →
     fed (w_net w) (joint_hp_msg_rx (rt_joint rt)) ∧ fed (w_net w) (joint_msg_rx (rt_joint rt))) →
   drained rt' = false).
Proof.
  intros Hs. unfold actor_step in Hs.
  destruct (rt_phase rt) as [|source [a r|cmd k]| | | |] eqn:Hp; try done.
  - simplify_eq. split; [done|]. intros _ _. unfold entrypoint_start.
    destruct (rt_awake_envelope rt); [by apply begin_drained|done].
  - simplify_eq. split; [done|]. intros _ _. unfold handler_returned. by destruct source, r.
  - destruct (timing now cmd) as [|t|]; [| |done].
    2: { simplify_eq. split; [done|]. intros Hd _. unfold drained in *. by rewrite Hp in Hd. }
    pose proof (rel_exec (R:=keeps_fed) o cmd (rt_context rt) w) as Hk.
    destruct (exec o cmd (rt_context rt) w) as [[rep c] w1]. simplify_eq. split; [done|].
    intros Hd _. unfold drained in *. by rewrite Hp in Hd.
  - destruct (ctx_alive _); [|by simplify_eq]. apply select_fed in Hs as [Hk Hd]; [|done].
    split; [done|]. intros _ Hf. by apply Hd; apply Hf.
  - simplify_eq. split; [apply end_keeps_fed|done].
Qed.

(** A step of the system, for a location that the state of the framework holds, or
    where there is nothing yet. *)
Lemma step_fed s s' l :
  sys_step s s' →
  held (sys_world s) (sys_pairs s) l ∨
    net_hp (w_net (sys_world s)) !! l = None ∧ net_lp (w_net (sys_world s)) !! l = None →
  fed (w_net (sys_world s)) l → fed (w_net (sys_world s')) l.
Proof.
  intros Hs Hl Hf.
  destruct Hs as [o now i rt rt' w w' pairs pairs' Hi Hs Hm|i lr res w pairs Hi|actor w pairs|n' w pairs Ho
    |n' w pairs Hg]; cbn [sys_world sys_pairs] in *.
  - by apply (actor_step_fed o now rt w rt' w' Hs).
  - revert Hf. unfold lite_entrypoint. intros Hf. apply (rel_notify (R:=keeps_fed)).
    destruct (net_status _ !! _); [|done]. by eapply keeps_fed_same; [..|exact Hf].
  - unfold System_spawn. pose proof (rel_pair (R:=keeps_fed) (w_net w) l Hf). by destruct (AddressPair_new (w_net w)).
  - exact (rel_outside (R:=keeps_fed) _ _ Ho l Hf).
  - destruct Hf as [F1 F2]. assert (∀ k, ¬ held w pairs k → is_Some (net_hp (w_net w) !! k) ∨ is_Some (net_lp (w_net w) !! k) → k ≠ l) as Hne.
    { intros k Hk Hx ->. destruct Hl as [?|[E1 E2]]; [done|]. rewrite E1, E2 in Hx. by destruct Hx as [[]|[]]. }
    inversion Hg as [k ch m Hk Hc E|k ch m Hk Hc E|k x m Hk Hc E]; subst; split; intros ch'; simpl;
      first [by auto|rewrite lookup_insert_ne; [by auto|]; apply Hne; eauto].
Qed.

(** Both queues of an address. *)
Definition address_fed n (a : Address) : Prop := fed n (addr_hp_msg_tx a) ∧ fed n (addr_msg_tx a).

Record undrained s : Prop := {
  un_fed i rt : w_actors (sys_world s) !! i = Some rt → rt_phase rt ≠ PhDone →
    address_fed (w_net (sys_world s)) (self rt);
  un_pair p : p ∈ sys_pairs s → address_fed (w_net (sys_world s)) (pair_address p);
  un_actor i rt : w_actors (sys_world s) !! i = Some rt → drained rt = false
}.

Lemma step_pairs s s' p :
  sys_step s s' → p ∈ sys_pairs s' → p ∈ sys_pairs s ∨ p = (AddressPair_new (w_net (sys_world s))).1.
Proof.
  destruct 1 as [o now i rt rt' w w' pairs pairs' Hi Hs Hm| | | |]; cbn [sys_world sys_pairs]; auto.
  unfold phase_moves in Hm. destruct (rt_phase rt) as [|source [a r|cmd k]| | | |]; simplify_eq; auto.
  destruct Hm as [pairs|actor q group l1 l2|cmd pairs Hc]; [| |auto].
  - intros [->|?]%elem_of_cons; auto.
  - intros Hin. left. clear -Hin. set_solver.
Qed.

(** The queues of the addresses that a step makes or keeps. *)
Lemma kept_fed s s' a :
  sys_reachable s → sys_step s s' →
  (∃ i rt, w_actors (sys_world s) !! i = Some rt ∧ rt_phase rt ≠ PhDone ∧ self rt = a) ∨
  (∃ p, (p ∈ sys_pairs s ∨ p = (AddressPair_new (w_net (sys_world s))).1) ∧ pair_address p = a) →
  undrained s → address_fed (w_net (sys_world s')) a.
Proof.
  intros Hr Hs Ha [U1 U2 _]. pose proof (inv_net _ _ _ (inv_reachable s Hr)) as Hwf.
  destruct Ha as [(i & rt & Hi & Hd & <-)|(p & [Hp| ->] & <-)].
  - destruct (U1 i rt Hi Hd). split; (eapply step_fed; [done|left|done]);
      eapply held_actor; [done|done|by left|done|done|by right; left].
  - destruct (U2 p Hp). split; (eapply step_fed; [done|left|done]); eapply held_pair; [done|by left|done|by right; left].
  - pose proof (AddressPair_new_spec (w_net (sys_world s)) Hwf) as Hspec.
    pose proof (AddressPair_new_wired (w_net (sys_world s))) as [_ _ _ Hn].
    destruct (AddressPair_new (w_net (sys_world s))) as [p n']. cbn [fst] in *.
    destruct Hspec as (_ & _ & _ & _ & _ & _ & _ & _ & Hl).
    assert (∀ l, (net_next (w_net (sys_world s)) ≤ l)%positive → fed (w_net (sys_world s')) l) as Hfresh.
    { intros l Hle. destruct (Hwf l Hle) as (E1 & E2 & _). apply (step_fed s s' l Hs); [by right|].
      by split; intros ch; rewrite ?E1, ?E2. }
    split; apply Hfresh; lia.
Qed.

Lemma undrained_step s s' : sys_reachable s → sys_step s s' → undrained s → undrained s'.
Proof.
  intros Hr Hs Hu. pose proof Hu as [U1 U2 U3]. pose proof (step_evolves s s' Hr Hs) as [E1 E2 _]. split.
  - intros i rt' Hi' Hd'. apply (kept_fed s); [done..| |done].
    destruct (E2 i rt' Hi') as [[rt Hi]|(a & b & [_ (p & actor & sup & -> & _ & Hp & _)] & _)].
    + left. destruct (E1 i rt Hi) as (r & n & Hi2 & Hf & Hdone & _). assert (r = rt') as -> by congruence.
      exists i, rt. split; [done|]. split; [|symmetry; apply (fo_self _ _ Hf)].
      intros Hd. apply Hd'. by rewrite (Hdone Hd).
    + right. exists p. split; [done|]. unfold self. simpl. by rewrite Address_clone_id.
  - intros p Hp. apply (kept_fed s); [done..| |done]. right. exists p. split; [|done]. by eapply step_pairs.
  - intros i rt' Hi'.
    destruct (E2 i rt' Hi') as [[rt Hi]|(a & b & [_ (p & actor & sup & -> & _)] & _)]; [|done].
    destruct (step_frame i s s' rt Hr Hi Hs) as [Hown|[Hk _ _]]; [|apply (U3 i); congruence].
    destruct Hown as [o now r rt2 w w' pairs pairs' Hj Ha Hm]. cbn [sys_world] in *.
    assert (r = rt) as -> by congruence. simpl in Hi'.
    pose proof (inv_actor _ _ _ (inv_reachable _ Hr) i rt Hi) as Hok. cbn [sys_world] in Hok.
    rewrite (actor_step_id _ _ _ _ _ _ Ha), (ok_id _ _ _ _ Hok), lookup_insert_eq in Hi'.
    injection Hi' as ->. apply (actor_step_fed o now rt w rt' w' Ha); [by eapply U3|].
    intros Hp. destruct (ok_wired _ _ _ _ Hok) as [W1 W2 _ _]. rewrite W1, W2. apply (U1 i rt Hi). by rewrite Hp.
Qed.

Lemma undrained_reachable s : sys_reachable s → undrained s.
Proof.
  intros Hr. unfold sys_reachable in Hr. apply (rtc_ind_r (R:=sys_step) undrained sys_init); [|..|done].
  - split.
    + intros i rt. simpl. by rewrite lookup_empty.
    + by intros p ?%not_elem_of_nil.
    + intros i rt. simpl. by rewrite lookup_empty.
  - intros s1 s2 Hr1 Hs Hu. by eapply undrained_step.
Qed.

(** What an actor that is not over reads is there, and fed. *)
Lemma held_reachable s i rt :
  sys_reachable s → w_actors (sys_world s) !! i = Some rt → rt_phase rt ≠ PhDone →
  queues_held rt (w_net (sys_world s)).
Proof.
  intros Hr Hi Hd. destruct (un_fed _ (undrained_reachable s Hr) i rt Hi Hd) as [F1 F2].
  pose proof (inv_actor _ _ _ (inv_reachable s Hr) i rt Hi) as Hok.
  pose proof (ok_open _ _ _ _ Hok Hd) as Ho. pose proof (ok_normal _ _ _ _ Hok Hd) as Hn.
  destruct (ok_wired _ _ _ _ Hok) as [W1 W2 _ _]. unfold instant_open, normal_open, queue_of in *.
  split; [rewrite W1|rewrite W2].
  - destruct (net_hp (w_net (sys_world s)) !! _) as [ch|] eqn:Hch; [|done]. exists ch. split; [done|by apply F1].
  - destruct (net_lp (w_net (sys_world s)) !! _) as [ch|] eqn:Hch; [|done]. exists ch. split; [done|by apply F2].
Qed.

(** C7: priorities.  Whenever an actor of a reachable system that is not over chooses
    its next event, it takes the oldest high-priority parcel if there is one; otherwise
    a delayed message whose time has come; otherwise, when no delayed message is late by
    the step of the timer, the oldest normal message; and it waits only when there is
    nothing of the three.  When the timer fails the actor takes nothing, loses nothing
    and chooses again.  Its queues are never over, although a channel that the state of
    the framework does not hold may lose its last sender at any moment: so the handlers
    of drained queues (the methods queue_drained and instant_queue_drained of the trait)
    are never run. *)
Theorem priorities s i rt o now :
  sys_reachable s → w_actors (sys_world s) !! i = Some rt → rt_phase rt ≠ PhDone →
  next_event o now rt (sys_world s) (select_biased o now rt (sys_world s)) ∧ drained rt = false.
Proof.
  intros Hr Hi Hd. split.
  - by eapply select_next_event, held_reachable.
  - by eapply un_actor, Hi; apply undrained_reachable.
Qed.
End drains.

#[local] Existing Instance ref_crates.
#[local] Existing Instance sample_app.
#[local] Existing Instance sample_impl.

(** The child that was interrupted receives the interruption next. *)
Lemma priorities_witness : ∃ rt' w',
  next_event sample_orders 0%N (runtime_of sys_asked 2) (sys_world sys_asked) (Some (rt', w')).
Proof.
  destruct (priorities sys_asked 2 (runtime_of sys_asked 2) sample_orders 0%N) as [Hn _].
  - apply sys_asked_reachable.
  - apply runtime_of_some. vm_compute. reflexivity.
  - vm_compute. discriminate.
  - destruct (select_biased sample_orders 0%N (runtime_of sys_asked 2) (sys_world sys_asked)) as [[rt' w']|] eqn:Hs;
      [by exists rt', w'|vm_compute in Hs; discriminate].
Defined.
