(* ===== verification/Runs.v ===== *)
(** * Runs, and what an actor does on a fair one

    A run of a system from its beginning on, fairness, and the progress of one actor
    on a fair run: a handler that runs ends, a stopped actor ends, and what waits
    in the high-priority queue of an actor is received unless it ends. *)
From S2P Require Import Prelude Extern Ids Types Lifecycle Linkage LiteRuntime Handlers ActorRuntime.
From S2P Require Import Tasks NetFrame Invariant Growth Supervision Liveness Evolution.
From Stdlib Require Import Classical_Prop.

Section runs.
Context `{!Crates, !App, !ActorImpl}.
Implicit Types (n m : nat) (rt : ActorRuntime) (s : Sys) (tr : nat → Sys).

(** ** Runs *)

(** A run: what happens from the beginning of a system on; it may rest. *)
Definition is_run tr : Prop :=
  sys_reachable (tr 0) ∧ ∀ n, sys_step (tr n) (tr (S n)) ∨ tr (S n) = tr n.

(** Every actor that can always make a step makes one in the end. *)
Definition fair tr : Prop :=
  ∀ i n, ∃ m, n ≤ m ∧ (own_step i (tr m) (tr (S m)) ∨ ¬ ∃ s', own_step i (tr m) s').

#[export] Instance follows_preorder : PreOrder follows.
Proof.
  split; [by split|]. intros r1 r2 r3 [A1 A2 A3 A4 A5 A6] [B1 B2 B3 B4 B5 B6]. split; try congruence; auto.
Qed.

(** From some time on, the actor [i] uses only pairs that are there: they are moved
    into the actor that is spawned with them. *)
Definition owns_pairs tr (i : Id) (N : nat) : Prop := ∀ m rt,
  N ≤ m → w_actors (sys_world (tr m)) !! i = Some rt → pair_there (tr m) rt.

Section run.
Context (tr : nat → Sys).
Hypothesis Hrun : is_run tr.
Abbreviation at_ n := (sys_world (tr n)).
Abbreviation net_at n := (w_net (sys_world (tr n))).

Lemma run_reachable n : sys_reachable (tr n).
Proof.
  induction n as [|n IH]; [apply Hrun|]. destruct (proj2 Hrun n) as [Hs| ->]; [by eapply rtc_r|done].
Qed.

Lemma run_inv n : sys_inv GNone (at_ n) (sys_pairs (tr n)).
Proof. apply inv_reachable, run_reachable. Qed.

Lemma run_ok n i rt : w_actors (at_ n) !! i = Some rt → actor_ok GNone (at_ n) i rt.
Proof. apply (inv_actor _ _ _ (run_inv n)). Qed.

(** One moment to the next, for an actor: its own step, or nothing of it. *)
Lemma run_frame n i rt :
  w_actors (at_ n) !! i = Some rt → own_step i (tr n) (tr (S n)) ∨ frame i rt (tr n) (tr (S n)).
Proof.
  intros Hi. destruct (proj2 Hrun n) as [Hs|Heq]; [apply step_frame; [apply run_reachable|done..]|].
  right. split; rewrite Heq; [done|by intros c|done].
Qed.

(** Actors stay, and what is over stays over. *)
Lemma run_kept n m i rt :
  n ≤ m → w_actors (at_ n) !! i = Some rt →
  ∃ rt', w_actors (at_ m) !! i = Some rt' ∧ follows rt rt' ∧ (rt_phase rt = PhDone → rt' = rt).
Proof.
  intros Hle Hi. induction Hle as [|m Hle (rt1 & Hi1 & Hf1 & Hd1)]; [by exists rt|].
  destruct (proj2 Hrun m) as [Hs| ->]; [|by exists rt1].
  destruct (ev_kept _ _ (step_evolves _ _ (run_reachable m) Hs) i rt1 Hi1) as (rt2 & n' & Hi2 & Hf2 & Hd2 & _).
  exists rt2. split; [done|]. split; [by etrans|]. intros Hd. rewrite <-Hd1 by done. apply Hd2. by rewrite Hd1.
Qed.

(** ** The next step of an actor *)

Lemma own_step_inv i s s' rt :
  own_step i s s' → sys_reachable s → w_actors (sys_world s) !! i = Some rt →
  ∃ o now rt' w', actor_step o now rt (sys_world s) = Some (rt', w') ∧
    sys_world s' = put rt' w' ∧ w_actors (sys_world s') !! i = Some rt'.
Proof.
  intros Hown Hr Hi. pose proof (inv_actor _ _ _ (inv_reachable s Hr) i rt Hi) as Hok.
  destruct Hown as [o now r rt' w w' pairs pairs' Hj Hs Hm]. cbn [sys_world] in *.
  assert (r = rt) as -> by congruence. exists o, now, rt', w'. split; [done|]. split; [done|].
  simpl. rewrite (actor_step_id _ _ _ _ _ _ Hs), (ok_id _ _ _ _ Hok). apply lookup_insert_eq.
Qed.

(** From [n] on to [m], an actor did nothing but get messages. *)
Record waits_until (i : Id) rt n m : Prop := {
  wu_le : n ≤ m;
  wu_actor : w_actors (at_ m) !! i = Some rt;
  wu_queue : feeds (self rt) (net_at n) (net_at m)
}.

Lemma next_own i rt n :
  fair tr → w_actors (at_ n) !! i = Some rt →
  (∀ m, waits_until i rt n m → ∃ s', own_step i (tr m) s') →
  ∃ m, waits_until i rt n m ∧ own_step i (tr m) (tr (S m)).
Proof.
  intros Hfair Hi Hcan. destruct (Hfair i n) as (m & Hle & Hm).
  assert (∃ d, m = n + d) as [d ->] by (exists (m - n); lia). clear Hle.
  assert (waits_until i rt n n) as Hn by by split.
  remember n as n0 eqn:E in Hm, Hi. rewrite E in Hi.
  assert (waits_until i rt n n0) as Hn0 by by rewrite E. clear E Hn Hi. revert n0 Hm Hn0.
  induction d as [|d IH]; intros n0 Hm Hn0.
  - rewrite Nat.add_0_r in Hm. exists n0. split; [done|]. destruct Hm as [?|Hno]; [done|]. by destruct Hno; apply Hcan.
  - destruct (run_frame n0 i rt (wu_actor _ _ _ _ Hn0)) as [?|[F1 _ F3]]; [by exists n0|].
    apply (IH (S n0)); [by rewrite <-plus_n_Sm in Hm|]. destruct Hn0 as [W1 W2 W3]. split; [lia|done|by etrans].
Qed.

(** What is inevitable comes on every fair run. *)
Lemma inevitable_fair i P n : fair tr → inevitable i P (tr n) → ∃ m, n ≤ m ∧ P (tr m).
Proof.
  intros Hfair Hin. remember (tr n) as s eqn:Hs. revert n Hs.
  induction Hin as [s Hp|s Hcan _ IH]; intros n ->; [by exists n|].
  assert (∀ d k, n ≤ k → rtc (other_step i) (tr n) (tr k) →
    own_step i (tr (k + d)) (tr (S (k + d))) ∨ ¬ (∃ s', own_step i (tr (k + d)) s') →
    ∃ m, n ≤ m ∧ P (tr m)) as Hwalk.
  { induction d as [|d IHd]; intros k Hk Hn Hm.
    - rewrite Nat.add_0_r in Hm. destruct Hm as [Hm|Hm]; [|by destruct Hm; apply Hcan].
      destruct (IH (tr k) (tr (S k)) Hn Hm (S k) eq_refl) as (m & ? & ?). exists m. split; [lia|done].
    - destruct (classic (own_step i (tr k) (tr (S k)))) as [Hown|Hown].
      + destruct (IH (tr k) (tr (S k)) Hn Hown (S k) eq_refl) as (m & ? & ?). exists m. split; [lia|done].
      + apply (IHd (S k)); [lia| |by rewrite <-plus_n_Sm in Hm].
        destruct (proj2 Hrun k) as [Hs| ->]; [|done]. eapply rtc_r; [exact Hn|by split]. }
  destruct (Hfair i n) as (m & Hle & Hm). apply (Hwalk (m - n) n); [lia|done|].
  by replace (n + (m - n)) with m by lia.
Qed.

(** ** What an actor does on a fair run *)

Section actor.
Context (i : Id) (N : nat).
Hypothesis Hfair : fair tr.
Hypothesis Hpairs : owns_pairs tr i N.

Definition live_at n rt : Prop :=
  N ≤ n ∧ w_actors (at_ n) !! i = Some rt ∧ rt_phase rt ≠ PhDone.

(** The actor is over some time after [n]. *)
Definition ends n : Prop :=
  ∃ m rt, n ≤ m ∧ w_actors (at_ m) !! i = Some rt ∧ rt_phase rt = PhDone.

Lemma ends_le n m : n ≤ m → ends m → ends n.
Proof. intros Hle (k & rt & Hk & ?). exists k, rt. split; [lia|done]. Qed.

(** What an actor becomes is over, or live. *)
Lemma live_or_ends n rt : N ≤ n → w_actors (at_ n) !! i = Some rt → ends n ∨ live_at n rt.
Proof.
  intros Hn Hrt. assert (rt_phase rt = PhDone ∨ rt_phase rt ≠ PhDone) as [Hd|Hd] by (destruct (rt_phase rt); auto).
  - left. by exists n, rt.
  - by right.
Qed.

(** From [n] to [m] the actor went on, and received nothing. *)
Record goes_on n rt m rt' : Prop := {
  go_le : n ≤ m;
  go_live : live_at m rt';
  go_queues : feeds (self rt) (net_at n) (net_at m);
  go_follows : follows rt rt';
  go_scheduled : rt_scheduled rt' = rt_scheduled rt
}.

Lemma goes_on_refl n rt : live_at n rt → goes_on n rt n rt.
Proof. by split. Qed.

Lemma goes_on_trans n rt m rt1 k rt2 : goes_on n rt m rt1 → goes_on m rt1 k rt2 → goes_on n rt k rt2.
Proof.
  intros [A1 A2 A3 A4 A5] [B1 B2 B3 B4 B5]. split; [lia|done| |by etrans|congruence].
  etrans; [exact A3|]. by rewrite (fo_self _ _ A4) in B3.
Qed.

(** What waits in a queue has a channel. *)
Lemma normal_bound n l : normal_queue (net_at n) l ≠ [] → (l < net_next (net_at n))%positive.
Proof.
  intros Hq. destruct (decide (l < net_next (net_at n))%positive) as [|Hl]; [done|].
  destruct (inv_net _ _ _ (run_inv n) l) as (_ & Hnone & _); [lia|]. unfold normal_queue in Hq. by rewrite Hnone in Hq.
Qed.

Definition has_message n rt : Prop :=
  instant_queue (net_at n) (queue_of rt) ≠ [] ∨ normal_queue (net_at n) (addr_msg_tx (self rt)) ≠ [].

Lemma instant_later n m rt q :
  live_at n rt → feeds (self rt) (net_at n) (net_at m) → instant_queue (net_at n) (queue_of rt) = q →
  ∃ q', instant_queue (net_at m) (queue_of rt) = q ++ q'.
Proof.
  intros (_ & Hrt & _) [[_ Hg] _] <-. destruct (Hg (ok_bound _ _ _ _ (run_ok n i rt Hrt))) as [q' Hq]. by exists q'.
Qed.

Lemma normal_later n m rt q :
  feeds (self rt) (net_at n) (net_at m) → normal_queue (net_at n) (addr_msg_tx (self rt)) = q → q ≠ [] →
  ∃ q', normal_queue (net_at m) (addr_msg_tx (self rt)) = q ++ q'.
Proof. intros [_ [_ Hg]] <- Hq. destruct (Hg (normal_bound n _ Hq)) as [q' Hq']. by exists q'. Qed.

Lemma has_message_later n m rt :
  live_at n rt → feeds (self rt) (net_at n) (net_at m) → has_message n rt → has_message m rt.
Proof.
  intros Hl Hf [Hq|Hq].
  - left. destruct (instant_later n m rt _ Hl Hf eq_refl) as [q' ->]. by intros [? _]%app_eq_nil.
  - right. destruct (normal_later n m rt _ Hf eq_refl Hq) as [q' ->]. by intros [? _]%app_eq_nil.
Qed.

(** Its next step, when it does not wait for a message. *)
Lemma live_next n rt :
  live_at n rt → (rt_phase rt = PhSelect → alive rt = true → has_message n rt) →
  ∃ m o now rt' w', waits_until i rt n m ∧ actor_step o now rt (at_ m) = Some (rt', w') ∧
    at_ (S m) = put rt' w' ∧ w_actors (at_ (S m)) !! i = Some rt'.
Proof.
  intros Hl Hq. pose proof Hl as (Hn & Hrt & Hd).
  destruct (next_own i rt n Hfair Hrt) as (m & Hw & Hown).
  - intros m [W1 W2 W3]. apply (can_step i _ rt); [apply run_reachable|done|done|apply Hpairs; [lia|done]|].
    intros Hp Ha. by apply (has_message_later n m); [..|apply Hq].
  - destruct (own_step_inv i _ _ rt Hown (run_reachable m) (wu_actor _ _ _ _ Hw)) as (o & now & rt' & w' & Hs & Heq & Hi').
    by exists m, o, now, rt', w'.
Qed.

(** A step that is neither a wait nor the last one. *)
Lemma go_step n rt m o now rt' w' :
  live_at n rt → waits_until i rt n m → actor_step o now rt (at_ m) = Some (rt', w') →
  at_ (S m) = put rt' w' → w_actors (at_ (S m)) !! i = Some rt' → rt_phase rt' ≠ PhDone →
  feeds (self rt) (net_at m) (w_net w') → rt_scheduled rt' = rt_scheduled rt → goes_on n rt (S m) rt'.
Proof.
  intros (Hn & Hrt & Hd) [W1 W2 W3] Hs Heq Hi' Hd' Hg Hsch. split; [lia|..|done].
  - by split; [lia|].
  - rewrite Heq. by etrans.
  - by eapply actor_step_follows.
Qed.

(** One step of a handler that calls: the call, or the beginning of a sleep. *)
Lemma handle_poll n rt source cmd k :
  live_at n rt → rt_phase rt = PhHandle source (CDo cmd k) →
  ∃ m, n ≤ m ∧ ((∃ o rep c w', goes_on n rt (S m) (after_call rt source (k rep) c) ∧
      exec o cmd (rt_context rt) (at_ m) = (rep, c, w') ∧ at_ (S m) = put (after_call rt source (k rep) c) w') ∨
    ∃ d t, cmd = CmdSleep d ∧
      goes_on n rt (S m) (set_phase (PhHandle source (CDo (CmdSleepUntil t) k)) rt)).
Proof.
  intros Hl Hp. destruct (live_next n rt Hl ltac:(by rewrite Hp)) as (m & o & now & rt' & w' & Hw & Hs & Heq & Hi').
  pose proof (rel_exec (R:=feeds (self rt)) o cmd (rt_context rt) (at_ m)) as Hg.
  exists m. split; [apply Hw|].
  destruct (actor_step_call _ _ _ _ _ _ _ _ _ Hp Hs) as [(rep & c & He & ->)|(d & t & -> & -> & ->)].
  - left. rewrite He in Hg. exists o, rep, c, w'. split; [|done]. by eapply go_step.
  - right. exists d, t. split; [done|]. by eapply go_step.
Qed.

Lemma handle_step n rt source cmd k :
  live_at n rt → rt_phase rt = PhHandle source (CDo cmd k) →
  ∃ m o rep c w', n ≤ m ∧ goes_on n rt (S m) (after_call rt source (k rep) c) ∧
    exec o cmd (rt_context rt) (at_ m) = (rep, c, w') ∧ at_ (S m) = put (after_call rt source (k rep) c) w'.
Proof.
  intros Hl Hp. destruct (handle_poll n rt source cmd k Hl Hp)
    as (m & Hm & [(o & rep & c & w' & ?)|(d & t & -> & Hgo)]); [by exists m, o, rep, c, w'|].
  destruct (handle_poll (S m) _ source (CmdSleepUntil t) k (go_live _ _ _ _ Hgo) eq_refl)
    as (m' & Hm' & [(o & rep & c & w' & Hgo' & He & Heq)|(d' & t' & [=] & _)]).
  exists m', o, rep, c, w'. split; [lia|]. split; [|done]. by eapply goes_on_trans.
Qed.

(** The handler that runs ends. *)
Lemma handler_settles code : ∀ n rt source,
  live_at n rt → rt_phase rt = PhHandle source code →
  ∃ m rt', goes_on n rt m rt' ∧ (rt_phase rt' = PhSelect ∨ rt_phase rt' = PhFinish).
Proof.
  induction code as [a r|cmd k IH]; intros n rt source Hl Hp.
  - destruct (live_next n rt Hl ltac:(by rewrite Hp)) as (m & o & now & rt' & w' & Hw & Hs & Heq & Hi').
    pose proof Hs as Hs'. unfold actor_step in Hs'. rewrite Hp in Hs'. injection Hs' as Hrt' Hw'.
    assert ((rt_phase rt' = PhSelect ∨ rt_phase rt' = PhFinish) ∧ rt_scheduled rt' = rt_scheduled rt) as [Hph Hsch]
      by (rewrite <-Hrt'; unfold handler_returned; destruct source, r; by auto).
    exists (S m), rt'. split; [|done]. eapply go_step; try done; [by destruct Hph as [->| ->]|by subst w'].
  - destruct (handle_step n rt source cmd k Hl Hp) as (m & o & rep & c & w' & _ & Hgo & _).
    destruct (IH rep (S m) _ source (go_live _ _ _ _ Hgo) eq_refl) as (m' & rt' & Hgo' & Hph).
    exists m', rt'. split; [by eapply goes_on_trans|done].
Qed.

(** Whatever it does, an actor that lives comes to choose its next message, or to
    its end. *)
Lemma settles n rt :
  live_at n rt → ∃ m rt', goes_on n rt m rt' ∧ (rt_phase rt' = PhSelect ∨ rt_phase rt' = PhFinish).
Proof.
  intros Hl. pose proof Hl as (Hn & Hrt & Hd).
  pose proof (ok_local _ _ _ _ (run_ok n i rt Hrt)) as [_ _ _ L3 _ L5].
  destruct (rt_phase rt) as [|source code| | | |msg] eqn:Hp; try done.
  - destruct (live_next n rt Hl ltac:(by rewrite Hp)) as (m & o & now & rt' & w' & Hw & Hs & Heq & Hi').
    pose proof Hs as Hs'. unfold actor_step in Hs'. rewrite Hp in Hs'. injection Hs' as Hrt' Hw'.
    destruct (L3 eq_refl) as (e & He & Hload). unfold entrypoint_start in Hrt'. rewrite He in Hrt'.
    match type of Hrt' with begin_handle ?src e ?r = _ =>
      destruct (begin_handle_loaded src e r Hload) as [code Hb]; rewrite Hb in Hrt' end.
    assert (goes_on n rt (S m) rt') as Hgo by (eapply go_step; try done; [by subst rt'|by subst w'|by subst rt']).
    destruct (handler_settles code (S m) rt' SrcAwake (go_live _ _ _ _ Hgo)) as (m' & rt2 & Hgo' & Hph);
      [by subst rt'|]. exists m', rt2. split; [by eapply goes_on_trans|done].
  - by eapply handler_settles.
  - exists n, rt. split; [by apply goes_on_refl|by left].
  - exists n, rt. split; [by apply goes_on_refl|by right].
  - by destruct (L5 msg).
Qed.

Lemma finish_ends n rt : live_at n rt → rt_phase rt = PhFinish → ends n.
Proof.
  intros Hl Hp. destruct (live_next n rt Hl ltac:(by rewrite Hp)) as (m & o & now & rt' & w' & [Hw _ _] & Hs & Heq & Hi').
  unfold actor_step in Hs. rewrite Hp in Hs. injection Hs as <- <-.
  eexists (S m), _. split; [lia|]. by split.
Qed.

(** A stopped actor ends. *)
Lemma stopped_ends n rt : live_at n rt → alive rt = false → ends n.
Proof.
  intros Hl Ha. destruct (settles n rt Hl) as (m & rt1 & [G1 G2 _ G4 _] & Hp).
  assert (alive rt1 = false) as Ha1 by (destruct (alive rt1) eqn:E; [|done]; by rewrite (fo_alive _ _ G4 E) in Ha).
  apply (ends_le n m); [done|]. destruct Hp as [Hp|Hp]; [|by eapply finish_ends].
  destruct (live_next m rt1 G2) as (k & o & now & rt' & w' & [Hw _ _] & Hs & Heq & Hi'); [congruence|].
  unfold actor_step, alive in *. rewrite Hp, Ha1 in Hs. injection Hs as <- <-.
  apply (ends_le m (S k)); [lia|]. apply (finish_ends (S k) (set_phase PhFinish rt1)); [|done].
  destruct G2 as (?&_). split; [lia|]. by split.
Qed.

(** An actor comes to choose its next message, alive, or ends. *)
Lemma settles_alive n rt :
  live_at n rt → ends n ∨ ∃ m rt', goes_on n rt m rt' ∧ rt_phase rt' = PhSelect ∧ alive rt' = true.
Proof.
  intros Hl. destruct (settles n rt Hl) as (m & rt' & Hgo & Hp). pose proof Hgo as [G1 G2 _ _ _].
  destruct Hp as [Hp|Hp]; [|left; eapply ends_le, finish_ends; done].
  destruct (alive rt') eqn:Ha; [right|left; eapply ends_le, stopped_ends; done]. by exists m, rt'.
Qed.

(** ** What waits in the high-priority queue is received *)

Definition received p n rt m rt' : Prop :=
  n ≤ m ∧ live_at m rt' ∧ follows rt rt' ∧ ∃ o w q rt2 w2,
    instant_queue (net_at m) (queue_of rt') = p :: q ∧
    receive_parcel o p rt' w = (rt2, w2) ∧ at_ (S m) = put rt2 w2 ∧ w_actors (at_ (S m)) !! i = Some rt2.

Lemma select_step n rt p q :
  live_at n rt → rt_phase rt = PhSelect → alive rt = true →
  instant_queue (net_at n) (queue_of rt) = p :: q →
  ∃ m o w rt2 w2, n ≤ m ∧ live_at m rt ∧ instant_queue (w_net w) (queue_of rt) = tail (instant_queue (net_at m) (queue_of rt)) ∧
    (∃ q', instant_queue (net_at m) (queue_of rt) = p :: q ++ q') ∧
    (queue_of rt < net_next (w_net w))%positive ∧
    receive_parcel o p rt w = (rt2, w2) ∧ follows rt rt2 ∧
    at_ (S m) = put rt2 w2 ∧ w_actors (at_ (S m)) !! i = Some rt2.
Proof.
  intros Hl Hp Ha Hq. pose proof Hl as (Hn & Hrt & Hd).
  destruct (live_next n rt Hl) as (m & o & now & rt2 & w2 & [W1 W2 W3] & Hs & Heq & Hi2); [left; by rewrite Hq|].
  destruct (instant_later n m rt _ Hl W3 Hq) as [q' Hq'].
  simpl in Hq'. pose proof (run_ok m i rt W2) as Hok.
  destruct (select_receives rt (at_ m) p (q ++ q') (ok_joint _ _ _ _ Hok) Hq' Hp Ha) as (ch & Hv & Hr).
  pose proof (actor_step_follows _ _ _ _ _ _ Hs) as Hf. rewrite Hr in Hs. injection Hs as Hs. eexists m, o, _, rt2, w2.
  split; [done|]. split; [by split; [lia|]|]. split; [|split; [by exists q'|split; [|by split; [exact Hs|]]]].
  - unfold instant_queue at 1. cbn. rewrite lookup_insert_eq, Hv, Hq'. done.
  - apply (ok_bound _ _ _ _ Hok).
Qed.

Lemma drains q1 : ∀ p q2 n rt,
  live_at n rt → instant_queue (net_at n) (queue_of rt) = q1 ++ p :: q2 →
  ends n ∨ ∃ m rt', received p n rt m rt'.
Proof.
  induction q1 as [|x q1 IH]; intros p q2 n rt Hl Hq;
    (destruct (settles_alive n rt Hl) as [?|(m1 & rt1 & [G1 G2 G3 G4 _] & Hp & Ha)]; [by left|]);
    destruct (instant_later n m1 rt _ Hl G3 Hq) as [q' Hq'];
    assert (queue_of rt1 = queue_of rt) as Hqe by (unfold queue_of; by rewrite (fo_self _ _ G4));
    rewrite <-Hqe in Hq'; simpl in Hq';
    destruct (select_step m1 rt1 _ _ G2 Hp Ha Hq') as (m & o & w & rt2 & w2 & S1 & S2 & S3 & (q'' & S4) & S5 & S6 & Sf & S7 & S8).
  - right. exists m, rt1. split; [lia|]. split; [done|]. split; [done|]. eauto 10.
  - apply receive_records in S6 as (_ & Hself & Hg).
    destruct (live_or_ends (S m) rt2) as [?|Hl2]; [destruct S2; lia|done|left; eapply ends_le; [|done]; lia|].
    destruct (gr_queue _ _ _ (Hg (queue_of rt1)) S5) as [q3 Hq3].
    rewrite S3, S4 in Hq3. simpl in Hq3.
    destruct (IH p (q2 ++ q' ++ q'' ++ q3) (S m) rt2 Hl2) as [He|(m' & rt' & R1 & R2 & R3 & R4)].
    + rewrite S7. cbn [put w_net]. unfold queue_of. rewrite Hself. fold (queue_of rt1). rewrite Hq3.
      by rewrite <-!(assoc_L (++)).
    + left. eapply ends_le; [|exact He]. lia.
    + right. exists m', rt'. split; [lia|]. split; [done|]. split; [|done]. by do 2 (etrans; [eassumption|]).
Qed.

Lemma drains_elem n rt p :
  live_at n rt → p ∈ instant_queue (net_at n) (queue_of rt) →
  ends n ∨ ∃ m rt', received p n rt m rt'.
Proof. intros Hl (q1 & q2 & Hq)%list_elem_of_split. by eapply drains. Qed.
End actor.
End run.
End runs.
