(* ===== verification/Delivery.v ===== *)
(** * Messages are delivered

    On every fair run, what waits in the high-priority queue of an actor is received
    unless the actor ends; and once nothing arrives there any more, what waits in its
    normal queue is handled as well, so a request gets its answer. *)
From S2P Require Import Prelude Extern Ids Types Lifecycle Linkage LiteRuntime Handlers ActorRuntime.
From S2P Require Import Tasks NetFrame Invariant Growth Supervision Liveness Evolution Drained Runs.

Section delivery.
Context `{!Crates, !App, !ActorImpl}.
Implicit Types (n m : nat) (rt : ActorRuntime) (s : Sys) (tr : nat → Sys) (e : Envelope).

(** From some time on, nothing waits with high priority. *)
Definition quiet tr (i : Id) (N : nat) : Prop := ∀ m rt,
  N ≤ m → w_actors (sys_world (tr m)) !! i = Some rt →
  instant_queue (w_net (sys_world (tr m))) (queue_of rt) = [].

(** The timer does not fail. *)
Definition timers_work : Prop := ∀ now (q q' : Compat.DelayQueue Envelope) x,
  dq_poll now q ≠ (Ready (Some (Err x)), q').

(** The actor [i] begins to handle [e], the head of its normal queue, at [m]. *)
Definition handles tr (i : Id) e m rt : Prop := ∃ q w,
  w_actors (sys_world (tr m)) !! i = Some rt ∧ rt_phase rt = PhSelect ∧
  normal_queue (w_net (sys_world (tr m))) (addr_msg_tx (self rt)) = e :: q ∧
  normal_queue (w_net w) (addr_msg_tx (self rt)) = q ∧
  sys_world (tr (S m)) = put (begin_handle SrcNormal e rt) w.

Section run.
Context (tr : nat → Sys) (i : Id) (N : nat).
Hypothesis Hrun : is_run tr.
Hypothesis Hfair : fair tr.
Hypothesis Hpairs : owns_pairs tr i N.
Hypothesis Hquiet : quiet tr i N.
Hypothesis Htimers : timers_work.
Abbreviation at_ n := (sys_world (tr n)).
Abbreviation net_at n := (w_net (sys_world (tr n))).
Abbreviation live := (live_at tr i N).
Abbreviation delayed rt := (length (dq_view (rt_scheduled rt))).

(** Choosing a message while nothing waits with high priority: the first one of the
    normal queue, or a delayed one. *)
Lemma quiet_next n rt e q :
  live n rt → rt_phase rt = PhSelect → alive rt = true →
  normal_queue (net_at n) (addr_msg_tx (self rt)) = e :: q →
  ∃ m rt2 w q', n ≤ m ∧ live m rt ∧ at_ (S m) = put rt2 w ∧ w_actors (at_ (S m)) !! i = Some rt2 ∧
    follows rt rt2 ∧ normal_queue (net_at m) (addr_msg_tx (self rt)) = e :: q ++ q' ∧
    (rt2 = begin_handle SrcNormal e rt ∧ normal_queue (w_net w) (addr_msg_tx (self rt)) = q ++ q' ∧
       delayed rt2 = delayed rt ∨
     w = at_ m ∧ delayed rt2 < delayed rt).
Proof.
  intros Hl Hp Ha Hq. pose proof Hl as (Hn & Hrt & Hd).
  destruct (live_next tr Hrun i N Hfair Hpairs n rt Hl) as (m & o & now & rt2 & w2 & [W1 W2 W3] & Hs & Heq & Hi2);
    [intros _ _; right; by rewrite Hq|].
  destruct (normal_later tr Hrun n m rt _ W3 Hq) as [q' Hq']; [done|].
  pose proof (Hquiet m rt ltac:(lia) W2) as Hi. pose proof (run_ok tr Hrun m i rt W2) as Hok.
  destruct (ok_wired _ _ _ _ Hok) as [J1 J2 _ _].
  pose proof (actor_step_follows _ _ _ _ _ _ Hs) as Hf.
  exists m, rt2, w2, q'. do 6 (split; [done||by split; [lia|]|]).
  unfold actor_step in Hs. unfold alive in Ha. rewrite Hp, Ha in Hs.
  pose proof (select_next_event o now rt (at_ m) (held_reachable _ i rt (run_reachable tr Hrun m) W2 Hd)) as Hev.
  unfold queue_of in Hi.
  destruct Hev as [x y ch ch' Hch Hv|t x y _ _ Hperm|y _ Hpoll|x y ch ch' _ _ Hch Hv Hv'|]; [..|done];
    simplify_eq.
  - unfold instant_queue in Hi. rewrite <-J1, Hch, Hv in Hi. done.
  - right. split; [done|]. unfold begin_handle. apply Permutation_length in Hperm. simpl in Hperm.
    destruct (Envelope_handle _ _) as [[]|]; simpl; lia.
  - by apply Htimers in Hpoll.
  - left. rewrite J2 in Hch. unfold normal_queue in Hq'. rewrite Hch, Hv in Hq'. injection Hq' as -> Hqq. split; [done|].
    split; [|unfold begin_handle; by destruct (Envelope_handle _ _) as [[]|]].
    unfold normal_queue. cbn. rewrite <-J2, lookup_insert_eq. done.
Qed.

(** What waits in the normal queue is handled, unless the actor ends. *)
Lemma normal_drains e k : ∀ q1 q2 n rt,
  delayed rt + length q1 < k → live n rt → normal_queue (net_at n) (addr_msg_tx (self rt)) = q1 ++ e :: q2 →
  ends tr i n ∨ ∃ m rt', n ≤ m ∧ N ≤ m ∧ follows rt rt' ∧ handles tr i e m rt'.
Proof.
  induction k as [|k IH]; intros q1 q2 n rt Hk Hl Hq; [lia|].
  destruct (settles_alive tr Hrun i N Hfair Hpairs n rt Hl) as [?|(m1 & rt1 & [G1 G2 G3 G4 G5] & Hp & Ha)]; [by left|].
  destruct (normal_later tr Hrun n m1 rt _ G3 Hq) as [q' Hq']; [by destruct q1|].
  rewrite <-(fo_self _ _ G4), <-(assoc_L (++)) in Hq'. simpl in Hq'. rewrite <-G5 in Hk.
  assert (∃ x q0, q1 ++ e :: q2 ++ q' = x :: q0) as (x & q0 & Hx) by (destruct q1; by eexists _, _).
  destruct (quiet_next m1 rt1 x q0 G2 Hp Ha ltac:(by rewrite Hq')) as
    (m & rt2 & w & q3 & Hm & Hl' & Heq & Hi2 & Hf & Hqm & Hcase).
  assert (N ≤ m) as HNm by apply Hl'.
  assert (follows rt rt2) as Hf2 by by etrans.
  assert (∀ q4, (∃ q5, normal_queue (net_at (S m)) (addr_msg_tx (self rt2)) = q4 ++ e :: q5) →
    delayed rt2 + length q4 < k →
    ends tr i n ∨ ∃ m rt', n ≤ m ∧ N ≤ m ∧ follows rt rt' ∧ handles tr i e m rt') as Hlater.
  { intros q4 [q5 Hq4] Hlt. destruct (live_or_ends tr i N (S m) rt2 ltac:(lia) Hi2) as [?|Hl2].
    { left. eapply (ends_le tr i n); [|done]. lia. }
    destruct (IH q4 q5 (S m) rt2 Hlt Hl2 Hq4) as [?|(m' & rt' & ? & ? & ? & ?)].
    - left. eapply (ends_le tr i n); [|done]. lia.
    - right. exists m', rt'. split; [lia|]. split; [done|]. split; [by etrans|done]. }
  rewrite (fo_self _ _ Hf), Heq in Hlater. cbn [put w_net] in Hlater.
  destruct Hcase as [(-> & Hw & Hdel)|[-> Hdel]].
  - destruct q1 as [|y q1]; simpl in Hx; injection Hx as -> <-.
    + right. exists m, rt1. split; [lia|]. split; [done|]. split; [done|]. exists ((q2 ++ q') ++ q3), w.
      by destruct Hl' as (_ & ? & _).
    + apply (Hlater q1); [|simpl in Hk; lia]. exists (q2 ++ q' ++ q3). by rewrite Hw, <-!(assoc_L (++)); simpl; rewrite <-(assoc_L (++)).
  - apply (Hlater q1); [|lia]. exists (q2 ++ q' ++ q3). rewrite Hqm.
    change (x :: q0 ++ q3) with ((x :: q0) ++ q3). rewrite <-Hx, <-!(assoc_L (++)). simpl. by rewrite <-(assoc_L (++)).
Qed.

(** ** Replies *)

(** Code that sends a reply to [rx], whatever its calls return. *)
Inductive replies (rx : loc) : Handling → Prop :=
| re_now res k : replies rx (CDo (CmdRespond rx res) k)
| re_later cmd k : (∀ rep, replies rx (k rep)) → replies rx (CDo cmd k).

Lemma blanket_replies handle rx a : replies rx (interact_blanket handle rx a).
Proof.
  unfold interact_blanket. induction (handle a) as [a' res|cmd k IH]; simpl; [apply re_now|by apply re_later].
Qed.

Lemma replies_sent rx code : replies rx code → ∀ n rt source,
  live n rt → rt_phase rt = PhHandle source code →
  ∃ m res, n ≤ m ∧ net_at (S m) = (respond rx res (net_at m)).2.
Proof.
  induction 1 as [res k|cmd k _ IH]; intros n rt source Hl Hp;
    destruct (handle_step tr Hrun i N Hfair Hpairs n rt source _ k Hl Hp)
      as (m & o & rep & c & w' & Hm & [_ G2 _ _ _] & He & Heq).
  - exists m, res. split; [done|]. rewrite Heq. simpl in *. unfold on_net in He.
    destruct (respond rx res (net_at m)). by simplify_eq.
  - destruct (IH rep (S m) _ source G2 eq_refl) as (m' & res & Hle & ?). exists m', res. split; [lia|done].
Qed.
End run.

(** C6: high-priority messages are delivered.  On every fair run, a parcel that waits
    in the high-priority queue of an actor, which spawns only from pairs that are there,
    is received by it, unless the actor ends; whatever is sent in between, and however many parcels wait before it. *)
Theorem instant_delivered tr i N n rt p :
  is_run tr → fair tr → owns_pairs tr i N → N ≤ n →
  w_actors (sys_world (tr n)) !! i = Some rt → p ∈ instant_queue (w_net (sys_world (tr n))) (queue_of rt) →
  ∃ m rt', n ≤ m ∧ w_actors (sys_world (tr m)) !! i = Some rt' ∧
    (rt_phase rt' = PhDone ∨ ∃ o w q rt2 w2,
       instant_queue (w_net (sys_world (tr m))) (queue_of rt') = p :: q ∧
       receive_parcel o p rt' w = (rt2, w2) ∧ sys_world (tr (S m)) = put rt2 w2).
Proof.
  intros Hrun Hfair Hpairs Hn Hrt Hp.
  destruct (live_or_ends tr i N n rt Hn Hrt) as [(m & rt' & ? & ? & ?)|Hl]; [by exists m, rt'; eauto|].
  destruct (drains_elem tr Hrun i N Hfair Hpairs n rt p Hl Hp)
    as [(m & rt' & ? & ? & ?)|(m & rt' & Hm & Hl' & _ & o & w & q & rt2 & w2 & Hq & Hr & Heq & _)]; exists m, rt'.
  - eauto.
  - split; [done|]. split; [by destruct Hl' as (_ & ? & _)|]. right. eauto 10.
Qed.

(** C8: normal messages are delivered.  On every fair run on which, from some moment on,
    nothing waits with high priority for an actor, which spawns only from pairs that are
    there, and on which the timer does not fail, every message of its normal queue is
    handled in the end, unless the actor ends: the delayed messages that go first run
    out. *)
Theorem normal_delivered tr i N n rt e :
  is_run tr → fair tr → owns_pairs tr i N → quiet tr i N → timers_work → N ≤ n →
  w_actors (sys_world (tr n)) !! i = Some rt →
  e ∈ normal_queue (w_net (sys_world (tr n))) (addr_msg_tx (self rt)) →
  ∃ m, n ≤ m ∧ ((∃ rt', w_actors (sys_world (tr m)) !! i = Some rt' ∧ rt_phase rt' = PhDone) ∨
    ∃ rt', handles tr i e m rt').
Proof.
  intros Hrun Hfair Hpairs Hquiet Htimers Hn Hrt (q1 & q2 & Hq)%list_elem_of_split.
  destruct (live_or_ends tr i N n rt Hn Hrt) as [(m & rt' & ? & ? & ?)|Hl]; [by exists m; eauto|].
  destruct (normal_drains tr i N Hrun Hfair Hpairs Hquiet Htimers e _ q1 q2 n rt (Nat.lt_succ_diag_r _) Hl Hq)
    as [(m & rt' & ? & ? & ?)|(m & rt' & Hm & _ & _ & Hh)]; exists m; eauto.
Qed.

(** C5: a request is answered.  Let, on a fair run, from some moment on: an actor never
    have anything in its high-priority queue ([quiet]: otherwise the select, which is
    biased, may never come to the normal queue), and spawn actors only from pairs that
    are there ([owns_pairs]); and let the timer not fail ([timers_work]).  Then a request
    that waits in its normal queue after that moment, and that it handles with an
    InteractionHandler, gets a reply, unless the actor ends; and if its responder was not
    used or dropped before, the one who made the request receives exactly this reply. *)
Theorem interaction_answered tr i N n rt request rx handle :
  is_run tr → fair tr → owns_pairs tr i N → quiet tr i N → timers_work → N ≤ n →
  w_actors (sys_world (tr n)) !! i = Some rt → interaction request = ByInteractionHandler handle →
  Envelope_new (MsgInteract request rx) ∈ normal_queue (w_net (sys_world (tr n))) (addr_msg_tx (self rt)) →
  ∃ m, n ≤ m ∧ ((∃ rt', w_actors (sys_world (tr m)) !! i = Some rt' ∧ rt_phase rt' = PhDone) ∨
    ∃ res, w_net (sys_world (tr (S m))) = (respond rx res (w_net (sys_world (tr m)))).2 ∧
      ∀ o, net_replies (w_net (sys_world (tr m))) !! rx = Some o →
        ov_tx_alive (oneshot_view o) = true → ov_rx_alive (oneshot_view o) = true →
        recv_poll rx (w_net (sys_world (tr (S m)))) = Ready res).
Proof.
  intros Hrun Hfair Hpairs Hquiet Htimers Hn Hrt Hint (q1 & q2 & Hq)%list_elem_of_split.
  destruct (live_or_ends tr i N n rt Hn Hrt) as [(m & rt' & ? & ? & ?)|Hl]; [by exists m; eauto|].
  destruct (normal_drains tr i N Hrun Hfair Hpairs Hquiet Htimers _ _ q1 q2 n rt (Nat.lt_succ_diag_r _) Hl Hq)
    as [(m & rt' & ? & ? & ?)|(m & rt' & Hm & HN & _ & q & w & Hrt' & Hp & _ & _ & Heq)]; [by exists m; eauto|].
  set (rt2 := set_phase (PhHandle SrcNormal (interact_blanket handle rx (rt_actor rt'))) rt').
  assert (w_actors (sys_world (tr (S m))) !! i = Some rt2) as Hi'.
  { rewrite Heq. unfold begin_handle. simpl. unfold handle_interact. rewrite Hint. simpl.
    rewrite (ok_id _ _ _ _ (run_ok tr Hrun m i rt' Hrt')). apply lookup_insert_eq. }
  destruct (replies_sent tr i N Hrun Hfair Hpairs rx _ (blanket_replies handle rx (rt_actor rt')) (S m) rt2 SrcNormal)
    as (k & res & Hk & Hres); [by split; [lia|]|done|].
  exists k. split; [lia|]. right. exists res. split; [done|]. intros o Ho Ht Hr. rewrite Hres.
  destruct (respond_open rx res (w_net (sys_world (tr k))) o Ho Ht Hr) as (o' & -> & Hv).
  unfold recv_poll. simpl. rewrite lookup_insert_eq. simpl. by rewrite oneshot_recv_view, Hv.
Qed.
End delivery.

#[local] Existing Instance ref_crates.
#[local] Existing Instance sample_app.
#[local] Existing Instance sample_impl.

(** The root of the sample system gets an instant message and a request, and runs. *)
Definition ask_root (request : N) (s : Sys) : Sys :=
  mkSys (with_net (recv_start root_address request (w_net (sys_world s))).2 (sys_world s)) (sys_pairs s).
Definition delivery_start : Sys := ask_root 3%N (send_root (MsgInstant (4 : N)%N) (steps 1 2 sys_root)).
Definition delivery_run (n : nat) : Sys := steps 1 n delivery_start.

(** The location of the reply. *)
Definition reply_loc : positive := net_next (w_net (sys_world (send_root (MsgInstant (4 : N)%N) (steps 1 2 sys_root)))).

Lemma delivery_rests n : delivery_run (n + 6) = delivery_run 6.
Proof.
  induction n as [|n IH]; [done|].
  change (delivery_run (S n + 6)) with (advance sample_orders 1 (delivery_run (n + 6))). rewrite IH. vm_compute. reflexivity.
Qed.

(** What is looked at in every state of the run. *)
Definition delivery_state (s : Sys) : bool :=
  bool_decide (map_Forall (λ (_ : Id) rt, spawning rt = false) (w_actors (sys_world s))).
Definition delivery_quiet (s : Sys) : bool :=
  bool_decide (map_Forall (λ (_ : Id) rt, instant_queue (w_net (sys_world s)) (queue_of rt) = []) (w_actors (sys_world s))).

Lemma delivery_states n : delivery_state (delivery_run n) = true ∧ (1 ≤ n → delivery_quiet (delivery_run n) = true).
Proof.
  assert (forallb (λ n, delivery_state (delivery_run n) && (bool_decide (n = 0) || delivery_quiet (delivery_run n)))
    (seq 0 7) = true) as Hall by (vm_compute; reflexivity).
  assert (∃ k, k ≤ 6 ∧ delivery_run n = delivery_run k ∧ (1 ≤ n → 1 ≤ k)) as (k & Hk & -> & Hone).
  { destruct (decide (n ≤ 6)) as [Hn|Hn]; [exact (ex_intro _ n (conj Hn (conj eq_refl (fun H => H))))|].
    exists 6. split; [lia|]. split; [|lia].
    assert (n = (n - 6) + 6) as E by lia. exact (eq_trans (f_equal delivery_run E) (delivery_rests (n - 6))). }
  rewrite forallb_forall in Hall. destruct (andb_prop _ _ (Hall k ltac:(apply in_seq; lia))) as [Hs Hq].
  split; [exact Hs|]. intros Hn. apply orb_prop in Hq as [Hz%bool_decide_eq_true|Hq]; [specialize (Hone Hn); lia|exact Hq].
Qed.

Lemma ask_root_reachable request s : sys_reachable s → sys_reachable (ask_root request s).
Proof. intros Hs. apply outside_reachable; [exact Hs|apply out_recv]. Qed.

Lemma delivery_is_run : is_run delivery_run.
Proof.
  split.
  - apply (ask_root_reachable 3%N), send_root_reachable, steps_reachable, rtc_once, step_spawn.
  - intros n. apply (steps_cases 1 n delivery_start).
Qed.

(** The root waits, and there is no other actor. *)
Lemma delivery_fair : fair delivery_run.
Proof.
  intros i n. exists (n + 6). split; [lia|]. right. rewrite delivery_rests. intros [s' Hown].
  assert (dom (w_actors (sys_world (delivery_run 6))) = {[1%positive]}) as Hdom by (vm_compute; reflexivity).
  assert (∀ o now, actor_step o now (runtime_of (delivery_run 6) 1) (sys_world (delivery_run 6)) = None) as Hwait
    by (intros o now; vm_compute; reflexivity).
  assert (w_actors (sys_world (delivery_run 6)) !! 1%positive = Some (runtime_of (delivery_run 6) 1)) as Hrt
    by (apply runtime_of_some; vm_compute; reflexivity).
  revert Hown Hdom Hwait Hrt. generalize (delivery_run 6). intros s Hown Hdom Hwait Hrt.
  destruct Hown as [o now rt rt' w w' pairs pairs' Hi Hs _]. cbn [sys_world] in *.
  assert (i ∈ dom (w_actors w)) as Hin by (apply elem_of_dom; by eexists). rewrite Hdom in Hin.
  apply elem_of_singleton in Hin as ->. rewrite Hrt in Hi. injection Hi as <-. by rewrite Hwait in Hs.
Qed.

Lemma delivery_pairs N : owns_pairs delivery_run 1 N.
Proof.
  intros m rt _ Hrt. apply no_spawn_pair. destruct (delivery_states m) as [Hs _].
  apply bool_decide_eq_true in Hs. by apply (Hs 1%positive rt Hrt).
Qed.

Lemma delivery_is_quiet : quiet delivery_run 1 2.
Proof.
  intros m rt Hm Hrt. destruct (delivery_states m) as [_ Hq]. specialize (Hq ltac:(lia)).
  apply bool_decide_eq_true in Hq. by apply (Hq 1%positive rt Hrt).
Qed.

Lemma reference_timers : timers_work.
Proof.
  intros now q q' x Hp. apply Compat.DelayQueue_poll_inner in Hp.
  change (Reference.timer_poll now (Compat.queue q) = (Ready (Some (Err x)), Compat.queue q')) in Hp. revert Hp.
  destruct (Compat.queue q) as [[|[t a] l] H]; simpl; [done|]. by destruct (bool_decide (t ≤ now)%N).
Qed.

Lemma instant_delivered_witness : ∃ m rt', 0 ≤ m ∧
  w_actors (sys_world (delivery_run m)) !! 1%positive = Some rt' ∧
  (rt_phase rt' = PhDone ∨ ∃ o w q rt2 w2,
     instant_queue (w_net (sys_world (delivery_run m))) (queue_of rt') =
       Parcel_new OpForward (MsgInstant (4 : N)%N) :: q ∧
     receive_parcel o (Parcel_new OpForward (MsgInstant (4 : N)%N)) rt' w = (rt2, w2) ∧
     sys_world (delivery_run (S m)) = put rt2 w2).
Proof.
  apply (instant_delivered delivery_run 1 0 0 (runtime_of (delivery_run 0) 1) _
    delivery_is_run delivery_fair (delivery_pairs 0) (le_n 0)).
  - apply runtime_of_some. vm_compute. reflexivity.
  - assert (instant_queue (w_net (sys_world (delivery_run 0))) (queue_of (runtime_of (delivery_run 0) 1)) =
      [Parcel_new OpForward (MsgInstant (4 : N)%N)]) as E by (vm_compute; reflexivity).
    rewrite E. apply list_elem_of_singleton. reflexivity.
Defined.

(** The request, in the normal queue of the root. *)
Lemma request_waits : Envelope_new (MsgInteract (3 : N)%N reply_loc) ∈
  normal_queue (w_net (sys_world (delivery_run 2))) (addr_msg_tx (self (runtime_of (delivery_run 2) 1))).
Proof.
  assert (normal_queue (w_net (sys_world (delivery_run 2))) (addr_msg_tx (self (runtime_of (delivery_run 2) 1))) =
    [Envelope_new (MsgInteract (3 : N)%N reply_loc)]) as E by (vm_compute; reflexivity).
  rewrite E. apply list_elem_of_singleton. reflexivity.
Qed.

Lemma normal_delivered_witness : ∃ m, 2 ≤ m ∧
  ((∃ rt', w_actors (sys_world (delivery_run m)) !! 1%positive = Some rt' ∧ rt_phase rt' = PhDone) ∨
   ∃ rt', handles delivery_run 1 (Envelope_new (MsgInteract (3 : N)%N reply_loc)) m rt').
Proof.
  apply (normal_delivered delivery_run 1 2 2 (runtime_of (delivery_run 2) 1) _
    delivery_is_run delivery_fair (delivery_pairs 2) delivery_is_quiet reference_timers (le_n 2)).
  - apply runtime_of_some. vm_compute. reflexivity.
  - exact request_waits.
Defined.

Lemma interaction_answered_witness : ∃ m, 2 ≤ m ∧
  ((∃ rt', w_actors (sys_world (delivery_run m)) !! 1%positive = Some rt' ∧ rt_phase rt' = PhDone) ∨
   ∃ res, w_net (sys_world (delivery_run (S m))) = (respond reply_loc res (w_net (sys_world (delivery_run m)))).2 ∧
     ∀ o, net_replies (w_net (sys_world (delivery_run m))) !! reply_loc = Some o →
       ov_tx_alive (oneshot_view o) = true → ov_rx_alive (oneshot_view o) = true →
       recv_poll reply_loc (w_net (sys_world (delivery_run (S m)))) = Ready res).
Proof.
  apply (interaction_answered delivery_run 1 2 2 (runtime_of (delivery_run 2) 1) (3 : N)%N reply_loc
    (λ a, CRet a (Ok (3 + a : N)%N))
    delivery_is_run delivery_fair (delivery_pairs 2) delivery_is_quiet reference_timers (le_n 2)).
  - apply runtime_of_some. vm_compute. reflexivity.
  - reflexivity.
  - exact request_waits.
Defined.
