(* ===== verification/Asked.v ===== *)
(** * What becomes of an interruption

    An actor that was interrupted stays so until it is over ([asked]): the request
    waits in its queue, or its handler runs, or it terminates, or it was stopped.
    That holds when the handlers of interruptions do their part ([cooperative]):
    each shuts its actor down, or stops it. *)
From S2P Require Import Prelude Extern Ids Types Lifecycle Linkage LiteRuntime Handlers ActorRuntime.
From S2P Require Import Tasks NetFrame Invariant Growth Supervision Liveness.

Section asked.
Context `{!Crates, !App, !ActorImpl}.
Implicit Types (n : Net) (w : World) (rt : ActorRuntime).

(** ** Actors that were asked to end *)

(** Code that shuts its actor down, or stops it, whatever its calls return. *)
Inductive obeys : Handling → Prop :=
| ob_shutdown k : obeys (CDo CmdShutdown k)
| ob_stop k : obeys (CDo CmdStop k)
| ob_later cmd k : (∀ o c w, obeys (k (exec o cmd c w).1.1)) → obeys (CDo cmd k).

(** The handlers of an interruption obey it. *)
Definition cooperative : Prop := ∀ a, obeys (interrupted_by a).

Definition interruption : Parcel := Parcel_new OpForward MsgInterrupt.

Inductive asked n rt : Prop :=
| asked_queued : interruption ∈ instant_queue n (queue_of rt) → asked n rt
| asked_handled source code : rt_phase rt = PhHandle source code → obeys code → asked n rt
| asked_terminating : lt_terminating (tracker_of rt) = true → asked n rt
| asked_stopped : alive rt = false → asked n rt
| asked_over : rt_phase rt = PhFinish ∨ rt_phase rt = PhDone → asked n rt.

Lemma asked_grows n n' rt :
  (queue_of rt < net_next n)%positive → grows (queue_of rt) n n' → asked n rt → asked n' rt.
Proof.
  intros Hb Hg [Hq|source code Hp Ho|Ht|Ha|Hp]; [|by econstructor..].
  apply asked_queued. destruct (gr_queue _ _ _ Hg Hb) as [q ->]. set_solver.
Qed.

(** Nothing but its end makes an actor forget that it was asked. *)
Lemma asked_exec o cmd k source c w rt rt' :
  rt_phase rt = PhHandle source (CDo cmd k) → obeys (CDo cmd k) →
  (∀ rep w', exec o cmd (rt_context rt) w = (rep, c, w') →
     rt' = after_call rt source (k rep) c → asked (w_net w') rt').
Proof.
  intros Hp Ho rep w' He ->. inversion Ho as [? Hk|? Hk|? ? Hk]; subst.
  - apply asked_terminating. simpl in He. unfold Context_shutdown, Tracker.start_termination in He.
    pose proof (Tracker.try_terminate_next_terminating (ord_groups o) (ord_ids o)
      (ctx_tracker (rt_context rt)) (w_net w)) as Ht.
    destruct (Tracker.try_terminate_next _ _ _ _) as [t n]. cbn [fst ctx_tracker with_tracker] in *.
    destruct (Tracker.is_finished t); by simplify_eq.
  - apply asked_stopped. simpl in He. by simplify_eq.
  - eapply asked_handled; [done|]. specialize (Hk o (rt_context rt) w). by rewrite He in Hk.
Qed.

Lemma asked_received o rt w rt' w' :
  cooperative → receive_parcel o interruption rt w = (rt', w') → asked (w_net w') rt'.
Proof.
  intros Hc Hr. unfold receive_parcel, interruption in Hr. simpl in Hr. injection Hr as <- <-.
  eapply asked_handled; [done|]. apply Hc.
Qed.

Lemma asked_step i o now w rt rt' w' pairs :
  cooperative → sys_inv GNone w pairs → w_actors w !! i = Some rt →
  actor_step o now rt w = Some (rt', w') → asked (w_net w) rt → asked (w_net w') rt'.
Proof.
  intros Hc Hinv Hi Hs Hk. pose proof (inv_actor _ _ _ Hinv i rt Hi) as Hok.
  pose proof (actor_step_follows _ _ _ _ _ _ Hs) as [_ _ F3 _ F4 F5].
  pose proof (ok_bound _ _ _ _ Hok) as Hb.
  assert (∀ n', grows (queue_of rt) (w_net w) n' → interruption ∈ instant_queue (w_net w) (queue_of rt) →
    asked n' rt') as Hgrow.
  { intros n' Hg Hq. apply asked_queued. unfold queue_of. rewrite F3. fold (queue_of rt).
    destruct (gr_queue _ _ _ Hg Hb) as [q ->]. set_solver. }
  destruct Hk as [Hq|source code Hp Ho|Ht|Ha|[Hp|Hp]].
  - assert (rt_phase rt = PhSelect ∧ alive rt = true ∨ rt_phase rt = PhFinish ∨
      grows (queue_of rt) (w_net w) (w_net w') ∨ alive rt = false) as [[Hp Ha]|[Hp|[Hg|Ha]]].
    { unfold actor_step in Hs. destruct (rt_phase rt) as [|source [a r|cmd k]| | | |] eqn:Hp; try done;
        try (by simplify_eq; auto); try (simplify_eq; right; right; left; reflexivity).
      - right; right; left. destruct (timing now cmd) as [|t|]; [|by simplify_eq|done].
        pose proof (rel_exec (R:=grows (queue_of rt)) o cmd (rt_context rt) w) as Hg.
        destruct (exec o cmd (rt_context rt) w) as [[rep c] w1]. by simplify_eq.
      - unfold alive. destruct (ctx_alive (rt_context rt)); auto. }
    + destruct (instant_queue (w_net w) (queue_of rt)) as [|p q] eqn:Heq; [by apply not_elem_of_nil in Hq|].
      destruct (select_receives rt w p q (ok_joint _ _ _ _ Hok) Heq Hp Ha) as (ch & Hv & Hr).
      rewrite Hr in Hs. injection Hs as Hs.
      apply elem_of_cons in Hq as [<-|Hq]; [by eapply asked_received|].
      apply receive_records in Hs as (_ & Hself & Hg). apply asked_queued.
      unfold queue_of. rewrite Hself. fold (queue_of rt).
      destruct (gr_queue _ _ _ (Hg (queue_of rt)) Hb) as [k ->]. unfold instant_queue.
      cbn [with_net w_net set_hp net_hp]. rewrite lookup_insert_eq, Hv. set_solver.
    + unfold actor_step in Hs. rewrite Hp in Hs. simplify_eq. apply asked_over. by right.
    + by apply Hgrow.
    + apply asked_stopped. destruct (alive rt') eqn:Ha'; [|done]. by rewrite F5 in Ha.
  - unfold actor_step in Hs. rewrite Hp in Hs. destruct code as [a r|cmd k]; [by inversion Ho|].
    destruct (timing now cmd) as [|t|] eqn:Htm; [| |done].
    2: { apply timing_begins in Htm as [d ->]. injection Hs as <- <-. eapply asked_handled; [done|].
         inversion Ho as [| |? ? Hk]; subst. by apply ob_later. }
    destruct (exec o cmd (rt_context rt) w) as [[rep c] w1] eqn:He. injection Hs as <- <-.
    by eapply asked_exec.
  - apply asked_terminating. auto.
  - apply asked_stopped. destruct (alive rt') eqn:Ha'; [|done]. by rewrite F5 in Ha.
  - unfold actor_step in Hs. rewrite Hp in Hs. simplify_eq. apply asked_over. by right.
  - unfold actor_step in Hs. by rewrite Hp in Hs.
Qed.

Lemma asked_kept s s' i rt :
  cooperative → sys_reachable s → sys_step s s' → w_actors (sys_world s) !! i = Some rt →
  asked (w_net (sys_world s)) rt →
  ∃ rt', w_actors (sys_world s') !! i = Some rt' ∧ asked (w_net (sys_world s')) rt'.
Proof.
  intros Hc Hr Hstep Hi Ha. pose proof (inv_reachable s Hr) as Hinv.
  pose proof (inv_actor _ _ _ Hinv i rt Hi) as Hok.
  destruct (step_frame i s s' rt Hr Hi Hstep) as [Hown|[Hk _ Hg]].
  - destruct Hown as [o now r rt' w w' pairs pairs' Hj Hs Hm]. cbn [sys_world sys_pairs] in *.
    assert (r = rt) as -> by congruence. exists rt'. split; [|by eapply (asked_step i o now w rt rt' w' pairs)].
    simpl. rewrite (actor_step_id _ _ _ _ _ _ Hs), (ok_id _ _ _ _ Hok). apply lookup_insert_eq.
  - exists rt. split; [done|]. eapply asked_grows; [|apply (fd_instant _ _ _ Hg)|done]. apply (ok_bound _ _ _ _ Hok).
Qed.
End asked.
