(* ===== verification/Informed.v ===== *)
(** * The children of a terminating group were asked to end

    The invariant [informed_inv] of the reachable systems, when the handlers of
    interruptions obey ([Asked.cooperative]): every child of a group that
    terminates was asked, if it is an actor, or sees its stop signal, if it is a
    task.  It rests on the notifier a supervisor keeps of a child being the right
    one, and on the stop watches of the tasks being apart. *)
From S2P Require Import Prelude Extern Ids Types Lifecycle Linkage LiteRuntime Handlers ActorRuntime.
From S2P Require Import Tasks NetFrame Invariant Growth Supervision Liveness Evolution Asked.

Section informed.
Context `{!Crates, !App, !ActorImpl}.
Implicit Types (n : Net) (w : World) (rt : ActorRuntime) (lr : LiteRuntime).
Implicit Types (t : LifetimeTracker Group Notifier) (r : TRecord Group Notifier).

(** ** A notifier that was used *)

(** What it points to exists. *)
Definition target_ok (nt : Notifier) n : Prop :=
  match nt with
  | NIgnore => True
  | NOnce a _ => (addr_hp_msg_tx a < net_next n)%positive
  | NStop a => (stop_tx (task_stop_sender a) < net_next n)%positive ∧
      is_Some (net_status n !! stop_tx (task_stop_sender a))
  end.

Lemma target_ok_persists nt n n' : persists n n' → target_ok nt n → target_ok nt n'.
Proof. intros [Hn Hs]. destruct nt; simpl; [done|lia|]. intros [Hl Hx]. split; [lia|auto]. Qed.

(** An interruption went through it some time before [n']. *)
Definition notified (nt : Notifier) n' : Prop :=
  ∃ n0, target_ok nt n0 ∧ ∀ R, NetRel R → R (notify_with MsgInterrupt nt n0).2 n'.

Lemma notified_now nt n n' :
  target_ok nt n → (∀ R, NetRel R → R (notify_with MsgInterrupt nt n).2 n') → notified nt n'.
Proof. intros Hb HR. by exists n. Qed.

Lemma notified_open a n' :
  notified (NOnce a OpForward) n' → instant_open n' (addr_hp_msg_tx a) = true →
  interruption ∈ instant_queue n' (addr_hp_msg_tx a).
Proof.
  intros (n0 & Hb & HR) Ho. cbn [target_ok] in Hb.
  set (n1 := (notify_with MsgInterrupt (NOnce a OpForward) n0).2) in *.
  assert (persists n0 n1) as [Hle _] by apply (rel_notify (R:=persists)).
  assert (opened (addr_hp_msg_tx a) n0 n1) as [_ Ho1] by apply (rel_notify (R:=opened (addr_hp_msg_tx a))).
  destruct (HR (opened (addr_hp_msg_tx a)) _) as [_ Ho2].
  destruct (high_priority_send_open a interruption n0) as (_ & _ & Hq & _).
  { apply Ho1; [done|]. apply Ho2; [lia|done]. }
  destruct (HR (grows (addr_hp_msg_tx a)) _) as [_ Hg]. destruct (Hg ltac:(lia)) as [q ->].
  unfold n1. cbn [notify_with]. unfold unpack_parcel. fold interruption. rewrite Hq. set_solver.
Qed.

(** The stop signal of a task, once it is given. *)
Definition stopped n lr : Prop := StopReceiver_into_future (lr_stop_receiver lr) n = Ready tt.

(** The watch of a task that runs. *)
Record task_watch n lr (x : Wt Status) : Prop := {
  tw_watch : net_status n !! stop_loc lr = Some x;
  tw_receivers : wv_receivers (watch_view x) ≠ 0;
  tw_seen : rx_seen (stop_status (lr_stop_receiver lr)) = 0;
  tw_value : wv_version (watch_view x) ≠ 0 → wv_value (watch_view x) = Stop
}.

Lemma task_watch_stopped n lr x :
  task_watch n lr x →
  stopped n lr ↔ wv_version (watch_view x) ≠ 0 ∨ wv_tx_alive (watch_view x) = false.
Proof.
  intros [T1 T2 T3 T4]. unfold stopped.
  destruct (stop_watch_future (lr_stop_receiver lr) (mkStopSender (stop_loc lr)) n (watch_view x)) as [_ ->];
    [done|unfold stop_watch; simpl; by rewrite T1|]. rewrite T3. naive_solver.
Qed.

Lemma task_watch_bound n lr x : net_wf n → task_watch n lr x → (stop_loc lr < net_next n)%positive.
Proof.
  intros Hwf [T1 _ _ _]. destruct (decide (stop_loc lr < net_next n)%positive) as [|Hn]; [done|].
  destruct (Hwf (stop_loc lr)) as (_ & _ & Hnone & _); [lia|]. congruence.
Qed.

Lemma task_watch_moves n n' lr x :
  net_wf n → watched (stop_loc lr) n n' → task_watch n lr x →
  ∃ x', task_watch n' lr x' ∧ (stopped n lr → stopped n' lr).
Proof.
  intros Hwf Hw Ht. pose proof Ht as [T1 T2 T3 T4].
  destruct (wd_watch _ _ _ Hw (task_watch_bound n lr x Hwf Ht) x T1) as (x' & Hx & [A1 A2 A3]).
  assert (task_watch n' lr x') as Ht'.
  { split; [done|by rewrite A1|done|]. intros Hv. destruct A2 as [[E1 E2]|[_ ?]]; [|done].
    rewrite E2. apply T4. by rewrite <-E1. }
  exists x'. split; [done|]. rewrite (task_watch_stopped _ _ _ Ht), (task_watch_stopped _ _ _ Ht').
  intros [Hv|?]; [left|auto]. destruct A2 as [[E1 _]|[? _]]; [by rewrite E1|lia].
Qed.

Lemma notified_stopped a n' lr x :
  notified (NStop a) n' → stop_tx (task_stop_sender a) = stop_loc lr → task_watch n' lr x → stopped n' lr.
Proof.
  intros (n0 & [Hb [y Hy]] & HR) Hl Ht. apply (task_watch_stopped _ _ _ Ht). left.
  destruct Ht as [T1 T2 T3 T4]. rewrite <-Hl in T1. set (l := stop_tx (task_stop_sender a)) in *.
  set (n1 := (notify_with MsgInterrupt (NStop a) n0).2) in *.
  assert (watched l n0 n1) as [Hb1 Hw1] by apply (rel_notify (R:=watched l)).
  destruct (HR (watched l) _) as [_ Hw2]. destruct (Hw1 Hb y Hy) as (y1 & Hy1 & [A1 _ _]).
  destruct (Hw2 (Hb1 Hb) y1 Hy1) as (x' & Hx' & [B1 B2 _]). assert (x' = x) as -> by congruence.
  destruct (StopSender_stop_ok (task_stop_sender a) y n0 Hy) as (y' & Hs & Hv); [by rewrite <-A1, <-B1|].
  assert (y1 = y') as ->.
  { unfold n1 in Hy1. cbn [notify_with] in Hy1. unfold TaskAddress_stop in Hy1. rewrite Hs in Hy1.
    cbn [snd set_status net_status] in Hy1. fold l in Hy1. rewrite lookup_insert_eq in Hy1. by injection Hy1. }
  rewrite Hv in B2. cbn in B2. lia.
Qed.

(** ** The tracker *)

Definition targets_ok t n : Prop := ∀ c r, lt_records t !! c = Some r → target_ok (rec_notifier r) n.

Lemma interrupt_ids_notified records ids n c r :
  c ∈ ids → records !! c = Some r → target_ok (rec_notifier r) n →
  notified (rec_notifier r)
    (Tracker.interrupt_ids (LifecycleNotifier0:=net_notifier) (G:=Group) records ids n).
Proof.
  intros Hc Hr. revert n. induction ids as [|i ids IH]; intros n Hb; [by apply not_elem_of_nil in Hc|].
  cbn [Tracker.interrupt_ids]. apply elem_of_cons in Hc as [<-|Hc].
  - rewrite Hr. apply (notified_now _ n); [done|]. intros R HR. apply rel_interrupts.
  - apply IH; [done|]. eapply target_ok_persists; [|exact Hb].
    destruct (records !! i); [apply rel_notify|done].
Qed.

(** A child of a group that terminates: the group terminated before, or the child
    was interrupted. *)
Definition told_of t t' n' g c : Prop :=
  (∃ st, lt_stages t !! g = Some st ∧ st_terminating st = true ∧ c ∈ st_ids st) ∨
  (∃ r, lt_records t' !! c = Some r ∧ notified (rec_notifier r) n').

Lemma try_terminate_told og oi t n t' n' g st c :
  Tracker.wf t → targets_ok t n → Tracker.try_terminate_next og oi t n = (t', n') →
  lt_stages t' !! g = Some st → st_terminating st = true → c ∈ st_ids st → told_of t t' n' g c.
Proof.
  intros Hwf Hb. rewrite Tracker.try_terminate_next_closed. intros [= <- <-]. cbn [lt_stages lt_records].
  rewrite Tracker.lookup_mark_groups. intros (st0 & Hg & ->)%fmap_Some Ht Hc.
  destruct (st_terminating st0) eqn:Ht0.
  - left. exists st0. case_bool_decide; by auto.
  - case_bool_decide as Hin; [|congruence]. right.
    destruct (Tracker.wf_stages _ Hwf g st0 c Hg Hc) as (r & Hr & _). exists r. split; [done|].
    apply (interrupt_ids_notified _ _ _ c); [|done|by eapply Hb]. apply Tracker.elem_of_interrupted.
    exists g, st0. split; [done|]. split; [done|]. by split.
Qed.

Lemma forget_stage i t g st c :
  lt_stages (Tracker.forget i t) !! g = Some st → st_terminating st = true → c ∈ st_ids st →
  ∃ st0, lt_stages t !! g = Some st0 ∧ st_terminating st0 = true ∧ c ∈ st_ids st0.
Proof.
  unfold Tracker.forget. destruct (lt_records t !! i) as [r|]; [|by eauto].
  cbn [Tracker.with_records lt_stages]. destruct (lt_stages t !! rec_group r) as [st0|] eqn:E; [|by eauto].
  cbn [Tracker.with_stages lt_stages]. intros [[<- <-]|[_ ?]]%lookup_insert_Some; [|by eauto].
  cbn. intros Ht Hc. exists st0. split; [done|]. split; [done|]. clear -Hc. set_solver.
Qed.

Lemma insert_told i r t n t' n' g st c :
  target_ok (rec_notifier r) n → Tracker.insert_record i r t n = (t', n') →
  lt_stages t' !! g = Some st → st_terminating st = true → c ∈ st_ids st → told_of t t' n' g c.
Proof.
  intros Hb. unfold Tracker.insert_record. intros [= <- <-]. cbn.
  intros [[<- <-]|[_ ?]]%lookup_insert_Some; [|by left; eauto]. cbn.
  destruct (lt_stages t !! rec_group r) as [st0|] eqn:E; cbn; [|done].
  intros Ht [->%elem_of_singleton|Hc]%elem_of_union; [right|left; eauto].
  exists r. split; [apply lookup_insert_eq|]. rewrite Ht. by apply (notified_now _ n).
Qed.

Lemma tracks_told w' a n t t' g st c :
  Tracker.wf t → targets_ok t n → tracks w' a n t t' →
  lt_stages t' !! g = Some st → st_terminating st = true → c ∈ st_ids st → told_of t t' (w_net w') g c.
Proof.
  intros Hwf Hb Htr Hg Ht Hc.
  destruct Htr as [_ Hs _|og oi E|og oi i E|p actor group E _ Hp|lr addr group E _ Hl Hp Hx].
  - left. rewrite Hs in Hg. eauto.
  - by eapply try_terminate_told.
  - rewrite Tracker.remove_forget in E. destruct (lt_terminating (Tracker.forget i t)).
    + destruct (try_terminate_told og oi (Tracker.forget i t) n t' (w_net w') g st c) as [(st0 & ?&?&?)|?];
        try done; [by apply Tracker.wf_forget| |left; by eapply forget_stage|by right].
      intros d r. rewrite Tracker.forget_records. intros [_ ?]%lookup_delete_Some. by eapply Hb.
    + injection E as <- _. left. by eapply forget_stage.
  - eapply insert_told; [|exact E|done..]. done.
  - eapply insert_told; [|exact E|done..]. cbn. by rewrite Hl.
Qed.

Definition record_ok w c r : Prop :=
  target_ok (rec_notifier r) (w_net w) ∧
  (∀ crt, w_actors w !! c = Some crt → rec_notifier r = NOnce (self crt) OpForward) ∧
  (∀ lr, w_tasks w !! c = Some lr →
    ∃ a, rec_notifier r = NStop a ∧ stop_tx (task_stop_sender a) = stop_loc lr).

(** What is tracked was tracked before, or is the child that was just spawned. *)
Lemma tracks_records w' a n t t' c r pairs :
  tracks w' a n t t' → sys_inv GNone w' pairs → lt_records t' !! c = Some r →
  lt_records t !! c = Some r ∨ record_ok w' c r.
Proof.
  intros Htr Hinv Hr. pose proof (tracks_persists _ _ _ _ _ Htr) as Hn. destruct Htr as [_ _ Hs|og oi E|og oi i E|p actor group E Ha Hp|lr addr group E Hlr Hl Hp Hx].
  - left. by rewrite <-Hs.
  - left. pose proof (Tracker.try_terminate_next_records og oi t n) as Hs. rewrite E in Hs. by rewrite <-Hs.
  - left. pose proof (remove_records og oi i t n) as Hs. rewrite E in Hs. cbn [fst] in Hs. rewrite Hs in Hr.
    by apply lookup_delete_Some in Hr as [_ ?].
  - unfold Tracker.insert_record in E. injection E as <- _. cbn in Hr.
    apply lookup_insert_Some in Hr as [[<- <-]|[_ ?]]; [right|by left]. split; [|split].
    + eapply target_ok_persists; [exact Hn|done].
    + intros crt Hc. rewrite Ha in Hc. injection Hc as <-. cbn. by rewrite Address_clone_id.
    + intros lr Hlr. pose proof (tk_actor _ _ _ (inv_task _ _ _ Hinv _ lr Hlr)). congruence.
  - unfold Tracker.insert_record in E. injection E as <- _. cbn in Hr.
    apply lookup_insert_Some in Hr as [[<- <-]|[_ ?]]; [right|by left]. split; [|split].
    + eapply target_ok_persists; [exact Hn|]. cbn. by rewrite Hl.
    + intros crt Hc. pose proof (tk_actor _ _ _ (inv_task _ _ _ Hinv _ lr Hlr)). congruence.
    + intros lr' Hlr'. assert (lr' = lr) as -> by congruence. by exists addr.
Qed.

(** ** The invariant *)

Definition informed w c : Prop :=
  (∀ crt, w_actors w !! c = Some crt → asked (w_net w) crt) ∧
  (∀ lr, w_tasks w !! c = Some lr → stopped (w_net w) lr).

Record informed_inv w : Prop := {
  in_stage i rt g st c : w_actors w !! i = Some rt → rt_phase rt ≠ PhDone →
    lt_stages (tracker_of rt) !! g = Some st → st_terminating st = true → c ∈ st_ids st → informed w c;
  in_record i rt c r : w_actors w !! i = Some rt → rt_phase rt ≠ PhDone →
    lt_records (tracker_of rt) !! c = Some r → record_ok w c r;
  in_watch c lr : w_tasks w !! c = Some lr → ∃ x, task_watch (w_net w) lr x;
  in_distinct c d lr lr' : w_tasks w !! c = Some lr → w_tasks w !! d = Some lr' →
    stop_loc lr = stop_loc lr' → c = d
}.

Lemma informed_init : informed_inv (sys_world sys_init).
Proof. split; simpl; intros *; by rewrite lookup_empty. Qed.

(** A child that was notified was asked. *)
Lemma notified_informed w pairs c r :
  sys_inv GNone w pairs → record_ok w c r → notified (rec_notifier r) (w_net w) →
  (∀ lr, w_tasks w !! c = Some lr → ∃ x, task_watch (w_net w) lr x) → informed w c.
Proof.
  intros Hinv (_ & Ha & Ht) Hn Hw. split.
  - intros crt Hc. rewrite (Ha crt Hc) in Hn. pose proof (inv_actor _ _ _ Hinv c crt Hc) as Hok.
    assert (rt_phase crt = PhDone ∨ rt_phase crt ≠ PhDone) as [Hd|Hd] by (destruct (rt_phase crt); auto).
    + apply asked_over. by right.
    + apply asked_queued. apply (notified_open _ _ Hn), (ok_open _ _ _ _ Hok Hd).
  - intros lr Hc. destruct (Ht lr Hc) as (a & Hra & Hl). rewrite Hra in Hn.
    destruct (Hw lr Hc) as [x Hx]. by eapply notified_stopped.
Qed.

Section step.
Context (s s' : Sys).
Hypothesis Hcoop : cooperative.
Hypothesis Hr : sys_reachable s.
Hypothesis Hstep : sys_step s s'.
Hypothesis Hin : informed_inv (sys_world s).

Abbreviation w := (sys_world s).
Abbreviation w' := (sys_world s').

Lemma step_inv : sys_inv GNone w (sys_pairs s).
Proof. by apply inv_reachable. Qed.

Lemma step_inv' : sys_inv GNone w' (sys_pairs s').
Proof. apply inv_reachable. by eapply rtc_r. Qed.

(** Who is tracked is known already. *)
Lemma tracked_known i rt c :
  w_actors w !! i = Some rt → rt_phase rt ≠ PhDone → tracked rt c →
  (∀ crt, w_actors w' !! c = Some crt → is_Some (w_actors w !! c)) ∧
  (∀ lr, w_tasks w' !! c = Some lr → w_tasks w !! c = Some lr).
Proof.
  intros Hi Hd Htr. pose proof step_inv as Hinv.
  destruct (step_evolves s s' Hr Hstep) as [_ E2 E3].
  apply (ok_exact_none w i rt c (inv_actor _ _ _ Hinv i rt Hi) Hd) in Htr as Hcase.
  assert (Ids.live (net_heap (w_net w)) c) as Hlive.
  { destruct Hcase as [[(crt & Hc & _)|(lr & Hc & _)]|Hc].
    - apply (ok_live _ _ _ _ (inv_actor _ _ _ Hinv c crt Hc)).
    - apply (tk_live _ _ _ (inv_task _ _ _ Hinv c lr Hc)).
    - apply (inv_ended _ _ _ Hinv _ _ Hc). }
  split.
  - intros crt Hc. destruct (E2 c crt Hc) as [?|(a & b & [[Hp|Hf] _] & _)]; [done| |done].
    destruct Hcase as [[(r & Hc' & _)|(lr & Hc' & _)]|Hc']; [by exists r| |].
    + apply list_elem_of_fmap in Hp as (p & -> & Hp).
      pose proof (pr_task _ _ (inv_pair _ _ _ Hinv p Hp)). congruence.
    + by apply (inv_ended _ _ _ Hinv) in Hc' as (_ & _ & _ & ?).
  - intros lr Hc. destruct (E3 c lr Hc) as [?|[Hid _ _ _]]; [done|]. exfalso. subst c.
    unfold alloc_id in Hlive. pose proof (Ids.unique_fresh (net_heap (w_net w))).
    by destruct (Ids.unique (net_heap (w_net w))).
Qed.

(** The watch of a task that goes on only moves. *)
Lemma task_watched c lr :
  w_tasks w !! c = Some lr → w_tasks w' !! c = Some lr → watched (stop_loc lr) (w_net w) (w_net w').
Proof.
  pose proof (in_distinct _ Hin) as Hdist. clear Hin.
  destruct Hstep as [o now j rtj rtj' w0 w1 pairs pairs' Hj Hs Hm|j lrj res w0 pairs Hj|actor w0 pairs|n' w0 pairs Ho|n' w0 pairs Hg];
    cbn [sys_world] in *; intros Hc Hc'.
  - exact (actor_step_watched _ _ _ _ _ _ _ Hs).
  - simpl in Hc'. apply lookup_delete_Some in Hc' as [Hne _]. apply lite_entrypoint_watched.
    intros Heq. apply Hne. by apply (Hdist j c lrj lr).
  - unfold System_spawn. pose proof (rel_pair (R:=watched (stop_loc lr)) (w_net w0)) as Hp.
    by destruct (AddressPair_new (w_net w0)).
  - by apply rel_outside.
  - by eapply rel_give_up.
Qed.

Lemma step_watch c lr :
  w_tasks w' !! c = Some lr →
  ∃ x, task_watch (w_net w') lr x ∧ (w_tasks w !! c = Some lr → stopped (w_net w) lr → stopped (w_net w') lr).
Proof.
  intros Hc. destruct (step_evolves s s' Hr Hstep) as [_ _ E3].
  destruct (E3 c lr Hc) as [Hold|[Hid Hl Hs (x & Hx & [A1 A2 _])]].
  - destruct (in_watch _ Hin c lr Hold) as [x Hx].
    destruct (task_watch_moves _ _ _ _ (inv_net _ _ _ step_inv) (task_watched c lr Hold Hc) Hx) as (x' & ? & ?).
    exists x'. auto.
  - exists x. split.
    + split; [done|by rewrite A1|done|]. intros Hv. by destruct A2 as [[? _]|[_ ?]].
    + intros Hold. destruct (in_watch _ Hin c lr Hold) as [y Hy].
      pose proof (task_watch_bound _ _ _ (inv_net _ _ _ step_inv) Hy). lia.
Qed.

Lemma informed_kept i rt c :
  w_actors w !! i = Some rt → rt_phase rt ≠ PhDone → tracked rt c → informed w c → informed w' c.
Proof.
  intros Hi Hd Htr [Ha Ht]. destruct (tracked_known i rt c Hi Hd Htr) as [Ka Kt]. split.
  - intros crt Hc. destruct (Ka crt Hc) as [crt0 Hc0].
    destruct (asked_kept s s' c crt0 Hcoop Hr Hstep Hc0 (Ha _ Hc0)) as (crt' & Hc' & ?). by simplify_eq.
  - intros lr Hc. destruct (step_watch c lr Hc) as (x & _ & Hs). auto.
Qed.

Lemma record_kept i rt c r :
  w_actors w !! i = Some rt → rt_phase rt ≠ PhDone → lt_records (tracker_of rt) !! c = Some r →
  record_ok w' c r.
Proof.
  intros Hi Hd Hrec. destruct (in_record _ Hin i rt c r Hi Hd Hrec) as (R1 & R2 & R3).
  destruct (tracked_known i rt c Hi Hd ltac:(by eexists)) as [Ka Kt]. split; [|split].
  - eapply target_ok_persists; [by apply step_persists|done].
  - intros crt Hc. destruct (Ka crt Hc) as [crt0 Hc0].
    destruct (ev_kept _ _ (step_evolves s s' Hr Hstep) c crt0 Hc0) as (crt' & n & Hc' & [_ _ F _ _] & _).
    simplify_eq. by rewrite F, (R2 _ Hc0).
  - auto.
Qed.

(** A running actor was there before, or it is new and has no child. *)
Lemma step_actor i rt' :
  w_actors w' !! i = Some rt' → rt_phase rt' ≠ PhDone →
  tracker_of rt' = Tracker.new ∨
  ∃ rt n, w_actors w !! i = Some rt ∧ rt_phase rt ≠ PhDone ∧ persists (w_net w) n ∧
    tracks w' (self rt) n (tracker_of rt) (tracker_of rt').
Proof.
  intros Hi Hd. destruct (step_evolves s s' Hr Hstep) as [E1 E2 _].
  destruct (E2 i rt' Hi) as [[rt Hold]|(a & b & [_ (p & actor & sup & -> & _)] & _)]; [right|by left].
  destruct (E1 i rt Hold) as (rt1 & n & Hi1 & _ & Hdone & Hn & Ht). assert (rt1 = rt') as -> by congruence.
  exists rt, n. split; [done|]. split; [|done]. intros Hp. rewrite (Hdone Hp) in Hd. done.
Qed.

Lemma step_record i rt' c r :
  w_actors w' !! i = Some rt' → rt_phase rt' ≠ PhDone → lt_records (tracker_of rt') !! c = Some r →
  record_ok w' c r.
Proof.
  intros Hi Hd Hrec. destruct (step_actor i rt' Hi Hd) as [Hnew|(rt & n & Hold & Hd0 & Hn & Ht)].
  { rewrite Hnew in Hrec. simpl in Hrec. by rewrite lookup_empty in Hrec. }
  destruct (tracks_records _ _ _ _ _ c r _ Ht step_inv' Hrec) as [?|?]; [|done]. by eapply record_kept.
Qed.

Lemma step_stage i rt' g st c :
  w_actors w' !! i = Some rt' → rt_phase rt' ≠ PhDone →
  lt_stages (tracker_of rt') !! g = Some st → st_terminating st = true → c ∈ st_ids st → informed w' c.
Proof.
  intros Hi Hd Hg Hst Hc. destruct (step_actor i rt' Hi Hd) as [Hnew|(rt & n & Hold & Hd0 & Hn & Ht)].
  { rewrite Hnew in Hg. simpl in Hg. by rewrite lookup_empty in Hg. }
  pose proof (local_wf _ (ok_local _ _ _ _ (inv_actor _ _ _ step_inv i rt Hold))) as Hwf.
  destruct (tracks_told w' (self rt) n (tracker_of rt) (tracker_of rt') g st c Hwf) as [(st0 & Hg0 & Ht0 & Hc0)|(r & Hrec & Hnot)];
    try done.
  - intros d r Hrec. eapply target_ok_persists; [exact Hn|]. by apply (in_record _ Hin i rt d r Hold Hd0 Hrec).
  - eapply (informed_kept i rt c Hold Hd0); [|by eapply in_stage].
    destruct (Tracker.wf_stages _ Hwf g st0 c Hg0 Hc0) as (r & ? & _). by exists r.
  - eapply notified_informed; [exact step_inv'|by eapply step_record|done|].
    intros lr Hlr. destruct (step_watch c lr Hlr) as (x & ? & _). by exists x.
Qed.

Lemma step_distinct c d lr lr' :
  w_tasks w' !! c = Some lr → w_tasks w' !! d = Some lr' → stop_loc lr = stop_loc lr' → c = d.
Proof.
  intros Hc Hd Heq. destruct (step_evolves s s' Hr Hstep) as [_ _ E3].
  assert (∀ e lre, w_tasks w !! e = Some lre → (stop_loc lre < net_next (w_net w))%positive) as Hb.
  { intros e lre He. destruct (in_watch _ Hin e lre He) as [x Hx].
    by apply (task_watch_bound _ _ _ (inv_net _ _ _ step_inv) Hx). }
  destruct (E3 c lr Hc) as [Hc0|[Hc1 Hl1 _ _]], (E3 d lr' Hd) as [Hd0|[Hd1 Hl2 _ _]].
  - by apply (in_distinct _ Hin c d lr lr').
  - specialize (Hb c lr Hc0). lia.
  - specialize (Hb d lr' Hd0). lia.
  - congruence.
Qed.

Lemma informed_step : informed_inv w'.
Proof.
  split; [apply step_stage|apply step_record| |apply step_distinct].
  intros c lr Hc. destruct (step_watch c lr Hc) as (x & ? & _). by exists x.
Qed.
End step.

(** The children of a terminating group were asked, in every reachable system. *)
Lemma informed_reachable s : cooperative → sys_reachable s → informed_inv (sys_world s).
Proof.
  intros Hc Hr. unfold sys_reachable in Hr.
  apply (rtc_ind_r (R:=sys_step) (λ s, informed_inv (sys_world s)) sys_init); [apply informed_init|..|done].
  intros s1 s2 Hr1 Hs Hi. by apply (informed_step s1 s2).
Qed.

(** ** Children are younger than their supervisor *)

Definition child_of w (i c : Id) : Prop := ∃ rt crt,
  w_actors w !! i = Some rt ∧ w_actors w !! c = Some crt ∧
  rt_done_notifier crt = NOnce (self rt) (OpDone c).

Definition ranked w (rank : Id → nat) : Prop := ∀ i c, child_of w i c → rank i < rank c.

(** Of the actors that are new after a step, who supervises them. *)
Lemma step_child s s' i c :
  sys_reachable s → sys_step s s' → child_of (sys_world s') i c →
  child_of (sys_world s) i c ∨
  w_actors (sys_world s) !! c = None ∧
    ∃ rt, w_actors (sys_world s) !! i = Some rt ∧ spawning rt = true.
Proof.
  intros Hr Hstep (rt' & crt' & Hi & Hc & Hn).
  assert (sys_reachable s') as Hr' by by eapply rtc_r.
  pose proof (inv_reachable s Hr) as Hinv. pose proof (inv_reachable s' Hr') as Hinv'.
  destruct (step_evolves s s' Hr Hstep) as [E1 E2 _].
  assert (∀ j rtj, w_actors (sys_world s) !! j = Some rtj → self rtj = self rt' → j = i) as Hinj.
  { intros j rtj Hj Heq. destruct (E1 j rtj Hj) as (rtj' & n & Hj' & [_ _ F _ _] & _).
    apply (self_inj _ _ _ j i rtj' rt' Hinv' Hj' Hi). by rewrite F. }
  destruct (w_actors (sys_world s) !! c) as [crt|] eqn:Hc0.
  - left. destruct (E1 c crt Hc0) as (crt1 & n & Hc1 & [_ Fn _ _ _] & _). assert (crt1 = crt') as -> by congruence.
    rewrite Fn in Hn. pose proof (ok_notifier _ _ _ _ (inv_actor _ _ _ Hinv c crt Hc0)) as [Hig|(j & prt & Hp & Hj)];
      [congruence|]. assert (self prt = self rt') as Hself by congruence.
    assert (j = i) as -> by by eapply Hinj. exists prt, crt. by rewrite Hp.
  - right. split; [done|]. destruct (E2 c crt' Hc) as [[? ?]|(a & b & [_ (p & actor & sup & -> & -> & _ & Hsup)] & Hb)];
      [congruence|]. cbn in Hn. destruct Hsup as [->|[-> ->]]; [done|].
    destruct (Hb eq_refl) as (j & rtj & Hj & Hself & Hsp). injection Hn as ->.
    assert (j = i) as -> by by eapply Hinj. by exists rtj.
Qed.

Lemma ranked_step s s' rank :
  sys_reachable s → sys_step s s' → ranked (sys_world s) rank → ∃ rank', ranked (sys_world s') rank'.
Proof.
  intros Hr Hstep Hrk. set (sup := S (list_max (rank <$> elements (dom (w_actors (sys_world s)))))).
  exists (λ c, match w_actors (sys_world s) !! c with Some _ => rank c | None => sup end).
  intros i c Hch. destruct (step_child s s' i c Hr Hstep Hch) as [Hold|(Hc & rt & Hi & _)].
  - pose proof (Hrk i c Hold) as Hlt. destruct Hold as (rt & crt & -> & -> & _). done.
  - rewrite Hc, Hi. unfold sup. apply Nat.lt_succ_r.
    apply elem_le_list_max, list_elem_of_fmap. exists i. split; [done|].
    apply elem_of_elements, elem_of_dom. by eexists.
Qed.

Lemma ranked_reachable s : sys_reachable s → ∃ rank, ranked (sys_world s) rank.
Proof.
  intros Hr. unfold sys_reachable in Hr.
  apply (rtc_ind_r (R:=sys_step) (λ s, ∃ rank, ranked (sys_world s) rank) sys_init); [|..|done].
  - exists (λ _, 0). intros i c (rt & crt & Hi & _). simpl in Hi. by rewrite lookup_empty in Hi.
  - intros s1 s2 Hr1 Hs [rank Hrk]. by eapply ranked_step.
Qed.

(** C15: a termination reaches the children.  As long as an actor is not over, each
    child of a group that was asked to terminate either runs as an actor that was
    asked to end (the request waits in its queue, or is being handled, or it
    terminates, or it was stopped), or runs as a task that sees its stop signal, or
    is over and its end waits in the queue of the supervisor; provided that the
    handlers of interruptions obey. *)
Theorem termination_reaches_children s i rt g st c :
  cooperative → sys_reachable s → w_actors (sys_world s) !! i = Some rt → rt_phase rt ≠ PhDone →
  lt_stages (tracker_of rt) !! g = Some st → st_terminating st = true → c ∈ st_ids st →
  (∃ crt, w_actors (sys_world s) !! c = Some crt ∧ rt_done_notifier crt = NOnce (self rt) (OpDone c) ∧
     rt_phase crt ≠ PhDone ∧ asked (w_net (sys_world s)) crt) ∨
  (∃ lr, w_tasks (sys_world s) !! c = Some lr ∧ lr_done_notifier lr = NOnce (self rt) (OpDone c) ∧
     StopReceiver_into_future (lr_stop_receiver lr) (w_net (sys_world s)) = Ready tt) ∨
  c ∈ reports (w_net (sys_world s)) (queue_of rt).
Proof.
  intros Hcoop Hr Hi Hd Hg Hst Hc. pose proof (inv_actor _ _ _ (inv_reachable s Hr) i rt Hi) as Hok.
  destruct (in_stage _ (informed_reachable s Hcoop Hr) i rt g st c Hi Hd Hg Hst Hc) as [Ha Ht].
  destruct (ok_local _ _ _ _ Hok) as [_ L1 _ _ _ _]. destruct (Tracker.wf_stages _ L1 g st c Hg Hc) as (r & Hrec & _).
  assert (tracked rt c) as Htr by by exists r.
  apply (ok_exact_none _ i rt c Hok Hd) in Htr as [[(crt & Hcr & Hn & Hcd)|(lr & Hlr & Hn)]|Hrep]; [left|right; left|by do 2 right].
  - exists crt. split_and!; auto.
  - exists lr. split_and!; auto. by apply Ht.
Qed.
End informed.

#[local] Existing Instance ref_crates.
#[local] Existing Instance sample_app.
#[local] Existing Instance sample_impl.

(** The child of the sample family was asked when its supervisor was. *)
Lemma termination_reaches_children_witness :
  asked (w_net (sys_world sys_asked)) (runtime_of sys_asked 2).
Proof.
  destruct (termination_reaches_children sys_asked 1%positive (runtime_of sys_asked 1) (1 : N)%N
    (mkStage true {[2%positive]}) 2%positive) as [(crt & Hc & _ & _ & Ha)|[(lr & Hl & _)|Hr]].
  - intros a. apply ob_shutdown.
  - apply sys_asked_reachable.
  - apply runtime_of_some. vm_compute. reflexivity.
  - vm_compute. discriminate.
  - vm_compute. reflexivity.
  - reflexivity.
  - set_solver.
  - unfold runtime_of. by rewrite Hc.
  - vm_compute in Hl. discriminate.
  - assert (reports (w_net (sys_world sys_asked)) (queue_of (runtime_of sys_asked 1)) = []) as He
      by (vm_compute; reflexivity). rewrite He in Hr. destruct (not_elem_of_nil _ Hr).
Defined.
