(* ===== verification/Shutdown.v ===== *)
(** * A whole tree ends

    The end of a supervision tree: on every fair run, an actor that was asked to end
    does end, whatever the depth of the tree below it, once the actors of that tree
    spawn nothing any more. *)
From S2P Require Import Prelude Extern Ids Types Lifecycle Linkage LiteRuntime Handlers ActorRuntime.
From S2P Require Import Tasks NetFrame Invariant Growth Supervision Liveness Evolution Runs Asked Informed.

Section shutdown.
Context `{!Crates, !App, !ActorImpl}.
Implicit Types (n m : nat) (rt : ActorRuntime) (s : Sys) (tr : nat → Sys).

(** A task that sees its stop signal ends. *)
Definition tasks_stop tr : Prop := ∀ n c lr,
  w_tasks (sys_world (tr n)) !! c = Some lr → stopped (w_net (sys_world (tr n))) lr →
  ∃ m, n ≤ m ∧ w_tasks (sys_world (tr m)) !! c = None.

(** A set of actors with all their children, which from some time on do not spawn
    any more. *)
Record family tr (D : gset Id) (N : nat) : Prop := {
  fam_actor j : j ∈ D → is_Some (w_actors (sys_world (tr N)) !! j);
  fam_child j c : j ∈ D → child_of (sys_world (tr N)) j c → c ∈ D;
  fam_quiet m j rt : N ≤ m → j ∈ D → w_actors (sys_world (tr m)) !! j = Some rt → spawning rt = false
}.

Section run.
Context (tr : nat → Sys).
Hypothesis Hrun : is_run tr.
Abbreviation at_ n := (sys_world (tr n)).
Abbreviation net_at n := (w_net (sys_world (tr n))).
Abbreviation ends_at n i := (ends tr i n).

Lemma run_asked n m i rt :
  cooperative → n ≤ m → w_actors (at_ n) !! i = Some rt → asked (net_at n) rt →
  ∃ rt', w_actors (at_ m) !! i = Some rt' ∧ asked (net_at m) rt'.
Proof.
  intros Hc Hle Hi Ha. induction Hle as [|m Hle (rt1 & Hi1 & Ha1)]; [by exists rt|].
  destruct (proj2 Hrun m) as [Hs| ->]; [|by exists rt1].
  eapply asked_kept; [done|by apply run_reachable|done..].
Qed.

(** ** What is left to do *)

(** The children an actor has to wait for, and itself. *)
Definition weight rt : nat :=
  match rt_phase rt with PhDone => 0 | _ => S (size (lt_records (tracker_of rt))) end.

Lemma weight_live rt : rt_phase rt ≠ PhDone → weight rt = S (size (lt_records (tracker_of rt))).
Proof. unfold weight. by destruct (rt_phase rt). Qed.

(** Without spawning, an actor only forgets children. *)
Lemma actor_step_records o now rt w rt' w' :
  spawning rt = false → actor_step o now rt w = Some (rt', w') →
  lt_records (tracker_of rt') ⊆ lt_records (tracker_of rt).
Proof.
  intros Hsp Hs. unfold actor_step, spawning in *.
  destruct (rt_phase rt) as [|source [a r|cmd k]| | | |] eqn:Hp; try done; try (by simplify_eq).
  - simplify_eq. unfold entrypoint_start. destruct (rt_awake_envelope rt); [|done]. by rewrite begin_handle_tracker.
  - simplify_eq. unfold handler_returned. by destruct source, r.
  - destruct (timing now cmd) as [|t|]; [|by simplify_eq|done].
    pose proof (exec_records o cmd (rt_context rt) w Hsp) as Hr.
    destruct (exec o cmd (rt_context rt) w) as [[rep c] w1]. simplify_eq. unfold tracker_of. simpl in *. by rewrite Hr.
  - destruct (ctx_alive (rt_context rt)); [|by simplify_eq]. unfold select_biased in Hs.
    destruct (mpsc_recv <$> net_hp (w_net w) !! _) as [[[|[p|]] ch]|]; [| |by simplify_eq|done].
    + destruct (if bool_decide _ then _ else _) as [[|[[e|?]|]] q]; [|simplify_eq; by rewrite ?begin_handle_tracker..].
      destruct (mpsc_recv <$> net_lp (w_net w) !! _) as [[[|[e|]] lch]|]; simplify_eq; by rewrite ?begin_handle_tracker.
    + injection Hs as Hs. apply receive_records in Hs as (-> & _ & _).
      destruct (done_of p); [apply delete_subseteq|done].
Qed.

Lemma weight_le rt rt' :
  rt_phase rt ≠ PhDone → lt_records (tracker_of rt') ⊆ lt_records (tracker_of rt) → weight rt' ≤ weight rt.
Proof.
  intros Hd Hr. rewrite (weight_live rt Hd). unfold weight.
  pose proof (subseteq_size (dom (lt_records (tracker_of rt'))) (dom (lt_records (tracker_of rt)))) as Hs.
  rewrite !size_dom in Hs. destruct (rt_phase rt'); (lia || (apply le_n_S, Hs, subseteq_dom, Hr)).
Qed.

(** A child that is forgotten counts. *)
Lemma weight_lt rt rt' c :
  rt_phase rt ≠ PhDone → lt_records (tracker_of rt') ⊆ lt_records (tracker_of rt) →
  tracked rt c → ¬ tracked rt' c → weight rt' < weight rt.
Proof.
  intros Hd Hr Hc Hc'. rewrite (weight_live rt Hd). unfold weight.
  assert (size (lt_records (tracker_of rt')) < size (lt_records (tracker_of rt))); [|destruct (rt_phase rt'); lia].
  rewrite <-!size_dom. apply subset_size. split; [by apply subseteq_dom|].
  intros Hsub. apply Hc'. unfold tracked in *. rewrite <-elem_of_dom in *. by apply Hsub.
Qed.

Section tree.
Context (D : gset Id) (N : nat).
Hypothesis Hfam : family tr D N.

Definition weight_at n j : nat :=
  match w_actors (at_ n) !! j with Some rt => weight rt | None => 0 end.
Definition total n : nat := sum_list_with (weight_at n) (elements D).

Lemma weight_step n j : N ≤ n → j ∈ D → weight_at (S n) j ≤ weight_at n j.
Proof.
  intros Hn Hj. destruct (fam_actor _ _ _ Hfam j Hj) as [rt0 H0'].
  destruct (run_kept tr Hrun N n j rt0 Hn H0') as (rt & Hi & _). unfold weight_at. rewrite Hi.
  destruct (run_frame tr Hrun n j rt Hi) as [Hown|[-> _ _]]; [|done].
  destruct (own_step_inv j _ _ rt Hown (run_reachable tr Hrun n) Hi) as (o & now & rt' & w' & Hs & _ & ->).
  apply weight_le; [by intros Hd; unfold actor_step in Hs; rewrite Hd in Hs|].
  eapply actor_step_records; [|done]. by apply (fam_quiet _ _ _ Hfam n j).
Qed.

Lemma weight_later n m j : N ≤ n → n ≤ m → j ∈ D → weight_at m j ≤ weight_at n j.
Proof.
  intros Hn Hle Hj. induction Hle as [|m Hle IH]; [done|]. etrans; [|exact IH]. apply weight_step; [lia|done].
Qed.

Lemma total_later n m : N ≤ n → n ≤ m → total m ≤ total n.
Proof.
  intros Hn Hle. apply sum_list_le. intros j Hj%elem_of_elements. by apply weight_later.
Qed.

(** One actor of the family has less to do. *)
Lemma total_less n m i :
  N ≤ n → n ≤ m → i ∈ D → weight_at m i < weight_at n i → total m < total n.
Proof.
  intros Hn Hle Hi Hlt. eapply sum_list_lt; [|by apply elem_of_elements|exact Hlt].
  intros j Hj%elem_of_elements. by apply weight_later.
Qed.

Lemma total_over n m i rt rt' :
  N ≤ n → n ≤ m → i ∈ D → w_actors (at_ n) !! i = Some rt → rt_phase rt ≠ PhDone →
  w_actors (at_ m) !! i = Some rt' → rt_phase rt' = PhDone → total m < total n.
Proof.
  intros Hn Hle Hi Hrt Hd Hrt' Hd'. apply (total_less n m i); [done..|]. unfold weight_at.
  rewrite Hrt, Hrt', (weight_live rt Hd). unfold weight. rewrite Hd'. lia.
Qed.

(** The children of the family are those of the beginning. *)
Lemma family_child n i c :
  N ≤ n → i ∈ D → child_of (at_ n) i c → child_of (at_ N) i c.
Proof.
  intros Hn Hi. induction Hn as [|n Hn IH]; [done|]. destruct (proj2 Hrun n) as [Hs| ->]; [|done].
  intros Hc. destruct (step_child _ _ i c (run_reachable tr Hrun n) Hs Hc) as [?|(_ & rt & Hrt & Hsp)]; [auto|].
  rewrite (fam_quiet _ _ _ Hfam n i rt Hn Hi Hrt) in Hsp. done.
Qed.

(** ** What an actor of the family does on a fair run *)

Hypothesis Hfair : fair tr.

Lemma family_pairs i : i ∈ D → owns_pairs tr i N.
Proof. intros Hi m rt Hm Hrt. apply no_spawn_pair. by apply (fam_quiet _ _ _ Hfam m i). Qed.

Definition member_at n i rt : Prop := i ∈ D ∧ live_at tr i N n rt.

Lemma member_drains n i rt p :
  member_at n i rt → p ∈ instant_queue (net_at n) (queue_of rt) →
  ends_at n i ∨ ∃ m rt', received tr i N p n rt m rt'.
Proof. intros [Hi Hl]. apply drains_elem; [done..|by apply family_pairs|done]. Qed.

Lemma member_or_ends n i rt : i ∈ D → N ≤ n → w_actors (at_ n) !! i = Some rt → ends_at n i ∨ member_at n i rt.
Proof. intros Hi Hn Hrt. destruct (live_or_ends tr i N n rt Hn Hrt); [by left|right]. by split. Qed.

Lemma member_handle n i rt source cmd k :
  member_at n i rt → rt_phase rt = PhHandle source (CDo cmd k) →
  ∃ m o rep c w', n ≤ S m ∧ member_at (S m) i (after_call rt source (k rep) c) ∧
    exec o cmd (rt_context rt) (at_ m) = (rep, c, w').
Proof.
  intros [Hi Hl] Hp.
  destruct (handle_step tr Hrun i N Hfair (family_pairs i Hi) n rt source cmd k Hl Hp)
    as (m & o & rep & c & w' & _ & [G1 G2 _ _ _] & He & _). by exists m, o, rep, c, w'.
Qed.

Lemma member_finish n i rt : member_at n i rt → rt_phase rt = PhFinish → ends_at n i.
Proof. intros [Hi Hl]. by apply (finish_ends tr Hrun i N Hfair (family_pairs i Hi)). Qed.

Lemma member_stopped n i rt : member_at n i rt → alive rt = false → ends_at n i.
Proof. intros [Hi Hl]. by apply (stopped_ends tr Hrun i N Hfair (family_pairs i Hi)). Qed.

(** The end of a child that waits in the queue is read. *)
Lemma report_read n i rt c :
  member_at n i rt → c ∈ reports (net_at n) (queue_of rt) →
  ends_at n i ∨ ∃ m, n ≤ m ∧ weight_at m i < weight_at n i.
Proof.
  intros Hl (p & Hp & Hc)%list_elem_of_omap. pose proof Hl as (Hi & Hn & Hrt & Hd).
  destruct (member_drains n i rt p Hl Hp) as [?|(m & rt' & Hle & Hl' & Hf & o & w & q & rt2 & w2 & Hq & Hr & Heq & Hi2)];
    [by left|right]. exists (S m). split; [lia|].
  pose proof Hl' as (_ & Hrt' & Hd'). apply receive_records in Hr as (Hrec & _ & _). rewrite Hc in Hrec.
  assert (weight_at m i ≤ weight_at n i) as Hwle by by apply weight_later.
  enough (weight_at (S m) i < weight_at m i) by lia.
  unfold weight_at. rewrite Hrt', Hi2. apply (weight_lt _ _ c Hd').
  - rewrite Hrec. apply delete_subseteq.
  - apply (ok_exact_none _ i rt' c (run_ok tr Hrun m i rt' Hrt') Hd'). right. unfold reports. rewrite Hq. simpl.
    rewrite Hc. left.
  - unfold tracked. rewrite Hrec, lookup_delete_eq. by intros [].
Qed.

Hypothesis Hcoop : cooperative.

(** An actor that was asked ends, or it terminates, or is stopped. *)
Lemma obeys_acts code : obeys code → ∀ n i rt source,
  member_at n i rt → rt_phase rt = PhHandle source code →
  ∃ m rt', n ≤ m ∧ member_at m i rt' ∧ (lt_terminating (tracker_of rt') = true ∨ alive rt' = false).
Proof.
  induction 1 as [k|k|cmd k _ IH]; intros n i rt source Hl Hp;
    destruct (member_handle n i rt source _ k Hl Hp) as (m & o & rep & c & w' & G1 & G2 & He);
    cbn [exec] in He.
  - exists (S m), (after_call rt source (k rep) c). split; [done|]. split; [done|]. left.
    unfold Context_shutdown, Tracker.start_termination in He.
    pose proof (Tracker.try_terminate_next_terminating (ord_groups o) (ord_ids o)
      (ctx_tracker (rt_context rt)) (net_at m)) as Ht.
    destruct (Tracker.try_terminate_next _ _ _ _) as [t n']. cbn [fst ctx_tracker with_tracker] in *.
    destruct (Tracker.is_finished t); by simplify_eq.
  - exists (S m), (after_call rt source (k rep) c). split; [done|]. split; [done|]. right. by simplify_eq.
  - destruct (IH o (rt_context rt) (at_ m) (S m) i (after_call rt source (k rep) c) source G2) as (m' & rt' & ? & ?);
      [by rewrite He|]. exists m', rt'. split; [lia|done].
Qed.

Lemma asked_acts n i rt :
  member_at n i rt → asked (net_at n) rt →
  ends_at n i ∨ ∃ m rt', n ≤ m ∧ member_at m i rt' ∧ (lt_terminating (tracker_of rt') = true ∨ alive rt' = false).
Proof.
  intros Hl [Hq|source code Hp Ho|Ht|Ha|[Hp|Hp]].
  - destruct (member_drains n i rt _ Hl Hq) as [?|(m & rt' & Hle & Hl' & Hf & o & w & q & rt2 & w2 & _ & Hr & Heq & Hi2)];
      [by left|right]. unfold receive_parcel in Hr. cbn in Hr. injection Hr as Hr _.
    destruct (obeys_acts (interrupted_by (rt_actor rt')) (Hcoop _) (S m) i rt2 SrcInstant) as (m' & rt3 & ? & ?);
      [destruct Hl as [? _], Hl' as [? _]; split; [done|]; split; [lia|]; split; [done|]; by subst rt2|by subst rt2|].
    exists m', rt3. split; [lia|done].
  - right. by eapply obeys_acts.
  - right. exists n, rt. auto.
  - right. exists n, rt. auto.
  - left. by eapply member_finish.
  - by destruct Hl as (_ & _ & _ & ?).
Qed.

Hypothesis Hstop : tasks_stop tr.

(** A task of the actor that sees its stop signal: its end reaches the actor. *)
Lemma task_step n i rt c lr :
  member_at n i rt → w_tasks (at_ n) !! c = Some lr → lr_done_notifier lr = NOnce (self rt) (OpDone c) →
  w_tasks (at_ (S n)) !! c = Some lr ∨ w_tasks (at_ (S n)) !! c = None ∧
    ∃ rt', w_actors (at_ (S n)) !! i = Some rt' ∧
      (rt_phase rt' = PhDone ∨ ¬ tracked rt' c ∨ c ∈ reports (net_at (S n)) (queue_of rt')).
Proof.
  intros (Hi & Hn & Hrt & Hd) Hc Hnot. pose proof (inv_task _ _ _ (run_inv tr Hrun n) c lr Hc) as Hok.
  destruct (proj2 Hrun n) as [Hs| ->]; [|by left].
  destruct (step_evolves _ _ (run_reachable tr Hrun n) Hs) as [E1 E2 E3].
  destruct (w_tasks (at_ (S n)) !! c) as [lr'|] eqn:Hc'.
  - left. destruct (E3 c lr' Hc') as [?|[Hid _ _ _]]; [congruence|]. exfalso.
    pose proof (tk_live _ _ _ Hok) as Hlive. pose proof (Ids.unique_fresh (net_heap (net_at n))) as Hf.
    unfold alloc_id in Hid. destruct (Ids.unique (net_heap (net_at n))). simpl in *. by subst.
  - right. split; [done|]. destruct (E1 i rt Hrt) as (rt' & n' & Hi' & [_ _ F _ _] & _). exists rt'. split; [done|].
    assert (rt_phase rt' = PhDone ∨ rt_phase rt' ≠ PhDone) as [?|Hd'] by (destruct (rt_phase rt'); auto); [by left|right].
    destruct (lt_records (tracker_of rt') !! c) as [r|] eqn:Hr; [right|left; unfold tracked; rewrite Hr; by intros []].
    assert (tracked rt' c) as Htr by by exists r.
    apply (ok_exact_none _ i rt' c (run_ok tr Hrun (S n) i rt' Hi') Hd') in Htr as [[(crt & Hcr & _)|(lr' & Hl' & _)]|?];
      [|congruence|done]. exfalso.
    destruct (E2 c crt Hcr) as [[x Hx]|(a & b & [[Hp|Hf] _] & _)].
    + pose proof (tk_actor _ _ _ Hok). congruence.
    + apply list_elem_of_fmap in Hp as (p & -> & Hp). pose proof (pr_task _ _ (inv_pair _ _ _ (run_inv tr Hrun n) p Hp)). congruence.
    + by apply Hf, (tk_live _ _ _ Hok).
Qed.

(** The actor [i] ends, or has less to wait for. *)
Definition moves_on n i : Prop := ends_at n i ∨ ∃ m, n ≤ m ∧ weight_at m i < weight_at n i.

Lemma moves_on_le n m i : N ≤ n → i ∈ D → n ≤ m → moves_on m i → moves_on n i.
Proof.
  intros Hn Hi Hle [He|(k & Hk & Hlt)]; [left; by eapply ends_le|right]. exists k. split; [lia|].
  pose proof (weight_later n m i Hn Hle Hi). lia.
Qed.

Lemma forgotten_moves n i rt rt' c :
  member_at n i rt → w_actors (at_ (S n)) !! i = Some rt' → tracked rt c → ¬ tracked rt' c → moves_on n i.
Proof.
  intros (Hi & Hn & Hrt & Hd) Hrt' Hc Hc'. right. exists (S n). split; [lia|].
  unfold weight_at. rewrite Hrt, Hrt'. apply (weight_lt _ _ c Hd); [|done..].
  destruct (run_frame tr Hrun n i rt Hrt) as [Hown|[Hsame _ _]]; [|by simplify_eq].
  destruct (own_step_inv i _ _ rt Hown (run_reachable tr Hrun n) Hrt) as (o & now & rt1 & w' & Hs & _ & Hrt1).
  simplify_eq. eapply actor_step_records; [|done]. by apply (fam_quiet _ _ _ Hfam n i).
Qed.

Lemma task_over_moves d : ∀ n i rt c lr,
  member_at n i rt → w_tasks (at_ n) !! c = Some lr → lr_done_notifier lr = NOnce (self rt) (OpDone c) →
  w_tasks (at_ (n + d)) !! c = None → moves_on n i.
Proof.
  induction d as [|d IH]; intros n i rt c lr Hl Hc Hnot Hgone; [rewrite Nat.add_0_r in Hgone; congruence|].
  pose proof Hl as (Hi & Hn & Hrt & Hd).
  assert (tracked rt c) as Htr.
  { apply (ok_exact_none _ i rt c (run_ok tr Hrun n i rt Hrt) Hd). left. right. by exists lr. }
  destruct (run_kept tr Hrun n (S n) i rt ltac:(lia) Hrt) as (rt' & Hrt' & Hf & _).
  destruct (member_or_ends (S n) i rt' Hi ltac:(lia) Hrt') as [?|Hl']; [left; eapply (ends_le _ _ n); [|done]; lia|].
  assert (rt_phase rt' ≠ PhDone) as Hd' by apply Hl'.
  destruct (task_step n i rt c lr Hl Hc Hnot) as [Hc'|(_ & rt1 & Hrt1 & Hcase)].
  - apply (moves_on_le n (S n) i); [done|done|lia|]. eapply (IH (S n) i rt' c lr); [done..|by rewrite (fo_self _ _ Hf)|].
    by rewrite <-plus_n_Sm in Hgone.
  - assert (rt1 = rt') as -> by congruence. destruct Hcase as [?|[Hno|Hrep]]; [done| |].
    + by eapply forgotten_moves.
    + apply (moves_on_le n (S n) i); [done|done|lia|]. by eapply report_read.
Qed.

Lemma moves_total n i rt : member_at n i rt → moves_on n i → ∃ m, n ≤ m ∧ total m < total n.
Proof.
  intros (Hi & Hn & Hrt & Hd) [(m & rt' & Hm & Hrt' & Hd')|(m & Hm & Hlt)]; exists m; (split; [done|]).
  - by eapply (total_over n m i).
  - by eapply (total_less n m i).
Qed.

Lemma total_earlier n m : N ≤ n → n ≤ m → (∃ k, m ≤ k ∧ total k < total m) → ∃ k, n ≤ k ∧ total k < total n.
Proof. intros Hn Hm (k & Hk & Hlt). exists k. pose proof (total_later n m Hn Hm). split; lia. Qed.

(** While an actor that was asked lives, the family has less and less to do: a
    terminating actor waits for a child that was asked itself, and so on down the
    tree ([rank] grows on the way). *)
Lemma progress rank B :
  ranked (at_ N) rank → (∀ i, i ∈ D → rank i < B) →
  ∀ d n i rt, B ≤ rank i + d → member_at n i rt → asked (net_at n) rt → ∃ m, n ≤ m ∧ total m < total n.
Proof.
  intros Hrank HB. induction d as [|d IH]; intros n i rt Hd Hl Ha.
  { destruct Hl as (Hi & _). specialize (HB i Hi). lia. }
  destruct (asked_acts n i rt Hl Ha) as [He|(m & rt' & Hm & Hl' & Hcase)].
  { eapply moves_total; [done|by left]. }
  apply (total_earlier n m); [by destruct Hl as (_ & ? & _)|done|]. destruct (alive rt') eqn:Hal.
  2: { eapply moves_total; [done|left]. by eapply member_stopped. }
  destruct Hcase as [Ht|?]; [|congruence]. pose proof Hl' as (Hi & Hn & Hrt & Hlive).
  destruct (waiting_child (tr m) i rt' (run_reachable tr Hrun m) Hrt Hlive Hal Ht)
    as (g & st & c & Hg & Hst & Hc & [[(crt & Hcr & Hnot & Hcd)|(lr & Hlr & Hnot)]|Hrep]).
  - destruct (in_stage _ (informed_reachable _ Hcoop (run_reachable tr Hrun m)) i rt' g st c Hrt Hlive Hg Hst Hc) as [Hask _].
    assert (child_of (at_ N) i c) as Hchild by (apply (family_child m i c Hn Hi); by exists rt', crt).
    apply (IH m c crt); [pose proof (Hrank i c Hchild); lia| |by apply Hask].
    split; [by eapply fam_child|done].
  - destruct (in_stage _ (informed_reachable _ Hcoop (run_reachable tr Hrun m)) i rt' g st c Hrt Hlive Hg Hst Hc) as [_ Hask].
    destruct (Hstop m c lr Hlr (Hask lr Hlr)) as (k & Hk & Hgone).
    eapply moves_total; [done|]. eapply (task_over_moves (k - m)); [done..|]. by replace (m + (k - m)) with k by lia.
  - eapply moves_total; [done|]. by eapply report_read.
Qed.

Lemma asked_ends T : ∀ n i rt,
  total n ≤ T → member_at n i rt → asked (net_at n) rt → ends_at n i.
Proof.
  destruct (ranked_reachable (tr N) (run_reachable tr Hrun N)) as [rank Hrank].
  assert (∃ B, ∀ i, i ∈ D → rank i < B) as [B HB].
  { exists (S (list_max (rank <$> elements D))). intros i Hi. apply Nat.lt_succ_r.
    by apply elem_le_list_max, list_elem_of_fmap_2, elem_of_elements. }
  induction T as [|T IH]; intros n i rt HT Hl Ha;
    destruct (progress rank B Hrank HB B n i rt ltac:(lia) Hl Ha) as (m & Hm & Hlt); [lia|].
  pose proof Hl as (Hi & Hn & Hrt & Hd).
  destruct (run_asked n m i rt Hcoop Hm Hrt Ha) as (rt' & Hrt' & Ha').
  apply (ends_le _ _ n m); [done|]. destruct (member_or_ends m i rt' Hi ltac:(lia) Hrt') as [?|Hl']; [done|].
  apply (IH m i rt'); [lia|done..].
Qed.
End tree.
End run.

(** Who was asked ends, even when the tree below still grows for a while. *)
Lemma family_ends tr (D : gset Id) (N n : nat) i rt :
  is_run tr → fair tr → tasks_stop tr → cooperative → family tr D N →
  i ∈ D → w_actors (sys_world (tr n)) !! i = Some rt → asked (w_net (sys_world (tr n))) rt →
  ∃ m rt', n ≤ m ∧ w_actors (sys_world (tr m)) !! i = Some rt' ∧ rt_phase rt' = PhDone.
Proof.
  intros Hrun Hfair Hstop Hcoop Hfam Hi Hrt Ha.
  destruct (run_asked tr Hrun n (n `max` N) i rt Hcoop ltac:(lia) Hrt Ha) as (rt1 & Hrt1 & Ha1).
  apply (ends_le tr i n (n `max` N)); [lia|].
  assert (rt_phase rt1 = PhDone ∨ rt_phase rt1 ≠ PhDone) as [Hd|Hd] by (destruct (rt_phase rt1); auto).
  { by exists (n `max` N), rt1. }
  apply (asked_ends tr Hrun D N Hfam Hfair Hcoop Hstop (total tr D (n `max` N)) _ i rt1); [lia| |done].
  split; [done|]. split; [lia|done].
Qed.

(** C3: a tree ends.  On every fair run on which the tasks that are told to stop
    do stop, and whose handlers of interruptions obey, an actor that was asked to
    end, by an interruption in its queue or because it already terminates, is over
    in the end, however deep its tree is and whatever else happens around it,
    provided that from some time on the actors of its tree spawn no more children. *)
Theorem tree_ends tr (D : gset Id) (N n : nat) i rt :
  is_run tr → fair tr → tasks_stop tr → cooperative → family tr D N →
  i ∈ D → w_actors (sys_world (tr n)) !! i = Some rt → asked (w_net (sys_world (tr n))) rt →
  ∃ m rt', n ≤ m ∧ w_actors (sys_world (tr m)) !! i = Some rt' ∧ rt_phase rt' = PhDone.
Proof. apply family_ends. Qed.
End shutdown.

#[local] Existing Instance ref_crates.
#[local] Existing Instance sample_app.
#[local] Existing Instance sample_impl.

(** The family of the sample system, interrupted, its two actors by turns. *)
Fixpoint sample_run (n : nat) : Sys :=
  match n with
  | O => send_root MsgInterrupt sys_family
  | S n => advance sample_orders (if Nat.even n then 1 else 2)%positive (sample_run n)
  end.

Definition phase_over (p : Phase) : bool := match p with PhDone => true | _ => false end.

(** What is looked at in every state of the run. *)
Definition sample_state (s : Sys) : bool :=
  bool_decide (w_tasks (sys_world s) = ∅) &&
  bool_decide (map_Forall (λ (_ : Id) rt, spawning rt = false) (w_actors (sys_world s))).

Definition sample_over (s : Sys) : bool :=
  bool_decide (map_Forall (λ (_ : Id) rt, phase_over (rt_phase rt) = true) (w_actors (sys_world s))).

Lemma over_no_step s i rt :
  sample_over s = true → w_actors (sys_world s) !! i = Some rt → rt_phase rt = PhDone.
Proof.
  intros Ho%bool_decide_eq_true Hi. specialize (Ho i rt Hi). simpl in Ho. by destruct (rt_phase rt).
Qed.

Lemma advance_over o i s : sample_over s = true → advance o i s = s.
Proof.
  intros Ho. unfold advance. destruct (w_actors (sys_world s) !! i) as [rt|] eqn:Hi; [|done].
  unfold actor_step. by rewrite (over_no_step s i rt Ho Hi).
Qed.

Lemma sample_rests n : sample_run (n + 22) = sample_run 22.
Proof.
  induction n as [|n IH]; [done|]. cbn [Nat.add sample_run]. rewrite IH. apply advance_over. vm_compute. reflexivity.
Qed.

Lemma sample_states n : sample_state (sample_run n) = true.
Proof.
  assert (forallb (λ n, sample_state (sample_run n)) (seq 0 23) = true) as Hall by (vm_compute; reflexivity).
  rewrite forallb_forall in Hall. destruct (decide (n ≤ 22)) as [Hn|Hn].
  - apply Hall, in_seq. lia.
  - replace n with ((n - 22) + 22) by lia. rewrite sample_rests. apply Hall, in_seq. lia.
Qed.

Lemma sample_is_run : is_run sample_run.
Proof.
  split.
  - apply send_root_reachable, steps_reachable, send_root_reachable, steps_reachable.
    eapply rtc_r; [reflexivity|]. apply step_spawn.
  - intros n. apply advance_cases.
Qed.

Lemma sample_fair : fair sample_run.
Proof.
  intros i n. exists (n + 22). split; [lia|]. right. rewrite sample_rests. intros [s' Hown].
  assert (sample_over (sample_run 22) = true) as Ho by (vm_compute; reflexivity). revert Hown Ho.
  generalize (sample_run 22). intros s Hown Ho. destruct Hown as [o now rt rt' w w' pairs pairs' Hi Hs _].
  unfold actor_step in Hs. by rewrite (over_no_step (mkSys w pairs) i rt Ho Hi) in Hs.
Qed.

Lemma sample_family : family sample_run {[1; 2]}%positive 0.
Proof.
  assert (dom (w_actors (sys_world (sample_run 0))) = {[1; 2]}%positive) as Hdom by (vm_compute; reflexivity).
  split.
  - intros j Hj. apply elem_of_dom. by rewrite Hdom.
  - intros j c _ (rt & crt & _ & Hc & _). rewrite <-Hdom. apply elem_of_dom. by exists crt.
  - intros m j rt _ _ Hj. pose proof (sample_states m) as [_ Hs]%andb_prop.
    apply bool_decide_eq_true in Hs. by apply (Hs j rt Hj).
Qed.

Lemma tree_ends_witness : ∃ m rt,
  0 ≤ m ∧ w_actors (sys_world (sample_run m)) !! 1%positive = Some rt ∧ rt_phase rt = PhDone.
Proof.
  apply (tree_ends sample_run {[1; 2]}%positive 0 0 1%positive (runtime_of (sample_run 0) 1)).
  - apply sample_is_run.
  - apply sample_fair.
  - intros n c lr Hc. pose proof (sample_states n) as [Ht _]%andb_prop. apply bool_decide_eq_true in Ht.
    by rewrite Ht, lookup_empty in Hc.
  - intros a. apply ob_shutdown.
  - apply sample_family.
  - set_solver.
  - apply runtime_of_some. vm_compute. reflexivity.
  - apply asked_queued.
    assert (instant_queue (w_net (sys_world (sample_run 0))) (queue_of (runtime_of (sample_run 0) 1)) = [interruption])
      as -> by (vm_compute; reflexivity). left.
Defined.
