(* ===== verification/Tree.v ===== *)
(** * The supervision tree

    What the framework promises, without queues, handlers, groups or signals: a
    forest of nodes, each with the children it accounts for.  Every step of the
    system is one step of this specification, or none. *)
From S2P Require Import Prelude Extern Ids Types Lifecycle Linkage LiteRuntime Handlers ActorRuntime.
From S2P Require Import Tasks NetFrame Invariant Supervision Liveness.

(** ** The specification *)

(** [NdStarting]: the [Awake] handler has not returned.  [NdStopping]: nothing more is
    received. *)
Inductive NodeStatus : Type := NdStarting | NdRunning | NdStopping | NdOver.

#[export] Instance NodeStatus_eq_dec : EqDecision NodeStatus.
Proof. solve_decision. Defined.

Record Node : Type := mkNode { nd_status : NodeStatus; nd_terminating : bool; nd_children : gset Id }.

Record Forest : Type := mkForest { fo_nodes : gmap Id Node; fo_tasks : gset Id }.

Definition new_node : Node := mkNode NdStarting false ∅.

(** Nothing runs under the id. *)
Definition gone (f : Forest) (c : Id) : Prop :=
  c ∉ fo_tasks f ∧ ∀ nd, fo_nodes f !! c = Some nd → nd_status nd = NdOver.

Definition unused (f : Forest) (c : Id) : Prop := c ∉ fo_tasks f ∧ fo_nodes f !! c = None.

(** A node that is left without children while it terminates stops. *)
Definition settle (nd : Node) : Node :=
  if nd_terminating nd && bool_decide (nd_children nd = ∅)
  then mkNode NdStopping (nd_terminating nd) (nd_children nd) else nd.

Definition adopt (c : Id) (nd : Node) : Node :=
  mkNode (nd_status nd) (nd_terminating nd) ({[c]} ∪ nd_children nd).
Definition release (c : Id) (nd : Node) : Node :=
  mkNode (nd_status nd) (nd_terminating nd) (nd_children nd ∖ {[c]}).
Definition with_status (st : NodeStatus) (nd : Node) : Node :=
  mkNode st (nd_terminating nd) (nd_children nd).

Definition set_node (i : Id) (nd : Node) (f : Forest) : Forest :=
  mkForest (<[i := nd]> (fo_nodes f)) (fo_tasks f).

Inductive forest_step (f : Forest) : Forest → Prop :=
| fs_root c : unused f c → forest_step f (set_node c new_node f)
| fs_actor i nd c :
    fo_nodes f !! i = Some nd → nd_status nd ≠ NdOver → unused f c → c ≠ i →
    forest_step f (set_node i (adopt c nd) (set_node c new_node f))
| fs_task i nd c :
    fo_nodes f !! i = Some nd → nd_status nd ≠ NdOver → unused f c →
    forest_step f (set_node i (adopt c nd) (mkForest (fo_nodes f) ({[c]} ∪ fo_tasks f)))
| fs_task_end c : c ∈ fo_tasks f → forest_step f (mkForest (fo_nodes f) (fo_tasks f ∖ {[c]}))
| fs_started i nd :
    fo_nodes f !! i = Some nd → nd_status nd = NdStarting →
    forest_step f (set_node i (with_status NdRunning nd) f)
| fs_failed i nd :
    fo_nodes f !! i = Some nd → nd_status nd = NdStarting →
    forest_step f (set_node i (with_status NdStopping nd) f)
| fs_child_over i nd c :
    (* only a child that is gone is released *)
    fo_nodes f !! i = Some nd → nd_status nd = NdRunning → c ∈ nd_children nd → gone f c →
    forest_step f (set_node i (settle (release c nd)) f)
| fs_shutdown i nd :
    fo_nodes f !! i = Some nd → nd_status nd ≠ NdOver →
    forest_step f (set_node i (settle (mkNode (nd_status nd) true (nd_children nd))) f)
| fs_stop i nd :
    fo_nodes f !! i = Some nd → nd_status nd ≠ NdOver →
    forest_step f (set_node i (with_status NdStopping nd) f)
| fs_over i nd :
    fo_nodes f !! i = Some nd → nd_status nd = NdStopping →
    forest_step f (set_node i (with_status NdOver nd) f).

(** ** What the specification gives *)

Definition rank (st : NodeStatus) : nat :=
  match st with NdStarting => 0 | NdRunning => 1 | NdStopping => 2 | NdOver => 3 end.

(** A node later in its life. *)
Record later (nd nd' : Node) : Prop := {
  later_status : rank (nd_status nd) ≤ rank (nd_status nd');
  later_terminating : nd_terminating nd = true → nd_terminating nd' = true;
  later_over : nd_status nd = NdOver → nd' = nd
}.

#[export] Instance later_preorder : PreOrder later.
Proof.
  split; [by split|]. intros nd1 nd2 nd3 [A1 A2 A3] [B1 B2 B3]. split; [lia|auto|].
  intros Ho. rewrite <-(A3 Ho). apply B3. by rewrite (A3 Ho).
Qed.

(** Only what is not over changes. *)
Lemma later_intro nd nd' :
  nd_status nd ≠ NdOver → rank (nd_status nd) ≤ rank (nd_status nd') →
  (nd_terminating nd = true → nd_terminating nd' = true) → later nd nd'.
Proof. by split. Qed.

Lemma settle_rank nd : nd_status nd ≠ NdOver → rank (nd_status nd) ≤ rank (nd_status (settle nd)).
Proof. unfold settle. case_match; [|done]. by destruct (nd_status nd); simpl; try lia. Qed.

Lemma settle_terminating nd : nd_terminating (settle nd) = nd_terminating nd.
Proof. unfold settle. by case_match. Qed.

Lemma set_node_later f i nd0 nd1 j nd :
  fo_nodes f !! i = Some nd0 → later nd0 nd1 → fo_nodes f !! j = Some nd →
  ∃ nd', fo_nodes (set_node i nd1 f) !! j = Some nd' ∧ later nd nd'.
Proof.
  intros Hi Hl Hj. simpl. destruct (decide (j = i)) as [->|].
  - exists nd1. rewrite lookup_insert_eq. split; [done|]. by simplify_eq.
  - exists nd. by rewrite lookup_insert_ne.
Qed.

Lemma new_node_later f c j nd :
  fo_nodes f !! c = None → fo_nodes f !! j = Some nd →
  ∃ nd', fo_nodes (set_node c new_node f) !! j = Some nd' ∧ later nd nd'.
Proof.
  intros Hc Hj. exists nd. simpl. rewrite lookup_insert_ne by congruence. done.
Qed.

Lemma forest_step_later f f' j nd :
  forest_step f f' → fo_nodes f !! j = Some nd →
  ∃ nd', fo_nodes f' !! j = Some nd' ∧ later nd nd'.
Proof.
  destruct 1 as [c [_ Hc]|i nd0 c Hi Ho [_ Hc] Hne|i nd0 c Hi Ho Hc|c Hc|i nd0 Hi Hs|i nd0 Hi Hs
    |i nd0 c Hi Hs Hc Hg|i nd0 Hi Ho|i nd0 Hi Ho|i nd0 Hi Hs]; intros Hj.
  - by apply new_node_later.
  - destruct (new_node_later f c j nd Hc Hj) as (nd1 & Hnd1 & L1).
    destruct (set_node_later (set_node c new_node f) i nd0 (adopt c nd0) j nd1) as (nd2 & Hnd2 & L2);
      [by simpl; rewrite lookup_insert_ne|by apply later_intro|done|].
    exists nd2. split; [done|by trans nd1].
  - by apply (set_node_later (mkForest (fo_nodes f) ({[c]} ∪ fo_tasks f)) i nd0);
      [|apply later_intro|].
  - by exists nd.
  - apply (set_node_later f i nd0); try done. apply later_intro; simpl; by rewrite ?Hs; auto.
  - apply (set_node_later f i nd0); try done. apply later_intro; simpl; rewrite ?Hs; simpl; auto; done.
  - apply (set_node_later f i nd0); try done.
    apply later_intro; [by rewrite Hs|by apply (settle_rank (release c nd0)); simpl; rewrite Hs|].
    by rewrite settle_terminating.
  - apply (set_node_later f i nd0); try done. apply later_intro; [done| |by rewrite settle_terminating].
    by apply (settle_rank (mkNode (nd_status nd0) true (nd_children nd0))).
  - apply (set_node_later f i nd0); try done. apply later_intro; [done| |done].
    by destruct (nd_status nd0); simpl; try lia.
  - apply (set_node_later f i nd0); try done. apply later_intro; simpl; rewrite ?Hs; simpl; auto; done.
Qed.

Section tree.
Context `{!Crates, !App, !ActorImpl}.
Implicit Types (w : World) (rt : ActorRuntime).

(** ** What a system stands for *)

Definition status_of rt : NodeStatus :=
  match rt_phase rt with
  | PhDone | PhPanic _ => NdOver
  | PhFinish => NdStopping
  | PhStart | PhHandle SrcAwake _ => if alive rt then NdStarting else NdStopping
  | _ => if alive rt then NdRunning else NdStopping
  end.

Definition node_of rt : Node :=
  mkNode (status_of rt) (lt_terminating (tracker_of rt)) (dom (lt_records (tracker_of rt))).

Definition forest_of (s : Sys) : Forest :=
  mkForest (node_of <$> w_actors (sys_world s)) (dom (w_tasks (sys_world s))).

(** ** Lemmas *)

Lemma forest_node s i rt :
  w_actors (sys_world s) !! i = Some rt → fo_nodes (forest_of s) !! i = Some (node_of rt).
Proof. intros Hi. simpl. by rewrite lookup_fmap, Hi. Qed.

Lemma status_over rt : (∀ m, rt_phase rt ≠ PhPanic m) → status_of rt = NdOver ↔ rt_phase rt = PhDone.
Proof.
  intros Hp. unfold status_of. destruct (rt_phase rt) as [|[]| | | |m]; try by destruct (alive rt).
  by destruct (Hp m).
Qed.

(** One actor replaced. *)
Lemma forest_put w w' pairs pairs' i rt rt' :
  w_actors w' = w_actors w → w_tasks w' = w_tasks w → rt_id rt' = i →
  forest_of (mkSys (put rt' w') pairs') = set_node i (node_of rt') (forest_of (mkSys w pairs)).
Proof.
  intros Ha Ht Hid. unfold forest_of, set_node; simpl. by rewrite Ha, Ht, Hid, fmap_insert.
Qed.

Lemma set_node_same f i nd : fo_nodes f !! i = Some nd → set_node i nd f = f.
Proof. intros Hi. unfold set_node. rewrite insert_id by done. by destruct f. Qed.

(** A tracker that is asked to terminate is finished when it holds no child. *)
Lemma finished_childless og oi (t : LifetimeTracker Group Notifier) n :
  Tracker.wf t →
  Tracker.is_finished (Tracker.try_terminate_next og oi t n).1 =
    bool_decide (dom (lt_records t) = (∅ : gset Id)).
Proof.
  intros Hwf. case_bool_decide as He.
  - apply Tracker.try_terminate_next_childless; [done|]. by apply dom_empty_iff_L in He.
  - apply not_true_is_false. intros Hf. apply He, dom_empty_iff_L.
    rewrite <-(Tracker.try_terminate_next_records og oi t n).
    apply Tracker.finished_no_records; [|done]. by apply Tracker.wf_try_terminate_next.
Qed.

(** And the tracker that loses a child, when it was terminating and that was the
    last one. *)
Lemma finished_remove og oi c (t : LifetimeTracker Group Notifier) n :
  Tracker.wf t → is_Some (lt_records t !! c) →
  let t' := (Tracker.remove og oi c t n).1 in
  Tracker.is_finished t' = lt_terminating t && bool_decide (dom (lt_records t) ∖ {[c]} = (∅ : gset Id)) ∧
  lt_terminating t' = lt_terminating t ∧ dom (lt_records t') = dom (lt_records t) ∖ {[c]}.
Proof.
  intros Hwf Hc. cbv zeta. pose proof (remove_terminated og oi c t n Hwf Hc) as Hr.
  rewrite Tracker.remove_forget in *. rewrite <-dom_delete_L, <-(Tracker.forget_records c t).
  destruct (lt_terminating (Tracker.forget c t)) eqn:Ht; rewrite Tracker.forget_terminating in Ht;
    rewrite Ht in *; cbn [fst andb] in *.
  - rewrite Tracker.try_terminate_next_records, Tracker.try_terminate_next_terminating.
    rewrite finished_childless; [done|]. by apply Tracker.wf_forget.
  - split; [|by rewrite Tracker.forget_terminating]. apply not_true_is_false. intros Hf.
    specialize (Hr Hf). rewrite Tracker.forget_terminating in Hr. congruence.
Qed.

Lemma dom_insert_record i (r : TRecord Group Notifier) (t : LifetimeTracker Group Notifier) n :
  dom (lt_records (Tracker.insert_record i r t n).1) = {[i]} ∪ dom (lt_records t) ∧
  lt_terminating (Tracker.insert_record i r t n).1 = lt_terminating t.
Proof. split; [|done]. simpl. by rewrite dom_insert_L. Qed.

(** ** Calls *)

Section call.
Context (w : World) (pairs : list AddressPair) (i : Id) (rt : ActorRuntime).
Context (source : Source) (cmd : Cmd) (k : Reply → Handling).
Hypothesis Hinv : sys_inv GNone w pairs.
Hypothesis Hi : w_actors w !! i = Some rt.
Hypothesis Hp : rt_phase rt = PhHandle source (CDo cmd k).

Lemma call_running : nd_status (node_of rt) ≠ NdOver.
Proof. simpl. unfold status_of. rewrite Hp. by destruct source, (alive rt). Qed.

Lemma call_node : fo_nodes (forest_of (mkSys w pairs)) !! i = Some (node_of rt).
Proof. by apply (forest_node (mkSys w pairs)). Qed.

Lemma call_id code c : rt_id (after_call rt source code c) = i.
Proof. exact (ok_id _ _ _ _ (inv_actor _ _ _ Hinv i rt Hi)). Qed.

(** The status after a call, which can only stop the actor. *)
Lemma call_status code c :
  status_of (after_call rt source code c) =
    if ctx_alive c then
      if alive rt then status_of rt else match source with SrcAwake => NdStarting | _ => NdRunning end
    else NdStopping.
Proof.
  unfold status_of. rewrite Hp. simpl. unfold alive; simpl.
  by destruct source, (ctx_alive c), (ctx_alive (rt_context rt)).
Qed.

Lemma call_same code n' pairs' :
  forest_of (mkSys (put (after_call rt source code (rt_context rt)) (with_net n' w)) pairs') =
  forest_of (mkSys w pairs).
Proof.
  rewrite (forest_put w (with_net n' w) pairs pairs' i rt) by (done || apply call_id).
  assert (node_of (after_call rt source code (rt_context rt)) = node_of rt) as ->.
  { unfold node_of. f_equal. rewrite call_status. unfold status_of, alive. rewrite Hp.
    by destruct source, (ctx_alive (rt_context rt)). }
  by apply set_node_same, call_node.
Qed.

Lemma call_unused c :
  w_actors w !! c = None → w_tasks w !! c = None → unused (forest_of (mkSys w pairs)) c.
Proof. intros Ha Ht. split; simpl; [by apply not_elem_of_dom|]. by rewrite lookup_fmap, Ha. Qed.

(** The node of an actor that has inserted a child. *)
Lemma call_insert code (r : TRecord Group Notifier) c n t n' :
  Tracker.insert_record c r (tracker_of rt) n = (t, n') →
  node_of (after_call rt source code (with_tracker t (rt_context rt))) = adopt c (node_of rt).
Proof.
  intros Ht. destruct (dom_insert_record c r (tracker_of rt) n) as [Hd Hterm]. rewrite Ht in Hd, Hterm.
  unfold node_of, adopt. cbn [nd_status nd_terminating nd_children fst] in *.
  rewrite call_status. unfold tracker_of at 1 2. cbn. rewrite Hd, Hterm. f_equal.
  unfold status_of, alive. rewrite Hp. by destruct source, (ctx_alive (rt_context rt)).
Qed.
End call.

Lemma spawn_addr_refines w l1 l2 pairs' i rt source cmd k code actor p group :
  sys_inv GNone w (l1 ++ p :: l2) → w_actors w !! i = Some rt →
  rt_phase rt = PhHandle source (CDo cmd k) →
  let '(c, w') := Context_spawn_actor_with_addr actor p group (rt_context rt) w in
  forest_step (forest_of (mkSys w (l1 ++ p :: l2)))
    (forest_of (mkSys (put (after_call rt source code c) w') pairs')).
Proof.
  intros Hinv Hi Hp. destruct (inv_pair _ _ _ Hinv p) as [P1 P2 P3 P4 P5 P6]; [set_solver|].
  assert (pair_id p ≠ i) as Hne by (intros Heq; congruence).
  unfold Context_spawn_actor_with_addr, Tracker.insert. rewrite !Address_clone_id.
  match goal with |- context [Tracker.insert_record ?c ?r ?t ?n] =>
    destruct (Tracker.insert_record c r t n) as [t' n'] eqn:Ht end.
  pose proof (call_insert rt source cmd k Hp code _ _ _ _ _ Ht) as Hnode.
  assert (forest_of (mkSys (put (after_call rt source code (with_tracker t' (rt_context rt)))
      (with_net n' (spawn actor (Some (ctx_address (rt_context rt))) p w))) pairs') =
    set_node i (adopt (pair_id p) (node_of rt))
      (set_node (pair_id p) new_node (forest_of (mkSys w (l1 ++ p :: l2))))) as ->.
  { unfold forest_of, set_node. cbn. rewrite (ok_id _ _ _ _ (inv_actor _ _ _ Hinv i rt Hi)).
    rewrite !fmap_insert, Hnode. unfold new_node, node_of at 2, status_of, alive. cbn. by rewrite dom_empty_L. }
  apply fs_actor; [by apply (forest_node (mkSys w _))|by eapply call_running|by apply call_unused|done].
Qed.

Lemma spawn_task_refines w pairs pairs' i rt source cmd k (code : TaskAddress → Handling) task tag group :
  sys_inv GNone w pairs → w_actors w !! i = Some rt →
  rt_phase rt = PhHandle source (CDo cmd k) →
  let '(stopper, c, w') := Context_spawn_task task tag group (rt_context rt) w in
  forest_step (forest_of (mkSys w pairs))
    (forest_of (mkSys (put (after_call rt source (code stopper) c) w') pairs')).
Proof.
  intros Hinv Hi Hp. unfold Context_spawn_task, lite_spawn, alloc_id.
  pose proof (Ids.unique_fresh (net_heap (w_net w))) as Hf.
  destruct (Ids.unique (net_heap (w_net w))) as [c h]. cbn [fst] in Hf.
  destruct (make_stop_channel c (set_heap h (w_net w))) as [[stopper rx] n1] eqn:Hs.
  assert (task_id stopper = c) as Hid by (unfold make_stop_channel in Hs; destruct (alloc_status _); by simplify_eq).
  unfold Tracker.insert_task.
  match goal with |- context [Tracker.insert_record ?c ?r ?t ?n] =>
    destruct (Tracker.insert_record c r t n) as [t' n'] eqn:Ht end.
  pose proof (call_insert rt source cmd k Hp (code stopper) _ _ _ _ _ Ht) as Hnode.
  change (stopper_id (TaskAddress_clone stopper)) with (task_id stopper) in Hnode. rewrite Hid in Hnode.
  match goal with |- forest_step _ ?f =>
    assert (f = set_node i (adopt c (node_of rt))
      (mkForest (fo_nodes (forest_of (mkSys w pairs))) ({[c]} ∪ fo_tasks (forest_of (mkSys w pairs))))) as -> end.
  { unfold forest_of, set_node. cbn. rewrite (ok_id _ _ _ _ (inv_actor _ _ _ Hinv i rt Hi)).
    by rewrite fmap_insert, Hnode, dom_insert_L. }
  apply fs_task; [by apply (forest_node (mkSys w _))|by eapply call_running|].
  apply call_unused; apply eq_None_not_Some; intros [x Hx]; apply Hf.
  - by apply (ok_live _ _ _ _ (inv_actor _ _ _ Hinv c x Hx)).
  - by apply (tk_live _ _ _ (inv_task _ _ _ Hinv c x Hx)).
Qed.

Lemma shutdown_refines o w pairs pairs' i rt source cmd k code :
  sys_inv GNone w pairs → w_actors w !! i = Some rt →
  rt_phase rt = PhHandle source (CDo cmd k) →
  let '(c, w') := Context_shutdown o (rt_context rt) w in
  forest_step (forest_of (mkSys w pairs))
    (forest_of (mkSys (put (after_call rt source code c) w') pairs')).
Proof.
  intros Hinv Hi Hp. pose proof (local_wf _ (ok_local _ _ _ _ (inv_actor _ _ _ Hinv i rt Hi))) as Hwf.
  unfold Context_shutdown, Tracker.start_termination.
  pose proof (Tracker.try_terminate_next_records (ord_groups o) (ord_ids o) (tracker_of rt) (w_net w)) as Hr.
  pose proof (Tracker.try_terminate_next_terminating (ord_groups o) (ord_ids o) (tracker_of rt) (w_net w)) as Ht.
  pose proof (finished_childless (ord_groups o) (ord_ids o) (tracker_of rt) (w_net w) Hwf) as Hc.
  change (ctx_tracker (rt_context rt)) with (tracker_of rt).
  destruct (Tracker.try_terminate_next _ _ _ _) as [t n]. cbn [fst] in *. cbn [with_tracker ctx_tracker].
  match goal with |- forest_step _ (forest_of (mkSys (put (after_call rt source code ?c) _) _)) => set (c' := c) end.
  rewrite (forest_put w (with_net n w) pairs pairs' i rt)
    by (done || exact (ok_id _ _ _ _ (inv_actor _ _ _ Hinv i rt Hi))).
  assert (node_of (after_call rt source code c') =
    settle (mkNode (nd_status (node_of rt)) true (nd_children (node_of rt)))) as ->.
  { unfold node_of at 1. assert (tracker_of (after_call rt source code c') = t) as ->
      by (unfold c'; by destruct (Tracker.is_finished t)).
    rewrite Hr, Ht, (call_status rt source cmd k Hp). unfold settle. cbn [nd_terminating nd_children nd_status andb node_of].
    unfold c'. rewrite Hc. case_bool_decide; [done|]. cbn. unfold status_of, alive. rewrite Hp.
    by destruct source, (ctx_alive (rt_context rt)). }
  apply fs_shutdown; [by apply (forest_node (mkSys w _))|by eapply call_running].
Qed.

Lemma forest_spawn w n' pairs pairs' actor sup p :
  forest_of (mkSys (spawn actor sup p (with_net n' w)) pairs') =
    set_node (pair_id p) new_node (forest_of (mkSys w pairs)).
Proof.
  unfold forest_of, set_node. cbn. rewrite fmap_insert.
  unfold new_node, node_of at 1, status_of, alive. cbn. by rewrite dom_empty_L.
Qed.

(** The system does a step of the specification, or one it does not see. *)
Definition refines (s s' : Sys) : Prop :=
  forest_of s' = forest_of s ∨ forest_step (forest_of s) (forest_of s').

Lemma refines_later s s' j nd :
  refines s s' → fo_nodes (forest_of s) !! j = Some nd →
  ∃ nd', fo_nodes (forest_of s') !! j = Some nd' ∧ later nd nd'.
Proof. intros [->|Hs] Hj; [by exists nd|by eapply forest_step_later]. Qed.

(** The calls that change the forest. *)
Lemma stop_refines w pairs pairs' i rt source cmd k code :
  sys_inv GNone w pairs → w_actors w !! i = Some rt → rt_phase rt = PhHandle source (CDo cmd k) →
  forest_step (forest_of (mkSys w pairs))
    (forest_of (mkSys (put (after_call rt source code (Context_stop (rt_context rt))) w) pairs')).
Proof.
  intros Hinv Hi Hp. rewrite (forest_put w w pairs pairs' i rt)
    by (done || exact (ok_id _ _ _ _ (inv_actor _ _ _ Hinv i rt Hi))).
  assert (node_of (after_call rt source code (Context_stop (rt_context rt))) =
    with_status NdStopping (node_of rt)) as ->.
  { unfold node_of, with_status. f_equal. by rewrite (call_status rt source _ k Hp). }
  apply fs_stop; [by apply (forest_node (mkSys w _))|by eapply call_running].
Qed.

Lemma spawn_actor_refines w pairs pairs' i rt source cmd k code actor group :
  sys_inv GNone w pairs → w_actors w !! i = Some rt → rt_phase rt = PhHandle source (CDo cmd k) →
  let '(a, c, w') := Context_spawn_actor actor group (rt_context rt) w in
  forest_step (forest_of (mkSys w pairs)) (forest_of (mkSys (put (after_call rt source (code a) c) w') pairs')).
Proof.
  intros Hinv Hi Hp. unfold Context_spawn_actor. pose proof (inv_new_pair _ _ _ Hinv) as Hn.
  destruct (AddressPair_new (w_net w)) as [p n']. cbn [fst snd] in Hn.
  pose proof (spawn_addr_refines (with_net n' w) [] pairs pairs' i rt source _ k
    (code (Address_clone (AddressPair_address p))) actor p group Hn Hi Hp) as H'.
  by destruct (Context_spawn_actor_with_addr _ _ _ _ _).
Qed.

Lemma system_spawn_refines w pairs pairs' i rt source cmd k code actor :
  sys_inv GNone w pairs → w_actors w !! i = Some rt → rt_phase rt = PhHandle source (CDo cmd k) →
  let '(a, w') := System_spawn actor w in
  forest_step (forest_of (mkSys w pairs))
    (forest_of (mkSys (put (after_call rt source (code a) (rt_context rt)) w') pairs')).
Proof.
  intros Hinv Hi Hp. unfold System_spawn. pose proof (inv_new_pair _ _ _ Hinv) as Hn.
  destruct (AddressPair_new (w_net w)) as [p n']. cbn [fst snd] in Hn.
  pose proof (inv_pair _ _ _ Hn p ltac:(left)) as Hpok. set (w1 := spawn actor None p (with_net n' w)).
  assert (w_actors w1 !! i = Some rt) as Hi1.
  { simpl. rewrite lookup_insert_ne; [done|]. intros Heq. change (pair_id p = i) in Heq.
    pose proof (pr_actor _ _ Hpok) as Hno. simpl in Hno. congruence. }
  pose proof (inv_spawn (with_net n' w) [] pairs p actor None Hn) as Hsp.
  cbn [spawn_ghost fmap option_fmap option_map app] in Hsp.
  assert (sys_inv GNone w1 pairs) as Hinv1 by by apply Hsp.
  rewrite <-(with_net_id w1). rewrite (call_same w1 pairs i rt source _ k Hinv1 Hi1 Hp _ _ pairs').
  unfold w1. rewrite (forest_spawn w n' pairs).
  apply fs_root, (call_unused (with_net n' w) ((p :: pairs))); apply Hpok.
Qed.

Lemma exec_refines o w pairs pairs' i rt source cmd k :
  sys_inv GNone w pairs → w_actors w !! i = Some rt →
  rt_phase rt = PhHandle source (CDo cmd k) → moves w cmd pairs pairs' →
  let '(rep, c, w') := exec o cmd (rt_context rt) w in
  refines (mkSys w pairs) (mkSys (put (after_call rt source (k rep) c) w') pairs').
Proof.
  intros Hinv Hi Hp Hm. unfold refines.
  assert (∀ code n', forest_of (mkSys (put (after_call rt source code (rt_context rt)) (with_net n' w)) pairs') =
    forest_of (mkSys w pairs)) as Hsame by (intros; by eapply call_same).
  assert (∀ code, forest_of (mkSys (put (after_call rt source code (rt_context rt)) w) pairs') =
    forest_of (mkSys w pairs)) as Hkeep by (intros code; specialize (Hsame code (w_net w)); by rewrite with_net_id in Hsame).
  assert (∀ A (f : Net → A * Net) rep, let '(r, c, w') := on_net f rep (rt_context rt) w in
    forest_of (mkSys (put (after_call rt source (k r) c) w') pairs') = forest_of (mkSys w pairs)) as Hon.
  { intros A f rep. unfold on_net. destruct (f (w_net w)). apply Hsame. }
  pose proof (λ code, spawn_task_refines w pairs pairs' i rt source cmd k code) as Htask.
  destruct cmd; cbn [exec]; try (by left; apply Hkeep);
    try (match goal with |- context [on_net ?f ?r ?c ?w] => specialize (Hon _ f r); destruct (on_net f r c w) as [[]] end;
         by left).
  - inversion Hm; subst; [|done].
    pose proof (spawn_addr_refines w l1 l2 (l1 ++ l2) i rt source _ k (k RepUnit) actor pair group Hinv Hi Hp) as H'.
    destruct (Context_spawn_actor_with_addr _ _ _ _ _). by right.
  - pose proof (spawn_actor_refines w pairs pairs' i rt source _ k (λ a, k (RepAddress a)) actor group Hinv Hi Hp) as H'.
    destruct (Context_spawn_actor _ _ _ _) as [[]]. by right.
  - specialize (Htask (λ t, k (RepTask t)) task tag group Hinv Hi Hp).
    destruct (Context_spawn_task _ _ _ _ _) as [[]]. by right.
  - unfold Context_attach.
    specialize (Htask (λ _, k RepUnit) (StreamForwarder stream (Address_clone (ctx_address (rt_context rt)))) tag group Hinv Hi Hp).
    destruct (Context_spawn_task _ _ _ _ _) as [[]]. by right.
  - unfold Context_track_interaction. specialize (Htask (λ _, k RepUnit) task tag group Hinv Hi Hp).
    destruct (Context_spawn_task _ _ _ _ _) as [[]]. by right.
  - unfold Context_interrupt. destruct (interrupt_by _ _). left. apply Hsame.
  - right. by eapply stop_refines.
  - pose proof (shutdown_refines o w pairs pairs' i rt source _ k (k RepUnit) Hinv Hi Hp) as H'.
    destruct (Context_shutdown _ _ _). by right.
  - pose proof (system_spawn_refines w pairs pairs' i rt source _ k (λ a, k (RepAddress a)) actor Hinv Hi Hp) as H'.
    destruct (System_spawn _ _). by right.
Qed.

(** ** Events *)

(** An event that leaves the context alone. *)
Lemma event_same w w' pairs i rt rt' :
  w_actors w !! i = Some rt → rt_id rt = i → w_actors w' = w_actors w → w_tasks w' = w_tasks w →
  rt_id rt' = rt_id rt → rt_context rt' = rt_context rt → status_of rt' = status_of rt →
  forest_of (mkSys (put rt' w') pairs) = forest_of (mkSys w pairs).
Proof.
  intros Hi Hid Ha Ht Hid' Hc Hs. rewrite (forest_put w w' pairs pairs i rt rt') by congruence.
  apply set_node_same. rewrite (forest_node (mkSys w pairs) i rt Hi). unfold node_of, tracker_of.
  by rewrite Hs, Hc.
Qed.

Lemma begin_handle_cases source e rt :
  rt_id (begin_handle source e rt) = rt_id rt ∧ rt_context (begin_handle source e rt) = rt_context rt ∧
  ((∃ code, rt_phase (begin_handle source e rt) = PhHandle source code) ∨
   ∃ m, rt_phase (begin_handle source e rt) = PhPanic m).
Proof. unfold begin_handle. destruct (Envelope_handle e (rt_actor rt)) as [[]|]; eauto. Qed.

Definition is_awake (source : Source) : bool := match source with SrcAwake => true | _ => false end.

Lemma status_handle rt source code :
  rt_phase rt = PhHandle source code → is_awake source = false →
  status_of rt = if alive rt then NdRunning else NdStopping.
Proof. intros Hp Hs. unfold status_of. rewrite Hp. by destruct source. Qed.

Lemma status_select rt :
  rt_phase rt = PhSelect → status_of rt = if alive rt then NdRunning else NdStopping.
Proof. intros Hp. unfold status_of. by rewrite Hp. Qed.

(** What one choice of the [select] does to the actor. *)
Inductive chosen rt : ActorRuntime → Prop :=
| chosen_quiet q : chosen rt (set_scheduled q rt)
| chosen_handle source code q :
    is_awake source = false → chosen rt (set_phase (PhHandle source code) (set_scheduled q rt))
| chosen_begin source e q :
    is_awake source = false → chosen rt (begin_handle source e (set_scheduled q rt)).

Lemma chosen_same w w' pairs i rt rt' :
  w_actors w !! i = Some rt → rt_id rt = i → w_actors w' = w_actors w → w_tasks w' = w_tasks w →
  rt_phase rt = PhSelect → (∀ m, rt_phase rt' ≠ PhPanic m) → chosen rt rt' →
  forest_of (mkSys (put rt' w') pairs) = forest_of (mkSys w pairs).
Proof.
  intros Hi Hid Ha Ht Hp Hno Hc. apply (event_same w w' pairs i rt rt'); try done.
  - destruct Hc; try done. by destruct (begin_handle_cases source e (set_scheduled q rt)) as [-> _].
  - destruct Hc; try done. by destruct (begin_handle_cases source e (set_scheduled q rt)) as (_ & -> & _).
  - rewrite (status_select rt Hp). destruct Hc as [q|source code q Hs|source e q Hs].
    + by rewrite (status_select (set_scheduled q rt)).
    + by rewrite (status_handle _ source code).
    + destruct (begin_handle_cases source e (set_scheduled q rt)) as (_ & Hc & [[code Hcode]|[m Hm]]).
      * rewrite (status_handle _ source code Hcode Hs). unfold alive. by rewrite Hc.
      * by destruct (Hno m).
Qed.

Lemma set_scheduled_id rt : set_scheduled (rt_scheduled rt) rt = rt.
Proof. by destruct rt. Qed.

(** The end of a child is received. *)
Lemma report_refines o w pairs i rt rt' w' c p n1 :
  sys_inv GNone w pairs → w_actors w !! i = Some rt → rt_phase rt = PhSelect → alive rt = true →
  parcel_operation p = OpDone c → c ∈ reports (w_net w) (queue_of rt) →
  receive_parcel o p rt (with_net n1 w) = (rt', w') → (∀ m, rt_phase rt' ≠ PhPanic m) →
  forest_step (forest_of (mkSys w pairs)) (forest_of (mkSys (put rt' w') pairs)).
Proof.
  intros Hinv Hi Hp Ha Hpo Hc Hr Hno. pose proof (inv_actor _ _ _ Hinv i rt Hi) as Hok.
  assert (tracked rt c) as Ht by (apply (ok_exact_none w i rt c Hok); [by rewrite Hp|by right]).
  pose proof (finished_remove (ord_groups o) (ord_ids o) c (tracker_of rt) n1
    (local_wf _ (ok_local _ _ _ _ Hok)) Ht) as (Hf & Hterm & Hdom).
  unfold receive_parcel in Hr. rewrite Hpo in Hr.
  change (ctx_tracker (rt_context rt)) with (tracker_of rt) in Hr. cbn [w_net with_net] in Hr.
  destruct (Tracker.remove _ _ c (tracker_of rt) n1) as [t n2]. cbn [fst ctx_tracker with_tracker] in *.
  set (c2 := if Tracker.is_finished t then _ else _) in Hr. injection Hr as Hr <-.
  destruct (begin_handle_cases SrcInstant (parcel_envelope p) (set_context c2 rt)) as (B1 & B2 & B3).
  rewrite Hr in B1, B2, B3. destruct B3 as [[code B3]|[m B3]]; [|by destruct (Hno m)].
  rewrite (forest_put w (with_net n2 (with_net n1 w)) pairs pairs i rt rt')
    by (done || rewrite B1; exact (ok_id _ _ _ _ Hok)).
  assert (status_of rt = NdRunning) as Hst by (rewrite (status_select rt Hp); by rewrite Ha).
  assert (node_of rt' = settle (release c (node_of rt))) as ->.
  { unfold node_of. rewrite (status_handle rt' SrcInstant code B3), Hst by done.
    assert (tracker_of rt' = t) as -> by (unfold tracker_of; rewrite B2; unfold c2; by case_match).
    assert (alive rt' = negb (Tracker.is_finished t)) as ->
      by (unfold alive in *; rewrite B2; unfold c2; case_match; [done|exact Ha]).
    rewrite Hterm, Hdom, Hf. unfold settle. cbn. by destruct (_ && _). }
  apply fs_child_over; [by apply (forest_node (mkSys w _))|done|by apply elem_of_dom|].
  apply (inv_ended _ _ _ Hinv) in Hc as (_ & Hct & Hca & _). split; [by apply not_elem_of_dom|].
  intros nd. simpl. rewrite lookup_fmap, fmap_Some. intros (r & Hcr & ->). simpl.
  unfold status_of. by rewrite (Hca r Hcr).
Qed.

Lemma select_refines o now w w' pairs i rt rt' :
  sys_inv GNone w pairs → w_actors w !! i = Some rt → rt_phase rt = PhSelect → alive rt = true →
  select_biased o now rt w = Some (rt', w') → refines (mkSys w pairs) (mkSys (put rt' w') pairs).
Proof.
  intros Hinv Hi Hp Ha Hs. pose proof (inv_actor _ _ _ Hinv i rt Hi) as Hok.
  assert (∀ m, rt_phase rt' ≠ PhPanic m) as Hno.
  { pose proof (inv_select o now w w' pairs i rt rt' Hinv Hi Hp Hs) as Hinv'.
    apply (local_no_panic rt'). eapply (ok_local _ _ _ _ (inv_actor _ _ _ Hinv' (rt_id rt') rt' _)).
    Unshelve. apply lookup_insert_eq. }
  assert (w_actors w' = w_actors w → w_tasks w' = w_tasks w → chosen rt rt' →
    refines (mkSys w pairs) (mkSys (put rt' w') pairs)) as Hquiet.
  { intros. left. apply (chosen_same w w' pairs i rt rt'); try done. exact (ok_id _ _ _ _ Hok). }
  unfold select_biased in Hs. destruct (net_hp (w_net w) !! _) as [ch|] eqn:Hch; simpl in Hs; [|done].
  destruct (recv_cases ch) as [[Hrecv _]|[Hrecv|(p & ch' & Hrecv & Hq & _)]]; rewrite Hrecv in Hs.
  - assert (∀ source e, chosen rt (begin_handle source e rt) ∨ is_awake source = true) as Hb.
    { intros source e. destruct (is_awake source) eqn:E; [by right|left].
      rewrite <-(set_scheduled_id rt) at 2. by apply chosen_begin. }
    destruct (if bool_decide _ then _ else _) as [[|[[e|?]|]] q].
    + destruct (mpsc_recv <$> net_lp (w_net w) !! _) as [[[|[e|]] lch]|]; simplify_eq; apply Hquiet; try done.
      * by destruct (Hb SrcNormal e).
      * rewrite <-(set_scheduled_id rt) at 2. by apply chosen_handle.
    + injection Hs as <- <-. apply Hquiet; try done. by apply chosen_begin.
    + injection Hs as <- <-. apply Hquiet; try done. by apply chosen_quiet.
    + injection Hs as <- <-. apply Hquiet; try done. rewrite <-(set_scheduled_id rt) at 2. by apply chosen_handle.
  - injection Hs as <- <-. apply Hquiet; try done. rewrite <-(set_scheduled_id rt) at 2. by apply chosen_handle.
  - injection Hs as Hs. destruct (parcel_operation p) as [c| |deadline] eqn:Hpo.
    + right. eapply report_refines; try done.
      rewrite (ok_joint _ _ _ _ Hok) in Hch. unfold reports, instant_queue. rewrite Hch, Hq. simpl.
      unfold done_of at 1. rewrite Hpo. left.
    + unfold receive_parcel in Hs. rewrite Hpo in Hs. injection Hs as <- <-. apply Hquiet; try done.
      rewrite <-(set_scheduled_id rt) at 2. by apply chosen_begin.
    + unfold receive_parcel in Hs. rewrite Hpo in Hs. injection Hs as <- <-. apply Hquiet; try done.
      by apply chosen_quiet.
Qed.

(** ** The refinement *)

Lemma returned_refines w pairs i rt source actor res :
  sys_inv GNone w pairs → w_actors w !! i = Some rt → rt_phase rt = PhHandle source (CRet actor res) →
  refines (mkSys w pairs) (mkSys (put (handler_returned source actor res rt) w) pairs).
Proof.
  intros Hinv Hi Hp. pose proof (ok_id _ _ _ _ (inv_actor _ _ _ Hinv i rt Hi)) as Hid.
  pose proof (forest_node (mkSys w pairs) i rt Hi) as Hnode.
  set (rt' := handler_returned source actor res rt).
  assert (rt_id rt' = rt_id rt ∧ rt_context rt' = rt_context rt) as [Hid' Hc]
    by (unfold rt', handler_returned; by destruct source, res).
  unfold refines. destruct (is_awake source && alive rt) eqn:Ha.
  2: { left. apply (event_same w w pairs i rt); try done.
       assert (alive rt' = alive rt) as Hal by (unfold alive; by rewrite Hc).
       unfold status_of. rewrite Hal, Hp. unfold rt', handler_returned.
       destruct source, res; simpl in *; try rewrite Ha; done. }
  right. apply andb_prop in Ha as [Hs Ha]. destruct source; try done.
  rewrite (forest_put w w pairs pairs i rt) by congruence.
  assert (node_of rt' = with_status (if res then NdRunning else NdStopping) (node_of rt)) as ->.
  { unfold node_of, with_status, tracker_of, status_of, alive. rewrite Hc. unfold rt'.
    destruct res; cbn; [|done]. unfold alive in Ha. by rewrite Ha. }
  assert (nd_status (node_of rt) = NdStarting) as Hst by (simpl; unfold status_of; by rewrite Hp, Ha).
  destruct res; [by apply fs_started|by apply fs_failed].
Qed.

Lemma actor_refines o now w w' pairs pairs' i rt rt' :
  sys_inv GNone w pairs → w_actors w !! i = Some rt → actor_step o now rt w = Some (rt', w') →
  phase_moves w (rt_phase rt) pairs pairs' → refines (mkSys w pairs) (mkSys (put rt' w') pairs').
Proof.
  intros Hinv Hi Hs Hm. pose proof (inv_actor _ _ _ Hinv i rt Hi) as Hok.
  pose proof (ok_id _ _ _ _ Hok) as Hid. pose proof (forest_node (mkSys w pairs) i rt Hi) as Hnode.
  unfold actor_step, phase_moves, refines in *.
  destruct (rt_phase rt) as [|source [actor res|cmd k]| | | |] eqn:Hp; [..|done|done].
  - subst pairs'. injection Hs as <- <-. left.
    destruct (local_awake _ (ok_local _ _ _ _ Hok) Hp) as (e & He & Hl). unfold entrypoint_start. rewrite He.
    match goal with |- context [begin_handle SrcAwake e ?r] =>
      destruct (begin_handle_loaded SrcAwake e r Hl) as [code ->] end.
    rewrite (forest_put w w pairs pairs i rt) by done. apply set_node_same. rewrite Hnode.
    unfold node_of, status_of. by rewrite Hp.
  - subst pairs'. injection Hs as <- <-.
    by apply (returned_refines w pairs i rt source actor res).
  - destruct (timing now cmd) as [|t|] eqn:Htm; [| |done].
    2: { apply timing_begins in Htm as [d ->]. assert (pairs' = pairs) as -> by by inversion Hm. injection Hs as <- <-. left.
         apply (event_same w w pairs i rt); try done. unfold status_of. rewrite Hp. by destruct source. }
    pose proof (exec_refines o w pairs pairs' i rt source cmd k Hinv Hi Hp Hm) as He.
    destruct (exec o cmd (rt_context rt) w) as [[rep c] w1]. by injection Hs as <- <-.
  - subst pairs'. destruct (ctx_alive (rt_context rt)) eqn:Ha; [by eapply select_refines|].
    injection Hs as <- <-. left. apply (event_same w w pairs i rt); try done.
    rewrite (status_select rt Hp). unfold alive. by rewrite Ha.
  - subst pairs'. injection Hs as <- <-. right.
    rewrite (forest_put w (with_net (entrypoint_end rt (w_net w)) w) pairs pairs i rt) by done.
    apply (fs_over _ i (node_of rt)); [done|]. simpl. unfold status_of. by rewrite Hp.
Qed.

Lemma step_refines s s' : sys_reachable s → sys_step s s' → refines s s'.
Proof.
  intros Hr Hstep. pose proof (inv_reachable s Hr) as Hinv.
  destruct Hstep as [o now i rt rt' w w' pairs pairs' Hi Hs Hm|i lr res w pairs Hi
    |actor w pairs|n' w pairs Ho|n' w pairs Hg]; cbn [sys_world sys_pairs] in *.
  - by apply (actor_refines o now w w' pairs pairs' i rt rt').
  - right. unfold forest_of at 2. cbn. rewrite dom_delete_L. apply (fs_task_end (forest_of (mkSys w pairs)) i). by apply elem_of_dom.
  - right. unfold System_spawn. pose proof (inv_new_pair _ _ _ Hinv) as Hn.
    destruct (AddressPair_new (w_net w)) as [p n']. cbn [fst snd] in *.
    pose proof (inv_pair _ _ _ Hn p ltac:(left)) as Hp. rewrite (forest_spawn w n' pairs).
    apply fs_root, (call_unused (with_net n' w) (p :: pairs)); apply Hp.
  - by left.
  - by left.
Qed.

(** C9: the framework implements the supervision tree.  Every step of a reachable
    system, which may be a call, an event, the end of an actor or of a task, or
    something done from outside, is seen as one step of the forest or is not seen
    at all.  So nodes start, run, stop and are over in that order, a child is
    released only once it is gone, and a terminating node stops by itself exactly
    when its last child is released. *)
Theorem tree_refinement s s' : sys_reachable s → sys_step s s' → refines s s'.
Proof. apply step_refines. Qed.

(** C16: the life of an actor goes one way.  Whatever happens in the system, a
    node never leaves the forest, its status never goes back (it starts, runs,
    stops and is over), once terminating it stays so, and what is over keeps
    the children it had. *)
Theorem lifecycle_one_way s s' i nd :
  sys_reachable s → rtc sys_step s s' → fo_nodes (forest_of s) !! i = Some nd →
  ∃ nd', fo_nodes (forest_of s') !! i = Some nd' ∧ later nd nd'.
Proof.
  intros Hr Hss. revert nd. induction Hss as [s|s s1 s' Hstep Hss IH]; intros nd Hi; [by exists nd|].
  destruct (refines_later s s1 i nd) as (nd1 & Hnd1 & L1); [by apply step_refines|done|].
  destruct (IH ltac:(by eapply rtc_r) nd1 Hnd1) as (nd' & H' & L'). exists nd'. split; [done|]. by trans nd1.
Qed.
End tree.

#[local] Existing Instance ref_crates.
#[local] Existing Instance sample_app.
#[local] Existing Instance sample_impl.

Lemma child_over_step : sys_step sys_child_over sys_stopped.
Proof.
  apply (advance_step _ _ _ (runtime_of sys_child_over 1)
    (runtime_of sys_stopped 1) (mkWorld (w_net (sys_world sys_stopped))
      (w_actors (sys_world sys_child_over)) (w_tasks (sys_world sys_stopped)))).
  - apply runtime_of_some. vm_compute. reflexivity.
  - vm_compute. reflexivity.
  - vm_compute. reflexivity.
Qed.

(** The root releases its child, and settles. *)
Lemma tree_refinement_witness :
  forest_step (forest_of sys_child_over) (forest_of sys_stopped) ∧
  nd_status (node_of (runtime_of sys_child_over 1)) = NdRunning ∧
  nd_status (node_of (runtime_of sys_stopped 1)) = NdStopping.
Proof.
  split; [|split; vm_compute; reflexivity].
  destruct (tree_refinement sys_child_over sys_stopped) as [Hsame|Hstep]; [..|exact Hstep].
  - apply sys_child_over_reachable.
  - apply child_over_step.
  - exfalso. apply (f_equal (λ f, nd_status <$> fo_nodes f !! 1%positive)) in Hsame.
    vm_compute in Hsame. discriminate.
Defined.

Lemma lifecycle_one_way_witness :
  ∃ nd', fo_nodes (forest_of sys_stopped) !! 1%positive = Some nd' ∧
    later (node_of (runtime_of sys_child_over 1)) nd'.
Proof.
  apply (lifecycle_one_way sys_child_over sys_stopped).
  - apply sys_child_over_reachable.
  - apply rtc_once, child_over_step.
  - apply forest_node, runtime_of_some. vm_compute. reflexivity.
Defined.
