(* ===== verification/System.v ===== *)
(** * system.rs and signal.rs

    [System::spawn] is with the runtime (ActorRuntime.v).  Here: the stream of
    [Ctrl-C] signals, and the loop that waits for an actor or for the signals. *)
From S2P Require Import Prelude Extern Ids Types Linkage Handlers ActorRuntime.

(** [futures::FutureExt::into_stream]: the number of items the stream of a future
    yields.  The documentation: a single element stream. *)
Class IntoStream := {
  into_stream_len : nat;
  into_stream_single : into_stream_len = 1
}.

#[export] Instance ref_into_stream : IntoStream := {| into_stream_len := 1; into_stream_single := eq_refl |}.

Section system.
Context `{!Crates, !App, !IntoStream}.
Implicit Types (n : Net).

(** [CtrlC::stream]: how many signals the stream can deliver; a failure of the
    handler is logged and delivered as a signal. *)
Definition CtrlC_stream : nat := into_stream_len.

(** What happens while [wait_or_interrupt] waits: the user sends [SIGINT], or
    the joiner ends. *)
Inductive WaitEvent : Type := EvCtrlC | EvJoined.

#[export] Instance WaitEvent_eq_dec : EqDecision WaitEvent.
Proof. solve_decision. Defined.

(** The loop of [wait_or_interrupt].  [signals] is what is left of the (fused)
    stream: a branch whose stream is over is never selected again. *)
Fixpoint wait_loop (address : Address) (events : list WaitEvent) (signals : nat)
  (first_attempt : bool) n : poll (result unit Error) * Net :=
  match events with
  | [] => (Pending, n)
  | EvCtrlC :: events =>
    match signals with
    | O => wait_loop address events O first_attempt n
    | S signals =>
      if first_attempt then
        match interrupt_by address n with
        | (Ok _, n) => wait_loop address events signals false n
        | (Err e, n) => (Ready (Err e), n)
        end
      else (Ready (Ok tt), n)
    end
  | EvJoined :: _ => (Ready (Ok tt), n)
  end.

Definition wait_or_interrupt (address : Address) (events : list WaitEvent) n
  : poll (result unit Error) * Net :=
  wait_loop address events CtrlC_stream true n.

(** [System::interrupt] *)
Definition System_interrupt (address : Address) n : result unit Error * Net := interrupt_by address n.

Lemma wait_loop_exhausted address events first n :
  EvJoined ∉ events → wait_loop address events 0 first n = (Pending, n).
Proof.
  induction events as [|[] events IH]; simpl; intros Hin; [done| |set_solver].
  apply IH. set_solver.
Qed.
(** The user asks before the actor ends by itself. *)
Definition asked (events : list WaitEvent) : bool :=
  match events with EvCtrlC :: _ => true | _ => false end.

Lemma wait_loop_later address events n :
  wait_loop address events 0 false n = (if decide (EvJoined ∈ events) then Ready (Ok tt) else Pending, n).
Proof.
  induction events as [|[] events IH]; cbn [wait_loop].
  - rewrite decide_False by set_solver. done.
  - rewrite IH. destruct (decide (EvJoined ∈ events)).
    + by rewrite decide_True by set_solver.
    + by rewrite decide_False by set_solver.
  - by rewrite decide_True by set_solver.
Qed.

Lemma wait_or_interrupt_cases address events n :
  let o := wait_or_interrupt address events n in
  (asked events = false →
    o = (if decide (EvJoined ∈ events) then Ready (Ok tt) else Pending, n)) ∧
  (asked events = true → instant_open n (addr_hp_msg_tx address) = true →
    o.1 = (if decide (EvJoined ∈ events) then Ready (Ok tt) else Pending) ∧
    queued_instant address (Parcel_pack MsgInterrupt) n (Ok tt, o.2)) ∧
  (asked events = true → instant_open n (addr_hp_msg_tx address) = false →
    ∃ e, o = (Ready (Err e), n)).
Proof.
  cbv zeta. unfold wait_or_interrupt, CtrlC_stream. rewrite into_stream_single.
  destruct events as [|[] events]; cbn [wait_loop asked]; split_and!; try done.
  - intros _ Ho. destruct (high_priority_send_open address (Parcel_pack MsgInterrupt) n Ho)
      as (Hr & _ & Hq & Hon).
    change (interrupt_by address n) with (high_priority_send address (Parcel_pack MsgInterrupt) n).
    destruct (high_priority_send _ _ n) as [r n1]. simpl in Hr, Hq, Hon. subst r.
    rewrite wait_loop_later. cbn [fst snd]. split; [|done].
    destruct (decide (EvJoined ∈ events)).
    + by rewrite decide_True by set_solver.
    + by rewrite decide_False by set_solver.
  - intros _ Ho. unfold interrupt_by. rewrite high_priority_send_closed by done. by eexists.
Qed.

(** C12: waiting for an actor.  The first [Ctrl-C] sends the actor one
    interruption, and none is sent when the actor ends first; however many
    signals follow, nothing more is sent and the wait goes on until the actor
    has ended.  It fails only when the actor is already gone at that signal. *)
Theorem wait_or_interrupt_spec address events n :
  let o := wait_or_interrupt address events n in
  (asked events = false →
    o = (if decide (EvJoined ∈ events) then Ready (Ok tt) else Pending, n)) ∧
  (asked events = true → instant_open n (addr_hp_msg_tx address) = true →
    o.1 = (if decide (EvJoined ∈ events) then Ready (Ok tt) else Pending) ∧
    queued_instant address (Parcel_pack MsgInterrupt) n (Ok tt, o.2)) ∧
  (asked events = true → instant_open n (addr_hp_msg_tx address) = false →
    ∃ e, o = (Ready (Err e), n)).
Proof. apply wait_or_interrupt_cases. Qed.

(** [System::spawn_and_wait]; a failure of the wait is logged. *)
Definition System_spawn_and_wait (actor : Actor) (events : list WaitEvent) (w : World) : poll unit * World :=
  let '(address, w) := System_spawn actor w in
  let '(result, n) := wait_or_interrupt address events (w_net w) in
  let w := with_net n w in
  (match result with Ready _ => Ready tt | Pending => Pending end, w).

(** The [Eliminated] handler of [System], which no actor can reach. *)
Definition System_eliminated (id : Id) : outcome unit :=
  Panic "The system has no Address and no one actor actually binded to it.".

(** A standalone actor has no supervisor to tell, and the wait for it returns
    exactly when it has ended: a [Ctrl-C] before that interrupts it once. *)
Theorem spawn_and_wait_spec actor events w :
  net_wf (w_net w) →
  let '(address, w1) := System_spawn actor w in
  let '(r, w2) := System_spawn_and_wait actor events w in
  (rt_done_notifier <$> w_actors w2 !! addr_id address) = Some NIgnore ∧
  r = (if decide (EvJoined ∈ events) then Ready tt else Pending) ∧
  instant_queue (w_net w2) (addr_hp_msg_tx address) =
    (if asked events then [Parcel_pack MsgInterrupt] else []).
Proof.
  intros Hwf. unfold System_spawn_and_wait, System_spawn.
  pose proof (AddressPair_new_spec (w_net w) Hwf) as Hp.
  destruct (AddressPair_new (w_net w)) as [pr n1]. destruct Hp as (_ & (Hi & Hio) & _).
  destruct (wait_or_interrupt_cases (Address_clone (AddressPair_address pr)) events n1) as (Hno & Hyes & _).
  cbn in *. destruct (wait_or_interrupt _ events n1) as [r n2]. cbn in *.
  rewrite lookup_insert_eq. cbn. split; [done|]. destruct (asked events).
  - destruct Hyes as [-> (_ & Hq & _)]; [done..|]. cbn in Hq. unfold Address_clone in Hq. cbn in Hq.
    split; [by destruct (decide _)|]. rewrite Hq. unfold AddressPair_address. by rewrite Hi.
  - injection (Hno eq_refl) as -> ->. split; [by destruct (decide _)|done].
Qed.
End system.

#[local] Existing Instance ref_crates.
#[local] Existing Instance sample_app.

(** Three signals, one interruption. *)
Lemma wait_or_interrupt_spec_witness :
  instant_queue (wait_or_interrupt sample_address [EvCtrlC; EvCtrlC; EvCtrlC] sample_net).2
    (addr_hp_msg_tx sample_address) = [Parcel_pack MsgInterrupt].
Proof.
  destruct (@wait_or_interrupt_spec ref_crates sample_app _ sample_address [EvCtrlC; EvCtrlC; EvCtrlC]
    sample_net) as (_ & H & _).
  by destruct (H eq_refl eq_refl) as [_ (_ & ? & _)].
Defined.
