(* ===== verification/Waiting.v ===== *)
(** * Waiting for a program to end

    [System::spawn_and_wait] on a run of the whole system: the root actor is
    spawned, the user presses [Ctrl-C], and the wait is over in the end. *)
From S2P Require Import Prelude Extern Ids Types Lifecycle Linkage LiteRuntime Handlers ActorRuntime.
From S2P Require Import Tasks NetFrame Invariant Growth Supervision Liveness Evolution Asked Informed.
From S2P Require Import Runs Shutdown System.

Section waiting.
Context `{!Crates, !App, !ActorImpl, !IntoStream}.
Implicit Types (n : Net) (m k : nat) (rt : ActorRuntime) (s : Sys) (tr : nat → Sys) (a : Address).

(** ** Join watches *)

(** The watch at [l] lost its sender: whoever waits for it is released. *)
Record sealed (l : loc) (n : Net) : Prop := {
  sl_bound : (l < net_next n)%positive;
  sl_watch : ∃ x, net_status n !! l = Some x ∧ wv_tx_alive (watch_view x) = false
}.

Lemma sealed_join a n : sealed (rx_loc (addr_join_rx a)) n → join a n = Ready tt.
Proof. intros [_ (x & Hx & Hd)]. unfold join. rewrite Hx. apply wait_stop_ready. by right. Qed.

Lemma sealed_watched l n n' : watched l n n' → sealed l n → sealed l n'.
Proof.
  intros [W1 W2] [S1 (x & Hx & Hd)]. split; [auto|]. destruct (W2 S1 x Hx) as (x' & Hx' & Hadv).
  exists x'. split; [done|]. by apply (adv_tx _ _ Hadv).
Qed.

Lemma sealed_task_end l lr res n : sealed l n → sealed l (lite_entrypoint lr res n).
Proof.
  intros Hl. unfold lite_entrypoint. eapply sealed_watched; [apply rel_notify|].
  destruct Hl as [S1 (x & Hx & Hd)]. set (k := rx_loc _). destruct (net_status n !! k) as [y|] eqn:Hy; [|by split; eauto].
  split; [done|]. simpl. destruct (decide (k = l)) as [Hk|Hk].
  - exists (watch_drop_rx y). rewrite Hk, lookup_insert_eq, watch_drop_rx_view. rewrite Hk, Hx in Hy.
    injection Hy as <-. done.
  - exists x. by rewrite lookup_insert_ne.
Qed.

Lemma sealed_step l s s' : sys_step s s' → sealed l (w_net (sys_world s)) → sealed l (w_net (sys_world s')).
Proof.
  destruct 1 as [o now i rt rt' w w' pairs pairs' Hi Hs Hm|i lr res w pairs Hi|actor w pairs|n' w pairs Ho|n' w pairs Hg];
    cbn [sys_world].
  - apply sealed_watched. simpl. by eapply actor_step_watched.
  - apply sealed_task_end.
  - apply sealed_watched. unfold System_spawn. pose proof (rel_pair (R:=watched l) (w_net w)) as Hp.
    by destruct (AddressPair_new (w_net w)).
  - by apply sealed_watched, rel_outside.
  - by eapply sealed_watched, rel_give_up.
Qed.

(** An actor that ends seals its watch. *)
Lemma sealed_end rt n l :
  joint_join_tx (rt_joint rt) = l → (l < net_next n)%positive → is_Some (net_status n !! l) →
  sealed l (entrypoint_end rt n).
Proof.
  intros Hj Hl Hx. pose proof (entrypoint_end_persists rt n) as [P1 P2]. split; [lia|].
  destruct (P2 l Hl Hx) as [y Hy]. exists y. split; [done|]. revert Hy. unfold entrypoint_end. rewrite Hj.
  match goal with |- context [match net_status ?n0 !! l with Some _ => set_status l _ _ | None => ?n0 end] =>
    generalize n0; intros n1 end.
  destruct (net_status n1 !! l) as [z|] eqn:Hz; [|by rewrite Hz]. simpl. rewrite lookup_insert_eq.
  intros [= <-]. by rewrite watch_drop_tx_view.
Qed.

Definition phase_of (w : World) (i : Id) : option Phase := rt_phase <$> w_actors w !! i.

(** ** The root actor on a run *)

Section root.
Context (tr : nat → Sys) (K : nat) (actor : Actor).
Hypothesis Hrun : is_run tr.
Hypothesis Hspawn : tr (S K) = mkSys (System_spawn actor (sys_world (tr K))).2 (sys_pairs (tr K)).
Abbreviation at_ n := (sys_world (tr n)).
Abbreviation net_at n := (w_net (sys_world (tr n))).
Abbreviation address := (System_spawn actor (at_ K)).1.
Abbreviation joined := (rx_loc (addr_join_rx address)).

Lemma root_spawned : ∃ rt,
  w_actors (at_ (S K)) !! addr_id address = Some rt ∧ rt_phase rt = PhStart ∧
  queue_of rt = addr_hp_msg_tx address ∧ joint_join_tx (rt_joint rt) = joined ∧
  (joined < net_next (net_at (S K)))%positive ∧ is_Some (net_status (net_at (S K)) !! joined).
Proof.
  pose proof (inv_net _ _ _ (run_inv tr Hrun K)) as Hwf. rewrite Hspawn. unfold System_spawn.
  pose proof (AddressPair_new_spec (net_at K) Hwf) as Hp.
  destruct (AddressPair_new (net_at K)) as [p n'].
  destruct Hp as ((_ & _ & Hj) & _ & _ & Hpend & _ & _ & Hwf' & _). cbn.
  assert (is_Some (net_status n' !! rx_loc (addr_join_rx (pair_address p)))) as [x Hx].
  { unfold join in Hpend. by destruct (net_status n' !! _). }
  eexists. split; [by rewrite lookup_insert_eq|]. split; [done|]. split; [done|]. split; [done|]. split; [|by eexists].
  destruct (decide (rx_loc (addr_join_rx (pair_address p)) < net_next n')%positive) as [|Hn]; [done|].
  destruct (Hwf' (rx_loc (addr_join_rx (pair_address p)))) as (_ & _ & Hnone & _); [lia|]. congruence.
Qed.

Lemma root_kept m :
  S K ≤ m → ∃ rt, w_actors (at_ m) !! addr_id address = Some rt ∧
    queue_of rt = addr_hp_msg_tx address ∧ joint_join_tx (rt_joint rt) = joined ∧
    (joined < net_next (net_at m))%positive ∧ is_Some (net_status (net_at m) !! joined).
Proof.
  intros Hm. destruct root_spawned as (rt0 & Hrt0 & _ & Hq & Hj & Hb & Hx).
  destruct (run_kept tr Hrun (S K) m _ rt0 Hm Hrt0) as (rt & Hrt & Hf & _).
  exists rt. split; [done|]. split; [unfold queue_of; by rewrite (fo_self _ _ Hf)|].
  split; [by rewrite (fo_joint _ _ Hf)|]. clear rt Hrt Hf.
  induction Hm as [|m Hm [Hb' Hx']]; [done|]. destruct (proj2 Hrun m) as [Hs| ->]; [|done].
  pose proof (step_persists _ _ Hs) as [P1 P2]. split; [lia|auto].
Qed.

(** When the root is over, whoever joins it is released, for ever. *)
Lemma root_seals m rt :
  S K ≤ m → w_actors (at_ m) !! addr_id address = Some rt → rt_phase rt = PhDone → sealed joined (net_at m).
Proof.
  intros Hm. revert rt. induction Hm as [|m Hm IH]; intros rt Hrt Hd.
  { destruct root_spawned as (rt0 & Hrt0 & Hp & _). congruence. }
  destruct (root_kept m Hm) as (rt0 & Hrt0 & _ & Hj & Hb & Hx).
  destruct (run_frame tr Hrun m _ rt0 Hrt0) as [Hown|[Hkept _ _]].
  - destruct (own_step_inv _ _ _ rt0 Hown (run_reachable tr Hrun m) Hrt0) as (o & now & rt' & w' & Hs & Heq & Hrt').
    assert (rt' = rt) as -> by congruence.
    destruct (actor_step_done _ _ _ _ _ _ Hs Hd) as (_ & _ & Hw).
    rewrite Heq. simpl. rewrite Hw. by apply sealed_end.
  - assert (rt0 = rt) as -> by congruence. specialize (IH rt Hrt0 Hd).
    destruct (proj2 Hrun m) as [Hs| ->]; [by eapply sealed_step|done].
Qed.

Lemma sealed_later l m k : m ≤ k → sealed l (net_at m) → sealed l (net_at k).
Proof.
  intros Hk Hm. induction Hk as [|k Hk IH]; [done|].
  destruct (proj2 Hrun k) as [Hs| ->]; [by eapply sealed_step|done].
Qed.
End root.

(** The interruption that the first [Ctrl-C] sends. *)
Lemma wait_first a n n' :
  wait_or_interrupt a [EvCtrlC] n = (Pending, n') → interrupt_by a n = (Ok tt, n').
Proof.
  unfold wait_or_interrupt, CtrlC_stream. rewrite into_stream_single. simpl.
  by destruct (interrupt_by a n) as [[[]|e] n1]; intros [=]; subst.
Qed.

Lemma interrupt_queued a n n' :
  interrupt_by a n = (Ok tt, n') → interruption ∈ instant_queue n' (addr_hp_msg_tx a).
Proof.
  unfold interrupt_by. intros Hs.
  destruct (high_priority_send_cases a (Parcel_new OpForward MsgInterrupt) n) as [(ch & ch' & _ & _ & _ & Hq & Heq)|[Ho _]];
    [|by rewrite high_priority_send_closed in Hs].
  rewrite Hs in Heq. injection Heq as ->. unfold instant_queue; simpl. rewrite lookup_insert_eq, Hq.
  unfold interruption. set_solver.
Qed.

(** C4: a program ends.  The root actor that [System::spawn] started is interrupted
    by the first [Ctrl-C] of [wait_or_interrupt], which goes on waiting.  On every
    fair run on which the tasks that are told to stop do stop, whose handlers of
    interruptions obey (each shuts its actor down, or stops it), and whose family is
    finite (there are a moment [N] and a finite set [D] of actors of that moment, which
    has the root and every child of its members, and from [N] on no member spawns an
    actor or a task any more), the join that it waits for is ready from some moment on,
    so the wait returns, and not because the root is lost: the root is over. *)
Theorem ctrl_c_ends_program tr (D : gset Id) (N K n : nat) actor :
  is_run tr → fair tr → tasks_stop tr → cooperative → family tr D N →
  tr (S K) = mkSys (System_spawn actor (sys_world (tr K))).2 (sys_pairs (tr K)) → K < n →
  let address := (System_spawn actor (sys_world (tr K))).1 in
  addr_id address ∈ D →
  wait_or_interrupt address [EvCtrlC] (w_net (sys_world (tr n))) = (Pending, w_net (sys_world (tr (S n)))) →
  ∃ m, n < m ∧ ∀ k, m ≤ k → join address (w_net (sys_world (tr k))) = Ready tt ∧
    phase_of (sys_world (tr k)) (addr_id address) = Some PhDone.
Proof.
  intros Hrun Hfair Hstop Hcoop Hfam Hspawn HK address Hin Hwait.
  apply wait_first, interrupt_queued in Hwait.
  destruct (root_kept tr K actor Hrun Hspawn (S n) ltac:(lia)) as (rt & Hrt & Hq & _).
  destruct (family_ends tr D N (S n) _ rt Hrun Hfair Hstop Hcoop Hfam Hin Hrt) as (m & rt' & Hm & Hrt' & Hd).
  { apply asked_queued. by rewrite Hq. }
  exists m. split; [lia|]. intros k Hk. split.
  - apply sealed_join. eapply sealed_later; [done|exact Hk|]. eapply root_seals; [done|done|lia|done..].
  - destruct (run_kept tr Hrun m k _ rt' Hk Hrt') as (rt2 & Hrt2 & _ & Heq). rewrite Heq in Hrt2 by done.
    unfold phase_of. fold address in Hrt2. rewrite Hrt2. simpl. by rewrite Hd.
Qed.
End waiting.

#[local] Existing Instance ref_crates.
#[local] Existing Instance sample_app.
#[local] Existing Instance sample_impl.

(** The sample program: its root is spawned, it spawns a child, and then the user
    presses [Ctrl-C]. *)
Definition awake : Sys := steps 1 2 sys_root.
Definition told : Sys := send_root (MsgInstant (0 : N)%N) awake.
Definition program_start : list Sys :=
  [sys_init; steps 1 0 sys_root; steps 1 1 sys_root; awake; steps 1 0 told; steps 1 1 told; steps 1 2 told; steps 1 3 told; sys_family].

Definition program_run (n : nat) : Sys := nth n program_start (sample_run (n - 9)).

Lemma program_later n : 9 ≤ n → program_run n = sample_run (n - 9).
Proof. intros Hn. by apply nth_overflow. Qed.

Lemma program_cases n : n < 9 ∨ ∃ m, n = 9 + m.
Proof. destruct (decide (n < 9)); [by left|right]. exists (n - 9). lia. Qed.

Lemma program_is_run : is_run program_run.
Proof.
  split; [by apply rtc_refl|]. intros n. destruct (program_cases n) as [Hn|[m ->]].
  - destruct n as [|[|[|[|[|[|[|[|[|n]]]]]]]]]; [..|lia].
    + left. apply step_spawn.
    + exact (steps_cases 1 0 sys_root).
    + exact (steps_cases 1 1 sys_root).
    + left. exact (send_root_step _ awake).
    + exact (steps_cases 1 0 told).
    + exact (steps_cases 1 1 told).
    + exact (steps_cases 1 2 told).
    + exact (steps_cases 1 3 told).
    + left. exact (send_root_step _ sys_family).
  - rewrite !program_later by lia. replace (S (9 + m) - 9) with (S (9 + m - 9)) by lia. apply sample_is_run.
Qed.

Lemma program_fair : fair program_run.
Proof.
  intros i n. destruct (sample_fair i n) as (m & Hm & Hs). exists (9 + m). split; [lia|].
  rewrite !program_later by lia. by replace (S (9 + m) - 9) with (S (9 + m - 9)) by lia;
    replace (9 + m - 9) with m by lia.
Qed.

Lemma program_tasks n : w_tasks (sys_world (program_run n)) = ∅.
Proof.
  destruct (program_cases n) as [Hn|[m ->]].
  - do 9 (destruct n as [|n]; [vm_compute; reflexivity|]). lia.
  - rewrite program_later by lia. pose proof (sample_states (9 + m - 9)) as [Ht _]%andb_prop.
    by apply bool_decide_eq_true in Ht.
Qed.

Lemma program_family : family program_run {[1; 2]}%positive 9.
Proof.
  destruct sample_family as [F1 F2 F3]. split.
  - exact F1.
  - exact F2.
  - intros m j rt Hm. rewrite program_later by done. apply F3. lia.
Qed.

Lemma ctrl_c_ends_program_witness : ∃ m, 8 < m ∧ ∀ k, m ≤ k →
  join root_address (w_net (sys_world (program_run k))) = Ready tt ∧
  phase_of (sys_world (program_run k)) 1%positive = Some PhDone.
Proof.
  apply (ctrl_c_ends_program program_run {[1; 2]}%positive 9 0 8 (5 : N)%N).
  - apply program_is_run.
  - apply program_fair.
  - intros n c lr Hc. by rewrite program_tasks, lookup_empty in Hc.
  - intros a. apply ob_shutdown.
  - apply program_family.
  - reflexivity.
  - lia.
  - set_solver.
  - vm_compute; reflexivity.
Defined.
