(* ===== verification/Thread.v ===== *)
(** * thread.rs: a runtime in a thread of its own

    Two threads: the owner, which drops the [ScopedRuntime], and the one that
    runs [entrypoint].  They share the oneshot notifier and the mutex
    [blocker].  The model is the interleaving of their atomic actions. *)
From S2P Require Import Prelude.

(** The thread of [entrypoint], by the next thing it does. *)
Inductive Entry : Type :=
| EnLock              (* term_rx.blocker.lock() *)
| EnSpawn             (* System::spawn(actor) *)
| EnWait              (* term_rx.notifier_rx.await *)
| EnInterrupt         (* System::interrupt(&handle) *)
| EnJoin              (* handle.join().await *)
| EnEnd.              (* returned: the guard of the mutex and the receiver are dropped *)

#[export] Instance Entry_eq_dec : EqDecision Entry.
Proof. solve_decision. Defined.

(** The owner's [Drop for ScopedRuntime]. *)
Inductive Owner : Type :=
| OwHold              (* the runtime is in use *)
| OwSend              (* sender.notifier_tx.send(()) *)
| OwLock              (* sender.blocker.lock() *)
| OwEnd.

Inductive ActorState : Type := NotSpawned | Running | Interrupting | Finished.

Record Scope : Type := mkScope {
  sc_entry : Entry;
  sc_owner : Owner;
  sc_blocked : bool;        (* the thread of [entrypoint] holds the mutex *)
  sc_sent : bool;           (* the notification was sent *)
  sc_rx_alive : bool;       (* notifier_rx was not dropped *)
  sc_actor : ActorState
}.

Definition scope_init : Scope := mkScope EnLock OwHold false false true NotSpawned.

(** The owner only holds the mutex inside one action: the guard of its [lock]
    is dropped in the same statement. *)
Inductive scope_step : Scope → Scope → Prop :=
| en_lock o s r a :
    scope_step (mkScope EnLock o false s r a) (mkScope EnSpawn o true s r a)
| en_spawn o b s r a :
    scope_step (mkScope EnSpawn o b s r a) (mkScope EnWait o b s r Running)
| en_wait o b r a :
    scope_step (mkScope EnWait o b true r a) (mkScope EnInterrupt o b true r a)
| en_interrupt o b s r :
    scope_step (mkScope EnInterrupt o b s r Running) (mkScope EnJoin o b s r Interrupting)
| en_interrupt_failed o b s r :
    (* the actor is over: the send fails and [?] returns *)
    scope_step (mkScope EnInterrupt o b s r Finished) (mkScope EnEnd o false s false Finished)
| en_join o b s r :
    scope_step (mkScope EnJoin o b s r Finished) (mkScope EnEnd o false s false Finished)
| ac_finish e o b s r a :
    a = Running ∨ a = Interrupting →
    scope_step (mkScope e o b s r a) (mkScope e o b s r Finished)
| ow_drop e b s r a :
    scope_step (mkScope e OwHold b s r a) (mkScope e OwSend b s r a)
| ow_send e b s a :
    scope_step (mkScope e OwSend b s true a) (mkScope e OwLock b true true a)
| ow_send_failed e b s a :
    scope_step (mkScope e OwSend b s false a) (mkScope e OwEnd b s false a)
| ow_lock e s r a :
    scope_step (mkScope e OwLock false s r a) (mkScope e OwEnd false s r a).

Definition scope_reachable : Scope → Prop := rtc scope_step scope_init.

(** The thread started before the drop: it took the mutex. *)
Definition entered (e : Entry) : Prop := e ≠ EnLock.

Record scope_inv (s : Scope) : Prop := {
  inv_lock : sc_blocked s = bool_decide (sc_entry s ≠ EnLock ∧ sc_entry s ≠ EnEnd);
  inv_rx : sc_rx_alive s = bool_decide (sc_entry s ≠ EnEnd);
  inv_end : sc_entry s = EnEnd → sc_actor s = Finished;
  inv_spawned : sc_entry s ≠ EnLock → sc_entry s ≠ EnSpawn → sc_actor s ≠ NotSpawned
}.

Lemma scope_inv_step s s' : scope_inv s → scope_step s s' → scope_inv s'.
Proof.
  intros [Hl Hr He Hs] Hstep. destruct Hstep; simpl in *; split; simpl in *; auto; try done;
    intros; try congruence; naive_solver.
Qed.

Lemma scope_reachable_inv s : scope_reachable s → scope_inv s.
Proof.
  intros Hr. unfold scope_reachable in Hr.
  apply (rtc_ind_r (R:=scope_step) (λ s, scope_inv s) scope_init); [by split|..|done].
  intros; by eapply scope_inv_step.
Qed.

(** What the owner knows: after a successful notification it is there to be
    received, and the notification fails only once [entrypoint] has returned. *)
Record owner_inv (s : Scope) : Prop := {
  inv_sent : sc_owner s = OwLock → sc_sent s = true;
  inv_over : sc_owner s = OwEnd → sc_sent s = true ∨ sc_entry s = EnEnd;
  inv_wait : sc_entry s = EnWait ∨ sc_entry s = EnInterrupt →
    sc_actor s = Running ∨ sc_actor s = Finished;
  inv_join : sc_entry s = EnJoin → sc_actor s = Interrupting ∨ sc_actor s = Finished
}.

Lemma owner_inv_step s s' : scope_inv s → owner_inv s → scope_step s s' → owner_inv s'.
Proof.
  intros [Hl Hr He Hs] [H1 H2 H3 H4] Hstep. destruct Hstep; simpl in *; split; simpl in *; auto;
    intros; try congruence; try (by intuition congruence).
  right. symmetry in Hr. apply bool_decide_eq_false in Hr. by destruct (decide (e = EnEnd)).
Qed.

Lemma scope_reachable_owner s : scope_reachable s → owner_inv s.
Proof.
  intros Hr. assert (scope_inv s ∧ owner_inv s) as [_ ?]; [|done].
  unfold scope_reachable in Hr.
  apply (rtc_ind_r (R:=scope_step) (λ s, scope_inv s ∧ owner_inv s) scope_init); [..|done].
  - split; [by split|]. split; simpl; intuition congruence.
  - intros s1 s2 _ Hstep [Hi Ho]. split; [by eapply scope_inv_step|by eapply owner_inv_step].
Qed.

(** Once [entrypoint] has taken the mutex it keeps it until it returns. *)
Lemma scope_entered_steps s s' :
  scope_inv s → sc_entry s ≠ EnLock → sc_owner s ≠ OwEnd → rtc scope_step s s' →
  sc_entry s' ≠ EnLock ∧ scope_inv s' ∧ (sc_owner s' = OwEnd → sc_entry s' = EnEnd).
Proof.
  intros Hi He Ho Hs. revert Hi He.
  assert (sc_owner s = OwEnd → sc_entry s = EnEnd) as Hend by done. clear Ho. revert Hend.
  induction Hs as [s|s s1 s2 Hstep _ IH]; [done|]. intros Hend Hi He.
  pose proof (scope_inv_step _ _ Hi Hstep) as Hi1. apply IH; [|done|].
  - destruct Hi as [Hl Hr _ _]. destruct Hstep; simpl in *; try done; intros ?; simplify_eq;
      try (specialize (Hend eq_refl)); try done.
    + symmetry in Hr. apply bool_decide_eq_false in Hr. destruct e; naive_solver.
    + symmetry in Hl. apply bool_decide_eq_false in Hl. destruct e; naive_solver.
  - destruct Hstep; simpl in *; congruence.
Qed.

(** C32: dropping the scoped runtime waits for the actor.  When the thread of
    [entrypoint] has started (it holds the mutex) before the drop ends, the drop
    does not end before the actor is finished and [entrypoint] has returned. *)
Theorem scope_drop_waits s s' :
  scope_reachable s → sc_entry s ≠ EnLock → sc_owner s ≠ OwEnd →
  rtc scope_step s s' → sc_owner s' = OwEnd →
  sc_entry s' = EnEnd ∧ sc_actor s' = Finished.
Proof.
  intros Hr He Ho Hs Hend.
  destruct (scope_entered_steps s s' (scope_reachable_inv s Hr) He Ho Hs) as (_ & [_ _ Hfin _] & Hen).
  split; [auto|]. auto.
Qed.

(** The drop never deadlocks.  As long as one of the two threads is not over,
    some step is possible once the drop has begun: the notification is never
    lost, and the mutex is always released. *)
Theorem scope_no_deadlock s :
  scope_reachable s → sc_owner s ≠ OwHold →
  (sc_owner s = OwEnd ∧ sc_entry s = EnEnd ∧ sc_actor s = Finished) ∨ ∃ s', scope_step s s'.
Proof.
  intros Hr Ho. pose proof (scope_reachable_inv s Hr) as [Hl Hx He Hs].
  pose proof (scope_reachable_owner s Hr) as [H1 H2 H3 H4].
  destruct s as [e o b sent r a]; simpl in *.
  destruct e.
  - rewrite bool_decide_eq_false_2 in Hl by naive_solver. subst b. right. eexists. apply en_lock.
  - right. eexists. apply en_spawn.
  - destruct sent; [right; eexists; apply en_wait|].
    destruct o; [done|..|naive_solver|naive_solver].
    right. rewrite bool_decide_eq_true_2 in Hx by done. subst r. eexists. apply ow_send.
  - right. destruct H3 as [->| ->]; [auto|..]; eexists; [apply en_interrupt|apply en_interrupt_failed].
  - right. destruct H4 as [->| ->]; [auto|..]; eexists; [apply ac_finish; auto|apply en_join].
  - rewrite bool_decide_eq_false_2 in Hl by naive_solver.
    rewrite bool_decide_eq_false_2 in Hx by naive_solver. subst b r.
    destruct o; [done|right; eexists; apply ow_send_failed|right; eexists; apply ow_lock|].
    left. auto.
Qed.

(** C33: the race at the start.  When the drop comes before the thread has taken
    the mutex, it ends without waiting: the owner goes on, and the actor can be
    spawned, and run, afterwards. *)
Theorem scope_drop_race :
  ∃ s s', scope_reachable s ∧ sc_owner s = OwEnd ∧ sc_actor s = NotSpawned ∧
    rtc scope_step s s' ∧ sc_owner s' = OwEnd ∧ sc_actor s' = Running.
Proof.
  exists (mkScope EnLock OwEnd false true true NotSpawned), (mkScope EnWait OwEnd true true true Running).
  split; [|split; [done|split; [done|split; [|done]]]].
  - unfold scope_reachable, scope_init. eapply rtc_l; [apply ow_drop|].
    eapply rtc_l; [apply ow_send|]. eapply rtc_l; [apply ow_lock|]. reflexivity.
  - eapply rtc_l; [apply en_lock|]. eapply rtc_l; [apply en_spawn|]. reflexivity.
Qed.

Lemma scope_drop_waits_witness :
  let s := mkScope EnSpawn OwHold true false true NotSpawned in
  let s' := mkScope EnEnd OwEnd false true false Finished in
  scope_reachable s ∧ rtc scope_step s s' ∧ sc_actor s' = Finished.
Proof.
  cbv zeta.
  assert (scope_reachable (mkScope EnSpawn OwHold true false true NotSpawned)) as Hr
    by (eapply rtc_l; [apply en_lock|reflexivity]).
  assert (rtc scope_step (mkScope EnSpawn OwHold true false true NotSpawned)
            (mkScope EnEnd OwEnd false true false Finished)) as Hs.
  { eapply rtc_l; [apply en_spawn|]. eapply rtc_l; [apply ow_drop|]. eapply rtc_l; [apply ow_send|].
    eapply rtc_l; [apply en_wait|]. eapply rtc_l; [apply en_interrupt|].
    eapply rtc_l; [apply ac_finish; auto|]. eapply rtc_l; [apply en_join|].
    eapply rtc_l; [apply ow_lock|]. reflexivity. }
  split; [done|]. split; [done|].
  by apply (scope_drop_waits _ _ Hr ltac:(done) ltac:(done) Hs).
Defined.

Lemma scope_no_deadlock_witness :
  ∃ s', scope_step (mkScope EnLock OwSend false false true NotSpawned) s'.
Proof.
  destruct (scope_no_deadlock (mkScope EnLock OwSend false false true NotSpawned)) as [(? & _)|H];
    [|done|done|exact H].
  eapply rtc_l; [apply ow_drop|reflexivity].
Defined.
