(* ===== verification/Route.v ===== *)
(** * meio-connect: routing of HTTP requests

    server/route.rs, and the service of server/routine.rs that looks for the
    route of a request and turns what the route gives into a response.  hyper,
    slab and serde_qs are interfaces. *)
From S2P Require Import Prelude Extern Ids Types Linkage.

(** ** hyper and headers *)

Class Hyper := {
  Request : Type;
  Body : Type;
  Response : Type;
  WsKey : Type;                                        (* headers::SecWebsocketKey *)
  WsAccept : Type;                                     (* headers::SecWebsocketAccept *)
  uri_path : Request → string;
  uri_query : Request → option string;
  has_upgrade : Request → bool;                        (* typed_get::<Upgrade>() is some *)
  sec_websocket_key : Request → option WsKey;
  into_body : Request → Body;
  body_empty : Body;
  body_from : string → Body;
  accept_from : WsKey → WsAccept;
  response_new : Body → Response;
  set_status : N → Response → Response;
  set_connection_upgrade : Response → Response;
  set_upgrade_websocket : Response → Response;
  set_websocket_accept : WsAccept → Response → Response;
  response_status : Response → N;
  response_body : Response → Body;
  response_new_status : ∀ b, response_status (response_new b) = 200%N;
  response_new_body : ∀ b, response_body (response_new b) = b;
  set_status_status : ∀ s r, response_status (set_status s r) = s;
  set_status_body : ∀ s r, response_body (set_status s r) = response_body r;
  set_connection_status : ∀ r, response_status (set_connection_upgrade r) = response_status r;
  set_upgrade_status : ∀ r, response_status (set_upgrade_websocket r) = response_status r;
  set_accept_status : ∀ a r, response_status (set_websocket_accept a r) = response_status r
}.

Definition NOT_FOUND : N := 404.
Definition INTERNAL_SERVER_ERROR : N := 500.
Definition BAD_REQUEST : N := 400.
Definition SWITCHING_PROTOCOLS : N := 101.

(** ** slab: only [insert] and [iter] are used, so no slot is ever vacant *)

Class Slab (Sl : Type → Type) := {
  slab_values : ∀ {A}, Sl A → list A;                  (* iter, in the order of the keys *)
  slab_new : ∀ {A}, Sl A;
  slab_insert : ∀ {A}, A → Sl A → Sl A;
  slab_new_values : ∀ {A}, slab_values (A:=A) slab_new = [];
  slab_insert_values : ∀ {A} (a : A) s, slab_values (slab_insert a s) = slab_values s ++ [a]
}.

(** [RouteError] *)
Record RouteError : Type := mkRouteError { re_path : string; re_query : string; re_reason : string }.

Definition RouteError_new (path query reason : string) : RouteError := mkRouteError path query reason.

Section route.
Context `{!Crates, !App, !Hyper}.
Context {Sl : Type → Type} `{!Slab Sl}.
Variable SocketAddr : Type.
(** [From<RouteError>] and [Display] of an [anyhow::Error] *)
Variable err_route : RouteError → Error.
Variable error_text : Error → string.

(** ** FromRequest and DirectPath *)

Record FromRequest : Type := mkFromRequest {
  fr_Output : Type;
  from_request : Request → option (result fr_Output Error)
}.

(** [DirectPath], with the deserialiser of its output ([serde_qs::from_str]; the
    error is its text). *)
Record DirectPath : Type := mkDirectPath {
  dp_Output : Type;
  dp_paths : list string;
  dp_from_qs : string → result dp_Output string
}.

(** The blanket implementation of [FromRequest] for a [DirectPath]. *)
Definition direct_from_request (d : DirectPath) (request : Request)
  : option (result (dp_Output d) Error) :=
  let path := uri_path request in
  if existsb (λ p, bool_decide (p = path)) (dp_paths d) then
    let query := default "" (uri_query request) in
    let output := map_err (λ err, err_route (RouteError_new path query err)) (dp_from_qs d query) in
    Some output
  else None.

Definition DirectPath_extractor (d : DirectPath) : FromRequest :=
  mkFromRequest (dp_Output d) (direct_from_request d).

(** ** Routes *)

(** The future of a matched route: ready with an error or a response, or the
    reply of an interaction with an actor. *)
Inductive RouteFut : Type :=
| FutErr (e : Error)
| FutReady (response : Response)
| FutRecv (recipient : Address) (request : Payload).

Definition RouteResult : Type := result RouteFut Request.
Definition Route : Type := SocketAddr → Request → RouteResult.

(** [Req]: the request of the interaction of a route. *)
Record Req (Out : Type) : Type := mkReq { req_addr : SocketAddr; req_data : Out; req_body : Body }.
Arguments mkReq {Out} _ _ _.

Record WebRoute : Type := mkWebRoute {
  wr_extractor : FromRequest;
  wr_address : Address;
  wr_req : Req (fr_Output wr_extractor) → Payload
}.

Definition WebRoute_try_route (r : WebRoute) : Route := λ addr request,
  match from_request (wr_extractor r) request with
  | Some (Ok data) =>
    let msg := mkReq addr data (into_body request) in
    Ok (FutRecv (wr_address r) (wr_req r msg))
  | None => Err request
  | Some (Err err) => Ok (FutErr err)
  end.

(** ** RoutingTable *)

(** The tables live in a store: the clones of a [RoutingTable] share one slab
    behind an [Arc] and a lock, which is held for the whole of an insertion and
    the whole of a search. *)
Abbreviation TableStore := (gmap loc (Sl Route)) (only parsing).

Record RoutingTable : Type := mkRoutingTable { routes : loc }.

Definition RoutingTable_default (s : TableStore) : RoutingTable * TableStore :=
  let l := fresh (dom s) in (mkRoutingTable l, <[l := slab_new]> s).
(** The derived [Clone]. *)
Definition RoutingTable_clone (t : RoutingTable) : RoutingTable := mkRoutingTable (routes t).
Definition insert_route (route : Route) (t : RoutingTable) (s : TableStore) : TableStore :=
  alter (slab_insert route) (routes t) s.
(** [RoutingTable::routes], and the iteration over what it gives. *)
Definition table_routes (t : RoutingTable) (s : TableStore) : list Route :=
  match s !! routes t with Some sl => slab_values sl | None => [] end.

(** ** Svc *)

Record Svc : Type := mkSvc { svc_addr : SocketAddr; svc_routing_table : RoutingTable }.

Definition Svc_poll_ready {E} (v : Svc) : poll (result unit E) := Ready (Ok tt).

(** The loop over the routes; [opt_req] is taken by each route in turn. *)
Fixpoint find_route (addr : SocketAddr) (rs : list Route) (opt_req : option Request)
  : option RouteFut :=
  match rs with
  | [] => None
  | r :: rs =>
    match opt_req with
    | Some req =>
      match r addr req with
      | Ok fut => Some fut
      | Err req => find_route addr rs (Some req)
      end
    | None => find_route addr rs None
    end
  end.

(** [Svc::call]: the response, [await] being what the future of a route ends
    with. *)
Definition Svc_call (await : RouteFut → result Response Error) (v : Svc)
  (s : TableStore) (req : Request) : Response :=
  let routing_table := RoutingTable_clone (svc_routing_table v) in
  let addr := svc_addr v in
  match find_route addr (table_routes routing_table s) (Some req) with
  | Some route =>
    match await route with
    | Ok resp => resp
    | Err err =>
      let reason := body_from (error_text err) in
      set_status INTERNAL_SERVER_ERROR (response_new reason)
    end
  | None => set_status NOT_FOUND (response_new body_empty)
  end.

(** [MakeSvc]: the service of one connection. *)
Record MakeSvc : Type := mkMakeSvc { ms_routing_table : RoutingTable }.

Definition MakeSvc_poll_ready {E} (m : MakeSvc) : poll (result unit E) := Ready (Ok tt).
Definition MakeSvc_call (remote_addr : SocketAddr) (m : MakeSvc) : Svc :=
  let routing_table := RoutingTable_clone (ms_routing_table m) in
  mkSvc remote_addr routing_table.

Lemma table_routes_insert r t t' s :
  is_Some (s !! routes t) →
  table_routes t' (insert_route r t s) =
    if decide (routes t' = routes t) then table_routes t s ++ [r] else table_routes t' s.
Proof.
  intros [sl Hs]. unfold table_routes, insert_route. case_decide as Ht.
  - rewrite Ht, lookup_alter_eq, Hs. simpl. apply slab_insert_values.
  - by rewrite lookup_alter_ne.
Qed.

Lemma RoutingTable_default_spec s :
  let '(t, s') := RoutingTable_default s in
  s !! routes t = None ∧ is_Some (s' !! routes t) ∧ table_routes t s' = [].
Proof.
  unfold RoutingTable_default, table_routes. cbn [routes]. rewrite lookup_insert_eq.
  split; [apply not_elem_of_dom, is_fresh|]. split; [by eexists|apply slab_new_values].
Qed.

(** A route that hands a request it does not match back as it was. *)
Definition honest (r : Route) : Prop := ∀ addr req req', r addr req = Err req' → req' = req.

Lemma WebRoute_honest r : honest (WebRoute_try_route r).
Proof.
  intros addr req req'. unfold WebRoute_try_route.
  destruct (from_request _ req) as [[]|]; congruence.
Qed.

Lemma find_route_first addr rs req :
  Forall honest rs →
  find_route addr rs (Some req) =
    head (omap (λ r : Route, match r addr req with Ok fut => Some fut | Err _ => None end) rs).
Proof.
  induction 1 as [|r rs Hr _ IH]; simpl; [done|].
  destruct (r addr req) as [fut|req'] eqn:E; [done|]. by apply Hr in E as ->.
Qed.

Lemma direct_matches d req :
  is_Some (direct_from_request d req) ↔ uri_path req ∈ dp_paths d.
Proof.
  unfold direct_from_request.
  destruct (existsb _ _) eqn:E.
  - apply existsb_exists in E as (p & Hp & <-%bool_decide_eq_true).
    split; [intros _; by apply list_elem_of_In|by eexists].
  - split; [by intros []|]. intros Hin%list_elem_of_In.
    assert (existsb (λ p, bool_decide (p = uri_path req)) (dp_paths d) = true) as Ht; [|congruence].
    apply existsb_exists. exists (uri_path req). by rewrite bool_decide_eq_true_2.
Qed.
Lemma find_route_none addr rs req :
  Forall honest rs → find_route addr rs (Some req) = None ↔
    ∀ r : Route, r ∈ rs → is_err (r addr req) = true.
Proof.
  induction 1 as [|r rs Hr _ IH]; simpl; [split; [intros _ r Hr; set_solver|done]|].
  destruct (r addr req) as [fut|req'] eqn:E.
  - split; [done|]. intros Hall. pose proof (Hall r ltac:(left)) as Hx. by rewrite E in Hx.
  - apply Hr in E as E'. subst req'. rewrite IH. split; [|intros Hall r' Hr'; apply Hall; set_solver].
    intros Hall r' [->|?]%elem_of_cons; [by rewrite E|auto].
Qed.

Lemma find_route_app addr rs rs' req :
  Forall honest rs → find_route addr (rs ++ rs') (Some req) =
    match find_route addr rs (Some req) with
    | Some fut => Some fut
    | None => find_route addr rs' (Some req)
    end.
Proof.
  induction 1 as [|r rs Hr _ IH]; simpl; [done|].
  destruct (r addr req) as [fut|req'] eqn:E; [done|]. apply Hr in E. by subst req'.
Qed.

(** The response made of what the future of a route ends with. *)
Definition answer (r : result Response Error) : Response :=
  match r with
  | Ok resp => resp
  | Err err => set_status INTERNAL_SERVER_ERROR (response_new (body_from (error_text err)))
  end.

(** Routing a request.  The first route of the table that matches answers,
    whatever the later ones are: with its response, or, when it fails, with
    status 500 and the text of its error; a request no route matches is answered
    with status 404 and an empty body; and a route added later only gets the
    requests no earlier one matched. *)
Theorem Svc_call_spec await v s req :
  Forall honest (table_routes (svc_routing_table v) s) → is_Some (s !! routes (svc_routing_table v)) →
  let t := svc_routing_table v in
  let misses (r : Route) := is_err (r (svc_addr v) req) = true in
  (∀ k (r : Route) fut, table_routes t s !! k = Some r → r (svc_addr v) req = Ok fut →
    (∀ j (r' : Route), j < k → table_routes t s !! j = Some r' → misses r') →
    Svc_call await v s req = answer (await fut)) ∧
  ((∀ r : Route, r ∈ table_routes t s → misses r) →
    response_status (Svc_call await v s req) = NOT_FOUND ∧
    response_body (Svc_call await v s req) = body_empty ∧
    ∀ (r : Route) fut, r (svc_addr v) req = Ok fut →
      Svc_call await v (insert_route r t s) req = answer (await fut)) ∧
  (∀ r : Route, ¬ (∀ r' : Route, r' ∈ table_routes t s → misses r') →
    Svc_call await v (insert_route r t s) req = Svc_call await v s req).
Proof.
  intros Hh Ht. cbv zeta. pose proof (find_route_none (svc_addr v) _ req Hh) as Hnone.
  unfold Svc_call, RoutingTable_clone; cbn [routes].
  assert (∀ r, table_routes (mkRoutingTable (routes (svc_routing_table v)))
    (insert_route r (svc_routing_table v) s) = table_routes (svc_routing_table v) s ++ [r]) as Hins
    by (intros r; by rewrite table_routes_insert, decide_True).
  setoid_rewrite Hins. destruct (svc_routing_table v) as [l]. cbn [routes] in *.
  split; [|split].
  - intros k r fut Hk Hr Hfirst. apply list_elem_of_split_length in Hk as (l1 & l2 & Hl & Hlen).
    rewrite Hl in Hh, Hfirst |- *. apply Forall_app in Hh as [Hh1 _].
    rewrite find_route_app by done.
    destruct (find_route_none (svc_addr v) l1 req Hh1) as [_ ->].
    + simpl. by rewrite Hr.
    + intros r' (j & Hj)%list_elem_of_lookup. apply (Hfirst j r').
      * apply lookup_lt_Some in Hj. lia.
      * by rewrite lookup_app_l by (by eapply lookup_lt_Some).
  - intros Hall. apply Hnone in Hall. rewrite Hall.
    rewrite set_status_status, set_status_body, response_new_body. split; [done|]. split; [done|].
    intros r fut Hr. rewrite find_route_app, Hall by done. simpl. by rewrite Hr.
  - intros r Hsome. rewrite find_route_app by done.
    by destruct (find_route (svc_addr v) (table_routes _ s) (Some req)); [|destruct Hsome; apply Hnone].
Qed.

(** A route to an actor.  A [WebRoute] on a [DirectPath] takes exactly the
    requests whose path is one of its paths: the query (empty when there is
    none) is deserialised, its data is sent to the actor as an interaction, and
    an error of the deserialiser becomes an error that names the path, the query
    and the reason; any other request is handed back unchanged. *)
Theorem WebRoute_spec d address
  (mk : Req (fr_Output (DirectPath_extractor d)) → Payload) addr req :
  let r := WebRoute_try_route (mkWebRoute (DirectPath_extractor d) address mk) in
  honest r ∧
  (uri_path req ∉ dp_paths d → r addr req = Err req) ∧
  (uri_path req ∈ dp_paths d →
    (∀ data, dp_from_qs d (default "" (uri_query req)) = Ok data →
      r addr req = Ok (FutRecv address (mk (mkReq addr data (into_body req))))) ∧
    (∀ reason, dp_from_qs d (default "" (uri_query req)) = Err reason →
      r addr req = Ok (FutErr (err_route
        (mkRouteError (uri_path req) (default "" (uri_query req)) reason))))).
Proof.
  cbv zeta. split; [apply WebRoute_honest|].
  pose proof (direct_matches d req) as Hm. unfold WebRoute_try_route.
  cbn [wr_extractor wr_address wr_req from_request DirectPath_extractor].
  split.
  - intros Hn. destruct (direct_from_request d req) eqn:E; [|done].
    destruct Hn. apply Hm. by eexists.
  - intros Hin%Hm. unfold direct_from_request in *.
    destruct (existsb _ _); [|by destruct Hin]. split; intros ? ->; done.
Qed.
End route.

(** ** A reference for the witnesses *)

Module SampleHttp.
(** A request: path, query, whether it asks for an upgrade, the key, the body. *)
Record SampleRequest : Type := mkSampleRequest {
  q_path : string; q_query : option string; q_upgrade : bool; q_key : option string; q_body : string
}.

Record Resp : Type := mkResp {
  p_status : N; p_connection : bool; p_upgrade : bool; p_accept : option string; p_body : string
}.

#[export] Program Instance sample_hyper : Hyper := {|
  Request := SampleRequest; Body := string; Response := Resp; WsKey := string; WsAccept := string;
  uri_path := q_path; uri_query := q_query; has_upgrade := q_upgrade;
  sec_websocket_key := q_key; into_body := q_body;
  body_empty := ""; body_from s := s; accept_from k := k;
  response_new b := mkResp 200 false false None b;
  set_status s r := mkResp s (p_connection r) (p_upgrade r) (p_accept r) (p_body r);
  set_connection_upgrade r := mkResp (p_status r) true (p_upgrade r) (p_accept r) (p_body r);
  set_upgrade_websocket r := mkResp (p_status r) (p_connection r) true (p_accept r) (p_body r);
  set_websocket_accept a r := mkResp (p_status r) (p_connection r) (p_upgrade r) (Some a) (p_body r);
  response_status := p_status; response_body := p_body
|}.
Solve All Obligations with done.

#[export] Program Instance sample_slab : Slab list := {|
  slab_values A l := l; slab_new A := []; slab_insert A a l := l ++ [a]
|}.
Solve All Obligations with done.

(** A path whose data is its query; the query "bad" is an error. *)
Definition sample_path : DirectPath :=
  mkDirectPath string ["/a"; "/b"]%string
    (λ q, if decide (q = "bad"%string) then Err "no"%string else Ok q).

Definition sample_req (path query : string) : SampleRequest := mkSampleRequest path (Some query) false None "".
End SampleHttp.

#[local] Existing Instance ref_crates.
#[local] Existing Instance sample_app.
Import SampleHttp.

Definition ok_response : Response := mkResp 200 false false None "ok".

Definition sample_mk (r : Req N string) : Payload := N.of_nat (String.length (req_data _ _ r)).

Definition sample_route : Route N :=
  WebRoute_try_route N (mkWebRoute N (DirectPath_extractor (λ e, err_msg (re_reason e)) sample_path)
                          sample_address sample_mk).

(** A table with the sample route. *)
Definition sample_table : RoutingTable * gmap loc (list (Route N)) :=
  let '(t, s) := RoutingTable_default N (Sl:=list) ∅ in (t, insert_route N sample_route t s).
Definition sample_svc : Svc N := mkSvc N 0%N sample_table.1.

Lemma Svc_call_spec_witness :
  response_status (Svc_call N (λ _, ""%string) (λ _, Ok ok_response) sample_svc sample_table.2
    (sample_req "/c" "")) = 404%N.
Proof.
  destruct (Svc_call_spec N (λ _, ""%string) (λ _, Ok ok_response) sample_svc sample_table.2
    (sample_req "/c" "")) as (_ & H & _).
  - constructor; [apply WebRoute_honest|constructor].
  - by eexists.
  - apply H. intros r ->%list_elem_of_singleton. reflexivity.
Defined.

Lemma WebRoute_spec_witness :
  sample_route 0%N (sample_req "/b" "bad") = Ok (FutErr (err_msg "no")).
Proof.
  destruct (@WebRoute_spec ref_crates sample_app sample_hyper N (λ e, err_msg (re_reason e)) sample_path sample_address
    sample_mk 0%N (sample_req "/b" "bad")) as (_ & _ & H).
  destruct H as [_ H]; [set_solver|]. exact (H "no"%string eq_refl).
Defined.
