(* ===== verification/Talker.v ===== *)
(** * meio-connect: talker.rs

    The loop both ends of a WebSocket connection run: it forwards what the
    connection receives to an actor, sends what the program queued, and drains
    both sides before it ends.  The channel of the queued messages, the socket
    and the network are shared with the rest of the program: between two polls
    of the loop anything may happen to them. *)
From S2P Require Import Prelude Extern Ids Types Linkage LiteRuntime.

(** [TermReason] *)
Inductive TermReason : Type := TrInterrupted | TrClosed.

#[export] Instance TermReason_eq_dec : EqDecision TermReason.
Proof. solve_decision. Defined.

Definition TermReason_is_interrupted (r : TermReason) : bool := bool_decide (r = TrInterrupted).

(** [WsMessage]: the operations the talker uses on a message of the connection. *)
Class WsMessage (M : Type) := {
  ws_binary : list Byte.byte → M;
  ws_is_ping : M → bool;
  ws_is_pong : M → bool;
  ws_is_text : M → bool;
  ws_is_binary : M → bool;
  ws_is_close : M → bool;
  ws_into_bytes : M → list Byte.byte
}.

(** [meio_protocol::ProtocolCodec], for the two types of a protocol. *)
Class ProtocolCodec (Error Incoming Outgoing : Type) := {
  decode : list Byte.byte → result Incoming Error;
  encode : Outgoing → result (list Byte.byte) Error
}.

(** The socket of a connection, a stream and a sink of messages.  [network]
    is what may happen to it from outside; [arrivals] what that brings. *)
Record WsView (M Error : Type) : Type := mkWsView {
  sk_inbound : list (result M Error);   (* arrived and not yet yielded, oldest first *)
  sk_eof : bool;                        (* nothing arrives any more *)
  sk_sent : list M;                     (* accepted by [send], oldest first *)
  sk_close_sent : bool                  (* [close] has succeeded *)
}.
Arguments mkWsView {M Error} _ _ _ _.
Arguments sk_inbound {M Error} _.
Arguments sk_eof {M Error} _.
Arguments sk_sent {M Error} _.
Arguments sk_close_sent {M Error} _.

Class WsStream (Conn M Error Act : Type) := {
  ws_view : Conn → WsView M Error;
  ws_next : Conn → poll (option (result M Error)) * Conn;
  ws_send : M → Conn → result unit Error * Conn;
  ws_close : Conn → result unit Error * Conn;
  network : Act → Conn → Conn;
  arrivals : Act → Conn → list (result M Error);
  ws_next_some : ∀ c r q, sk_inbound (ws_view c) = r :: q → ∃ c', ws_next c = (Ready (Some r), c') ∧
    ws_view c' = mkWsView q (sk_eof (ws_view c)) (sk_sent (ws_view c)) (sk_close_sent (ws_view c));
  ws_next_empty : ∀ c, sk_inbound (ws_view c) = [] →
    ws_next c = (if sk_eof (ws_view c) then Ready None else Pending, c);
  ws_send_view : ∀ m c, let '(r, c') := ws_send m c in
    ws_view c' = mkWsView (sk_inbound (ws_view c)) (sk_eof (ws_view c))
      (sk_sent (ws_view c) ++ if is_ok r then [m] else []) (sk_close_sent (ws_view c));
  ws_close_view : ∀ c, let '(r, c') := ws_close c in
    ws_view c' = mkWsView (sk_inbound (ws_view c)) (sk_eof (ws_view c))
      (sk_sent (ws_view c)) (sk_close_sent (ws_view c) || is_ok r);
  network_view : ∀ a c,
    sk_inbound (ws_view (network a c)) = sk_inbound (ws_view c) ++ arrivals a c ∧
    sk_sent (ws_view (network a c)) = sk_sent (ws_view c) ∧
    sk_close_sent (ws_view (network a c)) = sk_close_sent (ws_view c) ∧
    (sk_eof (ws_view c) = true → arrivals a c = [] ∧ sk_eof (ws_view (network a c)) = true)
}.

Section talker.
Context `{!Crates, !App}.
Context {Conn M Act Incoming Outgoing : Type}.
Context `{!WsMessage M, !ProtocolCodec Error Incoming Outgoing, !WsStream Conn M Error Act}.
(** [WsIncoming], as the message of an action. *)
Variable ws_incoming : Incoming → Payload.

(** [Talker], without the socket and the receiver of the queued messages, which
    are in [Peer].  The last three fields are the flags of the futures the
    [select!] polls: a future or stream that is over is not polled again. *)
Record Talker : Type := mkTalker {
  tk_address : Address;
  tk_stop : StopReceiver;
  tk_rx_drained : bool;
  tk_connection_drained : bool;
  tk_interrupted : bool;
  tk_done_over : bool;              (* [done] has completed *)
  tk_connection_over : bool;        (* the flag of [Fuse] *)
  tk_rx_over : bool                 (* the receiver has yielded [None] *)
}.

(** A talker and what it shares: the socket, the channel of the queued messages
    (the senders are held by the actor), the network. *)
Record Peer : Type := mkPeer {
  pe_talker : Talker;
  pe_connection : Conn;
  pe_rx : Uc Outgoing;
  pe_net : Net
}.

Definition Talker_new (address : Address) (stop : StopReceiver) : Talker :=
  mkTalker address stop false false false false false false.

Definition with_talker (f : Talker → Talker) (p : Peer) : Peer :=
  mkPeer (f (pe_talker p)) (pe_connection p) (pe_rx p) (pe_net p).
Definition with_connection (c : Conn) (p : Peer) : Peer :=
  mkPeer (pe_talker p) c (pe_rx p) (pe_net p).
Definition with_rx (rx : Uc Outgoing) (p : Peer) : Peer :=
  mkPeer (pe_talker p) (pe_connection p) rx (pe_net p).
Definition with_peer_net (n : Net) (p : Peer) : Peer :=
  mkPeer (pe_talker p) (pe_connection p) (pe_rx p) n.

Definition set_rx_drained (t : Talker) : Talker :=
  mkTalker (tk_address t) (tk_stop t) true (tk_connection_drained t) (tk_interrupted t)
    (tk_done_over t) (tk_connection_over t) (tk_rx_over t).
Definition set_connection_drained (t : Talker) : Talker :=
  mkTalker (tk_address t) (tk_stop t) (tk_rx_drained t) true (tk_interrupted t)
    (tk_done_over t) (tk_connection_over t) (tk_rx_over t).
Definition set_interrupted (t : Talker) : Talker :=
  mkTalker (tk_address t) (tk_stop t) (tk_rx_drained t) (tk_connection_drained t) true
    (tk_done_over t) (tk_connection_over t) (tk_rx_over t).
Definition set_done_over (t : Talker) : Talker :=
  mkTalker (tk_address t) (tk_stop t) (tk_rx_drained t) (tk_connection_drained t) (tk_interrupted t)
    true (tk_connection_over t) (tk_rx_over t).
Definition set_connection_over (t : Talker) : Talker :=
  mkTalker (tk_address t) (tk_stop t) (tk_rx_drained t) (tk_connection_drained t) (tk_interrupted t)
    (tk_done_over t) true (tk_rx_over t).
Definition set_rx_over (t : Talker) : Talker :=
  mkTalker (tk_address t) (tk_stop t) (tk_rx_drained t) (tk_connection_drained t) (tk_interrupted t)
    (tk_done_over t) (tk_connection_over t) true.

Definition is_done (t : Talker) : bool := tk_rx_drained t && tk_connection_drained t.

(** ** The branches of the [select!] *)

Inductive Branch : Type := BrDone | BrRequest | BrResponse.

(** What the future of a branch gives. *)
Inductive TalkerEvent : Type :=
| TeDone
| TeRequest (request : option (result M Error))
| TeResponse (response : option Outgoing).

(** [is_terminated]: the [select!] skips such a future, and panics when there is
    no other one. *)
Definition terminated (b : Branch) (t : Talker) : bool :=
  match b with
  | BrDone => tk_done_over t
  | BrRequest => tk_connection_over t
  | BrResponse => tk_rx_over t
  end.

Definition poll_branch (b : Branch) (p : Peer) : poll TalkerEvent * Peer :=
  match b with
  | BrDone =>
    match StopReceiver_into_future (tk_stop (pe_talker p)) (pe_net p) with
    | Ready _ => (Ready TeDone, with_talker set_done_over p)
    | Pending => (Pending, p)
    end
  | BrRequest =>
    let '(request, c) := ws_next (pe_connection p) in
    let p := with_connection c p in
    match request with
    | Ready (Some r) => (Ready (TeRequest (Some r)), p)
    | Ready None => (Ready (TeRequest None), with_talker set_connection_over p)
    | Pending => (Pending, p)
    end
  | BrResponse =>
    let '(response, rx) := ub_next (pe_rx p) in
    let p := with_rx rx p in
    match response with
    | Ready (Some m) => (Ready (TeResponse (Some m)), p)
    | Ready None => (Ready (TeResponse None), with_talker set_rx_over p)
    | Pending => (Pending, p)
    end
  end.

Inductive Flow : Type := Continue | Break | Fail (e : Error).

(** [_ = done] *)
Definition on_done (p : Peer) : Flow * Peer :=
  let p := with_talker set_interrupted p in
  (Continue, with_rx (ub_close (pe_rx p)) p).

(** [request = connection.next()] *)
Definition on_request (request : option (result M Error)) (p : Peer) : Flow * Peer :=
  match request with
  | Some (Err e) => (Fail e, p)
  | Some (Ok msg) =>
    if ws_is_text msg || ws_is_binary msg then
      match decode (Incoming:=Incoming) (Outgoing:=Outgoing) (ws_into_bytes msg) with
      | Err e => (Fail e, p)
      | Ok decoded =>
        match act (tk_address (pe_talker p)) (MsgAction (ws_incoming decoded)) (pe_net p) with
        | (Ok _, n) => (Continue, with_peer_net n p)
        | (Err e, n) => (Fail e, with_peer_net n p)
        end
      end
    else if ws_is_ping msg || ws_is_pong msg then (Continue, p)
    else if ws_is_close msg then (Continue, with_rx (ub_close (pe_rx p)) p)
    else (Continue, p)
  | None =>
    let p := with_talker set_connection_drained p in
    (if is_done (pe_talker p) then Break else Continue, p)
  end.

(** [response = rx.next()] *)
Definition on_response (response : option Outgoing) (p : Peer) : Flow * Peer :=
  match response with
  | Some msg =>
    match encode (Incoming:=Incoming) msg with
    | Err e => (Fail e, p)
    | Ok encoded =>
      let message := ws_binary encoded in
      let '(r, c) := ws_send message (pe_connection p) in
      let p := with_connection c p in
      match r with Ok _ => (Continue, p) | Err e => (Fail e, p) end
    end
  | None =>
    let '(r, c) := ws_close (pe_connection p) in
    let p := with_connection c p in
    match r with
    | Ok _ =>
      let p := with_talker set_rx_drained p in
      (if is_done (pe_talker p) then Break else Continue, p)
    | Err e => (Fail e, p)
    end
  end.

Definition handle_event (e : TalkerEvent) (p : Peer) : Flow * Peer :=
  match e with
  | TeDone => on_done p
  | TeRequest request => on_request request p
  | TeResponse response => on_response response p
  end.

(** One look of the [select!] at the branch [b]. *)
Definition select_branch (b : Branch) (p : Peer) : option TalkerEvent * Flow * Peer :=
  if terminated b (pe_talker p) then (None, Continue, p) else
  match poll_branch b p with
  | (Pending, p) => (None, Continue, p)
  | (Ready e, p) => let '(f, p) := handle_event e p in (Some e, f, p)
  end.

(** ** The loop and the world *)

(** A step is a look at a branch (the [select!] looks at them in a random order),
    or something outside: a holder of a sender queues a message, clones or drops
    its sender, the task is stopped, the network acts on the socket. *)
Inductive Step : Type :=
| StSelect (b : Branch)
| StSend (m : Outgoing)
| StCloneSender
| StDropSender
| StStop (s : StopSender)
| StNetwork (a : Act).

(** What a step did. *)
Inductive Event : Type :=
| EvTaken (e : TalkerEvent)       (* a branch was taken *)
| EvFailed (e : TalkerEvent)      (* a branch was taken and failed *)
| EvAccepted (m : Outgoing)       (* the channel took a message *)
| EvRefused (m : Outgoing)        (* the channel was closed *)
| EvArrived (l : list (result M Error)).

(** What happens outside; using a sender needs one. *)
Definition has_sender (rx : Uc Outgoing) : bool := bool_decide (0 < uv_senders (ub_view rx)).

(** [WsSender::send] (client.rs), [WsHandler::send] (server/websocket.rs): a
    refusal is logged. *)
Definition WsSender_send (m : Outgoing) (tx : Uc Outgoing) : Uc Outgoing :=
  match unbounded_send m tx with Ok tx => tx | Err _ => tx end.

Definition outside (st : Step) (p : Peer) : list Event * Peer :=
  match st with
  | StSelect _ => ([], p)
  | StSend m =>
    if has_sender (pe_rx p) then
      ([if is_ok (unbounded_send m (pe_rx p)) then EvAccepted m else EvRefused m],
       with_rx (WsSender_send m (pe_rx p)) p)
    else ([], p)
  | StCloneSender => ([], if has_sender (pe_rx p) then with_rx (ub_clone_tx (pe_rx p)) p else p)
  | StDropSender => ([], if has_sender (pe_rx p) then with_rx (ub_drop_tx (pe_rx p)) p else p)
  | StStop s => ([], with_peer_net (StopSender_stop s (pe_net p)).2 p)
  | StNetwork a =>
    ([EvArrived (arrivals a (pe_connection p))], with_connection (network a (pe_connection p)) p)
  end.

Definition reason (t : Talker) : TermReason := if tk_interrupted t then TrInterrupted else TrClosed.

(** [Talker::routine] *)
Fixpoint talker_routine (steps : list Step) (p : Peer)
  : poll (result TermReason Error) * list Event * Peer :=
  match steps with
  | [] => (Pending, [], p)
  | StSelect b :: steps =>
    match select_branch b p with
    | (None, _, p) => talker_routine steps p
    | (Some e, Continue, p) =>
      let '(r, log, p) := talker_routine steps p in (r, EvTaken e :: log, p)
    | (Some e, Break, p) => (Ready (Ok (reason (pe_talker p))), [EvTaken e], p)
    | (Some e, Fail err, p) => (Ready (Err err), [EvFailed e], p)
    end
  | st :: steps =>
    let '(evs, p) := outside st p in
    let '(r, log, p) := talker_routine steps p in (r, evs ++ log, p)
  end.

(** ** What is seen of a run *)

Abbreviation inbound p := (sk_inbound (ws_view (pe_connection p))).
Abbreviation eof p := (sk_eof (ws_view (pe_connection p))).
Abbreviation sent p := (sk_sent (ws_view (pe_connection p))).
Abbreviation close_sent p := (sk_close_sent (ws_view (pe_connection p))).
Abbreviation rx_queue p := (uv_queue (ub_view (pe_rx p))).
Abbreviation rx_open p := (uv_open (ub_view (pe_rx p))).
Abbreviation rx_senders p := (uv_senders (ub_view (pe_rx p))).
Abbreviation actor_queue p := (normal_queue (pe_net p) (addr_msg_tx (tk_address (pe_talker p)))).
Abbreviation actor_open p := (normal_open (pe_net p) (addr_msg_tx (tk_address (pe_talker p)))).

(** What the branch of an event hands to the actor; the frame of a queued message. *)
Definition incoming (e : TalkerEvent) : list Payload :=
  match e with
  | TeRequest (Some (Ok msg)) =>
    if ws_is_text msg || ws_is_binary msg then
      match decode (Incoming:=Incoming) (Outgoing:=Outgoing) (ws_into_bytes msg) with
      | Ok decoded => [ws_incoming decoded]
      | Err _ => []
      end
    else []
  | _ => []
  end.

Definition frame_of (m : Outgoing) : option M :=
  match encode (Incoming:=Incoming) m with Ok bytes => Some (ws_binary bytes) | Err _ => None end.

(** What an event took from the socket, and from the channel. *)
Definition request_of (e : TalkerEvent) : list (result M Error) :=
  match e with TeRequest (Some r) => [r] | _ => [] end.
Definition response_of (e : TalkerEvent) : list Outgoing :=
  match e with TeResponse (Some m) => [m] | _ => [] end.

(** Whether the branch of an event closes the channel. *)
Definition closes (e : TalkerEvent) : bool :=
  match e with
  | TeDone => true
  | TeRequest (Some (Ok msg)) =>
    negb (ws_is_text msg || ws_is_binary msg) && negb (ws_is_ping msg || ws_is_pong msg) &&
    ws_is_close msg
  | _ => false
  end.

Definition branch_of (e : TalkerEvent) : Branch :=
  match e with TeDone => BrDone | TeRequest _ => BrRequest | TeResponse _ => BrResponse end.
Definition is_stop (e : TalkerEvent) : bool := match e with TeDone => true | _ => false end.
Definition is_eof (e : TalkerEvent) : bool := match e with TeRequest None => true | _ => false end.
Definition is_drained (e : TalkerEvent) : bool := match e with TeResponse None => true | _ => false end.
Definition is_last (e : TalkerEvent) : bool := is_stop e || is_eof e || is_drained e.

(** ** One poll of a branch *)

Lemma poll_branch_pending b p p' :
  poll_branch b p = (Pending, p') →
  p' = p ∧
  match b with
  | BrDone => StopReceiver_into_future (tk_stop (pe_talker p)) (pe_net p) = Pending
  | BrRequest => inbound p = [] ∧ eof p = false
  | BrResponse => rx_queue p = [] ∧ rx_open p = true ∧ 0 < rx_senders p
  end.
Proof.
  destruct p as [t c rx n]; destruct b; cbn.
  - destruct (StopReceiver_into_future _ _) eqn:E; [|done]. by intros [= <-].
  - destruct (sk_inbound (ws_view c)) as [|r q] eqn:Hi.
    + rewrite (ws_next_empty _ Hi). destruct (sk_eof (ws_view c)); [done|]. by intros [= <-].
    + by destruct (ws_next_some _ _ _ Hi) as (c' & -> & _).
  - destruct (uv_queue (ub_view rx)) as [|m q] eqn:Hq.
    + rewrite (ub_next_empty _ Hq). destruct (uv_open (ub_view rx)); cbn; [|done].
      case_bool_decide; [|done]. by intros [= <-].
    + by destruct (ub_next_some _ _ _ Hq) as (c' & -> & _).
Qed.

(** What a ready branch gives, and what that consumes. *)
Record polled (b : Branch) (p : Peer) (e : TalkerEvent) (p' : Peer) : Prop := {
  po_branch : branch_of e = b;
  po_talker : pe_talker p' =
    (if is_last e then match b with
                       | BrDone => set_done_over
                       | BrRequest => set_connection_over
                       | BrResponse => set_rx_over
                       end else id) (pe_talker p);
  po_net : pe_net p' = pe_net p;
  po_inbound : inbound p = request_of e ++ inbound p';
  po_eof : eof p' = eof p;
  po_sent : sent p' = sent p;
  po_close_sent : close_sent p' = close_sent p;
  po_queue : rx_queue p = response_of e ++ rx_queue p';
  po_open : rx_open p' = rx_open p;
  po_senders : rx_senders p' = rx_senders p;
  po_last : is_last e = true →
    match b with
    | BrDone => StopReceiver_into_future (tk_stop (pe_talker p)) (pe_net p) = Ready tt
    | BrRequest => inbound p = [] ∧ eof p = true
    | BrResponse => rx_queue p = [] ∧ (rx_open p = true → rx_senders p = 0)
    end
}.

Lemma poll_branch_ready b p e p' : poll_branch b p = (Ready e, p') → polled b p e p'.
Proof.
  destruct b; cbn.
  - destruct (StopReceiver_into_future _ _) as [|[]] eqn:E; [done|]. intros [= <- <-]. by split.
  - destruct (inbound p) as [|r q] eqn:Hi.
    + rewrite (ws_next_empty _ Hi). destruct (eof p) eqn:He; [|done].
      intros [= <- <-]. by split; cbn; rewrite ?Hi.
    + destruct (ws_next_some _ _ _ Hi) as (c' & -> & Hv). intros [= <- <-].
      by split; cbn; rewrite ?Hv, ?Hi.
  - destruct (rx_queue p) as [|m q] eqn:Hq.
    + rewrite (ub_next_empty _ Hq). destruct (rx_open p && _) eqn:E; [done|]. intros [= <- <-].
      split; cbn; try done. intros _. split; [done|]. intros Ho. rewrite Ho in E. cbn in E.
      apply bool_decide_eq_false in E. lia.
    + destruct (ub_next_some _ _ _ Hq) as (c' & -> & Hv). intros [= <- <-].
      by split; cbn; rewrite ?Hv, ?Hq.
Qed.
(** ** One branch that is taken *)

(** What handling an event leaves as it was, whether or not it fails. *)
Record untouched (p p' : Peer) : Prop := {
  un_address : tk_address (pe_talker p') = tk_address (pe_talker p);
  un_stop : tk_stop (pe_talker p') = tk_stop (pe_talker p);
  un_done_over : tk_done_over (pe_talker p') = tk_done_over (pe_talker p);
  un_connection_over : tk_connection_over (pe_talker p') = tk_connection_over (pe_talker p);
  un_rx_over : tk_rx_over (pe_talker p') = tk_rx_over (pe_talker p);
  un_status : net_status (pe_net p') = net_status (pe_net p);
  un_hp : net_hp (pe_net p') = net_hp (pe_net p);
  un_actor_open : actor_open p' = actor_open p;
  un_inbound : inbound p' = inbound p;
  un_eof : eof p' = eof p;
  un_queue : rx_queue p' = rx_queue p;
  un_senders : rx_senders p' = rx_senders p
}.

(** What handling an event does when it does not fail. *)
Record handled (e : TalkerEvent) (p : Peer) (f : Flow) (p' : Peer) : Prop := {
  hd_actor : actor_queue p' = actor_queue p ++ ((λ m, Envelope_new (MsgAction m)) <$> incoming e);
  hd_sent : Some <$> sent p' = (Some <$> sent p) ++ (frame_of <$> response_of e);
  hd_close_sent : close_sent p' = close_sent p || is_drained e;
  hd_open : rx_open p' = rx_open p && negb (closes e);
  hd_interrupted : tk_interrupted (pe_talker p') =
    tk_interrupted (pe_talker p) || is_stop e;
  hd_connection_drained : tk_connection_drained (pe_talker p') =
    tk_connection_drained (pe_talker p) || is_eof e;
  hd_rx_drained : tk_rx_drained (pe_talker p') =
    tk_rx_drained (pe_talker p) || is_drained e;
  hd_flow : f = if (is_eof e || is_drained e) && is_done (pe_talker p') then Break else Continue
}.

(** A branch that fails has handed nothing on. *)
Definition not_handled (p p' : Peer) : Prop :=
  actor_queue p' = actor_queue p ∧ sent p' = sent p ∧
  tk_interrupted (pe_talker p') = tk_interrupted (pe_talker p).

Lemma handle_event_effect e p :
  let '(f, p') := handle_event e p in
  untouched p p' ∧ if f is Fail _ then not_handled p p' else handled e p f p'.
Proof.
  destruct e as [|[[msg|e]|]|[msg|]]; cbn.
  - unfold on_done. split; split; cbn; rewrite ?ub_close_view, ?app_nil_r, ?orb_false_r, ?orb_true_r; try done.
    by rewrite andb_false_r.
  - unfold on_request. destruct (ws_is_text msg || ws_is_binary msg) eqn:Hd.
    + destruct (decode _) as [dec|e] eqn:Hdec; [|done].
      destruct (normal_open (pe_net p) (addr_msg_tx (tk_address (pe_talker p)))) eqn:Ho.
      * destruct (normal_priority_send_open _ (Envelope_new (MsgAction (ws_incoming dec))) _ Ho)
          as (Hr & Ho' & Hq & Hs). unfold act.
        destruct (normal_priority_send _ _ _) as [[[]|?] n']; cbn in *; [|done].
        destruct Hs as (_ & Hhp & Hst & _). split; split; cbn; try done; try congruence;
          rewrite ?Hd, ?Hdec, ?app_nil_r, ?orb_false_r; try done. by rewrite andb_true_r.
      * unfold act. by rewrite normal_priority_send_closed.
    + destruct (ws_is_ping msg || ws_is_pong msg) eqn:Hp, (ws_is_close msg) eqn:Hc; split; split; cbn;
        rewrite ?ub_close_view, ?Hd, ?Hp, ?Hc, ?app_nil_r, ?orb_false_r, ?andb_true_r, ?andb_false_r; done.
  - done.
  - unfold on_request, is_done. cbn. destruct (tk_rx_drained (pe_talker p)) eqn:Hd; (split; [by split|]);
      split; cbn; unfold is_done; cbn; rewrite ?app_nil_r, ?orb_false_r, ?orb_true_r, ?andb_true_r, ?Hd; done.
  - unfold on_response. destruct (encode msg) as [b|e] eqn:He; [|done].
    pose proof (ws_send_view (ws_binary b) (pe_connection p)) as Hv.
    destruct (ws_send _ _) as [[[]|e] c]; (split; [split; cbn; by rewrite ?Hv|]);
      [|by unfold not_handled; cbn; rewrite Hv, app_nil_r].
    split; cbn; unfold frame_of; rewrite ?Hv, ?He, ?app_nil_r, ?orb_false_r, ?andb_true_r; cbn; rewrite ?fmap_app; done.
  - unfold on_response, is_done. pose proof (ws_close_view (pe_connection p)) as Hv.
    destruct (ws_close _) as [[[]|e] c]; cbn;
      [destruct (tk_connection_drained (pe_talker p)) eqn:Hd|]; (split; [split; cbn; by rewrite ?Hv|]);
      try (by unfold not_handled; cbn; rewrite Hv);
      split; cbn; unfold is_done; cbn;
      rewrite ?Hv, ?app_nil_r, ?orb_false_r, ?orb_true_r, ?andb_true_r, ?Hd; done.
Qed.
(** ** What a log says *)

Definition ev_incoming (ev : Event) : list Payload :=
  match ev with EvTaken e => incoming e | _ => [] end.
Definition ev_carried (ev : Event) : list Outgoing :=
  match ev with EvTaken e => response_of e | _ => [] end.
Definition ev_requests (ev : Event) : list (result M Error) :=
  match ev with EvTaken e | EvFailed e => request_of e | _ => [] end.
Definition ev_responses (ev : Event) : list Outgoing :=
  match ev with EvTaken e | EvFailed e => response_of e | _ => [] end.
Definition ev_accepted (ev : Event) : list Outgoing :=
  match ev with EvAccepted m => [m] | _ => [] end.
Definition ev_arrived (ev : Event) : list (result M Error) :=
  match ev with EvArrived l => l | _ => [] end.
Definition ev_taken (f : TalkerEvent → bool) (ev : Event) : bool :=
  match ev with EvTaken e => f e | _ => false end.
Definition ev_failed (ev : Event) : bool := match ev with EvFailed _ => true | _ => false end.

(** What a part of a run does. *)
Record effect (p : Peer) (log : list Event) (p' : Peer) : Prop := {
  ef_address : tk_address (pe_talker p') = tk_address (pe_talker p);
  ef_stop : tk_stop (pe_talker p') = tk_stop (pe_talker p);
  ef_actor : actor_queue p' =
    actor_queue p ++ ((λ m, Envelope_new (MsgAction m)) <$> (log ≫= ev_incoming));
  ef_sent : Some <$> sent p' = (Some <$> sent p) ++ (frame_of <$> (log ≫= ev_carried));
  ef_inbound : inbound p ++ (log ≫= ev_arrived) = (log ≫= ev_requests) ++ inbound p';
  ef_queue : rx_queue p ++ (log ≫= ev_accepted) = (log ≫= ev_responses) ++ rx_queue p';
  ef_interrupted : tk_interrupted (pe_talker p') =
    tk_interrupted (pe_talker p) || existsb (ev_taken is_stop) log;
  ef_eof : eof p = true → eof p' = true;
  ef_hp : net_hp (pe_net p') = net_hp (pe_net p);
  ef_open : actor_open p' = actor_open p
}.

Lemma effect_refl p : effect p [] p.
Proof. split; cbn; rewrite ?app_nil_r, ?orb_false_r; done. Qed.

Lemma effect_trans p1 l1 p2 l2 p3 : effect p1 l1 p2 → effect p2 l2 p3 → effect p1 (l1 ++ l2) p3.
Proof.
  intros [A1 A2 A3 A4 A5 A6 A7 A8 A9 A10] [B1 B2 B3 B4 B5 B6 B7 B8 B9 B10].
  split; rewrite ?bind_app, ?existsb_app, ?fmap_app; try congruence; [..|by auto].
  - by rewrite B3, A3, <-(assoc_L (++)).
  - by rewrite B4, A4, <-(assoc_L (++)).
  - by rewrite (assoc_L (++)), A5, <-(assoc_L (++)), B5, (assoc_L (++)).
  - by rewrite (assoc_L (++)), A6, <-(assoc_L (++)), B6, (assoc_L (++)).
  - by rewrite B7, A7, orb_assoc.
Qed.

(** ** The invariant of a talker that has not failed *)

Record talker_inv (p : Peer) : Prop := {
  in_done : tk_done_over (pe_talker p) = true → rx_open p = false;
  in_connection : tk_connection_over (pe_talker p) = true → inbound p = [] ∧ eof p = true;
  in_connection_drained : tk_connection_drained (pe_talker p) = tk_connection_over (pe_talker p);
  in_rx : tk_rx_over (pe_talker p) = true →
    rx_queue p = [] ∧ (rx_open p = true → rx_senders p = 0) ∧ close_sent p = true;
  in_rx_drained : tk_rx_drained (pe_talker p) = tk_rx_over (pe_talker p)
}.
Definition running (p : Peer) : Prop := is_done (pe_talker p) = false.

(** *** Outside steps *)

Lemma StopSender_stop_lp s n : net_lp (StopSender_stop s n).2 = net_lp n.
Proof. unfold StopSender_stop. by destruct (_ <$> _) as [[]|]. Qed.
Lemma StopSender_stop_hp s n : net_hp (StopSender_stop s n).2 = net_hp n.
Proof. unfold StopSender_stop. by destruct (_ <$> _) as [[]|]. Qed.

(** What is outside touches none of the flags, and brings nothing to a side that is over. *)
Lemma talker_inv_outside p p' :
  pe_talker p' = pe_talker p → rx_open p' = rx_open p → close_sent p' = close_sent p →
  (rx_queue p = [] → (rx_open p = true → rx_senders p = 0) →
    rx_queue p' = [] ∧ (rx_open p = true → rx_senders p' = 0)) →
  (inbound p = [] → eof p = true → inbound p' = [] ∧ eof p' = true) →
  talker_inv p → talker_inv p'.
Proof.
  intros Ht Ho Hc Hq Hi [I1 I2 I3 I4 I5]. split; rewrite ?Ht, ?Ho, ?Hc; auto.
  - intros [? ?]%I2. auto.
  - intros Hr. destruct (I4 Hr) as (? & ? & ?). destruct (Hq ltac:(done) ltac:(done)). auto.
Qed.

Lemma outside_effect st p :
  let '(evs, p') := outside st p in
  effect p evs p' ∧ pe_talker p' = pe_talker p ∧ existsb ev_failed evs = false ∧
  (talker_inv p → talker_inv p').
Proof.
  destruct st as [b|m| | |s|a]; cbn; unfold has_sender; try (case_bool_decide as Hs);
    try (split; [apply effect_refl|by split_and!]).
  - unfold WsSender_send. destruct (rx_open p) eqn:Ho.
    + destruct (unbounded_send_open m _ Ho) as (c' & -> & Hv). cbn.
      split; [split; cbn; rewrite ?Hv; cbn; rewrite ?app_nil_r, ?orb_false_r; done|].
      split_and!; [done..|]. apply talker_inv_outside; cbn; rewrite ?Hv; try done.
      cbn. intros _ Hz. specialize (Hz Ho). lia.
    + rewrite (unbounded_send_closed m _ Ho). cbn.
      split; [split; cbn; rewrite ?app_nil_r, ?orb_false_r; done|].
      split_and!; [done..|]. by apply talker_inv_outside.
  - split; [split; cbn; rewrite ?ub_clone_tx_view, ?app_nil_r, ?orb_false_r; done|].
    split_and!; [done..|]. apply talker_inv_outside; cbn; rewrite ?ub_clone_tx_view; try done. cbn.
    intros Hq Hz. split; [done|]. intros Ho. specialize (Hz Ho). lia.
  - split; [split; cbn; rewrite ?ub_drop_tx_view, ?app_nil_r, ?orb_false_r; done|].
    split_and!; [done..|]. apply talker_inv_outside; cbn; rewrite ?ub_drop_tx_view; try done. cbn.
    intros Hq Hz. split; [done|]. intros Ho. specialize (Hz Ho). lia.
  - split; [split; cbn; unfold normal_queue, normal_open; rewrite ?StopSender_stop_lp, ?StopSender_stop_hp, ?app_nil_r, ?orb_false_r; done|].
    split_and!; [done..|]. by apply talker_inv_outside.
  - destruct (network_view a (pe_connection p)) as (Ha & Hs & Hc & He).
    split; [split; cbn; rewrite ?Ha, ?Hs, ?app_nil_r, ?orb_false_r; try done; by intros [_ ?]%He|].
    split_and!; [done..|]. apply talker_inv_outside; cbn; try done.
    intros Hi Hf. destruct (He Hf) as [Hn ->]. by rewrite Ha, Hi, Hn.
Qed.

(** *** A look at a branch *)

(** The fields of the talker that a poll does not set. *)
Lemma polled_fields b p e p1 : polled b p e p1 →
  tk_address (pe_talker p1) = tk_address (pe_talker p) ∧
  tk_stop (pe_talker p1) = tk_stop (pe_talker p) ∧
  tk_interrupted (pe_talker p1) = tk_interrupted (pe_talker p) ∧
  tk_rx_drained (pe_talker p1) = tk_rx_drained (pe_talker p) ∧
  tk_connection_drained (pe_talker p1) = tk_connection_drained (pe_talker p) ∧
  tk_done_over (pe_talker p1) = tk_done_over (pe_talker p) || is_stop e ∧
  tk_connection_over (pe_talker p1) = tk_connection_over (pe_talker p) || is_eof e ∧
  tk_rx_over (pe_talker p1) = tk_rx_over (pe_talker p) || is_drained e.
Proof.
  intros [<- -> _ _ _ _ _ _ _ _ _].
  destruct e as [|[]|[]]; cbn; by rewrite ?orb_false_r, ?orb_true_r.
Qed.

Lemma taken_effect b p e p1 f p' :
  polled b p e p1 → untouched p1 p' →
  (if f is Fail _ then not_handled p1 p' else handled e p1 f p') →
  effect p [if f is Fail _ then EvFailed e else EvTaken e] p'.
Proof.
  intros Hp Hu Hh. destruct (polled_fields _ _ _ _ Hp) as (Ha & Hs & Hi & _).
  destruct Hp as [_ _ Pn Pi Pe Ps _ Pq _ _ _], Hu as [Ua Us _ _ _ _ Uh Uo Ui Ue Uq _].
  assert (ef : actor_queue p1 = actor_queue p) by by rewrite Pn, Ha.
  assert (actor_open p1 = actor_open p) as eo by by rewrite Pn, Ha.
  split; [congruence..| | | | | |congruence|by rewrite Uh, Pn|by rewrite Uo].
  - destruct f; [destruct Hh as [Hh _ _ _ _ _ _ _]..|destruct Hh as [Hh _]]; rewrite Hh, ef; cbn;
      by rewrite ?app_nil_r.
  - destruct f; [destruct Hh as [_ Hh _ _ _ _ _ _]..|destruct Hh as [_ [-> _]]]; cbn;
      rewrite ?Hh, ?Ps, ?app_nil_r; done.
  - rewrite Ui, Pi. by destruct f; cbn; rewrite !app_nil_r.
  - rewrite Uq, Pq. by destruct f; cbn; rewrite !app_nil_r.
  - destruct f; [destruct Hh as [_ _ _ _ Hh _ _ _]..|destruct Hh as [_ [_ Hh]]]; rewrite Hh, Hi; cbn;
      by rewrite ?orb_false_r.
Qed.

Lemma taken_inv b p e p1 f p' :
  polled b p e p1 → untouched p1 p' → handled e p1 f p' → talker_inv p → talker_inv p'.
Proof.
  intros Hp Hu Hh [I1 I2 I3 I4 I5].
  destruct (polled_fields _ _ _ _ Hp) as (_ & _ & _ & Fr & Fc & Fd & Fco & Fro).
  destruct Hp as [Pb _ _ Pi Pe _ Pcs Pq Po Psd Pl], Hu as [_ _ Ud Uc Ur _ _ _ Ui Ue Uq Usd].
  destruct Hh as [_ _ Hcs Ho _ Hc Hr _].
  split.
  - rewrite Ud, Fd, Ho, Po. intros [Hd|He]%orb_true_iff; [by rewrite I1|].
    destruct e as [|[]|[]]; try done. by rewrite andb_false_r.
  - rewrite Uc, Fco, Ui, Ue, Pe. intros [Hd|He]%orb_true_iff.
    + destruct (I2 Hd) as [Hi ?]. rewrite Hi in Pi. symmetry in Pi. by apply app_eq_nil in Pi as [_ ->].
    + destruct e as [|[]|[]]; try done. subst b. destruct (Pl eq_refl) as [Hi ?]. cbn in Pi. by rewrite <-Pi.
  - by rewrite Hc, Uc, Fco, Fc, I3.
  - rewrite Ur, Fro, Uq, Usd, Psd, Ho, Po, Hcs, Pcs. intros [Hd|He]%orb_true_iff.
    + destruct (I4 Hd) as (Hq & Hz & ->). rewrite Hq in Pq. symmetry in Pq. apply app_eq_nil in Pq as [_ ->].
      split; [done|]. split; [|done]. by intros [? _]%andb_true_iff; apply Hz.
    + destruct e as [|[]|[]]; try done. subst b. destruct (Pl eq_refl) as [Hq Hz]. cbn in Pq. rewrite <-Pq.
      split; [done|]. split; [|by rewrite orb_true_r]. by intros [? _]%andb_true_iff; apply Hz.
  - by rewrite Hr, Ur, Fro, Fr, I5.
Qed.
Lemma select_branch_effect b p :
  let '(o, f, p') := select_branch b p in
  match o with
  | None => effect p [] p' ∧ (talker_inv p → running p → talker_inv p' ∧ running p')
  | Some e =>
    effect p [if f is Fail _ then EvFailed e else EvTaken e] p' ∧
    (talker_inv p → running p →
      match f with
      | Continue => talker_inv p' ∧ running p'
      | Break => talker_inv p' ∧ is_done (pe_talker p') = true
      | Fail _ => True
      end)
  end.
Proof.
  unfold select_branch. destruct (terminated b (pe_talker p)); [split; [apply effect_refl|done]|].
  destruct (poll_branch b p) as [[|e] p1] eqn:Hpoll.
  - apply poll_branch_pending in Hpoll as [-> _]. split; [apply effect_refl|done].
  - apply poll_branch_ready in Hpoll. pose proof (handle_event_effect e p1) as Hh.
    destruct (handle_event e p1) as [f p']. destruct Hh as [Hu Hh].
    split; [by eapply taken_effect|]. intros Hi Hrun.
    destruct f; [..|done]; (split; [by eapply taken_inv|]); destruct Hh as [_ _ _ _ _ Hc Hr Hf].
    + destruct (polled_fields _ _ _ _ Hpoll) as (_ & _ & _ & Fr & Fc & _).
      unfold running, is_done in *. rewrite Fr in Hr. rewrite Fc in Hc.
      destruct (is_eof e || is_drained e) eqn:He; cbn in Hf.
      * by destruct (tk_rx_drained (pe_talker p') && tk_connection_drained (pe_talker p')).
      * apply orb_false_iff in He as [He1 He2]. by rewrite Hr, Hc, He1, He2, !orb_false_r.
    + by destruct (is_eof e || is_drained e), (is_done (pe_talker p')).
Qed.

(** ** A run *)

Record run_effect (p : Peer) (r : poll (result TermReason Error)) (log : list Event) (p' : Peer) : Prop := {
  re_effect : effect p log p';
  re_failed : existsb ev_failed log = (if r is Ready (Err _) then true else false);
  re_end : talker_inv p → running p →
    match r with
    | Pending => talker_inv p' ∧ running p'
    | Ready (Ok why) => talker_inv p' ∧ is_done (pe_talker p') = true ∧ why = reason (pe_talker p')
    | Ready (Err _) => True
    end
}.

Lemma run_effect_after p log p1 r log' p' :
  effect p log p1 → existsb ev_failed log = false →
  (talker_inv p → running p → talker_inv p1 ∧ running p1) →
  run_effect p1 r log' p' → run_effect p r (log ++ log') p'.
Proof.
  intros He Hf Hi [He' Hf' Hi']. split.
  - by eapply effect_trans.
  - by rewrite existsb_app, Hf.
  - intros I R. destruct (Hi I R). by apply Hi'.
Qed.

Lemma talker_routine_effect steps p :
  let '(r, log, p') := talker_routine steps p in run_effect p r log p'.
Proof.
  revert p. induction steps as [|st steps IH]; intros p; cbn [talker_routine].
  { split; [apply effect_refl|done|auto]. }
  assert (∀ st, let '(r, log, p') :=
      (let '(evs, p) := outside st p in
       let '(r, log, p) := talker_routine steps p in (r, evs ++ log, p)) in run_effect p r log p') as Hout.
  { intros st'. pose proof (outside_effect st' p) as Ho. destruct (outside st' p) as [evs p1].
    destruct Ho as (He & Ht & Hf & Hi). specialize (IH p1).
    destruct (talker_routine steps p1) as [[r log] p']. eapply run_effect_after; try done.
    unfold running. rewrite Ht. auto. }
  destruct st as [b|m| | |s|a]; try apply (Hout (StSend m)); try apply (Hout StCloneSender);
    try apply (Hout StDropSender); try apply (Hout (StStop s)); try apply (Hout (StNetwork a)).
  pose proof (select_branch_effect b p) as Hs. destruct (select_branch b p) as [[[e|] f] p1].
  - destruct Hs as [He Hi]. destruct f as [| |err].
    + specialize (IH p1). destruct (talker_routine steps p1) as [[r log] p'].
      by eapply (run_effect_after _ [EvTaken e]).
    + split; [done..|]. intros I R. by destruct (Hi I R).
    + by split.
  - destruct Hs as [He Hi]. specialize (IH p1). destruct (talker_routine steps p1) as [[r log] p'].
    by eapply (run_effect_after _ []).
Qed.
Lemma fresh_inv address stop conn rx n :
  talker_inv (mkPeer (Talker_new address stop) conn rx n) ∧
  running (mkPeer (Talker_new address stop) conn rx n).
Proof. by repeat split. Qed.

Lemma carried_responses log :
  existsb ev_failed log = false → log ≫= ev_carried = log ≫= ev_responses.
Proof. induction log as [|[]]; cbn; intros; rewrite ?IHlog; done. Qed.

(** What a talker carries.  The data messages of the socket reach the actor
    decoded, and the queued messages reach the socket encoded, each exactly once
    and in order, whatever is queued or arrives meanwhile and whether the run
    goes on, ends or fails (only the message a branch failed on is lost); what is
    not carried yet still waits in the channel or the socket; pings, pongs and
    close messages carry nothing. *)
Theorem talker_forwards steps p :
  let '(_, log, p') := talker_routine steps p in
  normal_queue (pe_net p') (addr_msg_tx (tk_address (pe_talker p))) =
    actor_queue p ++ ((λ m, Envelope_new (MsgAction m)) <$> (log ≫= ev_incoming)) ∧
  inbound p ++ (log ≫= ev_arrived) = (log ≫= ev_requests) ++ inbound p' ∧
  Some <$> sent p' = (Some <$> sent p) ++ (frame_of <$> (log ≫= ev_carried)) ∧
  rx_queue p ++ (log ≫= ev_accepted) = (log ≫= ev_responses) ++ rx_queue p'.
Proof.
  pose proof (talker_routine_effect steps p) as H'.
  destruct (talker_routine steps p) as [[r log] p']. destruct H' as [[Ha _ Hq Hs Hi Hr _ _ _ _] _ _].
  rewrite Ha in Hq. by split_and!.
Qed.

Lemma talker_end_effect address stop conn rx n steps :
  let p := mkPeer (Talker_new address stop) conn rx n in
  let '(r, log, p') := talker_routine steps p in
  ∀ why, r = Ready (Ok why) →
    (log ≫= ev_requests) = inbound p ++ (log ≫= ev_arrived) ∧ eof p' = true ∧
    Some <$> sent p' = (Some <$> sent p) ++ (frame_of <$> (rx_queue p ++ (log ≫= ev_accepted))) ∧
    close_sent p' = true ∧
    (why = TrInterrupted ↔ existsb (ev_taken is_stop) log = true) ∧
    (rx_open p' = false ∨ rx_senders p' = 0).
Proof.
  intros p. pose proof (talker_routine_effect steps p) as H'.
  destruct (fresh_inv address stop conn rx n) as [I R].
  destruct (talker_routine steps p) as [[r log] p']. destruct H' as [[Ha _ Hq Hs Hi Hr Hin _ _ _] Hf Hend].
  intros why ->. destruct (Hend I R) as ([I1 I2 I3 I4 I5] & Hd & ->).
  unfold is_done in Hd. apply andb_true_iff in Hd as [Hd1 Hd2]. rewrite I5 in Hd1. rewrite I3 in Hd2.
  destruct (I2 Hd2) as [Hi0 He]. destruct (I4 Hd1) as (Hq0 & Hz & Hc).
  rewrite Hi0, app_nil_r in Hi. rewrite Hq0, app_nil_r in Hr.
  rewrite Hs, (carried_responses _ Hf), Hr. split_and!; try done.
  - unfold reason. rewrite Hin. cbn. by destruct (existsb _ log).
  - destruct (rx_open p'); [right; auto|by left].
Qed.

(** C37: how a talker ends.  When it ends without an error, the socket has come to
    its end and everything that arrived was taken from it; every message the
    channel ever accepted was encoded and sent, in order, and the socket was
    closed after them; and its reason is [Interrupted] exactly when it took the
    stop signal.  The end of the socket alone does not end it: its channel was
    closed, by the stop signal or a close message, or has no sender left. *)
Theorem talker_ends address stop conn rx n steps :
  let p := mkPeer (Talker_new address stop) conn rx n in
  let '(r, log, p') := talker_routine steps p in
  ∀ why, r = Ready (Ok why) →
    (log ≫= ev_requests) = inbound p ++ (log ≫= ev_arrived) ∧ eof p' = true ∧
    Some <$> sent p' = (Some <$> sent p) ++ (frame_of <$> (rx_queue p ++ (log ≫= ev_accepted))) ∧
    close_sent p' = true ∧
    (why = TrInterrupted ↔ existsb (ev_taken is_stop) log = true) ∧
    (rx_open p' = false ∨ rx_senders p' = 0).
Proof. apply talker_end_effect. Qed.

(** ** The end of a talker *)

(** Its channel is, or will be, closed. *)
Definition closing (p : Peer) : Prop :=
  StopReceiver_into_future (tk_stop (pe_talker p)) (pe_net p) = Ready tt ∨
  rx_open p = false ∨ rx_senders p = 0.

Definition measure (p : Peer) : nat :=
  length (inbound p) + length (rx_queue p) +
  (if tk_done_over (pe_talker p) then 0 else 1) +
  (if tk_connection_over (pe_talker p) then 0 else 1) + (if tk_rx_over (pe_talker p) then 0 else 1).

Lemma stop_future_status r n n' :
  net_status n' = net_status n → StopReceiver_into_future r n' = StopReceiver_into_future r n.
Proof. unfold StopReceiver_into_future, just_done. by intros ->. Qed.

(** Why a branch is not taken. *)
Definition blocked (b : Branch) (p : Peer) : Prop :=
  match b with
  | BrDone => tk_done_over (pe_talker p) = true ∨
              StopReceiver_into_future (tk_stop (pe_talker p)) (pe_net p) = Pending
  | BrRequest => tk_connection_over (pe_talker p) = true ∨ inbound p = [] ∧ eof p = false
  | BrResponse => tk_rx_over (pe_talker p) = true ∨ rx_open p = true ∧ 0 < rx_senders p
  end.

Lemma select_branch_look b p :
  let '(o, f, p') := select_branch b p in
  match o with
  | None => p' = p ∧ blocked b p
  | Some e => measure p' < measure p ∧ (f = Continue → closing p → closing p')
  end.
Proof.
  unfold select_branch. destruct (terminated b (pe_talker p)) eqn:Hterm.
  { split; [done|]. destruct b; by left. }
  destruct (poll_branch b p) as [[|e] p1] eqn:Hpoll.
  - apply poll_branch_pending in Hpoll as [-> Hb]. split; [done|]. destruct b; cbn; naive_solver.
  - apply poll_branch_ready in Hpoll. pose proof (handle_event_effect e p1) as Hh.
    destruct (handle_event e p1) as [f p']. destruct Hh as [Hu Hh].
    destruct (polled_fields _ _ _ _ Hpoll) as (_ & Hs & _ & _ & _ & Fd & Fc & Fr).
    destruct Hpoll as [<- _ Pn Pi _ _ _ Pq Po Psd _], Hu as [_ Us Ud Uc Ur Ust _ _ Ui _ Uq Usd]. split.
    + unfold measure. rewrite Ud, Uc, Ur, Ui, Uq, Pi, Pq, Fd, Fc, Fr, !length_app.
      destruct e as [|[]|[]]; cbn in Hterm |- *; rewrite ?Hterm, ?orb_false_r; cbn; lia.
    + intros ->. destruct Hh as [_ _ _ Ho _ _ _ _]. unfold closing.
      rewrite Us, Hs, (stop_future_status _ _ _ Ust), Pn, Usd, Psd, Ho, Po.
      intros [?|[->|?]]; auto.
Qed.
(** The talker alone, looking at branches. *)
Definition looks (l : list Branch) : list Step := StSelect <$> l.
Definition is_round (l : list Branch) : Prop := ∀ b, b ∈ l.

Lemma looks_effect l p :
  eof p = true → closing p →
  let '(r, _, p') := talker_routine (looks l) p in
  r ≠ Pending ∨ closing p' ∧ eof p' = true ∧
    (measure p' < measure p ∨ p' = p ∧ ∀ b, b ∈ l → (select_branch b p).1.1 = None).
Proof.
  revert p. induction l as [|b l IH]; intros p He Hc; cbn [looks fmap list_fmap talker_routine].
  { right. split_and!; [done..|]. right. split; [done|]. intros b Hb. by apply elem_of_nil in Hb. }
  pose proof (select_branch_look b p) as Hl. pose proof (select_branch_effect b p) as Hef.
  destruct (select_branch b p) as [[[e|] f] p1] eqn:Hsel.
  - destruct Hef as [[_ _ _ _ _ _ _ He1 _ _] _], Hl as [Hm Hcl].
    destruct f; [|by left..]. specialize (IH p1 (He1 He) (Hcl eq_refl Hc)). unfold looks in IH.
    destruct (talker_routine _ p1) as [[r log] p'].
    destruct IH as [?|(? & ? & [?|[-> _]])]; [by left|right..]; (split_and!; [done..|]); left; lia.
  - destruct Hl as [-> _]. specialize (IH p He Hc). unfold looks in IH.
    destruct (talker_routine _ p) as [[r log] p'].
    destruct IH as [?|(? & ? & [?|[-> Hb]])]; [by left|right..]; (split_and!; [done..|]); [by left|].
    right. split; [done|]. intros b' [->|Hb']%elem_of_cons; [by rewrite Hsel|auto].
Qed.

(** While it runs, a round takes some branch. *)
Lemma round_effect l p :
  is_round l → talker_inv p → running p → eof p = true → closing p →
  let '(r, _, p') := talker_routine (looks l) p in
  r ≠ Pending ∨ closing p' ∧ eof p' = true ∧ measure p' < measure p.
Proof.
  intros Hl I R He Hc. pose proof (looks_effect l p He Hc) as Hlk.
  destruct (talker_routine (looks l) p) as [[r log] p'].
  destruct Hlk as [?|(? & ? & [?|[-> Hidle]])]; [by left|by right|exfalso].
  assert (∀ b, (select_branch b p).1.1 = None) as Hno by auto.
  pose proof (select_branch_look BrDone p) as Hb1. pose proof (select_branch_look BrRequest p) as Hb2.
  pose proof (select_branch_look BrResponse p) as Hb3.
  pose proof (Hno BrDone). pose proof (Hno BrRequest). pose proof (Hno BrResponse). clear Hno Hidle.
  destruct (select_branch BrDone p) as [[[]] ?], (select_branch BrRequest p) as [[[]] ?],
    (select_branch BrResponse p) as [[[]] ?]; try done.
  destruct I as [I1 _ I3 _ I5], Hb1 as [_ Hb1], Hb2 as [_ Hb2], Hb3 as [_ Hb3]. destruct Hb2 as [Hb2|[_ ?]]; [|congruence].
  unfold running, is_done in R. rewrite I5, I3, Hb2, andb_true_r in R.
  destruct Hb3 as [Hb3|[Ho Hs]]; [congruence|].
  destruct Hc as [Hc|[Hc|Hc]]; [|congruence|lia].
  destruct Hb1 as [Hb1|Hb1]; [|congruence]. specialize (I1 Hb1). congruence.
Qed.

Lemma talker_routine_app steps1 steps2 p :
  talker_routine (steps1 ++ steps2) p =
    (let '(r, log, p1) := talker_routine steps1 p in
     match r with
     | Pending => let '(r, log', p') := talker_routine steps2 p1 in (r, log ++ log', p')
     | _ => (r, log, p1)
     end).
Proof.
  revert p. induction steps1 as [|st steps IH]; intros p; cbn [app talker_routine].
  { by destruct (talker_routine steps2 p) as [[]]. }
  destruct st as [b|m| | |s|a];
    match goal with
    | |- context [select_branch ?b p] =>
      destruct (select_branch b p) as [[[e|] f] p1]; [destruct f; try done|]
    | |- context [outside ?st p] => destruct (outside st p) as [evs p1]
    end;
    rewrite IH; destruct (talker_routine steps p1) as [[[|r] log] p2]; try done;
    destruct (talker_routine steps2 p2) as [[r' log'] p']; by rewrite <-?(assoc_L (++)).
Qed.

Lemma rounds_end rounds p :
  Forall is_round rounds → talker_inv p → running p → eof p = true → closing p →
  measure p < length rounds → (talker_routine (looks (mjoin rounds)) p).1.1 ≠ Pending.
Proof.
  intros Hrounds. revert p. induction Hrounds as [|l rounds Hl _ IH]; intros p I R He Hc; [cbn; lia|].
  cbn [mjoin list_join length]. intros Hm. unfold looks. rewrite fmap_app, talker_routine_app.
  pose proof (round_effect l p Hl I R He Hc) as Hr.
  pose proof (talker_routine_effect (looks l) p) as Hre. unfold looks in Hr, Hre.
  destruct (talker_routine _ p) as [[[|r] log] p1]; [|done].
  destruct Hr as [?|(Hc1 & He1 & Hm1)]; [done|]. destruct Hre as [_ _ Hend]. destruct (Hend I R) as [I1 R1].
  specialize (IH p1 I1 R1 He1 Hc1 ltac:(lia)). unfold looks, mjoin in IH.
  by destruct (talker_routine _ p1) as [[r log'] p'].
Qed.

(** C38: a talker ends.  After any run that goes on, once the stop signal is there,
    or its channel is closed or without senders, and the other side has ended the
    socket, it ends after as many rounds of looks at its branches as there are
    messages left on either side, and four more, in whatever order each round
    looks at them.  Before that the [select!] always has a branch to wait for:
    it never panics. *)
Theorem talker_stops address stop conn rx n steps rounds :
  let '(r, _, p) := talker_routine steps (mkPeer (Talker_new address stop) conn rx n) in
  r = Pending →
  (∃ b, terminated b (pe_talker p) = false) ∧
  (closing p → eof p = true → Forall is_round rounds →
   length (inbound p) + length (rx_queue p) + 4 ≤ length rounds →
   (talker_routine (looks (mjoin rounds)) p).1.1 ≠ Pending).
Proof.
  destruct (fresh_inv address stop conn rx n) as [I0 R0].
  pose proof (talker_routine_effect steps (mkPeer (Talker_new address stop) conn rx n)) as Hre.
  destruct (talker_routine steps _) as [[r log] p]. destruct Hre as [_ _ Hend]. intros ->.
  destruct (Hend I0 R0) as [I R]. split.
  - destruct I as [_ _ I3 _ I5]. unfold running, is_done in R. rewrite I3, I5 in R.
    apply andb_false_iff in R as [R|R]; [by exists BrResponse|by exists BrRequest].
  - intros Hc He Hr Hl. apply rounds_end; try done. unfold measure.
    destruct (tk_done_over _), (tk_connection_over _), (tk_rx_over _); lia.
Qed.
(** ** What a run depends on

    Of the network, only the stop channel and whether the actor is there. *)

Definition alike (p1 p2 : Peer) : Prop :=
  pe_talker p1 = pe_talker p2 ∧ pe_connection p1 = pe_connection p2 ∧ pe_rx p1 = pe_rx p2 ∧
  net_status (pe_net p1) = net_status (pe_net p2) ∧ actor_open p1 = actor_open p2.

Lemma StopSender_stop_status s n1 n2 :
  net_status n1 = net_status n2 →
  net_status (StopSender_stop s n1).2 = net_status (StopSender_stop s n2).2.
Proof. intros E. unfold StopSender_stop. rewrite E. destruct (_ <$> _) as [[]|]; cbn; by rewrite ?E. Qed.

Lemma act_alike a m n1 n2 :
  net_status n1 = net_status n2 → normal_open n1 (addr_msg_tx a) = normal_open n2 (addr_msg_tx a) →
  let '(r1, n1') := act a m n1 in let '(r2, n2') := act a m n2 in
  r1 = r2 ∧ net_status n1' = net_status n2' ∧
  normal_open n1' (addr_msg_tx a) = normal_open n2' (addr_msg_tx a).
Proof.
  intros Est Eo. unfold act. destruct (normal_open n2 (addr_msg_tx a)) eqn:Ho.
  - destruct (normal_priority_send_open a (Envelope_new m) n1 Eo) as (R1 & O1 & _ & (_ & _ & S1 & _)).
    destruct (normal_priority_send_open a (Envelope_new m) n2 Ho) as (R2 & O2 & _ & (_ & _ & S2 & _)).
    destruct (normal_priority_send a _ n1), (normal_priority_send a _ n2). cbn in *. split_and!; congruence.
  - rewrite (normal_priority_send_closed _ _ _ Eo), (normal_priority_send_closed _ _ _ Ho).
    split_and!; congruence.
Qed.

Lemma select_branch_alike b p1 p2 :
  alike p1 p2 →
  let '(o1, f1, q1) := select_branch b p1 in let '(o2, f2, q2) := select_branch b p2 in
  o1 = o2 ∧ f1 = f2 ∧ alike q1 q2.
Proof.
  destruct p1 as [t c rx n1], p2 as [t' c' rx' n2]. intros (Et & Ec & Er & Es & Eo). cbn in *. subst t' c' rx'.
  unfold select_branch. cbn. destruct (terminated b t); [done|]. destruct b; cbn.
  - rewrite (stop_future_status _ _ _ Es). by destruct (StopReceiver_into_future (tk_stop t) n2).
  - destruct (ws_next c) as [[|[[msg|e]|]] c']; cbn; try done.
    unfold on_request. destruct (ws_is_text msg || ws_is_binary msg).
    + destruct (decode _) as [dec|e]; [|done]. cbn.
      pose proof (act_alike (tk_address t) (MsgAction (ws_incoming dec)) n1 n2 Es Eo) as Ha.
      destruct (act _ _ n1) as [[[]|e1] n1'], (act _ _ n2) as [[[]|e2] n2']; destruct Ha as ([=] & ? & ?);
        subst; done.
    + by destruct (ws_is_ping msg || ws_is_pong msg), (ws_is_close msg).
  - destruct (ub_next rx) as [[|[m|]] rx']; cbn; try done; unfold on_response; cbn.
    + destruct (encode m); [|done]. by destruct (ws_send _ _) as [[] c'].
    + by destruct (ws_close _) as [[] c'].
Qed.

Lemma outside_alike st p1 p2 :
  alike p1 p2 →
  let '(e1, q1) := outside st p1 in let '(e2, q2) := outside st p2 in e1 = e2 ∧ alike q1 q2.
Proof.
  destruct p1 as [t c rx n1], p2 as [t' c' rx' n2]. intros (Et & Ec & Er & Es & Eo). cbn in *. subst t' c' rx'.
  destruct st; cbn; try done; try (by destruct (has_sender rx)).
  split; [done|]. split_and!; cbn; try done.
  - by apply StopSender_stop_status.
  - unfold normal_open in *. cbn in *. by rewrite !StopSender_stop_lp.
Qed.

Lemma talker_routine_alike steps p1 p2 :
  alike p1 p2 →
  let '(r1, l1, q1) := talker_routine steps p1 in let '(r2, l2, q2) := talker_routine steps p2 in
  r1 = r2 ∧ l1 = l2 ∧ alike q1 q2.
Proof.
  revert p1 p2. induction steps as [|st steps IH]; intros p1 p2 Hp; cbn [talker_routine]; [done|].
  assert (∀ st, let '(r1, l1, q1) := (let '(evs, p) := outside st p1 in
        let '(r, log, p) := talker_routine steps p in (r, evs ++ log, p)) in
      let '(r2, l2, q2) := (let '(evs, p) := outside st p2 in
        let '(r, log, p) := talker_routine steps p in (r, evs ++ log, p)) in
      r1 = r2 ∧ l1 = l2 ∧ alike q1 q2) as Hout.
  { intros st'. pose proof (outside_alike st' p1 p2 Hp) as Ho.
    destruct (outside st' p1) as [e1 q1], (outside st' p2) as [e2 q2]. destruct Ho as [-> Hq].
    specialize (IH q1 q2 Hq). destruct (talker_routine steps q1) as [[]], (talker_routine steps q2) as [[]].
    by destruct IH as (-> & -> & ?). }
  destruct st as [b|m| | |s|a]; try apply (Hout (StSend m)); try apply (Hout StCloneSender);
    try apply (Hout StDropSender); try apply (Hout (StStop s)); try apply (Hout (StNetwork a)).
  pose proof (select_branch_alike b p1 p2 Hp) as Hs.
  destruct (select_branch b p1) as [[o f] q1], (select_branch b p2) as [[o2 f2] q2].
  destruct Hs as (<- & <- & Hq). destruct o as [e|]; [destruct f|].
  - specialize (IH q1 q2 Hq). destruct (talker_routine steps q1) as [[]], (talker_routine steps q2) as [[]].
    by destruct IH as (-> & -> & ?).
  - destruct Hq as (Ht & ?). by rewrite Ht.
  - done.
  - by apply IH.
Qed.

(** Whether a step is not a stop; without a stop the stop channel is as it was. *)
Definition no_stop (st : Step) : bool := match st with StStop _ => false | _ => true end.

Lemma select_branch_status b p : net_status (pe_net (select_branch b p).2) = net_status (pe_net p).
Proof.
  unfold select_branch. destruct (terminated b _); [done|].
  destruct (poll_branch b p) as [[|e] p1] eqn:Hpoll.
  - by apply poll_branch_pending in Hpoll as [-> _].
  - apply poll_branch_ready in Hpoll. pose proof (handle_event_effect e p1) as Hh.
    destruct (handle_event e p1) as [f p']. destruct Hh as [Hu _]. cbn.
    by rewrite (un_status _ _ Hu), (po_net _ _ _ _ Hpoll).
Qed.

Lemma outside_status st p :
  no_stop st = true → net_status (pe_net (outside st p).2) = net_status (pe_net p).
Proof. by destruct st; cbn; try destruct (has_sender _). Qed.

Lemma talker_routine_status steps p :
  forallb no_stop steps = true →
  net_status (pe_net (talker_routine steps p).2) = net_status (pe_net p).
Proof.
  revert p. induction steps as [|st steps IH]; intros p; [done|]. cbn [forallb talker_routine].
  intros [Hst Hsteps]%andb_true_iff.
  pose proof (outside_status st p Hst) as Ho.
  destruct st as [b|m| | |s|a]; cbn [outside] in *.
  { pose proof (select_branch_status b p) as Hs. destruct (select_branch b p) as [[[e|] f] p1]; cbn in Hs;
      [destruct f; try done|]; rewrite <-Hs, <-(IH p1 Hsteps); by destruct (talker_routine steps p1) as [[]]. }
  all: rewrite <-Ho; try destruct (has_sender _); cbn [snd] in *;
    match goal with |- context [talker_routine ?l ?q] =>
      rewrite <-(IH q Hsteps); by destruct (talker_routine l q) as [[]] end.
Qed.

(** ** When the channel is closed *)

Lemma select_branch_open b p :
  let '(o, f, p') := select_branch b p in
  f = Continue → rx_open p' = rx_open p && negb (match o with Some e => closes e | None => false end).
Proof.
  unfold select_branch. destruct (terminated b _); [by rewrite andb_true_r|].
  destruct (poll_branch b p) as [[|e] p1] eqn:Hpoll.
  - apply poll_branch_pending in Hpoll as [-> _]. by rewrite andb_true_r.
  - apply poll_branch_ready in Hpoll. pose proof (handle_event_effect e p1) as Hh.
    destruct (handle_event e p1) as [f p']. destruct Hh as [_ Hh]. intros ->.
    by rewrite (hd_open _ _ _ _ Hh), (po_open _ _ _ _ Hpoll).
Qed.

Lemma outside_open st p :
  rx_open (outside st p).2 = rx_open p ∧ existsb (ev_taken closes) (outside st p).1 = false.
Proof.
  destruct st as [b|m| | |s|a]; cbn; try done; destruct (has_sender _); cbn; try done.
  - unfold WsSender_send. destruct (rx_open p) eqn:Ho.
    + destruct (unbounded_send_open m _ Ho) as (c' & -> & Hv). by rewrite Hv.
    + by rewrite (unbounded_send_closed m _ Ho).
  - by rewrite ub_clone_tx_view.
  - by rewrite ub_drop_tx_view.
Qed.

Lemma talker_routine_open steps p :
  let '(r, log, p') := talker_routine steps p in
  r = Pending → rx_open p' = rx_open p && negb (existsb (ev_taken closes) log).
Proof.
  revert p. induction steps as [|st steps IH]; intros p; cbn [talker_routine]; [by rewrite andb_true_r|].
  assert (∀ st, let '(r, log, p') := (let '(evs, p) := outside st p in
      let '(r, log, p) := talker_routine steps p in (r, evs ++ log, p)) in
    r = Pending → rx_open p' = rx_open p && negb (existsb (ev_taken closes) log)) as Hout.
  { intros st'. destruct (outside_open st' p) as [Ho Hl]. destruct (outside st' p) as [evs p1].
    specialize (IH p1). destruct (talker_routine steps p1) as [[r log] p']. cbn in *. intros Hr.
    by rewrite (IH Hr), Ho, existsb_app, Hl. }
  destruct st as [b|m| | |s|a]; try apply (Hout (StSend m)); try apply (Hout StCloneSender);
    try apply (Hout StDropSender); try apply (Hout (StStop s)); try apply (Hout (StNetwork a)).
  pose proof (select_branch_open b p) as Hs. destruct (select_branch b p) as [[[e|] f] p1] eqn:Hsel.
  - destruct f; try done. specialize (IH p1). destruct (talker_routine steps p1) as [[r log] p'].
    intros Hr. rewrite (IH Hr), (Hs eq_refl). cbn. by rewrite negb_orb, andb_assoc.
  - pose proof (select_branch_look b p) as Hl. rewrite Hsel in Hl. destruct Hl as [-> _]. apply IH.
Qed.
End talker.

(** ** A reference socket

    Its view; the network brings items, and may end it. *)
Definition ref_network {M E} (a : list (result M E) * bool) (c : WsView M E) : WsView M E :=
  if sk_eof c then c
  else mkWsView (sk_inbound c ++ a.1) a.2 (sk_sent c) (sk_close_sent c).

#[export] Program Instance ref_socket {M E} : WsStream (WsView M E) M E (list (result M E) * bool) := {|
  ws_view c := c;
  ws_next c :=
    match sk_inbound c with
    | r :: q => (Ready (Some r), mkWsView q (sk_eof c) (sk_sent c) (sk_close_sent c))
    | [] => (if sk_eof c then Ready None else Pending, c)
    end;
  ws_send m c := (Ok tt, mkWsView (sk_inbound c) (sk_eof c) (sk_sent c ++ [m]) (sk_close_sent c));
  ws_close c := (Ok tt, mkWsView (sk_inbound c) (sk_eof c) (sk_sent c) true);
  network := ref_network;
  arrivals a c := if sk_eof c then [] else a.1
|}.
Next Obligation. intros M E c r q Hq; simpl in *. rewrite Hq. by eexists. Qed.
Next Obligation. intros M E c Hq; simpl in *. by rewrite Hq. Qed.
Next Obligation. done. Qed.
Next Obligation. intros M E c; simpl. by rewrite orb_true_r. Qed.
Next Obligation.
  intros M E a c; simpl. unfold ref_network. destruct (sk_eof c) eqn:He; cbn; rewrite ?app_nil_r, ?He; done.
Qed.

#[local] Existing Instance ref_crates.
#[local] Existing Instance sample_app.

(** Frames and a codec: a number is one byte, and is its own payload. *)
Inductive SampleFrame : Type := SfData (bytes : list Byte.byte) | SfPing | SfClose.

#[export] Instance sample_message : WsMessage SampleFrame := {|
  ws_binary := SfData;
  ws_is_ping f := match f with SfPing => true | _ => false end;
  ws_is_pong _ := false;
  ws_is_text _ := false;
  ws_is_binary f := match f with SfData _ => true | _ => false end;
  ws_is_close f := match f with SfClose => true | _ => false end;
  ws_into_bytes f := match f with SfData bytes => bytes | _ => [] end
|}.

#[export] Instance sample_codec : ProtocolCodec Error N N := {|
  decode bytes := match bytes with [b] => Ok (Byte.to_N b) | _ => Err (err_msg "decode") end;
  encode m := match Byte.of_N m with Some b => Ok [b] | None => Err (err_msg "encode") end
|}.

Definition sample_socket : WsView SampleFrame Error := mkWsView [] false [] false.
Definition sample_stop : StopReceiver := (make_stop_channel 7%positive sample_net).1.2.
Definition sample_stopper : StopSender := task_stop_sender (make_stop_channel 7%positive sample_net).1.1.
Definition sample_peer : Peer :=
  mkPeer (Talker_new sample_address sample_stop) sample_socket (unbounded (Uc:=Uc) (A:=N))
    (make_stop_channel 7%positive sample_net).2.
Definition sample_round : list Branch := [BrResponse; BrDone; BrRequest].

Lemma sample_round_complete : is_round sample_round.
Proof. intros []; repeat constructor. Qed.

(** A message each way, then the other side closes. *)
Definition sample_steps : list (@Step (list (result SampleFrame Error) * bool) N) :=
  [StSend 3%N; StNetwork ([Ok (SfData [Byte.x05]); Ok SfClose], true)] ++ looks (mjoin (replicate 3 sample_round)) ++
  [StSend 4%N].

Lemma talker_ends_witness :
  let o := talker_routine id sample_steps sample_peer in
  o.1.1 = Ready (Ok TrClosed) ∧
  Some <$> sk_sent (ws_view (pe_connection o.2)) = [Some (SfData [Byte.x03])].
Proof.
  assert ((talker_routine id sample_steps sample_peer).1.1 = Ready (Ok TrClosed)) as Hr by reflexivity.
  assert ((talker_routine id sample_steps sample_peer).1.2 ≫= ev_accepted = [3%N]) as Hl by reflexivity.
  pose proof (talker_ends id sample_address sample_stop sample_socket (unbounded (Uc:=Uc) (A:=N))
    (make_stop_channel 7%positive sample_net).2 sample_steps) as H.
  cbv zeta in H. change (mkPeer (Talker_new _ _) _ _ _) with sample_peer in H.
  destruct (talker_routine id sample_steps sample_peer) as [[r log] p]. cbn in Hr, Hl |- *.
  destruct (H TrClosed Hr) as (_ & _ & Hs & _). split; [exact Hr|]. rewrite Hl in Hs. exact Hs.
Defined.

(** Stopped with a message queued and one arriving, and a ping. *)
Definition sample_stopped : list (@Step (list (result SampleFrame Error) * bool) N) :=
  [StSend 3%N; StStop sample_stopper; StNetwork ([Ok SfPing; Ok (SfData [Byte.x05])], true)].
Definition sample_stopped_peer : Peer := (talker_routine id sample_stopped sample_peer).2.

Lemma talker_stops_witness :
  (talker_routine id sample_stopped sample_peer).1.1 = Pending ∧
  (talker_routine id (looks (mjoin (replicate 7 sample_round))) sample_stopped_peer).1.1 ≠ Pending.
Proof.
  assert ((talker_routine id sample_stopped sample_peer).1.1 = Pending) as Hr by reflexivity.
  assert (closing sample_stopped_peer) as Hc by (left; reflexivity).
  assert (sk_eof (ws_view (pe_connection sample_stopped_peer)) = true) as He by reflexivity.
  assert (length (sk_inbound (ws_view (pe_connection sample_stopped_peer))) +
    length (uv_queue (ub_view (pe_rx sample_stopped_peer))) + 4 ≤ 7) as Hl
    by (apply Nat.leb_le; reflexivity).
  pose proof (talker_stops id sample_address sample_stop sample_socket (unbounded (Uc:=Uc) (A:=N))
    (make_stop_channel 7%positive sample_net).2 sample_stopped (replicate 7 sample_round)) as H.
  change (mkPeer (Talker_new _ _) _ _ _) with sample_peer in H. unfold sample_stopped_peer in *.
  destruct (talker_routine id sample_stopped sample_peer) as [[r log] p].
  destruct (H Hr) as [_ Hs]. split; [exact Hr|]. apply Hs; [exact Hc|exact He| |exact Hl].
  apply Forall_replicate, sample_round_complete.
Defined.
