(* ===== verification/WebSocket.v ===== *)
(** * meio-connect: server/websocket.rs

    The route that upgrades a request to a WebSocket, the handler that gives out
    the two ends of a connection, and the task that serves it: a talker. *)
From S2P Require Import Prelude Extern Ids Types Linkage LiteRuntime Route Talker.

Section websocket.
Context `{!Crates, !App, !Hyper}.
Variable SocketAddr : Type.
(** [From<RouteError>] for [anyhow::Error] *)
Variable err_route : RouteError → Error.

(** ** WsFromRequest *)

(** The blanket implementation for a [DirectPath], the same as that of
    [FromRequest]; the trait is the record of Route.v. *)
Definition ws_direct_from_request (d : DirectPath) (request : Request)
  : option (result (dp_Output d) Error) :=
  let path := uri_path request in
  if existsb (λ p, bool_decide (p = path)) (dp_paths d) then
    let query := default "" (uri_query request) in
    let output := map_err (λ err, err_route (RouteError_new path query err)) (dp_from_qs d query) in
    Some output
  else None.

Definition WsDirectPath_extractor (d : DirectPath) : FromRequest :=
  mkFromRequest (dp_Output d) (ws_direct_from_request d).

(** ** WsHandler *)

Section handler.
Context {Conn M Act ToServer ToClient : Type}.
Context `{!WsMessage M, !ProtocolCodec Error ToServer ToClient, !WsStream Conn M Error Act}.

(** The channels of outgoing messages: a handler, its senders and the worker it
    starts share one. *)
Implicit Types (s : gmap loc (Uc ToClient)).

(** [WsInfo] *)
Record WsInfo : Type := mkWsInfo {
  wi_connection : Conn;
  wi_rx : loc
}.

Record WsHandler : Type := mkWsHandler {
  wh_addr : SocketAddr;
  wh_info : option WsInfo;
  wh_tx : loc
}.

(** [WsSender] (client.rs) *)
Record WsSender : Type := mkWsSender { ws_tx : loc }.
Definition WsSender_new (tx : loc) : WsSender := mkWsSender tx.

Definition WsHandler_new (addr : SocketAddr) (websocket : Conn) s : WsHandler * gmap loc (Uc ToClient) :=
  let ch := fresh (dom s) in
  let s := <[ch := unbounded]> s in
  let info := mkWsInfo websocket ch in
  (mkWsHandler addr (Some info) ch, s).

Definition WsHandler_addr (h : WsHandler) : SocketAddr := wh_addr h.

Definition WsHandler_send (h : WsHandler) (msg : ToClient) s : gmap loc (Uc ToClient) :=
  alter (WsSender_send msg) (wh_tx h) s.

Definition WsHandler_sender (h : WsHandler) s : WsSender * gmap loc (Uc ToClient) :=
  (WsSender_new (wh_tx h), alter ub_clone_tx (wh_tx h) s).

(** [WsProcessor] *)
Record WsProcessor : Type := mkWsProcessor {
  wp_info : WsInfo;
  wp_address : Address
}.

(** [worker]: the connection is given once. *)
Definition WsHandler_worker (h : WsHandler) (address : Address) : outcome (WsProcessor * WsHandler) :=
  match wh_info h with
  | Some info => Return (mkWsProcessor info address, mkWsHandler (wh_addr h) None (wh_tx h))
  | None => Panic "already started"
  end.

(** [WsProcessor::routine], from the channels and the network it starts with. *)
Definition WsProcessor_talker (w : WsProcessor) (stop : StopReceiver) s (n : Net) : option Peer :=
  (λ rx, mkPeer (Talker_new (wp_address w) stop) (wi_connection (wp_info w)) rx n) <$>
    s !! wi_rx (wp_info w).

Definition WsProcessor_routine (ws_incoming : ToServer → Payload) (w : WsProcessor)
  (stop : StopReceiver) (steps : list Step) s (n : Net)
  : option (poll (result TermReason Error) * list Event * Peer) :=
  talker_routine ws_incoming steps <$> WsProcessor_talker w stop s n.

(** ** The route *)

(** The task a matched request spawns: when the upgrade succeeds it sends the
    request's data and the connection to the actor. *)
Record UpgradeTask (Out : Type) : Type := mkUpgradeTask {
  up_address : Address; up_addr : SocketAddr; up_request : Request; up_value : Out
}.
Arguments mkUpgradeTask {Out} _ _ _ _.

Record WsRoute : Type := mkWsRoute { ws_extractor : FromRequest; ws_address : Address }.

(** [WsRoute::try_route]: what it returns, and the task it spawns. *)
Definition WsRoute_try_route (r : WsRoute) (addr : SocketAddr) (request : Request)
  : RouteResult * option (UpgradeTask (fr_Output (ws_extractor r))) :=
  match from_request (ws_extractor r) request with
  | Some (Ok value) =>
    let res := response_new body_empty in
    let address := Address_clone (ws_address r) in
    let res := if negb (has_upgrade request) then set_status BAD_REQUEST res else res in
    let ws_key := sec_websocket_key request in
    let task := mkUpgradeTask address addr request value in
    let res := set_status SWITCHING_PROTOCOLS res in
    let res := set_connection_upgrade res in
    let res := set_upgrade_websocket res in
    let res :=
      match ws_key with
      | Some value => set_websocket_accept (accept_from value) res
      | None => res
      end in
    (Ok (FutReady res), Some task)
  | None => (Err request, None)
  | Some (Err err) => (Ok (FutErr err), None)
  end.

(** [WsReq] *)
Record WsReq (Out : Type) : Type := mkWsReq { wsr_request : Out; wsr_stream : WsHandler }.
Arguments mkWsReq {Out} _ _.

(** What the spawned task does once [hyper::upgrade::on] gave a connection. *)
Definition run_upgrade {Out} (ws_req : WsReq Out → Payload) (t : UpgradeTask Out)
  (upgraded : result Conn Error) s (n : Net) : result unit Error * gmap loc (Uc ToClient) * Net :=
  match upgraded with
  | Ok websocket =>
    let '(stream, s) := WsHandler_new (up_addr _ t) websocket s in
    let msg := ws_req (mkWsReq (up_value _ t) stream) in
    match act (up_address _ t) (MsgAction msg) n with
    | (Ok _, n) => (Ok tt, s, n)
    | (Err err, n) => (Err err, s, n)
    end
  | Err err => (Err err, s, n)
  end.

(** C40: upgrading a request.  A request the extractor takes is answered with
    status 101, whether or not it asks for an upgrade (the 400 a request without
    the header is first given does not last), and one task is spawned: if the
    connection is made it sends the actor one message with the data and a handler
    of the connection that can start one worker, otherwise nothing.  A request
    whose data is wrong is an error, any other one is handed back unchanged, and
    neither spawns a task. *)
Theorem WsRoute_spec (r : WsRoute) addr req (ws_req : WsReq (fr_Output (ws_extractor r)) → Payload) :
  let o := WsRoute_try_route r addr req in
  match from_request (ws_extractor r) req with
  | None => o = (Err req, None)
  | Some (Err e) => o = (Ok (FutErr e), None)
  | Some (Ok value) =>
    ∃ resp task, o = (Ok (FutReady resp), Some task) ∧ response_status resp = SWITCHING_PROTOCOLS ∧
      ∀ s n, normal_open n (addr_msg_tx (ws_address r)) = true →
        (∀ conn, let '(h, s') := WsHandler_new addr conn s in
           let o' := run_upgrade ws_req task (Ok conn) s n in
           o'.1 = (Ok tt, s') ∧ normal_queue o'.2 (addr_msg_tx (ws_address r)) =
             normal_queue n (addr_msg_tx (ws_address r)) ++
             [Envelope_new (MsgAction (ws_req (mkWsReq value h)))]) ∧
        (∀ e, run_upgrade ws_req task (Err e) s n = (Err e, s, n))
  end.
Proof.
  cbv zeta. unfold WsRoute_try_route. destruct (from_request _ req) as [[value|e]|]; [|done|done].
  eexists _, _. split; [done|]. split.
  - destruct (sec_websocket_key req);
      by rewrite ?set_accept_status, set_upgrade_status, set_connection_status, set_status_status.
  - intros s n Ho. split; [|done]. intros conn. cbn. unfold act.
    match goal with |- context [Envelope_new ?m] =>
      destruct (normal_priority_send_open (ws_address r) (Envelope_new m) n Ho) as (Hr & _ & Hq & _) end.
    change (addr_msg_tx (Address_clone (ws_address r))) with (addr_msg_tx (ws_address r)) in *.
    unfold normal_priority_send in *. cbn in *.
    by destruct (_ <$> _) as [[]|]; simpl in *.
Qed.

(** ** A session *)

Lemma WsHandler_sends h l s ch :
  s !! wh_tx h = Some ch → uv_open (ub_view ch) = true →
  let s' := foldl (λ s m, WsHandler_send h m s) s l in
  (∃ ch', s' !! wh_tx h = Some ch' ∧
    ub_view ch' = mkUnboundedView (uv_queue (ub_view ch) ++ l) true (uv_senders (ub_view ch))) ∧
  ∀ k, k ≠ wh_tx h → s' !! k = s !! k.
Proof.
  revert s ch. induction l as [|m l IH]; intros s ch Hs Ho; cbn.
  { split; [|done]. exists ch. split; [done|]. rewrite app_nil_r, <-Ho. by destruct (ub_view ch). }
  destruct (unbounded_send_open m ch Ho) as (c' & Hsend & Hv).
  destruct (IH (WsHandler_send h m s) c') as [(ch' & Hl & Hv') Hk].
  - unfold WsHandler_send, WsSender_send. by rewrite lookup_alter_eq, Hs; cbn; rewrite Hsend.
  - by rewrite Hv.
  - split.
    + exists ch'. split; [done|]. rewrite Hv', Hv. cbn. by rewrite <-(assoc_L (++)).
    + intros k Hne. rewrite Hk by done. unfold WsHandler_send. by rewrite lookup_alter_ne.
Qed.

(** A session of a server.  The handler of a connection starts one worker, a
    second one panics.  What was sent through the handler before the worker
    started, and what is sent while it runs, is what the client gets: when the
    worker ends without an error, the frames given to the socket are those
    messages encoded, in order, and nothing else, and the socket was closed after
    them; the channels of other connections are as they were. *)
Theorem ws_session_spec ws_incoming addr conn address stop before steps s n :
  let '(h, s0) := WsHandler_new addr conn s in
  let s1 := foldl (λ s m, WsHandler_send h m s) s0 before in
  ∃ w h', WsHandler_worker h address = Return (w, h') ∧
    (∀ other, WsHandler_worker h' other = Panic "already started") ∧
    (∀ k, k ≠ wh_tx h → s1 !! k = s !! k) ∧
    ∃ r log p, WsProcessor_routine ws_incoming w stop steps s1 n = Some (r, log, p) ∧
      ∀ why, r = Ready (Ok why) →
        Some <$> sk_sent (ws_view (pe_connection p)) =
          (Some <$> sk_sent (ws_view conn)) ++ (frame_of <$> (before ++ (log ≫= ev_accepted))) ∧
        sk_close_sent (ws_view (pe_connection p)) = true.
Proof.
  cbn. set (l := fresh (dom s)). set (s0 := <[l := unbounded]> s).
  destruct (WsHandler_sends (mkWsHandler addr (Some (mkWsInfo conn l)) l) before s0 unbounded)
    as [(ch & Hl & Hv) Hk]; cbn in *.
  { by apply lookup_insert_eq. }
  { by rewrite unbounded_view. }
  eexists _, _. split; [done|]. split; [done|]. split.
  { intros k Hne. rewrite Hk by done. by apply lookup_insert_ne. }
  unfold WsProcessor_routine, WsProcessor_talker. cbn. rewrite Hl. cbn.
  pose proof (talker_end_effect ws_incoming address stop conn ch n steps) as He. cbv zeta in He.
  destruct (talker_routine ws_incoming steps _) as [[r log] p]. exists r, log, p. split; [done|].
  intros why Hr. destruct (He why Hr) as (_ & _ & Hs & Hc & _).
  rewrite Hs. cbn. by rewrite Hv, unbounded_view.
Qed.
End handler.
End websocket.
