(* ===== verification/Server.v ===== *)
(** * meio-connect: the HTTP server actor

    server/mod.rs, bind.rs, link.rs and the listener task of routine.rs: the
    actor that owns the routing table, starts the task that listens, restarts it
    when it fails, and tells who waits for it the address it is bound to. *)
From S2P Require Import Prelude Extern Ids Types Lifecycle Linkage LiteRuntime Handlers ActorRuntime Route.

Section server.
Context `{!Crates, !App, !ActorImpl, !Hyper}.
Context {Sl : Type → Type} `{!Slab Sl}.
Variable SocketAddr : Type.
Abbreviation TableStore := (gmap loc (Sl (Route SocketAddr))) (only parsing).
(** How the program's messages carry a socket address. *)
Variable addr_payload : SocketAddr → Payload.

(** ** The state of the actor *)

Inductive AddrState : Type :=
| NotAssignedYet (listeners : list loc)
| Assigned (addr : SocketAddr).

Definition AddrState_default : AddrState := NotAssignedYet [].

Record HttpServer : Type := mkHttpServer {
  hs_addr : SocketAddr;
  hs_addr_state : AddrState;
  hs_routing_table : RoutingTable;
  hs_retry_interval : option N        (* seconds *)
}.

Definition HttpServer_new (addr : SocketAddr) (retry_interval : option N) (s : TableStore)
  : HttpServer * TableStore :=
  let '(t, s) := RoutingTable_default SocketAddr s in
  (mkHttpServer addr AddrState_default t retry_interval, s).

Definition with_addr_state (s : AddrState) (h : HttpServer) : HttpServer :=
  mkHttpServer (hs_addr h) s (hs_routing_table h) (hs_retry_interval h).

(** ** bind.rs *)

(** [HttpServerLink::wait_for_address] *)
Definition wait_for_address (address : Address) (request : Payload) : TaskImpl :=
  interact address request.

(** [ActionHandler<Interact<WaitForAddress>>] *)
Definition handle_wait_for_address (responder : loc) (h : HttpServer) (n : Net)
  : HttpServer * Net :=
  match hs_addr_state h with
  | NotAssignedYet listeners => (with_addr_state (NotAssignedYet (listeners ++ [responder])) h, n)
  | Assigned addr => (h, (respond responder (Ok (addr_payload addr)) n).2)
  end.

(** [ActionHandler<AddrReady>] *)
Definition handle_addr_ready (addr : SocketAddr) (h : HttpServer) (n : Net) : HttpServer * Net :=
  let new_state := hs_addr_state h in
  let h := with_addr_state (Assigned addr) h in
  match new_state with
  | NotAssignedYet listeners =>
    (h, foldl (λ n listener, (respond listener (Ok (addr_payload addr)) n).2) n listeners)
  | Assigned _ => (h, n)
  end.

(** ** link.rs *)

(** [HttpServerLink::add_route]; [add_route_payload] boxes the route in an action. *)
Definition add_route (add_route_payload : Route SocketAddr → Payload) (address : Address)
  (route : Route SocketAddr) (n : Net) : result unit Error * Net :=
  act address (MsgAction (add_route_payload route)) n.

(** [ActionHandler<AddRoute>]: the table is shared, so it changes in the store. *)
Definition handle_add_route (route : Route SocketAddr) (h : HttpServer) (s : TableStore)
  : result unit Error * TableStore :=
  (Ok tt, insert_route SocketAddr route (hs_routing_table h) s).

(** ** Waiting for the address *)

(** What the actor handles that concerns its address. *)
Inductive AddrEvent : Type :=
| EvWaitFor (responder : loc)
| EvReady (addr : SocketAddr).

Definition addr_step (s : HttpServer * Net) (e : AddrEvent) : HttpServer * Net :=
  match e with
  | EvWaitFor responder => handle_wait_for_address responder s.1 s.2
  | EvReady addr => handle_addr_ready addr s.1 s.2
  end.

Definition responders (es : list AddrEvent) : list loc :=
  omap (λ e, match e with EvWaitFor r => Some r | EvReady _ => None end) es.
Definition announced (es : list AddrEvent) : list SocketAddr :=
  omap (λ e, match e with EvReady a => Some a | EvWaitFor _ => None end) es.

Definition listeners_of (h : HttpServer) : list loc :=
  match hs_addr_state h with NotAssignedYet l => l | Assigned _ => [] end.

Lemma respond_frame l v n k : k ≠ l → net_replies (respond l v n).2 !! k = net_replies n !! k.
Proof.
  intros Hk. unfold respond. destruct (_ <$> _) as [[o|[v' o]]|]; simpl; by rewrite ?lookup_insert_ne by done.
Qed.

Lemma respond_all_frame l v n k :
  k ∉ l → net_replies (foldl (λ n l, (respond l v n).2) n l) !! k = net_replies n !! k.
Proof.
  revert n; induction l as [|r l IH]; intros n Hk; simpl; [done|].
  rewrite IH by set_solver. apply respond_frame. set_solver.
Qed.

Lemma waiting_same n n' r : net_replies n' !! r = net_replies n !! r → waiting n r → waiting n' r.
Proof. unfold waiting. by intros ->. Qed.

Lemma respond_all_waiting l v n r :
  NoDup l → r ∈ l → waiting n r → replied (foldl (λ n l, (respond l v n).2) n l) r v.
Proof.
  revert n; induction l as [|k l IH]; intros n Hnd Hin Hw; simpl; [set_solver|].
  apply NoDup_cons in Hnd as [Hk Hnd]. apply elem_of_cons in Hin as [->|Hin].
  - unfold replied. rewrite respond_all_frame by done. by destruct (respond_waiting k v n Hw).
  - apply IH; [done..|]. eapply waiting_same; [|done]. apply respond_frame. set_solver.
Qed.

Lemma addr_steps_frame es s r :
  r ∉ listeners_of s.1 → r ∉ responders es →
  net_replies (foldl addr_step s es).2 !! r = net_replies s.2 !! r.
Proof.
  revert s; induction es as [|[k|a] es IH]; intros [h n] Hl Hr; [done|..]; cbn [foldl].
  - rewrite IH.
    + cbn. unfold handle_wait_for_address. destruct (hs_addr_state h); [done|].
      cbn. apply respond_frame. unfold responders in Hr. simpl in Hr. set_solver.
    + cbn in *. unfold handle_wait_for_address, listeners_of in *.
      unfold responders in Hr. simpl in Hr. destruct (hs_addr_state h) eqn:E; cbn; [|by rewrite E].
      set_solver.
    + unfold responders in *. simpl in Hr. set_solver.
  - rewrite IH.
    + cbn in *. unfold handle_addr_ready, listeners_of in *. destruct (hs_addr_state h); [|done].
      cbn. by apply respond_all_frame.
    + cbn. unfold handle_addr_ready. destruct (hs_addr_state h); cbn; set_solver.
    + done.
Qed.

Lemma addr_steps_listener es s r :
  NoDup (listeners_of s.1 ++ responders es) → r ∈ listeners_of s.1 → waiting s.2 r →
  let s' := foldl addr_step s es in
  match head (announced es) with
  | Some a => replied s'.2 r (Ok (addr_payload a))
  | None => waiting s'.2 r ∧ r ∈ listeners_of s'.1
  end.
Proof.
  revert s; induction es as [|[k|a] es IH]; intros [h n] Hnd Hr Hw; [done|..]; cbn [foldl].
  - unfold listeners_of in *. cbn in *. destruct (hs_addr_state h) as [l|a] eqn:E; [|set_solver].
    unfold handle_wait_for_address. rewrite E.
    apply (IH (with_addr_state (NotAssignedYet (l ++ [k])) h, n)); cbn; [|set_solver|done].
    by rewrite <-(assoc_L (++)).
  - unfold listeners_of in *. cbn in *. destruct (hs_addr_state h) as [l|b] eqn:E; [|set_solver].
    unfold handle_addr_ready. rewrite E. apply NoDup_app in Hnd as (Hl & Hd & _).
    unfold replied. rewrite addr_steps_frame; [by apply respond_all_waiting|cbn; set_solver|by apply Hd].
Qed.

Lemma addr_steps_state es s :
  hs_addr_state (foldl addr_step s es).1 =
    match last (announced es) with
    | Some a => Assigned a
    | None => match hs_addr_state s.1 with
              | NotAssignedYet l => NotAssignedYet (l ++ responders es)
              | Assigned a => Assigned a
              end
    end.
Proof.
  induction es as [|e es IH] using rev_ind; simpl; [by destruct (hs_addr_state s.1); rewrite ?app_nil_r|].
  unfold announced, responders in *. rewrite foldl_app, !omap_app. simpl. destruct e as [k|a]; cbn.
  - rewrite app_nil_r. unfold handle_wait_for_address. rewrite IH.
    destruct (last _); [cbn; by rewrite IH|]. destruct (hs_addr_state s.1); [|cbn; by rewrite IH].
    cbn. by rewrite <-(assoc_L (++)).
  - rewrite last_snoc. unfold handle_addr_ready.
    by destruct (hs_addr_state (foldl addr_step s es).1).
Qed.

(** C35: waiting for the address of the server.  Whoever asks for it is answered
    exactly with the address known when the request is handled, or, when there is
    none yet, with the first one announced afterwards; until then the request
    stays on the list of listeners and its requester waits. *)
Theorem address_announced es1 r es2 h n :
  hs_addr_state h = AddrState_default →
  NoDup (responders (es1 ++ EvWaitFor r :: es2)) → waiting n r →
  let s' := foldl addr_step (h, n) (es1 ++ EvWaitFor r :: es2) in
  match last (announced es1), head (announced es2) with
  | Some a, _ | None, Some a => replied s'.2 r (Ok (addr_payload a))
  | None, None => waiting s'.2 r ∧ r ∈ listeners_of s'.1
  end.
Proof.
  intros Hh Hnd Hw. unfold responders in Hnd. rewrite omap_app in Hnd. simpl in Hnd.
  fold (responders es1) in Hnd. fold (responders es2) in Hnd. cbv zeta. rewrite foldl_app. cbn [foldl].
  pose proof (addr_steps_state es1 (h, n)) as Hst. cbn in Hst. rewrite Hh in Hst. cbn in Hst.
  apply NoDup_app in Hnd as Hnd'. destruct Hnd' as (_ & Hd & [Hr2 _]%NoDup_cons).
  assert (r ∉ responders es1) as Hr1 by (intros Hr; apply (Hd r Hr); set_solver).
  pose proof (addr_steps_frame es1 (h, n) r) as Hf. unfold listeners_of in Hf. cbn in Hf.
  rewrite Hh in Hf. specialize (Hf ltac:(set_solver) Hr1).
  destruct (foldl addr_step (h, n) es1) as [h1 n1]. cbn in Hst, Hf.
  apply (waiting_same n n1) in Hw; [|done]. cbn [addr_step fst snd].
  destruct (last (announced es1)) as [a|].
  - unfold handle_wait_for_address. rewrite Hst. unfold replied.
    rewrite addr_steps_frame; [by destruct (respond_waiting r (Ok (addr_payload a)) n1 Hw)|..|done].
    unfold listeners_of. cbn. rewrite Hst. set_solver.
  - unfold handle_wait_for_address. rewrite Hst.
    apply (addr_steps_listener es2 (with_addr_state (NotAssignedYet (responders es1 ++ [r])) h1, n1) r);
      unfold listeners_of; cbn; [|set_solver|done].
    by rewrite <-(assoc_L (++)).
Qed.
End server.
Arguments hs_addr {SocketAddr} _.
Arguments hs_addr_state {SocketAddr} _.
Arguments hs_routing_table {SocketAddr} _.
Arguments hs_retry_interval {SocketAddr} _.

(** ** routine.rs: the task that listens *)

Record HyperRoutine (SocketAddr : Type) : Type := mkHyperRoutine {
  hr_owner : Address;
  hr_addr : SocketAddr;
  hr_routing_table : RoutingTable
}.
Arguments mkHyperRoutine {SocketAddr} _ _ _.
Arguments hr_owner {SocketAddr} _.
Arguments hr_addr {SocketAddr} _.
Arguments hr_routing_table {SocketAddr} _.

(** The task made by [start_http_listener]: it has a clone of the table. *)
Definition server_task {SocketAddr} (h : HttpServer SocketAddr) (owner : Address) : HyperRoutine SocketAddr :=
  mkHyperRoutine (Address_clone owner) (hs_addr h) (RoutingTable_clone (hs_routing_table h)).

(** The services its [routine] hands to hyper. *)
Definition make_svc {SocketAddr} (r : HyperRoutine SocketAddr) : MakeSvc :=
  mkMakeSvc (RoutingTable_clone (hr_routing_table r)).

Section listener.
Context `{!Crates, !App, !ActorImpl, !Hyper}.
Context {Sl : Type → Type} `{!Slab Sl}.
Variable SocketAddr : Type.
(** How the program's tasks carry the listener, and its messages the restart. *)
Variable hyper_task : HyperRoutine SocketAddr → Task.
Variable restart_listener : Payload.
Variable unit_tag : Payload.
Variable unit_group : Group.
Implicit Types (h : HttpServer SocketAddr).

(** ** routine.rs: the listener *)

Definition SHUTDOWN_TIMEOUT_SEC : N := 5.

Definition start_http_listener (h : HttpServer SocketAddr) (c : Context_) (w : World) : Context_ * World :=
  let server_task := UserTask (hyper_task (server_task h (ctx_address c))) in
  let '(_, c, w) := Context_spawn_task server_task unit_tag unit_group c w in (c, w).

(** [StartedBy<T>] and [InterruptedBy<T>] *)
Definition handle_started_by (h : HttpServer SocketAddr) (c : Context_) (w : World)
  : result unit Error * Context_ * World :=
  let '(c, w) := start_http_listener h c w in (Ok tt, c, w).
Definition handle_interrupted_by (o : Orders) (c : Context_) (w : World)
  : result unit Error * Context_ * World :=
  let '(c, w) := Context_shutdown o c w in (Ok tt, c, w).

(** [TaskEliminated<HyperRoutine, ()>], at the given time. *)
Definition handle_listener_eliminated (now : Instant) (res : result unit TaskError)
  (h : HttpServer SocketAddr) (c : Context_) (w : World) : outcome (result unit Error * World) :=
  if negb (Context_is_terminating c) then
    match res with
    | Err err =>
      match hs_retry_interval h with
      | Some interval =>
        match instant_add now (Duration_from_secs interval) with
        | Return when =>
          let '(r, n) := schedule (ctx_address c) restart_listener when (w_net w) in
          Return (r, with_net n w)
        | Panic message => Panic message
        end
      | None => Return (Ok tt, w)
      end
    | Ok _ => Return (Ok tt, w)
    end
  else Return (Ok tt, w).

(** [Scheduled<RestartListener>] *)
Definition handle_restart (h : HttpServer SocketAddr) (c : Context_) (w : World)
  : result unit Error * Context_ * World :=
  let '(c, w) := start_http_listener h c w in (Ok tt, c, w).

(** [HyperRoutine::routine], up to its [select]: binding, then telling the owner. *)
Definition hyper_start (r : HyperRoutine SocketAddr) (addr_ready : SocketAddr → Payload)
  (try_bind : SocketAddr → result SocketAddr Error) (n : Net) : result SocketAddr Error * Net :=
  match try_bind (hr_addr r) with
  | Err e => (Err e, n)
  | Ok addr =>
    match act (hr_owner r) (MsgAction (addr_ready addr)) n with
    | (Ok _, n) => (Ok addr, n)
    | (Err e, n) => (Err e, n)
    end
  end.

(** The [select] between the delayed stop and the server: when the stop signal
    comes, if it does, and when and how the server ends, if it does.  When both
    are ready, [left_first] says which one wins. *)
Definition hyper_select (left_first : bool) (stop_at : option Instant)
  (server : option (Instant * result unit Error)) : option (Instant * result unit Error) :=
  let delayed := (λ t, (t + Duration_from_secs SHUTDOWN_TIMEOUT_SEC)%N) <$> stop_at in
  match delayed, server with
  | Some t, Some (u, r) =>
    if (u <? t)%N || (negb left_first && (u =? t)%N) then Some (u, r) else Some (t, Ok tt)
  | Some t, None => Some (t, Ok tt)
  | None, Some (u, r) => Some (u, r)
  | None, None => None
  end.
(** Stopping the listener.  The task lasts as long as the server when it is
    not stopped; once it is stopped it ends at the latest five seconds later,
    with the server's own result when the server ends before that, and with
    success when it is cut off. *)
Theorem hyper_select_spec left_first stop_at server :
  let deadline t := (t + 5 * 1000000000)%N in
  match stop_at with
  | None => hyper_select left_first None server = server
  | Some t => ∃ u r, hyper_select left_first stop_at server = Some (u, r) ∧ (u ≤ deadline t)%N ∧
      (∀ v rv, server = Some (v, rv) → (v < deadline t)%N → u = v ∧ r = rv) ∧
      ((∀ v rv, server = Some (v, rv) → (deadline t < v)%N) → u = deadline t ∧ r = Ok tt)
  end.
Proof.
  cbv zeta. unfold hyper_select, Duration_from_secs, NANOS_PER_SEC, SHUTDOWN_TIMEOUT_SEC.
  destruct stop_at as [t|]; simpl; [|by destruct server as [[]|]].
  set (d := (t + 5 * 1000000000)%N).
  destruct server as [[v rv]|].
  - destruct (v <? d)%N eqn:Hlt; simpl.
    + apply N.ltb_lt in Hlt. exists v, rv. split; [done|]. split; [unfold d in *; lia|]. split; [naive_solver|].
      intros Hall. specialize (Hall v rv eq_refl). unfold d in *; lia.
    + apply N.ltb_ge in Hlt. destruct (negb left_first && (v =? d)%N) eqn:He.
      * apply andb_true_iff in He as [_ He%N.eqb_eq]. exists v, rv. split; [done|]. split; [unfold d in *; lia|].
        split; [intros; simplify_eq; auto|]. intros Hall. specialize (Hall v rv eq_refl). unfold d in *; lia.
      * exists d, (Ok tt). split; [done|]. split; [unfold d; lia|]. split; [|done].
        intros; simplify_eq. unfold d in *; lia.
  - exists d, (Ok tt). split; [done|]. split; [unfold d; lia|]. split; [done|done].
Qed.

(** C36: restarting the listener.  When the listener of an actor that is not
    terminating fails and a retry interval is set, one restart is scheduled,
    that many seconds from now, on the actor's own queue, if that time has a
    representation (the handler panics otherwise); in every other case nothing
    is.  The restart spawns one new listener, on the same address and a clone of
    the same routing table, which is tracked as a child. *)
Theorem listener_restarted now res h c w :
  instant_open (w_net w) (addr_hp_msg_tx (ctx_address c)) = true →
  match Context_is_terminating c, res, hs_retry_interval h with
  | false, Err _, Some interval =>
    let when := (now + Duration_from_secs interval)%N in
    if (when <=? instant_max)%N then
      ∃ w', handle_listener_eliminated now res h c w = Return (Ok tt, w') ∧
        queued_instant (ctx_address c) (mkParcel (OpSchedule when)
          (Envelope_instant (MsgScheduledItem when restart_listener))) (w_net w) (Ok tt, w_net w')
    else handle_listener_eliminated now res h c w = Panic "overflow when adding duration to instant"
  | _, _, _ => handle_listener_eliminated now res h c w = Return (Ok tt, w)
  end ∧
  (let '(r, c', w') := handle_restart h c w in
   ∃ rt, r = Ok tt ∧ w_tasks w' = <[lr_id rt := rt]> (w_tasks w) ∧
     lr_task rt = UserTask (hyper_task (server_task h (ctx_address c))) ∧
     ¬ Ids.live (net_heap (w_net w)) (lr_id rt) ∧
     lt_records (ctx_tracker c') !! lr_id rt =
       Some (mkTRecord unit_group (NStop (mkTaskAddress (lr_id rt) (mkStopSender (net_next (w_net w))))))).
Proof.
  intros Ho. split.
  - unfold handle_listener_eliminated. destruct (Context_is_terminating c); simpl; [done|].
    destruct res as [|e]; [done|]. destruct (hs_retry_interval h) as [interval|]; [|done].
    set (when := (now + Duration_from_secs interval)%N). unfold instant_add. fold when.
    destruct (when <=? instant_max)%N; [|done].
    destruct (high_priority_queued (ctx_address c) (mkParcel (OpSchedule when)
       (Envelope_instant (MsgScheduledItem when restart_listener))) (w_net w) Ho) as (Hr & Hq & Hon).
    unfold schedule, Parcel_new in *.
    destruct (high_priority_send _ _ (w_net w)) as [r n]; simpl in *. subst r. by eexists.
  - unfold handle_restart, start_http_listener, Context_spawn_task, lite_spawn, alloc_id.
    pose proof (Ids.unique_fresh (net_heap (w_net w))) as Hf.
    destruct (Ids.unique (net_heap (w_net w))) as [id hp]. unfold make_stop_channel, alloc_status.
    unfold Tracker.insert_task, Tracker.insert_record. cbn.
    match goal with |- context [<[id := ?rt]> (w_tasks w)] => exists rt end.
    split; [done|]. split; [done|]. cbn. split; [done|]. split; [done|].
    by rewrite lookup_insert_eq.
Qed.
End listener.

#[local] Existing Instance ref_crates.
#[local] Existing Instance sample_app.
#[local] Existing Instance sample_impl.
Import SampleHttp.

Definition sample_server : HttpServer N := (HttpServer_new N (Sl:=list) 80%N (Some 3%N) ∅).1.

(** Two requests before the address is known, and one after. *)
Definition sample_waiting : list loc * Net :=
  let '(r1, n) := alloc_reply net_empty in
  let '(r2, n) := alloc_reply n in
  let '(r3, n) := alloc_reply n in ([r1; r2; r3], n).

Definition sample_events : list (AddrEvent N) :=
  [EvWaitFor N 1%positive; EvWaitFor N 2%positive; EvReady N 8080%N; EvWaitFor N 3%positive].

Lemma address_announced_witness :
  sample_waiting.1 = [1; 2; 3]%positive ∧
  replied (foldl (addr_step N (λ a, a : Payload)) (sample_server, sample_waiting.2)
             sample_events).2 2%positive (Ok 8080%N).
Proof.
  split; [reflexivity|].
  refine (@address_announced ref_crates sample_app N (λ a, a)
    [EvWaitFor N 1%positive] 2%positive [EvReady N 8080%N; EvWaitFor N 3%positive]
    sample_server sample_waiting.2 eq_refl _ _).
  - apply (bool_decide_unpack _). vm_compute. exact I.
  - eexists. split; [reflexivity|]. split; reflexivity.
Defined.

Lemma listener_restarted_witness :
  ∃ w', handle_listener_eliminated N (9%N : Payload) 100%N (Err Interrupted) sample_server
    (mkContext true sample_address Tracker.new) (mkWorld sample_net ∅ ∅) = Return (Ok tt, w') ∧
  instant_queue (w_net w') (addr_hp_msg_tx sample_address) =
    [mkParcel (OpSchedule 3000000100) (Envelope_instant (MsgScheduledItem 3000000100 (9%N : Payload)))].
Proof.
  destruct (@listener_restarted ref_crates sample_app N (λ r, hr_addr r) 9%N 0%N 0%N 100%N (Err Interrupted)
    sample_server (mkContext true sample_address Tracker.new) (mkWorld sample_net ∅ ∅) eq_refl)
    as [(w' & Hw & _ & Hq & _) _].
  exists w'. split; [exact Hw|]. exact Hq.
Defined.
