(* ===== verification/Serving.v ===== *)
(** * meio-connect: serving requests

    The actor of server/mod.rs, the listeners it starts and the services of their
    connections, together: all of them share one routing table.  What a request
    gets is compared with a reference that knows nothing of clones, listeners and
    stores. *)
From S2P Require Import Prelude Extern Ids Types Linkage Route Server.

Section serving.
Context `{!Crates, !App, !Hyper}.
Context {Sl : Type → Type} `{!Slab Sl}.
Context {SocketAddr : Type}.
Variable error_text : Error → string.
Variable owner : Address.
Implicit Types (s : gmap loc (Sl (Route SocketAddr))) (h : HttpServer SocketAddr).

(** ** The parts of a running server *)

Record Service : Type := mkService {
  sv_server : HttpServer SocketAddr;
  sv_store : gmap loc (Sl (Route SocketAddr));
  sv_listeners : list (HyperRoutine SocketAddr);    (* every one ever started *)
  sv_connections : list (Svc SocketAddr)            (* every one ever accepted *)
}.

(** [EvListen]: the listener of a start or of a restart.  A request comes with
    what awaiting the future of a route gives then. *)
Inductive HttpEvent : Type :=
| EvAddRoute (route : Route SocketAddr)
| EvListen
| EvAccept (listener : nat) (remote_addr : SocketAddr)
| EvRequest (connection : nat) (req : Request) (await : RouteFut → result Response Error).

Definition service_step (e : HttpEvent) (v : Service) : option Response * Service :=
  match e with
  | EvAddRoute route =>
    let '(_, s) := handle_add_route SocketAddr route (sv_server v) (sv_store v) in
    (None, mkService (sv_server v) s (sv_listeners v) (sv_connections v))
  | EvListen =>
    (None, mkService (sv_server v) (sv_store v)
             (sv_listeners v ++ [server_task (sv_server v) owner]) (sv_connections v))
  | EvAccept j remote_addr =>
    match sv_listeners v !! j with
    | Some r => (None, mkService (sv_server v) (sv_store v) (sv_listeners v)
                         (sv_connections v ++ [MakeSvc_call SocketAddr remote_addr (make_svc r)]))
    | None => (None, v)
    end
  | EvRequest k req await =>
    match sv_connections v !! k with
    | Some svc => (Some (Svc_call SocketAddr error_text await svc (sv_store v) req), v)
    | None => (None, v)
    end
  end.

Fixpoint serve (es : list HttpEvent) (v : Service) : list (option Response) * Service :=
  match es with
  | [] => ([], v)
  | e :: es =>
    let '(r, v) := service_step e v in
    let '(rs, v) := serve es v in (r :: rs, v)
  end.

Definition service_new (addr : SocketAddr) (retry_interval : option N) s : Service :=
  let '(h, s) := HttpServer_new SocketAddr addr retry_interval s in mkService h s [] [].

(** ** The reference *)

(** One list of routes, the number of listeners, the addresses of the clients. *)
Record Ref : Type := mkRef {
  ref_routes : list (Route SocketAddr);
  ref_listeners : nat;
  ref_clients : list SocketAddr
}.

(** What a route makes of a request, if it takes it. *)
Definition takes (addr : SocketAddr) (req : Request) (route : Route SocketAddr) : option RouteFut :=
  match route addr req with Ok fut => Some fut | Err _ => None end.

(** The first of the routes that take the request answers it. *)
Definition ref_answer (routes : list (Route SocketAddr)) (addr : SocketAddr) (req : Request)
  (await : RouteFut → result Response Error) : Response :=
  match await <$> head (omap (takes addr req) routes) with
  | Some (Ok resp) => resp
  | Some (Err err) => set_status INTERNAL_SERVER_ERROR (response_new (body_from (error_text err)))
  | None => set_status NOT_FOUND (response_new body_empty)
  end.

Definition ref_step (e : HttpEvent) (f : Ref) : option Response * Ref :=
  match e with
  | EvAddRoute route => (None, mkRef (ref_routes f ++ [route]) (ref_listeners f) (ref_clients f))
  | EvListen => (None, mkRef (ref_routes f) (S (ref_listeners f)) (ref_clients f))
  | EvAccept j remote_addr =>
    (None, if bool_decide (j < ref_listeners f)
           then mkRef (ref_routes f) (ref_listeners f) (ref_clients f ++ [remote_addr]) else f)
  | EvRequest k req await =>
    ((λ addr, ref_answer (ref_routes f) addr req await) <$> ref_clients f !! k, f)
  end.

Fixpoint ref_serve (es : list HttpEvent) (f : Ref) : list (option Response) * Ref :=
  match es with
  | [] => ([], f)
  | e :: es =>
    let '(r, f) := ref_step e f in
    let '(rs, f) := ref_serve es f in (r :: rs, f)
  end.

(** ** The simulation *)

(** Every clone is the table of the server. *)
Record simulates (f : Ref) (v : Service) : Prop := {
  sim_stored : is_Some (sv_store v !! routes (hs_routing_table (sv_server v)));
  sim_routes : table_routes SocketAddr (hs_routing_table (sv_server v)) (sv_store v) = ref_routes f;
  sim_listeners : length (sv_listeners v) = ref_listeners f;
  sim_tables : Forall (λ r, hr_routing_table r = hs_routing_table (sv_server v)) (sv_listeners v);
  sim_clients : sv_connections v =
    (λ addr, mkSvc SocketAddr addr (hs_routing_table (sv_server v))) <$> ref_clients f;
  sim_honest : Forall (honest SocketAddr) (ref_routes f)
}.

(** The routes that are added hand the requests they do not take back unchanged. *)
Definition honest_event (e : HttpEvent) : Prop :=
  match e with EvAddRoute route => honest SocketAddr route | _ => True end.

Lemma RoutingTable_clone_id t : RoutingTable_clone t = t.
Proof. by destruct t. Qed.

Lemma simulates_new addr retry_interval s : simulates (mkRef [] 0 []) (service_new addr retry_interval s).
Proof.
  unfold service_new, HttpServer_new. pose proof (RoutingTable_default_spec SocketAddr s) as Ht.
  destruct (RoutingTable_default _ s) as [t s']. destruct Ht as (_ & H1' & H2'). by split.
Qed.

Lemma Svc_call_answer await svc s req :
  Forall (honest SocketAddr) (table_routes SocketAddr (svc_routing_table _ svc) s) →
  Svc_call SocketAddr error_text await svc s req =
    ref_answer (table_routes SocketAddr (svc_routing_table _ svc) s) (svc_addr _ svc) req await.
Proof.
  intros Hh. unfold Svc_call, ref_answer. rewrite RoutingTable_clone_id, find_route_first by done.
  change (λ r : Route SocketAddr, match r (svc_addr SocketAddr svc) req with Ok fut => Some fut | Err _ => None end)
    with (takes (svc_addr SocketAddr svc) req).
  destruct (head _) as [fut|]; [|done]. cbn. by destruct (await fut).
Qed.

Lemma simulates_step e f v :
  simulates f v → honest_event e →
  let '(r, v') := service_step e v in let '(r', f') := ref_step e f in
  r = r' ∧ simulates f' v'.
Proof.
  intros [A1 A2 A3 A4 A5 A6] He. destruct e as [route| |j remote|k req await]; cbn.
  - split; [done|]. split; cbn; try done.
    + unfold insert_route. rewrite lookup_alter_eq. destruct A1 as [sl ->]. by eexists.
    + rewrite (table_routes_insert SocketAddr), decide_True by done. by rewrite A2.
    + apply Forall_app. by split; [|constructor].
  - split; [done|]. split; cbn; try done.
    + rewrite length_app, A3. simpl. lia.
    + apply Forall_app. split; [done|]. constructor; [apply RoutingTable_clone_id|done].
  - case_bool_decide as Hj; rewrite <-A3 in Hj.
    + apply lookup_lt_is_Some in Hj as [r Hr]. rewrite Hr. split; [done|]. split; cbn; try done.
      rewrite fmap_app, <-A5. unfold MakeSvc_call, make_svc. cbn. rewrite !RoutingTable_clone_id.
      rewrite Forall_lookup in A4. by rewrite (A4 _ _ Hr).
    + assert (sv_listeners v !! j = None) as -> by (apply lookup_ge_None; lia). done.
  - rewrite A5, list_lookup_fmap. destruct (ref_clients f !! k) as [addr|]; [|done].
    cbn. split; [|done]. rewrite Svc_call_answer; cbn; by rewrite A2.
Qed.

(** C34: one table for all.  The routes that are added hand the requests they do not
    take back unchanged, as those of the library do.  Then the responses of a server,
    over any sequence of added routes, starts and restarts of its listener, new
    connections and requests, are those of the reference: a request is answered by the
    first of the routes added before it that takes it, with status 500 and the text of
    the error if that fails, and with status 404 if there is none, whichever listener
    accepted its connection, and whether the route was added before or after that. *)
Theorem serving_equiv addr retry_interval s es :
  Forall honest_event es →
  (serve es (service_new addr retry_interval s)).1 = (ref_serve es (mkRef [] 0 [])).1.
Proof.
  pose proof (simulates_new addr retry_interval s) as Hsim. revert Hsim.
  generalize (mkRef [] 0 []), (service_new addr retry_interval s).
  induction es as [|e es IH]; intros f v Hsim Hh; cbn [serve ref_serve]; [done|].
  apply Forall_cons in Hh as [He Hh].
  pose proof (simulates_step e f v Hsim He) as Hs.
  destruct (service_step e v) as [r v'], (ref_step e f) as [r' f']. destruct Hs as [-> Hs].
  specialize (IH f' v' Hs Hh). destruct (serve es v'), (ref_serve es f'). cbn in *. by rewrite IH.
Qed.
End serving.

#[local] Existing Instance ref_crates.
#[local] Existing Instance sample_app.
Import SampleHttp.

(** A connection is accepted, then two routes for the same paths are added: the first
    answers, with the error of its extractor. *)
Definition sample_events : list (HttpEvent (SocketAddr:=N)) :=
  [EvListen; EvAccept 0 7%N; EvRequest 0 (sample_req "/b" "bad") (λ _, Ok ok_response);
   EvAddRoute sample_route; EvAddRoute (λ _ _, Ok (FutReady ok_response));
   EvRequest 0 (sample_req "/b" "bad")
     (λ fut, match fut with FutErr e => Err e | _ => Ok ok_response end)].

Lemma serving_equiv_witness :
  omap id (serve (λ e, "failed"%string) sample_address sample_events
    (service_new (Sl:=list) 0%N None ∅)).1 =
  [set_status NOT_FOUND (response_new body_empty);
   set_status INTERNAL_SERVER_ERROR (response_new (body_from "failed"%string))].
Proof.
  rewrite (serving_equiv (Sl:=list) (λ e, "failed"%string) sample_address 0%N None ∅ sample_events).
  - reflexivity.
  - unfold sample_events. repeat constructor; [apply WebRoute_honest|]. by intros addr req req'.
Defined.
