(* ===== verification/Client.v ===== *)
(** * meio-connect: client.rs

    The loop that keeps a WebSocket client connected: it reports every change of
    the connection to an actor, runs a talker on every connection it makes, and
    retries at an interval until it is stopped. *)
From S2P Require Import Prelude Extern Ids Types Linkage LiteRuntime Talker WebSocket.

(** [WsFailReason] *)
Inductive WsFailReason : Type := ClosedByServer | ConnectionFailed | ServerNotAvailable.

#[export] Instance WsFailReason_eq_dec : EqDecision WsFailReason.
Proof. solve_decision. Defined.

(** [WsClientStatus]; the sender is that of the channel made for the connection. *)
Inductive WsClientStatus : Type :=
| Connected (sender : WsSender)
| Failed (reason : WsFailReason).

Section client.
Context `{!Crates, !App}.
Context {Conn M Act ToClient ToServer : Type}.
Context `{!WsMessage M, !ProtocolCodec Error ToClient ToServer, !WsStream Conn M Error Act}.
Variable ws_incoming : ToClient → Payload.
(** A status as the message of an instant action. *)
Variable client_status : WsClientStatus → Payload.
(** [From<WsFailReason>] for [anyhow::Error] *)
Variable err_fail_reason : WsFailReason → Error.
(** The two ends of the stop channel of the task. *)
Variable stopper : StopSender.
Variable stop : StopReceiver.

(** What the world does during one iteration of the loop: whether the task is
    stopped before it, or while it connects; what [connect_async] gives; where the
    channel of the connection is allocated; what
    happens to the connection; whether the task is stopped while it waits; and what the
    clock shows when [connect_async] has returned, once more when it gave a connection,
    and when the time since [last_success] is taken. *)
Record Attempt : Type := mkAttempt {
  at_stop_before : bool;
  at_stop_connecting : bool;
  at_connect : result Conn Error;
  at_tx : loc;
  at_steps : list (Step (Act:=Act) (Outgoing:=ToServer));
  at_started : Instant;
  at_connected : Instant;
  at_lost : Instant;
  at_stop_waiting : bool
}.

Record WsClient : Type := mkWsClient {
  cl_repeat_interval : option Duration;
  cl_address : Address
}.

Definition WsClient_new (repeat_interval : option Duration) (address : Address) : WsClient :=
  mkWsClient repeat_interval address.

Definition stopped_if (b : bool) (n : Net) : Net :=
  if b then (StopSender_stop stopper n).2 else n.

(** The talker of an attempt that connected. *)
Definition session (cl : WsClient) (a : Attempt) (conn : Conn) (n : Net)
  : poll (result TermReason Error) * list Event * Peer :=
  talker_routine ws_incoming (at_steps a)
    (mkPeer (Talker_new (Address_clone (cl_address cl)) stop) conn unbounded n).

(** The first half of an iteration: connecting and talking. *)
Inductive Talk : Type :=
| TalkPending
| TalkReturn (r : result unit Error)
| TalkFailed (reason : WsFailReason) (original_err : Error) (last_success : Instant).

Definition client_talk (cl : WsClient) (a : Attempt) (n : Net) : Talk * Net :=
  let n := stopped_if (at_stop_connecting a) n in
  let last_success := at_started a in
  match at_connect a with
  | Ok wss =>
    let last_success := at_connected a in
    let sender := WsSender_new (at_tx a) in
    match instant (cl_address cl) (MsgInstant (client_status (Connected sender))) n with
    | (Err e, n) => (TalkReturn (Err e), n)
    | (Ok _, n) =>
      let '(res, _, p) := session cl a wss n in
      let n := pe_net p in
      match res with
      | Pending => (TalkPending, n)
      | Ready (Ok reason) =>
        if TermReason_is_interrupted reason then (TalkReturn (Ok tt), n)
        else (TalkFailed ClosedByServer (err_fail_reason ClosedByServer) last_success, n)
      | Ready (Err err) => (TalkFailed ConnectionFailed err last_success, n)
      end
    end
  | Err err => (TalkFailed ServerNotAvailable err last_success, n)
  end.

(** The second half: the wait before the next attempt. *)
Inductive Wait : Type :=
| WaitOver (dur : Duration)
| WaitStopped
| WaitPanic (message : string).

Definition client_wait (dur : Duration) (last_success : Instant) (a : Attempt) (n : Net) : Wait * Net :=
  let elapsed := instant_elapsed last_success (at_lost a) in
  if (elapsed <? dur)%N then
    match duration_sub dur elapsed with
    | Panic message => (WaitPanic message, n)
    | Return remained =>
      let n := stopped_if (at_stop_waiting a) n in
      match StopReceiver_or (A:=unit) true stop Pending n with
      | Ready TaskStopped => (WaitStopped, n)
      | _ => (WaitOver remained, n)
      end
    end
  else (WaitOver 0, n).

(** [connection_routine], also giving the waits of its iterations. *)
Fixpoint connection_routine (cl : WsClient) (attempts : list Attempt) (n : Net)
  : poll (outcome (result unit Error)) * list Duration * Net :=
  match attempts with
  | [] => (Pending, [], n)
  | a :: attempts =>
    let n := stopped_if (at_stop_before a) n in
    if StopReceiver_is_alive stop n then
      match client_talk cl a n with
      | (TalkPending, n) => (Pending, [], n)
      | (TalkReturn r, n) => (Ready (Return r), [], n)
      | (TalkFailed fail_reason original_err last_success, n) =>
        match instant (cl_address cl) (MsgInstant (client_status (Failed fail_reason))) n with
        | (Err e, n) => (Ready (Return (Err e)), [], n)
        | (Ok _, n) =>
          match cl_repeat_interval cl with
          | Some dur =>
            match client_wait dur last_success a n with
            | (WaitOver w, n) =>
              let '(r, waits, n) := connection_routine cl attempts n in (r, w :: waits, n)
            | (WaitStopped, n) => (Ready (Return (Err err_task_stopped)), [], n)
            | (WaitPanic message, n) => (Ready (Panic message), [], n)
            end
          | None => (Ready (Return (Err original_err)), [], n)
          end
        end
      end
    else (Ready (Return (Ok tt)), [], n)
  end.

(** ** One attempt *)

(** The stop channel was made and nobody has used it. *)
Definition stoppable (n : Net) : Prop :=
  ∃ k, rx_loc (stop_status stop) = stop_tx stopper ∧
    stop_watch n stopper = Some (mkWatchView Alive (rx_seen (stop_status stop)) (S k) true).

Lemma stoppable_alive n : stoppable n →
  StopReceiver_is_alive stop n = true ∧ StopReceiver_into_future stop n = Pending.
Proof.
  intros (k & Hl & Hw). destruct (stop_watch_future _ _ _ _ Hl Hw) as [-> Hf]. split; [done|].
  apply stop_future_pending. rewrite Hf. cbn. naive_solver.
Qed.

Lemma stoppable_stop n : stoppable n →
  StopReceiver_is_alive stop (StopSender_stop stopper n).2 = false ∧
  StopReceiver_into_future stop (StopSender_stop stopper n).2 = Ready tt.
Proof.
  intros (k & Hl & Hw). destruct (stop_watch_stop _ _ _ Hw ltac:(done)) as [_ Hw'].
  destruct (stop_watch_future _ _ _ _ Hl Hw') as [-> Hf]. split; [done|]. apply Hf. left. cbn. split; [lia|done].
Qed.

Lemma stoppable_status n n' : net_status n' = net_status n → stoppable n → stoppable n'.
Proof. intros E (k & Hl & Hw). exists k. split; [done|]. unfold stop_watch in *. by rewrite E. Qed.

(** The actor is there. *)
Definition reachable (cl : WsClient) (n : Net) : Prop :=
  instant_open n (addr_hp_msg_tx (cl_address cl)) = true ∧
  normal_open n (addr_msg_tx (cl_address cl)) = true.

Definition status_parcel (status : Payload) : Parcel :=
  mkParcel OpForward (Envelope_instant (MsgInstant status)).
Definition incoming_envelope (m : Payload) : Envelope := Envelope_new (MsgAction m).

Abbreviation statuses cl n := (instant_queue n (addr_hp_msg_tx (cl_address cl))).
Abbreviation messages cl n := (normal_queue n (addr_msg_tx (cl_address cl))).

(** Between two states of the network that differ in what the client sent. *)
Record sends (cl : WsClient) (sts msgs : list Payload) (n n' : Net) : Prop := {
  sd_reachable : reachable cl n';
  sd_status : net_status n' = net_status n;
  sd_statuses : statuses cl n' = statuses cl n ++ (status_parcel <$> sts);
  sd_messages : messages cl n' = messages cl n ++ (incoming_envelope <$> msgs)
}.

Lemma sends_refl cl n : reachable cl n → sends cl [] [] n n.
Proof. intros Hr. split; rewrite ?app_nil_r; done. Qed.

Lemma sends_trans cl s1 m1 s2 m2 n1 n2 n3 :
  sends cl s1 m1 n1 n2 → sends cl s2 m2 n2 n3 → sends cl (s1 ++ s2) (m1 ++ m2) n1 n3.
Proof.
  intros [_ A1 A2 A3] [R B1 B2 B3]. split; [done|congruence|..].
  - by rewrite B2, A2, fmap_app, (assoc_L (++)).
  - by rewrite B3, A3, fmap_app, (assoc_L (++)).
Qed.

Lemma instant_sends cl status n :
  reachable cl n →
  ∃ n', instant (cl_address cl) (MsgInstant status) n = (Ok tt, n') ∧ sends cl [status] [] n n'.
Proof.
  intros [Ho Ho2]. unfold instant.
  destruct (high_priority_send_open (cl_address cl) (Parcel_new OpForward (MsgInstant status)) n Ho)
    as (Hr & Ho' & Hq & (_ & Hlp & Hst & _)).
  destruct (high_priority_send _ _ n) as [r n']; cbn in *. subst r. exists n'. split; [done|].
  unfold normal_open, normal_queue in *. split; rewrite ?app_nil_r; try done.
  - split; [done|]. unfold normal_open. by rewrite Hlp.
  - unfold normal_queue. by rewrite Hlp.
Qed.

(** What the session of an attempt gives, whatever was sent before it. *)
Lemma session_sends cl a conn n0 n :
  net_status n = net_status n0 → reachable cl n0 → reachable cl n →
  let '(r0, log0, p0) := session cl a conn n0 in
  let '(r, log, p) := session cl a conn n in
  r = r0 ∧ log = log0 ∧ net_status (pe_net p) = net_status (pe_net p0) ∧
  (forallb no_stop (at_steps a) = true → sends cl [] (log ≫= ev_incoming ws_incoming) n (pe_net p)) ∧
  statuses cl (pe_net p) = statuses cl n ∧ messages cl (pe_net p) = messages cl n ++ (incoming_envelope <$> (log ≫= ev_incoming ws_incoming)).
Proof.
  intros Hst [_ Ho0] [Hi Ho]. unfold session. set (t := Talker_new _ _).
  set (peer n := mkPeer t conn (unbounded (A:=ToServer)) n).
  change (mkPeer t conn unbounded n0) with (peer n0). change (mkPeer t conn unbounded n) with (peer n).
  assert (alike (peer n) (peer n0)) as Hal by (split_and!; cbn; try done; by rewrite Ho, Ho0).
  pose proof (talker_routine_alike ws_incoming (at_steps a) _ _ Hal) as H'.
  pose proof (talker_routine_effect ws_incoming (at_steps a) (peer n)) as He.
  pose proof (talker_routine_status ws_incoming (at_steps a) (peer n)) as Hs.
  destruct (talker_routine ws_incoming _ (peer n0)) as [[r0 log0] p0], (talker_routine ws_incoming _ (peer n)) as [[r log] p].
  destruct H' as (-> & -> & (Ht & _ & _ & Hst' & _)). destruct He as [[Ha _ Hq _ _ _ _ _ Hhp Hop] _ _].
  cbn in Ha, Hq, Hop. rewrite Ha in Hq, Hop. change (addr_msg_tx (Address_clone ?x)) with (addr_msg_tx x) in *.
  assert (statuses cl (pe_net p) = statuses cl n) as Hsq by (unfold instant_queue; by rewrite Hhp).
  split_and!; try done. intros Hns. split; rewrite ?app_nil_r; try done; [|by apply Hs].
  split; [|by rewrite Hop]. unfold instant_open in *. by rewrite Hhp.
Qed.

(** ** Attempts that fail *)

(** Nobody stops the task during the attempt. *)
Definition undisturbed (a : Attempt) : bool :=
  negb (at_stop_before a) && negb (at_stop_connecting a) && forallb no_stop (at_steps a).

(** Why the attempt fails, and what was received before; [None] if its session
    goes on, or is interrupted. *)
Definition attempt_failure (cl : WsClient) (n : Net) (a : Attempt) : option (WsFailReason * Error) :=
  match at_connect a with
  | Err err => Some (ServerNotAvailable, err)
  | Ok conn =>
    match (session cl a conn n).1.1 with
    | Ready (Ok TrClosed) => Some (ClosedByServer, err_fail_reason ClosedByServer)
    | Ready (Err err) => Some (ConnectionFailed, err)
    | _ => None
    end
  end.
Definition attempt_received (cl : WsClient) (n : Net) (a : Attempt) : list Payload :=
  match at_connect a with
  | Err _ => []
  | Ok conn => (session cl a conn n).1.2 ≫= ev_incoming ws_incoming
  end.

(** What the actor is told of the connection. *)
Abbreviation connected a := (client_status (Connected (WsSender_new (at_tx a)))).
Abbreviation failed reason := (client_status (Failed reason)).
Definition attempt_statuses (cl : WsClient) (n : Net) (a : Attempt) : list Payload :=
  (if is_ok (at_connect a) then [connected a] else []) ++
  match attempt_failure cl n a with Some (reason, _) => [failed reason] | None => [] end.

(** When the client last had a connection, or gave up to make one. *)
Definition last_success (a : Attempt) : Instant :=
  match at_connect a with Ok _ => at_connected a | Err _ => at_started a end.
(** How long it has to wait then. *)
Definition remaining (dur : Duration) (a : Attempt) : Duration :=
  (last_success a + dur - N.max (last_success a) (at_lost a))%N.

Definition goes_on (cl : WsClient) (n : Net) (a : Attempt) : bool :=
  undisturbed a && negb (at_stop_waiting a) && bool_decide (is_Some (attempt_failure cl n a)).

Lemma client_talk_fails cl a n0 n reason err :
  net_status n = net_status n0 → reachable cl n0 → reachable cl n →
  at_stop_connecting a = false → forallb no_stop (at_steps a) = true →
  attempt_failure cl n0 a = Some (reason, err) →
  ∃ n', client_talk cl a n = (TalkFailed reason err (last_success a), n') ∧
    sends cl (if is_ok (at_connect a) then [connected a] else []) (attempt_received cl n0 a) n n'.
Proof.
  intros Hst R0 R Hc Hs Hf. unfold client_talk, attempt_failure, attempt_received, last_success in *. rewrite Hc. cbn.
  destruct (at_connect a) as [conn|e] eqn:Hconn; cbn.
  - destruct (instant_sends cl (connected a) n R) as (n1 & -> & S1).
    pose proof (session_sends cl a conn n0 n1) as Hses.
    destruct (session cl a conn n0) as [[r0 log0] p0], (session cl a conn n1) as [[r log] p].
    destruct Hses as (-> & -> & _ & Hsd & _); [by rewrite (sd_status _ _ _ _ _ S1)|done|apply S1|].
    exists (pe_net p). split.
    + destruct r0 as [|[[]|e]]; simplify_eq/=; done.
    + rewrite <-(app_nil_r [connected a]). apply (sends_trans _ _ [] _ _ _ _ _ S1). auto.
  - injection Hf as <- <-. exists n. split; [done|]. by apply sends_refl.
Qed.

(** The duration between the loss of the connection and the next attempt. *)
Lemma client_wait_over dur a n :
  at_stop_waiting a = false → stoppable n →
  client_wait dur (last_success a) a n = (WaitOver (remaining dur a), n).
Proof.
  intros Hw Hst. unfold client_wait, duration_sub, StopReceiver_or, remaining, instant_elapsed. rewrite Hw. cbn.
  destruct (stoppable_alive n Hst) as [_ ->]. set (ls := last_success a).
  destruct (N.ltb_spec (at_lost a - ls) dur).
  - destruct (N.leb_spec (at_lost a - ls) dur); [|lia]. do 2 f_equal. lia.
  - by replace (ls + dur - _)%N with 0%N by lia.
Qed.

Lemma client_iterates cl dur attempts rest n0 n :
  cl_repeat_interval cl = Some dur → stoppable n0 → net_status n = net_status n0 →
  reachable cl n0 → reachable cl n → forallb (goes_on cl n0) attempts = true →
  ∃ n', connection_routine cl (attempts ++ rest) n =
      (let '(r, waits, n'') := connection_routine cl rest n' in
       (r, (remaining dur <$> attempts) ++ waits, n'')) ∧
    sends cl (attempts ≫= attempt_statuses cl n0) (attempts ≫= attempt_received cl n0) n n'.
Proof.
  intros Hdur Hsp. revert n. induction attempts as [|a attempts IH]; intros n Hst R0 R Hg.
  { exists n. cbn. split; [by destruct (connection_routine cl rest n) as [[]]|]. by apply sends_refl. }
  cbn [forallb] in Hg. apply andb_true_iff in Hg as [Ha Hg]. unfold goes_on, undisturbed in Ha.
  repeat (apply andb_true_iff in Ha as [Ha ?]). rewrite negb_true_iff in *. case_bool_decide; [|done].
  destruct (attempt_failure cl n0 a) as [[reason err]|] eqn:Hf; [|by destruct (is_Some_None (A:=WsFailReason * Error))].
  destruct (client_talk_fails cl a n0 n reason err) as (n1 & Ht & S1); try done.
  destruct (instant_sends cl (failed reason) n1) as (n2 & Hi & S2); [apply S1|].
  pose proof (sends_trans _ _ _ _ _ _ _ _ S1 S2) as S12.
  assert (net_status n2 = net_status n0) as Hst2 by by rewrite (sd_status _ _ _ _ _ S12).
  destruct (IH n2 Hst2 R0 (sd_reachable _ _ _ _ _ S12) Hg) as (n' & Hrun & S3).
  exists n'. split.
  - cbn [app connection_routine]. rewrite Ha. cbn [stopped_if].
    destruct (stoppable_alive n (stoppable_status _ _ Hst Hsp)) as [-> _]. rewrite Ht, Hi, Hdur.
    rewrite client_wait_over by (done || by eapply stoppable_status). rewrite Hrun.
    by destruct (connection_routine cl rest n') as [[r waits] n''].
  - cbn [mbind list_bind]. unfold attempt_statuses at 1. rewrite Hf.
    rewrite <-(app_nil_r (attempt_received cl n0 a)). by eapply sends_trans.
Qed.

(** C39: a client keeps trying.  With a repeat interval and as long as nobody stops
    it, every attempt that fails, whether it cannot connect or its session ends
    with or without an error, is followed by another one: [dur] after the connection was
    made or, when none was, after [connect_async] gave up; at once when that has passed
    (the subtraction of durations never underflows).  The actor is told, in order, of every connection, with its sender,
    and of the end of each attempt with its reason, gets the messages of all the
    sessions, in order, and nothing else is sent. *)
Theorem client_retries cl dur attempts n :
  cl_repeat_interval cl = Some dur → stoppable n → reachable cl n →
  forallb (goes_on cl n) attempts = true →
  let '(r, waits, n') := connection_routine cl attempts n in
  r = Pending ∧
  sends cl (attempts ≫= attempt_statuses cl n) (attempts ≫= attempt_received cl n) n n' ∧
  waits = remaining dur <$> attempts.
Proof.
  intros Hdur Hst R Hg.
  destruct (client_iterates cl dur attempts [] n n Hdur Hst eq_refl R R Hg) as (n' & Hrun & Hs).
  rewrite app_nil_r in Hrun. rewrite Hrun. cbn. rewrite app_nil_r. done.
Qed.

(** The attempt that ends a client that is stopped, with what it still reports:
    it is stopped before the attempt, during its session, or while it waits (or
    while it could not connect). *)
Inductive stops (cl : WsClient) (dur : Duration) (n : Net) (a : Attempt)
  : result unit Error → list Payload → Prop :=
| stops_before : at_stop_before a = true → stops cl dur n a (Ok tt) []
| stops_session conn :
  at_stop_before a = false → at_connect a = Ok conn →
  (session cl a conn (stopped_if (at_stop_connecting a) n)).1.1 = Ready (Ok TrInterrupted) →
  stops cl dur n a (Ok tt) [connected a]
| stops_waiting reason err :
  undisturbed a = true → at_stop_waiting a = true → (0 < remaining dur a)%N →
  attempt_failure cl n a = Some (reason, err) →
  stops cl dur n a (Err err_task_stopped) (attempt_statuses cl n a)
| stops_connecting err :
  at_stop_before a = false → at_stop_connecting a = true → at_stop_waiting a = false →
  at_connect a = Err err → (0 < remaining dur a)%N →
  stops cl dur n a (Err err_task_stopped) [failed ServerNotAvailable].

Lemma reachable_stop cl n : reachable cl n → reachable cl (StopSender_stop stopper n).2.
Proof.
  unfold reachable, instant_open, normal_open. by rewrite StopSender_stop_lp, StopSender_stop_hp.
Qed.
Lemma statuses_stop cl n : statuses cl (StopSender_stop stopper n).2 = statuses cl n.
Proof. unfold instant_queue. by rewrite StopSender_stop_hp. Qed.

Lemma client_wait_stopped dur a n :
  (0 < remaining dur a)%N →
  StopReceiver_into_future stop (stopped_if (at_stop_waiting a) n) = Ready tt →
  client_wait dur (last_success a) a n = (WaitStopped, stopped_if (at_stop_waiting a) n).
Proof.
  unfold remaining. intros Hlt Hr. unfold client_wait, duration_sub, StopReceiver_or, instant_elapsed.
  rewrite (proj2 (N.ltb_lt _ _)) by lia. rewrite (proj2 (N.leb_le _ _)) by lia. by rewrite Hr.
Qed.

Lemma client_stops_at cl dur a rest n0 n res sts :
  cl_repeat_interval cl = Some dur → stoppable n0 → net_status n = net_status n0 →
  reachable cl n0 → reachable cl n → stops cl dur n0 a res sts →
  let '(r, _, n') := connection_routine cl (a :: rest) n in
  r = Ready (Return res) ∧ statuses cl n' = statuses cl n ++ (status_parcel <$> sts).
Proof.
  intros Hdur Hsp Hst R0 R Hstops. cbn [connection_routine].
  pose proof (stoppable_status _ _ Hst Hsp) as Hsn. destruct (stoppable_alive n Hsn) as [Hal Hpe].
  destruct (stoppable_stop n Hsn) as [Hdead Hre].
  destruct Hstops as [->|conn -> Hc Hses|reason err Hu Hw Hlt Hf|err -> Hsc Hw Hc Hlt]; cbn [stopped_if].
  - rewrite Hdead, statuses_stop, app_nil_r. done.
  - rewrite Hal. unfold client_talk. rewrite Hc. set (n1 := stopped_if _ n).
    assert (reachable cl n1 ∧ statuses cl n1 = statuses cl n) as [R1 Hs1].
    { unfold n1, stopped_if. destruct (at_stop_connecting a); [|done]. split; [by apply reachable_stop|apply statuses_stop]. }
    destruct (instant_sends cl (connected a) n1 R1) as (n2 & -> & S2).
    pose proof (session_sends cl a conn (stopped_if (at_stop_connecting a) n0) n2) as Hs.
    destruct (session cl a conn _) as [[r0 log0] p0], (session cl a conn n2) as [[r log] p]. cbn in Hses. subst r0.
    destruct Hs as (-> & _ & _ & _ & Hsq & _).
    + rewrite (sd_status _ _ _ _ _ S2). unfold n1, stopped_if.
      destruct (at_stop_connecting a); [by apply StopSender_stop_status|done].
    + unfold stopped_if. destruct (at_stop_connecting a); [by apply reachable_stop|done].
    + apply S2.
    + cbn. split; [done|]. by rewrite Hsq, (sd_statuses _ _ _ _ _ S2), Hs1.
  - unfold undisturbed in Hu. repeat (apply andb_true_iff in Hu as [Hu ?]). rewrite negb_true_iff in *.
    rewrite Hu. cbn [stopped_if]. rewrite Hal.
    destruct (client_talk_fails cl a n0 n reason err) as (n1 & -> & S1); try done.
    destruct (instant_sends cl (failed reason) n1) as (n2 & -> & S2); [apply S1|].
    pose proof (sends_trans _ _ _ _ _ _ _ _ S1 S2) as S12. rewrite Hdur.
    assert (stoppable n2) as Hs2 by (eapply stoppable_status; [apply S12|done]).
    rewrite client_wait_stopped; [|done|rewrite Hw; by apply stoppable_stop].
    rewrite Hw. cbn [stopped_if]. split; [done|]. rewrite statuses_stop, (sd_statuses _ _ _ _ _ S12).
    unfold attempt_statuses. by rewrite Hf.
  - rewrite Hal. unfold client_talk. rewrite Hsc, Hc. cbn [stopped_if].
    destruct (instant_sends cl (failed ServerNotAvailable) (StopSender_stop stopper n).2) as (n2 & -> & S2);
      [by apply reachable_stop|].
    assert (at_started a = last_success a) as -> by (unfold last_success; by rewrite Hc).
    rewrite Hdur, client_wait_stopped; [|done|].
    + rewrite Hw. cbn [stopped_if]. split; [done|]. by rewrite (sd_statuses _ _ _ _ _ S2), statuses_stop.
    + rewrite Hw. cbn [stopped_if]. rewrite <-Hre. apply stop_future_status, S2.
Qed.

(** How a client ends.  After any number of failed attempts, a client that is
    stopped ends: with success when it finds itself stopped before an attempt,
    having reported nothing more, or when its session was interrupted, having
    reported the connection; and with [TaskStopped], having reported the failure,
    when the signal comes while it waits for the next attempt or could not
    connect. *)
Theorem client_stops cl dur attempts a rest n res sts :
  cl_repeat_interval cl = Some dur → stoppable n → reachable cl n →
  forallb (goes_on cl n) attempts = true → stops cl dur n a res sts →
  let '(r, _, n') := connection_routine cl (attempts ++ a :: rest) n in
  r = Ready (Return res) ∧
  statuses cl n' = statuses cl n ++ (status_parcel <$> (attempts ≫= attempt_statuses cl n) ++ sts).
Proof.
  intros Hdur Hst R Hg Hstops.
  destruct (client_iterates cl dur attempts (a :: rest) n n Hdur Hst eq_refl R R Hg) as (n1 & -> & S1).
  pose proof (client_stops_at cl dur a rest n n1 res sts Hdur Hst) as Hs.
  destruct (connection_routine cl (a :: rest) n1) as [[r waits] n']. destruct Hs as [-> Hq]; try done; [apply S1..|].
  split; [done|]. by rewrite Hq, (sd_statuses _ _ _ _ _ S1), fmap_app, (assoc_L (++)).
Qed.

(** A client without a repeat interval gives up at its first failure, with
    the error of that failure, which it reports first. *)
Theorem client_gives_up cl a rest n reason err :
  cl_repeat_interval cl = None → stoppable n → reachable cl n →
  undisturbed a = true → attempt_failure cl n a = Some (reason, err) →
  let '(r, waits, n') := connection_routine cl (a :: rest) n in
  r = Ready (Return (Err err)) ∧ waits = [] ∧
  sends cl (attempt_statuses cl n a) (attempt_received cl n a) n n'.
Proof.
  intros Hdur Hst R Hu Hf. cbn [connection_routine]. unfold undisturbed in Hu.
  repeat (apply andb_true_iff in Hu as [Hu ?]). rewrite negb_true_iff in *. rewrite Hu. cbn [stopped_if].
  destruct (stoppable_alive n Hst) as [-> _].
  destruct (client_talk_fails cl a n n reason err) as (n1 & -> & S1); try done.
  destruct (instant_sends cl (failed reason) n1) as (n2 & -> & S2); [apply S1|].
  rewrite Hdur. split_and!; [done..|]. unfold attempt_statuses. rewrite Hf.
  rewrite <-(app_nil_r (attempt_received cl n a)). by eapply sends_trans.
Qed.
End client.

#[local] Existing Instance ref_crates.
#[local] Existing Instance sample_app.

(** Statuses as numbers; a failure, then a session that receives a message and is
    closed by the server. *)
Definition sample_client (interval : option N) : WsClient := WsClient_new interval sample_address.
Definition sample_status (st : WsClientStatus) : Payload :=
  match st with
  | Connected sender => 10 + Npos (ws_tx sender)
  | Failed ClosedByServer => 1
  | Failed ConnectionFailed => 2
  | Failed ServerNotAvailable => 3
  end%N.
Definition sample_reason (r : WsFailReason) : Error := err_msg "failed".
Definition client_net : Net := (make_stop_channel 7%positive sample_net).2.

Definition SampleAttempt : Type :=
  Attempt (Conn:=WsView SampleFrame Error) (Act:=list (result SampleFrame Error) * bool) (ToServer:=N).
Definition refused_attempt (stop_waiting : bool) : SampleAttempt :=
  mkAttempt false false (Err err_canceled) 1%positive [] 30 0 32 stop_waiting.
Definition served_attempt : SampleAttempt :=
  mkAttempt false false (Ok sample_socket) 2%positive
    (StNetwork ([Ok (SfData [Byte.x05]); Ok SfClose], true) :: looks (mjoin (replicate 3 sample_round))) 100 110 200 false.

Lemma client_net_ready :
  stoppable sample_stopper sample_stop client_net ∧ reachable (sample_client (Some 60%N)) client_net.
Proof. split; [exists 0|]; split; reflexivity. Qed.

Lemma client_retries_witness :
  let o := connection_routine id sample_status sample_reason sample_stopper sample_stop
             (sample_client (Some 60%N)) [refused_attempt false; served_attempt] client_net in
  o.1 = (Pending, [58; 0]%N) ∧
  instant_queue o.2 (addr_hp_msg_tx sample_address) = status_parcel <$> ([3; 12; 1]%N : list Payload).
Proof.
  split; [reflexivity|].
  pose proof (client_retries id sample_status sample_reason sample_stopper sample_stop
    (sample_client (Some 60%N)) 60%N [refused_attempt false; served_attempt] client_net eq_refl
    (proj1 client_net_ready) (proj2 client_net_ready) eq_refl) as H.
  destruct (connection_routine _ _ _ _ _ _ _ _) as [[r waits] n'].
  destruct H as (_ & [_ _ Hs _] & _). exact Hs.
Defined.

Lemma client_stops_witness :
  (connection_routine id sample_status sample_reason sample_stopper sample_stop
     (sample_client (Some 60%N)) [refused_attempt false; served_attempt; refused_attempt true] client_net).1.1 =
  Ready (Return (Err err_task_stopped)).
Proof.
  pose proof (stops_waiting id sample_status sample_reason sample_stopper sample_stop
    (sample_client (Some 60%N)) 60%N client_net (refused_attempt true) ServerNotAvailable err_canceled
    eq_refl eq_refl eq_refl eq_refl) as Hs.
  pose proof (client_stops id sample_status sample_reason sample_stopper sample_stop
    (sample_client (Some 60%N)) 60%N [refused_attempt false; served_attempt] (refused_attempt true) [] client_net
    _ _ eq_refl (proj1 client_net_ready) (proj2 client_net_ready) eq_refl Hs) as H.
  cbn [app] in H. destruct (connection_routine _ _ _ _ _ _ _ _) as [[r waits] n']. apply H.
Defined.

Lemma client_gives_up_witness :
  (connection_routine id sample_status sample_reason sample_stopper sample_stop
     (sample_client None) [refused_attempt false; served_attempt] client_net).1.1 =
  Ready (Return (Err err_canceled)).
Proof.
  pose proof (client_gives_up id sample_status sample_reason sample_stopper sample_stop
    (sample_client None) (refused_attempt false) [served_attempt] client_net ServerNotAvailable err_canceled
    eq_refl (proj1 client_net_ready) (proj2 client_net_ready) eq_refl eq_refl) as H.
  destruct (connection_routine _ _ _ _ _ _ _ _) as [[r waits] n']. by destruct H as [-> _].
Defined.
