(* ===== verification/Session.v ===== *)
(** * meio-connect: a session of two talkers

    The client and the server of a connection both run a talker; here the two run
    against each other, over sockets that carry what one side sends to the other.
    What a program queues on one side is what the actor of the other side gets. *)
From S2P Require Import Prelude Extern Ids Types Linkage LiteRuntime Talker.

(** The two ends of one WebSocket, as far as the network carries frames between
    them: frames arrive in order; a close frame follows the frames sent before the
    end closed, be it by [close] or in answer to the close frame of the other end,
    after which nothing can be sent; then the stream ends.  The stream of an end whose
    peer is gone without a close frame ends with an error. *)
Class WsWire (Conn M Error Act : Type) `{!WsMessage M, !WsStream Conn M Error Act} := {
  close_frame : M;
  deliver : M → Act;
  hang_up : Act;
  reset : Act;
  reset_error : Error;                (* ResetWithoutClosingHandshake *)
  ws_closed : Conn → bool;            (* the close frame of this end is on its way *)
  close_frame_law : ws_is_text close_frame = false ∧ ws_is_binary close_frame = false ∧
    ws_is_ping close_frame = false ∧ ws_is_pong close_frame = false ∧ ws_is_close close_frame = true;
  deliver_view : ∀ m c, sk_eof (ws_view (network (deliver m) c)) = sk_eof (ws_view c) ∧
    (sk_eof (ws_view c) = false → arrivals (deliver m) c = [Ok m]);
  hang_up_view : ∀ c, arrivals hang_up c = [] ∧ sk_eof (ws_view (network hang_up c)) = true;
  reset_view : ∀ c, sk_eof (ws_view (network reset c)) = true ∧
    (sk_eof (ws_view c) = false → arrivals reset c = [Err reset_error]);
  closed_next : ∀ c, ws_closed c = true → ws_closed (ws_next c).2 = true;
  closed_network : ∀ a c, ws_closed c = true → ws_closed (network a c) = true;
  closed_sent : ∀ c, sk_close_sent (ws_view c) = true → ws_closed c = true;
  closed_close : ∀ c, ws_closed c = true → ws_closed (ws_close c).2 = true;
  closed_send : ∀ m c, ws_closed c = true →
    is_ok (ws_send m c).1 = false ∧ ws_closed (ws_send m c).2 = true
}.

(** ** One end *)

Section endpoint.
Context `{!Crates, !App}.
Context {Conn M Act Incoming Outgoing : Type}.
Context `{!WsMessage M, !ProtocolCodec Error Incoming Outgoing, !WsStream Conn M Error Act}.
Context `{!WsWire Conn M Error Act}.
Variable ws_incoming : Incoming → Payload.

(** A talker, what it did, and how much of what it sent has been delivered. *)
Record End : Type := mkEnd {
  en_peer : Peer (Conn:=Conn) (Outgoing:=Outgoing);
  en_result : poll (result TermReason Error);
  en_log : list (Event (M:=M) (Outgoing:=Outgoing));
  en_delivered : nat;
  en_close_delivered : bool
}.

Abbreviation end_sent e := (sk_sent (ws_view (pe_connection (en_peer e)))).
Abbreviation end_eof e := (sk_eof (ws_view (pe_connection (en_peer e)))).
Abbreviation end_closed e := (ws_closed (pe_connection (en_peer e))).

Definition end_new (p : Peer) : End := mkEnd p Pending [] 0 false.

(** A step of an end whose routine has not returned. *)
Definition end_step (st : Step) (e : End) : End :=
  match en_result e with
  | Pending =>
    let '(r, log, p) := talker_routine ws_incoming [st] (en_peer e) in
    mkEnd p r (en_log e ++ log) (en_delivered e) (en_close_delivered e)
  | Ready _ => e
  end.

Definition failed_end (e : End) : bool := match en_result e with Ready (Err _) => true | _ => false end.
Definition running_end (e : End) : bool := match en_result e with Pending => true | _ => false end.

(** The steps of an end that are not the network's. *)
Definition local (st : Step (Act:=Act) (Outgoing:=Outgoing)) : bool :=
  match st with StNetwork _ => false | _ => true end.

Definition count_delivered (n : nat) (close : bool) (e : End) : End :=
  mkEnd (en_peer e) (en_result e) (en_log e) n close.

(** *** What a step can do *)

Lemma select_branch_local b p :
  let '(_, _, p') := select_branch ws_incoming b p in
  sk_eof (ws_view (pe_connection p')) = sk_eof (ws_view (pe_connection p)) ∧
  (ws_closed (pe_connection p) = true →
    sk_sent (ws_view (pe_connection p')) = sk_sent (ws_view (pe_connection p)) ∧
    ws_closed (pe_connection p') = true).
Proof.
  unfold select_branch. destruct (terminated b _); [done|].
  destruct (poll_branch b p) as [[|e] p1] eqn:Hpoll.
  - by apply poll_branch_pending in Hpoll as [-> _].
  - pose proof (poll_branch_ready _ _ _ _ Hpoll) as Hpo.
    pose proof (handle_event_effect ws_incoming e p1) as Hh.
    assert (ws_closed (pe_connection p) = true →
      sk_sent (ws_view (pe_connection (handle_event ws_incoming e p1).2)) = sk_sent (ws_view (pe_connection p)) ∧
      ws_closed (pe_connection (handle_event ws_incoming e p1).2) = true) as Hcl.
    { intros Hc. destruct Hpo as [_ _ _ _ _ <- _ _ _ _ _].
      assert (ws_closed (pe_connection p1) = true) as Hc1.
      { destruct b; cbn in Hpoll.
        + destruct (StopReceiver_into_future _ _); by simplify_eq/=.
        + pose proof (closed_next (pe_connection p) Hc). destruct (ws_next _) as [[|[]] c]; by simplify_eq/=.
        + destruct (ub_next _) as [[|[]] rx]; by simplify_eq/=. }
      clear Hh Hpoll. destruct e as [|[[msg|e]|]|[m|]]; cbn; try done.
      - repeat (case_match; try done).
      - destruct (encode m) as [b'|]; [|done].
        pose proof (closed_send (ws_binary b') _ Hc1) as [Hno Hc2].
        pose proof (ws_send_view (ws_binary b') (pe_connection p1)) as Hv.
        destruct (ws_send _ _) as [[] c]; [done|]. cbn in *. by rewrite Hv, app_nil_r.
      - pose proof (closed_close _ Hc1) as Hc2. pose proof (ws_close_view (pe_connection p1)) as Hv.
        destruct (ws_close _) as [[] c]; cbn in *; by rewrite Hv. }
    destruct (handle_event ws_incoming e p1) as [f p']. destruct Hh as [Hu _].
    split; [|done]. by rewrite (un_eof _ _ Hu), (po_eof _ _ _ _ Hpo).
Qed.

(** An end is a run of its talker. *)
Definition reached (p0 : Peer) (e : End) : Prop :=
  ∃ steps, talker_routine ws_incoming steps p0 = (en_result e, en_log e, en_peer e).

Lemma reached_new p : reached p (end_new p).
Proof. by exists []. Qed.

Lemma reached_step p0 st e : reached p0 e → reached p0 (end_step st e).
Proof.
  intros [steps Hs]. unfold end_step. destruct (en_result e) eqn:Hr; [|exists steps; by rewrite Hr].
  exists (steps ++ [st]). rewrite talker_routine_app, Hs.
  by destruct (talker_routine ws_incoming [st] (en_peer e)) as [[r log] p].
Qed.

Lemma reached_count p0 n cd e : reached p0 e → reached p0 (count_delivered n cd e).
Proof. done. Qed.

Lemma prefix_of_some {A} (l l' : list A) x : Some <$> l' = (Some <$> l) ++ x → ∃ new, l' = l ++ new.
Proof.
  revert l'. induction l as [|a l IH]; intros l' E; cbn in *; [by exists l'|].
  destruct l' as [|b l']; cbn in *; [done|]. injection E as -> E. destruct (IH _ E) as [new ->]. by exists new.
Qed.

(** One step of the routine: what it sends, what the network did. *)
Lemma one_step st p :
  let '(_, log, p') := talker_routine ws_incoming [st] p in
  (∃ new, sk_sent (ws_view (pe_connection p')) = sk_sent (ws_view (pe_connection p)) ++ new ∧
     (ws_closed (pe_connection p) = true → new = [] ∧ ws_closed (pe_connection p') = true)) ∧
  (local st = true →
    sk_eof (ws_view (pe_connection p')) = sk_eof (ws_view (pe_connection p)) ∧ log ≫= ev_arrived = []).
Proof.
  pose proof (talker_routine_effect ws_incoming [st] p) as He.
  assert (∀ p' : Peer (Conn:=Conn) (Outgoing:=Outgoing), (ws_closed (pe_connection p) = true →
        sk_sent (ws_view (pe_connection p')) = sk_sent (ws_view (pe_connection p)) ∧
        ws_closed (pe_connection p') = true) →
      (∃ x, Some <$> sk_sent (ws_view (pe_connection p')) =
        (Some <$> sk_sent (ws_view (pe_connection p))) ++ x) →
      ∃ new, sk_sent (ws_view (pe_connection p')) = sk_sent (ws_view (pe_connection p)) ++ new ∧
        (ws_closed (pe_connection p) = true → new = [] ∧ ws_closed (pe_connection p') = true)) as Hfin.
  { intros p' Hc [x Hx]. destruct (prefix_of_some _ _ _ Hx) as [new Hn]. exists new. split; [done|].
    intros H'. destruct (Hc H') as [Hs ?]. split; [|done]. rewrite Hs in Hn.
    rewrite <-(app_nil_r (sk_sent _)) in Hn at 1. by apply app_inv_head in Hn. }
  destruct st as [b|m| | |s|a]; cbn [talker_routine outside local] in *.
  - pose proof (select_branch_local b p) as Hl. destruct (select_branch ws_incoming b p) as [[[e|] f] p1];
      [destruct f|]; destruct He as [[_ _ _ Hs _ _ _ _ _ _] _ _]; destruct Hl as [Heof Hcl];
      (split; [apply Hfin; [done|by eexists]|done]).
  - destruct (has_sender _); cbn; [destruct (is_ok _)|]; cbn; (split; [exists []; by rewrite app_nil_r|done]).
  - destruct (has_sender _); cbn; (split; [exists []; by rewrite app_nil_r|done]).
  - destruct (has_sender _); cbn; (split; [exists []; by rewrite app_nil_r|done]).
  - cbn. split; [exists []; by rewrite app_nil_r|done].
  - cbn. destruct (network_view a (pe_connection p)) as (_ & -> & _). split; [|done].
    exists []. rewrite app_nil_r. split; [done|]. intros Hc. by split; [|apply closed_network].
Qed.

Lemma end_step_sender st e :
  (∃ new, end_sent (end_step st e) = end_sent e ++ new ∧
    (end_closed e = true → new = [] ∧ end_closed (end_step st e) = true)) ∧
  (failed_end e = true → failed_end (end_step st e) = true) ∧
  en_delivered (end_step st e) = en_delivered e ∧
  en_close_delivered (end_step st e) = en_close_delivered e.
Proof.
  unfold end_step, failed_end. destruct (en_result e) eqn:Hr.
  - pose proof (one_step st (en_peer e)) as Ho. destruct (talker_routine _ _ _) as [[r log] p].
    by destruct Ho.
  - rewrite Hr. split_and!; try done. exists []. by rewrite app_nil_r.
Qed.

Lemma end_step_local st e :
  local st = true →
  end_eof (end_step st e) = end_eof e ∧ en_log (end_step st e) ≫= ev_arrived = en_log e ≫= ev_arrived.
Proof.
  intros Hst. unfold end_step. destruct (en_result e); [|done].
  pose proof (one_step st (en_peer e)) as Ho. destruct (talker_routine _ _ _) as [[r log] p].
  destruct Ho as [_ Ho]. destruct (Ho Hst) as [He Hl]. cbn. split; [done|]. by rewrite bind_app, Hl, app_nil_r.
Qed.

Lemma end_step_network a e :
  running_end e = true →
  let e' := end_step (StNetwork a) e in
  en_result e' = Pending ∧ en_peer e' = with_connection (network a (pe_connection (en_peer e))) (en_peer e) ∧
  en_log e' = en_log e ++ [EvArrived (arrivals a (pe_connection (en_peer e)))].
Proof. unfold end_step, running_end. by destruct (en_result e). Qed.

(** *** What a log says of the messages *)

(** The messages a frame that arrives carries. *)
Definition parse (r : result M Error) : list Payload := incoming ws_incoming (TeRequest (Some r)).

Lemma incoming_parse e : incoming ws_incoming e = request_of e ≫= parse.
Proof. destruct e as [|[r|]|]; cbn; by rewrite ?app_nil_r. Qed.

Lemma log_parse log :
  existsb ev_failed log = false → log ≫= ev_incoming ws_incoming = (log ≫= ev_requests) ≫= parse.
Proof.
  induction log as [|[] log IH]; cbn; intros Hf; try done; rewrite ?IH by done; rewrite ?bind_app; try done.
  by rewrite incoming_parse.
Qed.

(** Only the last event of a run fails. *)
Lemma run_log steps p :
  let '(_, log, _) := talker_routine ws_incoming steps p in
  ∃ good last, log = good ++ last ∧ existsb ev_failed good = false ∧
    last ≫= ev_incoming ws_incoming = [] ∧ last ≫= ev_carried = [].
Proof.
  revert p. induction steps as [|st steps IH]; intros p; cbn [talker_routine]; [by exists [], []|].
  assert (∀ st, let '(_, log, _) := (let '(evs, p) := outside st p in
      let '(r, log, p) := talker_routine ws_incoming steps p in (r, evs ++ log, p)) in
    ∃ good last, log = good ++ last ∧ existsb ev_failed good = false ∧
      last ≫= ev_incoming ws_incoming = [] ∧ last ≫= ev_carried = []) as Hout.
  { intros st'. pose proof (outside_effect ws_incoming st' p) as Ho. destruct (outside st' p) as [evs p1].
    destruct Ho as (_ & _ & Hf & _). specialize (IH p1). destruct (talker_routine _ steps p1) as [[r log] p'].
    destruct IH as (good & last & -> & Hg & ? & ?). exists (evs ++ good), last.
    by rewrite (assoc_L (++)), existsb_app, Hf, Hg. }
  destruct st as [b|m| | |s|a]; try apply (Hout (StSend m)); try apply (Hout StCloneSender);
    try apply (Hout StDropSender); try apply (Hout (StStop s)); try apply (Hout (StNetwork a)).
  destruct (select_branch ws_incoming b p) as [[[e|] f] p1]; [destruct f|].
  - specialize (IH p1). destruct (talker_routine _ steps p1) as [[r log] p'].
    destruct IH as (good & last & -> & Hg & ? & ?). by exists (EvTaken e :: good), last.
  - by exists [EvTaken e], [].
  - by exists [], [EvFailed e].
  - apply IH.
Qed.

Lemma reached_log p0 e : reached p0 e →
  (en_log e ≫= ev_incoming ws_incoming) `prefix_of` ((en_log e ≫= ev_requests) ≫= parse) ∧
  (en_log e ≫= ev_carried) `prefix_of` (en_log e ≫= ev_responses).
Proof.
  intros [steps Hs]. pose proof (run_log steps p0) as Hl. rewrite Hs in Hl.
  destruct Hl as (good & last & -> & Hg & Hi & Hc). rewrite !bind_app, Hi, Hc, !app_nil_r.
  rewrite (log_parse _ Hg), (carried_responses _ Hg). split; [|by eexists].
  by exists ((last ≫= ev_requests) ≫= parse).
Qed.

(** *** What is left for an end to do *)

Abbreviation end_queue e := (uv_queue (ub_view (pe_rx (en_peer e)))).

Definition end_work (e : End) : nat :=
  if running_end e then S (measure (en_peer e) + 2 * length (end_queue e)) else 0.

(** A look at a branch takes it, and there is less to do, or leaves the end as it is. *)
Lemma end_look b e :
  let e' := end_step (StSelect b) e in
  (e' = e ∧ (running_end e = true → blocked b (en_peer e))) ∨
  end_work e' + 2 * length (end_sent e') < end_work e + 2 * length (end_sent e) ∧
  (closing (en_peer e) → running_end e' = true → closing (en_peer e')).
Proof.
  unfold end_step, end_work, running_end. destruct e as [p r log n cd]. cbn. destruct r as [|r]; [|by left].
  pose proof (select_branch_look ws_incoming b p) as Hl. pose proof (select_branch_effect ws_incoming b p) as He.
  destruct (select_branch ws_incoming b p) as [[[e|] f] p1].
  - right. destruct Hl as [Hm Hcl], He as [[_ _ _ Hs _ Hq _ _ _ _] _].
    assert (length (sk_sent (ws_view (pe_connection p1))) + length (uv_queue (ub_view (pe_rx p1))) ≤
            length (sk_sent (ws_view (pe_connection p))) + length (uv_queue (ub_view (pe_rx p)))) as Hle.
    { apply (f_equal length) in Hs. apply (f_equal length) in Hq.
      rewrite length_app, !length_fmap in Hs. rewrite !length_app in Hq. destruct f; cbn in Hs, Hq; rewrite app_nil_r in *; lia. }
    destruct f; cbn; (split; [lia|]); try done. by auto.
  - left. destruct Hl as [-> Hb]. cbn. by rewrite app_nil_r.
Qed.

(** What the network does to an end that runs. *)
Lemma end_arrival a e :
  running_end e = true →
  let e' := end_step (StNetwork a) e in
  end_work e' = end_work e + length (arrivals a (pe_connection (en_peer e))) ∧
  end_sent e' = end_sent e ∧ running_end e' = true ∧ (closing (en_peer e) → closing (en_peer e')).
Proof.
  intros Hr e'. destruct (end_step_network a e Hr) as (Hres & Hp & _).
  destruct (network_view a (pe_connection (en_peer e))) as (Hin & Hs & _).
  unfold end_work. fold e' in Hres, Hp. unfold running_end in *. rewrite Hres, Hp, Hr. cbn. unfold measure. cbn.
  rewrite Hin, Hs, length_app. split_and!; [lia|done..].
Qed.

(** What the network leaves as it is, of the end it takes from and of the one it
    brings to. *)
Definition taken_from (e e' : End) : Prop := en_peer e' = en_peer e ∧ en_result e' = en_result e.
Definition brought_to (e e' : End) : Prop :=
  end_sent e' = end_sent e ∧ en_delivered e' = en_delivered e ∧
  en_close_delivered e' = en_close_delivered e ∧ en_result e' = en_result e ∧
  (closing (en_peer e) → closing (en_peer e')).

Lemma network_brought a e : running_end e = true → brought_to e (end_step (StNetwork a) e).
Proof.
  intros Hr. destruct (end_arrival a e Hr) as (_ & Hs & _ & Hc).
  destruct (end_step_sender (StNetwork a) e) as (_ & _ & Hd & Hcd).
  destruct (end_step_network a e Hr) as (Hres & _). unfold running_end in Hr.
  split_and!; try done. rewrite Hres. by destruct (en_result e).
Qed.

(** *** Ends that run, and ends that are over *)

Definition new_talker (p : Peer (Conn:=Conn) (Outgoing:=Outgoing)) : Prop :=
  ∃ address stop, pe_talker p = Talker_new address stop.

Lemma reached_cases p0 e : new_talker p0 → reached p0 e →
  if running_end e then talker_inv (en_peer e) ∧ running (en_peer e)
  else failed_end e = true ∨ talker_inv (en_peer e) ∧ is_done (pe_talker (en_peer e)) = true.
Proof.
  intros (ad & st & Ht) [steps Hs]. destruct p0 as [t c rx n]. cbn in Ht. subst t.
  destruct (fresh_inv ad st c rx n) as [I R].
  pose proof (talker_routine_effect ws_incoming steps (mkPeer (Talker_new ad st) c rx n)) as He.
  rewrite Hs in He. destruct He as [_ _ Hend]. specialize (Hend I R).
  unfold running_end, failed_end. destruct (en_result e) as [|[why|err]]; [done|right|by left].
  by destruct Hend as (? & ? & _).
Qed.

(** An end that is over, or has drained its channel, has closed its side. *)
Lemma drained_closed (p : Peer (Conn:=Conn) (Outgoing:=Outgoing)) :
  talker_inv p → tk_rx_over (pe_talker p) = true → ws_closed (pe_connection p) = true.
Proof. intros [_ _ _ Hrx _] Hr. destruct (Hrx Hr) as (_ & _ & Hc). by apply closed_sent. Qed.

Lemma over_closed p0 e : new_talker p0 → reached p0 e → running_end e = false → failed_end e = false →
  end_closed e = true.
Proof.
  intros Hn Hr Hrun Hf. pose proof (reached_cases p0 e Hn Hr) as Hc. rewrite Hrun in Hc.
  destruct Hc as [?|[Hi Hd]]; [congruence|]. apply drained_closed; [done|].
  destruct Hi as [_ _ _ _ I5]. unfold is_done in Hd. apply andb_true_iff in Hd as [Hd _]. by rewrite <-I5.
Qed.

(** A close message that was taken has closed the channel. *)
Lemma close_taken (log : list (Event (M:=M) (Outgoing:=Outgoing))) : existsb ev_failed log = false →
  Ok close_frame ∈ (log ≫= ev_requests) → existsb (ev_taken closes) log = true.
Proof.
  induction log as [|ev log IH]; cbn; [intros _ H'; by apply elem_of_nil in H'|].
  intros [Hf1 Hf]%orb_false_iff [Hin|Hin]%elem_of_app; [|by rewrite (IH Hf Hin), orb_true_r].
  destruct ev as [[|[r|]|]| | | |]; try done; cbn in Hin; try (by apply elem_of_nil in Hin).
  apply list_elem_of_singleton in Hin as <-. cbn.
  destruct close_frame_law as (-> & -> & -> & -> & ->). done.
Qed.

(** An end that runs and has taken the close message can only stop when it has drained
    its channel, so a look at its branches ends it. *)
Lemma stuck_after_close p0 e : new_talker p0 → sk_inbound (ws_view (pe_connection p0)) = [] → reached p0 e →
  running_end e = true → end_eof e = true → Ok close_frame ∈ (en_log e ≫= ev_arrived) →
  (∀ b, blocked b (en_peer e)) → False.
Proof.
  intros Hn Hi0 Hr Hrun Heof Hin Hb. pose proof (reached_cases p0 e Hn Hr) as Hc. rewrite Hrun in Hc.
  destruct Hc as [[_ I2 I3 _ I5] R]. destruct Hr as [steps Hs].
  pose proof (talker_routine_effect ws_incoming steps p0) as He. pose proof (talker_routine_open ws_incoming steps p0) as Ho.
  rewrite Hs in He, Ho. destruct He as [[_ _ _ _ Hreq _ _ _ _ _] Hf _].
  unfold running_end in Hrun. destruct (en_result e); [|done]. specialize (Ho eq_refl).
  destruct (Hb BrRequest) as [Hco|[_ ?]]; [|congruence]. destruct (I2 Hco) as [Hi _].
  rewrite Hi0, Hi, app_nil_r in Hreq. cbn in Hreq. rewrite Hreq in Hin.
  rewrite (close_taken _ Hf Hin), andb_false_r in Ho.
  destruct (Hb BrResponse) as [Hro|[? _]]; [|congruence].
  unfold running, is_done in R. by rewrite I5, I3, Hro, Hco in R.
Qed.

(** An end that runs while its channel closes waits only for the other one, having
    closed its side. *)
Lemma stuck_closing p0 e : new_talker p0 → reached p0 e → running_end e = true → closing (en_peer e) →
  (∀ b, blocked b (en_peer e)) → end_closed e = true ∧ end_eof e = false.
Proof.
  intros Hn Hr Hrun Hcl Hb. pose proof (reached_cases p0 e Hn Hr) as Hc. rewrite Hrun in Hc.
  destruct Hc as [I R]. pose proof I as [I1 I2 I3 _ I5].
  assert (tk_rx_over (pe_talker (en_peer e)) = true) as Hro.
  { destruct (Hb BrResponse) as [?|[Ho Hs]]; [done|]. destruct Hcl as [Hst|[?|?]]; [|congruence|lia].
    destruct (Hb BrDone) as [Hd|?]; [|congruence]. specialize (I1 Hd). congruence. }
  split; [by apply drained_closed|]. destruct (Hb BrRequest) as [Hco|[_ ?]]; [|done].
  unfold running, is_done in R. by rewrite I5, I3, Hro, Hco in R.
Qed.
End endpoint.

(** ** From one end to the other *)

Section direction.
Context `{!Crates, !App}.
Context {M X Y ConnA ActA ConnB ActB : Type}.
Context `{!WsMessage M, !ProtocolCodec Error Y X, !WsStream ConnA M Error ActA, !WsWire ConnA M Error ActA}.
Context `{!ProtocolCodec Error X Y, !WsStream ConnB M Error ActB, !WsWire ConnB M Error ActB}.
Variable incoming_a : Y → Payload.
Variable incoming_b : X → Payload.

Abbreviation EndA := (End (Conn:=ConnA) (M:=M) (Outgoing:=X)).
Abbreviation EndB := (End (Conn:=ConnB) (M:=M) (Outgoing:=Y)).
Implicit Types (a : EndA) (b : EndB).

(** The end can still be given something. *)
Definition listening b : bool := running_end b && negb (sk_eof (ws_view (pe_connection (en_peer b)))).

(** The next frame of [a], its close frame, and the end of the stream, which comes
    after the close frame, or as an error when [a] has failed and dropped its socket. *)
Definition deliver_next a b : EndA * EndB :=
  match sk_sent (ws_view (pe_connection (en_peer a))) !! en_delivered a with
  | Some m =>
    if listening b then
      (count_delivered (S (en_delivered a)) (en_close_delivered a) a,
       end_step incoming_b (StNetwork (deliver m)) b)
    else (a, b)
  | None => (a, b)
  end.

Definition deliver_close a b : EndA * EndB :=
  if ws_closed (pe_connection (en_peer a)) && negb (en_close_delivered a) && listening b &&
     bool_decide (en_delivered a = length (sk_sent (ws_view (pe_connection (en_peer a))))) then
    (count_delivered (en_delivered a) true a, end_step incoming_b (StNetwork (deliver close_frame)) b)
  else (a, b).

Definition deliver_hang_up a b : EndB :=
  if (en_close_delivered a || failed_end a) && listening b
  then end_step incoming_b (StNetwork (if en_close_delivered a then hang_up else reset)) b else b.

(** The error of a connection that was reset is the last thing that arrives. *)
Definition reset_tail a b (tail : list (result M Error)) : Prop :=
  tail = [] ∨
  tail = [Err (reset_error (Conn:=ConnB) (Act:=ActB))] ∧ failed_end a = true ∧
    sk_eof (ws_view (pe_connection (en_peer b))) = true.

(** What has arrived at [b] is what [a] has sent, so far. *)
Record direction a b : Prop := {
  dr_count : en_delivered a ≤ length (sk_sent (ws_view (pe_connection (en_peer a))));
  dr_arrived : ∃ tail, reset_tail a b tail ∧ en_log b ≫= ev_arrived =
    (Ok <$> take (en_delivered a) (sk_sent (ws_view (pe_connection (en_peer a))))) ++
    (if en_close_delivered a then [Ok close_frame] else []) ++ tail;
  dr_closed : en_close_delivered a = true → ws_closed (pe_connection (en_peer a)) = true ∧
    en_delivered a = length (sk_sent (ws_view (pe_connection (en_peer a))));
  dr_eof : sk_eof (ws_view (pe_connection (en_peer b))) = true →
    en_close_delivered a = true ∨ failed_end a = true
}.

Lemma reset_tail_listening a b tail : reset_tail a b tail → listening b = true → tail = [].
Proof.
  intros [->|(_ & _ & He)] Hl; [done|]. unfold listening in Hl. rewrite He, andb_false_r in Hl. done.
Qed.

Lemma direction_sender st a b : direction a b → direction (end_step incoming_a st a) b.
Proof.
  intros [D1 D2 D3 D4].
  destruct (end_step_sender incoming_a st a) as ((new & Hs & Hc) & Hf & Hn & Hcd).
  split; rewrite ?Hn, ?Hcd, ?Hs, ?length_app.
  - lia.
  - destruct D2 as (tail & Ht & ->). exists tail. split; [|by rewrite take_app_le].
    destruct Ht as [->|(-> & ? & ?)]; [by left|right]. auto.
  - intros Hcl. destruct (D3 Hcl) as [Hcl' Hlen]. destruct (Hc Hcl') as [-> Hc']. split; [done|]. cbn. lia.
  - intros He. destruct (D4 He); auto.
Qed.

Lemma direction_receiver st a b : local st = true → direction a b → direction a (end_step incoming_b st b).
Proof.
  intros Hst [D1 D2 D3 D4]. destruct (end_step_local incoming_b st b Hst) as [He Hl].
  split; rewrite ?He, ?Hl; try done. destruct D2 as (tail & Ht & ->). exists tail. split; [|done].
  unfold reset_tail. by rewrite He.
Qed.

Lemma direction_network act a b :
  listening b = true →
  let b' := end_step incoming_b (StNetwork act) b in
  en_log b' ≫= ev_arrived = (en_log b ≫= ev_arrived) ++ arrivals act (pe_connection (en_peer b)) ∧
  pe_connection (en_peer b') = network act (pe_connection (en_peer b)) ∧ running_end b' = true.
Proof.
  intros [Hr _]%andb_true_iff. destruct (end_step_network incoming_b act b Hr) as (Hres & Hp & Hl).
  cbv zeta. rewrite Hl, Hp, bind_app. cbn. rewrite app_nil_r. unfold running_end. by rewrite Hres.
Qed.

Lemma direction_deliver a b : direction a b → let '(a', b') := deliver_next a b in direction a' b'.
Proof.
  intros [D1 D2 D3 D4]. unfold deliver_next. destruct (_ !! _) as [m|] eqn:Hm; [|done].
  destruct (listening b) eqn:Hl; [|done].
  destruct (direction_network (deliver m) a b Hl) as (Hlog & Hcn & _).
  pose proof Hl as Hl'. apply andb_true_iff in Hl' as [_ Heof]. rewrite negb_true_iff in Heof.
  destruct (deliver_view m (pe_connection (en_peer b))) as [He Ha].
  apply lookup_lt_Some in Hm as Hlt.
  assert (en_close_delivered a = false) as Hcd.
  { destruct (en_close_delivered a); [|done]. destruct (D3 eq_refl). lia. }
  split; cbn [count_delivered en_delivered en_close_delivered en_peer].
  - lia.
  - exists []. split; [by left|]. destruct D2 as (tail & Ht & D2). rewrite (reset_tail_listening _ _ _ Ht Hl) in D2.
    rewrite Hlog, D2, Hcd, (Ha Heof), !app_nil_r, (take_S_r _ _ _ Hm), fmap_app. done.
  - by rewrite Hcd.
  - rewrite Hcn, He, Heof. done.
Qed.

Lemma direction_close a b : direction a b → let '(a', b') := deliver_close a b in direction a' b'.
Proof.
  intros [D1 D2 D3 D4]. unfold deliver_close. destruct (ws_closed _ && _ && _ && _) eqn:Hg; [|done].
  repeat (apply andb_true_iff in Hg as [Hg ?]). rewrite negb_true_iff in *.
  destruct (direction_network (deliver close_frame) a b) as (Hlog & Hcn & _); [done|].
  destruct (deliver_view close_frame (pe_connection (en_peer b))) as [He Ha].
  match goal with H : listening b = true |- _ => pose proof H as Hl; apply andb_true_iff in H as [_ Heof] end.
  rewrite negb_true_iff in Heof.
  split; cbn [count_delivered en_delivered en_close_delivered en_peer].
  - done.
  - exists []. split; [by left|]. destruct D2 as (tail & Ht & D2). rewrite (reset_tail_listening _ _ _ Ht Hl) in D2.
    rewrite Hlog, D2, (Ha Heof). destruct (en_close_delivered a); [done|]. by rewrite !app_nil_r.
  - intros _. split; [done|]. by eapply bool_decide_eq_true.
  - by left.
Qed.

Lemma direction_hang_up a b : direction a b → direction a (deliver_hang_up a b).
Proof.
  intros [D1 D2 D3 D4]. unfold deliver_hang_up. destruct (_ && _) eqn:Hg; [|done].
  apply andb_true_iff in Hg as [Hg Hl]. apply orb_true_iff in Hg.
  destruct D2 as (tail & Ht & D2). rewrite (reset_tail_listening _ _ _ Ht Hl) in D2.
  destruct (en_close_delivered a) eqn:Hcd.
  - destruct (direction_network hang_up a b Hl) as (Hlog & Hcn & _).
    destruct (hang_up_view (pe_connection (en_peer b))) as [Ha He].
    split; [done| |intros _; by apply D3|by auto]. rewrite Hlog, Ha, app_nil_r, D2, ?Hcd. exists []. by split; [left|].
  - destruct (direction_network reset a b Hl) as (Hlog & Hcn & _).
    destruct (reset_view (pe_connection (en_peer b))) as [He Ha]. destruct Hg as [?|Hf]; [done|].
    apply andb_true_iff in Hl as [_ Heof]. rewrite negb_true_iff in Heof.
    split; [done| |by rewrite Hcd|by auto]. rewrite Hlog, (Ha Heof), D2, ?Hcd.
    eexists. split; [right; split; [done|]; split; [done|by rewrite Hcn]|]. by rewrite app_nil_r.
Qed.

(** The count of the other direction does not matter. *)
Lemma direction_count n cd a b : direction a b → direction a (count_delivered n cd b).
Proof. by intros []; split. Qed.

(** *** What is left on the wire *)

Abbreviation sent_a a := (sk_sent (ws_view (pe_connection (en_peer a)))).
Abbreviation eof_b b := (sk_eof (ws_view (pe_connection (en_peer b)))).

Definition wire_work a b : nat :=
  2 * (length (sent_a a) - en_delivered a) + (if en_close_delivered a then 0 else 2) +
  (if eof_b b then 0 else 2).

(** A step of the network moves something, or there is nothing it can move. *)
Lemma deliver_next_work a b : direction a b →
  let '(a', b') := deliver_next a b in
  (a' = a ∧ b' = b ∧ (listening b = true → en_delivered a = length (sent_a a))) ∨
  wire_work a' b' + end_work b' < wire_work a b + end_work b.
Proof.
  intros D. unfold deliver_next. destruct (_ !! _) as [m|] eqn:Hm.
  - destruct (listening b) eqn:Hl; [right|by left].
    pose proof Hl as Hl'. apply andb_true_iff in Hl' as [Hr Heof]. rewrite negb_true_iff in Heof.
    destruct (end_arrival incoming_b (deliver m) b Hr) as (Hw & _ & _).
    destruct (direction_network (deliver m) a b Hl) as (_ & Hcn & _).
    destruct (deliver_view m (pe_connection (en_peer b))) as [He Ha]. rewrite (Ha Heof) in Hw.
    apply lookup_lt_Some in Hm. unfold wire_work. rewrite Hw, Hcn, He. cbn. lia.
  - left. split_and!; try done. intros _. apply lookup_ge_None in Hm. pose proof (dr_count _ _ D). lia.
Qed.

Lemma deliver_close_work a b : direction a b →
  let '(a', b') := deliver_close a b in
  (a' = a ∧ b' = b ∧ (listening b = true → ws_closed (pe_connection (en_peer a)) = true →
     en_delivered a = length (sent_a a) → en_close_delivered a = true)) ∨
  wire_work a' b' + end_work b' < wire_work a b + end_work b.
Proof.
  intros D. unfold deliver_close. destruct (ws_closed _) eqn:Hc; cbn; [|by left].
  destruct (en_close_delivered a) eqn:Hcd; cbn; [by left|]. destruct (listening b) eqn:Hl; cbn; [|by left].
  case_bool_decide as Hlen; [right|by left].
  pose proof Hl as Hl'. apply andb_true_iff in Hl' as [Hr Heof]. rewrite negb_true_iff in Heof.
  destruct (end_arrival incoming_b (deliver close_frame) b Hr) as (Hw & _ & _).
  destruct (direction_network (deliver close_frame) a b Hl) as (_ & Hcn & _).
  destruct (deliver_view close_frame (pe_connection (en_peer b))) as [He Ha]. rewrite (Ha Heof) in Hw.
  unfold wire_work. rewrite Hw, Hcn, He. cbn. rewrite ?Hcd. lia.
Qed.

Lemma deliver_hang_up_work a b :
  let b' := deliver_hang_up a b in
  (b' = b ∧ (listening b = true → en_close_delivered a = false ∧ failed_end a = false)) ∨
  wire_work a b' + end_work b' < wire_work a b + end_work b.
Proof.
  unfold deliver_hang_up. destruct (en_close_delivered a || failed_end a) eqn:Hg; cbn.
  - destruct (listening b) eqn:Hl; [right|by left].
    pose proof Hl as Hl'. apply andb_true_iff in Hl' as [Hr Heof]. rewrite negb_true_iff in Heof.
    set (act := if en_close_delivered a then hang_up else reset : ActB).
    destruct (end_arrival incoming_b act b Hr) as (Hw & _ & _).
    destruct (direction_network act a b Hl) as (_ & Hcn & _).
    assert (length (arrivals act (pe_connection (en_peer b))) ≤ 1 ∧
            sk_eof (ws_view (network act (pe_connection (en_peer b)))) = true) as [Ha He].
    { unfold act. destruct (en_close_delivered a).
      - destruct (hang_up_view (pe_connection (en_peer b))) as [-> ->]. split; [cbn; lia|done].
      - destruct (reset_view (pe_connection (en_peer b))) as [-> Ha]. by rewrite (Ha Heof). }
    unfold wire_work. rewrite Hw, Hcn, He, Heof. lia.
  - left. split; [done|]. intros _. by apply orb_false_iff.
Qed.

Lemma network_kept a b :
  (let '(a', b') := deliver_next a b in taken_from a a' ∧ brought_to b b') ∧
  (let '(a', b') := deliver_close a b in taken_from a a' ∧ brought_to b b') ∧
  brought_to b (deliver_hang_up a b).
Proof.
  unfold deliver_next, deliver_close, deliver_hang_up, listening.
  destruct (running_end b) eqn:Hr; cbn; rewrite ?andb_false_r; cbn.
  - pose proof (λ act, network_brought incoming_b act b Hr) as Hb.
    split_and!; repeat case_match; simplify_eq/=; done.
  - split_and!; try done. by destruct (_ !! _).
Qed.

(** The wire of an end that has closed its side, or has failed, ends the stream of the
    other one. *)
Lemma stuck_wire a b :
  ws_closed (pe_connection (en_peer a)) = true ∨ failed_end a = true →
  (listening b = true → en_delivered a = length (sent_a a)) →
  (listening b = true → ws_closed (pe_connection (en_peer a)) = true →
     en_delivered a = length (sent_a a) → en_close_delivered a = true) →
  (listening b = true → en_close_delivered a = false ∧ failed_end a = false) →
  listening b = false.
Proof.
  intros Ha H1 H2 H3. destruct (listening b); [|done].
  destruct (H3 eq_refl) as [Hcd Hf]. destruct Ha as [Ha|Ha]; [|congruence].
  rewrite (H2 eq_refl Ha (H1 eq_refl)) in Hcd. done.
Qed.

(** *** What arrives is what was queued *)

(** The codec of the two ends, and the frames of the messages. *)
Record wire_codec : Prop := {
  wc_decode : ∀ (m : X) bytes, encode (Incoming:=Y) m = Ok bytes → decode (Outgoing:=Y) bytes = Ok m;
  wc_binary : ∀ bytes, ws_is_binary (ws_binary (M:=M) bytes) = true ∧
    ws_into_bytes (ws_binary (M:=M) bytes) = bytes
}.

Abbreviation parse_b := (parse (Outgoing:=Y) incoming_b).

Lemma parse_frame (m : X) (f : M) : wire_codec →
  frame_of (Incoming:=Y) m = Some f → parse_b (Ok f) = [incoming_b m].
Proof.
  intros [Hd Hb]. unfold frame_of, parse. cbn. destruct (encode m) as [bytes|] eqn:He; [|done].
  intros [= <-]. destruct (Hb bytes) as [Hbin Hin]. rewrite Hbin, orb_true_r, Hin. by rewrite (Hd _ _ He).
Qed.

Lemma parse_close (sent : bool) : (if sent then [Ok close_frame] else []) ≫= parse_b = [].
Proof. destruct sent; [|done]. unfold parse. cbn. by destruct close_frame_law as (-> & -> & _). Qed.

Lemma parse_reset a b tail : reset_tail a b tail → tail ≫= parse_b = [].
Proof. by intros [->|[-> _]]. Qed.

Lemma parse_sent (ms : list X) (fs : list M) : wire_codec →
  Some <$> fs = frame_of (Incoming:=Y) <$> ms → (Ok <$> fs) ≫= parse_b = incoming_b <$> ms.
Proof.
  intros Hw. revert ms. induction fs as [|f fs IH]; intros [|m ms] E; try done.
  cbn in E. injection E as Ef E. rewrite !fmap_cons. cbn [mbind list_bind].
  rewrite (parse_frame m f Hw) by done. cbn. by rewrite <-(IH ms E).
Qed.

Lemma prefix_bind {A B} (f : A → list B) (l k : list A) : l `prefix_of` k → (l ≫= f) `prefix_of` (k ≫= f).
Proof. intros [z ->]. rewrite bind_app. by eexists. Qed.

Lemma prefix_fmap {A B} (f : A → B) (l : list B) (k : list A) :
  l `prefix_of` (f <$> k) → ∃ k', l = f <$> k' ∧ k' `prefix_of` k.
Proof. intros [z E]. apply fmap_app_inv in E as (k1 & k2 & -> & -> & ->). exists k1. split; [done|by eexists]. Qed.

(** An end as it starts: a new talker, nothing queued, arrived or sent. *)
Definition starting {Conn Out} `{!WsStream Conn M Error Act} (p : Peer (Conn:=Conn) (Outgoing:=Out)) : Prop :=
  (∃ address stop, pe_talker p = Talker_new address stop) ∧
  sk_inbound (ws_view (pe_connection p)) = [] ∧ sk_eof (ws_view (pe_connection p)) = false ∧
  sk_sent (ws_view (pe_connection p)) = [] ∧ uv_queue (ub_view (pe_rx p)) = [].

Lemma direction_roundtrip p0a p0b a b :
  wire_codec → starting p0a → starting p0b →
  reached incoming_a p0a a → reached incoming_b p0b b → direction a b →
  (∃ l, en_log b ≫= ev_incoming incoming_b = incoming_b <$> l ∧ l `prefix_of` (en_log a ≫= ev_accepted)) ∧
  (∀ ra rb, en_result a = Ready (Ok ra) → en_result b = Ready (Ok rb) →
    en_log b ≫= ev_incoming incoming_b = incoming_b <$> (en_log a ≫= ev_accepted)).
Proof.
  intros Hw ((ad_a & st_a & Ta) & Ia & _ & Sa & Qa) ((ad_b & st_b & Tb) & Ib & _ & _ & _) Ra Rb [D1 D2 D3 D4].
  destruct (reached_log _ _ _ Ra) as [_ Hca]. destruct (reached_log _ _ _ Rb) as [Hib _].
  destruct Ra as [steps_a Ra], Rb as [steps_b Rb].
  pose proof (talker_routine_effect incoming_a steps_a p0a) as Ea. rewrite Ra in Ea.
  pose proof (talker_routine_effect incoming_b steps_b p0b) as Eb. rewrite Rb in Eb.
  destruct Ea as [[_ _ _ Hsent _ Hq _ _ _ _] _ _], Eb as [[_ _ _ _ Hin _ _ _ _ _] Hfb _].
  rewrite Sa in Hsent. cbn in Hsent. rewrite Qa in Hq. cbn in Hq. rewrite Ib in Hin. cbn in Hin.
  split.
  - apply prefix_fmap. etrans; [exact Hib|].
    assert ((en_log b ≫= ev_requests) `prefix_of` (en_log b ≫= ev_arrived)) as Hpre by (rewrite Hin; by eexists).
    etrans; [exact (prefix_bind parse_b _ _ Hpre)|]. destruct D2 as (tail & Ht & ->). rewrite !bind_app.
    rewrite parse_close, (parse_reset _ _ _ Ht), !app_nil_r, (parse_sent (take (en_delivered a) (en_log a ≫= ev_carried)) _ Hw)
      by (by rewrite fmap_take, Hsent, <-fmap_take).
    assert (take (en_delivered a) (en_log a ≫= ev_carried) `prefix_of` (en_log a ≫= ev_accepted)) as [z ->].
    { rewrite Hq. etrans; [apply prefix_take|]. etrans; [exact Hca|]. by eexists. }
    rewrite fmap_app. by eexists.
  - intros ra rb HRa HRb. destruct p0a as [ta ca xa na], p0b as [tb cb xb nb]. cbn in Ta, Tb. subst ta tb.
    pose proof (talker_end_effect incoming_a ad_a st_a ca xa na steps_a) as Ha. cbv zeta in Ha. rewrite Ra in Ha.
    pose proof (talker_end_effect incoming_b ad_b st_b cb xb nb steps_b) as Hb. cbv zeta in Hb. rewrite Rb in Hb.
    destruct (Ha _ HRa) as (_ & _ & HSa & _). destruct (Hb _ HRb) as (HRq & HEb & _).
    cbn in *. rewrite Sa, Qa in HSa. cbn in HSa. rewrite Ib in HRq. cbn in HRq.
    destruct D2 as (tail & Ht & D2).
    assert (tail = []) as -> by (destruct Ht as [?|(_ & Hf & _)]; [done|unfold failed_end in Hf; by rewrite HRa in Hf]).
    rewrite HRb in Hfb. rewrite (log_parse incoming_b _ Hfb), HRq, D2, !bind_app.
    destruct (D4 HEb) as [Hcd|Hfail]; [|by unfold failed_end in Hfail; rewrite HRa in Hfail].
    destruct (D3 Hcd) as [_ ->]. rewrite parse_close, !app_nil_r, take_ge by lia.
    by apply parse_sent.
Qed.
End direction.

(** ** The session *)

Section session.
Context `{!Crates, !App}.
(** The client sends [ToServer] and the server [ToClient]. *)
Context {M ToServer ToClient ConnC ActC ConnS ActS : Type} `{!WsMessage M}.
Context `{!ProtocolCodec Error ToClient ToServer, !WsStream ConnC M Error ActC, !WsWire ConnC M Error ActC}.
Context `{!ProtocolCodec Error ToServer ToClient, !WsStream ConnS M Error ActS, !WsWire ConnS M Error ActS}.
Variable to_client : ToClient → Payload.
Variable to_server : ToServer → Payload.

Record Session : Type := mkSession {
  ss_client : End (Conn:=ConnC) (M:=M) (Outgoing:=ToServer);
  ss_server : End (Conn:=ConnS) (M:=M) (Outgoing:=ToClient)
}.

(** A step of one of the ends, or of the network, towards the server or not. *)
Inductive SessionStep : Type :=
| SsClient (st : Step (Act:=ActC) (Outgoing:=ToServer))
| SsServer (st : Step (Act:=ActS) (Outgoing:=ToClient))
| SsDeliver (to_the_server : bool)
| SsClose (to_the_server : bool)
| SsHangUp (to_the_server : bool).

Definition session_step (st : SessionStep) (s : Session) : Session :=
  let c := ss_client s in
  let v := ss_server s in
  match st with
  | SsClient st => if local st then mkSession (end_step to_client st c) v else s
  | SsServer st => if local st then mkSession c (end_step to_server st v) else s
  | SsDeliver true => let '(c, v) := deliver_next to_server c v in mkSession c v
  | SsDeliver false => let '(v, c) := deliver_next to_client v c in mkSession c v
  | SsClose true => let '(c, v) := deliver_close to_server c v in mkSession c v
  | SsClose false => let '(v, c) := deliver_close to_client v c in mkSession c v
  | SsHangUp true => mkSession c (deliver_hang_up to_server c v)
  | SsHangUp false => mkSession (deliver_hang_up to_client v c) v
  end.

Definition session_run (steps : list SessionStep) (s : Session) : Session :=
  foldl (λ s st, session_step st s) s steps.

Definition session_new (c : Peer) (v : Peer) : Session := mkSession (end_new c) (end_new v).

Record session_inv (c0 v0 : Peer) (s : Session) : Prop := {
  si_client : reached to_client c0 (ss_client s);
  si_server : reached to_server v0 (ss_server s);
  si_to_server : direction (ss_client s) (ss_server s);
  si_to_client : direction (ss_server s) (ss_client s)
}.

Lemma session_inv_new c0 v0 : starting c0 → starting v0 → session_inv c0 v0 (session_new c0 v0).
Proof.
  intros (_ & _ & Ec & Sc & _) (_ & _ & Ev & Sv & _).
  split; [apply reached_new|apply reached_new| |]; split; cbn; rewrite ?Ec, ?Ev; try done; try lia; exists []; by split; [left|].
Qed.

Lemma session_inv_step c0 v0 st s : session_inv c0 v0 s → session_inv c0 v0 (session_step st s).
Proof.
  intros [Rc Rv Ds Dc]. destruct s as [c v]. cbn in *.
  destruct st as [st|st|[]|[]|[]]; cbn.
  - destruct (local st) eqn:Hl; split; cbn; try done;
      [by apply reached_step|by apply direction_sender|by apply direction_receiver].
  - destruct (local st) eqn:Hl; split; cbn; try done;
      [by apply reached_step|by apply direction_receiver|by apply direction_sender].
  - pose proof (direction_deliver to_server c v Ds) as Hd. unfold deliver_next in *.
    destruct (_ !! _); [|done]. destruct (listening v); [|done].
    split; cbn; [done|by apply reached_step|done|].
    by apply direction_count, (direction_sender to_server).
  - pose proof (direction_deliver to_client v c Dc) as Hd. unfold deliver_next in *.
    destruct (_ !! _); [|done]. destruct (listening c); [|done].
    split; cbn; [by apply reached_step|done| |done].
    by apply direction_count, (direction_sender to_client).
  - pose proof (direction_close to_server c v Ds) as Hd. unfold deliver_close in *.
    destruct (_ && _ && _ && _); [|done].
    split; cbn; [done|by apply reached_step|done|].
    by apply direction_count, (direction_sender to_server).
  - pose proof (direction_close to_client v c Dc) as Hd. unfold deliver_close in *.
    destruct (_ && _ && _ && _); [|done].
    split; cbn; [by apply reached_step|done| |done].
    by apply direction_count, (direction_sender to_client).
  - pose proof (direction_hang_up to_server c v Ds) as Hd. unfold deliver_hang_up in *.
    destruct (_ && _); [|done]. split; cbn; [done|by apply reached_step|done|].
    by apply (direction_sender to_server).
  - pose proof (direction_hang_up to_client v c Dc) as Hd. unfold deliver_hang_up in *.
    destruct (_ && _); [|done]. split; cbn; [by apply reached_step|done| |done].
    by apply (direction_sender to_client).
Qed.

Lemma session_inv_run c0 v0 steps : starting c0 → starting v0 →
  session_inv c0 v0 (session_run steps (session_new c0 v0)).
Proof.
  intros Hc Hv. unfold session_run. pose proof (session_inv_new c0 v0 Hc Hv) as Hi. revert Hi.
  generalize (session_new c0 v0). induction steps as [|st steps IH]; intros s Hi; cbn; [done|].
  apply IH. by apply session_inv_step.
Qed.

(** ** What a session carries *)

(** What the actor of an end has been given since the session started. *)
Definition given {Conn Out T} (ws : T → Payload) (p0 : Peer (Conn:=Conn) (Outgoing:=Out))
  (e : End (Conn:=Conn) (M:=M) (Outgoing:=Out)) (ms : list T) : Prop :=
  let a := addr_msg_tx (tk_address (pe_talker p0)) in
  normal_queue (pe_net (en_peer e)) a =
    normal_queue (pe_net p0) a ++ ((λ m, Envelope_new (MsgAction (ws m))) <$> ms).

Lemma given_log {Conn Act In Out} `{!ProtocolCodec Error In Out, !WsStream Conn M Error Act} (ws : In → Payload)
  (p0 : Peer (Conn:=Conn) (Outgoing:=Out)) (e : End (Conn:=Conn) (M:=M) (Outgoing:=Out)) ms :
  reached ws p0 e → en_log e ≫= ev_incoming ws = ws <$> ms → given ws p0 e ms.
Proof.
  intros [steps Hs] Hl. pose proof (talker_routine_effect ws steps p0) as He. rewrite Hs in He.
  destruct He as [[Ha _ Hq _ _ _ _ _ _ _] _ _]. unfold given. rewrite Ha in Hq. rewrite Hq, Hl.
  by rewrite <-list_fmap_compose.
Qed.

(** C13: from end to end.  Whatever the two programs queue, however the two talkers
    and the network interleave, and whether or not they are stopped or fail, the
    actor of each end gets the messages the other end queued, decoded, in order,
    none twice and none left out in between; and when both talkers have ended
    without an error, each actor has got every message whose sending was accepted. *)
Theorem session_roundtrip c0 v0 steps :
  wire_codec (X:=ToServer) (Y:=ToClient) → wire_codec (X:=ToClient) (Y:=ToServer) →
  starting c0 → starting v0 →
  let s := session_run steps (session_new c0 v0) in
  let queued_c := en_log (ss_client s) ≫= ev_accepted in
  let queued_v := en_log (ss_server s) ≫= ev_accepted in
  (∃ ms, ms `prefix_of` queued_c ∧ given to_server v0 (ss_server s) ms) ∧
  (∃ ms, ms `prefix_of` queued_v ∧ given to_client c0 (ss_client s) ms) ∧
  (∀ rc rv, en_result (ss_client s) = Ready (Ok rc) → en_result (ss_server s) = Ready (Ok rv) →
    given to_server v0 (ss_server s) queued_c ∧ given to_client c0 (ss_client s) queued_v).
Proof.
  intros Wc Wv Hc Hv. cbv zeta. destruct (session_inv_run c0 v0 steps Hc Hv) as [Rc Rv Ds Dc].
  set (s := session_run _ _) in *. clearbody s.
  destruct (direction_roundtrip to_client to_server c0 v0 _ _ Wc Hc Hv Rc Rv Ds) as ((ms & Hms & Hp) & He).
  destruct (direction_roundtrip to_server to_client v0 c0 _ _ Wv Hv Hc Rv Rc Dc) as ((ms' & Hms' & Hp') & He').
  split; [exists ms; split; [done|by apply given_log]|].
  split; [exists ms'; split; [done|by apply given_log]|].
  intros rc rv Hrc Hrv. split; apply given_log; eauto.
Qed.

(** ** The end of a session *)

(** The steps that are not a program's. *)
Definition move (st : SessionStep) : bool :=
  match st with
  | SsClient (StSelect _) | SsServer (StSelect _) | SsDeliver _ | SsClose _ | SsHangUp _ => true
  | _ => false
  end.

Definition session_work (s : Session) : nat :=
  end_work (ss_client s) + end_work (ss_server s) +
  wire_work (ss_client s) (ss_server s) + wire_work (ss_server s) (ss_client s).

(** The client has ended, and the server too, unless the client failed. *)
Definition session_over (s : Session) : Prop :=
  running_end (ss_client s) = false ∧
  (failed_end (ss_client s) = true ∨ running_end (ss_server s) = false).

(** Why a move changes nothing. *)
Definition move_blocked (st : SessionStep) (s : Session) : Prop :=
  let c := ss_client s in
  let v := ss_server s in
  match st with
  | SsClient (StSelect b) => running_end c = true → blocked b (en_peer c)
  | SsServer (StSelect b) => running_end v = true → blocked b (en_peer v)
  | SsDeliver true => listening v = true → en_delivered c = length (sk_sent (ws_view (pe_connection (en_peer c))))
  | SsDeliver false => listening c = true → en_delivered v = length (sk_sent (ws_view (pe_connection (en_peer v))))
  | SsClose true => listening v = true → ws_closed (pe_connection (en_peer c)) = true →
      en_delivered c = length (sk_sent (ws_view (pe_connection (en_peer c)))) → en_close_delivered c = true
  | SsClose false => listening c = true → ws_closed (pe_connection (en_peer v)) = true →
      en_delivered v = length (sk_sent (ws_view (pe_connection (en_peer v)))) → en_close_delivered v = true
  | SsHangUp true => listening v = true → en_close_delivered c = false ∧ failed_end c = false
  | SsHangUp false => listening c = true → en_close_delivered v = false ∧ failed_end v = false
  | _ => True
  end.

Lemma session_stuck c0 v0 s :
  starting c0 → starting v0 → session_inv c0 v0 s →
  (running_end (ss_client s) = true → closing (en_peer (ss_client s))) →
  (∀ st, move st = true → move_blocked st s) → session_over s.
Proof.
  intros (Nc & Ic & _) (Nv & Iv & _) [Rc Rv Ds Dc] Hcl Hb. destruct s as [c v]. cbn in *. unfold session_over. cbn.
  pose proof (Hb (SsDeliver true) eq_refl) as Hd1. pose proof (Hb (SsClose true) eq_refl) as Hd2.
  pose proof (Hb (SsHangUp true) eq_refl) as Hd3.
  pose proof (Hb (SsDeliver false) eq_refl) as He1. pose proof (Hb (SsClose false) eq_refl) as He2.
  pose proof (Hb (SsHangUp false) eq_refl) as He3. cbn in Hd1, Hd2, Hd3, He1, He2, He3.
  (* a server that still runs, once the client has closed its side, can go on *)
  assert (failed_end c = false → listening v = false → running_end v = true → False) as Hserver.
  { intros Hf Hl Hr. unfold listening in Hl. rewrite Hr in Hl. cbn in Hl. apply negb_false_iff in Hl.
    apply (stuck_after_close to_server v0 v Nv Iv Rv Hr Hl); [|by intros b; apply (Hb (SsServer (StSelect b)))].
    destruct (dr_eof _ _ Ds Hl) as [Hcd|?]; [|congruence]. destruct (dr_arrived _ _ Ds) as (tail & _ & ->). rewrite Hcd.
    apply elem_of_app. right. apply elem_of_app. left. by apply list_elem_of_singleton. }
  destruct (running_end c) eqn:Hrc.
  - exfalso. destruct (stuck_closing to_client c0 c Nc Rc Hrc (Hcl eq_refl)) as [Hcc Hec].
    { intros b. by apply (Hb (SsClient (StSelect b))). }
    assert (failed_end c = false) as Hfc by (unfold running_end, failed_end in *; by destruct (en_result c)).
    pose proof (stuck_wire c v (or_introl Hcc) Hd1 Hd2 Hd3) as Hl.
    assert (listening c = true) as Hlc by (unfold listening; by rewrite Hrc, Hec).
    destruct (running_end v) eqn:Hrv; [by apply Hserver|].
    assert (ws_closed (pe_connection (en_peer v)) = true ∨ failed_end v = true) as Hcv.
    { destruct (failed_end v) eqn:Hfv; [by right|left]. by eapply over_closed. }
    pose proof (stuck_wire v c Hcv He1 He2 He3). congruence.
  - split; [done|]. destruct (failed_end c) eqn:Hfc; [by left|right].
    destruct (running_end v) eqn:Hrv; [exfalso|done]. apply Hserver; try done.
    apply (stuck_wire c v); [left; by eapply over_closed|done..|].
    intros Hx. by destruct (Hd3 Hx).
Qed.

(** A move of the network changes one direction only. *)
Lemma work_to_server c v c' v' :
  taken_from c c' → brought_to v v' →
  wire_work c' v' + end_work v' < wire_work c v + end_work v →
  session_work (mkSession c' v') < session_work (mkSession c v).
Proof.
  intros [Ep Er] (Es & Ed & Ec & _) Hw. unfold session_work. cbn [ss_client ss_server].
  assert (end_work c' = end_work c) as -> by (unfold end_work, running_end; by rewrite Er, Ep).
  assert (wire_work v' c' = wire_work v c) as -> by (unfold wire_work; by rewrite Es, Ed, Ec, Ep). lia.
Qed.

Lemma work_to_client c v c' v' :
  taken_from v v' → brought_to c c' →
  wire_work v' c' + end_work c' < wire_work v c + end_work c →
  session_work (mkSession c' v') < session_work (mkSession c v).
Proof.
  intros [Ep Er] (Es & Ed & Ec & _) Hw. unfold session_work. cbn [ss_client ss_server].
  assert (end_work v' = end_work v) as -> by (unfold end_work, running_end; by rewrite Er, Ep).
  assert (wire_work c' v' = wire_work c v) as -> by (unfold wire_work; by rewrite Es, Ed, Ec, Ep). lia.
Qed.

(** A move does something, or is blocked. *)
Lemma move_step c0 v0 st s :
  session_inv c0 v0 s → move st = true →
  (session_step st s = s ∧ move_blocked st s) ∨ session_work (session_step st s) < session_work s.
Proof.
  intros [_ _ Ds Dc] Hm. destruct s as [c v]. cbn in Ds, Dc.
  destruct st as [[b| | | | |]|[b| | | | |]|[]|[]|[]]; try done; cbn.
  - destruct (end_look to_client b c) as [[-> Hb]|[Hw _]]; [by left|right].
    destruct (end_step_sender to_client (StSelect b) c) as (_ & _ & Hd & Hcd).
    destruct (end_step_local to_client (StSelect b) c eq_refl) as [He _].
    pose proof (direction_sender to_client (StSelect b) c v Ds) as [Hn _ _ _].
    destruct Ds as [Hn0 _ _ _]. unfold session_work, wire_work. cbn. rewrite Hd, Hcd, He in *. lia.
  - destruct (end_look to_server b v) as [[-> Hb]|[Hw _]]; [by left|right].
    destruct (end_step_sender to_server (StSelect b) v) as (_ & _ & Hd & Hcd).
    destruct (end_step_local to_server (StSelect b) v eq_refl) as [He _].
    pose proof (direction_sender to_server (StSelect b) v c Dc) as [Hn _ _ _].
    destruct Dc as [Hn0 _ _ _]. unfold session_work, wire_work. cbn. rewrite Hd, Hcd, He in *. lia.
  - pose proof (deliver_next_work to_server c v Ds) as Hw. destruct (network_kept to_server c v) as (Hk & _).
    destruct (deliver_next to_server c v) as [c' v']. destruct Hw as [(-> & -> & ?)|Hw]; [by left|right].
    by apply work_to_server; destruct Hk.
  - pose proof (deliver_next_work to_client v c Dc) as Hw. destruct (network_kept to_client v c) as (Hk & _).
    destruct (deliver_next to_client v c) as [v' c']. destruct Hw as [(-> & -> & ?)|Hw]; [by left|right].
    by apply work_to_client; destruct Hk.
  - pose proof (deliver_close_work to_server c v Ds) as Hw. destruct (network_kept to_server c v) as (_ & Hk & _).
    destruct (deliver_close to_server c v) as [c' v']. destruct Hw as [(-> & -> & ?)|Hw]; [by left|right].
    by apply work_to_server; destruct Hk.
  - pose proof (deliver_close_work to_client v c Dc) as Hw. destruct (network_kept to_client v c) as (_ & Hk & _).
    destruct (deliver_close to_client v c) as [v' c']. destruct Hw as [(-> & -> & ?)|Hw]; [by left|right].
    by apply work_to_client; destruct Hk.
  - destruct (deliver_hang_up_work to_server c v) as [[-> ?]|Hw]; [by left|right].
    destruct (network_kept to_server c v) as (_ & _ & Hk). by apply work_to_server.
  - destruct (deliver_hang_up_work to_client v c) as [[-> ?]|Hw]; [by left|right].
    destruct (network_kept to_client v c) as (_ & _ & Hk). by apply work_to_client.
Qed.

(** The client goes on to close. *)
Definition client_closes (s : Session) : Prop :=
  running_end (ss_client s) = true → closing (en_peer (ss_client s)).

Lemma move_keeps st s : move st = true →
  (client_closes s → client_closes (session_step st s)) ∧ (session_over s → session_over (session_step st s)).
Proof.
  intros Hm. unfold client_closes, session_over. destruct s as [c v].
  assert (∀ c' v', taken_from c c' → brought_to v v' →
    (client_closes (mkSession c v) → client_closes (mkSession c' v')) ∧
    (session_over (mkSession c v) → session_over (mkSession c' v'))) as Hs.
  { intros c' v' [Ep Er] (_ & _ & _ & Er' & _). unfold client_closes, session_over, running_end, failed_end.
    cbn. by rewrite Ep, Er, Er'. }
  assert (∀ c' v', taken_from v v' → brought_to c c' →
    (client_closes (mkSession c v) → client_closes (mkSession c' v')) ∧
    (session_over (mkSession c v) → session_over (mkSession c' v'))) as Hc.
  { intros c' v' [Ep Er] (_ & _ & _ & Er' & Hcl). unfold client_closes, session_over, running_end, failed_end.
    cbn. rewrite Er, Er'. auto. }
  destruct st as [[b| | | | |]|[b| | | | |]|[]|[]|[]]; try done; cbn.
  - split.
    + intros Hcl Hr. destruct (end_look to_client b c) as [[-> _]|[_ Hk]] in Hr |- *; [auto|].
      apply Hk; [|done]. apply Hcl. unfold end_step, running_end in *.
      destruct (en_result c) eqn:E; [done|]. by rewrite E in Hr.
    + intros [Hr Hor]. unfold end_step. unfold running_end in Hr. destruct (en_result c) eqn:E; [done|].
      unfold running_end. by rewrite E.
  - split; [done|]. intros [Hr [?|Hv]]; (split; [done|]); [by left|right].
    unfold end_step, running_end in *. destruct (en_result v) eqn:E; [done|]. by rewrite E.
  - destruct (network_kept to_server c v) as (Hk & _). destruct (deliver_next to_server c v). destruct Hk. by apply Hs.
  - destruct (network_kept to_client v c) as (Hk & _). destruct (deliver_next to_client v c). destruct Hk. by apply Hc.
  - destruct (network_kept to_server c v) as (_ & Hk & _). destruct (deliver_close to_server c v). destruct Hk. by apply Hs.
  - destruct (network_kept to_client v c) as (_ & Hk & _). destruct (deliver_close to_client v c). destruct Hk. by apply Hc.
  - destruct (network_kept to_server c v) as (_ & _ & Hk). by apply Hs.
  - destruct (network_kept to_client v c) as (_ & _ & Hk). by apply Hc.
Qed.

(** A round: every move, in any order. *)
Definition is_session_round (l : list SessionStep) : Prop := ∀ st, st ∈ l ↔ move st = true.

Lemma moves_run c0 v0 l s :
  session_inv c0 v0 s → client_closes s → (∀ st, st ∈ l → move st = true) →
  let s' := session_run l s in
  session_inv c0 v0 s' ∧ client_closes s' ∧ (session_over s → session_over s') ∧
  (s' = s ∧ (∀ st, st ∈ l → move_blocked st s) ∨ session_work s' < session_work s).
Proof.
  revert s. induction l as [|st l IH]; intros s Hi Hc Hl s'.
  { split_and!; try done. left. split; [done|]. intros st Hst. by apply elem_of_nil in Hst. }
  change s' with (session_run l (session_step st s)). clear s'.
  assert (move st = true) as Hm by (apply Hl; left).
  destruct (move_keeps st s Hm) as [Hk Hov].
  destruct (IH (session_step st s)) as (Hi' & Hc' & Hov' & Hw);
    [by apply session_inv_step|auto|intros; apply Hl; by right|].
  split_and!; [done|done|auto|].
  destruct (move_step c0 v0 st s Hi Hm) as [[E Hb]|Hlt].
  - rewrite E in Hw |- *. destruct Hw as [[Hs Hbs]|Hlt]; [left|by right]. split; [done|].
    intros st' [->|Hst']%elem_of_cons; auto.
  - right. destruct Hw as [[-> _]|?]; lia.
Qed.

(** C14: a session ends.  When the client is stopped, or its channel is closed or
    without senders, both talkers come to their end: after any beginning, as many
    rounds of looks at the branches of both and of moves of the network as there
    is work left end the client's, whatever each round begins with, and the
    server's as well, unless the client's failed (a server that gets no close
    message waits for its own program). *)
Theorem session_closes c0 v0 steps rounds :
  starting c0 → starting v0 →
  let s := session_run steps (session_new c0 v0) in
  client_closes s → Forall is_session_round rounds → session_work s < length rounds →
  session_over (session_run (mjoin rounds) s).
Proof.
  intros Hc0 Hv0 s Hcl Hrounds. pose proof (session_inv_run c0 v0 steps Hc0 Hv0) as Hi. fold s in Hi.
  clearbody s. revert s Hi Hcl. induction Hrounds as [|l rounds Hl Hls IH]; intros s Hi Hcl Hlen; cbn in Hlen; [lia|].
  cbn [mjoin list_join]. unfold session_run. rewrite foldl_app.
  destruct (moves_run c0 v0 l s Hi Hcl) as (Hi1 & Hcl1 & Hov1 & Hw); [intros st; apply Hl|].
  fold (session_run l s). fold (session_run (mjoin rounds) (session_run l s)).
  assert (∀ ls s, session_over s → Forall is_session_round ls → session_inv c0 v0 s → client_closes s →
    session_over (session_run (mjoin ls) s)) as Hstays.
  { clear. intros ls s Hov Hls. revert s Hov. induction Hls as [|l ls Hl _ IH]; intros s Hov Hi Hcl; [done|].
    cbn [mjoin list_join]. unfold session_run. rewrite foldl_app.
    destruct (moves_run c0 v0 l s Hi Hcl) as (? & ? & ? & _); [intros st; apply Hl|]. apply IH; auto. }
  destruct Hw as [[E Hb]|Hlt].
  - apply Hstays; [|done..]. apply Hov1, (session_stuck c0 v0 s Hc0 Hv0 Hi Hcl).
    intros st Hm. apply Hb. by apply Hl.
  - apply IH; [done..|lia].
Qed.
End session.

#[local] Existing Instance ref_crates.
#[local] Existing Instance sample_app.

(** ** A reference of the wire

    A socket that remembers whether its close frame is on its way; the network
    brings a frame, hangs up, or resets the connection. *)
Record Sock : Type := mkSock { so_view : WsView SampleFrame Error; so_closing : bool }.

Inductive SockAct : Type := SaFrame (m : SampleFrame) | SaHangUp | SaReset.

Definition sock_closed (c : Sock) : bool := sk_close_sent (so_view c) || so_closing c.
Definition sock_next (c : Sock) : poll (option (result SampleFrame Error)) * Sock :=
  let v := so_view c in
  match sk_inbound v with
  | r :: q =>
    (Ready (Some r), mkSock (mkWsView q (sk_eof v) (sk_sent v) (sk_close_sent v))
                       (so_closing c || match r with Ok f => ws_is_close f | Err _ => false end))
  | [] => (if sk_eof v then Ready None else Pending, c)
  end.
Definition sock_send (m : SampleFrame) (c : Sock) : result unit Error * Sock :=
  let v := so_view c in
  if sock_closed c then (Err (err_msg "sending after closing"), c)
  else (Ok tt, mkSock (mkWsView (sk_inbound v) (sk_eof v) (sk_sent v ++ [m]) (sk_close_sent v)) (so_closing c)).
Definition sock_close (c : Sock) : result unit Error * Sock :=
  let v := so_view c in (Ok tt, mkSock (mkWsView (sk_inbound v) (sk_eof v) (sk_sent v) true) (so_closing c)).
Definition sock_arrivals (a : SockAct) (c : Sock) : list (result SampleFrame Error) :=
  if sk_eof (so_view c) then [] else
  match a with SaFrame m => [Ok m] | SaHangUp => [] | SaReset => [Err (err_msg "connection reset")] end.
Definition sock_network (a : SockAct) (c : Sock) : Sock :=
  let v := so_view c in
  if sk_eof v then c else
  mkSock (mkWsView (sk_inbound v ++ sock_arrivals a c) (match a with SaFrame _ => false | _ => true end)
            (sk_sent v) (sk_close_sent v)) (so_closing c).

#[local] Obligation Tactic := idtac.
#[export] Program Instance sock_stream : WsStream Sock SampleFrame Error SockAct := {|
  ws_view := so_view; ws_next := sock_next; ws_send := sock_send; ws_close := sock_close;
  network := sock_network; arrivals := sock_arrivals
|}.
Next Obligation. intros c r q Hq. unfold sock_next. rewrite Hq. by eexists. Qed.
Next Obligation. intros c Hq. unfold sock_next. by rewrite Hq. Qed.
Next Obligation.
  intros m c. unfold sock_send. destruct (sock_closed c); cbn; [|done]. rewrite app_nil_r. by destruct (so_view c).
Qed.
Next Obligation. intros c. cbn. by rewrite orb_true_r. Qed.
Next Obligation.
  intros [m| |] c; unfold sock_network, sock_arrivals; destruct (sk_eof (so_view c)) eqn:E; cbn; rewrite ?app_nil_r; done.
Qed.

#[export] Program Instance sock_wire : WsWire Sock SampleFrame Error SockAct := {|
  close_frame := SfClose; deliver := SaFrame; hang_up := SaHangUp; reset := SaReset;
  reset_error := err_msg "connection reset"; ws_closed := sock_closed
|}.
Next Obligation. done. Qed.
Next Obligation. by intros m [[i [] s k] g]. Qed.
Next Obligation. by intros [[i [] s k] g]. Qed.
Next Obligation. by intros [[i [] s k] g]. Qed.
Next Obligation.
  intros [[[|r q] e s k] g]; [done|]. unfold sock_closed; cbn. destruct k; cbn; [done|]. by intros ->.
Qed.
Next Obligation. by intros [m| |] [[i [] s k] g]. Qed.
Next Obligation. intros [[i e s k] g]. unfold sock_closed; cbn. by intros ->. Qed.
Next Obligation. done. Qed.
Next Obligation. intros m c; cbn; unfold sock_send. by intros E; rewrite E. Qed.

Lemma sample_wire : wire_codec (M:=SampleFrame) (X:=N) (Y:=N).
Proof.
  split; [|done]. intros m bytes. cbn. destruct (Byte.of_N m) as [b|] eqn:E; [|done]. intros [= <-].
  by rewrite (Byte.to_of_N _ E).
Qed.

Definition sample_end : Peer :=
  mkPeer (Talker_new sample_address sample_stop) (mkSock sample_socket false) (unbounded (Uc:=Uc) (A:=N))
    (make_stop_channel 7%positive sample_net).2.

Definition branches : list Branch := [BrResponse; BrRequest; BrDone].
Definition sample_moves : list (SessionStep (ToServer:=N) (ToClient:=N) (ActC:=SockAct) (ActS:=SockAct)) :=
  (SsClient ∘ StSelect <$> branches) ++ (SsServer ∘ StSelect <$> branches) ++
  (SsDeliver <$> [true; false]) ++ (SsClose <$> [true; false]) ++ (SsHangUp <$> [true; false]).

Lemma sample_moves_round : is_session_round sample_moves.
Proof.
  intros st. unfold sample_moves, branches. cbn. rewrite !elem_of_cons, elem_of_nil. split; [naive_solver|].
  destruct st as [[[]| | | | |]|[[]| | | | |]|[]|[]|[]]; cbn; naive_solver.
Qed.

(** A message each way, then the client is stopped. *)
Definition sample_talk : list (SessionStep (ToServer:=N) (ToClient:=N) (ActC:=SockAct) (ActS:=SockAct)) :=
  [SsClient (StSend 3%N); SsServer (StSend 4%N); SsClient (StStop sample_stopper)].
Definition sample_session : Session (M:=SampleFrame) := session_new sample_end sample_end.

Lemma sample_end_starting : starting sample_end.
Proof. split; [by eexists _, _|]. by split_and!. Qed.

Lemma session_roundtrip_witness :
  let s := session_run id id (sample_talk ++ mjoin (replicate 8 sample_moves)) sample_session in
  en_result (ss_client s) = Ready (Ok TrInterrupted) ∧ en_result (ss_server s) = Ready (Ok TrClosed) ∧
  given id sample_end (ss_server s) [3%N] ∧ given id sample_end (ss_client s) [4%N].
Proof.
  set (steps := sample_talk ++ mjoin (replicate 8 sample_moves)). cbv zeta.
  assert (en_result (ss_client (session_run id id steps sample_session)) = Ready (Ok TrInterrupted)) as Hc by reflexivity.
  assert (en_result (ss_server (session_run id id steps sample_session)) = Ready (Ok TrClosed)) as Hv by reflexivity.
  assert (en_log (ss_client (session_run id id steps sample_session)) ≫= ev_accepted = [3%N]) as Hqc by reflexivity.
  assert (en_log (ss_server (session_run id id steps sample_session)) ≫= ev_accepted = [4%N]) as Hqv by reflexivity.
  pose proof (session_roundtrip id id sample_end sample_end steps sample_wire sample_wire
    sample_end_starting sample_end_starting) as (_ & _ & H).
  specialize (H _ _ Hc Hv). destruct H as [H1 H2].
  change (session_new sample_end sample_end) with sample_session in *.
  rewrite Hqc in H1. rewrite Hqv in H2. exact (conj Hc (conj Hv (conj H1 H2))).
Defined.

Lemma session_closes_witness :
  let s := session_run id id sample_talk sample_session in
  session_over (session_run id id (mjoin (replicate 30 sample_moves)) s).
Proof.
  apply (session_closes id id sample_end sample_end sample_talk (replicate 30 sample_moves)
    sample_end_starting sample_end_starting).
  - intros _. left. reflexivity.
  - apply Forall_replicate, sample_moves_round.
  - apply Nat.ltb_lt. reflexivity.
Defined.
