(* ===== verification/Closed.v ===== *)
(** * Closed programs

    The system of Invariant.v is open: code that is not modelled may call the
    addresses at any time.  A program that is known in full is closed: its actors,
    its tasks, and one body of straight-line code (a test, a [main]) that spawns
    actors, calls their addresses and awaits replies and ends.  [succs] gives every
    state that can come next, whatever is polled first; [explore] visits every
    interleaving. *)
From S2P Require Import Prelude Extern Ids Types Lifecycle Linkage LiteRuntime Handlers ActorRuntime.
From S2P Require Import Tasks Invariant Supervision.

Section closed.
Context `{!Crates, !App, !ActorImpl}.
Implicit Types (n : Net) (w : World) (rt : ActorRuntime).

(** ** The body of a program *)

Inductive Body : Type :=
| BEnd (r : result unit Error)                         (* it returns *)
| BPanic (message : string)                            (* an [assert_eq!] fails *)
| BSpawn (actor : Actor) (k : Address → Body)          (* System::spawn *)
| BCall (f : Net → result unit Error * Net) (k : result unit Error → Body)
| BInteract (a : Address) (request : Payload) (k : result Payload Error → Body)
| BRecv (rx : loc) (k : result Payload Error → Body)   (* awaits the reply *)
| BNow (k : Instant → Body)                            (* Instant::now() *)
| BSleep (duration : Duration) (k : Body)
| BSleepUntil (deadline : Instant) (k : Body)
| BJoin (a : Address) (k : Body)                       (* address.join().await *)
| BTimeout (duration : Duration) (a : Address) (k : bool → Body)
| BTimeoutAt (deadline : Instant) (a : Address) (k : bool → Body).

(** The [?] operator. *)
Definition attempt (k : Body) (r : result unit Error) : Body :=
  match r with Ok _ => k | Err e => BEnd (Err e) end.

Record State : Type := mkState { st_now : Instant; st_world : World; st_body : Body }.

(** What [Instant::now() + duration] leads to. *)
Definition at_deadline (now : Instant) (duration : Duration) (k : Instant → Body) : Body :=
  match instant_add now duration with Return t => k t | Panic message => BPanic message end.

(** One step of the body; [None] when it waits, or is over. *)
Definition body_step (now : Instant) (b : Body) w : option (Body * World) :=
  match b with
  | BEnd _ | BPanic _ => None
  | BSpawn actor k => let '(a, w) := System_spawn actor w in Some (k a, w)
  | BCall f k => let '(r, n) := f (w_net w) in Some (k r, with_net n w)
  | BInteract a request k =>
    match recv_start a request (w_net w) with
    | (Ok rx, n) => Some (BRecv rx k, with_net n w)
    | (Err e, n) => Some (k (Err e), with_net n w)
    end
  | BRecv rx k =>
    match recv_poll rx (w_net w) with Ready r => Some (k r, w) | Pending => None end
  | BNow k => Some (k now, w)
  | BSleep duration k => Some (BSleepUntil (now + duration)%N k, w)
  | BSleepUntil t k => if (t <=? now)%N then Some (k, w) else None
  | BJoin a k => match join a (w_net w) with Ready _ => Some (k, w) | Pending => None end
  | BTimeout duration a k => Some (BTimeoutAt (now + duration)%N a k, w)
  | BTimeoutAt t a k =>
    match join a (w_net w) with
    | Ready _ => Some (k true, w)
    | Pending => if (t <=? now)%N then Some (k false, w) else None
    end
  end.

(** ** The tasks of a program

    What polling the routine of a task does, from its start to its end: the tasks of
    a closed program are those that end at their first poll, or wait for ever.  A
    task that was stopped is not polled any more. *)
Variable task_future : TaskImpl → Net → poll (result Payload Error) * Net.

Definition task_step (i : Id) (lr : LiteRuntime) w : option World :=
  let '(fut, n) :=
    match StopReceiver_into_future (lr_stop_receiver lr) (w_net w) with
    | Ready _ => (Pending, w_net w)
    | Pending => task_future (lr_task lr) (w_net w)
    end in
  match routine true (lr_stop_receiver lr) fut n with
  | Ready res => Some (mkWorld (lite_entrypoint lr res n) (w_actors w) (delete i (w_tasks w)))
  | Pending => None
  end.

(** ** Interleavings *)

Definition body_succs (s : State) : list State :=
  match body_step (st_now s) (st_body s) (st_world s) with
  | Some (b, w) => [mkState (st_now s) w b]
  | None => []
  end.

Definition actor_succs (o : Orders) (s : State) : list State :=
  omap (λ p, match actor_step o (st_now s) p.2 (st_world s) with
             | Some (rt, w) => Some (mkState (st_now s) (put rt w) (st_body s))
             | None => None
             end) (map_to_list (w_actors (st_world s))).

Definition task_succs (s : State) : list State :=
  omap (λ p, match task_step p.1 p.2 (st_world s) with
             | Some w => Some (mkState (st_now s) w (st_body s))
             | None => None
             end) (map_to_list (w_tasks (st_world s))).

(** The times an actor waits for. *)
Definition actor_deadlines rt : list Instant :=
  match rt_phase rt with PhHandle _ (CDo (CmdSleepUntil t) _) => [t] | _ => [] end ++
  (fst <$> dq_view (rt_scheduled rt)).

(** The times something waits for. *)
Definition deadlines (s : State) : list Instant :=
  (match st_body s with BSleepUntil t _ | BTimeoutAt t _ _ => [t] | _ => [] end) ++
  (map_to_list (w_actors (st_world s)) ≫= λ p, actor_deadlines p.2).

(** The clock moves, to the first of them, only when nothing else can. *)
Definition clock_succs (s : State) : list State :=
  match filter (λ t, st_now s < t)%N (deadlines s) with
  | [] => []
  | t :: l => [mkState (foldr N.min t l) (st_world s) (st_body s)]
  end.

Definition work_succs (o : Orders) (s : State) : list State :=
  body_succs s ++ actor_succs o s ++ task_succs s.

(** What can come next when hash sets are iterated in the orders [o]. *)
Definition succs (o : Orders) (s : State) : list State :=
  match work_succs o s with [] => clock_succs s | l => l end.

(** Every run from [s] ends, in a state that satisfies [P], whatever the orders are
    at each step. *)
Inductive always_ends (P : State → Prop) (s : State) : Prop :=
| ae_intro :
    (∀ o, succs o s = [] → P s) → (∀ o s', s' ∈ succs o s → always_ends P s') → always_ends P s.

(** A measure that every step makes smaller, under an invariant. *)
Lemma always_ends_measure (I P : State → Prop) (m : State → nat) :
  (∀ o s, I s → succs o s = [] → P s) →
  (∀ o s s', I s → s' ∈ succs o s → I s' ∧ m s' < m s) →
  ∀ s, I s → always_ends P s.
Proof.
  intros Hp Hs. enough (∀ k s, m s < k → I s → always_ends P s) as He by (intros s; apply (He (S (m s))); lia).
  induction k as [|k IH]; intros s Hk Hi; [lia|]. constructor; [intros o; by apply (Hp o)|].
  intros o s' Hs'. destruct (Hs o s s' Hi Hs') as [Hi' Hm]. apply IH; [lia|done].
Qed.

(** ** Exploration *)

(** A tracker whose operations do not depend on the orders: at most one group has no
    priority, and no group has two children. *)
Definition unordered (t : LifetimeTracker Group Notifier) : bool :=
  bool_decide (size (dom (lt_stages t) ∖ list_to_set (lt_prioritized t) : gset Group) ≤ 1) &&
  bool_decide (map_Forall (λ _ st, size (st_ids st) ≤ 1) (lt_stages t)).

Definition unordered_state (s : State) : bool :=
  bool_decide (map_Forall (λ _ rt, unordered (tracker_of rt) = true) (w_actors (st_world s))).

Definition any_orders : Orders := mkOrders (elements_order Group) (elements_order Id).

(** Visits the runs of at most [fuel] steps: false when one is longer, or comes to a
    state that has more than one next state because of the orders. *)
Fixpoint explore (ok : State → bool) (fuel : nat) (s : State) : bool :=
  match fuel with
  | O => false
  | S fuel =>
    unordered_state s &&
    match succs any_orders s with [] => ok s | l => forallb (explore ok fuel) l end
  end.

Lemma unordered_spec (t : LifetimeTracker Group Notifier) :
  unordered t = true ↔
    size (dom (lt_stages t) ∖ list_to_set (lt_prioritized t) : gset Group) ≤ 1 ∧
    map_Forall (λ _ st, size (st_ids st) ≤ 1) (lt_stages t).
Proof. unfold unordered. by rewrite andb_true_iff, !bool_decide_eq_true. Qed.

Lemma terminate_loop_unordered oi oi' seq (t : LifetimeTracker Group Notifier) n :
  map_Forall (λ _ st, size (st_ids st) ≤ 1) (lt_stages t) →
  Tracker.terminate_loop oi seq t n = Tracker.terminate_loop oi' seq t n.
Proof.
  revert t n. induction seq as [|g seq IH]; intros t n Ht; [done|]. cbn [Tracker.terminate_loop].
  destruct (lt_stages t !! g) as [st|] eqn:Hg; [|by apply IH].
  destruct (st_terminating st); [destruct (Stage_is_finished st); [by apply IH|done]|].
  cbn [stage_mark st_ids]. rewrite (hash_iter_unordered oi oi') by exact (Ht g st Hg).
  destruct (Stage_is_finished _); [|done]. apply IH. cbn. apply map_Forall_insert_2; [|done].
  exact (Ht g st Hg).
Qed.

Lemma try_terminate_unordered o o' (t : LifetimeTracker Group Notifier) n :
  unordered t = true →
  Tracker.try_terminate_next (ord_groups o) (ord_ids o) t n =
    Tracker.try_terminate_next (ord_groups o') (ord_ids o') t n.
Proof.
  intros Hu. apply unordered_spec in Hu as [Hg Hi].
  unfold Tracker.try_terminate_next, Tracker.stage_sequence. cbn.
  rewrite (hash_iter_unordered (ord_groups o) (ord_groups o')) by done. by apply terminate_loop_unordered.
Qed.

Lemma unordered_forget c (t : LifetimeTracker Group Notifier) :
  unordered t = true → unordered (Tracker.forget c t) = true.
Proof.
  rewrite !unordered_spec. intros [Hg Hi]. unfold Tracker.forget.
  destruct (lt_records t !! c) as [r|]; [|done]. cbn.
  destruct (lt_stages t !! rec_group r) as [st|] eqn:Hst; [|done]. cbn.
  rewrite dom_insert_lookup_L by by eexists. split; [done|].
  apply map_Forall_insert_2; [|done]. cbn.
  specialize (Hi _ _ Hst). cbn in Hi. rewrite <-Hi. apply subseteq_size. set_solver.
Qed.

Lemma actor_step_unordered o o' now rt w :
  unordered (tracker_of rt) = true → actor_step o now rt w = actor_step o' now rt w.
Proof.
  intros Hu. pose proof (try_terminate_unordered o o' (tracker_of rt)) as Ht. unfold tracker_of in *.
  unfold actor_step. destruct (rt_phase rt) as [|src [|cmd k]| | | |]; try done.
  - destruct cmd; cbn [exec]; try done.
    + unfold Context_shutdown, Tracker.start_termination. by rewrite Ht.
    + unfold Context_terminate_group, Tracker.terminate_group.
      destruct (lt_stages _ !! group) as [st|] eqn:Hst; [|done].
      rewrite (hash_iter_unordered (ord_ids o) (ord_ids o')); [done|].
      apply unordered_spec in Hu as [_ Hi]. exact (Hi group st Hst).
  - unfold select_biased. destruct (mpsc_recv <$> _) as [[[|[p|]] ch]|]; try done.
    unfold receive_parcel. destruct (parcel_operation p) as [c| |]; try done.
    rewrite !Tracker.remove_forget, (try_terminate_unordered o o'); [done|]. by apply unordered_forget.
Qed.

Lemma succs_unordered o o' s : unordered_state s = true → succs o s = succs o' s.
Proof.
  intros Hu%bool_decide_eq_true. unfold succs, work_succs.
  enough (actor_succs o s = actor_succs o' s) as -> by done. unfold actor_succs.
  apply list_omap_ext, Forall_Forall2_diag, Forall_forall.
  intros [i rt] Hi%elem_of_map_to_list. cbn. by rewrite (actor_step_unordered o o') by exact (Hu i rt Hi).
Qed.

Lemma explore_sound ok fuel s :
  explore ok fuel s = true → always_ends (λ s, ok s = true) s.
Proof.
  revert s. induction fuel as [|fuel IH]; intros s He; cbn [explore] in He; [done|].
  apply andb_true_iff in He as [Hu He].
  constructor; intros o; rewrite (succs_unordered o any_orders) by done; [intros Hs; by rewrite Hs in He|].
  intros s' Hs'. apply IH. destruct (succs any_orders s) as [|x l]; [by apply not_elem_of_nil in Hs'|].
  rewrite forallb_forall in He. by apply He, list_elem_of_In.
Qed.

(** ** A closed program is a run of the open system

    so that what holds of every reachable system holds of its states. *)

Definition calls_outside (b : Body) : Prop :=
  match b with BCall f _ => ∀ n, outside n (f n).2 | _ => True end.

Lemma outside_steps w n n' pairs :
  rtc outside n n' → rtc sys_step (mkSys (with_net n w) pairs) (mkSys (with_net n' w) pairs).
Proof.
  induction 1 as [|n n1 n' Ho _ IH]; [done|]. eapply rtc_l; [|exact IH].
  exact (step_outside n1 (with_net n w) pairs Ho).
Qed.

Lemma body_step_sys now b b' w w' :
  calls_outside b → body_step now b w = Some (b', w') → rtc sys_step (mkSys w []) (mkSys w' []).
Proof.
  intros Hb Hs. destruct b; cbn [body_step calls_outside] in *; try done; try (by meio_cases).
  - pose proof (step_spawn actor w []) as Hsp. destruct (System_spawn actor w). simplify_eq.
    exact (rtc_once _ _ Hsp).
  - pose proof (step_outside _ w [] (Hb (w_net w))) as Ho. destruct (f (w_net w)). simplify_eq.
    exact (rtc_once _ _ Ho).
  - pose proof (step_outside _ w [] (out_recv a request (w_net w))) as Ho.
    destruct (recv_start a request (w_net w)) as [[] n]; simplify_eq; exact (rtc_once _ _ Ho).
Qed.

Hypothesis future_outside : ∀ t n, rtc outside n (task_future t n).2.

Lemma task_step_sys i lr w w' :
  w_tasks w !! i = Some lr → task_step i lr w = Some w' → rtc sys_step (mkSys w []) (mkSys w' []).
Proof.
  intros Hi. unfold task_step.
  set (fn := match StopReceiver_into_future _ _ with Pending => _ | Ready _ => _ end).
  assert (rtc outside (w_net w) fn.2) as Ho by (unfold fn; by case_match).
  clearbody fn. destruct fn as [fut n]. cbn in Ho. intros Hs.
  destruct (routine true (lr_stop_receiver lr) fut n) as [|res]; simplify_eq.
  apply (outside_steps w _ _ []) in Ho. rewrite with_net_id in Ho. etrans; [exact Ho|].
  apply rtc_once. by apply (step_task_end i lr res (with_net n w) []).
Qed.

Lemma succs_sys o s s' :
  calls_outside (st_body s) →
  (∀ i rt, w_actors (st_world s) !! i = Some rt → pairs_kept (rt_phase rt) = true) →
  s' ∈ succs o s → rtc sys_step (mkSys (st_world s) []) (mkSys (st_world s') []).
Proof.
  intros Hb Hk Hs. unfold succs in Hs.
  assert (s' ∈ work_succs o s ∨ s' ∈ clock_succs s) as [Hw|Hc] by (destruct (work_succs o s); auto).
  - unfold work_succs in Hw. rewrite !elem_of_app in Hw. destruct Hw as [Hw|[Hw|Hw]].
    + unfold body_succs in Hw. destruct (body_step _ _ _) as [[b w]|] eqn:E; [|set_solver].
      apply list_elem_of_singleton in Hw as ->. by eapply body_step_sys.
    + apply list_elem_of_omap in Hw as ([i rt] & Hi%elem_of_map_to_list & Hw). cbn in Hw.
      destruct (actor_step _ _ _ _) as [[rt' w']|] eqn:E; simplify_eq. apply rtc_once.
      eapply (step_actor o (st_now s) i rt); [done|done|].
      specialize (Hk i rt Hi). unfold phase_moves, pairs_kept in *.
      destruct (rt_phase rt) as [|src [|[]]| | | |]; try done; by constructor.
    + apply list_elem_of_omap in Hw as ([i lr] & Hi%elem_of_map_to_list & Hw). cbn in Hw.
      destruct (task_step _ _ _) as [w'|] eqn:E; simplify_eq. by eapply task_step_sys.
  - unfold clock_succs in Hc. destruct (filter _ _); [set_solver|].
    apply list_elem_of_singleton in Hc as ->. done.
Qed.
End closed.
