(* ===== verification/Programs.v ===== *)
(** * The test programs of meio/src/lib.rs

    The actors of the integration tests of the crate, with their handlers, and the
    bodies of the tests as closed programs.  Any other actor may run before each
    call of a handler, and while it sleeps. *)
From S2P Require Import Prelude Extern Ids Types Linkage LiteRuntime Distributor Handlers ActorRuntime.
From S2P Require Import Tasks Invariant Supervision System Closed.

(** The requests, actions, items and outputs of the tests. *)
Inductive TestMessage : Type :=
| MsgOne | MsgTwo | MsgThree | LinkSignal | CtrlC
| ScheduledStop (stop : bool)
| U8 (n : N)
| UnitValue.

#[export] Instance TestMessage_eq_dec : EqDecision TestMessage.
Proof. solve_decision. Defined.

Inductive TestActor : Type :=
| MyActor
| ActorSingle (n : nat)
| ActorMany (actors : gset Id)
| TaskSpawner.

Definition ActorMany_default : TestActor := ActorMany ∅.

(** The future of [test_async_closure]: [async move { Ok(8) }]. *)
Inductive TestFuture : Type := Eight.

Definition tests_app : App := {|
  Payload := TestMessage; Actor := TestActor; Task := TestFuture; Strm := list TestMessage; Group := unit
|}.
#[local] Existing Instance tests_app.

(** The conversions of errors the tests use with [?]. *)
Class TestErrors `{!Crates} := {
  err_elapsed : Error;                  (* From<tokio::time::error::Elapsed> *)
  err_task : TaskError → Error          (* From<TaskError> *)
}.

Section programs.
Context `{!Crates, !TestErrors}.
Implicit Types (n : Net) (w : World).

(** ** Handlers *)

Definition keep (a : Actor) : Handling := CRet a (Ok tt).
Definition shutdown (a : Actor) : Handling := CDo CmdShutdown (λ _, CRet a (Ok tt)).

(** *** [MyActor] *)

Definition MyActor_started_by (a : Actor) : Handling := keep a.
Definition MyActor_interrupted_by (a : Actor) : Handling :=
  CDo (CmdSleep (Duration_from_secs 3)) (λ _, shutdown a).
(** [ActionHandler<MsgOne>] and [ActionHandler<LinkSignal>]: a log line *)
Definition MyActor_msg_one (a : Actor) : Handling := keep a.
Definition MyActor_link_signal (a : Actor) : Handling := keep a.
(** [Consumer<MsgOne>], [StreamAcceptor<MsgOne>] and [Consumer<CtrlC>] *)
Definition MyActor_consume_one (a : Actor) : Handling := keep a.
Definition MyActor_finished (a : Actor) : Handling := shutdown a.
Definition MyActor_stream_group (a : Actor) : Group := tt.
Definition MyActor_consume_ctrl_c (a : Actor) : Handling := keep a.
(** [InteractionHandler<MsgTwo>] *)
Definition MyActor_msg_two (a : Actor) : Code (result Payload Error) := CRet a (Ok (U8 1)).
(** [ActionHandler<Interact<MsgThree>>] *)
Definition MyActor_msg_three (responder : loc) (a : Actor) : Handling :=
  CDo (CmdRespond responder (Ok (U8 123))) (λ rep,
    match rep with
    | RepRespond (Err _) => CRet a (Err (err_msg "can't send a response"))
    | _ => CRet a (Ok tt)
    end).
(** [Scheduled<ScheduledStop>] *)
Definition MyActor_scheduled (stop : bool) (a : Actor) : Handling :=
  if stop then shutdown a else keep a.

(** *** [ActorSingle] and [ActorMany] *)

Definition ActorSingle_started_by (a : Actor) : Handling :=
  CDo (CmdSleep (Duration_from_secs 10)) (λ _, shutdown a).
Definition ActorSingle_interrupted_by (a : Actor) : Handling := keep a.

(** The loop of [StartedBy<System> for ActorMany], [k] rounds from [id]. *)
Fixpoint spawn_singles (k id : nat) (actors : gset Id) : Handling :=
  match k with
  | O => keep (ActorMany actors)
  | S k =>
    CDo (CmdSpawnActor (ActorSingle id) tt) (λ rep,
      match rep with
      | RepAddress addr => spawn_singles k (S id) ({[Ids.IdOf_into (Address_id addr)]} ∪ actors)
      | _ => keep (ActorMany actors)
      end)
  end.

(** [for id in 1..=count] *)
Definition ActorMany_started_by (count : nat) (actors : gset Id) : Handling := spawn_singles count 1 actors.

Definition ActorMany_eliminated (id : Id) (actors : gset Id) : Handling :=
  let actors := actors ∖ {[id]} in
  if decide (actors = ∅) then shutdown (ActorMany actors) else keep (ActorMany actors).

(** *** [TaskSpawner] *)

Definition TaskSpawner_started_by (a : Actor) : Handling :=
  CDo (CmdSpawnTask (FnTask Eight) UnitValue tt) (λ _, keep a).

(** A failed [assert_eq!] would be a panic; it is an error here, and [tests_pass]
    shows that it does not fail. *)
Definition TaskSpawner_eliminated (result : result Payload TaskError) (a : Actor) : Handling :=
  match result with
  | Err e => CRet a (Err (err_task e))
  | Ok v => if decide (v = U8 8) then shutdown a else CRet a (Err (err_msg "assertion failed"))
  end.

(** *** All of them

    [count] children for [ActorMany]: 1_000_000 in the test.  A message that an actor
    has no handler for cannot be sent to it; its row is [keep]. *)
Definition tests_impl (count : nat) : ActorImpl := {|
  group_sequence _ := [tt];                                  (* TerminationSequence for () *)
  queue_drained := Actor_queue_drained_default;
  instant_queue_drained := Actor_instant_queue_drained_default;
  on_action input :=
    match input with MsgOne => MyActor_msg_one | LinkSignal => MyActor_link_signal | _ => keep end;
  on_instant _ := keep;
  on_custom _ := keep;
  interaction request :=
    match request with
    | MsgThree => ByActionHandler MyActor_msg_three
    | _ => ByInteractionHandler MyActor_msg_two
    end;
  started_by a :=
    match a with
    | MyActor => MyActor_started_by a
    | ActorSingle _ => ActorSingle_started_by a
    | ActorMany actors => ActorMany_started_by count actors
    | TaskSpawner => TaskSpawner_started_by a
    end;
  interrupted_by a :=
    match a with
    | MyActor => MyActor_interrupted_by a
    | ActorSingle _ => ActorSingle_interrupted_by a
    | _ => keep a
    end;
  terminated_by := keep;
  eliminated id a := match a with ActorMany actors => ActorMany_eliminated id actors | _ => keep a end;
  task_eliminated _ _ _ := keep;
  interaction_done _ _ := keep;
  interaction_failed := InteractionDone_failed_default;
  consumer_handle item := match item with CtrlC => MyActor_consume_ctrl_c | _ => MyActor_consume_one end;
  consumer_finished a := match a with MyActor => MyActor_finished a | _ => keep a end;
  consumer_task_failed := Consumer_task_failed_default;
  consumer_task_finished := Consumer_task_finished_default;
  stream_group := MyActor_stream_group;
  scheduled _ item a := match item with ScheduledStop stop => MyActor_scheduled stop a | _ => keep a end;
  fn_task_eliminated _ _ result a := TaskSpawner_eliminated result a;
  on_tick _ := keep;
  on_tick_done := keep
|}.

(** ** Tasks: the items of [stream::iter] and the async block are ready at once *)

Definition test_future (t : TaskImpl) n : poll (result Payload Error) * Net :=
  match t with
  | StreamForwarder stream recipient =>
    match forward recipient ((Some <$> stream) ++ [None]) n with
    | (Ready (Ok _), n) => (Ready (Ok UnitValue), n)
    | (Ready (Err e), n) => (Ready (Err e), n)
    | (Pending, n) => (Pending, n)
    end
  | FnTask Eight => (fn_task_routine (Ready (Ok (U8 8))), n)
  | _ => (Pending, n)
  end.

(** What a task of a test does to the network are calls of addresses. *)
Lemma forward_outside recipient polls n : rtc outside n (forward recipient polls n).2.
Proof.
  revert n. induction polls as [|[item|] polls IH]; intros n; cbn [forward]; [done|..].
  - pose proof (out_act recipient (MsgStreamItem (Item item)) n) as Ho.
    destruct (act recipient _ n) as [[] n']; [|by apply rtc_once]. by eapply rtc_l.
  - pose proof (out_act recipient (MsgStreamItem StreamDone) n) as Ho.
    destruct (act recipient _ n) as [[] n']; by apply rtc_once.
Qed.

Lemma test_future_outside t n : rtc outside n (test_future t n).2.
Proof.
  destruct t as [| |stream recipient|[]|]; try done. unfold test_future.
  pose proof (forward_outside recipient ((Some <$> stream) ++ [None]) n) as Hf.
  by destruct (forward _ _ n) as [[|[]] n'].
Qed.

(** ** Links *)

Record MyLink : Type := mkMyLink { my_address : Address }.
Definition send_signal (l : MyLink) : Net → result unit Error * Net :=
  act (my_address l) (MsgAction LinkSignal).
Record MyAlternativeLink : Type := mkMyAlternativeLink { alternative_address : Address }.
(** [Deref]: the link is used as the address it wraps. *)
Definition deref (l : MyAlternativeLink) : Address := alternative_address l.

(** ** The tests *)

(** [assert_eq!(res?, expected)] *)
Definition expect_reply (expected : Payload) (k : Body) (res : result Payload Error) : Body :=
  match res with
  | Ok v => if decide (v = expected) then k else BPanic "assertion failed"
  | Err e => BEnd (Err e)
  end.

(** [System::interrupt(&mut address)?; address.join().await; Ok(())] *)
Definition interrupt_and_join (interrupted joined : Address) : Body :=
  BCall (System_interrupt interrupted) (attempt (BJoin joined (BEnd (Ok tt)))).

Definition start_and_terminate : Body :=
  BSpawn MyActor (λ address,
  BCall (act address (MsgAction MsgOne)) (attempt (
  BInteract address MsgTwo (expect_reply (U8 1) (
  interrupt_and_join address address))))).

Definition test_recipient : Body :=
  BSpawn MyActor (λ address,
  let action_recipient := action_recipient address in
  BCall (recipient_act (recipient_clone action_recipient) (MsgAction MsgOne)) (attempt (
  let interaction_recipient := interaction_recipient address in
  BInteract (interaction_clone interaction_recipient) MsgTwo (expect_reply (U8 1) (
  interrupt_and_join address address))))).

Definition test_custom_interaction : Body :=
  BSpawn MyActor (λ address,
  BInteract (Address_clone address) MsgThree (expect_reply (U8 123) (
  interrupt_and_join address address))).

Definition test_attach : Body :=
  BSpawn MyActor (λ address,
  BCall (attach address [MsgOne; MsgOne; MsgOne] UnitValue) (attempt (
  BJoin address (BEnd (Ok tt))))).

Definition test_link : Body :=
  BSpawn MyActor (λ address,
  let my_link := link mkMyLink address in
  BCall (send_signal my_link) (attempt (
  let alternative_link := link mkMyAlternativeLink address in
  interrupt_and_join (deref alternative_link) address))).

(** [address.schedule(ScheduledStop(stop), Instant::now() + Duration::from_secs(3))?] *)
Definition schedule_stop (stop : bool) (address : Address) (k : Body) : Body :=
  BNow (λ now, at_deadline now (Duration_from_secs 3) (λ t,
  BCall (schedule address (ScheduledStop stop) t) (attempt k))).

Definition test_schedule : Body :=
  BSpawn MyActor (λ address,
  BSleep (Duration_from_secs 3) (
  schedule_stop false address (
  schedule_stop false address (
  schedule_stop true address (
  BTimeout (Duration_from_secs 5) address (λ joined,
  BEnd (if joined then Ok tt else Err err_elapsed))))))).

Definition test_million_actors : Body :=
  BSpawn ActorMany_default (λ address, BJoin address (BEnd (Ok tt))).

Definition test_async_closure : Body :=
  BSpawn TaskSpawner (λ address, BJoin address (BEnd (Ok tt))).

(** A test is run on an empty system. *)
Definition run (test : Body) : State := mkState 0 (mkWorld net_empty ∅ ∅) test.

(** ** What it is to pass *)

Definition is_done (p : Phase) : bool := match p with PhDone => true | _ => false end.

(** The body returned [Ok]; every actor and task has ended. *)
Definition passed (s : State) : bool :=
  match st_body s with BEnd (Ok _) => true | _ => false end &&
  bool_decide (map_Forall (λ _ rt, is_done (rt_phase rt) = true) (w_actors (st_world s))) &&
  bool_decide (w_tasks (st_world s) = ∅).
End programs.

#[local] Existing Instance ref_crates.

(** The errors of the reference implementations. *)
#[export] Instance ref_errors : TestErrors := {|
  err_elapsed := err_msg "deadline has elapsed";
  err_task e := match e with Interrupted => err_msg "task was interrupted" | Other e => e end
|}.

(** The integration tests pass.  In whatever order the body of a test, its
    actors and its tasks are polled and the hash sets are iterated, the run ends
    (there is no deadlock and no endless run), the body has returned [Ok] after the
    reply it expects, and every actor and task has ended.  The crates are the reference
    implementations, the clock moves only when nothing else can, and [ActorMany] has one
    child here ([million_actors_end] is about any number, and any crates). *)
Theorem tests_pass :
  Forall (λ test, @always_ends _ _ (tests_impl 1) test_future (λ s, passed s = true) (run test))
    [start_and_terminate; test_recipient; test_custom_interaction; test_attach; test_link;
     test_schedule; test_async_closure; test_million_actors].
Proof.
  rewrite !Forall_cons, Forall_nil. split_and!; [..|done]; apply (explore_sound _ _ 40); vm_compute; reflexivity.
Qed.

(** Without children [ActorMany] is never told of an end: it does not shut down, and
    the test waits for ever. *)
Remark no_actors_hang :
  @always_ends _ _ (tests_impl 0) test_future (λ s, negb (passed s) = true) (run test_million_actors).
Proof. apply (explore_sound _ (λ s, negb (passed s)) 40). vm_compute. reflexivity. Qed.
