(* ===== verification/Million.v ===== *)
(** * The million actors

    [test_million_actors] of meio/src/lib.rs, for any number of actors: the runs of
    the closed program are not explored but proved to end, by an invariant of its
    states and a measure that every step makes smaller. *)
From S2P Require Import Prelude Extern Ids Types Lifecycle Linkage LiteRuntime Handlers ActorRuntime.
From S2P Require Import Tasks NetFrame Invariant Supervision Tree Closed Programs.

(** ** The sum of a measure over a map *)

Section total.
Context {A : Type} (f : A → nat).

Definition total (m : gmap Id A) : nat := map_fold (λ _ a n, f a + n) 0 m.

Lemma total_fresh m i a : m !! i = None → total (<[i := a]> m) = f a + total m.
Proof. intros Hi. apply (map_fold_insert_L (λ _ a n, f a + n)); [intros; lia|done]. Qed.

Lemma total_update m i a b : m !! i = Some b → total (<[i := a]> m) + f b = total m + f a.
Proof.
  intros Hi. rewrite <-(insert_delete_id m i b Hi) at 2. rewrite <-insert_delete_eq.
  rewrite !total_fresh by apply lookup_delete_eq. lia.
Qed.
End total.

Lemma total_le {A} (f g : A → nat) (m : gmap Id A) :
  (∀ i a, m !! i = Some a → f a ≤ g a) → total f m ≤ total g m.
Proof.
  induction m as [|i a m Hi IH] using map_ind; intros Hle; [done|]. rewrite !total_fresh by done.
  pose proof (Hle i a (lookup_insert_eq m i a)). assert (total f m ≤ total g m); [|lia].
  apply IH. intros j b Hj. apply (Hle j). rewrite lookup_insert_ne; [done|]. intros ->. congruence.
Qed.

Lemma total_lt {A} (f g : A → nat) (m : gmap Id A) i a :
  (∀ j b, m !! j = Some b → f b ≤ g b) → m !! i = Some a → f a < g a → total f m < total g m.
Proof.
  intros Hle Hi Hlt.
  assert (∀ h : A → nat, total h m = h a + total h (delete i m)) as Hd.
  { intros h. rewrite <-(insert_delete_id m i a Hi) at 1. apply total_fresh, lookup_delete_eq. }
  rewrite !Hd. assert (total f (delete i m) ≤ total g (delete i m)); [|lia].
  apply total_le. intros j b [_ Hj]%lookup_delete_Some. by apply (Hle j).
Qed.

Section trackers.
Context `{!Crates, !App, !ActorImpl}.
Implicit Types (n : Net) (w : World).

(** ** Trackers without children *)

Lemma terminate_loop_childless oi seq (t : LifetimeTracker Group Notifier) n :
  (∀ g st, lt_stages t !! g = Some st → st_ids st = ∅) → (Tracker.terminate_loop oi seq t n).2 = n.
Proof.
  revert t n. induction seq as [|g seq IH]; intros t n Ht; [done|]. cbn [Tracker.terminate_loop].
  destruct (lt_stages t !! g) as [st|] eqn:Hg; [|by apply IH]. pose proof (Ht g st Hg) as He.
  destruct (st_terminating st); [destruct (Stage_is_finished st); [by apply IH|done]|].
  cbn [stage_mark st_ids]. rewrite He, hash_iter_empty. cbn [Tracker.interrupt_ids].
  destruct (Stage_is_finished _); [|done]. apply IH. cbn. intros h st'.
  destruct (decide (g = h)) as [<-|Hne]; [|rewrite lookup_insert_ne by done; apply Ht].
  rewrite lookup_insert_eq. intros [= <-]. done.
Qed.

(** The shutdown of an actor without children stops it and tells nobody. *)
Lemma shutdown_childless o c w :
  Tracker.wf (ctx_tracker c) → lt_records (ctx_tracker c) = ∅ →
  ∃ c', Context_shutdown o c w = (c', w) ∧ ctx_alive c' = false ∧ ctx_address c' = ctx_address c ∧
    lt_records (ctx_tracker c') = ∅ ∧ Tracker.wf (ctx_tracker c').
Proof.
  intros Hwf He. unfold Context_shutdown, Tracker.start_termination.
  pose proof (Tracker.try_terminate_next_childless (ord_groups o) (ord_ids o) _ (w_net w) Hwf He) as Hf.
  pose proof (Tracker.wf_try_terminate_next (ord_groups o) (ord_ids o) _ (w_net w) Hwf) as Hwf'.
  pose proof (Tracker.try_terminate_next_records (ord_groups o) (ord_ids o) (ctx_tracker c) (w_net w)) as Hr.
  assert ((Tracker.try_terminate_next (ord_groups o) (ord_ids o) (ctx_tracker c) (w_net w)).2 = w_net w) as Hn.
  { unfold Tracker.try_terminate_next. apply terminate_loop_childless. cbn. intros g st Hg.
    by apply (Tracker.no_records_no_ids (ctx_tracker c) g). }
  destruct (Tracker.try_terminate_next _ _ _ _) as [t n]. cbn in *. rewrite Hf. subst n.
  rewrite with_net_id. eexists. split; [done|]. cbn. by rewrite Hr.
Qed.

(** A child inserted into a tracker that does not terminate is not interrupted. *)
Lemma insert_silent i (r : TRecord Group Notifier) (t : LifetimeTracker Group Notifier) n :
  Tracker.wf t → lt_terminating t = false → (Tracker.insert_record i r t n).2 = n.
Proof.
  intros Hwf Ht. unfold Tracker.insert_record. cbn.
  destruct (lt_stages t !! rec_group r) as [st|] eqn:Hg; cbn; [|done].
  by rewrite (Tracker.wf_terminating _ Hwf Ht _ _ Hg).
Qed.
End trackers.

#[local] Existing Instance tests_app.

Section million.
Context `{!Crates, !TestErrors} (count : nat).
Implicit Types (n : Net) (w : World) (rt : ActorRuntime).

#[local] Instance million_impl : ActorImpl := tests_impl count.

(** The address of [ActorMany]: the first one made. *)
Definition many_address : Address := pair_address (AddressPair_new net_empty).1.
Abbreviation R := many_address.
#[local] Arguments many_address : simpl never.

(** ** A child *)

Definition child_phase rt : Prop :=
  match rt_phase rt with
  | PhStart =>
    rt_awake_envelope rt = Some (Envelope_instant MsgAwake) ∧ (∃ k, rt_actor rt = ActorSingle k) ∧
    tracker_of rt = Tracker.new
  | PhHandle src code =>
    src = SrcAwake ∧ ∃ a,
      ((code = ActorSingle_started_by a ∨ (∃ t, code = CDo (CmdSleepUntil t) (λ _, shutdown a)) ∨
        code = shutdown a) ∧ lt_records (tracker_of rt) = ∅ ∧ Tracker.wf (tracker_of rt)) ∨
      (code = keep a ∧ alive rt = false)
  | PhSelect | PhFinish => alive rt = false
  | PhDone => True
  | PhPanic _ => False
  end.

Record child_ok rt : Prop := {
  ch_notifier : rt_done_notifier rt = NOnce R (OpDone (rt_id rt));
  ch_queue : joint_msg_rx (rt_joint rt) ≠ addr_msg_tx R;
  ch_scheduled : dq_view (rt_scheduled rt) = [];
  ch_phase : child_phase rt
}.

(** How far an actor is from its end; the time of a sleep counts until it has come. *)
Definition weight (now : Instant) rt : nat :=
  match rt_phase rt with
  | PhStart => 14
  | PhHandle _ (CDo (CmdSleep _) _) => 13
  | PhHandle _ (CDo (CmdSleepUntil t) _) => if (t <=? now)%N then 11 else 12
  | PhHandle _ (CDo _ _) => 10
  | PhHandle _ (CRet _ _) => 9
  | PhSelect => 8
  | PhFinish => 7
  | PhDone | PhPanic _ => 0
  end.

(** A child that is not over can move, or sleeps. *)
Lemma child_moves o now w rt :
  child_ok rt → rt_phase rt ≠ PhDone →
  is_Some (actor_step o now rt w) ∨ ∃ t, t ∈ actor_deadlines rt ∧ (now < t)%N.
Proof.
  intros [_ _ _ Hp] Hd. unfold child_phase, actor_step, actor_deadlines in *.
  destruct (rt_phase rt) as [|src [|cmd k]| | | |]; try (by left); try done.
  - destruct (timing now cmd) as [|t|] eqn:Ht; [left|by left|right].
    + destruct (exec o cmd (rt_context rt) w) as [[]]. done.
    + destruct cmd; try done. exists deadline. cbn in Ht |- *. split; [left|].
      destruct (deadline <=? now)%N eqn:Hle; [done|]. by apply N.leb_gt.
  - left. unfold alive in Hp. by rewrite Hp.
Qed.

Lemma child_step o now w w' rt rt' :
  child_ok rt → actor_step o now rt w = Some (rt', w') →
  child_ok rt' ∧ self rt' = self rt ∧ weight now rt' < weight now rt ∧
  ((rt_phase rt' ≠ PhDone ∧ w' = w) ∨
   (weight now rt' + 3 < weight now rt ∧ w' = with_net (entrypoint_end rt (w_net w)) w)).
Proof.
  intros [H1 H2 H3 Hp] Hs. unfold child_phase, actor_step, weight in *.
  destruct (rt_phase rt) as [|src code| | | |] eqn:Hph; try done.
  - destruct Hp as (He & [k Ha] & Ht). simplify_eq. unfold entrypoint_start. rewrite He. cbn. rewrite Ha. cbn.
    split_and!; [split; cbn; try done|done|lia|by left]. split; [done|]. eexists. left.
    split; [by left|]. unfold tracker_of in *. cbn. rewrite Ht. split; [done|]. apply Tracker.wf_termination_sequence, Tracker.wf_new.
  - destruct Hp as (-> & a & [([-> |[[t ->]| ->]] & Hr & Hwf)|(-> & Hal)]).
    + unfold ActorSingle_started_by in Hs. cbn [timing] in Hs. simplify_eq. cbn.
      split_and!; [split; cbn; eauto 10|done|destruct (_ <=? _)%N; lia|by left].
    + cbn [timing] in Hs. destruct (t <=? now)%N eqn:Ht; [|done]. cbn [exec] in Hs. simplify_eq. cbn. rewrite ?Ht.
      split_and!; [split; cbn; eauto 10|done|lia|by left].
    + unfold shutdown in Hs. cbn [timing exec] in Hs.
      destruct (shutdown_childless o (rt_context rt) w Hwf Hr) as (c & Hc & Hal & Had & _).
      rewrite Hc in Hs. simplify_eq. cbn. split_and!; [split; cbn; eauto|done|lia|by left].
    + cbn in Hs. simplify_eq. cbn. split_and!; [by split|done|lia|by left].
  - unfold alive in Hp. rewrite Hp in Hs. simplify_eq. cbn. split_and!; [by split|done|lia|by left].
  - simplify_eq. cbn. split_and!; [by split|done|lia|]. right. split; [lia|done].
Qed.

(** ** The queues of [ActorMany] *)

(** The report of the end of a child. *)
Definition end_of (c : Id) : Parcel := mkParcel (OpDone c) (Envelope_instant (MsgDone c)).

Record queues_ok n (ends : list Id) : Prop := {
  qu_hp : ∃ ch, net_hp n !! addr_hp_msg_tx R = Some ch ∧ mpsc_view ch = mkMpscView (end_of <$> ends) true true;
  qu_lp : ∃ ch, net_lp n !! addr_msg_tx R = Some ch ∧ mpsc_view ch = mkMpscView [] true true
}.

Lemma queues_length n ends : queues_ok n ends → length (instant_queue n (addr_hp_msg_tx R)) = length ends.
Proof. intros [(ch & Hc & Hv) _]. unfold instant_queue. rewrite Hc, Hv. cbn. by rewrite length_fmap. Qed.

Lemma queues_kept n n' ends : net_kept n n' → queues_ok n ends → queues_ok n' ends.
Proof.
  intros (K1 & K2 & _) [(h & Hh & Hhv) (l & Hl & Hlv)].
  split; [exists h; rewrite K1 by by eexists|exists l; rewrite K2 by by eexists]; done.
Qed.

Lemma queues_first : queues_ok (AddressPair_new net_empty).2 [].
Proof.
  unfold AddressPair_new, many_address, AddressPair_new. destruct (alloc_id net_empty) as [i n] eqn:Hi.
  unfold alloc_id in Hi. destruct (Ids.unique _) as [j h]. simplify_eq. cbn.
  split; cbn; eexists; (split; [apply lookup_insert_eq|apply mpsc_channel_view]).
Qed.

(** A child that ends adds its report. *)
Lemma queues_child_end n ends rt :
  child_ok rt → joint_hp_msg_rx (rt_joint rt) ≠ addr_hp_msg_tx R →
  queues_ok n ends → queues_ok (entrypoint_end rt n) (ends ++ [rt_id rt]).
Proof.
  intros [Hn Hl _ _] Hh [(h & Hh1 & Hhv) (l & Hl1 & Hlv)].
  destruct (entrypoint_end_channels rt n) as (M1 & M2 & _).
  pose proof (mpsc_send_open (Parcel_new (OpDone (rt_id rt)) (MsgDone (rt_id rt))) h) as Hs.
  destruct Hs as (h' & Hs & Hv'); [by rewrite Hhv|].
  assert (told rt n = set_hp (addr_hp_msg_tx R) h' n) as Ht.
  { unfold told. rewrite Hn. cbn. unfold unpack_parcel, high_priority_send. rewrite Hh1. cbn. by rewrite Hs. }
  split.
  - exists h'. rewrite M1, decide_False by done. rewrite Ht. cbn. rewrite lookup_insert_eq. split; [done|].
    rewrite Hv', Hhv, fmap_app. done.
  - exists l. rewrite M2, decide_False by done. by rewrite Ht.
Qed.

(** Reading a report. *)
Lemma queues_read n c ends :
  queues_ok n (c :: ends) →
  ∃ ch', mpsc_recv <$> net_hp n !! addr_hp_msg_tx R = Some (Ready (Some (end_of c)), ch') ∧
    queues_ok (set_hp (addr_hp_msg_tx R) ch' n) ends.
Proof.
  intros [(h & Hh1 & Hhv) Hl]. destruct (mpsc_recv_some h (end_of c) (end_of <$> ends)) as (h' & Hr & Hv);
    [by rewrite Hhv|].
  exists h'. rewrite Hh1. cbn. rewrite Hr. split; [done|]. split; [|exact Hl].
  exists h'. cbn. rewrite lookup_insert_eq. split; [done|]. by rewrite Hv, Hhv.
Qed.

Lemma queues_empty n :
  queues_ok n [] →
  (∃ ch, mpsc_recv <$> net_hp n !! addr_hp_msg_tx R = Some (Pending, ch)) ∧
  (∃ ch, mpsc_recv <$> net_lp n !! addr_msg_tx R = Some (Pending, ch)).
Proof.
  intros [(h & Hh & Hhv) (l & Hl & Hlv)]. split.
  - exists h. rewrite Hh. cbn. by rewrite mpsc_recv_pending by (by rewrite Hhv).
  - exists l. rewrite Hl. cbn. by rewrite mpsc_recv_pending by (by rewrite Hlv).
Qed.

(** ** [ActorMany] *)

Definition children rt : gset Id := dom (lt_records (tracker_of rt)).

Lemma no_children rt : lt_records (tracker_of rt) = ∅ → children rt = ∅.
Proof. unfold children. intros ->. apply dom_empty_L. Qed.

(** [size]: how many actors there are. *)
Definition root_phase (size : nat) rt : Prop :=
  match rt_phase rt with
  | PhStart =>
    rt_awake_envelope rt = Some (Envelope_instant MsgAwake) ∧ rt_actor rt = ActorMany_default ∧
    tracker_of rt = Tracker.new ∧ alive rt = true ∧ size = 1
  | PhHandle src code =>
    (src = SrcAwake ∧ alive rt = true ∧ lt_terminating (tracker_of rt) = false ∧
     ∃ k id, code = spawn_singles k id (children rt) ∧ (k ≠ 0 ∨ children rt ≠ ∅) ∧ size + k = S count) ∨
    (src = SrcInstant ∧ size = S count ∧
     ((alive rt = true ∧ lt_terminating (tracker_of rt) = false ∧
       code = if decide (children rt = ∅) then shutdown (ActorMany ∅) else keep (ActorMany (children rt))) ∨
      (alive rt = false ∧ children rt = ∅ ∧ code = keep (ActorMany ∅))))
  | PhSelect =>
    size = S count ∧
    ((alive rt = true ∧ lt_terminating (tracker_of rt) = false ∧
      rt_actor rt = ActorMany (children rt) ∧ children rt ≠ ∅) ∨
     (alive rt = false ∧ children rt = ∅))
  | PhFinish => size = S count ∧ alive rt = false ∧ children rt = ∅
  | PhDone => size = S count
  | PhPanic _ => False
  end.

Record root_ok (size : nat) rt : Prop := {
  ro_id : rt_id rt = addr_id R;
  ro_address : self rt = R;
  ro_notifier : rt_done_notifier rt = NIgnore;
  ro_joint : joint_hp_msg_rx (rt_joint rt) = addr_hp_msg_tx R ∧ joint_msg_rx (rt_joint rt) = addr_msg_tx R ∧
    joint_join_tx (rt_joint rt) = rx_loc (addr_join_rx R);
  ro_scheduled : dq_view (rt_scheduled rt) = [];
  ro_wf : Tracker.wf (tracker_of rt);
  ro_phase : root_phase size rt
}.

(** A step of [ActorMany] that spawns nobody: it brings the actor nearer to its end,
    or reads a report. *)
Definition quiet (now : Instant) size rt w ends rt' w' : Prop :=
  ∃ n' ends', w' = with_net n' w ∧ root_ok size rt' ∧
    weight now rt' + 3 * length ends' < weight now rt + 3 * length ends ∧
    ((rt_phase rt' ≠ PhDone ∧ queues_ok n' ends' ∧ (n' = w_net w ∧ ends' = ends ∧ children rt' = children rt ∨
        ∃ c, ends = c :: ends' ∧ children rt' = children rt ∖ {[c]})) ∨
     (rt_phase rt' = PhDone ∧ rt_phase rt = PhFinish ∧ join R n' = Ready tt ∧ ends' = [] ∧
      instant_queue n' (addr_hp_msg_tx R) = [])).

Lemma quiet_same now size rt w ends rt' :
  queues_ok (w_net w) ends → root_ok size rt' → weight now rt' < weight now rt → rt_phase rt' ≠ PhDone →
  children rt' = children rt → quiet now size rt w ends rt' w.
Proof.
  intros Hq Hr Hw Hp Hc. exists (w_net w), ends. rewrite with_net_id. split; [done|]. split; [done|].
  split; [lia|]. left. split; [done|]. split; [done|]. by left.
Qed.

Lemma root_start o now w size rt rt' w' ends :
  root_ok size rt → queues_ok (w_net w) ends → rt_phase rt = PhStart → 0 < count →
  actor_step o now rt w = Some (rt', w') → quiet now size rt w ends rt' w'.
Proof.
  intros [H1 H2 H3 H4 H5 H6 Hp] Hq Hph Hc Hs. unfold root_phase, actor_step in *. rewrite Hph in *.
  destruct Hp as (He & Ha & Ht & Hal & ->). simplify_eq. unfold entrypoint_start. rewrite He. cbn. rewrite Ha. cbn.
  unfold ActorMany_default, tracker_of in *.
  apply quiet_same; [done| |unfold weight; rewrite Hph; cbn; destruct count; [lia|cbn; lia]|done|done].
  split; try done; cbn.
  - rewrite Ht. apply Tracker.wf_termination_sequence, Tracker.wf_new.
  - left. unfold tracker_of, children, alive. cbn. rewrite Ht. cbn. rewrite dom_empty_L. split_and!; try done.
    exists count, 1. split_and!; [done|left; lia|lia].
Qed.

Lemma root_returns o now w size rt rt' w' ends src a res :
  root_ok size rt → queues_ok (w_net w) ends → rt_phase rt = PhHandle src (CRet a res) →
  actor_step o now rt w = Some (rt', w') → quiet now size rt w ends rt' w'.
Proof.
  intros [H1 H2 H3 H4 H5 H6 Hp] Hq Hph Hs. unfold root_phase, actor_step in *. rewrite Hph in *. simplify_eq.
  enough (res = Ok tt ∧ size = S count ∧ ((alive rt = true ∧ lt_terminating (tracker_of rt) = false ∧
     a = ActorMany (children rt) ∧ children rt ≠ ∅) ∨ (alive rt = false ∧ children rt = ∅))) as (-> & -> & Hc).
  { unfold handler_returned. apply quiet_same; try done; [|unfold weight; rewrite Hph|..];
      destruct src; cbn; try done; try lia; split; done. }
  destruct Hp as [(-> & Hal & Ht & k & id & Hk & Hne & Hsz)|(-> & -> & [(Hal & Ht & Hk)|(Hal & He & Hk)])].
  - destruct k as [|k]; [|done]. cbn in Hk. unfold keep in Hk. simplify_eq.
    split; [done|]. split; [lia|]. left. split_and!; try done. by destruct Hne.
  - case_decide; [done|]. unfold keep in Hk. simplify_eq. split_and!; try done. by left.
  - unfold keep in Hk. simplify_eq. split_and!; try done. by right.
Qed.

Lemma root_shuts_down o now w size rt rt' w' ends src k :
  root_ok size rt → queues_ok (w_net w) ends → rt_phase rt = PhHandle src (CDo CmdShutdown k) →
  actor_step o now rt w = Some (rt', w') → quiet now size rt w ends rt' w'.
Proof.
  intros [H1 H2 H3 H4 H5 H6 Hp] Hq Hph Hs. unfold root_phase, actor_step in *. rewrite Hph in *.
  destruct Hp as [(-> & Hal & Ht & j & id & Hk & _)|(-> & -> & [(Hal & Ht & Hk)|(Hal & He & Hk)])];
    [by destruct j| |done].
  case_decide as He; [|done]. unfold shutdown in Hk. simplify_eq. cbn [exec] in Hs.
  unfold children in He. apply dom_empty_iff_L in He.
  destruct (shutdown_childless o (rt_context rt) w H6 He) as (c & Hc & Hcal & Had & Hr & Hwf).
  rewrite Hc in Hs. cbn [timing] in Hs. simplify_eq.
  apply quiet_same; [done| |unfold weight; rewrite Hph; cbn; lia|done|].
  - split; cbn; try done; [unfold self in *; cbn; congruence|].
    right. split; [done|]. split; [done|]. right. split; [exact Hcal|]. split; [|done].
    exact (no_children (set_context c rt) Hr).
  - exact (eq_trans (no_children (set_context c rt) Hr) (eq_sym (no_children rt He))).
Qed.

Lemma queues_dead_end n rt :
  rt_done_notifier rt = NIgnore → joint_hp_msg_rx (rt_joint rt) = addr_hp_msg_tx R →
  instant_queue (entrypoint_end rt n) (addr_hp_msg_tx R) = [].
Proof.
  intros _ Hj. destruct (entrypoint_end_channels rt n) as (M1 & _). unfold instant_queue.
  rewrite M1, decide_True by done. destruct (net_hp _ !! _); cbn; [by rewrite mpsc_drop_rx_view|done].
Qed.

Lemma root_ends o now w size rt rt' w' ends :
  root_ok size rt → queues_ok (w_net w) ends → rt_phase rt = PhFinish →
  actor_step o now rt w = Some (rt', w') → quiet now size rt w ends rt' w'.
Proof.
  intros [H1 H2 H3 (Hj1 & Hj2 & Hj3) H5 H6 Hp] Hq Hph Hs. unfold root_phase, actor_step in *.
  rewrite Hph in *. simplify_eq. destruct Hp as (-> & _).
  eexists _, []. split; [done|]. split; [by split|]. split; [unfold weight; rewrite Hph; cbn; lia|].
  right. split_and!; try done; [by apply entrypoint_end_joined|by apply queues_dead_end].
Qed.

Lemma eliminated_code c (X Y : gset Id) :
  Y = X ∖ {[c]} → ActorMany_eliminated c X =
    if decide (Y = ∅) then shutdown (ActorMany ∅) else keep (ActorMany Y).
Proof. intros ->. unfold ActorMany_eliminated. case_decide as He; [by rewrite He|done]. Qed.

Lemma root_reads o now w size rt rt' w' ends :
  root_ok size rt → queues_ok (w_net w) ends → rt_phase rt = PhSelect →
  (∀ c, c ∈ ends → c ∈ children rt) →
  actor_step o now rt w = Some (rt', w') → quiet now size rt w ends rt' w'.
Proof.
  intros [H1 H2 H3 (Hj1 & Hj2 & Hj3) H5 H6 Hp] Hq Hph Hends Hs. unfold root_phase, actor_step in *.
  rewrite Hph in *. destruct Hp as (-> & [(Hal & Ht & Ha & Hne)|(Hal & He)]); unfold alive in Hal; rewrite Hal in Hs.
  - unfold select_biased in Hs. rewrite Hj1, Hj2 in Hs. destruct ends as [|c ends].
    { destruct (queues_empty _ Hq) as [(ch1 & E1) (ch2 & E2)]. rewrite E1, E2 in Hs.
      rewrite dq_len_view, H5 in Hs. done. }
    destruct (queues_read _ _ _ Hq) as (ch & E & Hq'). rewrite E in Hs. unfold end_of in Hs.
    unfold receive_parcel in Hs. cbn [parcel_operation parcel_envelope] in Hs.
    assert (is_Some (lt_records (tracker_of rt) !! c)) as Hc by (apply elem_of_dom, Hends; left).
    set (t := Tracker.forget c (tracker_of rt)).
    assert (∀ n, Tracker.remove (ord_groups o) (ord_ids o) c (ctx_tracker (rt_context rt)) n = (t, n)) as Hrm.
    { intros n. rewrite Tracker.remove_forget. fold (tracker_of rt). fold t.
      unfold t. by rewrite Tracker.forget_terminating, Ht. }
    pose proof (finished_remove (ord_groups o) (ord_ids o) c (tracker_of rt) (w_net w) H6 Hc) as Hf.
    pose proof (Tracker.wf_forget c _ H6) as Hwf. fold t in Hwf.
    unfold tracker_of in Hf. rewrite Hrm in Hf, Hs. destruct Hf as (Hf & Htt & Hd). fold (tracker_of rt) in *.
    rewrite Ht in Hf, Htt. cbn [fst] in *.
    cbn in Hs, Hf. rewrite Hf in Hs. simplify_eq. cbn. rewrite Ha.
    eexists _, ends. split; [done|]. split.
    + split; cbn; try done. right. split; [done|]. split; [done|]. left. split; [exact Hal|]. split; [exact Htt|].
      by apply eliminated_code.
    + split; [unfold weight; rewrite Hph; cbn; unfold ActorMany_eliminated; case_decide; cbn; lia|].
      left. split; [done|]. split; [done|]. right. exists c. split; [done|]. exact Hd.
  - simplify_eq. apply quiet_same; [done|by split|unfold weight; rewrite Hph; cbn; lia|done|done].
Qed.

(** The actor that a spawn adds. *)
Definition spawned w c rt w' : Prop :=
  ∃ n', w' = mkWorld n' (<[c := rt]> (w_actors w)) (w_tasks w) ∧ w_actors w !! c = None ∧
    net_kept (w_net w) n' ∧ child_ok rt ∧ rt_phase rt = PhStart.

(** The facts about a fresh pair that a spawn relies on. *)
Lemma fresh_pair w rt i ends :
  sys_inv GNone w [] → w_actors w !! i = Some rt → rt_phase rt ≠ PhDone → queues_ok (w_net w) ends →
  let '(p, n') := AddressPair_new (w_net w) in
  w_actors w !! pair_id p = None ∧ lt_records (tracker_of rt) !! pair_id p = None ∧
  net_kept (w_net w) n' ∧ joint_msg_rx (pair_joint p) ≠ addr_msg_tx R.
Proof.
  intros Hinv Hi Hd [_ (l & Hl & _)]. pose proof (inv_new_pair _ _ _ Hinv) as Hn.
  pose proof (AddressPair_new_spec (w_net w) (inv_net _ _ _ Hinv)) as Hspec.
  destruct (AddressPair_new (w_net w)) as [p n']. cbn [fst snd] in Hn.
  destruct (inv_pair _ _ _ Hn p) as [_ P2 P3 _ _ _]; [left|].
  destruct Hspec as ((_ & J & _) & _ & _ & _ & (L1 & _ & L3 & _) & Hk & _).
  split; [done|]. split; [|split; [done|]].
  - apply eq_None_not_Some. apply (untracked w [] i rt); try done.
    intros k Hin. by apply (inv_ended _ _ _ Hinv) in Hin as [? _].
  - rewrite J. intros Heq. rewrite Heq in L3. congruence.
Qed.

Lemma root_spawns o now w size rt rt' w' ends src actor group k :
  sys_inv GNone w [] → w_actors w !! addr_id R = Some rt →
  root_ok size rt → queues_ok (w_net w) ends →
  rt_phase rt = PhHandle src (CDo (CmdSpawnActor actor group) k) →
  actor_step o now rt w = Some (rt', w') →
  root_ok (S size) rt' ∧ weight now rt' ≤ weight now rt ∧ rt_phase rt' ≠ PhDone ∧ ∃ c crt, spawned w c crt w' ∧ children rt' = {[c]} ∪ children rt.
Proof.
  intros Hinv Hi [H1 H2 H3 H4 H5 H6 Hp] Hq Hph Hs. unfold root_phase, actor_step in *. rewrite Hph in *.
  destruct Hp as [(-> & Hal & Ht & j & id & Hk & Hne & Hsz)|(-> & -> & [(Hal & Ht & Hk)|(Hal & He & Hk)])];
    [|by case_decide|done].
  destruct j as [|j]; [done|]. cbn [spawn_singles] in Hk. injection Hk as -> -> ->.
  pose proof (fresh_pair w rt (addr_id R) ends Hinv Hi ltac:(by rewrite Hph) Hq) as Hf.
  cbn [timing exec] in Hs. unfold Context_spawn_actor, Context_spawn_actor_with_addr in Hs.
  destruct (AddressPair_new (w_net w)) as [p n']. destruct Hf as (Hna & Hnt & Hk & Hj).
  rewrite !Address_clone_id in Hs. unfold Tracker.insert in Hs.
  unfold AddressPair_address in Hs. change (address_id (pair_address p)) with (pair_id p) in Hs.
  set (r := mkTRecord (N:=Notifier) (tt : @Group tests_app) (NOnce (pair_address p) OpForward)).
  pose proof (insert_silent (pair_id p) r (tracker_of rt) n' H6 Ht) as Hsil.
  pose proof (Tracker.wf_insert_record (pair_id p) r (tracker_of rt) n' H6 Hnt) as Hwf.
  destruct (dom_insert_record (pair_id p) r (tracker_of rt) n') as [Hdom Hterm].
  unfold tracker_of in Hsil, Hwf, Hdom, Hterm.
  change (Tracker.insert_record _ _ _ (w_net _)) with
    (Tracker.insert_record (pair_id p) r (ctx_tracker (rt_context rt)) n') in Hs.
  destruct (Tracker.insert_record (pair_id p) r (ctx_tracker (rt_context rt)) n') as [t n''].
  cbn [fst snd] in *. subst n''. injection Hs as <- <-.
  split; [split; try done|split; [unfold weight; rewrite Hph; cbn; destruct j; cbn; lia|split; [done|]]].
  - left. split; [done|]. split; [exact Hal|]. split; [exact (eq_trans Hterm Ht)|]. exists j, (S id).
    change (Ids.IdOf_into (Address_id (pair_address p))) with (pair_id p). split; [|split; [right|lia]].
    + f_equal. symmetry. exact Hdom.
    + intros He. pose proof (eq_trans (eq_sym Hdom) He) as Hx. set_solver.
  - exists (pair_id p). eexists. split; [|exact Hdom]. eexists. split; [done|]. split; [done|]. split; [done|].
    split; [|done]. split; cbn; [unfold self in H2; by rewrite H2|done|apply dq_new_view|].
    split; [done|]. split; [by eexists|done].
Qed.

(** ** The states of the program *)

Record running (s : State) : Prop := {
  ru_reach : sys_reachable (mkSys (st_world s) []);
  ru_tasks : w_tasks (st_world s) = ∅;
  ru_body : st_body s = BJoin R (BEnd (Ok tt)) ∨ st_body s = BEnd (Ok tt);
  ru_root : ∃ rt, w_actors (st_world s) !! addr_id R = Some rt ∧
    root_ok (size (w_actors (st_world s))) rt ∧
    ((rt_phase rt ≠ PhDone ∧ ∃ ends, queues_ok (w_net (st_world s)) ends) ∨
     (rt_phase rt = PhDone ∧ join R (w_net (st_world s)) = Ready tt ∧
      instant_queue (w_net (st_world s)) (addr_hp_msg_tx R) = [] ∧
      ∀ c crt, w_actors (st_world s) !! c = Some crt → rt_phase crt = PhDone));
  ru_children : ∀ c crt, w_actors (st_world s) !! c = Some crt → c ≠ addr_id R → child_ok crt
}.

Definition body_weight (b : Body) : nat :=
  match b with BSpawn _ _ => 2 | BJoin _ _ => 1 | _ => 0 end.

Definition measure (s : State) : nat :=
  body_weight (st_body s) + 15 * (S count - size (w_actors (st_world s))) +
  total (weight (st_now s)) (w_actors (st_world s)) + 3 * length (instant_queue (w_net (st_world s)) (addr_hp_msg_tx R)).

Lemma reports_ends n ends : queues_ok n ends → reports n (addr_hp_msg_tx R) = ends.
Proof.
  intros [(ch & Hc & Hv) _]. unfold reports, instant_queue. rewrite Hc, Hv. cbn.
  clear Hc Hv. induction ends as [|c ends IH]; [done|]. cbn. by rewrite IH.
Qed.

(** The reports that wait come from children of the tracker, and so do the actors
    that run. *)
Lemma children_known s rt ends c :
  running s → w_actors (st_world s) !! addr_id R = Some rt → root_ok (size (w_actors (st_world s))) rt →
  rt_phase rt ≠ PhDone → queues_ok (w_net (st_world s)) ends →
  c ∈ children rt ↔ (∃ crt, w_actors (st_world s) !! c = Some crt ∧ c ≠ addr_id R ∧ rt_phase crt ≠ PhDone) ∨ c ∈ ends.
Proof.
  intros [Hr Ht _ _ Hch] Hi [_ Ha Hn _ _ _ _] Hd Hq. pose proof (inv_reachable _ Hr) as Hinv.
  cbn [sys_world sys_pairs] in Hinv.
  pose proof (ok_exact_none _ _ rt c (inv_actor _ _ _ Hinv _ rt Hi) Hd) as He.
  unfold children. rewrite elem_of_dom. fold (tracked rt c). rewrite He.
  unfold queue_of. rewrite Ha, (reports_ends _ _ Hq). unfold live_child.
  split; (intros [Hl|?]; [|by right]); left.
  - destruct Hl as [(crt & Hc & Hnt & Hp)|(lr & Hlr & _)]; [|by rewrite Ht, lookup_empty in Hlr].
    exists crt. split; [done|]. split; [|done]. intros ->. congruence.
  - destruct Hl as (crt & Hc & Hne & Hp). left. exists crt. split; [done|]. split; [|done].
    rewrite (ch_notifier _ (Hch c crt Hc Hne)). by rewrite (ok_id _ _ _ _ (inv_actor _ _ _ Hinv c crt Hc)).
Qed.

Lemma done_dec rt : rt_phase rt = PhDone ∨ rt_phase rt ≠ PhDone.
Proof. destruct (rt_phase rt); auto. Qed.

Lemma childless_over s rt ends c crt :
  running s → w_actors (st_world s) !! addr_id R = Some rt → root_ok (size (w_actors (st_world s))) rt →
  rt_phase rt ≠ PhDone → queues_ok (w_net (st_world s)) ends → children rt = ∅ →
  w_actors (st_world s) !! c = Some crt → c ≠ addr_id R → rt_phase crt = PhDone.
Proof.
  intros Hrun Hi Hok Hd Hq He Hc Hne. destruct (done_dec crt) as [|Hnd]; [done|]. exfalso.
  pose proof (children_known s rt ends c Hrun Hi Hok Hd Hq) as [_ Hk]. rewrite He in Hk.
  apply (not_elem_of_empty (C:=gset Id) c), Hk. left. by exists crt.
Qed.

(** What an actor is when a child of [ActorMany] makes a step. *)
Lemma running_child o s i rt rt' w' :
  running s → sys_reachable (mkSys (put rt' w') []) → i ≠ addr_id R →
  w_actors (st_world s) !! i = Some rt → actor_step o (st_now s) rt (st_world s) = Some (rt', w') →
  let s' := mkState (st_now s) (put rt' w') (st_body s) in running s' ∧ measure s' < measure s.
Proof.
  intros [Hr Ht Hb (root & Hroot & Hok & Hcase) Hch] Hr' Hne Hi Hs. cbv zeta.
  pose proof (inv_reachable _ Hr) as Hinv. cbn [sys_world sys_pairs] in Hinv.
  destruct Hcase as [(Hd & ends & Hq)|(_ & _ & _ & Hall)].
  2: { pose proof (Hall i rt Hi) as Hp. unfold actor_step in Hs. by rewrite Hp in Hs. }
  pose proof (inv_actor _ _ _ Hinv i rt Hi) as Hact. pose proof (ok_id _ _ _ _ Hact) as Hid.
  destruct (child_step _ _ _ _ _ _ (Hch i rt Hi Hne) Hs) as (Hc' & _ & Hw & Hcase).
  pose proof (actor_step_id _ _ _ _ _ _ Hs) as Hid'.
  assert (joint_hp_msg_rx (rt_joint rt) ≠ addr_hp_msg_tx R) as Hhp.
  { rewrite (ok_joint _ _ _ _ Hact). intros Heq. apply Hne. apply (inv_holders _ _ _ Hinv i (addr_id R) (queue_of rt)).
    - left. by exists rt.
    - left. exists root. split; [done|]. unfold queue_of. by rewrite (ro_address _ _ Hok). }
  assert (∃ ends', queues_ok (w_net w') ends' ∧ w_actors w' = w_actors (st_world s) ∧ w_tasks w' = ∅ ∧
    weight (st_now s) rt' + 3 * length ends' < weight (st_now s) rt + 3 * length ends) as (ends' & Hq' & Ha & Ht' & Hm).
  { destruct Hcase as [[_ ->]|[Hlt ->]].
    - exists ends. split_and!; try done. lia.
    - exists (ends ++ [rt_id rt]). split_and!; try done.
      + by apply queues_child_end; [apply (Hch i)|..].
      + rewrite length_app. cbn. lia. }
  assert (w_actors (put rt' w') = <[i := rt']> (w_actors (st_world s))) as Hact' by (cbn; by rewrite Ha, Hid', Hid).
  assert (size (<[i := rt']> (w_actors (st_world s))) = size (w_actors (st_world s))) as Hsz
    by (apply map_size_insert_Some; by eexists).
  split.
  - split; cbn [st_world st_body]; [done|done|done| |].
    + exists root. rewrite Hact', Hsz, lookup_insert_ne by done. split; [done|]. split; [done|]. left. split; [done|]. by exists ends'.
    + intros c crt. rewrite Hact'. destruct (decide (c = i)) as [->|Hci].
      * rewrite lookup_insert_eq. by intros [= <-].
      * rewrite lookup_insert_ne by done. apply Hch.
  - unfold measure. cbn [st_now st_world st_body]. rewrite Hact', Hsz. cbn [put w_net].
    rewrite (queues_length _ _ Hq), (queues_length _ _ Hq').
    pose proof (total_update (weight (st_now s)) (w_actors (st_world s)) i rt' rt Hi). lia.
Qed.

(** The end of a step of [ActorMany] that spawned nobody. *)
Lemma running_quiet s rt rt' w' ends :
  running s → sys_reachable (mkSys (put rt' w') []) → w_actors (st_world s) !! addr_id R = Some rt →
  queues_ok (w_net (st_world s)) ends → rt_phase rt ≠ PhDone → root_ok (size (w_actors (st_world s))) rt →
  quiet (st_now s) (size (w_actors (st_world s))) rt (st_world s) ends rt' w' →
  let s' := mkState (st_now s) (put rt' w') (st_body s) in running s' ∧ measure s' < measure s.
Proof.
  intros Hrun Hr' Hi Hq Hd Hok (n' & ends' & -> & Hok' & Hw & Hcase). cbv zeta.
  pose proof Hrun as [Hr Ht Hb _ Hch].
  assert (w_actors (put rt' (with_net n' (st_world s))) = <[addr_id R := rt']> (w_actors (st_world s))) as Ha
    by (cbn; by rewrite (ro_id _ _ Hok')).
  assert (size (<[addr_id R := rt']> (w_actors (st_world s))) = size (w_actors (st_world s))) as Hsz
    by (apply map_size_insert_Some; by eexists).
  split.
  - split; cbn [st_world st_body]; [done|done|done| |].
    + exists rt'. rewrite Ha, Hsz, lookup_insert_eq. split; [done|]. split; [done|].
      destruct Hcase as [(Hp & Hq' & _)|(Hp & Hfin & Hj & _ & Hnil)]; [left; eauto|right].
      split_and!; try done. intros c crt. destruct (decide (c = addr_id R)) as [->|Hne].
      * rewrite lookup_insert_eq. by intros [= <-].
      * rewrite lookup_insert_ne by done. intros Hc.
        pose proof (ro_phase _ _ Hok) as Hph. unfold root_phase in Hph. rewrite Hfin in Hph.
        by eapply childless_over; [done..|apply Hph|done|done].
    + intros c crt. rewrite Ha. intros Hc Hne. rewrite lookup_insert_ne in Hc by done. by apply (Hch c).
  - unfold measure. cbn [st_now st_world st_body]. rewrite Ha, Hsz. cbn [put w_net with_net].
    rewrite (queues_length _ _ Hq). pose proof (total_update (weight (st_now s)) (w_actors (st_world s)) (addr_id R) rt' rt Hi).
    destruct Hcase as [(_ & Hq' & _)|(_ & _ & _ & -> & Hnil)]; [rewrite (queues_length _ _ Hq')|rewrite Hnil; cbn]; cbn in *; lia.
Qed.

Lemma running_spawn s rt rt' w' ends c crt :
  running s → sys_reachable (mkSys (put rt' w') []) → w_actors (st_world s) !! addr_id R = Some rt →
  queues_ok (w_net (st_world s)) ends → root_ok (size (w_actors (st_world s))) rt →
  root_ok (S (size (w_actors (st_world s)))) rt' → weight (st_now s) rt' ≤ weight (st_now s) rt → rt_phase rt' ≠ PhDone →
  spawned (st_world s) c crt w' → size (w_actors (st_world s)) ≤ count →
  let s' := mkState (st_now s) (put rt' w') (st_body s) in running s' ∧ measure s' < measure s.
Proof.
  intros [Hr Ht Hb _ Hch] Hr' Hi Hq Hok Hok' Hw Hp (n' & -> & Hnew & Hk & Hc & Hcp) Hsize. cbv zeta.
  assert (c ≠ addr_id R) as Hne by (intros ->; congruence).
  set (m := <[c := crt]> (w_actors (st_world s))).
  assert (m !! addr_id R = Some rt) as Hm by (unfold m; by rewrite lookup_insert_ne).
  assert (w_actors (put rt' (mkWorld n' m (w_tasks (st_world s)))) = <[addr_id R := rt']> m) as Ha
    by (cbn; by rewrite (ro_id _ _ Hok')).
  assert (size (<[addr_id R := rt']> m) = S (size (w_actors (st_world s)))) as Hsz.
  { rewrite map_size_insert_Some by by eexists. unfold m. by rewrite map_size_insert_None. }
  pose proof (queues_kept _ _ _ Hk Hq) as Hq'. split.
  - split; cbn [st_world st_body]; [done|done|done| |].
    + exists rt'. rewrite Ha, Hsz, lookup_insert_eq. split; [done|]. split; [done|]. left. split; [done|]. by exists ends.
    + intros d drt. rewrite Ha. intros Hd Hdne. rewrite lookup_insert_ne in Hd by done. unfold m in Hd.
      destruct (decide (c = d)) as [<-|Hcd]; [rewrite lookup_insert_eq in Hd; by injection Hd as <-|].
      rewrite lookup_insert_ne in Hd by done. by apply (Hch d).
  - unfold measure. cbn [st_now st_world st_body]. rewrite Ha, Hsz. cbn [put w_net].
    rewrite (queues_length _ _ Hq), (queues_length _ _ Hq').
    pose proof (total_update (weight (st_now s)) m (addr_id R) rt' rt Hm) as H1.
    pose proof (total_fresh (weight (st_now s)) (w_actors (st_world s)) c crt Hnew) as H2. fold m in H2.
    assert (weight (st_now s) crt = 14) by (unfold weight; by rewrite Hcp). lia.
Qed.

Lemma running_root o s rt rt' w' :
  0 < count → running s → sys_reachable (mkSys (put rt' w') []) →
  w_actors (st_world s) !! addr_id R = Some rt → actor_step o (st_now s) rt (st_world s) = Some (rt', w') →
  let s' := mkState (st_now s) (put rt' w') (st_body s) in running s' ∧ measure s' < measure s.
Proof.
  intros Hcount Hrun Hr' Hi Hs. destruct (ru_root _ Hrun) as (rt0 & Hi0 & Hok & Hcase). simplify_eq.
  destruct Hcase as [(Hd & ends & Hq)|(Hd & _)]; [|unfold actor_step in Hs; by rewrite Hd in Hs].
  destruct (rt_phase rt) as [|src [a res|cmd k]| | | |m] eqn:Hph.
  - eapply running_quiet; eauto; [by rewrite Hph|]. by eapply root_start.
  - eapply running_quiet; eauto; [by rewrite Hph|]. by eapply root_returns.
  - pose proof (ro_phase _ _ Hok) as Hp. unfold root_phase in Hp. rewrite Hph in Hp.
    destruct Hp as [(-> & Hal & Ht & j & id & Hk & Hne & Hsz)|(-> & Hsz & [(Hal & Ht & Hk)|(Hal & He & Hk)])]; [| |done].
    + destruct j as [|j]; [done|]. cbn [spawn_singles] in Hk. injection Hk as -> ->.
      destruct (root_spawns o (st_now s) (st_world s) _ rt rt' w' ends _ _ _ _
        (inv_reachable _ (ru_reach _ Hrun)) Hi Hok Hq Hph Hs) as (Hok' & Hw & Hp' & c & crt & Hsp & _).
      eapply running_spawn; eauto. lia.
    + case_decide; [|done]. injection Hk as -> ->.
      eapply running_quiet; eauto; [by rewrite Hph|]. by eapply root_shuts_down.
  - eapply running_quiet; eauto; [by rewrite Hph|]. eapply root_reads; eauto. intros c Hc.
    eapply children_known; eauto. by rewrite Hph.
  - eapply running_quiet; eauto; [by rewrite Hph|]. by eapply root_ends.
  - done.
  - pose proof (ro_phase _ _ Hok) as Hp. unfold root_phase in Hp. by rewrite Hph in Hp.
Qed.

Lemma running_pairs s i rt : running s → w_actors (st_world s) !! i = Some rt → pairs_kept (rt_phase rt) = true.
Proof.
  intros [_ _ _ (root & Hroot & Hok & _) Hch] Hi. destruct (decide (i = addr_id R)) as [->|Hne].
  - assert (root = rt) as -> by congruence. pose proof (ro_phase _ _ Hok) as Hp. unfold root_phase in Hp.
    destruct (rt_phase rt) as [|src code| | | |]; try done.
    destruct Hp as [(_ & _ & _ & j & id & -> & _)|(_ & _ & [(_ & _ & ->)|(_ & _ & ->)])]; [by destruct j| |done].
    by case_decide.
  - pose proof (ch_phase _ (Hch i rt Hi Hne)) as Hp. unfold child_phase in Hp.
    destruct (rt_phase rt) as [|src code| | | |]; try done. by destruct Hp as (_ & a & [([-> |[[t ->]| ->]] & _)|(-> & _)]).
Qed.

(** When the clock moves, somebody's sleep is over. *)
Lemma foldr_min_elem (t : Instant) l : foldr N.min t l ∈ t :: l.
Proof.
  induction l as [|x l IH]; cbn; [by left|]. destruct (N.min_spec x (foldr N.min t l)) as [[_ ->]|[_ ->]]; [right; by left|].
  apply elem_of_cons in IH as [->|?]; [left|right; by right].
Qed.

Lemma root_weight_later now now' rt : (now ≤ now')%N → weight now' rt ≤ weight now rt.
Proof.
  intros Hle. unfold weight. destruct (rt_phase rt) as [|src [|[]]| | | |]; try done.
  destruct (deadline <=? now')%N eqn:H1, (deadline <=? now)%N eqn:H2; try lia.
  apply N.leb_gt in H1. apply N.leb_le in H2. lia.
Qed.

Lemma running_clock s s' : running s → s' ∈ clock_succs s → running s' ∧ measure s' < measure s.
Proof.
  intros Hrun Hs. pose proof Hrun as [Hr Ht Hb (root & Hroot & Hok & Hcase) Hch]. unfold clock_succs in Hs.
  destruct (filter _ (deadlines s)) as [|t l] eqn:Hf; [set_solver|].
  apply list_elem_of_singleton in Hs as ->.
  assert (foldr N.min t l ∈ filter (λ t, st_now s < t)%N (deadlines s)) as Hin by (rewrite Hf; apply foldr_min_elem).
  generalize dependent (foldr N.min t l). intros u Hin. apply list_elem_of_filter in Hin as [Hlt Hin].
  split; [split; cbn; eauto|]. unfold measure. cbn [st_world st_body st_now].
  enough (total (weight u) (w_actors (st_world s)) < total (weight (st_now s)) (w_actors (st_world s))) by lia.
  unfold deadlines in Hin. apply elem_of_app in Hin as [Hin|Hin]; [destruct Hb as [E|E]; rewrite E in Hin; set_solver|].
  apply list_elem_of_bind in Hin as ([i rt] & Hu & Hi%elem_of_map_to_list). cbn in Hu.
  apply (total_lt _ _ _ i rt); [intros; apply root_weight_later; lia|done|].
  assert (dq_view (rt_scheduled rt) = []) as Hq.
  { destruct (decide (i = addr_id R)) as [->|Hne]; [simplify_eq; apply (ro_scheduled _ _ Hok)|].
    apply (ch_scheduled _ (Hch i rt Hi Hne)). }
  unfold actor_deadlines in Hu. rewrite Hq, app_nil_r in Hu. unfold weight.
  destruct (rt_phase rt) as [|src [|[]]| | | |]; try (by apply not_elem_of_nil in Hu).
  apply list_elem_of_singleton in Hu as <-. rewrite N.leb_refl. apply N.leb_gt in Hlt as ->. lia.
Qed.

Lemma running_step o s s' :
  0 < count → running s → s' ∈ succs test_future o s → running s' ∧ measure s' < measure s.
Proof.
  intros Hcount Hrun Hs. pose proof Hrun as [Hr Ht Hb Hroot Hch].
  assert (sys_reachable (mkSys (st_world s') [])) as Hr'.
  { unfold sys_reachable in *. etrans; [exact Hr|]. apply (succs_sys test_future test_future_outside o); [by destruct Hb as [-> | ->]| |done].
    intros i rt. by apply running_pairs. }
  assert (s' ∈ work_succs test_future o s ∨ s' ∈ clock_succs s) as [Hw|Hc]
    by (unfold succs in Hs; destruct (work_succs test_future o s); auto); [|by apply running_clock].
  unfold work_succs in Hw. rewrite !elem_of_app in Hw. destruct Hw as [Hw|[Hw|Hw]].
  - unfold body_succs in Hw. destruct Hb as [Hb|Hb]; rewrite Hb in Hw; cbn in Hw; [|set_solver].
    assert (s' = mkState (st_now s) (st_world s) (BEnd (Ok tt))) as ->.
    { destruct (join R (w_net (st_world s))); [set_solver|]. by apply list_elem_of_singleton in Hw. }
    split; [split; cbn; [done|done|by right|exact Hroot|exact Hch]|]. unfold measure. rewrite Hb. cbn. lia.
  - unfold actor_succs in Hw. apply list_elem_of_omap in Hw as ([i rt] & Hi%elem_of_map_to_list & Hw). cbn in Hw.
    destruct (actor_step _ _ _ _) as [[rt' w']|] eqn:E; simplify_eq.
    destruct (decide (i = addr_id R)) as [->|Hne]; [by eapply running_root|by eapply running_child].
  - unfold task_succs in Hw. rewrite Ht, map_to_list_empty in Hw. cbn in Hw. set_solver.
Qed.

(** ** The end *)

Lemma root_moves o now w size rt ends :
  root_ok size rt → queues_ok (w_net w) ends → rt_phase rt ≠ PhDone → (children rt ≠ ∅ → ends ≠ []) →
  is_Some (actor_step o now rt w).
Proof.
  intros [_ _ _ (Hj & _) _ _ Hp] Hq Hd Hne. unfold root_phase, actor_step in *.
  destruct (rt_phase rt) as [|src [a res|cmd k]| | | |]; try done.
  - assert (timing now cmd = Immediate) as ->; [|by destruct (exec o cmd (rt_context rt) w) as [[]]].
    destruct Hp as [(_ & _ & _ & j & id & Hk & _)|(_ & _ & [(_ & _ & Hk)|(_ & _ & Hk)])];
      [destruct j| case_decide|]; unfold keep, shutdown in Hk; cbn in Hk; by simplify_eq.
  - destruct Hp as (_ & [(Hal & _ & _ & Hc)|(Hal & _)]); unfold alive in Hal; rewrite Hal; [|done].
    destruct ends as [|c ends]; [by destruct (Hne Hc)|]. unfold select_biased. rewrite Hj.
    destruct (queues_read _ _ _ Hq) as (ch & -> & _). done.
Qed.

Lemma stuck_actor o s i rt :
  succs test_future o s = [] → w_actors (st_world s) !! i = Some rt →
  actor_step o (st_now s) rt (st_world s) = None.
Proof.
  intros Hs Hi. assert (work_succs test_future o s = []) as Hw.
  { unfold succs in Hs. by destruct (work_succs test_future o s). }
  destruct (actor_step _ _ _ _) as [[rt' w']|] eqn:E; [|done]. exfalso.
  apply (not_elem_of_nil (mkState (st_now s) (put rt' w') (st_body s))). rewrite <-Hw.
  unfold work_succs. rewrite !elem_of_app. right; left. unfold actor_succs. apply list_elem_of_omap.
  exists (i, rt). split; [by apply elem_of_map_to_list|]. cbn. by rewrite E.
Qed.

Lemma no_deadline o s i rt t :
  succs test_future o s = [] → w_actors (st_world s) !! i = Some rt → t ∈ actor_deadlines rt → ¬ (st_now s < t)%N.
Proof.
  intros Hs Hi Hd Hlt. assert (clock_succs s = []) as Hc.
  { unfold succs in Hs. by destruct (work_succs test_future o s). }
  assert (t ∈ filter (λ t, st_now s < t)%N (deadlines s)) as Hin.
  { apply list_elem_of_filter. split; [done|]. apply elem_of_app. right. apply list_elem_of_bind.
    exists (i, rt). split; [done|by apply elem_of_map_to_list]. }
  unfold clock_succs in Hc. destruct (filter _ _); [by apply not_elem_of_nil in Hin|done].
Qed.

Lemma running_final o s :
  running s → succs test_future o s = [] → passed s = true ∧ size (w_actors (st_world s)) = S count.
Proof.
  intros Hrun Hs. pose proof Hrun as [_ Ht Hb (root & Hroot & Hok & Hcase) Hch].
  destruct Hcase as [(Hd & ends & Hq)|(Hd & Hj & _ & Hall)].
  - exfalso. destruct (root_moves o (st_now s) (st_world s) _ root ends Hok Hq Hd) as [x Hx];
      [|by rewrite (stuck_actor o s _ _ Hs Hroot) in Hx].
    intros [c Hc]%set_choose_L ->. apply (children_known s root [] c Hrun Hroot Hok Hd Hq) in Hc as
      [(crt & Hc & Hne & Hnd)|Hin]; [|set_solver].
    destruct (child_moves o (st_now s) (st_world s) crt (Hch c crt Hc Hne) Hnd) as [[x Hx]|(t & Ht' & Hlt)];
      [by rewrite (stuck_actor o s _ _ Hs Hc) in Hx|]. by apply (no_deadline o s c crt t Hs Hc Ht').
  - pose proof (ro_phase _ _ Hok) as Hp. unfold root_phase in Hp. rewrite Hd in Hp. split; [|done].
    unfold passed. rewrite !andb_true_iff, !bool_decide_eq_true. split; [split|done].
    + destruct Hb as [Hb|Hb]; rewrite Hb; [|done]. exfalso. unfold succs, work_succs, body_succs in Hs.
      rewrite Hb in Hs. cbn in Hs. by rewrite Hj in Hs.
    + intros c crt Hc. cbn. by rewrite (Hall c crt Hc).
Qed.

(** The first step spawns [ActorMany]. *)
Lemma first_step o s' :
  s' ∈ succs test_future o (run test_million_actors) →
  running s' ∧ measure s' < measure (run test_million_actors).
Proof.
  intros Hs. set (w0 := mkWorld net_empty ∅ ∅ : World).
  assert (s' = mkState 0 (System_spawn ActorMany_default w0).2 (BJoin R (BEnd (Ok tt)))) as ->
    by (by apply list_elem_of_singleton in Hs).
  pose proof (step_spawn ActorMany_default w0 []) as Hstep.
  assert (∃ rt, (System_spawn ActorMany_default w0).2 =
      mkWorld (AddressPair_new net_empty).2 {[addr_id R := rt]} ∅ ∧ rt_phase rt = PhStart ∧ root_ok 1 rt)
    as (rt & Hw & Hp & Hok).
  { pose proof (AddressPair_new_spec net_empty net_wf_empty) as Hspec.
    assert (R = pair_address (AddressPair_new net_empty).1) as HR by done.
    clear Hs Hstep. unfold System_spawn, w0. cbn [w_net].
    destruct (AddressPair_new net_empty) as [p n]. destruct Hspec as ((J1 & J2 & J3) & _). cbn [fst snd] in *.
    eexists. split; [by rewrite HR|]. split; [done|].
    split; rewrite ?HR; [done|apply Address_clone_id|done|done|apply dq_new_view|apply Tracker.wf_new|done]. }
  rewrite Hw in *. cbn [snd] in *. split.
  - split; cbn; try done; [by apply rtc_once|by left| |].
    + exists rt. rewrite lookup_singleton_eq, map_size_singleton. split; [done|]. split; [done|]. left.
      split; [by rewrite Hp|]. exists []. apply queues_first.
    + intros c crt [<- _]%lookup_singleton_Some. done.
  - unfold measure. cbn [st_now st_world st_body w_actors w_net body_weight run test_million_actors].
    rewrite (queues_length _ _ queues_first), map_size_singleton, map_size_empty.
    assert (total (weight 0%N) {[addr_id R := rt]} = 14) as ->.
    { rewrite <-insert_empty. rewrite total_fresh by apply lookup_empty. unfold weight at 1. by rewrite Hp. }
    cbn. lia.
Qed.

Lemma million_invariant s :
  0 < count → s = run test_million_actors ∨ running s →
  always_ends test_future (λ s, passed s = true ∧ size (w_actors (st_world s)) = S count) s.
Proof.
  intros Hcount. apply (always_ends_measure test_future (λ s, s = run test_million_actors ∨ running s) _ measure).
  - intros o s' [-> |Hrun] Hs; [|by apply (running_final o)]. exfalso.
    unfold succs, work_succs, body_succs in Hs. cbn in Hs. done.
  - intros o s1 s2 [-> |Hrun] Hs; [apply first_step in Hs as []|apply running_step in Hs as []]; auto.
Qed.

End million.

#[local] Existing Instance ref_crates.
#[local] Existing Instance ref_errors.

